(* ===== verification/_CoqProject ===== *)
-Q . S2P
Prelude.v
Bytecodes.v
InfIntBase.v
InfIntMul.v
InfIntDiv.v
InfIntText.v
IntegerPrims.v
InfIntMore.v
Hashing.v
Lexer.v
Objects.v
Lookup.v
Universe.v
Doubles.v
HeapWalk.v
Marking.v
MarkSweep.v
Copying.v
Generational.v
DebugCopying.v
WriteBarrier.v
Frame.v
Interpreter.v
Natives.v
Activation.v
Stores.v
Messages.v
Vector.v
Strings.v
Instructions.v
Sequences.v
MethodGen.v
Peephole.v
Jumps.v
Trivial.v
Inlining.v
Parser.v
Machine.v
Startup.v
Programs.v
Shell.v
CommandLine.v
CompilerTests.v
SchemeTests.v
Disassembler.v
Tracing.v
Leaf.v
Termination.v
Agree.v
StableHeap.v
StableRun.v
StableCompiler.v
StableNatives.v
StableMachine.v
Transparency.v
