(* ===== verification/Prelude.v ===== *)
(** * SOM++: a verification development

    SOM++ is a virtual machine for SOM, a small Smalltalk. It reads class files,
    compiles their methods to bytecodes and interprets these. This library models
    the machine as executable definitions, translated from the C++ sources under
    [src/src], and proves theorems about them.

    ** The parts of the program

    - The lexer ([compiler/Lexer]) turns a text into symbols for the parser
      ([compiler/Parser]), which has one function for each production and emits code
      while it reads. The code goes through the emitters
      ([compiler/BytecodeGenerator]) into a method generation context
      ([compiler/MethodGenerationContext]), which has the code buffer, the literals,
      the scope of the variables, a window on the last four bytecodes for the
      peephole optimisations, and the inlining of control structures. In the end
      the context assembles a bytecode method ([vmobjects/VMMethod]) or, for short
      methods of a known form, a trivial method ([vmobjects/VMTrivialMethod]).
    - The interpreter ([interpreter/Interpreter]) executes the bytecodes on frames
      ([vmobjects/VMFrame]). A send finds the invokable in the class of the receiver
      ([vmobjects/VMClass]) through a cache in the symbol ([vmobjects/VMSymbol]); a
      block returns non-locally through the chain of the contexts.
    - The universe ([vm/Universe], [vm/Symbols]) has the globals and the symbol
      table, allocates the objects, sets up the system classes at the start, finds the
      files of classes on the class path and has them compiled.
    - One of four garbage collectors ([memory/]) is compiled in: mark and sweep, a
      copying collector, a variant of it for debugging, or a generational one with a write
      barrier. They walk the objects from the global variables on, with a function that
      each class of objects has for it.
    - The primitives ([primitives/]) are routines of one to three operands, or on a
      frame, that are registered by the selector ([primitivesCore/]) and installed in
      place of methods that a class declares as primitive. Those of integers use
      machine integers and the arbitrary precision integers of [lib/InfInt.h]; some
      call the interpreter again ([perform:]) or load classes.
    - The disassembler ([compiler/Disassembler], [misc/debug.h]) lists methods and classes,
      and traces the running program when it is asked to.

    ** Files

    - [Prelude]: results, the state and error monad of all stateful code with its
      rules and tactics, and integers of a width. [Bytecodes]: the instruction set.
    - [InfIntBase], [InfIntMul], [InfIntDiv], [InfIntText], [InfIntMore]: [lib/InfInt.h]. A number
      is a sign and a list of digits to the base 10^9, as in the code, with the
      loops and the carries of the code; the theorems relate it to [Z].
    - [IntegerPrims]: [primitives/Integer.cpp], [vmobjects/VMBigInteger.cpp] and
      [misc/ParseInteger.cpp]; the use of tagged pointers is a parameter.
    - [Hashing]: [misc/Murmur3Hash.cpp].
    - [Lexer]: [compiler/Lexer], with the input stream, the line buffer and the
      look-ahead as a record.
    - [Objects]: the objects of [vmobjects/], the heap, and the world: the global
      state of the machine with the symbol table, the globals and the current frame.
      [Lookup]: classes and the lookup of methods. [Universe]: globals and
      allocation. [Frame]: frames.
    - [HeapWalk]: what the collectors share: the memory with the field that every
      object has for the collector, the sizes of objects, [WalkObjects] and
      [CloneForMovingGC] of every class, the walk of the globals, and, as an interface
      ([Walker]), what a collector has to show of its function to know what a walk does.
      [Marking]: marking and sweeping in general. [MarkSweep], [Copying],
      [Generational], [DebugCopying]: the collectors. [WriteBarrier]: the write barrier, allocation, and
      programs that run between collections.
    - [Interpreter]: every bytecode handler, sends, returns, the loop, and the
      invocation of every kind of invokable. The routines of primitives are a parameter:
      a function on the world for each name of a routine.
    - [Doubles]: [primitives/Double.cpp] on IEEE doubles, with reading and printing.
      [Vector]: [vmobjects/VMVector] and [primitives/Vector.cpp]. [Natives]: all other
      primitives. What the operating system gives (output, files, the clock, random
      numbers) is the record [Environment].
    - [Machine]: the tables of the primitives, the loading of classes, the knot between
      the routines and the interpreter, the start-up and running a program.
    - [Activation]: what calls and returns do to frames. [Stores]: what operations on
      arrays do to the heap. [Messages]: messages that are not understood, and
      [perform:]. [Strings]: the primitives of strings. [Startup]: the hierarchy that
      the start-up sets up, and loading classes. [Programs]: programs that the machine
      runs from an empty heap. [Shell]: [vm/Shell.cpp]. [CommandLine]: the options, the
      class path and the program, and the start of the machine with them. [Instructions]: what a step
      executes, as a meaning of whole instructions. [Sequences]: sequences of
      instructions that do the same.
    - [MethodGen]: the method generation context and the emitters. [Peephole],
      [Jumps], [Trivial]: the correctness of the optimisations, of jumps, and of
      trivial methods, which connect the compiler with the interpreter.
    - [Inlining]: the inlining of block methods into their outer methods. [Parser]:
      the productions, the contexts of classes, and the assembly of a class.
      [CompilerTests], [SchemeTests]: the expectations of
      [unitTests/BytecodeGenerationTest.cpp] and [unitTests/TrivialMethodTest.cpp], and
      methods the compiler does not handle. [Termination]: what the parser uses up,
      and that it ends.
    - [Disassembler]: the listings, the trace, the debug strings of all objects, and the
      formats of [printf] that they use. [Tracing]: the interpreter that traces every
      bytecode, and what the output does to the machine.
    - [Leaf]: methods without calls and loops.
    - [Agree]: a calculus for what an operation depends on: two states agree on a set of
      locations, and an operation is stable if it ends alike from any two such states.
      [StableHeap], [StableRun], [StableCompiler], [StableNatives], [StableMachine]: every
      operation of the machine is stable. [Transparency]: the interpreter with the
      collections that it starts between bytecodes, and the theorems on them.

    ** Correspondence

    Definitions have the names of the code. A pointer is null, a tagged integer or a
    location of the heap (a finite map from locations to objects), so that sharing and
    mutation are those of the code. A member function takes its object, the parts of
    the state it uses are threaded by the monad [stateful], and it ends in a value or
    in an [error]: an [ErrorExit] or parse error of the code, [Undef] where C++ does
    not define the behaviour (assertions are not compiled in, so what they exclude is
    modelled), or [OutOfFuel]. A [uint8_t], [size_t] or [int64_t] is an integer [Z]
    that is wrapped or checked where the code can leave its range. The collectors work
    on a memory of their own, a map of objects with their collector fields. The machine
    allocates at locations that were never used before; [Transparency] runs it with the
    mark and sweep collector on its heap. [malloc] is a parameter of the heaps: it returns null or memory
    that is not in use; the sizes of the structs are a parameter too.

    ** The theorems

    - Sends find what the class hierarchy defines, whatever is in the caches
      ([Lookup]), and symbols are unique.
    - Calls, returns and non-local returns of blocks have the effect on the stack of
      frames that the language promises ([Activation]). A message that an object does not
      understand reaches it as [doesNotUnderstand:arguments:], and [perform:] of a message
      that is understood is a send ([Messages]).
    - Every registered primitive has a routine, and, unless it works on the frame itself,
      as many operands as its selector ([Machine]). The start-up ties the knot of classes and metaclasses, and a class is
      loaded once ([Startup]). A command line is understood as it is meant
      ([CommandLine]).
    - A vector is a list for the uses that the code handles ([Vector]: not for [remove:] of
      an object before the end, and [last] after [removeFirst]); doubles compute exactly with integers below 2^53 ([Doubles]);
      substrings and concatenation are inverse, and symbols are equal when their
      characters are ([Strings]).
    - A step of the interpreter executes one instruction ([Instructions]); code after
      a peephole optimisation does what the code without it does ([Peephole]), for
      every state of the machine in which the code can run; patched jumps lead where
      they should ([Jumps]); a trivial method does what calling the bytecode method
      does, apart from the cases that its theorem names ([Trivial]).
    - The arithmetic of [InfInt] is exact, its forms are canonical, printing and
      reading are inverse ([InfInt*]); the integer primitives compute the exact
      results or, where they do not, what they compute instead is stated
      ([IntegerPrims]).
    - The lexer ends on every input and reads outside a line only after a backslash
      ([Lexer]). The compiler ends on every text ([Termination]); a class that is its own
      superclass is loaded for ever.
    - The output of the disassembler changes nothing but entries of lookup caches, and the
      listing of a method reads nothing but its code ([Tracing]).
    - A method without calls and loops returns to its caller, or stops with an error,
      within as many bytecodes as it has bytes ([Leaf]).
    - A collection ends, and keeps what can be reached from the globals and nothing
      else: as it was ([MarkSweep]), or in an isomorphic copy with all pointers replaced
      ([Copying], [Generational]; a minor collection also keeps what the old objects on the
      list of the write barrier lead to); the space for the copies is always enough, unless
      [malloc] returns null, and the memory is ready for the next collection. Between
      collections the write barrier knows the old objects that refer to young ones, as a
      program stores pointers, fills the caches of symbols and allocates; storing into a
      running method and copying a large array are the exceptions ([WriteBarrier]).
    - In every state that a program can come to, all references lead to objects; and
      collections cannot be observed: a run with the mark and sweep collector ends like
      one in which nothing is ever freed ([Transparency]). Both are about collections of
      states in which the collector follows no null, and in which every entry of a cache
      that it does not follow refers to an object that is reachable otherwise
      ([collectable]); the code does not ensure the latter.
    - The hash separates keys that differ in one block ([Hashing]).

    ** Bounds and fuel

    A loop of the code whose end is not structural has a fuel argument, and running
    out of it is the error [OutOfFuel]. The lexer passes more than the length of the
    remaining input, the lookup more than the number of objects of the heap, the
    division of [InfInt] the number of its digits and a bound of the binary search;
    theorems show that this is enough. The recursion of a collector is as deep as there
    are objects, which the theorems show as well. The loop of the interpreter does not end for
    every program: its fuel is the number of steps. The parser has the nesting depth
    of its productions as fuel, the machine runs it with twelve times the length of the
    text, which is enough. A recursion over blocks that are nested in each other, or over
    superclasses, that is deeper than there are objects runs in a cycle and overflows the
    stack, which is [Undef]. The routines and the interpreter call each other: a second fuel bounds this
    nesting, and that of superclasses that have to be loaded.

    The loops of [InfInt] count limbs in an [int]: the model of its arithmetic is that of
    numbers with fewer than 2^31 limbs of nine digits. The reading of a text has the cast of
    its length to [int], and its theorems the bound.

    ** Not modelled

    The log of allocations, timing, the heat map, and the debug checks of special builds;
    [VMFrame::PrintStack], which only a debugger calls and which shows slots above the top
    of the stack, of which the model keeps nothing. The characters that reach the terminal
    are those that the parameter for the output gets. The allocator and the profilers under
    [gperftools-2.0] are a copy of another project; neither the build nor the sources of the
    machine refer to it. *)
From Stdlib Require Import String.
From Stdlib Require Export ZArith Lia.
From stdpp Require Export base list option.

#[export] Set Default Goal Selector "!".
Global Open Scope Z_scope.

(** ** Results of fallible code

    [ErrorExit] and [ParseError] leave the program; [Undef] stands for an
    execution whose behaviour C++ does not define (a read outside an array, for
    instance), [OutOfFuel] for a loop that the model did not run to its end; the
    theorems on the loops say that this does not happen. *)

Inductive error : Type :=
  | ErrorExit (msg : string)
  | ParseError
  | Undef
  | OutOfFuel.

Inductive result (A : Type) : Type :=
  | Ok (a : A)
  | Err (e : error).
Arguments Ok {A} a.
Arguments Err {A} e.

#[export] Instance result_ret : MRet result := fun A a => Ok a.
#[export] Instance result_bind : MBind result := fun A B f m =>
  match m with Ok a => f a | Err e => Err e end.

Definition of_option {A} (e : error) (o : option A) : result A :=
  match o with Some a => Ok a | None => Err e end.

(** Code that reads and writes a state and may fail. *)
Definition stateful (S A : Type) : Type := S -> result (A * S).

#[export] Instance stateful_ret {S} : MRet (stateful S) := fun A a s => Ok (a, s).
#[export] Instance stateful_bind {S} : MBind (stateful S) := fun A B f m s =>
  match m s with Ok (a, s') => f a s' | Err e => Err e end.

Definition fail {S A} (e : error) : stateful S A := fun _ => Err e.
Definition get {S} : stateful S S := fun s => Ok (s, s).
Definition put {S} (s : S) : stateful S () := fun _ => Ok (tt, s).
Definition modify {S} (f : S -> S) : stateful S () := fun s => Ok (tt, f s).
Definition lift {S A} (r : result A) : stateful S A := fun s =>
  match r with Ok a => Ok (a, s) | Err e => Err e end.
Definition gets {S A} (f : S -> A) : stateful S A := fun s => Ok (f s, s).

Lemma bind_Ok {S A B} (m : stateful S A) (f : A -> stateful S B) s b s' :
  (m ≫= f) s = Ok (b, s') <-> exists a s1, m s = Ok (a, s1) /\ f a s1 = Ok (b, s').
Proof.
  unfold mbind, stateful_bind. destruct (m s) as [[a s1]|e].
  - split; [by eauto|]. intros (? & ? & [= <- <-] & ?). done.
  - split; [done|]. by intros (? & ? & ? & ?).
Qed.

(** ** Stepping through monadic code *)

Lemma bind_step {S A B} (m : stateful S A) (f : A -> stateful S B) s a s1 :
  m s = Ok (a, s1) -> (m ≫= f) s = f a s1.
Proof. intros H. unfold mbind, stateful_bind. by rewrite H. Qed.

Lemma bind_err {S A B} (m : stateful S A) (f : A -> stateful S B) s e :
  m s = Err e -> (m ≫= f) s = Err e.
Proof. unfold mbind, stateful_bind. by intros ->. Qed.

Lemma bind_assoc {S A B C} (m : stateful S A) (f : A -> stateful S B) (g : B -> stateful S C) s :
  ((m ≫= f) ≫= g) s = (m ≫= (fun a => f a ≫= g)) s.
Proof. unfold mbind, stateful_bind. by destruct (m s) as [[a s']|e]. Qed.

Lemma ret_step {S A} (a : A) (s : S) : mret (M := stateful S) a s = Ok (a, s).
Proof. done. Qed.

Lemma gets_step {S A} (f : S -> A) (s : S) : gets f s = Ok (f s, s).
Proof. done. Qed.

Lemma lift_step {S A} (a : A) (s : S) : lift (Ok a) s = Ok (a, s).
Proof. done. Qed.

Lemma modify_step {S} (f : S -> S) (s : S) : modify f s = Ok (tt, f s).
Proof. done. Qed.

(** Lemmas of the form [m s = Ok (a, s')]. *)
Create HintDb run discriminated.
#[export] Hint Resolve ret_step gets_step lift_step modify_step : run.

(** Runs the first action of a sequence. *)
Ltac mstep := first
  [ erewrite bind_step by (eauto with run)
  | rewrite bind_assoc; mstep ].
Ltac mrun := repeat (mstep; cbn beta iota).

(** Splits [H : m s = Ok (a, s')] for a sequence [m]. *)
Ltac minv H :=
  let a := fresh "x" in let s := fresh "s" in let E := fresh "E" in
  apply bind_Ok in H; destruct H as (a & s & E & H).

(** ** Machine widths *)

Definition uwrap (w z : Z) : Z := z mod 2 ^ w.
Definition swrap (w z : Z) : Z := (z + 2 ^ (w - 1)) mod 2 ^ w - 2 ^ (w - 1).

Notation u8 := (uwrap 8).
Notation u16 := (uwrap 16).
Notation u32 := (uwrap 32).
Notation u64 := (uwrap 64).
Notation i32 := (swrap 32).
Notation i64 := (swrap 64).

Lemma uwrap_range w z : 0 <= w -> 0 <= uwrap w z < 2 ^ w.
Proof. intros ?. apply Z.mod_pos_bound, Z.pow_pos_nonneg; lia. Qed.

Lemma uwrap_small w z : 0 <= z < 2 ^ w -> uwrap w z = z.
Proof. apply Z.mod_small. Qed.

Lemma swrap_range w z : 0 < w -> - 2 ^ (w - 1) <= swrap w z < 2 ^ (w - 1).
Proof.
  intros Hw. unfold swrap.
  assert (2 ^ w = 2 * 2 ^ (w - 1)) as E
    by (rewrite <- Z.pow_succ_r; [f_equal; lia | lia]).
  pose proof (Z.mod_pos_bound (z + 2 ^ (w - 1)) (2 ^ w)) as B.
  pose proof (Z.pow_pos_nonneg 2 (w - 1)). lia.
Qed.

Lemma swrap_small w z :
  0 < w -> - 2 ^ (w - 1) <= z < 2 ^ (w - 1) -> swrap w z = z.
Proof.
  intros Hw Hz. unfold swrap.
  assert (2 ^ w = 2 * 2 ^ (w - 1)) as E
    by (rewrite <- Z.pow_succ_r; [f_equal; lia | lia]).
  rewrite Z.mod_small; lia.
Qed.
