(* ===== verification/Bytecodes.v ===== *)
(** * Bytecodes

    The instruction set of [src/src/interpreter/bytecodes.h] and
    [bytecodes.cpp]: the opcodes and their numbers, the tables of lengths and
    names, the classification functions the peephole optimiser uses, and the
    two-byte jump offsets. *)
From Stdlib Require Import String.
From S2P Require Import Prelude.

(** The opcodes, in the order of their numbers. *)
Inductive bytecode : Type :=
  | BC_HALT | BC_DUP | BC_DUP_SECOND | BC_PUSH_LOCAL | BC_PUSH_LOCAL_0
  | BC_PUSH_LOCAL_1 | BC_PUSH_LOCAL_2 | BC_PUSH_ARGUMENT | BC_PUSH_SELF
  | BC_PUSH_ARG_1 | BC_PUSH_ARG_2 | BC_PUSH_FIELD | BC_PUSH_FIELD_0
  | BC_PUSH_FIELD_1 | BC_PUSH_BLOCK | BC_PUSH_CONSTANT | BC_PUSH_CONSTANT_0
  | BC_PUSH_CONSTANT_1 | BC_PUSH_CONSTANT_2 | BC_PUSH_0 | BC_PUSH_1
  | BC_PUSH_NIL | BC_PUSH_GLOBAL | BC_POP | BC_POP_LOCAL | BC_POP_LOCAL_0
  | BC_POP_LOCAL_1 | BC_POP_LOCAL_2 | BC_POP_ARGUMENT | BC_POP_FIELD
  | BC_POP_FIELD_0 | BC_POP_FIELD_1 | BC_SEND | BC_SEND_1 | BC_SUPER_SEND
  | BC_RETURN_LOCAL | BC_RETURN_NON_LOCAL | BC_RETURN_SELF
  | BC_RETURN_FIELD_0 | BC_RETURN_FIELD_1 | BC_RETURN_FIELD_2 | BC_INC
  | BC_DEC | BC_INC_FIELD | BC_INC_FIELD_PUSH | BC_JUMP
  | BC_JUMP_ON_FALSE_POP | BC_JUMP_ON_TRUE_POP | BC_JUMP_ON_FALSE_TOP_NIL
  | BC_JUMP_ON_TRUE_TOP_NIL | BC_JUMP_ON_NOT_NIL_POP | BC_JUMP_ON_NIL_POP
  | BC_JUMP_ON_NOT_NIL_TOP_TOP | BC_JUMP_ON_NIL_TOP_TOP
  | BC_JUMP_IF_GREATER | BC_JUMP_BACKWARD | BC_JUMP2
  | BC_JUMP2_ON_FALSE_POP | BC_JUMP2_ON_TRUE_POP
  | BC_JUMP2_ON_FALSE_TOP_NIL | BC_JUMP2_ON_TRUE_TOP_NIL
  | BC_JUMP2_ON_NOT_NIL_POP | BC_JUMP2_ON_NIL_POP
  | BC_JUMP2_ON_NOT_NIL_TOP_TOP | BC_JUMP2_ON_NIL_TOP_TOP
  | BC_JUMP2_IF_GREATER | BC_JUMP2_BACKWARD.

#[export] Instance bytecode_eq_dec : EqDecision bytecode.
Proof. solve_decision. Defined.

Definition all_bytecodes : list bytecode :=
  [BC_HALT; BC_DUP; BC_DUP_SECOND; BC_PUSH_LOCAL; BC_PUSH_LOCAL_0;
   BC_PUSH_LOCAL_1; BC_PUSH_LOCAL_2; BC_PUSH_ARGUMENT; BC_PUSH_SELF;
   BC_PUSH_ARG_1; BC_PUSH_ARG_2; BC_PUSH_FIELD; BC_PUSH_FIELD_0;
   BC_PUSH_FIELD_1; BC_PUSH_BLOCK; BC_PUSH_CONSTANT; BC_PUSH_CONSTANT_0;
   BC_PUSH_CONSTANT_1; BC_PUSH_CONSTANT_2; BC_PUSH_0; BC_PUSH_1;
   BC_PUSH_NIL; BC_PUSH_GLOBAL; BC_POP; BC_POP_LOCAL; BC_POP_LOCAL_0;
   BC_POP_LOCAL_1; BC_POP_LOCAL_2; BC_POP_ARGUMENT; BC_POP_FIELD;
   BC_POP_FIELD_0; BC_POP_FIELD_1; BC_SEND; BC_SEND_1; BC_SUPER_SEND;
   BC_RETURN_LOCAL; BC_RETURN_NON_LOCAL; BC_RETURN_SELF; BC_RETURN_FIELD_0;
   BC_RETURN_FIELD_1; BC_RETURN_FIELD_2; BC_INC; BC_DEC; BC_INC_FIELD;
   BC_INC_FIELD_PUSH; BC_JUMP; BC_JUMP_ON_FALSE_POP; BC_JUMP_ON_TRUE_POP;
   BC_JUMP_ON_FALSE_TOP_NIL; BC_JUMP_ON_TRUE_TOP_NIL;
   BC_JUMP_ON_NOT_NIL_POP; BC_JUMP_ON_NIL_POP; BC_JUMP_ON_NOT_NIL_TOP_TOP;
   BC_JUMP_ON_NIL_TOP_TOP; BC_JUMP_IF_GREATER; BC_JUMP_BACKWARD; BC_JUMP2;
   BC_JUMP2_ON_FALSE_POP; BC_JUMP2_ON_TRUE_POP; BC_JUMP2_ON_FALSE_TOP_NIL;
   BC_JUMP2_ON_TRUE_TOP_NIL; BC_JUMP2_ON_NOT_NIL_POP; BC_JUMP2_ON_NIL_POP;
   BC_JUMP2_ON_NOT_NIL_TOP_TOP; BC_JUMP2_ON_NIL_TOP_TOP;
   BC_JUMP2_IF_GREATER; BC_JUMP2_BACKWARD].

(** The number of an opcode is its position; bytecode arrays hold numbers. *)
Definition code (b : bytecode) : Z :=
  match b with
  | BC_HALT => 0 | BC_DUP => 1 | BC_DUP_SECOND => 2 | BC_PUSH_LOCAL => 3
  | BC_PUSH_LOCAL_0 => 4 | BC_PUSH_LOCAL_1 => 5 | BC_PUSH_LOCAL_2 => 6
  | BC_PUSH_ARGUMENT => 7 | BC_PUSH_SELF => 8 | BC_PUSH_ARG_1 => 9
  | BC_PUSH_ARG_2 => 10 | BC_PUSH_FIELD => 11 | BC_PUSH_FIELD_0 => 12
  | BC_PUSH_FIELD_1 => 13 | BC_PUSH_BLOCK => 14 | BC_PUSH_CONSTANT => 15
  | BC_PUSH_CONSTANT_0 => 16 | BC_PUSH_CONSTANT_1 => 17
  | BC_PUSH_CONSTANT_2 => 18 | BC_PUSH_0 => 19 | BC_PUSH_1 => 20
  | BC_PUSH_NIL => 21 | BC_PUSH_GLOBAL => 22 | BC_POP => 23
  | BC_POP_LOCAL => 24 | BC_POP_LOCAL_0 => 25 | BC_POP_LOCAL_1 => 26
  | BC_POP_LOCAL_2 => 27 | BC_POP_ARGUMENT => 28 | BC_POP_FIELD => 29
  | BC_POP_FIELD_0 => 30 | BC_POP_FIELD_1 => 31 | BC_SEND => 32
  | BC_SEND_1 => 33 | BC_SUPER_SEND => 34 | BC_RETURN_LOCAL => 35
  | BC_RETURN_NON_LOCAL => 36 | BC_RETURN_SELF => 37
  | BC_RETURN_FIELD_0 => 38 | BC_RETURN_FIELD_1 => 39
  | BC_RETURN_FIELD_2 => 40 | BC_INC => 41 | BC_DEC => 42
  | BC_INC_FIELD => 43 | BC_INC_FIELD_PUSH => 44 | BC_JUMP => 45
  | BC_JUMP_ON_FALSE_POP => 46 | BC_JUMP_ON_TRUE_POP => 47
  | BC_JUMP_ON_FALSE_TOP_NIL => 48 | BC_JUMP_ON_TRUE_TOP_NIL => 49
  | BC_JUMP_ON_NOT_NIL_POP => 50 | BC_JUMP_ON_NIL_POP => 51
  | BC_JUMP_ON_NOT_NIL_TOP_TOP => 52 | BC_JUMP_ON_NIL_TOP_TOP => 53
  | BC_JUMP_IF_GREATER => 54 | BC_JUMP_BACKWARD => 55 | BC_JUMP2 => 56
  | BC_JUMP2_ON_FALSE_POP => 57 | BC_JUMP2_ON_TRUE_POP => 58
  | BC_JUMP2_ON_FALSE_TOP_NIL => 59 | BC_JUMP2_ON_TRUE_TOP_NIL => 60
  | BC_JUMP2_ON_NOT_NIL_POP => 61 | BC_JUMP2_ON_NIL_POP => 62
  | BC_JUMP2_ON_NOT_NIL_TOP_TOP => 63 | BC_JUMP2_ON_NIL_TOP_TOP => 64
  | BC_JUMP2_IF_GREATER => 65 | BC_JUMP2_BACKWARD => 66
  end.

(** The opcode a byte stands for, if it is one. *)
Definition decode (z : Z) : option bytecode :=
  if z <? 0 then None else all_bytecodes !! Z.to_nat z.

Coercion code : bytecode >-> Z.

Definition BC_INVALID : Z := 255.
Definition LAST_BYTECODE : Z := BC_JUMP2_BACKWARD.
Definition FIRST_DOUBLE_BYTE_JUMP_BYTECODE : Z := BC_JUMP2.
Definition NUM_SINGLE_BYTE_JUMP_BYTECODES : Z := (BC_JUMP_BACKWARD - BC_JUMP) + 1.

Definition bytecodeLengths : list Z :=
  [1; 1; 1; 3; 1; 1; 1; 3; 1; 1; 1; 2; 1; 1; 2; 2; 1; 1; 1; 1; 1; 1; 2; 1;
   3; 1; 1; 1; 3; 2; 1; 1; 2; 2; 2; 1; 1; 1; 1; 1; 1; 1; 1; 2; 2; 3; 3; 3;
   3; 3; 3; 3; 3; 3; 3; 3; 3; 3; 3; 3; 3; 3; 3; 3; 3; 3; 3].

Definition bytecodeNames : list string :=
  ["HALT            "; "DUP             "; "DUP_SECOND      ";
   "PUSH_LOCAL      "; "PUSH_LOCAL_0    "; "PUSH_LOCAL_1    ";
   "PUSH_LOCAL_2    "; "PUSH_ARGUMENT   "; "PUSH_SELF       ";
   "PUSH_ARG_1      "; "PUSH_ARG_2      "; "PUSH_FIELD      ";
   "PUSH_FIELD_0    "; "PUSH_FIELD_1    "; "PUSH_BLOCK      ";
   "PUSH_CONSTANT   "; "PUSH_CONSTANT_0 "; "PUSH_CONSTANT_1 ";
   "PUSH_CONSTANT_2 "; "PUSH_0          "; "PUSH_1          ";
   "PUSH_NIL        "; "PUSH_GLOBAL     "; "POP             ";
   "POP_LOCAL       "; "POP_LOCAL_0     "; "POP_LOCAL_1     ";
   "POP_LOCAL_2     "; "POP_ARGUMENT    "; "POP_FIELD       ";
   "POP_FIELD_0     "; "POP_FIELD_1     "; "SEND            ";
   "SEND_1          "; "SUPER_SEND      "; "RETURN_LOCAL    ";
   "RETURN_NON_LOCAL"; "RETURN_SELF     "; "RETURN_FIELD_0  ";
   "RETURN_FIELD_1  "; "RETURN_FIELD_2  "; "INC             ";
   "DEC             "; "INC_FIELD       "; "INC_FIELD_PUSH  ";
   "JUMP            "; "JUMP_ON_FALSE_POP"; "JUMP_ON_TRUE_POP";
   "JUMP_ON_FALSE_TOP_NIL"; "JUMP_ON_TRUE_TOP_NIL"; "JUMP_ON_NOT_NIL_POP";
   "JUMP_ON_NIL_POP "; "JUMP_ON_NOT_NIL_TOP_TOP"; "JUMP_ON_NIL_TOP_TOP";
   "JUMP_IF_GREATER "; "JUMP_BACKWARD   "; "JUMP2           ";
   "JUMP2_ON_FALSE_POP"; "JUMP2_ON_TRUE_POP"; "JUMP2_ON_FALSE_TOP_NIL";
   "JUMP2_ON_TRUE_TOP_NIL"; "JUMP2_ON_NOT_NIL_POP"; "JUMP2_ON_NIL_POP ";
   "JUMP2_ON_NOT_NIL_TOP_TOP"; "JUMP2_ON_NIL_TOP_TOP"; "JUMP2_IF_GREATER";
   "JUMP2_BACKWARD  "]%string.

(** A read of the table with an index outside it is undefined in C++; the model
    gives 0, which is no length of an instruction. *)
Definition GetBytecodeLength (bc : Z) : Z :=
  if bc <? 0 then 0 else default 0 (bytecodeLengths !! Z.to_nat bc).

Definition ComputeOffset (byte1 byte2 : Z) : Z :=
  Z.lor byte1 (u16 (Z.shiftl byte2 8)).

Definition IsJumpBytecode (bc : Z) : bool :=
  (BC_JUMP <=? bc) && (bc <=? BC_JUMP2_BACKWARD).

Definition is_one_of (bs : list bytecode) (bc : Z) : bool :=
  existsb (fun b => bc =? code b) bs.

Definition IsPushConstBytecode (bc : Z) : Z :=
  if is_one_of [BC_PUSH_CONSTANT; BC_PUSH_CONSTANT_0; BC_PUSH_CONSTANT_1;
                BC_PUSH_CONSTANT_2; BC_PUSH_0; BC_PUSH_1; BC_PUSH_NIL] bc
  then bc else BC_INVALID.

Definition IsPushArgBytecode (bc : Z) : Z :=
  if is_one_of [BC_PUSH_SELF; BC_PUSH_ARG_1; BC_PUSH_ARG_2; BC_PUSH_ARGUMENT] bc
  then bc else BC_INVALID.

Definition IsPushFieldBytecode (bc : Z) : Z :=
  if is_one_of [BC_PUSH_FIELD; BC_PUSH_FIELD_0; BC_PUSH_FIELD_1] bc
  then bc else BC_INVALID.

Definition IsPopFieldBytecode (bc : Z) : Z :=
  if is_one_of [BC_POP_FIELD; BC_POP_FIELD_0; BC_POP_FIELD_1] bc
  then bc else BC_INVALID.

Definition IsReturnFieldBytecode (bc : Z) : Z :=
  if is_one_of [BC_RETURN_FIELD_0; BC_RETURN_FIELD_1; BC_RETURN_FIELD_2] bc
  then bc else BC_INVALID.

Definition IsPopSmthBytecode (bc : Z) : Z :=
  if is_one_of [BC_POP_LOCAL; BC_POP_LOCAL_0; BC_POP_LOCAL_1; BC_POP_LOCAL_2;
                BC_POP_ARGUMENT; BC_POP_FIELD; BC_POP_FIELD_0; BC_POP_FIELD_1] bc
  then bc else BC_INVALID.

(** [sizeof] of a table counts its entries. *)
Definition BytecodeDefinitionsAreConsistent : bool :=
  (length bytecodeNames =? length bytecodeLengths)%nat
  && (LAST_BYTECODE =? Z.of_nat (length bytecodeLengths) - 1).

(** ** Facts about the tables *)

Lemma decode_code b : decode (code b) = Some b.
Proof. by destruct b. Qed.

Lemma code_decode z b : decode z = Some b -> code b = z.
Proof.
  unfold decode. case_match eqn:Hz; [done|]. intros Hb.
  apply Z.ltb_ge in Hz.
  assert (forall n c, all_bytecodes !! n = Some c -> code c = Z.of_nat n) as Hn.
  { intros n c Hc. do 67 (destruct n as [|n]; [by simplify_eq/=|]). done. }
  apply Hn in Hb. lia.
Qed.

Lemma code_range b : 0 <= code b <= LAST_BYTECODE.
Proof. by destruct b. Qed.

Lemma code_inj b c : code b = code c -> b = c.
Proof. intros H. apply (f_equal decode) in H. rewrite !decode_code in H. congruence. Qed.

Lemma length_range b : 1 <= GetBytecodeLength (code b) <= 3.
Proof. by destruct b. Qed.

Lemma is_one_of_In bs bc : is_one_of bs bc = true <-> exists b, In b bs /\ bc = code b.
Proof.
  unfold is_one_of. rewrite existsb_exists.
  split; intros (b & ? & H); exists b; split; auto; lia.
Qed.

(** The offset of a jump is written as its low and high byte. *)
Definition offset_lo (off : Z) : Z := u8 off.
Definition offset_hi (off : Z) : Z := u8 (Z.shiftr off 8).

Lemma ComputeOffset_add b1 b2 :
  0 <= b1 < 256 -> 0 <= b2 < 256 -> ComputeOffset b1 b2 = b1 + 256 * b2.
Proof.
  intros H1 H2. unfold ComputeOffset, uwrap.
  rewrite Z.shiftl_mul_pow2 by lia. rewrite Z.mod_small by (cbn; lia).
  assert (Z.land b1 (b2 * 2 ^ 8) = 0) as E.
  { apply Z.bits_inj'. intros n Hn. rewrite Z.land_spec, Z.bits_0.
    destruct (decide (n < 8)).
    - rewrite Z.mul_pow2_bits_low by lia. apply andb_false_r.
    - rewrite (Z.bits_above_log2 b1); [done|lia|].
      destruct (decide (b1 = 0)) as [->|]; [cbn; lia|].
      enough (Z.log2 b1 < 8) by lia. apply Z.log2_lt_pow2; cbn; lia. }
  pose proof (Z.add_lor_land b1 (b2 * 2 ^ 8)). rewrite E in *. lia.
Qed.

(** Jump offsets survive being split into two bytes. *)
Lemma ComputeOffset_roundtrip off :
  0 <= off < 65536 -> ComputeOffset (offset_lo off) (offset_hi off) = off.
Proof.
  intros H. unfold offset_lo, offset_hi, uwrap.
  rewrite Z.shiftr_div_pow2 by lia. change (2 ^ 8) with 256.
  rewrite ComputeOffset_add by (apply Z.mod_pos_bound; lia).
  rewrite (Z.mod_small (off / 256)).
  - pose proof (Z.div_mod off 256). lia.
  - split; [apply Z.div_pos; lia | apply Z.div_lt_upper_bound; lia].
Qed.
