(* ===== verification/InfIntBase.v ===== *)
(** * InfInt: representation, normalisation, addition and comparison

    Arbitrary-precision integers of [src/src/lib/InfInt.h]: a sign and a vector
    of digits in base 10^9, least significant first.  Every [ELEM_TYPE] that the
    code stores is a 32-bit [int] and goes through [elem] in the model, so the
    theorems also say that no digit computation overflows. *)
From S2P Require Import Prelude.

Definition BASE : Z := 1000000000.
Definition UPPER_BOUND : Z := 999999999.

(** Storing into an [ELEM_TYPE]. *)
Definition elem (z : Z) : Z := i32 z.

Record InfInt : Type := mkInfInt { pos : bool; val : list Z }.

(** [InfInt()], the positive zero. *)
Definition InfInt_zero : InfInt := mkInfInt true [0].

(** ** Normalisation *)

(** [my_div] and [my_lldiv] truncate towards zero. *)
Definition my_div (num denom : Z) : Z * Z :=
  let quot := Z.quot num denom in (quot, num - denom * quot).

(** The [carry] is what the previous index has added to this one, or pushed
    behind the last one; a pushed element is the quotient of an [int] and [BASE],
    so the loop leaves it as it is when it comes to it. *)
Fixpoint truncate_loop (carry : Z) (val : list Z) : list Z :=
  match val with
  | [] => if carry =? 0 then [] else [carry]
  | x :: r =>
      let x := elem (x + carry) in
      if (x >=? BASE) || (x <=? - BASE)
      then let (quot, rem) := my_div x BASE in rem :: truncate_loop quot r
      else x :: truncate_loop 0 r
  end.

Definition truncateToBase (val : list Z) : list Z := truncate_loop 0 val.

(** The digit left of the zeros next to index [i] gives one unit away, the
    zeros become the largest digit.  [above] holds the digits from [i + 1] up. *)
Fixpoint borrow_pos (above : list Z) : list Z :=
  match above with
  | [] => []
  | x :: r => if x =? 0 then UPPER_BOUND :: borrow_pos r else elem (x - 1) :: r
  end.

Fixpoint borrow_neg (above : list Z) : list Z :=
  match above with
  | [] => []
  | x :: r => if x =? 0 then - UPPER_BOUND :: borrow_neg r else elem (x + 1) :: r
  end.

(** The loops of [equalizeSigns] go down from the most significant digit:
    [below] holds the digits still to come, most significant first, [above] the
    ones already passed, least significant first. *)
Fixpoint equalize_pos (above below : list Z) : list Z :=
  match below with
  | [] => above
  | x :: r =>
      if x <? 0 then equalize_pos (elem (x + BASE) :: borrow_pos above) r
      else equalize_pos (x :: above) r
  end.

Fixpoint equalize_neg (above below : list Z) : list Z :=
  match below with
  | [] => above
  | x :: r =>
      if x >? 0 then equalize_neg (elem (x - BASE) :: borrow_neg above) r
      else equalize_neg (x :: above) r
  end.

(** The first loop looks for the most significant digit that is not zero. *)
Fixpoint equalize_search (above below : list Z) : bool * list Z :=
  match below with
  | [] => (true, above)
  | x :: r =>
      if x =? 0 then equalize_search (x :: above) r
      else if x >? 0 then (true, equalize_pos (x :: above) r)
      else (false, equalize_neg (x :: above) r)
  end.

Definition equalizeSigns (val : list Z) : bool * list Z :=
  equalize_search [] (rev val).

(** Leading zeros go, but index 0 stays; on the reversed vector. *)
Fixpoint drop_zeros (rv : list Z) : list Z :=
  match rv with
  | x :: (_ :: _) as r => if x =? 0 then drop_zeros r else rv
  | _ => rv
  end.

Definition removeLeadingZeros (val : list Z) : list Z := rev (drop_zeros (rev val)).

(** [val.size() == 1 && val[0] == 0] *)
Definition single_zero (v : list Z) : bool :=
  match v with [d] => d =? 0 | _ => false end.

(** The loops that it calls count limbs in an [int]: this is the code for numbers with
    fewer than 2^31 limbs. *)
Definition correct (justCheckLeadingZeros hasValidSign : bool) (a : InfInt) : InfInt :=
  if justCheckLeadingZeros then mkInfInt (pos a) (removeLeadingZeros (val a))
  else
    let (isPositive, v) := equalizeSigns (truncateToBase (val a)) in
    if isPositive
    then mkInfInt (if single_zero v || negb hasValidSign then true else pos a)
                  (removeLeadingZeros v)
    else mkInfInt (if hasValidSign then negb (pos a) else false)
                  (removeLeadingZeros (map Z.abs v)).

(** ** Operators *)

Definition signed_digit (p : bool) (d : Z) : Z := if p then d else - d.

(** One loop over both vectors; the missing digits of the shorter one are 0. *)
Fixpoint combine_digits (f : Z -> Z -> Z) (u v : list Z) : list Z :=
  match u, v with
  | x :: u', y :: v' => elem (f x y) :: combine_digits f u' v'
  | x :: u', [] => elem (f x 0) :: combine_digits f u' []
  | [], _ => map (fun y => elem (f 0 y)) v
  end.

Definition op_add (a b : InfInt) : InfInt :=
  correct false false (mkInfInt true
    (combine_digits (fun x y => signed_digit (pos a) x + signed_digit (pos b) y)
       (val a) (val b))).

Definition op_sub (a b : InfInt) : InfInt :=
  correct false false (mkInfInt true
    (combine_digits (fun x y => signed_digit (pos a) x - signed_digit (pos b) y)
       (val a) (val b))).

(** The assignments keep the sign field until [correct], which sets it. *)
Definition op_add_assign (a b : InfInt) : InfInt :=
  correct false false (mkInfInt (pos a)
    (combine_digits (fun x y => signed_digit (pos a) x + signed_digit (pos b) y)
       (val a) (val b))).

Definition op_sub_assign (a b : InfInt) : InfInt :=
  correct false false (mkInfInt (pos a)
    (combine_digits (fun x y => signed_digit (pos a) x - signed_digit (pos b) y)
       (val a) (val b))).

Definition op_neg (a : InfInt) : InfInt := mkInfInt (negb (pos a)) (val a).

(** [val[0] += k] *)
Definition add_to_first (k : Z) (v : list Z) : list Z :=
  match v with x :: r => elem (x + k) :: r | [] => [] end.

Definition op_incr (a : InfInt) : InfInt :=
  correct false true (mkInfInt (pos a) (add_to_first (if pos a then 1 else -1) (val a))).

Definition op_decr (a : InfInt) : InfInt :=
  correct false true (mkInfInt (pos a) (add_to_first (- (if pos a then 1 else -1)) (val a))).

Definition isZero (a : InfInt) : bool := single_zero (val a).

(** ** Comparisons

    The loops run from the most significant digit, so over reversed vectors of
    one length; [lt], [gt] and [eq] are what the operator returns at a smaller
    and a larger digit and at the end. *)
Fixpoint compare_digits (lt gt eq : bool) (u v : list Z) : bool :=
  match u, v with
  | x :: u', y :: v' =>
      if x <? y then lt else if x >? y then gt else compare_digits lt gt eq u' v'
  | _, _ => eq
  end.

Fixpoint same_digits (u v : list Z) : bool :=
  match u, v with
  | x :: u', y :: v' => if negb (x =? y) then false else same_digits u' v'
  | _, _ => true
  end.

Definition size (a : InfInt) : nat := length (val a).

Definition op_eq (a b : InfInt) : bool :=
  if negb (Bool.eqb (pos a) (pos b)) || negb (size a =? size b)%nat then false
  else same_digits (rev (val a)) (rev (val b)).

Definition op_ne (a b : InfInt) : bool :=
  if negb (Bool.eqb (pos a) (pos b)) || negb (size a =? size b)%nat then true
  else negb (same_digits (rev (val a)) (rev (val b))).

Definition op_lt (a b : InfInt) : bool :=
  if pos a && negb (pos b) then false
  else if negb (pos a) && pos b then true
  else if (size b <? size a)%nat then negb (pos a)
  else if (size a <? size b)%nat then pos a
  else compare_digits (pos a) (negb (pos a)) false (rev (val a)) (rev (val b)).

Definition op_le (a b : InfInt) : bool :=
  if pos a && negb (pos b) then false
  else if negb (pos a) && pos b then true
  else if (size b <? size a)%nat then negb (pos a)
  else if (size a <? size b)%nat then pos a
  else compare_digits (pos a) (negb (pos a)) true (rev (val a)) (rev (val b)).

Definition op_gt (a b : InfInt) : bool :=
  if pos a && negb (pos b) then true
  else if negb (pos a) && pos b then false
  else if (size b <? size a)%nat then pos a
  else if (size a <? size b)%nat then negb (pos a)
  else compare_digits (negb (pos a)) (pos a) false (rev (val a)) (rev (val b)).

Definition op_ge (a b : InfInt) : bool :=
  if pos a && negb (pos b) then true
  else if negb (pos a) && pos b then false
  else if (size b <? size a)%nat then pos a
  else if (size a <? size b)%nat then negb (pos a)
  else compare_digits (negb (pos a)) (pos a) true (rev (val a)) (rev (val b)).

(** ** The integer an [InfInt] stands for *)

Fixpoint eval (v : list Z) : Z :=
  match v with [] => 0 | d :: r => d + BASE * eval r end.

Definition value (a : InfInt) : Z := signed_digit (pos a) (eval (val a)).

Definition digit (d : Z) : Prop := 0 <= d < BASE.

(** Not empty, and no leading zero but for zero itself. *)
Definition trimmed (v : list Z) : Prop :=
  match rev v with [] => False | x :: r => r = [] \/ x <> 0 end.

Definition wf (a : InfInt) : Prop := Forall digit (val a) /\ trimmed (val a).

(** Zero is positive in the canonical representation. *)
Definition canonical (a : InfInt) : Prop :=
  wf a /\ (pos a = false -> eval (val a) <> 0).

(** What truncation leaves: a digit with a sign. *)
Definition small_elem (x : Z) : Prop := - BASE < x < BASE.

Ltac unfold_base := unfold digit, small_elem, BASE, UPPER_BOUND in *.

Lemma elem_small z : - 2147483648 <= z < 2147483648 -> elem z = z.
Proof. intros. apply swrap_small; cbn; lia. Qed.

Lemma eval_app u v : eval (u ++ v) = eval u + BASE ^ Z.of_nat (length u) * eval v.
Proof.
  induction u as [|x u IH]; simpl eval; simpl app.
  - cbn [length]. rewrite Z.pow_0_r. lia.
  - simpl eval. rewrite IH. cbn [length].
    rewrite Nat2Z.inj_succ, Z.pow_succ_r by lia. ring.
Qed.

Lemma eval_opp v : eval (map Z.opp v) = - eval v.
Proof. induction v as [|x v IH]; cbn [map eval]; [lia|]. rewrite IH. ring. Qed.

Lemma eval_zeros v : Forall (eq 0) v -> eval v = 0.
Proof. induction 1; cbn [eval]; lia. Qed.

Lemma eval_bound v : Forall digit v -> 0 <= eval v < BASE ^ Z.of_nat (length v).
Proof.
  induction 1 as [|x v Hx Hv IH]; cbn [eval length]; [cbn; lia|].
  rewrite Nat2Z.inj_succ, Z.pow_succ_r by lia. unfold_base. nia.
Qed.

Lemma eval_zero_inv v : Forall digit v -> eval v = 0 -> Forall (eq 0) v.
Proof.
  induction 1 as [|x v Hx Hv IH]; cbn [eval]; [done|]. intros E.
  pose proof (eval_bound v Hv). unfold_base. constructor; [lia|apply IH; lia].
Qed.

(** *** Truncation *)

Lemma truncate_loop_spec v c :
  Forall (fun x => - 2 * UPPER_BOUND <= x <= 2 * UPPER_BOUND) v -> -1 <= c <= 1 ->
  eval (truncate_loop c v) = eval v + c /\ Forall small_elem (truncate_loop c v).
Proof.
  intros Hv. revert c. induction Hv as [|x v Hx Hv IH]; intros c Hc; cbn [truncate_loop].
  - case_match eqn:E; cbn [eval]; (split; [lia|]); [done|].
    repeat constructor; unfold_base; lia.
  - unfold_base. rewrite elem_small by lia. case_match eqn:E.
    + unfold my_div. set (q := Z.quot (x + c) 1000000000).
      assert (-1 <= q <= 1 /\ -1000000000 < x + c - 1000000000 * q < 1000000000)
        as [Hq Hr].
      { subst q. Z.to_euclidean_division_equations. lia. }
      destruct (IH q Hq) as [E1 F]. cbn [eval]. split; [unfold_base; lia|].
      constructor; [unfold_base; lia|done].
    + destruct (IH 0 ltac:(lia)) as [E1 F]. cbn [eval]. split; [unfold_base; lia|].
      constructor; [unfold_base; lia|done].
Qed.

Lemma truncate_loop_nonempty v c : v <> [] -> truncate_loop c v <> [].
Proof. destruct v as [|x v]; [done|]. cbn. by destruct (_ || _). Qed.

(** *** Equalising signs *)

Lemma borrow_pos_spec above :
  Forall digit above -> 0 < eval above ->
  eval (borrow_pos above) = eval above - 1 /\ Forall digit (borrow_pos above)
  /\ length (borrow_pos above) = length above.
Proof.
  induction 1 as [|x v Hx Hv IH]; cbn [eval borrow_pos]; [lia|]. intros Hpos.
  pose proof (eval_bound v Hv). case_match eqn:E.
  - destruct IH as (E1 & F & L); [unfold_base; lia|]. cbn [eval length].
    repeat split; [unfold_base; lia| |lia]. constructor; [unfold_base; lia|done].
  - unfold_base. rewrite elem_small by lia. cbn [eval length].
    repeat split; [unfold_base; lia|]. constructor; [unfold_base; lia|done].
Qed.

Lemma equalize_pos_spec below above :
  Forall small_elem below -> Forall digit above -> 0 < eval above ->
  eval (equalize_pos above below) = eval (rev below ++ above)
  /\ Forall digit (equalize_pos above below)
  /\ length (equalize_pos above below) = (length below + length above)%nat
  /\ 0 < eval (equalize_pos above below).
Proof.
  intros Hb. revert above. induction Hb as [|x v Hx Hv IH]; intros above Ha Hpos;
    cbn [equalize_pos rev]; [done|].
  pose proof (eval_bound above Ha). case_match eqn:E.
  - destruct (borrow_pos_spec above Ha Hpos) as (E1 & F & L).
    pose proof (eval_bound _ F).
    assert (elem (x + BASE) = x + BASE) as Ex by (apply elem_small; unfold_base; lia).
    destruct (IH (elem (x + BASE) :: borrow_pos above)) as (E2 & F2 & L2 & P2).
    { constructor; [rewrite Ex; unfold_base; lia|done]. }
    { cbn [eval]. rewrite Ex. unfold_base. lia. }
    repeat split; [|done|cbn [length] in *; lia|done].
    rewrite E2, Ex, <- app_assoc. cbn [app]. rewrite !eval_app. cbn [eval].
    rewrite E1. ring.
  - destruct (IH (x :: above)) as (E2 & F2 & L2 & P2).
    { constructor; [unfold_base; lia|done]. }
    { cbn [eval]. unfold_base. lia. }
    repeat split; [|done|cbn [length] in *; lia|done].
    rewrite E2, <- app_assoc. done.
Qed.

Lemma borrow_neg_opp above :
  Forall (fun x => digit (- x)) above ->
  borrow_neg above = map Z.opp (borrow_pos (map Z.opp above)).
Proof.
  induction 1 as [|x v Hx Hv IH]; [done|]. cbn [borrow_neg borrow_pos map].
  unfold_base. destruct (x =? 0) eqn:E.
  - replace (- x =? 0) with true by lia. cbn [map]. by rewrite IH.
  - replace (- x =? 0) with false by lia. cbn [map].
    rewrite !elem_small by lia. rewrite map_map.
    rewrite (map_ext (fun x => - - x) id) by (intros; unfold id; lia).
    rewrite map_id. f_equal. lia.
Qed.

Lemma map_opp_opp v : map Z.opp (map Z.opp v) = v.
Proof.
  rewrite map_map, (map_ext _ id) by (intros; unfold id; lia). apply map_id.
Qed.

Lemma Forall_map_opp (P : Z -> Prop) v :
  Forall P (map Z.opp v) <-> Forall (fun x => P (- x)) v.
Proof. apply Forall_map. Qed.

(** The negative branch mirrors the positive one. *)
Lemma equalize_neg_opp below above :
  Forall small_elem below -> Forall (fun x => digit (- x)) above ->
  0 < eval (map Z.opp above) ->
  equalize_neg above below = map Z.opp (equalize_pos (map Z.opp above) (map Z.opp below)).
Proof.
  intros Hb. revert above. induction Hb as [|x v Hx Hv IH]; intros above Ha Hpos;
    cbn [equalize_neg equalize_pos map]; [by rewrite map_opp_opp|].
  destruct (x >? 0) eqn:E.
  - replace (- x <? 0) with true by lia. pose proof Ha as Ha'.
    rewrite <- (Forall_map_opp digit) in Ha'.
    destruct (borrow_pos_spec _ Ha' Hpos) as (E1 & F & L).
    pose proof (eval_bound _ F).
    unfold_base. rewrite (elem_small (- x + _)) by lia.
    rewrite IH; [| |].
    + cbn [map]. rewrite borrow_neg_opp by done. rewrite map_opp_opp.
      rewrite !elem_small by lia. do 2 f_equal. f_equal. lia.
    + constructor; [rewrite elem_small; unfold_base; lia|].
      rewrite borrow_neg_opp by done. rewrite <- (Forall_map_opp digit).
      by rewrite map_opp_opp.
    + cbn [map eval]. rewrite borrow_neg_opp by done. rewrite map_opp_opp.
      rewrite elem_small by lia. unfold_base. lia.
  - replace (- x <? 0) with false by lia. rewrite IH; [done| |].
    + constructor; [unfold_base; lia|done].
    + cbn [map eval]. unfold_base. lia.
Qed.

Lemma zeros_digits v : Forall (eq 0) v -> Forall digit v.
Proof. apply Forall_impl. intros ? <-. unfold_base. lia. Qed.

Lemma equalize_search_spec below above p v :
  Forall small_elem below -> Forall (eq 0) above ->
  equalize_search above below = (p, v) ->
  eval v = eval (rev below ++ above)
  /\ length v = (length below + length above)%nat
  /\ (if p then Forall digit v
      else Forall (fun x => digit (- x)) v /\ eval v < 0).
Proof.
  intros Hb. revert above. induction Hb as [|x r Hx Hr IH]; intros above Ha;
    cbn [equalize_search rev].
  - intros [= <- <-]. repeat split. by apply zeros_digits.
  - rewrite <- app_assoc. cbn [app length]. destruct (x =? 0) eqn:E0.
    { intros H. destruct (IH (x :: above)) as (E & L & HF); [|done|].
      - constructor; [lia|done].
      - cbn [length] in L. split; [done|]. split; [lia|done]. }
    pose proof (eval_zeros _ Ha) as Ez. destruct (x >? 0) eqn:Ep; intros [= <- <-].
    + destruct (equalize_pos_spec r (x :: above)) as (E & F & L & P); [done| | |].
      * constructor; [unfold_base; lia|by apply zeros_digits].
      * cbn [eval]. unfold_base. lia.
      * cbn [length] in L. split; [done|]. split; [lia|done].
    + assert (Forall digit (map Z.opp (x :: above))) as Hd.
      { cbn [map]. constructor; [unfold_base; lia|].
        rewrite Forall_map_opp. revert Ha. apply Forall_impl.
        intros ? <-. unfold_base. lia. }
      assert (0 < eval (map Z.opp (x :: above))) as Hpos.
      { rewrite eval_opp. cbn [eval]. unfold_base. lia. }
      destruct (equalize_pos_spec (map Z.opp r) (map Z.opp (x :: above)))
        as (E & F & L & P); [|done|done|].
      { rewrite Forall_map_opp. revert Hr. apply Forall_impl. intros.
        unfold_base. lia. }
      rewrite equalize_neg_opp; [|done|by rewrite <- (Forall_map_opp digit)|done].
      rewrite length_map, L, !length_map, <- (Forall_map_opp digit), map_opp_opp.
      rewrite eval_opp. cbn [length]. repeat split; [|lia|done|lia].
      rewrite E, <- map_rev, <- map_app, eval_opp. lia.
Qed.

Lemma equalizeSigns_spec u p v :
  Forall small_elem u -> equalizeSigns u = (p, v) ->
  eval v = eval u /\ length v = length u
  /\ (if p then Forall digit v
      else Forall (fun x => digit (- x)) v /\ eval v < 0).
Proof.
  intros Hu H. apply equalize_search_spec in H; [|by apply Forall_rev|done].
  rewrite rev_involutive, app_nil_r, length_rev in H. cbn in H. by rewrite Nat.add_0_r in H.
Qed.

(** *** Leading zeros *)

Lemma drop_zeros_spec rv :
  rv <> [] -> Forall digit rv ->
  eval (rev (drop_zeros rv)) = eval (rev rv)
  /\ Forall digit (drop_zeros rv)
  /\ match drop_zeros rv with [] => False | x :: r => r = [] \/ x <> 0 end.
Proof.
  intros Hne Hd. induction Hd as [|x r Hx Hr IH]; [done|].
  destruct r as [|y r']; [split; [done|]; split; [by constructor|by left]|].
  change (drop_zeros (x :: y :: r'))
    with (if x =? 0 then drop_zeros (y :: r') else x :: y :: r').
  destruct (x =? 0) eqn:E.
  - destruct IH as (E1 & F & T); [done|]. split; [|by split].
    rewrite E1. cbn [rev]. rewrite (eval_app (rev r' ++ [y])). cbn [eval]. lia.
  - split; [done|]. split; [by constructor|]. right. lia.
Qed.

Lemma removeLeadingZeros_spec v :
  v <> [] -> Forall digit v ->
  eval (removeLeadingZeros v) = eval v
  /\ Forall digit (removeLeadingZeros v) /\ trimmed (removeLeadingZeros v).
Proof.
  intros Hne Hd. unfold removeLeadingZeros, trimmed. rewrite rev_involutive.
  destruct (drop_zeros_spec (rev v)) as (E & F & T).
  - intros Hr. apply Hne. by rewrite <- (rev_involutive v), Hr.
  - by apply Forall_rev.
  - rewrite rev_involutive in E. split; [done|]. split; [by apply Forall_rev|done].
Qed.

Lemma length_zero_nonempty {A} (v : list A) : v <> [] <-> length v <> 0%nat.
Proof. destruct v; cbn; split; congruence || lia. Qed.

Lemma map_abs_opp v : Forall (fun x => digit (- x)) v -> map Z.abs v = map Z.opp v.
Proof. induction 1; cbn [map]; [done|]. f_equal; [unfold_base; lia|done]. Qed.

(** [correct] keeps the integer that the signed digits stand for and gives its
    canonical representation. *)
Lemma correct_spec a hasValidSign :
  val a <> [] ->
  Forall (fun x => - 2 * UPPER_BOUND <= x <= 2 * UPPER_BOUND) (val a) ->
  (hasValidSign = true -> eval (val a) = 0 -> pos a = true \/ truncateToBase (val a) = [0]) ->
  let b := correct false hasValidSign a in
  value b = (if hasValidSign then value a else eval (val a)) /\ canonical b.
Proof.
  intros Hne Hb Hz. cbn zeta. unfold correct.
  destruct (truncate_loop_spec (val a) 0 Hb) as [E1 F1]; [lia|].
  pose proof (truncate_loop_nonempty (val a) 0 Hne) as Hne1.
  fold (truncateToBase (val a)) in *.
  destruct (equalizeSigns (truncateToBase (val a))) as [p v] eqn:Heq.
  apply equalizeSigns_spec in Heq as (E2 & L & HF); [|done].
  assert (v <> []) as Hnv by (rewrite length_zero_nonempty in *; lia).
  destruct p.
  - destruct (removeLeadingZeros_spec v) as (E3 & F3 & T3); [done|done|].
    pose proof (eval_bound _ HF). split.
    + unfold value. cbn [pos val]. rewrite E3. destruct hasValidSign; cbn [negb].
      * rewrite orb_false_r. unfold single_zero. destruct v as [|d [|? ?]]; [done| |].
        -- case_match eqn:Ed; cbn [signed_digit]; [|rewrite E2, E1; f_equal; lia].
           cbn [eval] in *. destruct (pos a); cbn; lia.
        -- rewrite E2, E1. f_equal. lia.
      * rewrite orb_true_r. cbn. lia.
    + split; [by split|]. cbn [pos val]. rewrite E3. destruct hasValidSign; cbn [negb].
      * rewrite orb_false_r. intros Hp Hv. rewrite Hv in E2.
        destruct (Hz eq_refl) as [Hp'|Ht]; [lia|by rewrite Hp' in Hp; destruct (single_zero v)|].
        rewrite Ht in L, E1. destruct v as [|d [|? ?]]; try done.
        cbn [eval] in Hv. cbn in Hp. replace (d =? 0) with true in Hp by lia. done.
      * by rewrite orb_true_r.
  - destruct HF as [HF Hneg]. rewrite map_abs_opp by done.
    destruct (removeLeadingZeros_spec (map Z.opp v)) as (E3 & F3 & T3).
    { destruct v; [done|]. done. }
    { by rewrite Forall_map_opp. }
    rewrite eval_opp in E3. split.
    + unfold value. cbn [pos val]. rewrite E3.
      destruct hasValidSign; [destruct (pos a)|]; cbn; lia.
    + split; [by split|]. cbn [pos val]. rewrite E3. lia.
Qed.

(** ** Addition and subtraction *)

Lemma combine_digits_spec f s t u v :
  (forall x y, f x y = s * x + t * y) -> -1 <= s <= 1 -> -1 <= t <= 1 ->
  Forall digit u -> Forall digit v ->
  eval (combine_digits f u v) = s * eval u + t * eval v
  /\ Forall (fun x => - 2 * UPPER_BOUND <= x <= 2 * UPPER_BOUND) (combine_digits f u v).
Proof.
  intros Hf Hs Ht Hu. revert v.
  assert (forall x y, digit x -> digit y -> elem (f x y) = s * x + t * y
          /\ - 2 * UPPER_BOUND <= s * x + t * y <= 2 * UPPER_BOUND) as He.
  { intros x y Hx Hy. rewrite Hf, elem_small; unfold_base; nia. }
  assert (digit 0) as D0 by (unfold_base; lia).
  induction Hu as [|x u Hx Hu IH]; intros v Hv.
  - cbn [combine_digits]. induction Hv as [|y v Hy Hv IHv]; cbn [map eval]; [split; [lia|done]|].
    destruct IHv as [E F]. destruct (He 0 y D0 Hy) as [-> B].
    split; [rewrite E; cbn [eval]; lia|by constructor].
  - destruct Hv as [|y v Hy Hv]; cbn [combine_digits eval].
    + destruct (IH []) as [-> F]; [done|]. destruct (He x 0 Hx D0) as [-> B].
      split; [cbn [eval]; lia|by constructor].
    + destruct (IH v) as [-> F]; [done|]. destruct (He x y Hx Hy) as [-> B].
      split; [lia|by constructor].
Qed.

Lemma combine_digits_nonempty f u v : u <> [] -> combine_digits f u v <> [].
Proof. by destruct u, v. Qed.

Lemma trimmed_nonempty v : trimmed v -> v <> [].
Proof. by intros H ->. Qed.

Definition sign (p : bool) : Z := if p then 1 else -1.

Lemma signed_digit_sign p d : signed_digit p d = sign p * d.
Proof. destruct p; cbn [signed_digit sign]; lia. Qed.

Lemma sign_range p : -1 <= sign p <= 1.
Proof. destruct p; cbn; lia. Qed.

Lemma correct_combine f s t a b p :
  (forall x y, f x y = s * x + t * y) -> -1 <= s <= 1 -> -1 <= t <= 1 ->
  wf a -> wf b ->
  let r := correct false false (mkInfInt p (combine_digits f (val a) (val b))) in
  value r = s * eval (val a) + t * eval (val b) /\ canonical r.
Proof.
  intros Hf Hs Ht [Da Ta] [Db Tb]. cbn zeta.
  destruct (combine_digits_spec f s t (val a) (val b)) as [E F]; [done..|].
  rewrite <- E. apply (correct_spec (mkInfInt p _) false); [|done|done].
  by apply combine_digits_nonempty, trimmed_nonempty.
Qed.

Lemma op_add_spec a b :
  wf a -> wf b -> value (op_add a b) = value a + value b /\ canonical (op_add a b).
Proof.
  intros. unfold op_add. unfold value at 2 3. rewrite !signed_digit_sign.
  apply (correct_combine _ (sign (pos a)) (sign (pos b)));
    auto using sign_range. intros. by rewrite !signed_digit_sign.
Qed.

Lemma op_sub_spec a b :
  wf a -> wf b -> value (op_sub a b) = value a - value b /\ canonical (op_sub a b).
Proof.
  intros. unfold op_sub. unfold value at 2 3. rewrite !signed_digit_sign.
  rewrite <- Z.add_opp_r, <- Z.mul_opp_l. pose proof (sign_range (pos b)).
  apply (correct_combine _ (sign (pos a)) (- sign (pos b)));
    auto using sign_range; [|lia]. intros. rewrite !signed_digit_sign. lia.
Qed.

Lemma correct_sign p q v hv :
  hv = false -> correct false hv (mkInfInt p v) = correct false hv (mkInfInt q v).
Proof. intros ->. unfold correct. cbn [val pos negb].
  destruct (equalizeSigns _) as [[] v']; by rewrite ?orb_true_r.
Qed.

Lemma op_add_assign_eq a b : op_add_assign a b = op_add a b.
Proof. by apply correct_sign. Qed.

Lemma op_sub_assign_eq a b : op_sub_assign a b = op_sub a b.
Proof. by apply correct_sign. Qed.

(** ** Increment and decrement *)

Lemma correct_add_to_first a k :
  wf a -> -1 <= k <= 1 ->
  let b := correct false true (mkInfInt (pos a) (add_to_first k (val a))) in
  value b = value a + signed_digit (pos a) k /\ canonical b.
Proof.
  intros [Da Ta] Hk. cbn zeta. pose proof (trimmed_nonempty _ Ta).
  destruct (val a) as [|d r] eqn:Ea; [done|]. apply Forall_cons_iff in Da as [Dd Dr].
  assert (elem (d + k) = d + k) as He by (apply elem_small; unfold_base; lia).
  destruct (correct_spec (mkInfInt (pos a) (add_to_first k (val a))) true) as [E C].
  - by rewrite Ea.
  - rewrite Ea. cbn [val add_to_first]. rewrite He. constructor; [unfold_base; lia|].
    revert Dr. apply Forall_impl. unfold_base. lia.
  - rewrite Ea. cbn [val add_to_first eval pos]. rewrite He. intros _ Hz.
    pose proof (eval_bound _ Dr). destruct r as [|y r'].
    + right. cbn [eval] in Hz. unfold_base. cbn. rewrite Z.add_0_r, elem_small by lia.
      replace (d + k) with 0 by lia. done.
    + exfalso. assert (eval (y :: r') <> 0); [|unfold_base; lia].
      intros Hy. apply eval_zero_inv in Hy; [|done].
      unfold trimmed in Ta. cbn [rev] in Ta.
      destruct (rev r' ++ [y]) as [|z zs] eqn:Hr; [by destruct (rev r')|].
      assert (Forall (eq 0) (z :: zs)) as Hzs.
      { rewrite <- Hr. change (Forall (eq 0) (rev (y :: r'))). by apply Forall_rev. }
      apply Forall_cons_iff in Hzs as [<- _]. cbn in Ta. destruct Ta as [Ta|]; [|done].
      by destruct zs.
  - rewrite Ea in E, C. split; [|done]. rewrite E. unfold value. cbn [pos val add_to_first].
    rewrite Ea. cbn [eval]. rewrite He. destruct (pos a); cbn; lia.
Qed.

Lemma op_incr_spec a : wf a -> value (op_incr a) = value a + 1 /\ canonical (op_incr a).
Proof.
  intros Ha. pose proof (correct_add_to_first a (if pos a then 1 else -1) Ha) as H.
  unfold op_incr. destruct (pos a); apply H; lia.
Qed.

Lemma op_decr_spec a : wf a -> value (op_decr a) = value a - 1 /\ canonical (op_decr a).
Proof.
  intros Ha. pose proof (correct_add_to_first a (- (if pos a then 1 else -1)) Ha) as H.
  unfold op_decr. destruct (pos a); apply H; lia.
Qed.

Lemma op_neg_spec a : wf a -> value (op_neg a) = - value a /\ wf (op_neg a).
Proof. intros Ha. split; [|done]. unfold value. cbn. destruct (pos a); cbn; lia. Qed.

(** ** Comparisons decide the order of the integers *)

Lemma compare_digits_spec lt gt eq u v :
  length u = length v -> Forall digit u -> Forall digit v ->
  compare_digits lt gt eq u v =
    if eval (rev u) <? eval (rev v) then lt
    else if eval (rev u) >? eval (rev v) then gt else eq.
Proof.
  intros HL Hu. revert v HL. induction Hu as [|x u Hx Hu IH]; intros [|y v] HL Hv;
    cbn [length] in HL; [done|lia|lia|]. injection HL as HL.
  apply Forall_cons_iff in Hv as [Hy Hv]. cbn [compare_digits rev].
  rewrite !eval_app, !length_rev, HL. cbn [eval].
  pose proof (eval_bound (rev u)) as Bu. pose proof (eval_bound (rev v)) as Bv.
  rewrite length_rev, HL in Bu. rewrite length_rev in Bv.
  specialize (Bu (Forall_rev Hu)). specialize (Bv (Forall_rev Hv)).
  set (B := BASE ^ Z.of_nat (length v)) in *.
  rewrite !Z.mul_0_r, !Z.add_0_r.
  destruct (x <? y) eqn:E1; [|destruct (x >? y) eqn:E2].
  - assert (B * x + B <= B * y) by nia.
    by replace (_ <? _) with true by lia.
  - assert (B * y + B <= B * x) by nia.
    replace (_ <? _) with false by lia. by replace (_ >? _) with true by lia.
  - assert (x = y) as -> by lia. rewrite IH by done.
    replace (eval (rev u) + B * y <? eval (rev v) + B * y)
      with (eval (rev u) <? eval (rev v)) by lia.
    by replace (eval (rev u) + B * y >? eval (rev v) + B * y)
      with (eval (rev u) >? eval (rev v)) by lia.
Qed.

Lemma same_digits_spec u v : length u = length v -> same_digits u v = true <-> u = v.
Proof.
  revert v. induction u as [|x u IH]; intros [|y v] HL; cbn [length same_digits] in *;
    [done|lia|lia|].
  destruct (x =? y) eqn:E; cbn [negb].
  - rewrite IH by lia. assert (x = y) as -> by lia. split; congruence.
  - split; [done|]. intros [= -> _]. lia.
Qed.

Lemma trimmed_lower v :
  trimmed v -> Forall digit v -> (1 < length v)%nat ->
  BASE ^ Z.of_nat (length v - 1) <= eval v.
Proof.
  intros HT HF HL. unfold trimmed in HT. destruct (rev v) as [|x r] eqn:Er; [done|].
  assert (v = rev r ++ [x]) as -> by (by rewrite <- (rev_involutive v), Er).
  rewrite length_app, length_rev in *. cbn [length] in *.
  rewrite Forall_app in HF. destruct HF as [Hr Hx]. apply Forall_cons_iff in Hx as [Hx _].
  destruct HT as [->|Hx0]; [cbn in HL; lia|].
  replace (length r + 1 - 1)%nat with (length r) by lia.
  rewrite eval_app, length_rev. cbn [eval]. pose proof (eval_bound _ Hr).
  pose proof (Z.pow_pos_nonneg BASE (Z.of_nat (length r))). unfold_base. nia.
Qed.

(** A longer vector without leading zeros stands for a larger magnitude. *)
Lemma longer_larger a b :
  wf a -> wf b -> (size a < size b)%nat -> eval (val a) < eval (val b).
Proof.
  intros [Da Ta] [Db Tb] HL. unfold size in HL.
  pose proof (trimmed_nonempty _ Ta) as Hne. rewrite length_zero_nonempty in Hne.
  pose proof (trimmed_lower _ Tb Db). pose proof (eval_bound _ Da).
  assert (BASE ^ Z.of_nat (length (val a)) <= BASE ^ Z.of_nat (length (val b) - 1))
    by (apply Z.pow_le_mono_r; [done|lia]). lia.
Qed.

Lemma canonical_signs a b :
  canonical a -> canonical b -> pos a = true -> pos b = false -> value b < value a.
Proof.
  intros [[Da _] _] [[Db _] Hb] Ea Eb. unfold value. rewrite Ea, Eb. cbn.
  pose proof (eval_bound _ Da). pose proof (eval_bound _ Db). specialize (Hb Eb). lia.
Qed.

Lemma canonical_nonneg a : canonical a -> 0 <= value a -> pos a = true.
Proof.
  intros [[D T] C] H. destruct (pos a) eqn:E; [done|]. specialize (C eq_refl).
  unfold value in H. rewrite E in H. cbn in H. pose proof (eval_bound _ D). lia.
Qed.

(** The common shape of the four order operators. *)
Lemma compare_spec a b lt gt eq :
  canonical a -> canonical b -> pos a = pos b ->
  (if (size b <? size a)%nat then gt
   else if (size a <? size b)%nat then lt
   else compare_digits lt gt eq (rev (val a)) (rev (val b)))
  = if eval (val a) <? eval (val b) then lt
    else if eval (val a) >? eval (val b) then gt else eq.
Proof.
  intros [Wa _] [Wb _] _.
  destruct (Nat.ltb_spec (size b) (size a)) as [H|H].
  { pose proof (longer_larger b a Wb Wa H). replace (_ <? _) with false by lia.
    by replace (_ >? _) with true by lia. }
  destruct (Nat.ltb_spec (size a) (size b)) as [H'|H'].
  { pose proof (longer_larger a b Wa Wb H'). by replace (_ <? _) with true by lia. }
  unfold size in *. destruct Wa as [Da Ta], Wb as [Db Tb].
  rewrite compare_digits_spec, !rev_involutive; [done| |by apply Forall_rev..].
  rewrite !length_rev. lia.
Qed.

Ltac solve_compare a b :=
  let Ea := fresh in let Eb := fresh in
  destruct (pos a) eqn:Ea, (pos b) eqn:Eb; cbn [andb negb];
  [ rewrite compare_spec by (done || congruence); unfold value; rewrite Ea, Eb; cbn;
    repeat case_match; lia
  | pose proof (canonical_signs a b ltac:(done) ltac:(done) Ea Eb); lia
  | pose proof (canonical_signs b a ltac:(done) ltac:(done) Eb Ea); lia
  | rewrite compare_spec by (done || congruence); unfold value; rewrite Ea, Eb; cbn;
    repeat case_match; lia ].

Lemma op_lt_spec a b : canonical a -> canonical b -> op_lt a b = (value a <? value b).
Proof. intros Ca Cb. unfold op_lt. solve_compare a b. Qed.

Lemma op_le_spec a b : canonical a -> canonical b -> op_le a b = (value a <=? value b).
Proof. intros Ca Cb. unfold op_le. solve_compare a b. Qed.

Lemma op_gt_spec a b : canonical a -> canonical b -> op_gt a b = (value a >? value b).
Proof. intros Ca Cb. unfold op_gt. solve_compare a b. Qed.

Lemma op_ge_spec a b : canonical a -> canonical b -> op_ge a b = (value a >=? value b).
Proof. intros Ca Cb. unfold op_ge. solve_compare a b. Qed.

(** Canonical representations are unique. *)
Lemma canonical_unique a b : canonical a -> canonical b -> value a = value b -> a = b.
Proof.
  intros Ca Cb E.
  assert (pos a = pos b) as Ep.
  { destruct (pos a) eqn:Ea, (pos b) eqn:Eb; try done.
    - pose proof (canonical_signs a b Ca Cb Ea Eb). lia.
    - pose proof (canonical_signs b a Cb Ca Eb Ea). lia. }
  assert (eval (val a) = eval (val b)) as Ev.
  { unfold value in E. rewrite Ep in E. destruct (pos b); cbn in E; lia. }
  destruct Ca as [Wa _], Cb as [Wb _].
  assert (length (val a) = length (val b)) as HL.
  { pose proof (longer_larger a b Wa Wb). pose proof (longer_larger b a Wb Wa).
    unfold size in *. lia. }
  destruct a as [pa va], b as [pb vb]. cbn in *. subst. f_equal.
  destruct Wa as [Da _], Wb as [Db _]. cbn in *. clear E.
  revert vb HL Db Ev. induction Da as [|x u Hx Hu IH]; intros [|y v] HL Hv Ev;
    cbn [length eval] in *; [done|lia|lia|].
  apply Forall_cons_iff in Hv as [Hy Hv]. unfold_base.
  f_equal; [lia|]. apply IH; [lia|done|lia].
Qed.

Lemma op_eq_same a b : op_eq a b = true <-> a = b.
Proof.
  unfold op_eq, size. destruct a as [pa va], b as [pb vb]. cbn.
  destruct (Bool.eqb_spec pa pb) as [->|Hp]; cbn; [|split; congruence].
  destruct (Nat.eqb_spec (length va) (length vb)) as [HL|HL]; cbn.
  - rewrite same_digits_spec by (by rewrite !length_rev). split; [|congruence].
    intros H. apply (f_equal (@rev Z)) in H. by rewrite !rev_involutive in H; subst.
  - split; [done|]. congruence.
Qed.

Lemma op_eq_spec a b : canonical a -> canonical b -> op_eq a b = (value a =? value b).
Proof.
  intros Ca Cb. apply Bool.eq_iff_eq_true. rewrite op_eq_same, Z.eqb_eq.
  split; [by intros ->|]. by apply canonical_unique.
Qed.

Lemma op_ne_eq a b : op_ne a b = negb (op_eq a b).
Proof. unfold op_ne, op_eq. by destruct (_ || _). Qed.

Lemma isZero_spec a : wf a -> isZero a = (value a =? 0).
Proof.
  intros [D T]. unfold isZero, single_zero, value.
  destruct (val a) as [|d [|e r]] eqn:E; [done| |].
  - cbn [eval]. destruct (pos a); cbn [signed_digit]; lia.
  - pose proof (trimmed_lower _ T D ltac:(cbn; lia)) as H. cbn [length] in H.
    assert (0 < eval (d :: e :: r)).
    { eapply Z.lt_le_trans; [|exact H]. apply Z.pow_pos_nonneg; [done|lia]. }
    destruct (pos a); cbn [signed_digit]; lia.
Qed.

(** ** The properties of addition, subtraction and order *)

(** Decides well-formedness and canonicity of a number written out. *)
Ltac concrete_digits :=
  repeat match goal with
  | |- canonical _ => split
  | |- wf _ => split; cbn [val]
  | |- Forall digit (_ :: _) => apply Forall_cons_iff; split
  | |- Forall digit [] => apply Forall_nil
  | |- digit _ => unfold digit, BASE; lia
  | |- trimmed _ => cbn; first [by left|right; lia]
  end; cbn; try lia; try done.

(** C29: on normalised operands [operator+], [operator-] and their assigning
    forms compute the exact sum and difference of the integers represented, and
    the result is again in canonical form (digits in 0..BASE-1, no leading zero,
    no negative zero), whatever the signs and lengths. *)
Theorem infint_add_sub_exact a b :
  wf a -> wf b ->
  (value (op_add a b) = value a + value b /\ canonical (op_add a b))
  /\ (value (op_sub a b) = value a - value b /\ canonical (op_sub a b))
  /\ op_add_assign a b = op_add a b /\ op_sub_assign a b = op_sub a b.
Proof.
  intros. split; [by apply op_add_spec|]. split; [by apply op_sub_spec|].
  by rewrite op_add_assign_eq, op_sub_assign_eq.
Qed.

Lemma infint_add_sub_exact_witness :
  let a := mkInfInt true [999999999; 999999999] in
  let b := mkInfInt false [1] in
  value (op_sub a b) = 1000000000000000000 /\ op_sub a b = mkInfInt true [0; 0; 1].
Proof.
  cbn zeta. split; [|reflexivity].
  destruct (infint_add_sub_exact (mkInfInt true [999999999; 999999999]) (mkInfInt false [1]))
    as (_ & [E _] & _).
  - concrete_digits.
  - concrete_digits.
  - exact E.
Defined.

(** On canonical operands the six comparison operators decide the order of
    the integers represented, and a canonical form is unique: equal integers have
    equal digits and sign. *)
Theorem infint_order a b :
  canonical a -> canonical b ->
  op_lt a b = (value a <? value b) /\ op_le a b = (value a <=? value b)
  /\ op_gt a b = (value a >? value b) /\ op_ge a b = (value a >=? value b)
  /\ op_eq a b = (value a =? value b) /\ op_ne a b = negb (value a =? value b)
  /\ (value a = value b -> a = b).
Proof.
  intros Ca Cb. rewrite op_lt_spec, op_le_spec, op_gt_spec, op_ge_spec by done.
  rewrite op_ne_eq, !op_eq_spec by done. repeat split. by apply canonical_unique.
Qed.

Lemma infint_order_witness :
  op_lt (mkInfInt false [5; 1]) (mkInfInt true [7]) = true
  /\ op_eq (mkInfInt false [5; 1]) (mkInfInt true [7]) = false.
Proof.
  destruct (infint_order (mkInfInt false [5; 1]) (mkInfInt true [7]))
    as (-> & _ & _ & _ & -> & _).
  - concrete_digits.
  - concrete_digits.
  - done.
Defined.

(** Negation does not keep canonical forms: the negation of zero compares unequal
    to zero and below it. *)
Example op_neg_zero :
  op_eq (op_neg InfInt_zero) InfInt_zero = false
  /\ op_lt (op_neg InfInt_zero) InfInt_zero = true.
Proof. done. Qed.
