(* ===== verification/InfIntMul.v ===== *)
(** * InfInt: conversion from machine integers and multiplication

    The constructor from [int64_t], the product with a digit, the school
    multiplication of two numbers, the left shift by repeated doubling, the range
    test of small integers and the truncating conversions of
    [src/src/lib/InfInt.h]. *)
From S2P Require Import Prelude InfIntBase.

Definition INT64_MIN : Z := - 2 ^ 63.
Definition INT64_MAX : Z := 2 ^ 63 - 1.

(** The [do ... while (l > 0)] loop of the constructors.  Three digits hold
    every [int64_t]. *)
Fixpoint push_digits (fuel : nat) (l : Z) : list Z :=
  match fuel with
  | O => []
  | S fuel =>
      let (quot, rem) := my_div l BASE in
      elem rem :: (if quot >? 0 then push_digits fuel quot else [])
  end.

Definition InfInt_of_int64 (l : Z) : InfInt :=
  let p := l >=? 0 in
  let subtractOne := l =? INT64_MIN in
  let l := if subtractOne then l + 1 else l in
  let l := if negb p then - l else l in
  let r := mkInfInt p (push_digits 3 l) in
  if subtractOne then op_decr r else r.

(** ** Product with a digit *)

Fixpoint multiply_loop (factor carry : Z) (v : list Z) : list Z :=
  match v with
  | [] => if carry >? 0 then [carry] else []
  | i :: r =>
      let pval := i64 (i * factor + carry) in
      if (pval >=? BASE) || (pval <=? - BASE)
      then let (quot, rem) := my_div pval BASE in
           elem rem :: multiply_loop factor (elem quot) r
      else elem pval :: multiply_loop factor 0 r
  end.

Definition multiplyByDigit (factor : Z) (v : list Z) : list Z := multiply_loop factor 0 v.

Definition op_mul_elem (a : InfInt) (rhs : Z) : InfInt :=
  let factor := if rhs <? 0 then elem (- rhs) else rhs in
  let r := correct false false (mkInfInt (pos a) (multiplyByDigit factor (val a))) in
  mkInfInt (if single_zero (val r) then true else Bool.eqb (pos a) (rhs >=? 0)) (val r).

(** ** Product of two numbers *)

(** One step of the inner loop: [d] is [result.val[digit]]. *)
Definition mul_step (u v : list Z) (digit : nat) (st : Z * Z) (i : nat) : Z * Z :=
  let (d, carry) := st in
  let pval := i64 (d + nth i u 0 * nth (digit - i) v 0) in
  if (pval >=? BASE) || (pval <=? - BASE)
  then let (quot, rem) := my_div pval BASE in (elem rem, i64 (carry + quot))
  else (elem pval, carry).

(** The indices the inner loop runs over. *)
Definition mul_indices (n m digit : nat) : list nat :=
  let start := if (digit <? m)%nat then 0%nat else (digit - m + 1)%nat in
  seq start (Nat.min n (S digit) - start).

(** The outer loop runs until a digit has no product; [fuel] bounds the digits. *)
Fixpoint mul_loop (fuel : nat) (u v : list Z) (digit : nat) (carry : Z) (res : list Z)
    : option (nat * Z * list Z) :=
  match fuel with
  | O => None
  | S fuel =>
      let (carry, rem) := my_div carry BASE in
      let indices := mul_indices (length u) (length v) digit in
      match indices with
      | [] => Some (digit, carry, <[digit := elem rem]> res)
      | _ =>
          let (d, carry) := foldl (mul_step u v digit) (elem rem, carry) indices in
          mul_loop fuel u v (S digit) carry (<[digit := d]> res)
      end
  end.

(** What is left of the carry; an [int64_t] has three digits at most. *)
Fixpoint mul_tail (fuel digit : nat) (carry : Z) (res : list Z) : list Z :=
  match fuel with
  | O => res
  | S fuel =>
      if carry >? 0 then
        let (quot, rem) := my_div carry BASE in
        mul_tail fuel (S digit) quot (<[digit := elem rem]> res)
      else res
  end.

Definition op_mul (a b : InfInt) : InfInt :=
  let n := (length (val a) + length (val b))%nat in
  match mul_loop n (val a) (val b) 0 0 (replicate n 0) with
  | None => InfInt_zero
  | Some (digit, carry, res) =>
      let r := correct false false (mkInfInt true (mul_tail 3 digit carry res)) in
      mkInfInt (if single_zero (val r) then true else Bool.eqb (pos a) (pos b)) (val r)
  end.

Fixpoint shift_loop (n : nat) (two r : InfInt) : InfInt :=
  match n with O => r | S n => shift_loop n two (op_mul r two) end.

Definition op_shl (a : InfInt) (rhs : Z) : InfInt :=
  shift_loop (Z.to_nat rhs) (InfInt_of_int64 2) a.

(** ** Range test and conversions *)

Definition isWithinSmallIntRange (a : InfInt) : bool :=
  let last := if pos a then 427387903 else 427387904 in
  if (3 <? size a)%nat then false
  else if (size a <? 3)%nat then true
  else match val a with
       | [v0; v1; v2] =>
           if v2 <? 4 then true else if v2 >? 4 then false
           else if v1 <? 611686018 then true else if v1 >? 611686018 then false
           else v0 <=? last
       | _ => false
       end.

(** The conversions accumulate from the most significant digit, in an [int] or an
    [int64_t]; [wrap] is the conversion to that width. *)
Fixpoint accumulate (wrap : Z -> Z) (result : Z) (rv : list Z) : Z :=
  match rv with
  | [] => result
  | d :: r => accumulate wrap (wrap (result * BASE + d)) r
  end.

Definition truncateToInt (a : InfInt) : Z :=
  let result := accumulate i32 0 (rev (val a)) in
  if pos a then result else i32 (- result).

Definition truncateToInt64 (a : InfInt) : Z :=
  let result := accumulate i64 0 (rev (val a)) in
  if pos a then result else i64 (- result).

(** [toInt64] reports a number outside the range and truncates it. *)
Definition toInt64 (a : InfInt) : bool * Z :=
  (op_gt a (InfInt_of_int64 INT64_MAX) || op_lt a (InfInt_of_int64 INT64_MIN),
   truncateToInt64 a).

(** ** Correctness *)

Lemma i64_small z : INT64_MIN <= z <= INT64_MAX -> i64 z = z.
Proof. unfold INT64_MIN, INT64_MAX. intros. apply swrap_small; cbn in *; lia. Qed.

Ltac unfold_int64 := unfold INT64_MIN, INT64_MAX in *; cbn [Z.pow Z.pow_pos Pos.iter Z.mul Pos.mul] in *.

(** A division by [BASE] of something that is not negative. *)
Lemma my_div_base z quot rem :
  0 <= z -> my_div z BASE = (quot, rem) ->
  z = rem + BASE * quot /\ digit rem /\ 0 <= quot.
Proof.
  unfold my_div. intros Hz [= <- <-]. unfold_base.
  rewrite Z.quot_div_nonneg by lia. pose proof (Z.div_mod z 1000000000).
  pose proof (Z.mod_pos_bound z 1000000000). pose proof (Z.div_pos z 1000000000). lia.
Qed.

Lemma elem_digit d : digit d -> elem d = d.
Proof. intros. apply elem_small. unfold_base. lia. Qed.

Lemma push_digits_spec fuel l :
  0 <= l < BASE ^ Z.of_nat fuel -> (0 < fuel)%nat ->
  eval (push_digits fuel l) = l /\ Forall digit (push_digits fuel l)
  /\ trimmed (push_digits fuel l) /\ push_digits fuel l <> []
  /\ (0 < l -> match rev (push_digits fuel l) with [] => False | x :: _ => x <> 0 end).
Proof.
  revert l. induction fuel as [|fuel IH]; intros l Hl Hf; [lia|]. cbn [push_digits].
  destruct (my_div l BASE) as [q r] eqn:Eq. apply my_div_base in Eq as (E & Hr & Hq); [|lia].
  rewrite elem_digit by done. destruct (q >? 0) eqn:Hq0.
  - rewrite Nat2Z.inj_succ, Z.pow_succ_r in Hl by lia.
    destruct (IH q) as (E1 & F & T & N & L); [unfold_base; nia|destruct fuel; [cbn in Hl; unfold_base; nia|lia]|].
    cbn [eval]. repeat split; [lia|by constructor| |done|].
    all: specialize (L ltac:(lia)).
    + unfold trimmed. cbn [rev]. destruct (rev (push_digits fuel q)); [done|]. cbn. by right.
    + intros _. cbn [rev]. by destruct (rev (push_digits fuel q)).
  - assert (q = 0) as -> by lia. cbn [eval]. repeat split; [lia|by apply Forall_singleton|by left|done|].
    cbn. lia.
Qed.

Lemma InfInt_of_int64_min :
  let r := op_decr (mkInfInt false (push_digits 3 (- (INT64_MIN + 1)))) in
  value r = INT64_MIN /\ canonical r.
Proof.
  cbn zeta. replace (op_decr _) with (mkInfInt false [854775808; 223372036; 9])
    by (by vm_compute).
  split; [by vm_compute|]. split; [|by vm_compute]. split; cbn [val].
  - repeat (apply Forall_cons; [unfold_base; lia|]). done.
  - right. cbn. lia.
Qed.

Lemma InfInt_of_int64_spec l :
  INT64_MIN <= l <= INT64_MAX ->
  value (InfInt_of_int64 l) = l /\ canonical (InfInt_of_int64 l).
Proof.
  intros Hl. unfold InfInt_of_int64.
  destruct (Z.eqb_spec l INT64_MIN) as [->|Hmin]; [exact InfInt_of_int64_min|].
  set (m := if negb (l >=? 0) then - l else l).
  destruct (push_digits_spec 3 m) as (E & F & T & N & L); [|lia|].
  { subst m. unfold_int64. unfold_base. cbn. destruct (l >=? 0) eqn:E0; cbn; lia. }
  split.
  - unfold value. cbn [pos val]. rewrite E. subst m. destruct (l >=? 0) eqn:E0; cbn; lia.
  - split; [by split|]. cbn [pos val]. rewrite E. subst m. intros Hp. rewrite Hp. cbn [negb]. lia.
Qed.

(** The sign is set after [correct] has worked on the magnitude. *)
Lemma resign_spec r p q :
  canonical r -> pos r = true ->
  let s := mkInfInt (if single_zero (val r) then true else Bool.eqb p q) (val r) in
  value s = sign p * sign q * value r /\ canonical s.
Proof.
  intros [[D T] C] Hp. cbn zeta.
  pose proof (isZero_spec r (conj D T)) as HZ. unfold isZero in HZ. rewrite HZ. clear HZ.
  unfold canonical, wf, value. cbn [pos val]. rewrite Hp. cbn [signed_digit].
  destruct (Z.eqb_spec (eval (val r)) 0) as [E|E].
  - rewrite E. cbn [signed_digit]. split; [lia|by repeat split].
  - split; [destruct p, q; cbn; lia|]. by repeat split.
Qed.

Lemma multiply_loop_spec factor carry v :
  0 <= factor < BASE -> 0 <= carry < BASE -> Forall digit v ->
  eval (multiply_loop factor carry v) = eval v * factor + carry
  /\ Forall digit (multiply_loop factor carry v).
Proof.
  intros Hf Hc Hv. revert carry Hc. induction Hv as [|i r Hi Hr IH]; intros carry Hc;
    cbn [multiply_loop eval].
  - destruct (carry >? 0) eqn:E; cbn [eval]; (split; [lia|]); [|done].
    apply Forall_singleton. unfold_base. lia.
  - assert (0 <= i * factor + carry < BASE * BASE) by (unfold_base; nia).
    rewrite i64_small by (unfold_int64; unfold_base; lia).
    destruct ((_ >=? _) || _) eqn:Eb.
    + destruct (my_div _ BASE) as [q rm] eqn:Eq.
      apply my_div_base in Eq as (E & Hrm & Hq); [|lia].
      assert (digit q) as Dq by (unfold_base; lia).
      rewrite !elem_digit by done. destruct (IH q Dq) as [E1 F]. cbn [eval].
      split; [lia|by constructor].
    + assert (digit (i * factor + carry)) as D by (unfold_base; lia).
      rewrite elem_digit by done. destruct (IH 0) as [E1 F]; [unfold_base; lia|].
      cbn [eval]. split; [lia|by constructor].
Qed.

Lemma multiply_loop_nonempty factor carry v : v <> [] -> multiply_loop factor carry v <> [].
Proof. destruct v; [done|]. cbn [multiply_loop]. by destruct (_ || _). Qed.

(** [correct] on digits that need no correction only drops leading zeros. *)
Lemma correct_magnitude p v :
  v <> [] -> Forall digit v ->
  let r := correct false false (mkInfInt p v) in
  value r = eval v /\ canonical r /\ pos r = true.
Proof.
  intros N F. cbn zeta. pose proof (eval_bound _ F).
  destruct (correct_spec (mkInfInt p v) false) as [E C]; [done| |done|].
  { revert F. apply Forall_impl. intros. unfold_base. lia. }
  cbn [val] in E. split; [done|]. split; [done|].
  apply canonical_nonneg; [done|lia].
Qed.

Lemma op_mul_elem_spec a k :
  wf a -> - BASE < k < BASE ->
  value (op_mul_elem a k) = value a * k /\ canonical (op_mul_elem a k).
Proof.
  intros [D T] Hk. unfold op_mul_elem.
  assert (0 <= (if k <? 0 then elem (- k) else k) < BASE) as Hf.
  { destruct (k <? 0) eqn:E; [rewrite elem_small|]; unfold_base; lia. }
  set (f := if k <? 0 then _ else _) in *. assert (f = Z.abs k) as Ef.
  { subst f. destruct (k <? 0) eqn:E; [rewrite elem_small|]; unfold_base; lia. }
  destruct (multiply_loop_spec f 0 (val a)) as [E F]; [done|unfold_base; lia|done|].
  destruct (correct_magnitude (pos a) (multiplyByDigit f (val a))) as (E1 & C1 & P1).
  { by apply multiply_loop_nonempty, trimmed_nonempty. }
  { done. }
  destruct (resign_spec _ (pos a) (k >=? 0) C1 P1) as [E2 C2].
  split; [|done]. rewrite E2, E1. unfold multiplyByDigit, value.
  rewrite E, signed_digit_sign, Ef.
  unfold sign at 2. destruct (k >=? 0) eqn:Ek; nia.
Qed.

(** *** School multiplication

    [conv u v s] is the column sum of index [s]; the columns weighted by the
    powers of [BASE] add up to the product. *)

Fixpoint conv (u v : list Z) (s : nat) : Z :=
  match u with
  | [] => 0
  | x :: u' => x * nth s v 0 + match s with O => 0 | S s' => conv u' v s' end
  end.

Fixpoint columns (c : nat -> Z) (k : nat) : Z :=
  match k with
  | O => 0
  | S k' => columns c k' + BASE ^ Z.of_nat k' * c k'
  end.

Lemma columns_shift c k : columns c (S k) = c 0%nat + BASE * columns (fun i => c (S i)) k.
Proof.
  induction k as [|k IH]; [cbn; lia|].
  change (columns c (S (S k))) with (columns c (S k) + BASE ^ Z.of_nat (S k) * c (S k)).
  rewrite IH. cbn [columns]. rewrite Nat2Z.inj_succ, Z.pow_succ_r by lia. ring.
Qed.

Lemma columns_ext c c' k : (forall i, (i < k)%nat -> c i = c' i) -> columns c k = columns c' k.
Proof.
  induction k as [|k IH]; intros H; [done|]. cbn [columns].
  rewrite IH by (intros; apply H; lia). rewrite (H k) by lia. done.
Qed.

Lemma columns_linear c c' x k :
  columns (fun i => x * c i + c' i) k = x * columns c k + columns c' k.
Proof. induction k as [|k IH]; cbn [columns]; [lia|]. rewrite IH. ring. Qed.

Lemma columns_zero k : columns (fun _ => 0) k = 0.
Proof. induction k as [|k IH]; cbn [columns]; lia. Qed.

Lemma columns_eval v k : (length v <= k)%nat -> columns (fun i => nth i v 0) k = eval v.
Proof.
  revert k. induction v as [|x v IH]; intros k Hk.
  - rewrite (columns_ext _ (fun _ => 0)) by (intros [|] ?; done). apply columns_zero.
  - destruct k as [|k]; [cbn in Hk; lia|]. rewrite columns_shift. cbn [nth eval].
    rewrite IH by (cbn in Hk; lia). done.
Qed.

Lemma columns_conv u v k :
  (length u + length v <= S k)%nat -> (0 < length v)%nat ->
  columns (conv u v) k = eval u * eval v.
Proof.
  revert k. induction u as [|x u IH]; intros k Hk Hv; cbn [eval].
  - rewrite (columns_ext _ (fun _ => 0)) by done. rewrite columns_zero. lia.
  - cbn [length] in Hk. destruct k as [|k]; [lia|].
    cbn [conv]. rewrite (columns_linear (fun i => nth i v 0)).
    rewrite columns_eval by lia. rewrite columns_shift.
    rewrite (columns_ext _ (conv u v)) by done.
    rewrite IH by lia. ring.
Qed.

(** The inner loop adds up one column: its indices are those with a product. *)
Fixpoint sum_over (f : nat -> Z) (l : list nat) : Z :=
  match l with [] => 0 | i :: l' => f i + sum_over f l' end.

Lemma sum_over_app f l1 l2 : sum_over f (l1 ++ l2) = sum_over f l1 + sum_over f l2.
Proof. induction l1 as [|i l IH]; cbn [app sum_over]; lia. Qed.

Lemma sum_over_zero f l : (forall i, In i l -> f i = 0) -> sum_over f l = 0.
Proof.
  induction l as [|i l IH]; intros H; [done|]. cbn [sum_over].
  rewrite (H i) by (by left). rewrite IH; [lia|].
  intros. apply H. by right.
Qed.

Lemma sum_over_shift f a n : sum_over f (seq (S a) n) = sum_over (fun i => f (S i)) (seq a n).
Proof.
  revert a. induction n as [|n IH]; intros a; [done|]. cbn [seq sum_over].
  f_equal. apply IH.
Qed.

Lemma conv_sum u v s :
  conv u v s = sum_over (fun i => nth i u 0 * nth (s - i) v 0) (seq 0 (S s)).
Proof.
  revert s. induction u as [|x u IH]; intros s.
  - rewrite sum_over_zero; [done|]. intros [|] _; cbn; lia.
  - cbn [conv]. cbn [seq sum_over].
    rewrite sum_over_shift. rewrite Nat.sub_0_r. cbn [nth]. f_equal.
    destruct s as [|s]; [done|]. rewrite IH. done.
Qed.

Lemma mul_indices_sum u v s :
  sum_over (fun i => nth i u 0 * nth (s - i) v 0) (mul_indices (length u) (length v) s)
  = conv u v s.
Proof.
  rewrite conv_sum. unfold mul_indices.
  set (start := if (s <? length v)%nat then 0%nat else (s - length v + 1)%nat).
  set (cnt := (Nat.min (length u) (S s) - start)%nat).
  assert (s < start + length v)%nat as Hs.
  { subst start. destruct (Nat.ltb_spec s (length v)); lia. }
  assert (start = 0 \/ start = s - length v + 1 /\ length v <= s)%nat as Hst.
  { subst start. destruct (Nat.ltb_spec s (length v)); lia. }
  destruct (decide (start <= S s)%nat) as [Hle|]; [|lia].
  replace (S s) with (start + (cnt + (S s - start - cnt)))%nat by lia.
  rewrite !seq_app, !sum_over_app.
  rewrite (sum_over_zero _ (seq 0 start)), (sum_over_zero _ (seq _ (S s - _ - _))); [cbn; lia| |].
  - intros i Hi%in_seq. destruct (decide (length u <= i)%nat).
    + rewrite (nth_overflow u) by lia. lia.
    + subst cnt. lia.
  - intros i Hi%in_seq. rewrite (nth_overflow v) by lia. lia.
Qed.

Lemma nth_digit v i : Forall digit v -> digit (nth i v 0).
Proof.
  intros HF. revert i. induction HF; intros [|i]; cbn [nth]; auto; unfold_base; lia.
Qed.

Lemma mul_step_spec u v s d carry i d' carry' :
  Forall digit u -> Forall digit v -> digit d -> 0 <= carry -> carry + BASE <= INT64_MAX ->
  mul_step u v s (d, carry) i = (d', carry') ->
  digit d' /\ d' + BASE * carry' = d + BASE * carry + nth i u 0 * nth (s - i) v 0
  /\ 0 <= carry' <= carry + BASE.
Proof.
  intros Hu Hv Hd Hc Hb. unfold mul_step.
  pose proof (nth_digit u i Hu) as Dx. pose proof (nth_digit v (s - i) Hv) as Dy.
  set (x := nth i u 0) in *. set (y := nth (s - i) v 0) in *.
  assert (0 <= d + x * y < BASE * BASE) by (unfold_base; nia).
  rewrite i64_small by (unfold_int64; unfold_base; lia).
  destruct ((_ >=? _) || _) eqn:Eb.
  - destruct (my_div _ BASE) as [q rm] eqn:Eq.
    apply my_div_base in Eq as (E & Hrm & Hq); [|lia].
    assert (digit q) as Dq by (unfold_base; lia).
    rewrite elem_digit by done. rewrite i64_small by (unfold_int64; unfold_base; lia).
    intros [= <- <-]. unfold_base. lia.
  - rewrite elem_digit by (unfold_base; lia). intros [= <- <-]. unfold_base. lia.
Qed.

Lemma mul_steps_spec u v s l d carry d' carry' :
  Forall digit u -> Forall digit v -> digit d -> 0 <= carry ->
  carry + BASE * Z.of_nat (length l) <= INT64_MAX ->
  foldl (mul_step u v s) (d, carry) l = (d', carry') ->
  digit d' /\
  d' + BASE * carry' = d + BASE * carry + sum_over (fun i => nth i u 0 * nth (s - i) v 0) l
  /\ 0 <= carry' <= carry + BASE * Z.of_nat (length l).
Proof.
  intros Hu Hv. revert d carry. induction l as [|i l IH]; intros d carry Hd Hc Hb.
  - cbn [foldl sum_over length]. intros [= <- <-]. repeat split; unfold_base; lia.
  - cbn [foldl sum_over length] in *. destruct (mul_step u v s (d, carry) i) as [d1 c1] eqn:E1.
    apply mul_step_spec in E1 as (D1 & E1 & B1); [|done..|unfold_base; lia].
    intros H. apply IH in H as (D2 & E2 & B2); [|done|lia|unfold_base; lia].
    split; [done|]. split; [lia|]. unfold_base. lia.
Qed.

Lemma mul_indices_length n m s : (length (mul_indices n m s) <= Nat.min n m)%nat.
Proof. unfold mul_indices. rewrite length_seq. destruct (Nat.ltb_spec s m); lia. Qed.

Lemma mul_indices_nil n m s :
  (0 < n)%nat -> (0 < m)%nat -> mul_indices n m s = [] <-> (n + m - 1 <= s)%nat.
Proof.
  intros Hn Hm. unfold mul_indices. rewrite <- length_zero_iff_nil, length_seq.
  destruct (Nat.ltb_spec s m); lia.
Qed.

Lemma take_insert_next {A} (l : list A) k x :
  (k < length l)%nat -> take (S k) (<[k := x]> l) = take k l ++ [x].
Proof.
  intros Hk. rewrite (take_S_r _ _ x); [|by apply list_lookup_insert_eq].
  by rewrite take_insert_ge by lia.
Qed.

Lemma mul_loop_spec fuel u v k carry res :
  Forall digit u -> Forall digit v -> (0 < length u)%nat -> (0 < length v)%nat ->
  Z.of_nat (Nat.min (length u) (length v)) < 2 ^ 32 ->
  (fuel + k = length u + length v)%nat -> (0 < fuel)%nat ->
  length res = (length u + length v)%nat -> Forall digit (take k res) ->
  0 <= carry <= 2 * Z.of_nat (Nat.min (length u) (length v)) * BASE ->
  eval (take k res) + BASE ^ Z.of_nat k * carry = columns (conv u v) k ->
  exists digit' res',
    mul_loop fuel u v k carry res = Some (digit', 0, res')
    /\ eval res' = eval u * eval v /\ Forall digit res' /\ res' <> [].
Proof.
  intros Hu Hv Hn Hm H32. revert k carry res.
  induction fuel as [|fuel IH]; intros k carry res Hk Hf HL HF Hc HE; [lia|].
  cbn [mul_loop]. destruct (my_div carry BASE) as [c1 rm] eqn:Eq.
  apply my_div_base in Eq as (E1 & Drm & Hc1); [|lia]. rewrite elem_digit by done.
  destruct (mul_indices (length u) (length v) k) as [|i0 l0] eqn:Ei.
  - rewrite mul_indices_nil in Ei by done.
    rewrite columns_conv in HE by lia.
    assert (0 <= eval (take k res)) by (apply eval_bound; done).
    pose proof (eval_bound u Hu) as Bu. pose proof (eval_bound v Hv) as Bv.
    assert (k = length u + length v - 1)%nat as Ek by lia.
    assert (BASE ^ Z.of_nat k * BASE = BASE ^ Z.of_nat (length u) * BASE ^ Z.of_nat (length v)) as EB.
    { rewrite <- Z.pow_add_r by lia. rewrite Z.mul_comm, <- Z.pow_succ_r by lia. f_equal. lia. }
    pose proof (Z.pow_pos_nonneg BASE (Z.of_nat k) ltac:(done) ltac:(lia)).
    assert (carry < BASE) by nia.
    assert (c1 = 0) as -> by (unfold_base; lia).
    eexists _, _. split; [done|].
    assert (<[k := rm]> res = take k res ++ [rm]) as ->.
    { rewrite <- take_insert_next by lia. rewrite take_ge; [done|].
      rewrite length_insert. lia. }
    rewrite eval_app, length_take. cbn [eval].
    replace (k `min` length res)%nat with k by lia.
    split; [|split; [|by destruct (take k res)]].
    + rewrite <- HE. rewrite E1. ring.
    + apply Forall_app. by split; [|apply Forall_singleton].
  - rewrite <- Ei.
    assert (0 < length (mul_indices (length u) (length v) k))%nat by (rewrite Ei; cbn; lia).
    pose proof (mul_indices_length (length u) (length v) k).
    assert ((k < length u + length v - 1)%nat).
    { destruct (Nat.lt_ge_cases k (length u + length v - 1)) as [|HH]; [done|].
      rewrite <- mul_indices_nil in HH by done. rewrite HH in *. done. }
    destruct (foldl _ _ _) as [d c2] eqn:Ef.
    apply mul_steps_spec in Ef as (Dd & E2 & B2); [|done..|].
    2: { unfold_int64. unfold_base. nia. }
    rewrite mul_indices_sum in E2.
    apply IH; [lia|lia|by rewrite length_insert| | |].
    + rewrite take_insert_next by lia. apply Forall_app. by split; [|apply Forall_singleton].
    + unfold_base. nia.
    + rewrite take_insert_next by lia. rewrite eval_app, length_take. cbn [eval columns].
      replace (k `min` length res)%nat with k by lia. rewrite <- HE.
      rewrite Nat2Z.inj_succ, Z.pow_succ_r by lia.
      transitivity (eval (take k res) + BASE ^ Z.of_nat k * (d + BASE * c2)); [ring|].
      rewrite E2, E1. ring.
Qed.

(** One of the vectors is below 2^32 digits, so that the carry of a column stays
    within its [int64_t]. *)
Definition fits (a b : InfInt) : Prop := Z.of_nat (Nat.min (size a) (size b)) < 2 ^ 32.

Lemma op_mul_spec a b :
  wf a -> wf b -> fits a b ->
  value (op_mul a b) = value a * value b /\ canonical (op_mul a b).
Proof.
  intros [Da Ta] [Db Tb] Hfit. unfold op_mul.
  pose proof (trimmed_nonempty _ Ta) as Na. pose proof (trimmed_nonempty _ Tb) as Nb.
  rewrite length_zero_nonempty in Na, Nb.
  destruct (mul_loop_spec (length (val a) + length (val b)) (val a) (val b) 0 0
              (replicate (length (val a) + length (val b)) 0))
    as (k & res & -> & E & F & N); [done|done|lia|lia|done|lia|lia|..].
  { by rewrite length_replicate. }
  { done. }
  { unfold_base. lia. }
  { by rewrite take_0. }
  change (mul_tail 3 k 0 res) with res.
  destruct (correct_magnitude true res N F) as (E1 & C1 & P1).
  destruct (resign_spec _ (pos a) (pos b) C1 P1) as [E2 C2].
  split; [|done]. rewrite E2, E1, E. unfold value. rewrite !signed_digit_sign. ring.
Qed.

Lemma fits_single a b : size b = 1%nat -> fits a b.
Proof. unfold fits. intros ->. assert (Nat.min (size a) 1 <= 1)%nat by lia. cbn. lia. Qed.

Lemma shift_loop_spec n two r :
  canonical two -> value two = 2 -> size two = 1%nat -> canonical r ->
  value (shift_loop n two r) = value r * 2 ^ Z.of_nat n /\ canonical (shift_loop n two r).
Proof.
  intros Ct Vt St. revert r. induction n as [|n IH]; intros r Cr; cbn [shift_loop].
  - cbn. split; [lia|done].
  - destruct (op_mul_spec r two) as [E C]; [apply Cr|apply Ct|by apply fits_single|].
    destruct (IH (op_mul r two) C) as [-> C2]. split; [|done].
    rewrite E, Vt, Nat2Z.inj_succ, Z.pow_succ_r by lia. ring.
Qed.

Lemma op_shl_spec a n :
  canonical a -> 0 <= n ->
  value (op_shl a n) = Z.shiftl (value a) n /\ canonical (op_shl a n).
Proof.
  intros Ca Hn. unfold op_shl. rewrite Z.shiftl_mul_pow2 by done.
  destruct (InfInt_of_int64_spec 2) as [E C]; [done|].
  destruct (shift_loop_spec (Z.to_nat n) (InfInt_of_int64 2) a) as [E2 C2]; [done..|].
  rewrite E2, Z2Nat.id by done. done.
Qed.

(** *** Range test and conversions *)

Definition VMTAGGEDINTEGER_MAX : Z := 4611686018427387903.
Definition VMTAGGEDINTEGER_MIN : Z := -4611686018427387904.

Lemma eval_below_3 v : Forall digit v -> (length v < 3)%nat -> eval v < BASE * BASE.
Proof.
  intros HF HL. pose proof (eval_bound v HF).
  destruct v as [|? [|? [|? ?]]]; cbn in HL; try lia; cbn in *; unfold_base; lia.
Qed.

Lemma isWithinSmallIntRange_spec a :
  wf a ->
  isWithinSmallIntRange a
  = (VMTAGGEDINTEGER_MIN <=? value a) && (value a <=? VMTAGGEDINTEGER_MAX).
Proof.
  intros [D T]. unfold isWithinSmallIntRange, size.
  unfold VMTAGGEDINTEGER_MAX, VMTAGGEDINTEGER_MIN.
  pose proof (eval_bound _ D) as B. unfold value.
  destruct (Nat.ltb_spec 3 (length (val a))) as [H3|H3].
  { pose proof (trimmed_lower _ T D ltac:(lia)) as HL.
    assert (BASE ^ 3 <= BASE ^ Z.of_nat (length (val a) - 1))
      by (apply Z.pow_le_mono_r; [done|lia]).
    assert (BASE ^ 3 = 1000000000000000000000000000) as E3 by done.
    destruct (pos a); cbn [signed_digit]; lia. }
  destruct (Nat.ltb_spec (length (val a)) 3) as [H3'|H3'].
  { pose proof (eval_below_3 _ D H3'). unfold_base.
    destruct (pos a); cbn [signed_digit]; lia. }
  destruct (val a) as [|v0 [|v1 [|v2 [|? ?]]]] eqn:Ev; cbn [length] in *; try lia.
  do 3 (apply Forall_cons_iff in D as [? D]). cbn [eval] in *. unfold_base.
  destruct (pos a); cbn [signed_digit]; repeat case_match; lia.
Qed.

Lemma swrap_mod w z : 0 < w -> swrap w z mod 2 ^ w = z mod 2 ^ w.
Proof.
  intros Hw. unfold swrap. rewrite Zminus_mod_idemp_l. f_equal. lia.
Qed.

Lemma swrap_eq w x y : x mod 2 ^ w = y mod 2 ^ w -> swrap w x = swrap w y.
Proof. intros H. unfold swrap. rewrite <- Zplus_mod_idemp_l, H, Zplus_mod_idemp_l. done. Qed.

Lemma accumulate_spec w rv r :
  0 < w -> accumulate (swrap w) (swrap w r) rv
           = swrap w (r * BASE ^ Z.of_nat (length rv) + eval (rev rv)).
Proof.
  intros Hw. revert r. induction rv as [|d rv IH]; intros r; cbn [accumulate rev length].
  - cbn [eval]. f_equal. cbn. lia.
  - replace (swrap w (swrap w r * BASE + d)) with (swrap w (r * BASE + d)).
    + rewrite IH, eval_app, length_rev, Nat2Z.inj_succ, Z.pow_succ_r by lia.
      f_equal. cbn [eval]. ring.
    + apply swrap_eq. rewrite <- Zplus_mod_idemp_l, <- (Zplus_mod_idemp_l (swrap w r * BASE)).
      do 2 f_equal. rewrite <- Zmult_mod_idemp_l, <- (Zmult_mod_idemp_l (swrap w r)).
      by rewrite swrap_mod.
Qed.

Lemma swrap_opp w x : 0 < w -> swrap w (- swrap w x) = swrap w (- x).
Proof.
  intros Hw. apply swrap_eq. rewrite <- (Z.sub_0_l (swrap w x)), <- (Z.sub_0_l x).
  by rewrite <- Zminus_mod_idemp_r, swrap_mod, Zminus_mod_idemp_r.
Qed.

Lemma truncate_spec w a :
  0 < w ->
  (if pos a then accumulate (swrap w) 0 (rev (val a))
   else swrap w (- accumulate (swrap w) 0 (rev (val a)))) = swrap w (value a).
Proof.
  intros Hw. assert (swrap w 0 = 0) as E0.
  { apply swrap_small; [done|]. pose proof (Z.pow_pos_nonneg 2 (w - 1)). lia. }
  pose proof (accumulate_spec w (rev (val a)) 0 Hw) as H. rewrite E0 in H. rewrite H.
  rewrite rev_involutive, Z.mul_0_l, Z.add_0_l. unfold value.
  destruct (pos a); cbn [signed_digit]; [done|by apply swrap_opp].
Qed.

(** Truncation keeps the low bits, in two's complement. *)
Lemma truncateToInt_spec a : truncateToInt a = i32 (value a).
Proof. by apply truncate_spec. Qed.

Lemma truncateToInt64_spec a : truncateToInt64 a = i64 (value a).
Proof. by apply truncate_spec. Qed.

Lemma toInt64_spec a :
  canonical a ->
  toInt64 a = (negb ((INT64_MIN <=? value a) && (value a <=? INT64_MAX)), i64 (value a)).
Proof.
  intros C. unfold toInt64. rewrite truncateToInt64_spec. f_equal.
  destruct (InfInt_of_int64_spec INT64_MAX) as [E1 C1]; [done|].
  destruct (InfInt_of_int64_spec INT64_MIN) as [E2 C2]; [done|].
  rewrite op_gt_spec, op_lt_spec, E1, E2 by done. lia.
Qed.

(** ** The properties of multiplication and of the 64-bit conversions *)

(** C19: the column-wise product with a deferred carry gives the exact product in
    canonical form, as long as the shorter operand has fewer than 2^32 digits (the
    column sums are accumulated in an [int64_t]). *)
Theorem infint_mul_exact a b :
  wf a -> wf b -> fits a b ->
  value (op_mul a b) = value a * value b /\ canonical (op_mul a b).
Proof. by apply op_mul_spec. Qed.

Lemma infint_mul_exact_witness :
  let a := mkInfInt false [999999999; 999999999; 3] in
  value (op_mul a a) = 15999999999999999992000000000000000001.
Proof.
  cbn zeta.
  destruct (infint_mul_exact (mkInfInt false [999999999; 999999999; 3])
              (mkInfInt false [999999999; 999999999; 3])) as [E _].
  - concrete_digits.
  - concrete_digits.
  - done.
  - rewrite E. reflexivity.
Defined.

(** Every 64-bit integer survives the conversion to [InfInt] and back, with
    no overflow reported; conversely the conversion to 64 bits reports an overflow
    exactly for the values outside the range and [isWithinSmallIntRange] holds
    exactly for the values a tagged pointer can hold. *)
Theorem infint_int64_roundtrip l a :
  INT64_MIN <= l <= INT64_MAX -> canonical a ->
  toInt64 (InfInt_of_int64 l) = (false, l)
  /\ (fst (toInt64 a) = false <-> INT64_MIN <= value a <= INT64_MAX)
  /\ (INT64_MIN <= value a <= INT64_MAX -> InfInt_of_int64 (snd (toInt64 a)) = a)
  /\ (isWithinSmallIntRange a = true <->
      VMTAGGEDINTEGER_MIN <= value a <= VMTAGGEDINTEGER_MAX).
Proof.
  intros Hl Ca. destruct (InfInt_of_int64_spec l Hl) as [E C].
  assert (forall x, INT64_MIN <= x <= INT64_MAX -> i64 x = x) as W.
  { intros x Hx. apply swrap_small; [done|]. unfold INT64_MIN, INT64_MAX in Hx. lia. }
  rewrite !toInt64_spec, E, W by done. cbn [fst snd].
  split; [f_equal; lia|]. split; [lia|]. split.
  - intros Ha. rewrite W by done. destruct (InfInt_of_int64_spec (value a) Ha) as [E2 C2].
    by apply canonical_unique.
  - rewrite isWithinSmallIntRange_spec by apply Ca. lia.
Qed.

Lemma infint_int64_roundtrip_witness :
  toInt64 (InfInt_of_int64 INT64_MIN) = (false, INT64_MIN)
  /\ isWithinSmallIntRange (mkInfInt true [427387904; 611686018; 4]) = false.
Proof.
  destruct (infint_int64_roundtrip INT64_MIN (mkInfInt true [427387904; 611686018; 4]))
    as (E & _ & _ & R).
  - done.
  - concrete_digits.
  - split; [exact E|reflexivity].
Defined.
