(* ===== verification/InfIntDiv.v ===== *)
(** * InfInt: division

    The long division of [src/src/lib/InfInt.h]: [dInR] finds a digit of the
    quotient by bisection, and the operators run over the dividend's digits from
    the most significant one. *)
From S2P Require Import Prelude InfIntBase InfIntMul.

(** The range of the search is below 2^30 and halves in every round, so 31
    rounds end it; a search that were still open would give -1, no digit. *)
Fixpoint dInR_loop (fuel : nat) (min max : Z) (R D : InfInt) : Z :=
  match fuel with
  | O => -1
  | S fuel =>
      if max >? min then
        let avg := elem (max + min) in
        let (quot, rem) := my_div avg 2 in
        let avg := if negb (rem =? 0) then elem (quot + 1) else quot in
        let prod := op_mul_elem D avg in
        if op_eq R prod then avg
        else if op_gt R prod then dInR_loop fuel avg max R D
        else dInR_loop fuel min (elem (avg - 1)) R D
      else min
  end.

Definition dInR (R D : InfInt) : Z := dInR_loop 31 0 UPPER_BOUND R D.

(** [x ? *this : -*this] for the magnitude. *)
Definition magnitude (a : InfInt) : InfInt := if pos a then a else op_neg a.

(** One round: [R.val.insert(R.val.begin(), n); R.correct(true)], then the digit
    [cnt] and [R -= D * cnt]. *)
Definition div_step (n : Z) (R D : InfInt) : Z * InfInt :=
  let R := correct true false (mkInfInt (pos R) (n :: val R)) in
  let cnt := dInR R D in
  (cnt, op_sub_assign R (op_mul_elem D cnt)).

(** [rn] are the digits of the dividend, most significant first; the quotient
    was filled with zeros and gets [cnt] added at the index of the digit. *)
Fixpoint div_loop (rn : list Z) (Q : list Z) (R D : InfInt) : list Z * InfInt :=
  match rn with
  | [] => (Q, R)
  | n :: rn =>
      let (cnt, R) := div_step n R D in
      div_loop rn (elem (0 + cnt) :: Q) R D
  end.

(** A division by zero prints a message and gives [InfInt()]. The loop counts limbs in an
    [int]: this is the code for dividends with fewer than 2^31 limbs. *)
Definition op_div (a b : InfInt) : InfInt :=
  if isZero b then InfInt_zero
  else
    let D := magnitude b in
    let N := magnitude a in
    let (Q, R) := div_loop (rev (val N)) [] InfInt_zero D in
    let q := correct false false (mkInfInt true Q) in
    mkInfInt (if single_zero (val q) then true else Bool.eqb (pos a) (pos b)) (val q).

(** The assignment leaves the dividend when the divisor is zero. *)
Definition op_div_assign (a b : InfInt) : InfInt :=
  if isZero b then a
  else
    let D := magnitude b in
    let N := magnitude a in
    let (Q, R) := div_loop (rev (val N)) [] InfInt_zero D in
    let q := correct false false (mkInfInt (pos a) Q) in
    mkInfInt (if single_zero (val q) then true else Bool.eqb (pos a) (pos b)) (val q).

Definition op_rem (a b : InfInt) : InfInt :=
  if isZero b then InfInt_zero
  else
    let D := magnitude b in
    let N := magnitude a in
    let (Q, R) := div_loop (rev (val N)) [] InfInt_zero D in
    let r := correct false false R in
    mkInfInt (if single_zero (val r) then true else pos a) (val r).

(** ** Correctness *)

Lemma magnitude_spec a :
  wf a -> wf (magnitude a) /\ pos (magnitude a) = true /\ value (magnitude a) = Z.abs (value a)
          /\ val (magnitude a) = val a.
Proof.
  intros [D T]. unfold magnitude, wf, value. pose proof (eval_bound _ D).
  destruct (pos a) eqn:E; cbn [op_neg pos val negb]; rewrite ?E; cbn [negb signed_digit];
    repeat split; try done; lia.
Qed.

Lemma pos_canonical a : wf a -> pos a = true -> canonical a.
Proof. intros H E. split; [done|]. congruence. Qed.

(** The bisection ends and finds the digit [R / D]. *)
Lemma dInR_loop_spec fuel min max R D :
  canonical R -> wf D -> 0 <= min <= max -> max <= UPPER_BOUND ->
  max - min < 2 ^ (Z.of_nat fuel - 1) -> (0 < fuel)%nat -> 0 < value D ->
  min * value D <= value R < (max + 1) * value D ->
  dInR_loop fuel min max R D = value R / value D.
Proof.
  intros CR WD. revert min max.
  induction fuel as [|fuel IH]; intros min max Hmin Hmax Hf Hfuel HD HR; [lia|].
  cbn [dInR_loop]. destruct (max >? min) eqn:Emm.
  2: { apply (Z.div_unique _ _ _ (value R - min * value D)); [left|]; nia. }
  assert (0 < fuel)%nat as Hfp.
  { destruct fuel; [|lia]. cbn in Hf. lia. }
  replace (Z.of_nat (S fuel) - 1) with (Z.succ (Z.of_nat fuel - 1)) in Hf by lia.
  rewrite Z.pow_succ_r in Hf by lia.
  rewrite (elem_small (max + min)) by (unfold_base; lia).
  unfold my_div. rewrite Z.quot_div_nonneg by lia.
  set (q := (max + min) / 2).
  assert (max + min = 2 * q + (max + min) mod 2) as Eq by (apply Z.div_mod; lia).
  pose proof (Z.mod_pos_bound (max + min) 2 ltac:(lia)) as Bq.
  set (avg := if negb (max + min - 2 * q =? 0) then elem (q + 1) else q).
  assert (avg = q + (max + min) mod 2) as Eavg.
  { subst avg. destruct (Z.eqb_spec (max + min - 2 * q) 0); cbn [negb].
    - lia.
    - rewrite elem_small by (unfold_base; lia). lia. }
  assert (min < avg <= max) as Havg by lia.
  destruct (op_mul_elem_spec D avg WD) as [EP CP]; [unfold_base; lia|].
  rewrite op_eq_spec, op_gt_spec by done. rewrite EP.
  destruct (Z.eqb_spec (value R) (value D * avg)) as [E|E].
  { rewrite E, Z.mul_comm, Z.div_mul by lia. done. }
  destruct (value R >? value D * avg) eqn:Eg.
  - apply IH; try lia; nia.
  - rewrite elem_small by (unfold_base; lia). apply IH; try lia; nia.
Qed.

Lemma dInR_spec R D :
  canonical R -> wf D -> 0 < value D -> 0 <= value R < BASE * value D ->
  dInR R D = value R / value D.
Proof.
  intros. apply dInR_loop_spec; try done; try (unfold_base; lia).
Qed.

Lemma div_step_spec n R D cnt R' :
  digit n -> canonical R -> pos R = true -> wf D -> 0 <= value R < value D ->
  div_step n R D = (cnt, R') ->
  digit cnt /\ value R * BASE + n = cnt * value D + value R'
  /\ canonical R' /\ pos R' = true /\ 0 <= value R' < value D.
Proof.
  intros Hn CR PR WD HR. unfold div_step.
  set (R1 := correct true false _).
  assert (canonical R1 /\ value R1 = value R * BASE + n /\ pos R1 = true) as (C1 & E1 & P1).
  { destruct CR as [[DR TR] _].
    destruct (removeLeadingZeros_spec (n :: val R)) as (E & F & T); [done|by constructor|].
    subst R1. unfold correct, canonical, wf, value. cbn [pos val]. rewrite E, PR.
    cbn [signed_digit eval]. repeat split; try done. lia. }
  rewrite op_sub_assign_eq.
  rewrite (dInR_spec R1 D) by (done || lia || (unfold_base; nia)).
  set (c := value R1 / value D). intros [= <- <-].
  assert (value R1 = value D * c + value R1 mod value D) as Ec by (apply Z.div_mod; lia).
  pose proof (Z.mod_pos_bound (value R1) (value D) ltac:(lia)) as Bc.
  assert (digit c) as Dc by (unfold_base; nia).
  destruct (op_mul_elem_spec D c WD) as [EP CP]; [unfold_base; lia|].
  destruct (op_sub_spec R1 (op_mul_elem D c)) as [ES CS]; [apply C1|apply CP|].
  assert (value (op_sub R1 (op_mul_elem D c)) = value R1 mod value D) as EV by lia.
  split; [done|]. split; [lia|]. split; [done|]. split; [|lia].
  apply canonical_nonneg; [done|lia].
Qed.

Lemma div_loop_spec rn Q R D Q' R' :
  Forall digit rn -> Forall digit Q -> canonical R -> pos R = true -> wf D ->
  0 <= value R < value D ->
  div_loop rn Q R D = (Q', R') ->
  Forall digit Q' /\ length Q' = (length rn + length Q)%nat
  /\ (eval Q * value D + value R) * BASE ^ Z.of_nat (length rn) + eval (rev rn)
     = eval Q' * value D + value R'
  /\ canonical R' /\ pos R' = true /\ 0 <= value R' < value D.
Proof.
  intros Hrn. revert Q R. induction Hrn as [|n rn Hn Hrn IH]; intros Q R HQ CR PR WD HR;
    cbn [div_loop].
  - intros [= <- <-]. cbn [length rev eval]. repeat split; try done; try apply CR; try lia.
  - destruct (div_step n R D) as [cnt R1] eqn:E1.
    apply div_step_spec in E1 as (Dc & Ec & C1 & P1 & B1); [|done..].
    rewrite Z.add_0_l, elem_digit by done. intros H.
    apply IH in H as (F & L & E & C & P & B); [|by constructor|done..].
    split; [done|]. split; [cbn [length] in *; lia|]. split; [|done].
    rewrite <- E. cbn [length rev eval].
    rewrite eval_app, length_rev, Nat2Z.inj_succ, Z.pow_succ_r by lia. cbn [eval].
    transitivity ((eval Q * value D * BASE + (value R * BASE + n)) * BASE ^ Z.of_nat (length rn) + eval (rev rn)); [ring|].
    rewrite Ec. ring.
Qed.

(** The loop as the operators start it. *)
Lemma long_division a b :
  wf a -> wf b -> value b <> 0 ->
  exists Q R,
    div_loop (rev (val (magnitude a))) [] InfInt_zero (magnitude b) = (Q, R)
    /\ Forall digit Q /\ Q <> []
    /\ eval Q = Z.abs (value a) / Z.abs (value b)
    /\ canonical R /\ pos R = true /\ value R = Z.abs (value a) mod Z.abs (value b).
Proof.
  intros Wa Wb Hb.
  destruct (magnitude_spec a Wa) as ([Da Ta] & Pa & Ea & Va).
  destruct (magnitude_spec b Wb) as (Wmb & Pb & Eb & Vb).
  destruct (div_loop _ _ _ _) as [Q R] eqn:E. exists Q, R.
  assert (canonical InfInt_zero) as CZ.
  { split; [|done]. split; [apply Forall_singleton; unfold_base; lia|by left]. }
  apply div_loop_spec in E as (F & L & E & C & P & B);
    [|by apply Forall_rev|done|done|done|done|rewrite Eb; cbn; lia].
  change (value InfInt_zero) with 0 in E. cbn [eval length] in *.
  rewrite rev_involutive, Eb in E. rewrite Eb in B.
  assert (eval (val (magnitude a)) = Z.abs (value a)) as EN.
  { rewrite <- Ea. unfold value. by rewrite Pa. }
  rewrite EN in E. split; [done|]. split; [done|]. split.
  { rewrite length_zero_nonempty, L, length_rev. pose proof (trimmed_nonempty _ Ta) as N.
    rewrite length_zero_nonempty in N. lia. }
  split; [|split; [done|split; [done|]]].
  - apply (Z.div_unique _ _ _ (value R)); [left|]; lia.
  - apply (Z.mod_unique _ _ (eval Q)); [left|]; lia.
Qed.

(** Division truncates towards zero. *)
Lemma op_div_spec a b :
  wf a -> wf b -> value b <> 0 ->
  value (op_div a b) = Z.quot (value a) (value b) /\ canonical (op_div a b).
Proof.
  intros Wa Wb Hb. unfold op_div. rewrite isZero_spec by done.
  destruct (Z.eqb_spec (value b) 0); [done|].
  destruct (long_division a b Wa Wb Hb) as (Q & R & -> & F & N & EQ & _).
  destruct (correct_magnitude true Q N F) as (E1 & C1 & P1).
  destruct (resign_spec _ (pos a) (pos b) C1 P1) as [E2 C2].
  split; [|done]. rewrite E2, E1, EQ.
  destruct Wa as [Da _], Wb as [Db _]. pose proof (eval_bound _ Da). pose proof (eval_bound _ Db).
  unfold value in *. destruct (pos a), (pos b); cbn [signed_digit sign] in *;
    rewrite ?Z.quot_opp_l, ?Z.quot_opp_r by lia;
    rewrite Z.quot_div_nonneg by lia; rewrite ?Z.abs_opp, !Z.abs_eq by lia; lia.
Qed.

Lemma op_div_assign_eq a b : value b <> 0 -> wf b -> op_div_assign a b = op_div a b.
Proof.
  intros Hb Wb. unfold op_div_assign, op_div. rewrite isZero_spec by done.
  destruct (Z.eqb_spec (value b) 0); [done|]. destruct (div_loop _ _ _ _) as [Q R].
  by rewrite (correct_sign (pos a) true).
Qed.

(** The remainder has the sign of the dividend. *)
Lemma op_rem_spec a b :
  wf a -> wf b -> value b <> 0 ->
  value (op_rem a b) = Z.rem (value a) (value b) /\ canonical (op_rem a b).
Proof.
  intros Wa Wb Hb. unfold op_rem. rewrite isZero_spec by done.
  destruct (Z.eqb_spec (value b) 0); [done|].
  destruct (long_division a b Wa Wb Hb) as (Q & R & -> & _ & _ & _ & CR & PR & ER).
  destruct R as [pr vr]. cbn in PR. subst pr.
  destruct (correct_magnitude true vr) as (E1 & C1 & P1);
    [apply trimmed_nonempty, CR|apply CR|].
  destruct (resign_spec _ (pos a) true C1 P1) as [E2 C2].
  replace (Bool.eqb (pos a) true) with (pos a) in * by (by destruct (pos a)).
  split; [|done]. rewrite E2, E1. change (eval vr) with (value (mkInfInt true vr)).
  rewrite ER. destruct Wa as [Da _], Wb as [Db _].
  pose proof (eval_bound _ Da). pose proof (eval_bound _ Db).
  unfold value in *. destruct (pos a), (pos b); cbn [signed_digit sign] in *;
    rewrite ?Z.rem_opp_l, ?Z.rem_opp_r by lia;
    rewrite Z.rem_mod_nonneg by lia; rewrite ?Z.abs_opp, !Z.abs_eq by lia; lia.
Qed.

(** Division by zero is reported and gives zero. *)
Lemma op_div_zero a b : wf b -> value b = 0 -> op_div a b = InfInt_zero.
Proof. intros Wb E. unfold op_div. rewrite isZero_spec by done. by rewrite E. Qed.

Lemma op_rem_zero a b : wf b -> value b = 0 -> op_rem a b = InfInt_zero.
Proof. intros Wb E. unfold op_rem. rewrite isZero_spec by done. by rewrite E. Qed.

(** ** The properties of division *)

(** C6: schoolbook division with a binary search for each quotient digit computes
    the quotient truncated towards zero and the remainder with the sign of the
    dividend, both canonical; a zero divisor gives zero for both (after an error
    message on the standard error stream). *)
Theorem infint_division_exact a b :
  wf a -> wf b ->
  (value b <> 0 ->
     value (op_div a b) = Z.quot (value a) (value b) /\ canonical (op_div a b)
     /\ value (op_rem a b) = Z.rem (value a) (value b) /\ canonical (op_rem a b)
     /\ op_div_assign a b = op_div a b)
  /\ (value b = 0 -> op_div a b = InfInt_zero /\ op_rem a b = InfInt_zero).
Proof.
  intros Wa Wb. split.
  - intros Hb. rewrite op_div_assign_eq by done.
    destruct (op_div_spec a b Wa Wb Hb), (op_rem_spec a b Wa Wb Hb). done.
  - intros Hb. by rewrite op_div_zero, op_rem_zero by done.
Qed.

Lemma infint_division_exact_witness :
  let a := mkInfInt false [7; 123456789; 5] in
  let b := mkInfInt true [11; 3] in
  value (op_div a b) = -1707818923 /\ value (op_rem a b) = -1213991854.
Proof.
  cbn zeta.
  destruct (infint_division_exact (mkInfInt false [7; 123456789; 5]) (mkInfInt true [11; 3]))
    as (H & _).
  - concrete_digits.
  - concrete_digits.
  - destruct H as (E1 & _ & E2 & _); [done|]. rewrite E1, E2. split; reflexivity.
Defined.
