(* ===== verification/InfIntText.v ===== *)
(** * InfInt: decimal text

    [fromString] and the stream output of [src/src/lib/InfInt.h], with what they
    use of the C++ library: [atoi], [substr] and decimal output with and without
    zero fill.  Strings are lists of characters. *)
From Stdlib Require Import Ascii String.
From S2P Require Import Prelude InfIntBase InfIntMul.

#[export] Instance ascii_eq_decision : EqDecision ascii := ascii_dec.

Definition chr (c : ascii) : Z := Z.of_N (N_of_ascii c).
Definition of_chr (z : Z) : ascii := ascii_of_N (Z.to_N z).

Definition isdigit (c : ascii) : bool := (48 <=? chr c) && (chr c <=? 57).
Definition isspace (c : ascii) : bool := (chr c =? 32) || ((9 <=? chr c) && (chr c <=? 13)).
Definition is_minus (c : ascii) : bool := chr c =? 45.
Definition is_plus (c : ascii) : bool := chr c =? 43.

(** [atoi]: leading spaces, a sign, and the digits up to the first other
    character.  The callers pass nine characters at most. *)
Fixpoint atoi_digits (acc : Z) (s : list ascii) : Z :=
  match s with
  | [] => acc
  | c :: r => if isdigit c then atoi_digits (acc * 10 + (chr c - 48)) r else acc
  end.

Fixpoint skip_spaces (s : list ascii) : list ascii :=
  match s with c :: r => if isspace c then skip_spaces r else s | [] => [] end.

Definition atoi (s : list ascii) : Z :=
  match skip_spaces s with
  | [] => 0
  | c :: r =>
      if is_minus c then - atoi_digits 0 r
      else if is_plus c then atoi_digits 0 r
      else atoi_digits 0 (c :: r)
  end.

Definition substr (i n : nat) (s : list ascii) : list ascii := take n (drop i s).

Definition DIGIT_COUNT : nat := 9.

(** The loop [for (; i >= 0; i -= DIGIT_COUNT)] from [i = s.size() - DIGIT_COUNT]:
    [n] is [i + DIGIT_COUNT] and [k] the number of rounds. *)
Fixpoint push_chunks (k n : nat) (s : list ascii) : list Z :=
  match k with
  | O => []
  | S k => atoi (substr (n - DIGIT_COUNT) DIGIT_COUNT s) :: push_chunks k (n - DIGIT_COUNT) s
  end.

(** [if (val.back() < 0)]; [back] of an empty vector is undefined. *)
Definition back_sign (p : bool) (v : list Z) : option InfInt :=
  match rev v with
  | [] => None
  | x :: r => if x <? 0 then Some (mkInfInt false (rev (- x :: r))) else Some (mkInfInt p v)
  end.

Definition read_chunks (n : nat) (s : list ascii) : option InfInt :=
  let v := push_chunks (n / DIGIT_COUNT) n s in
  let rest := (n mod DIGIT_COUNT)%nat in
  let ss := substr 0 rest s in
  let r :=
    if (0 <? rest)%nat then
      match ss with
      | [c] => if is_minus c then (false, v) else (true, v ++ [atoi ss])
      | _ => (true, v ++ [atoi ss])
      end
    else (true, v) in
  correct true false <$> back_sign (fst r) (snd r).

(** The size is cast to [int]; if that makes it negative, no chunk is read, and [back] is
    undefined, as is the subtraction from a size next to [INT_MIN]. *)
Definition fromString (s : list ascii) : option InfInt :=
  let n := i32 (Z.of_nat (length s)) in
  if n <? 0 then None else read_chunks (Z.to_nat n) s.

(** The sizes that the cast keeps. *)
Definition int_size (s : list ascii) : Prop := Z.of_nat (length s) < 2 ^ 31.

Lemma fromString_int_size s : int_size s -> fromString s = read_chunks (length s) s.
Proof.
  intros H. unfold int_size in H. unfold fromString. rewrite swrap_small by lia.
  rewrite (proj2 (Z.ltb_ge _ _)) by lia. by rewrite Nat2Z.id.
Qed.

(** Decimal output of an [int] that is not negative; it has ten digits at most. *)
Fixpoint decimal (fuel : nat) (n : Z) : list ascii :=
  match fuel with
  | O => []
  | S fuel =>
      if n <? 10 then [of_chr (48 + n)]
      else decimal fuel (n / 10) ++ [of_chr (48 + n mod 10)]
  end.

(** [std::setfill('0') << std::setw(DIGIT_COUNT)] *)
Definition zero_fill (s : list ascii) : list ascii :=
  replicate (DIGIT_COUNT - length s) (of_chr 48) ++ s.

Fixpoint print_digits (first : bool) (rv : list Z) : list ascii :=
  match rv with
  | [] => []
  | d :: r => (if first then decimal 10 d else zero_fill (decimal 10 d)) ++ print_digits false r
  end.

Definition toString (a : InfInt) : list ascii :=
  (if negb (pos a) then [of_chr 45] else []) ++ print_digits true (rev (val a)).

(** ** Correctness *)

(** The number a string of decimal digits denotes. *)
Fixpoint dval_acc (acc : Z) (s : list ascii) : Z :=
  match s with [] => acc | c :: r => dval_acc (acc * 10 + (chr c - 48)) r end.
Definition dval (s : list ascii) : Z := dval_acc 0 s.

Definition digits (s : list ascii) : Prop := Forall (fun c => isdigit c = true) s.

Lemma chr_of_chr z : 0 <= z < 256 -> chr (of_chr z) = z.
Proof. intros H. unfold chr, of_chr. rewrite N_ascii_embedding; lia. Qed.

Lemma dval_acc_spec acc s : dval_acc acc s = acc * 10 ^ Z.of_nat (length s) + dval s.
Proof.
  unfold dval. revert acc. induction s as [|c s IH]; intros acc; cbn [dval_acc length].
  - cbn. lia.
  - rewrite IH, (IH (0 * 10 + _)), Nat2Z.inj_succ, Z.pow_succ_r by lia. ring.
Qed.

Lemma dval_app s t : dval (s ++ t) = dval s * 10 ^ Z.of_nat (length t) + dval t.
Proof.
  rewrite <- dval_acc_spec. unfold dval. generalize 0 as acc.
  induction s as [|c s IH]; intros acc; cbn [app dval_acc]; [done|]. apply IH.
Qed.

Lemma dval_cons c s : dval (c :: s) = (chr c - 48) * 10 ^ Z.of_nat (length s) + dval s.
Proof. apply (dval_app [c] s). Qed.

Lemma dval_bound s : digits s -> 0 <= dval s < 10 ^ Z.of_nat (length s).
Proof.
  induction 1 as [|c s Hc Hs IH]; [cbn; lia|]. cbn [length].
  rewrite dval_cons, Nat2Z.inj_succ, Z.pow_succ_r by lia.
  unfold isdigit in Hc. pose proof (Z.pow_pos_nonneg 10 (Z.of_nat (length s))). nia.
Qed.

Lemma atoi_digits_spec acc s : digits s -> atoi_digits acc s = dval_acc acc s.
Proof.
  intros H. revert acc. induction H as [|c s Hc Hs IH]; intros acc;
    cbn [atoi_digits dval_acc]; [done|]. rewrite Hc. apply IH.
Qed.

Lemma isdigit_other c :
  isdigit c = true -> isspace c = false /\ is_minus c = false /\ is_plus c = false.
Proof. unfold isdigit, isspace, is_minus, is_plus. lia. Qed.

Lemma atoi_spec s : digits s -> atoi s = dval s.
Proof.
  intros H. unfold atoi. destruct H as [|c s Hc Hs]; [done|].
  destruct (isdigit_other c Hc) as (E1 & E2 & E3). cbn [skip_spaces]. rewrite E1, E2, E3.
  apply atoi_digits_spec. by constructor.
Qed.

Lemma atoi_minus s : digits s -> atoi (of_chr 45 :: s) = - dval s.
Proof.
  intros H. unfold atoi, skip_spaces. change (isspace (of_chr 45)) with false.
  change (is_minus (of_chr 45)) with true. cbn iota. by rewrite atoi_digits_spec.
Qed.

Lemma digits_app s t : digits (s ++ t) <-> digits s /\ digits t.
Proof. apply Forall_app. Qed.

Lemma push_chunks_prefix k n s w :
  (DIGIT_COUNT * k <= n)%nat -> (n <= length s)%nat ->
  push_chunks k n (s ++ w) = push_chunks k n s.
Proof.
  unfold DIGIT_COUNT. revert n. induction k as [|k IH]; intros n Hk Hn; [done|].
  cbn [push_chunks]. unfold DIGIT_COUNT. rewrite IH by lia. do 2 f_equal. unfold substr.
  rewrite drop_app_le by lia. apply take_app_le. rewrite length_drop. lia.
Qed.

Lemma digit_of_dval p : digits p -> (length p <= DIGIT_COUNT)%nat -> digit (dval p).
Proof.
  intros D L. pose proof (dval_bound p D) as B.
  assert (10 ^ Z.of_nat (length p) <= 10 ^ 9)
    by (apply Z.pow_le_mono_r; unfold DIGIT_COUNT in L; lia).
  unfold_base. change (10 ^ 9) with 1000000000 in *. lia.
Qed.

(** The chunks of a string whose last [9 * k] characters are digits. *)
Lemma push_chunks_spec k p t :
  length t = (DIGIT_COUNT * k)%nat -> digits t ->
  let v := push_chunks k (length (p ++ t)) (p ++ t) in
  eval v = dval t /\ Forall digit v /\ length v = k.
Proof.
  cbn zeta. revert p t. induction k as [|k IH]; intros p t HL HD.
  - destruct t; [|done]. done.
  - set (u := take (DIGIT_COUNT * k) t). set (w := drop (DIGIT_COUNT * k) t).
    assert (t = u ++ w) as Et by (symmetry; apply take_drop).
    assert (length u = DIGIT_COUNT * k)%nat as Lu by (subst u; rewrite length_take; lia).
    assert (length w = DIGIT_COUNT) as Lw by (subst w; rewrite length_drop; lia).
    rewrite Et, digits_app in HD. destruct HD as [Du Dw].
    rewrite Et. clearbody u w. clear Et HL t. rewrite app_assoc. cbn [push_chunks].
    replace (length ((p ++ u) ++ w) - DIGIT_COUNT)%nat with (length (p ++ u))
      by (rewrite (length_app (p ++ u)); lia).
    replace (substr (length (p ++ u)) DIGIT_COUNT ((p ++ u) ++ w)) with w.
    2: { unfold substr. rewrite drop_app_length. symmetry. apply take_ge. lia. }
    rewrite push_chunks_prefix by (rewrite ?length_app; unfold DIGIT_COUNT in *; lia).
    destruct (IH p u Lu Du) as (E & F & L).
    cbn [eval length]. rewrite E, L, (atoi_spec w Dw).
    split; [|split; [constructor; [apply digit_of_dval; [done|lia]|done]|done]].
    rewrite (dval_app u w), Lw. change (10 ^ Z.of_nat DIGIT_COUNT) with BASE. lia.
Qed.

(** The leading chunk and the full ones. *)
Lemma split_chunks (s : list ascii) :
  exists p t, s = p ++ t /\ length p = (length s mod DIGIT_COUNT)%nat
              /\ length t = (DIGIT_COUNT * (length s / DIGIT_COUNT))%nat.
Proof.
  exists (take (length s mod DIGIT_COUNT) s), (drop (length s mod DIGIT_COUNT) s).
  pose proof (Nat.div_mod_eq (length s) DIGIT_COUNT).
  split; [by rewrite take_drop|]. rewrite length_take, length_drop. lia.
Qed.

Lemma eval_snoc v x : eval (v ++ [x]) = eval v + BASE ^ Z.of_nat (length v) * x.
Proof. rewrite eval_app. cbn [eval]. lia. Qed.

Lemma pow_chunks k : BASE ^ Z.of_nat k = 10 ^ Z.of_nat (DIGIT_COUNT * k).
Proof.
  rewrite Nat2Z.inj_mul, Z.pow_mul_r by lia. done.
Qed.

Lemma back_sign_pos p v :
  v <> [] -> Forall digit v -> back_sign p v = Some (mkInfInt p v).
Proof.
  intros N F. unfold back_sign. destruct (rev v) as [|x r] eqn:E.
  - exfalso. apply N. by rewrite <- (rev_involutive v), E.
  - apply Forall_rev in F. rewrite E in F. apply Forall_cons_iff in F as [Dx _].
    replace (x <? 0) with false by (unfold_base; lia). done.
Qed.

Lemma correct_text p v :
  v <> [] -> Forall digit v ->
  let r := correct true false (mkInfInt p v) in
  eval (val r) = eval v /\ wf r /\ pos r = p.
Proof.
  intros N F. destruct (removeLeadingZeros_spec v) as (E & F' & T); [done|done|].
  done.
Qed.

Lemma substr_0_app p t : substr 0 (length p) (p ++ t) = p.
Proof. unfold substr. rewrite drop_0. apply take_app_length. Qed.

(** A string of decimal digits is read as the number it denotes. *)
Lemma fromString_digits s :
  digits s -> s <> [] -> int_size s ->
  exists a, fromString s = Some a /\ value a = dval s /\ canonical a.
Proof.
  intros D N HI. rewrite fromString_int_size by done. destruct (split_chunks s) as (p & t & E & Lp & Lt).
  unfold read_chunks. rewrite <- Lp.
  set (k := (length s / DIGIT_COUNT)%nat) in *.
  destruct (push_chunks_spec k p t Lt) as (Ev & F & L).
  { rewrite E, digits_app in D. apply D. }
  rewrite <- E in Ev, F, L. set (v := push_chunks k (length s) s) in *. clearbody v k.
  rewrite E, digits_app in D. destruct D as [Dp Dt].
  assert (length p < DIGIT_COUNT)%nat as Lp9 by (rewrite Lp; by apply Nat.mod_upper_bound).
  assert (exists w, (if (0 <? length p)%nat
                     then match substr 0 (length p) s with
                          | [c] => if is_minus c then (false, v) else (true, v ++ [atoi (substr 0 (length p) s)])
                          | _ => (true, v ++ [atoi (substr 0 (length p) s)])
                          end else (true, v)) = (true, w)
                    /\ w <> [] /\ Forall digit w /\ eval w = dval s) as (w & -> & Nw & Fw & Ew).
  { rewrite E, substr_0_app. destruct (Nat.ltb_spec 0 (length p)) as [H|H].
    - exists (v ++ [dval p]). rewrite (atoi_spec p Dp). split; [|split; [|split]].
      + destruct p as [|c [|? ?]]; [cbn in H; lia| |done]. apply Forall_cons_iff in Dp as [Dc _].
        destruct (isdigit_other c Dc) as (_ & -> & _). done.
      + by destruct v.
      + apply Forall_app. split; [done|]. apply Forall_singleton, digit_of_dval; [done|lia].
      + rewrite eval_snoc, Ev, L, pow_chunks, <- Lt, dval_app. lia.
    - destruct p; [|cbn in H; lia]. exists v. repeat split; [|done|by rewrite Ev].
      intros ->. cbn in L. rewrite <- L, Nat.mul_0_r in Lt. destruct t; [|done]. by rewrite E in N. }
  cbn [fst snd]. rewrite back_sign_pos by done. cbn [fmap option_fmap option_map].
  destruct (correct_text true w Nw Fw) as (Er & Wr & Pr).
  eexists. split; [done|]. split; [unfold value; by rewrite Pr, Er|].
  split; [done|]. by rewrite Pr.
Qed.

Lemma push_chunks_last k c t :
  length c = DIGIT_COUNT -> length t = (DIGIT_COUNT * k)%nat ->
  push_chunks (S k) (length (c ++ t)) (c ++ t)
  = push_chunks k (length (c ++ t)) (c ++ t) ++ [atoi c].
Proof.
  intros Lc Lt. rewrite length_app, Lc, Lt. clear Lt.
  assert (forall j, push_chunks (S j) (DIGIT_COUNT + DIGIT_COUNT * j) (c ++ t)
          = push_chunks j (DIGIT_COUNT + DIGIT_COUNT * j) (c ++ t) ++ [atoi c]) as H; [|apply H].
  induction j as [|j IH].
  - cbn [push_chunks app]. do 2 f_equal. unfold substr, DIGIT_COUNT in *. cbn [Nat.mul Nat.add Nat.sub].
    rewrite drop_0, <- Lc. apply take_app_length.
  - change (push_chunks (S (S j)) (DIGIT_COUNT + DIGIT_COUNT * S j) (c ++ t)) with
      (atoi (substr (DIGIT_COUNT + DIGIT_COUNT * S j - DIGIT_COUNT) DIGIT_COUNT (c ++ t))
       :: push_chunks (S j) (DIGIT_COUNT + DIGIT_COUNT * S j - DIGIT_COUNT) (c ++ t)).
    replace (DIGIT_COUNT + DIGIT_COUNT * S j - DIGIT_COUNT)%nat
      with (DIGIT_COUNT + DIGIT_COUNT * j)%nat by lia.
    rewrite IH. cbn [push_chunks app].
    by replace (DIGIT_COUNT + DIGIT_COUNT * S j - DIGIT_COUNT)%nat
      with (DIGIT_COUNT + DIGIT_COUNT * j)%nat by lia.
Qed.

(** The vector [fromString] has before it looks at the sign of [back]. *)
Definition raw_chunks (s : list ascii) : bool * list Z :=
  let n := length s in
  let v := push_chunks (n / DIGIT_COUNT) n s in
  let rest := (n mod DIGIT_COUNT)%nat in
  let ss := substr 0 rest s in
  if (0 <? rest)%nat then
    match ss with
    | [c] => if is_minus c then (false, v) else (true, v ++ [atoi ss])
    | _ => (true, v ++ [atoi ss])
    end
  else (true, v).

Lemma raw_chunks_minus c t k :
  digits c -> (length c < DIGIT_COUNT)%nat -> length t = (DIGIT_COUNT * k)%nat ->
  let s := of_chr 45 :: c ++ t in
  raw_chunks s = match c with
                 | [] => (false, push_chunks k (length s) s)
                 | _ => (true, push_chunks k (length s) s ++ [- dval c])
                 end.
Proof.
  intros Dc Lc Lt. cbn zeta. unfold raw_chunks.
  assert (length (of_chr 45 :: c ++ t) = S (length c) + DIGIT_COUNT * k)%nat as L
    by (cbn [length]; rewrite length_app; lia).
  destruct (decide (S (length c) = DIGIT_COUNT)) as [E9|E9].
  - assert (length (of_chr 45 :: c ++ t) = (S k) * DIGIT_COUNT)%nat as L' by lia.
    replace (length (of_chr 45 :: c ++ t) / DIGIT_COUNT)%nat with (S k)
      by (rewrite L'; symmetry; by apply Nat.div_mul).
    replace (length (of_chr 45 :: c ++ t) mod DIGIT_COUNT)%nat with 0%nat
      by (rewrite L'; symmetry; by apply Nat.Div0.mod_mul).
    cbn [Nat.ltb Nat.leb].
    pose proof (push_chunks_last k (of_chr 45 :: c) t ltac:(cbn [length]; lia) Lt) as E.
    cbn [app] in E. rewrite E.
    rewrite atoi_minus by done. by destruct c.
  - replace (length (of_chr 45 :: c ++ t) / DIGIT_COUNT)%nat with k.
    2: { apply (Nat.div_unique _ _ _ (S (length c))); [lia|]. rewrite L. lia. }
    replace (length (of_chr 45 :: c ++ t) mod DIGIT_COUNT)%nat with (S (length c)).
    2: { apply (Nat.mod_unique _ _ k); [lia|]. rewrite L. lia. }
    change (substr 0 (S (length c)) (of_chr 45 :: c ++ t))
      with (substr 0 (length (of_chr 45 :: c)) ((of_chr 45 :: c) ++ t)).
    rewrite substr_0_app, atoi_minus by done. by destruct c.
Qed.

Lemma back_sign_neg p v x :
  0 < x -> back_sign p (v ++ [- x]) = Some (mkInfInt false (v ++ [x])).
Proof.
  intros Hx. unfold back_sign. rewrite rev_app_distr. cbn [rev app].
  replace (- x <? 0) with true by lia. rewrite Z.opp_involutive. by rewrite rev_involutive.
Qed.

(** A minus and a number without leading zero. *)
Lemma fromString_minus d s :
  digits (d :: s) -> chr d <> 48 -> int_size (of_chr 45 :: d :: s) ->
  exists a, fromString (of_chr 45 :: d :: s) = Some a
            /\ value a = - dval (d :: s) /\ canonical a.
Proof.
  intros D Hd HI. rewrite fromString_int_size by done. set (m := d :: s) in *.
  destruct (split_chunks m) as (c & t & E & Lc & Lt).
  set (k := (length m / DIGIT_COUNT)%nat) in *.
  assert (length c < DIGIT_COUNT)%nat as Lc9 by (rewrite Lc; by apply Nat.mod_upper_bound).
  pose proof D as Dm. rewrite E, digits_app in Dm. destruct Dm as [Dc Dt].
  change (read_chunks (length (of_chr 45 :: m)) (of_chr 45 :: m)) with
    (correct true false <$> back_sign (fst (raw_chunks (of_chr 45 :: m)))
                                      (snd (raw_chunks (of_chr 45 :: m)))).
  rewrite E, (raw_chunks_minus c t k) by done.
  destruct (push_chunks_spec k (of_chr 45 :: c) t Lt Dt) as (Ev & F & L). cbn [app] in *.
  set (v := push_chunks k _ _) in *. clearbody v k.
  assert (0 < (chr d - 48)) as Hpos.
  { apply Forall_cons_iff in D as [Hdd _]. unfold isdigit in Hdd. lia. }
  assert (exists w, back_sign (fst match c with [] => (false, v) | _ => (true, v ++ [- dval c]) end)
                              (snd match c with [] => (false, v) | _ => (true, v ++ [- dval c]) end)
                    = Some (mkInfInt false w)
                    /\ w <> [] /\ Forall digit w /\ eval w = dval m) as (w & -> & Nw & Fw & Ew).
  { destruct c as [|c0 c']; cbn [fst snd].
    - exists v. cbn [app] in E. rewrite <- E in Ev.
      assert (v <> []) as Nv.
      { intros ->. cbn in L. subst k. destruct t; [done|]. cbn in Lt. lia. }
      rewrite back_sign_pos by done. done.
    - assert (c0 = d) as -> by (subst m; cbn in E; congruence).
      assert (0 < dval (d :: c')).
      { apply Forall_cons_iff in Dc as [_ Dc']. rewrite dval_cons.
        pose proof (dval_bound c' Dc'). pose proof (Z.pow_pos_nonneg 10 (Z.of_nat (length c'))).
        nia. }
      exists (v ++ [dval (d :: c')]). rewrite back_sign_neg by done. split; [done|].
      split; [by destruct v|]. split.
      + apply Forall_app. split; [done|]. apply Forall_singleton, digit_of_dval; [done|lia].
      + rewrite eval_snoc, Ev, L, pow_chunks, <- Lt, E, (dval_app (d :: c')). lia. }
  cbn [fmap option_fmap option_map].
  destruct (correct_text false w Nw Fw) as (Er & Wr & Pr).
  eexists. split; [done|]. rewrite <- E. split; [unfold value; by rewrite Pr, Er, Ew|].
  split; [done|]. intros _. rewrite Er, Ew. subst m.
  apply Forall_cons_iff in D as [_ Ds]. rewrite dval_cons.
  pose proof (dval_bound s Ds). pose proof (Z.pow_pos_nonneg 10 (Z.of_nat (length s))). nia.
Qed.

(** *** Output *)

Lemma isdigit_of_chr d : 0 <= d < 10 -> isdigit (of_chr (48 + d)) = true.
Proof. intros. unfold isdigit. rewrite chr_of_chr by lia. lia. Qed.

Lemma decimal_spec fuel n :
  0 <= n < 10 ^ Z.of_nat fuel -> (0 < fuel)%nat ->
  digits (decimal fuel n) /\ dval (decimal fuel n) = n
  /\ (1 <= length (decimal fuel n) <= fuel)%nat
  /\ (0 < n -> exists d s, decimal fuel n = d :: s /\ chr d <> 48).
Proof.
  revert n. induction fuel as [|fuel IH]; intros n Hn Hf; [lia|]. cbn [decimal].
  destruct (n <? 10) eqn:E.
  - split; [apply Forall_singleton, isdigit_of_chr; lia|].
    rewrite dval_cons, chr_of_chr by lia. cbn. split; [lia|]. split; [lia|].
    intros. eexists _, _. split; [done|]. rewrite chr_of_chr; lia.
  - rewrite Nat2Z.inj_succ, Z.pow_succ_r in Hn by lia.
    pose proof (Z.div_mod n 10 ltac:(lia)). pose proof (Z.mod_pos_bound n 10 ltac:(lia)).
    destruct (IH (n / 10)) as (D & V & L & H1); [lia|destruct fuel; [cbn in Hn; lia|lia]|].
    split; [apply digits_app; split; [done|]; apply Forall_singleton, isdigit_of_chr; lia|].
    rewrite dval_app, V, dval_cons, chr_of_chr by lia. rewrite length_app. cbn.
    split; [lia|]. split; [lia|]. intros _. destruct H1 as (d & s & -> & Hd); [lia|].
    eexists _, _. cbn [app]. done.
Qed.

(** A digit in base 10^9 is printed with nine characters at most. *)
Lemma decimal_short n : digit n -> (length (decimal 10 n) <= DIGIT_COUNT)%nat.
Proof.
  intros Hn. destruct (decimal_spec 9 n) as (_ & _ & L & _); [cbn; unfold_base; lia|lia|].
  enough (decimal 10 n = decimal 9 n) as -> by (unfold DIGIT_COUNT; lia).
  assert (forall f m, 0 <= m < 10 ^ Z.of_nat f -> (0 < f)%nat -> decimal (S f) m = decimal f m) as H.
  { clear. induction f as [|f IH]; intros m Hm Hf; [lia|].
    change (decimal (S (S f)) m) with
      (if m <? 10 then [of_chr (48 + m)] else decimal (S f) (m / 10) ++ [of_chr (48 + m mod 10)]).
    cbn [decimal]. destruct (m <? 10) eqn:E; [done|].
    rewrite Nat2Z.inj_succ, Z.pow_succ_r in Hm by lia.
    pose proof (Z.div_mod m 10 ltac:(lia)). pose proof (Z.mod_pos_bound m 10 ltac:(lia)).
    change (if m / 10 <? 10 then _ else _) with (decimal (S f) (m / 10)).
    rewrite IH; [done|lia|destruct f; [cbn in Hm; lia|lia]]. }
  apply H; [cbn; unfold_base; lia|lia].
Qed.

Lemma dval_zeros n s : dval (replicate n (of_chr 48) ++ s) = dval s.
Proof.
  induction n as [|n IH]; [done|]. cbn [replicate app]. rewrite dval_cons, IH.
  rewrite chr_of_chr by lia. lia.
Qed.

Lemma zero_fill_spec n :
  digit n ->
  digits (zero_fill (decimal 10 n)) /\ dval (zero_fill (decimal 10 n)) = n
  /\ length (zero_fill (decimal 10 n)) = DIGIT_COUNT.
Proof.
  intros Hn. destruct (decimal_spec 10 n) as (D & V & _); [cbn; unfold_base; lia|lia|].
  pose proof (decimal_short n Hn). unfold zero_fill. split; [|split].
  - apply digits_app. split; [|done]. apply Forall_replicate. done.
  - by rewrite dval_zeros.
  - rewrite length_app, length_replicate. lia.
Qed.

Lemma print_digits_rest rv :
  Forall digit rv ->
  digits (print_digits false rv) /\ dval (print_digits false rv) = eval (rev rv)
  /\ length (print_digits false rv) = (DIGIT_COUNT * length rv)%nat.
Proof.
  induction 1 as [|d rv Hd Hrv IH]; [by repeat constructor|]. cbn [print_digits rev length].
  destruct IH as (D & V & L). destruct (zero_fill_spec d Hd) as (D1 & V1 & L1).
  split; [by apply digits_app|]. rewrite length_app, L1, L.
  split; [|lia]. rewrite dval_app, V1, V, L, eval_snoc, length_rev, pow_chunks. lia.
Qed.

Lemma print_digits_spec v :
  Forall digit v -> trimmed v ->
  let s := print_digits true (rev v) in
  digits s /\ dval s = eval v /\ s <> []
  /\ (0 < eval v -> exists d r, s = d :: r /\ chr d <> 48).
Proof.
  intros F T. cbn zeta. unfold trimmed in T.
  assert (v = rev (rev v)) as Ev by (by rewrite rev_involutive).
  apply Forall_rev in F. destruct (rev v) as [|x r] eqn:Er; [done|].
  apply Forall_cons_iff in F as [Dx Dr]. cbn [print_digits].
  destruct (print_digits_rest r Dr) as (D & V & L).
  destruct (decimal_spec 10 x) as (D1 & V1 & L1 & H1); [cbn; unfold_base; lia|lia|].
  assert (dval (decimal 10 x ++ print_digits false r) = eval v) as E.
  { rewrite dval_app, V1, V, L, Ev. cbn [rev]. rewrite eval_snoc, length_rev, pow_chunks. lia. }
  split; [by apply digits_app|]. split; [done|]. split; [destruct (decimal 10 x); [cbn in L1; lia|done]|].
  intros Hpos. destruct H1 as (d & s & -> & Hd); [|by eexists _, _].
  destruct T as [->|Hx]; [|unfold_base; lia]. rewrite Ev in Hpos. cbn in Hpos. unfold_base. lia.
Qed.

(** What is printed is read back as the same number. *)
Lemma fromString_toString a :
  canonical a -> int_size (toString a) -> fromString (toString a) = Some a.
Proof.
  intros C HI. pose proof C as [[F T] Cz]. unfold toString in *.
  destruct (print_digits_spec (val a) F T) as (D & V & N & H).
  destruct (pos a) eqn:Ep; cbn [negb app] in *.
  - destruct (fromString_digits _ D N HI) as (b & -> & Vb & Cb). f_equal.
    apply canonical_unique; [done|done|]. rewrite Vb, V. unfold value. by rewrite Ep.
  - specialize (Cz eq_refl). pose proof (eval_bound _ F).
    destruct H as (d & s & Es & Hd); [lia|]. rewrite Es in *.
    destruct (fromString_minus d s D Hd HI) as (b & -> & Vb & Cb). f_equal.
    apply canonical_unique; [done|done|]. rewrite Vb, V. unfold value. by rewrite Ep.
Qed.

(** ** The properties of the text form *)

(** The text of a canonical number: its digits, after a minus if it is negative. *)
Lemma toString_text a :
  canonical a -> exists ds,
    toString a = (if value a <? 0 then [of_chr 45] else []) ++ ds /\ digits ds /\
    dval ds = Z.abs (value a) /\ (ds = [of_chr 48] \/ exists d t, ds = d :: t /\ chr d <> 48).
Proof.
  intros [[F T] Cz]. destruct (print_digits_spec (val a) F T) as (D & V & N & H).
  pose proof (eval_bound _ F) as B.
  assert ((value a <? 0) = negb (pos a)) as ->.
  { unfold value. destruct (pos a); [cbn; lia|]. specialize (Cz eq_refl). cbn. lia. }
  exists (print_digits true (rev (val a))). split; [unfold toString; by destruct (pos a)|].
  split; [done|]. split; [rewrite V; unfold value, signed_digit; destruct (pos a); lia|].
  destruct (decide (0 < eval (val a))) as [Hp|Hp]; [right; auto|left].
  unfold trimmed in T. assert (val a = rev (rev (val a))) as Er by (by rewrite rev_involutive).
  apply Forall_rev in F. destruct (rev (val a)) as [|x r]; [done|]. cbn [rev] in Er.
  apply Forall_cons_iff in F as [Dx Dr]. apply Forall_rev in Dr. pose proof (eval_bound _ Dr).
  rewrite Er, eval_snoc in Hp. destruct T as [->|Hx].
  - cbn in Hp. assert (x = 0) as -> by (unfold_base; lia). done.
  - pose proof (Z.pow_pos_nonneg BASE (Z.of_nat (length (rev r)))). unfold_base. nia.
Qed.

(** C31: [toString] prints a canonical number as its decimal digits with no leading zero,
    after a minus sign for a negative one. Of texts with fewer than 2^31 characters,
    [fromString] reads what [toString] prints back as the number printed, and it reads
    every digit string, and every one after a minus sign that does not start with a zero,
    as the number denoted ([fromString_loses_sign] for others). *)
Theorem infint_text_roundtrip a s d t :
  canonical a -> digits s -> s <> [] -> digits (d :: t) -> chr d <> 48 ->
  (exists ds, toString a = (if value a <? 0 then [of_chr 45] else []) ++ ds /\ digits ds /\
     dval ds = Z.abs (value a) /\ (ds = [of_chr 48] \/ exists d t, ds = d :: t /\ chr d <> 48))
  /\ (int_size (toString a) -> fromString (toString a) = Some a)
  /\ (int_size s -> exists b, fromString s = Some b /\ value b = dval s /\ canonical b)
  /\ (int_size (of_chr 45 :: d :: t) ->
        exists b, fromString (of_chr 45 :: d :: t) = Some b
                  /\ value b = - dval (d :: t) /\ canonical b).
Proof.
  intros C D N D2 Z. split; [by apply toString_text|]. split; [by apply fromString_toString|].
  split; [by apply fromString_digits|by apply fromString_minus].
Qed.

Lemma infint_text_roundtrip_witness :
  fromString (toString (mkInfInt false [5; 0; 12])) = Some (mkInfInt false [5; 0; 12])
  /\ toString (mkInfInt false [5; 0; 12]) = list_ascii_of_string "-12000000000000000005".
Proof.
  split; [|reflexivity].
  destruct (infint_text_roundtrip (mkInfInt false [5; 0; 12])
    (list_ascii_of_string "007") (of_chr 49) []) as (_ & E & _).
  - concrete_digits.
  - repeat (apply Forall_cons_iff; split; [reflexivity|]). by apply Forall_nil.
  - done.
  - apply Forall_singleton. reflexivity.
  - done.
  - apply E. reflexivity.
Defined.

(** The sign is lost when the chunk that holds it has only zeros besides. *)
Example fromString_loses_sign :
  value <$> fromString (list_ascii_of_string "-0123456789") = Some 123456789.
Proof. reflexivity. Qed.
