(* ===== verification/IntegerPrims.v ===== *)
(** * Integers: representation and primitives

    The two representations of an Integer object ([VMInteger] or tagged pointer,
    and [VMBigInteger]), the primitives of [src/src/primitives/Integer.cpp], the
    operations of [src/src/vmobjects/VMBigInteger.cpp] they fall back to,
    [Universe::NewInt] and [ParseInteger].  Objects are modelled by their value:
    the primitives read their arguments and return a new object or an argument.

    [USE_TAGGING] is the build option; with tagging a small integer has 63 bits
    and one that does not fit is a [VMBigInteger], without it a [VMInteger] has
    64 bits. *)
From Stdlib Require Import String Ascii SpecFloat.
From S2P Require Import Prelude InfIntBase InfIntMul InfIntDiv InfIntText.

Inductive vm_value : Type :=
  | VMInteger (z : Z)
  | VMBigInteger (i : InfInt)
  | VMDouble (d : spec_float)
  | VMString (s : list ascii)
  | VMBool (b : bool)
  | VMOther.

(** ** Doubles: IEEE binary64, as the hardware computes with them *)

Definition f64_add : spec_float -> spec_float -> spec_float := SFadd 53 1024.
Definition f64_sub : spec_float -> spec_float -> spec_float := SFsub 53 1024.
Definition f64_mul : spec_float -> spec_float -> spec_float := SFmul 53 1024.
Definition f64_div : spec_float -> spec_float -> spec_float := SFdiv 53 1024.
Definition f64_sqrt : spec_float -> spec_float := SFsqrt 53 1024.

(** The conversion of an integer, rounded to nearest even. *)
Definition f64_of_Z (z : Z) : spec_float := binary_normalize 53 1024 z 0 false.

(** [(int64_t)d] truncates; outside the range it is undefined. *)
Definition int64_of_f64 (d : spec_float) : result Z :=
  match d with
  | S754_zero _ => Ok 0
  | S754_finite s m e =>
      let n := Z.shiftl (Zpos m) e in
      let z := if s then - n else n in
      if (INT64_MIN <=? z) && (z <=? INT64_MAX) then Ok z else Err Undef
  | _ => Err Undef
  end.

(** [d == rint(d)] *)
Definition f64_is_integral (d : spec_float) : bool :=
  match d with
  | S754_nan => false
  | S754_finite _ m e => (0 <=? e) || (Z.shiftl (Z.shiftr (Zpos m) (- e)) (- e) =? Zpos m)
  | _ => true
  end.

(** [std::fmod], which is exact. *)
Definition f64_fmod (x y : spec_float) : spec_float :=
  match x, y with
  | S754_nan, _ | _, S754_nan | S754_infinity _, _ | _, S754_zero _ => S754_nan
  | S754_zero _, _ | _, S754_infinity _ => x
  | S754_finite sx mx ex, S754_finite _ my ey =>
      let e := Z.min ex ey in
      let r := Z.modulo (Z.shiftl (Zpos mx) (ex - e)) (Z.shiftl (Zpos my) (ey - e)) in
      binary_normalize 53 1024 (if sx then - r else r) e sx
  end.

(** [InfInt::toDouble] *)
Fixpoint toDouble_loop (result : spec_float) (rv : list Z) : spec_float :=
  match rv with
  | [] => result
  | d :: r => toDouble_loop (f64_add (f64_mul result (f64_of_Z BASE)) (f64_of_Z d)) r
  end.

Definition toDouble (a : InfInt) : spec_float :=
  let result := toDouble_loop (S754_zero false) (rev (val a)) in
  if pos a then result else SFopp result.

(** ** Creating integers *)

Section Primitives.

Context (USE_TAGGING : bool).

Definition within_tagged_range (x : Z) : bool :=
  (x >=? VMTAGGEDINTEGER_MIN) && (x <=? VMTAGGEDINTEGER_MAX).

(** [NEW_INT] is [TAG_INTEGER] or [Universe::NewInteger]. *)
Definition NEW_INT (x : Z) : vm_value :=
  if USE_TAGGING then
    if within_tagged_range x then VMInteger x else VMBigInteger (InfInt_of_int64 x)
  else VMInteger x.

Definition NewInt (v : InfInt) : vm_value :=
  if isWithinSmallIntRange v then NEW_INT (snd (toInt64 v)) else VMBigInteger v.

(** The overflow builtins: the wrapped result, and whether it differs. *)
Definition overflows (z : Z) : bool := negb ((INT64_MIN <=? z) && (z <=? INT64_MAX)).

(** ** Operations of VMBigInteger

    The last case of each is guarded by an assertion, [IS_BIG_INT(value)], that is
    not compiled in; a cast of another object is undefined. *)

Definition Big_Add_int (self : InfInt) (v : Z) : vm_value :=
  VMBigInteger (op_add self (InfInt_of_int64 v)).

Definition Big_Add (self : InfInt) (v : vm_value) : result vm_value :=
  match v with
  | VMInteger z => Ok (Big_Add_int self z)
  | VMDouble d => Ok (VMDouble (f64_add (toDouble self) d))
  | VMBigInteger o => Ok (VMBigInteger (op_add self o))
  | _ => Err Undef
  end.

Definition Big_SubtractFrom (self : InfInt) (v : Z) : vm_value :=
  VMBigInteger (op_sub (InfInt_of_int64 v) self).

Definition Big_Subtract (self : InfInt) (v : vm_value) : result vm_value :=
  match v with
  | VMInteger z => Ok (VMBigInteger (op_sub self (InfInt_of_int64 z)))
  | VMDouble d => Ok (VMDouble (f64_sub (toDouble self) d))
  | VMBigInteger o => Ok (VMBigInteger (op_sub self o))
  | _ => Err Undef
  end.

Definition Big_Multiply_int (self : InfInt) (v : Z) : vm_value :=
  VMBigInteger (op_mul self (InfInt_of_int64 v)).

Definition Big_Multiply (self : InfInt) (v : vm_value) : result vm_value :=
  match v with
  | VMInteger z => Ok (VMBigInteger (op_mul self (InfInt_of_int64 z)))
  | VMDouble d => Ok (VMDouble (f64_mul (toDouble self) d))
  | VMBigInteger o => Ok (VMBigInteger (op_mul self o))
  | _ => Err Undef
  end.

Definition Big_DivisionFrom (self : InfInt) (v : Z) : vm_value :=
  VMBigInteger (op_div (InfInt_of_int64 v) self).

Definition Big_DivideBy (self : InfInt) (v : vm_value) : result vm_value :=
  match v with
  | VMInteger z => Ok (VMBigInteger (op_div self (InfInt_of_int64 z)))
  | VMDouble d => Ok (VMDouble (f64_div (toDouble self) d))
  | VMBigInteger o => Ok (VMBigInteger (op_div self o))
  | _ => Err Undef
  end.

Definition Big_ModuloFrom (self : InfInt) (v : Z) : vm_value :=
  VMBigInteger (op_rem (InfInt_of_int64 v) self).

Definition Big_Modulo (self : InfInt) (v : vm_value) : result vm_value :=
  match v with
  | VMInteger z => Ok (VMBigInteger (op_rem self (InfInt_of_int64 z)))
  | VMDouble d => Ok (VMDouble (f64_fmod (toDouble self) d))
  | VMBigInteger o => Ok (VMBigInteger (op_rem self o))
  | _ => Err Undef
  end.

Definition Big_Negate (self : InfInt) : vm_value :=
  if op_lt self InfInt_zero then VMBigInteger (op_neg self) else VMBigInteger self.

Definition Big_IsEqual (self o : InfInt) : vm_value := VMBool (op_eq self o).

(** ** Arithmetic primitives *)

Definition intPlus (leftObj rightObj : vm_value) : result vm_value :=
  match leftObj with
  | VMInteger l =>
      match rightObj with
      | VMInteger r =>
          if overflows (l + r)
          then Ok (NewInt (op_add (InfInt_of_int64 l) (InfInt_of_int64 r)))
          else Ok (NEW_INT (l + r))
      | VMDouble d => Ok (VMDouble (f64_add (f64_of_Z l) d))
      | VMBigInteger big => Ok (Big_Add_int big l)
      | _ => Err Undef
      end
  | VMBigInteger l => Big_Add l rightObj
  | _ => Err Undef
  end.

Definition intMinus (leftObj rightObj : vm_value) : result vm_value :=
  match leftObj with
  | VMInteger l =>
      match rightObj with
      | VMInteger r =>
          if overflows (l - r)
          then Ok (NewInt (op_sub (InfInt_of_int64 l) (InfInt_of_int64 r)))
          else Ok (NEW_INT (l - r))
      | VMDouble d => Ok (VMDouble (f64_sub (f64_of_Z l) d))
      | VMBigInteger big => Ok (Big_SubtractFrom big l)
      | _ => Err Undef
      end
  | VMBigInteger l => Big_Subtract l rightObj
  | _ => Err Undef
  end.

Definition intStar (leftObj rightObj : vm_value) : result vm_value :=
  match leftObj with
  | VMInteger l =>
      match rightObj with
      | VMInteger r =>
          if overflows (l * r)
          then Ok (NewInt (op_mul (InfInt_of_int64 l) (InfInt_of_int64 r)))
          else Ok (NEW_INT (l * r))
      | VMDouble d => Ok (VMDouble (f64_mul (f64_of_Z l) d))
      | VMBigInteger big => Ok (Big_Multiply_int big l)
      | _ => Err Undef
      end
  | VMBigInteger l => Big_Multiply l rightObj
  | _ => Err Undef
  end.

Definition intBitwiseXor (leftObj rightObj : vm_value) : result vm_value :=
  match leftObj, rightObj with
  | VMInteger l, VMInteger r => Ok (NEW_INT (Z.lxor l r))
  | _, _ => Err (ErrorExit "#xor: not supported on non-small-int arguments")
  end.

(** [__builtin_clzll] counts leading zeros of the 64-bit pattern; what it gives
    for 0 is undefined, so a parameter. *)
Definition clzll (clz_of_zero : Z) (x : Z) : Z :=
  if x =? 0 then clz_of_zero else 63 - Z.log2 x.

(** A sum that overflows, and a shift by a negative amount or by the width, is
    undefined. *)
Definition intLeftShift (clz_of_zero : Z) (leftObj rightObj : vm_value) : result vm_value :=
  match leftObj, rightObj with
  | VMInteger l, VMInteger r =>
      let bits := 64 - clzll clz_of_zero (u64 l) + r in
      if overflows bits then Err Undef
      else if bits >? 63
      then Ok (NewInt (op_shl (InfInt_of_int64 l) r))
      else if (0 <=? r) && (r <? 64)
      then Ok (NEW_INT (i64 (Z.shiftl l r))) else Err Undef
  | _, _ => Err (ErrorExit "#<< not supported on non-small-int arguments")
  end.

Definition intUnsignedRightShift (leftObj rightObj : vm_value) : result vm_value :=
  match leftObj, rightObj with
  | VMInteger l, VMInteger r =>
      if u64 r <? 64
      then Ok (NEW_INT (i64 (Z.shiftr (u64 l) (u64 r)))) else Err Undef
  | _, _ => Err (ErrorExit "#<< not supported on non-small-int arguments")
  end.

(** An integer division by zero, or one that overflows, is undefined. *)
Definition int64_div (l r : Z) : result Z :=
  if (r =? 0) || overflows (Z.quot l r) then Err Undef else Ok (Z.quot l r).

Definition int64_rem (l r : Z) : result Z :=
  if (r =? 0) || overflows (Z.quot l r) then Err Undef else Ok (Z.rem l r).

Definition intSlashslash (leftObj rightObj : vm_value) : result vm_value :=
  ldbl ← match leftObj with
         | VMInteger l => Ok (f64_of_Z l)
         | VMBigInteger l => Ok (toDouble l)
         | _ => Err Undef
         end;
  rdbl ← match rightObj with
          | VMInteger r => Ok (f64_of_Z r)
          | VMDouble r => Ok r
          | _ => match leftObj with
                 | VMBigInteger l => Ok (toDouble l)
                 | _ => Err Undef
                 end
          end;
  Ok (VMDouble (f64_div ldbl rdbl)).

Definition intSlash (leftObj rightObj : vm_value) : result vm_value :=
  match leftObj with
  | VMInteger l =>
      match rightObj with
      | VMInteger r => q ← int64_div l r; Ok (NEW_INT q)
      | VMDouble d => q ← int64_of_f64 (f64_div (f64_of_Z l) d); Ok (NEW_INT q)
      | VMBigInteger big => Ok (Big_DivisionFrom big l)
      | _ => Err Undef
      end
  | VMBigInteger l => Big_DivideBy l rightObj
  | _ => Err Undef
  end.

(** The remainder gets the sign of the divisor. *)
Definition floored (rem r : Z) : Z :=
  if negb (rem =? 0) && xorb (rem <? 0) (r <? 0) then rem + r else rem.

Definition intPercent (leftObj rightObj : vm_value) : result vm_value :=
  match leftObj with
  | VMInteger l =>
      match rightObj with
      | VMInteger r => m ← int64_rem l r; Ok (NEW_INT (floored m r))
      | VMDouble d =>
          r ← int64_of_f64 d;
          m ← int64_rem l r; Ok (NEW_INT (floored m r))
      | VMBigInteger big => Ok (Big_ModuloFrom big l)
      | _ => Err Undef
      end
  | VMBigInteger l => Big_Modulo l rightObj
  | _ => Err Undef
  end.

Definition intRem (leftObj rightObj : vm_value) : result vm_value :=
  match leftObj with
  | VMInteger l =>
      match rightObj with
      | VMInteger r =>
          q ← int64_div l r; Ok (NEW_INT (i64 (l - q * r)))
      | _ => Err (ErrorExit "not yet implemented #rem: small-int and something else")
      end
  | _ => Err (ErrorExit "not yet implemented #rem: big int and something else")
  end.

Definition intAnd (leftObj rightObj : vm_value) : result vm_value :=
  match leftObj, rightObj with
  | VMInteger l, VMInteger r => Ok (NEW_INT (Z.land l r))
  | VMBigInteger l, VMInteger r => Ok (NEW_INT (Z.land (truncateToInt64 l) r))
  | _, _ => Err (ErrorExit "#& not supported on non-small-int arguments")
  end.

(** ** Comparisons *)

Definition intEqual (leftObj rightObj : vm_value) : result vm_value :=
  match leftObj with
  | VMInteger l =>
      match rightObj with
      | VMInteger r => Ok (VMBool (l =? r))
      | VMDouble d => Ok (VMBool (SFeqb (f64_of_Z l) d))
      | _ => Ok (VMBool false)
      end
  | VMBigInteger l =>
      match rightObj with
      | VMBigInteger r => Ok (Big_IsEqual l r)
      | _ => Ok (VMBool false)
      end
  | _ => Err Undef
  end.

Definition intEqualEqual (leftObj rightObj : vm_value) : result vm_value :=
  match leftObj with
  | VMInteger l =>
      match rightObj with
      | VMInteger r => Ok (VMBool (l =? r))
      | _ => Ok (VMBool false)
      end
  | VMBigInteger l =>
      match rightObj with
      | VMBigInteger r => Ok (Big_IsEqual l r)
      | _ => Ok (VMBool false)
      end
  | _ => Err Undef
  end.

Definition lowerThan (leftObj rightObj : vm_value) : result bool :=
  match leftObj with
  | VMInteger l =>
      match rightObj with
      | VMInteger r => Ok (l <? r)
      | VMDouble d => Ok (SFltb (f64_of_Z l) d)
      | VMBigInteger r => Ok (op_ge r (InfInt_of_int64 l))
      | _ => Err Undef
      end
  | VMBigInteger l =>
      match rightObj with
      | VMInteger r => Ok (op_lt l (InfInt_of_int64 r))
      | VMDouble d => Err (ErrorExit "#< on big int not supported with double")
      | VMBigInteger r => Ok (op_lt l r)
      | _ => Err Undef
      end
  | _ => Err Undef
  end.

Definition intLowerthan (leftObj rightObj : vm_value) : result vm_value :=
  b ← lowerThan leftObj rightObj; Ok (VMBool b).

Definition intLowerThanEqual (leftObj rightObj : vm_value) : result vm_value :=
  match leftObj with
  | VMInteger l =>
      match rightObj with
      | VMInteger r => Ok (VMBool (l <=? r))
      | VMDouble d => Ok (VMBool (SFleb (f64_of_Z l) d))
      | VMBigInteger r => Ok (VMBool (op_gt r (InfInt_of_int64 l)))
      | _ => Err Undef
      end
  | VMBigInteger l =>
      match rightObj with
      | VMInteger r => Ok (VMBool (op_le l (InfInt_of_int64 r)))
      | VMDouble d => Err (ErrorExit "#< on big int not supported with double")
      | VMBigInteger r => Ok (VMBool (op_le l r))
      | _ => Err Undef
      end
  | _ => Err Undef
  end.

Definition intGreaterThan (leftObj rightObj : vm_value) : result vm_value :=
  match leftObj with
  | VMInteger l =>
      match rightObj with
      | VMInteger r => Ok (VMBool (l >? r))
      | VMDouble d => Ok (VMBool (SFltb d (f64_of_Z l)))
      | VMBigInteger r => Ok (VMBool (op_lt r (InfInt_of_int64 l)))
      | _ => Err Undef
      end
  | VMBigInteger l =>
      match rightObj with
      | VMInteger r => Ok (VMBool (op_gt l (InfInt_of_int64 r)))
      | VMDouble d => Err (ErrorExit "#< on big int not supported with double")
      | VMBigInteger r => Ok (VMBool (op_gt l r))
      | _ => Err Undef
      end
  | _ => Err Undef
  end.

Definition intGreaterThanEqual (leftObj rightObj : vm_value) : result vm_value :=
  match leftObj with
  | VMInteger l =>
      match rightObj with
      | VMInteger r => Ok (VMBool (l >=? r))
      | VMDouble d => Ok (VMBool (SFleb d (f64_of_Z l)))
      | VMBigInteger r => Ok (VMBool (op_lt r (InfInt_of_int64 l)))
      | _ => Err Undef
      end
  | VMBigInteger l =>
      match rightObj with
      | VMInteger r => Ok (VMBool (op_ge l (InfInt_of_int64 r)))
      | VMDouble d => Err (ErrorExit "#< on big int not supported with double")
      | VMBigInteger r => Ok (VMBool (op_ge l r))
      | _ => Err Undef
      end
  | _ => Err Undef
  end.

Definition intUnequal (leftObj rightObj : vm_value) : result vm_value :=
  match leftObj with
  | VMInteger l =>
      match rightObj with
      | VMInteger r => Ok (VMBool (negb (l =? r)))
      | VMDouble d => Ok (VMBool (negb (SFeqb (f64_of_Z l) d)))
      | VMBigInteger r => Ok (VMBool (op_ne r (InfInt_of_int64 l)))
      | _ => Ok (VMBool true)
      end
  | VMBigInteger l =>
      match rightObj with
      | VMInteger r => Ok (VMBool (op_ne l (InfInt_of_int64 r)))
      | VMDouble d => Err (ErrorExit "#< on big int not supported with double")
      | VMBigInteger r => Ok (VMBool (op_ne l r))
      | _ => Ok (VMBool true)
      end
  | _ => Err Undef
  end.

(** ** Conversions and the rest *)

(** Decimal output of an [int64_t], 19 digits at most. *)
Definition print_int64 (z : Z) : list ascii :=
  (if z <? 0 then [of_chr 45] else []) ++ decimal 20 (Z.abs z).

Definition intAsString (self : vm_value) : result vm_value :=
  match self with
  | VMInteger z => Ok (VMString (print_int64 z))
  | VMBigInteger i => Ok (VMString (toString i))
  | _ => Err Undef
  end.

Definition intAsDouble (self : vm_value) : result vm_value :=
  match self with
  | VMInteger z => Ok (VMDouble (f64_of_Z z))
  | VMBigInteger i => Ok (VMDouble (toDouble i))
  | _ => Err Undef
  end.

Definition intAs32BitSigned (self : vm_value) : result vm_value :=
  match self with
  | VMInteger z => Ok (NEW_INT (i32 z))
  | VMBigInteger i => Ok (NEW_INT (truncateToInt i))
  | _ => Err Undef
  end.

Definition intAs32BitUnsigned (self : vm_value) : result vm_value :=
  match self with
  | VMInteger z => Ok (NEW_INT (u32 z))
  | VMBigInteger i => Ok (NEW_INT (u32 (truncateToInt i)))
  | _ => Err Undef
  end.

(** [SMALL_INT_VAL] of something else is undefined. *)
Definition SMALL_INT_VAL (x : vm_value) : result Z :=
  match x with VMInteger z => Ok z | _ => Err Undef end.

Definition intSqrt (self : vm_value) : result vm_value :=
  z ← SMALL_INT_VAL self;
  let res := f64_sqrt (f64_of_Z z) in
  if f64_is_integral res then i ← int64_of_f64 res; Ok (NEW_INT i)
  else Ok (VMDouble res).

(** [-result] of the smallest [int64_t] overflows, which is undefined. *)
Definition intAbs (self : vm_value) : result vm_value :=
  match self with
  | VMInteger z =>
      if z <? 0 then (if overflows (- z) then Err Undef else Ok (NEW_INT (- z))) else Ok self
  | VMBigInteger i => Ok (Big_Negate i)
  | _ => Err Undef
  end.

Definition intMin (self arg : vm_value) : result vm_value :=
  b ← lowerThan self arg; Ok (if b : bool then self else arg).

Definition intMax (self arg : vm_value) : result vm_value :=
  b ← lowerThan self arg; Ok (if b : bool then arg else self).

(** The array [left .. right], empty bounds included; an array of negative size
    cannot be allocated. *)
Fixpoint range_loop (n : nat) (i : Z) : list vm_value :=
  match n with O => [] | S n => NEW_INT i :: range_loop n (i + 1) end.

Definition intRange (leftObj rightObj : vm_value) : result (list vm_value) :=
  l ← SMALL_INT_VAL leftObj; r ← SMALL_INT_VAL rightObj;
  let numInteger := r - l + 1 in
  if numInteger <? 0 then Err Undef else Ok (range_loop (Z.to_nat numInteger) l).

(** ** ParseInteger *)

(** [strtoll] in base 10: leading spaces, a sign, digits; [None] when there is no
    digit, otherwise the value, clamped to the range, and whether it was outside. *)
Fixpoint leading_digits (s : list ascii) : list ascii :=
  match s with c :: r => if isdigit c then c :: leading_digits r else [] | [] => [] end.

Definition strtoll (s : list ascii) : option (Z * bool) :=
  let s := skip_spaces s in
  let neg := match s with c :: _ => is_minus c | [] => false end in
  let body := match s with c :: r => if is_minus c || is_plus c then r else s | [] => [] end in
  match leading_digits body with
  | [] => None
  | ds =>
      let v := if neg then - dval ds else dval ds in
      Some (Z.max INT64_MIN (Z.min INT64_MAX v), overflows v)
  end.

(** [VMBigInteger(value, negate)] reads the whole string with [InfInt]. *)
Definition NewBigIntegerFromStr (s : list ascii) (negate : bool) : result vm_value :=
  i ← of_option Undef (fromString s);
  Ok (VMBigInteger (if negate then op_neg i else i)).

Definition ParseInteger (str : list ascii) (negateValue : bool) : result vm_value :=
  match strtoll str with
  | None => Ok (NEW_INT 0)
  | Some (i, rangeError) =>
      if rangeError : bool then NewBigIntegerFromStr str negateValue
      else if negateValue
      then if overflows (- i) then Err Undef else Ok (NEW_INT (- i))
      else Ok (NEW_INT i)
  end.

Definition intFromString (arg : vm_value) : result vm_value :=
  match arg with VMString s => ParseInteger s false | _ => Err Undef end.

(** ** What the primitives compute

    [is_int v z]: the object [v] is a well-formed Integer that stands for [z]. *)
Definition small_range (z : Z) : Prop :=
  if USE_TAGGING then within_tagged_range z = true else overflows z = false.

Definition is_int (v : vm_value) (z : Z) : Prop :=
  match v with
  | VMInteger x => x = z /\ small_range x
  | VMBigInteger i => canonical i /\ value i = z
  | _ => False
  end.

(** A big integer is used only for what no small integer can represent. *)
Definition normal (v : vm_value) : Prop :=
  match v with VMBigInteger i => ~ small_range (value i) | _ => True end.

Lemma overflows_false z : overflows z = false <-> INT64_MIN <= z <= INT64_MAX.
Proof. unfold overflows. lia. Qed.

Lemma small_range_int64 z : small_range z -> INT64_MIN <= z <= INT64_MAX.
Proof.
  unfold small_range, within_tagged_range. destruct USE_TAGGING.
  - unfold VMTAGGEDINTEGER_MAX, VMTAGGEDINTEGER_MIN. unfold_int64. lia.
  - apply overflows_false.
Qed.

Lemma small_canonical z : small_range z -> canonical (InfInt_of_int64 z) /\ value (InfInt_of_int64 z) = z.
Proof.
  intros H. destruct (InfInt_of_int64_spec z) as [E C]; [by apply small_range_int64|]. done.
Qed.

Lemma NEW_INT_spec x :
  INT64_MIN <= x <= INT64_MAX -> is_int (NEW_INT x) x /\ normal (NEW_INT x).
Proof.
  intros Hx. unfold NEW_INT, is_int, normal, small_range. destruct USE_TAGGING.
  - destruct (within_tagged_range x) eqn:E; [done|].
    destruct (InfInt_of_int64_spec x Hx) as [V C]. split; [done|]. rewrite V, E. done.
  - split; [|done]. split; [done|]. by apply overflows_false.
Qed.

Lemma NewInt_spec i : canonical i -> is_int (NewInt i) (value i).
Proof.
  intros C. unfold NewInt. rewrite isWithinSmallIntRange_spec by apply C.
  destruct (_ && _) eqn:E; [|done]. rewrite toInt64_spec by done. cbn [snd].
  assert (INT64_MIN <= value i <= INT64_MAX).
  { unfold VMTAGGEDINTEGER_MAX, VMTAGGEDINTEGER_MIN in E. unfold_int64. lia. }
  rewrite i64_small by done. by apply NEW_INT_spec.
Qed.

Lemma NewInt_normal i : canonical i -> overflows (value i) = true -> normal (NewInt i).
Proof.
  intros C Ho. unfold NewInt. rewrite isWithinSmallIntRange_spec by apply C.
  unfold overflows, VMTAGGEDINTEGER_MAX, VMTAGGEDINTEGER_MIN in *. unfold_int64.
  replace (_ && _) with false by lia. cbn [normal]. intros H%small_range_int64.
  unfold_int64. lia.
Qed.

(** The representation of an [int64_t] has three digits at most. *)
Lemma size_of_int64 z : INT64_MIN <= z <= INT64_MAX -> (size (InfInt_of_int64 z) <= 3)%nat.
Proof.
  intros Hz. destruct (InfInt_of_int64_spec z Hz) as [V [[D T] _]].
  destruct (Nat.le_gt_cases (size (InfInt_of_int64 z)) 3) as [|H]; [done|]. exfalso.
  unfold size in H. pose proof (trimmed_lower _ T D ltac:(lia)) as HL.
  assert (BASE ^ 3 <= BASE ^ Z.of_nat (length (val (InfInt_of_int64 z)) - 1))
    by (apply Z.pow_le_mono_r; [done|lia]).
  change (BASE ^ 3) with 1000000000000000000000000000 in *.
  unfold value in V. destruct (pos _); cbn [signed_digit] in V; unfold_int64; lia.
Qed.

Lemma fits_int64_r a z : INT64_MIN <= z <= INT64_MAX -> fits a (InfInt_of_int64 z).
Proof. intros H%size_of_int64. unfold fits. cbn. lia. Qed.

(** Two operands whose product the multiplication can hold. *)
Definition int_fits (a b : vm_value) : Prop :=
  match a, b with VMBigInteger i, VMBigInteger j => fits i j | _, _ => True end.

Lemma canonical_wf i : canonical i -> wf i.
Proof. by intros []. Qed.

Create HintDb infint.
#[local] Hint Resolve canonical_wf fits_int64_r : infint.

(** Splits two integer operands into their representations. *)
Ltac int_cases Ha Hb :=
  lazymatch type of Ha with is_int ?a _ =>
  lazymatch type of Hb with is_int ?b _ =>
    destruct a as [?|?|?|?|?|]; try done; destruct b as [?|?|?|?|?|]; try done;
    cbn [is_int] in Ha, Hb; destruct Ha as [Ha Ea], Hb as [Hb Eb]; simplify_eq;
    repeat match goal with
           | H : small_range ?z |- _ =>
               pose proof (small_range_int64 z H); destruct (small_canonical z H); clear H
           end
  end end.

(** The cases of an operation that computes with [op] on [InfInt]. *)
Ltac solve_exact spec :=
  lazymatch goal with
  | |- exists v, Ok (NewInt (?op ?i ?j)) = Ok v /\ is_int v ?z =>
      destruct (spec i j) as [E C]; [auto with infint..|];
      eexists; split; [done|]; replace z with (value (op i j)) by lia; by apply NewInt_spec
  | |- exists v, Ok (NEW_INT _) = Ok v /\ _ =>
      eexists; split; [done|]; by apply NEW_INT_spec, overflows_false
  | |- exists v, Ok (VMBigInteger (?op ?i ?j)) = Ok v /\ _ =>
      destruct (spec i j) as [E C]; [auto with infint..|];
      eexists; split; [done|]; split; [done|lia]
  end.

Lemma intPlus_spec a b x y :
  is_int a x -> is_int b y -> exists v, intPlus a b = Ok v /\ is_int v (x + y).
Proof.
  intros Ha Hb. int_cases Ha Hb; cbn [intPlus Big_Add]; unfold Big_Add_int;
    [destruct (overflows (x + y)) eqn:Ho|..]; solve_exact op_add_spec.
Qed.

Lemma intMinus_spec a b x y :
  is_int a x -> is_int b y -> exists v, intMinus a b = Ok v /\ is_int v (x - y).
Proof.
  intros Ha Hb. int_cases Ha Hb; cbn [intMinus Big_Subtract]; unfold Big_SubtractFrom;
    [destruct (overflows (x - y)) eqn:Ho|..]; solve_exact op_sub_spec.
Qed.

Lemma intStar_spec a b x y :
  is_int a x -> is_int b y -> int_fits a b ->
  exists v, intStar a b = Ok v /\ is_int v (x * y).
Proof.
  intros Ha Hb Hf. int_cases Ha Hb; cbn [intStar Big_Multiply]; unfold Big_Multiply_int;
    [destruct (overflows (x * y)) eqn:Ho|..]; solve_exact op_mul_spec.
Qed.

Lemma quot_in_range x y :
  INT64_MIN <= x <= INT64_MAX -> y <> 0 -> (x <> INT64_MIN \/ y <> -1) ->
  overflows (Z.quot x y) = false.
Proof.
  intros Hx Hy Hn. apply overflows_false.
  destruct (Z.eq_dec y (-1)) as [->|].
  - change (-1) with (- (1)). rewrite Z.quot_opp_r, Z.quot_1_r by lia. unfold_int64. lia.
  - unfold_int64. destruct (Z.eq_dec y 1) as [->|]; [rewrite Z.quot_1_r; lia|].
    pose proof (Z.quot_abs x y Hy). assert (Z.abs x / Z.abs y <= Z.abs x / 2).
    { apply Z.div_le_compat_l; lia. }
    rewrite Z.quot_div_nonneg in * by lia.
    pose proof (Z.div_mod (Z.abs x) 2). pose proof (Z.mod_pos_bound (Z.abs x) 2). lia.
Qed.

(** Division truncates; dividing by zero is the only undefined case but for the
    smallest [int64_t] by -1. *)
Lemma intSlash_spec a b x y :
  is_int a x -> is_int b y -> y <> 0 -> (x <> INT64_MIN \/ y <> -1) ->
  exists v, intSlash a b = Ok v /\ is_int v (Z.quot x y).
Proof.
  intros Ha Hb Hy Hn. int_cases Ha Hb; cbn [intSlash Big_DivideBy]; unfold Big_DivisionFrom.
  - unfold int64_div. rewrite quot_in_range by done.
    replace (y =? 0) with false by lia. cbn.
    eexists; split; [done|]. by apply NEW_INT_spec, overflows_false, quot_in_range.
  - destruct (op_div_spec (InfInt_of_int64 x) i) as [E C]; [auto with infint..|].
    eexists; split; [done|]. split; [done|congruence].
  - destruct (op_div_spec i (InfInt_of_int64 y)) as [E C]; [auto with infint..|congruence|].
    eexists; split; [done|]. split; [done|congruence].
  - destruct (op_div_spec i i0) as [E C]; [auto with infint..|].
    eexists; split; [done|]. done.
Qed.

Lemma floored_spec x y : y <> 0 -> floored (Z.rem x y) y = Z.modulo x y.
Proof.
  intros Hy. unfold floored.
  assert (forall q, x = y * q + Z.rem x y ->
                    Z.rem x y = 0 -> x mod y = 0) as H0.
  { intros q Hq Hr. rewrite Hq, Hr, Z.add_0_r, Z.mul_comm. by apply Z.mod_mul. }
  pose proof (Z.quot_rem' x y) as Hq. specialize (H0 _ Hq).
  pose proof (Z.rem_bound_abs x y Hy) as HB.
  destruct (Z.eqb_spec (Z.rem x y) 0) as [E|E]; cbn [negb andb]; [by rewrite E, H0|].
  destruct (Z.ltb_spec (Z.rem x y) 0), (Z.ltb_spec y 0); cbn [xorb];
    [ apply (Z.mod_unique _ _ (Z.quot x y)) | apply (Z.mod_unique _ _ (Z.quot x y - 1))
    | apply (Z.mod_unique _ _ (Z.quot x y - 1)) | apply (Z.mod_unique _ _ (Z.quot x y)) ]; lia.
Qed.

(** On small integers [%] is the floored remainder ... *)
Lemma intPercent_small x y :
  small_range x -> small_range y -> y <> 0 -> (x <> INT64_MIN \/ y <> -1) ->
  exists v, intPercent (VMInteger x) (VMInteger y) = Ok v /\ is_int v (x mod y).
Proof.
  intros Hx Hy Hy0 Hn. cbn [intPercent]. unfold int64_rem.
  apply small_range_int64 in Hx, Hy. rewrite quot_in_range by done.
  replace (y =? 0) with false by lia. cbn. rewrite floored_spec by done.
  eexists; split; [done|]. apply NEW_INT_spec.
  pose proof (Z.mod_pos_bound x y). pose proof (Z.mod_neg_bound x y). unfold_int64. lia.
Qed.

(** ... and as soon as one operand is big it is the truncated one. *)
Lemma intPercent_big a b x y :
  is_int a x -> is_int b y -> y <> 0 ->
  (exists i, a = VMBigInteger i) \/ (exists i, b = VMBigInteger i) ->
  exists v, intPercent a b = Ok v /\ is_int v (Z.rem x y).
Proof.
  intros Ha Hb Hy Hbig. int_cases Ha Hb; cbn [intPercent Big_Modulo]; unfold Big_ModuloFrom.
  - by destruct Hbig as [[? ?]|[? ?]].
  - destruct (op_rem_spec (InfInt_of_int64 x) i) as [E C]; [auto with infint..|].
    eexists; split; [done|]. split; [done|congruence].
  - destruct (op_rem_spec i (InfInt_of_int64 y)) as [E C]; [auto with infint..|congruence|].
    eexists; split; [done|]. split; [done|congruence].
  - destruct (op_rem_spec i i0) as [E C]; [auto with infint..|].
    eexists; split; [done|]. done.
Qed.

Lemma intRem_spec x y :
  small_range x -> small_range y -> y <> 0 -> (x <> INT64_MIN \/ y <> -1) ->
  exists v, intRem (VMInteger x) (VMInteger y) = Ok v /\ is_int v (Z.rem x y).
Proof.
  intros Hx Hy Hy0 Hn. cbn [intRem]. unfold int64_div.
  apply small_range_int64 in Hx, Hy. rewrite quot_in_range by done.
  replace (y =? 0) with false by lia. cbn.
  pose proof (Z.quot_rem' x y). pose proof (Z.rem_bound_abs x y Hy0).
  assert (INT64_MIN <= Z.rem x y <= INT64_MAX) by (unfold_int64; lia).
  replace (x - Z.quot x y * y) with (Z.rem x y) by lia.
  rewrite i64_small by done. eexists; split; [done|]. by apply NEW_INT_spec.
Qed.

(** *** Comparisons on normal representations *)

Lemma comparisons_spec a b x y :
  is_int a x -> is_int b y -> normal a -> normal b ->
  lowerThan a b = Ok (x <? y)
  /\ intLowerThanEqual a b = Ok (VMBool (x <=? y))
  /\ intGreaterThan a b = Ok (VMBool (x >? y))
  /\ intGreaterThanEqual a b = Ok (VMBool (x >=? y))
  /\ intEqual a b = Ok (VMBool (x =? y))
  /\ intEqualEqual a b = Ok (VMBool (x =? y))
  /\ intUnequal a b = Ok (VMBool (negb (x =? y))).
Proof.
  intros Ha Hb Na Nb.
  assert (match a, b with
          | VMInteger l, VMBigInteger i | VMBigInteger i, VMInteger l => l <> value i
          | _, _ => True end) as Hd.
  { destruct a, b; try done; cbn [is_int] in *; intros E; subst;
      [by apply Nb, Ha|by apply Na, Hb]. }
  int_cases Ha Hb;
    cbn [lowerThan intLowerThanEqual intGreaterThan intGreaterThanEqual intEqual
         intEqualEqual intUnequal]; unfold Big_IsEqual;
    rewrite ?op_ne_eq;
    rewrite ?op_lt_spec, ?op_le_spec, ?op_gt_spec, ?op_ge_spec, ?op_eq_spec by done;
    repeat match goal with H : value _ = _ |- _ => rewrite ?H; clear H end;
    repeat split; first [done | f_equal; lia | do 2 f_equal; lia].
Qed.

(** *** Shifts *)

(** A left shift is exact, whatever [__builtin_clzll] gives for 0. *)
Lemma clzll_bound clz_of_zero x : 0 <= clz_of_zero <= 64 -> 0 <= clzll clz_of_zero (u64 x) <= 64.
Proof.
  intros Hz. unfold clzll. case_match eqn:E; [done|].
  assert (0 < u64 x < 2 ^ 64) as [H0 H1].
  { unfold uwrap in *. pose proof (Z.mod_pos_bound x (2 ^ 64)). lia. }
  pose proof (Z.log2_nonneg (u64 x)). apply Z.log2_lt_pow2 in H1; lia.
Qed.

Lemma intLeftShift_spec clz_of_zero x y :
  small_range x -> 0 <= y <= INT64_MAX - 64 -> 0 <= clz_of_zero <= 64 ->
  exists v, intLeftShift clz_of_zero (VMInteger x) (VMInteger y) = Ok v
            /\ is_int v (Z.shiftl x y).
Proof.
  intros Hx [Hy Hmax] Hz. destruct (small_canonical x Hx) as [C V].
  apply small_range_int64 in Hx. cbn [intLeftShift]. cbv zeta.
  pose proof (clzll_bound clz_of_zero x Hz) as Hclz.
  assert (overflows (64 - clzll clz_of_zero (u64 x) + y) = false) as -> by (unfold overflows; unfold_int64; lia).
  destruct (_ >? _) eqn:Eb.
  { destruct (op_shl_spec (InfInt_of_int64 x) y C Hy) as [E C2]. rewrite V in E.
    eexists; split; [done|]. rewrite <- E. by apply NewInt_spec. }
  assert (y < 64 /\ INT64_MIN <= Z.shiftl x y <= INT64_MAX) as [Hy64 Hr].
  { unfold clzll, uwrap in Eb. rewrite Z.shiftl_mul_pow2 by done.
    destruct (Z.lt_trichotomy x 0) as [Hneg|[->|Hpos]].
    - exfalso. rewrite <- (Z.mod_add x 1 (2 ^ 64)), Z.mod_small in Eb by (unfold_int64; lia).
      replace (_ =? 0) with false in Eb by (unfold_int64; lia).
      assert (Z.log2 (x + 1 * 2 ^ 64) = 63).
      { apply Z.log2_unique; [lia|]. unfold_int64. lia. }
      lia.
    - rewrite Z.mod_0_l in Eb by done. cbn in Eb. unfold_int64. lia.
    - rewrite Z.mod_small in Eb by (unfold_int64; lia).
      replace (x =? 0) with false in Eb by lia.
      pose proof (Z.log2_nonneg x). split; [lia|].
      pose proof (Z.log2_spec x Hpos) as [_ Hlog].
      assert (x * 2 ^ y < 2 ^ 63).
      { apply Z.lt_le_trans with (2 ^ (Z.succ (Z.log2 x)) * 2 ^ y).
        - apply Z.mul_lt_mono_pos_r; [apply Z.pow_pos_nonneg; lia|done].
        - rewrite <- Z.pow_add_r by lia. apply Z.pow_le_mono_r; lia. }
      pose proof (Z.pow_pos_nonneg 2 y). unfold INT64_MIN, INT64_MAX. nia. }
  replace (0 <=? y) with true by lia. replace (y <? 64) with true by lia. cbn [andb].
  rewrite i64_small by done. eexists; split; [done|]. by apply NEW_INT_spec.
Qed.

(** *** Text *)

Lemma leading_digits_all ds : digits ds -> leading_digits ds = ds.
Proof. induction 1 as [|c s Hc Hs IH]; [done|]. cbn [leading_digits]. by rewrite Hc, IH. Qed.

Definition signed_text (neg : bool) (ds : list ascii) : list ascii :=
  (if neg then [of_chr 45] else []) ++ ds.

Lemma strtoll_signed (neg : bool) ds :
  digits ds -> ds <> [] ->
  let v := if neg then - dval ds else dval ds in
  strtoll (signed_text neg ds) = Some (Z.max INT64_MIN (Z.min INT64_MAX v), overflows v).
Proof.
  intros D N. cbn zeta. unfold strtoll, signed_text. destruct neg; cbn [app].
  - unfold skip_spaces. change (isspace (of_chr 45)) with false.
    change (is_minus (of_chr 45)) with true. cbn [orb].
    rewrite leading_digits_all by done. by destruct ds.
  - destruct ds as [|c ds]; [done|].
    destruct (isdigit_other c) as (E1 & E2 & E3); [by apply Forall_cons_iff in D as []|].
    cbn [skip_spaces]. rewrite E1, E2, E3. cbn [orb].
    by rewrite leading_digits_all.
Qed.

(** The decimal text of an Integer, and the digits it consists of. *)
Lemma intAsString_text v z :
  is_int v z ->
  exists (neg : bool) (ds : list ascii), intAsString v = Ok (VMString (signed_text neg ds))
    /\ digits ds /\ ds <> [] /\ z = (if neg then - dval ds else dval ds).
Proof.
  intros H. destruct v as [x|i|?|?|?|]; try done; cbn [is_int intAsString] in *.
  - destruct H as [-> Hz%small_range_int64].
    destruct (decimal_spec 20 (Z.abs z)) as (D & V & L & _); [unfold_int64; lia|lia|].
    exists (z <? 0), (decimal 20 (Z.abs z)). split; [done|]. split; [done|].
    split; [by intros E; rewrite E in L; cbn in L; lia|].
    rewrite V. destruct (Z.ltb_spec z 0); lia.
  - destruct H as [[[F T] _] <-]. destruct (print_digits_spec (val i) F T) as (D & V & N & _).
    exists (negb (pos i)), (print_digits true (rev (val i))).
    split; [by unfold toString, signed_text; destruct (pos i)|]. split; [done|]. split; [done|].
    rewrite V. unfold value. by destruct (pos i).
Qed.

Lemma intAsString_fromString v z :
  is_int v z ->
  exists s, intAsString v = Ok (VMString s) /\
    (int_size s -> exists w, intFromString (VMString s) = Ok w /\ is_int w z /\ normal w).
Proof.
  intros H. destruct (intAsString_text v z H) as (neg & ds & E & D & N & Hz).
  exists (signed_text neg ds). split; [done|]. intros HI. cbn [intFromString]. unfold ParseInteger.
  rewrite strtoll_signed, <- Hz by done. destruct (overflows z) eqn:Ho.
  - destruct v as [x|i|?|?|?|]; try done; cbn [is_int] in H.
    { destruct H as [-> Hs%small_range_int64]. rewrite <- overflows_false in Hs. congruence. }
    destruct H as [C V]. cbn [intAsString] in E. injection E as E. rewrite <- E in *.
    unfold NewBigIntegerFromStr. rewrite fromString_toString by done. cbn.
    eexists. split; [done|]. split; [done|].
    cbn [normal]. rewrite V. intros Hs%small_range_int64. rewrite <- overflows_false in Hs. congruence.
  - apply overflows_false in Ho. rewrite Z.min_r, Z.max_r by lia.
    eexists. split; [done|]. by apply NEW_INT_spec.
Qed.

(** ** The properties of the integer primitives *)

(** C30: [+], [-] and [*] of any two integer objects, small or big, in either
    build, give an integer object that represents the exact result: there is no
    overflow, an [int64_t] that would overflow is replaced by a big integer. *)
Theorem integer_arithmetic_exact a b x y :
  is_int a x -> is_int b y -> int_fits a b ->
  (exists v, intPlus a b = Ok v /\ is_int v (x + y))
  /\ (exists v, intMinus a b = Ok v /\ is_int v (x - y))
  /\ (exists v, intStar a b = Ok v /\ is_int v (x * y)).
Proof.
  intros Ha Hb Hf. split; [by apply intPlus_spec|]. split; [by apply intMinus_spec|].
  by apply intStar_spec.
Qed.

(** C35: [/] truncates towards zero on all integers, [rem:] is its remainder on
    small integers, and [%] has the sign of the divisor (the mathematical modulo)
    on small integers, but that of the dividend as soon as one operand is big. *)
Theorem integer_division a b x y :
  is_int a x -> is_int b y -> y <> 0 -> (x <> INT64_MIN \/ y <> -1) ->
  (exists v, intSlash a b = Ok v /\ is_int v (Z.quot x y))
  /\ match a, b with
     | VMInteger _, VMInteger _ =>
         (exists v, intPercent a b = Ok v /\ is_int v (x mod y))
         /\ (exists v, intRem a b = Ok v /\ is_int v (Z.rem x y))
     | _, _ => exists v, intPercent a b = Ok v /\ is_int v (Z.rem x y)
     end.
Proof.
  intros Ha Hb Hy Hn. split; [by apply intSlash_spec|].
  destruct a as [u|i|?|?|?|], b as [w|j|?|?|?|]; try done.
  - destruct Ha as [-> Ha], Hb as [-> Hb].
    split; [by apply intPercent_small|by apply intRem_spec].
  - apply intPercent_big; eauto.
  - apply intPercent_big; eauto.
  - apply intPercent_big; eauto.
Qed.

(** On integer objects in normal form (a big integer only where no small one
    would do) all seven comparisons decide the order of the integers. *)
Theorem integer_comparisons a b x y :
  is_int a x -> is_int b y -> normal a -> normal b ->
  intLowerthan a b = Ok (VMBool (x <? y))
  /\ intLowerThanEqual a b = Ok (VMBool (x <=? y))
  /\ intGreaterThan a b = Ok (VMBool (x >? y))
  /\ intGreaterThanEqual a b = Ok (VMBool (x >=? y))
  /\ intEqual a b = Ok (VMBool (x =? y))
  /\ intEqualEqual a b = Ok (VMBool (x =? y))
  /\ intUnequal a b = Ok (VMBool (negb (x =? y))).
Proof.
  intros Ha Hb Na Nb. destruct (comparisons_spec a b x y Ha Hb Na Nb) as (E & ?).
  unfold intLowerthan. by rewrite E.
Qed.

(** C38: [<<] loses no bit: for a small receiver and a shift that is not negative, and
    not within 64 of the largest 64-bit integer (where the sum that the code computes may
    overflow), the result is the exact integer, big where needed, whatever
    [__builtin_clzll] returns for the receiver 0. *)
Theorem integer_left_shift clz_of_zero x y :
  small_range x -> 0 <= y <= INT64_MAX - 64 -> 0 <= clz_of_zero <= 64 ->
  exists v, intLeftShift clz_of_zero (VMInteger x) (VMInteger y) = Ok v
            /\ is_int v (Z.shiftl x y).
Proof. by apply intLeftShift_spec. Qed.

(** C32: the decimal text of any integer, if it has fewer than 2^31 characters, is read
    back by [fromString:] as an integer in normal form that represents the same number. *)
Theorem integer_text_roundtrip v z :
  is_int v z ->
  exists s, intAsString v = Ok (VMString s) /\
    (int_size s -> exists w, intFromString (VMString s) = Ok w /\ is_int w z /\ normal w).
Proof. by apply intAsString_fromString. Qed.

End Primitives.

Lemma integer_arithmetic_exact_witness :
  exists v, intPlus false (VMInteger INT64_MAX) (VMInteger 1) = Ok v
            /\ is_int false v 9223372036854775808.
Proof.
  apply (integer_arithmetic_exact false (VMInteger INT64_MAX) (VMInteger 1) INT64_MAX 1); done.
Defined.

Lemma integer_division_witness :
  exists v, intPercent true (VMInteger (-7)) (VMInteger 3) = Ok v /\ is_int true v 2.
Proof.
  apply (integer_division true (VMInteger (-7)) (VMInteger 3) (-7) 3); [done..|by left].
Defined.

Lemma integer_comparisons_witness :
  intLowerthan (VMInteger 5) (VMBigInteger (mkInfInt true [0; 0; 7])) = Ok (VMBool true).
Proof.
  apply (integer_comparisons true (VMInteger 5) (VMBigInteger (mkInfInt true [0; 0; 7]))
           5 7000000000000000000); [done| |done|done].
  split; [concrete_digits|done].
Defined.

Lemma integer_left_shift_witness :
  exists v, intLeftShift true 64 (VMInteger (-3)) (VMInteger 62) = Ok v
            /\ is_int true v (-13835058055282163712).
Proof. apply (integer_left_shift true 64 (-3) 62); done. Defined.

Definition some_big : vm_value := VMBigInteger (mkInfInt false [5; 0; 12]).

Lemma integer_text_roundtrip_witness :
  exists w, intFromString true (VMString (list_ascii_of_string "-12000000000000000005")) = Ok w
    /\ is_int true w (-12000000000000000005) /\ normal true w.
Proof.
  destruct (integer_text_roundtrip true some_big (-12000000000000000005)) as (s & E & H).
  - split; [concrete_digits|reflexivity].
  - vm_compute in E. injection E as <-. apply H. reflexivity.
Defined.

(** Where the code departs from integer arithmetic: a big integer produced by an
    operation is not reduced to a small one, and compared with the small integer
    of the same value it is not equal, while the small one is below it. *)
Example big_result_not_normal :
  exists v, intMinus true (VMBigInteger (mkInfInt true [0; 0; 7])) (VMInteger 4000000000000000000)
            = Ok v /\ is_int true v 3000000000000000000 /\ ~ normal true v
            /\ intEqual v (VMInteger 3000000000000000000) = Ok (VMBool false)
            /\ lowerThan (VMInteger 3000000000000000000) v = Ok true.
Proof.
  exists (VMBigInteger (mkInfInt true [0; 0; 3])). split; [reflexivity|].
  split; [split; [concrete_digits|done]|]. split; [|done]. intros H. by apply H.
Qed.

(** [//] with a big divisor divides by the receiver taken as a big integer: a big
    receiver divided by any big integer gives 1.0. *)
Example slashslash_big_divisor :
  intSlashslash (VMBigInteger (mkInfInt true [0; 0; 8])) (VMBigInteger (mkInfInt true [0; 0; 16]))
  = Ok (VMDouble (f64_of_Z 1)).
Proof. reflexivity. Qed.

(** [%] of the same numbers has another sign when one of them is big. *)
Example percent_big_sign :
  intPercent true (VMInteger (-7)) (VMBigInteger (mkInfInt true [0; 0; 5]))
  = Ok (VMBigInteger (mkInfInt false [7])).
Proof. reflexivity. Qed.
