(* ===== verification/InfIntMore.v ===== *)
(** * InfInt: the square root and the rest

    The integer square root, the digits of a number, the assignments from other integer
    types and the unsigned conversions of [src/src/lib/InfInt.h].  The machine does not use
    them; the theorem says that the square root is exact. *)
From Stdlib Require Import Ascii.
From S2P Require Import Prelude InfIntBase InfIntMul InfIntDiv InfIntText.

(** ** Digits *)

Definition numberOfDigits (a : InfInt) : Z :=
  let lastVal := List.last (val a) 0 in
  let baseDigits := (Z.of_nat (length (val a)) - 1) * 9 in
  if lastVal >? 99999999 then baseDigits + 9
  else if lastVal >? 9999999 then baseDigits + 8
  else if lastVal >? 999999 then baseDigits + 7
  else if lastVal >? 99999 then baseDigits + 6
  else if lastVal >? 9999 then baseDigits + 5
  else if lastVal >? 999 then baseDigits + 4
  else if lastVal >? 99 then baseDigits + 3
  else if lastVal >? 9 then baseDigits + 2
  else baseDigits + 1.

(** The answer for an index that is too big is -1. *)
Definition digitAt (a : InfInt) (i : Z) : Z :=
  if numberOfDigits a <=? i then -1
  else Z.rem (Z.quot (nth (Z.to_nat (i / 9)) (val a) 0) (10 ^ (i mod 9))) 10.

(** In bytes: an [int] for each digit, and the sign. *)
Definition size_in_bytes (a : InfInt) : Z := Z.of_nat (length (val a)) * 4 + 1.

(** ** Assignments *)

Definition INT_MIN : Z := - 2 ^ 31.

Definition assign_int (l : Z) : InfInt :=
  let subtractOne := l =? INT_MIN in
  let l := if subtractOne then l + 1 else l in
  let p := l >=? 0 in
  let l := if negb p then - l else l in
  let r := mkInfInt p (push_digits 3 l) in
  if subtractOne then op_decr r else r.

(** From [unsigned int] and [uint64_t]. *)
Definition assign_unsigned (l : Z) : InfInt := mkInfInt true (push_digits 3 l).

Definition op_mul_assign (a b : InfInt) : InfInt := op_mul a b.
Definition op_mul_elem_assign (a : InfInt) (rhs : Z) : InfInt := op_mul_elem a rhs.

(** [operator>>] reads a word. *)
Fixpoint word (s : list ascii) : list ascii :=
  match s with c :: r => if isspace c then [] else c :: word r | [] => [] end.

Definition op_read (s : list ascii) : option InfInt := fromString (word (skip_spaces s)).

(** ** Unsigned conversions *)

Definition UINT64_MAX : Z := 2 ^ 64 - 1.

(** The constructor takes an [int64_t]. *)
Definition toUnsignedLong (a : InfInt) : bool * Z :=
  (negb (pos a) || op_gt a (InfInt_of_int64 (i64 UINT64_MAX)), accumulate u64 0 (rev (val a))).

(** ** The square root *)

Fixpoint times_ten (n : nat) (hdn : InfInt) : InfInt :=
  match n with O => hdn | S n => times_ten n (op_mul_elem_assign hdn 10) end.

Definition optimizeSqrtSearchBounds (a lo hi : InfInt) : InfInt * InfInt :=
  let hdn := times_ten (Z.to_nat (i32 (numberOfDigits a) / 2 - 1)) (InfInt_of_int64 1) in
  let lo := if op_lt lo hdn then hdn else lo in
  let hdn := op_mul_elem_assign hdn 100 in
  (lo, if op_gt hi hdn then hdn else hi).

Fixpoint sqrt_loop (fuel : nat) (a lo hi : InfInt) : option InfInt :=
  match fuel with
  | O => None
  | S fuel =>
      let mid := op_div (op_add hi lo) (InfInt_of_int64 2) in
      let mid2 := op_mul mid mid in
      if op_eq mid2 a then Some mid
      else
        let lo' := if op_lt mid2 a then mid else lo in
        let hi' := if op_lt mid2 a then hi else mid in
        if op_lt lo' (op_sub hi' (InfInt_of_int64 1)) && op_ne mid2 a then sqrt_loop fuel a lo' hi'
        else Some lo'
  end.

(** The interval is halved, and it has at most half of the digits, rounded up, and one
    more. A number that is not positive is reported, and its root is 0. *)
Definition sqrt_fuel (a : InfInt) : nat := Z.to_nat (4 * (Z.max 1 (numberOfDigits a / 2) + 1) + 1).

Definition intSqrt (a : InfInt) : option InfInt :=
  if op_le a InfInt_zero then Some InfInt_zero
  else
    let hi := op_add (op_div a (InfInt_of_int64 2)) (InfInt_of_int64 1) in
    let '(lo, hi) := optimizeSqrtSearchBounds a InfInt_zero hi in
    sqrt_loop (sqrt_fuel a) a lo hi.

(** The test of the unsigned conversion compares with -1 instead of [UINT64_MAX], so that it
    reports every number. *)
Example unsigned_test : toUnsignedLong (InfInt_of_int64 5) = (true, 5).
Proof. vm_compute. reflexivity. Qed.

(** ** The number of digits *)

Lemma number_of_digits_split a rest x :
  val a = rest ++ [x] -> digit x ->
  exists d, 1 <= d <= 9 /\ numberOfDigits a = Z.of_nat (length rest) * 9 + d /\
    x < 10 ^ d /\ (0 < x -> 10 ^ (d - 1) <= x).
Proof.
  intros E Hx. unfold numberOfDigits. rewrite E, last_last, length_app. unfold_base. cbn [length].
  repeat match goal with
  | |- context [if ?x >? ?n then _ else _] =>
      destruct (Z.gtb_spec x n); [|]
  end;
  match goal with |- exists d, _ /\ _ * 9 + ?k = _ /\ _ => exists k end;
  (split; [lia|]); (split; [lia|]); split; cbn; lia.
Qed.

Lemma BASE_pow n : BASE ^ Z.of_nat n = 10 ^ (Z.of_nat n * 9).
Proof. change BASE with (10 ^ 9). rewrite <- Z.pow_mul_r by lia. f_equal. lia. Qed.

Lemma numberOfDigits_spec a :
  wf a -> 0 < eval (val a) ->
  1 <= numberOfDigits a /\ 10 ^ (numberOfDigits a - 1) <= eval (val a) < 10 ^ numberOfDigits a.
Proof.
  intros [HF HT] HP. unfold trimmed in HT. destruct (rev (val a)) as [|x r] eqn:Er; [done|].
  assert (val a = rev r ++ [x]) as E by (by rewrite <- (rev_involutive (val a)), Er).
  rewrite E in HF. apply Forall_app in HF as [HFr HFx]. apply Forall_cons_iff in HFx as [Hx _].
  destruct (number_of_digits_split a (rev r) x E Hx) as (d & Hd & -> & Hlt & Hle).
  pose proof (eval_bound (rev r) HFr) as Hr. rewrite E in HP. rewrite E, !eval_app in *.
  rewrite BASE_pow in *. set (k := Z.of_nat (length (rev r)) * 9) in *.
  assert (0 <= k) by lia. assert (eval [x] = x) as Ex by (cbn; lia). rewrite Ex in *.
  assert (0 < x).
  { destruct HT as [->|Hn]; [|unfold digit in Hx; lia].
    cbn in HP. lia. }
  replace (k + d - 1) with (k + (d - 1)) by lia. rewrite !Z.pow_add_r by lia.
  specialize (Hle ltac:(done)). pose proof (Z.pow_pos_nonneg 10 k). nia.
Qed.

(** ** The search *)

Lemma size_le a b : wf a -> wf b -> eval (val a) <= eval (val b) -> (size a <= size b)%nat.
Proof.
  intros Wa Wb H. destruct (le_lt_dec (size a) (size b)) as [?|HL]; [done|].
  pose proof (longer_larger b a Wb Wa HL). lia.
Qed.

Lemma nonneg_eval a : canonical a -> 0 <= value a -> eval (val a) = value a.
Proof. intros Ca Hv. unfold value. by rewrite (canonical_nonneg a Ca Hv). Qed.

Lemma sqrt_unique n r : 0 <= r -> r * r <= n < (r + 1) * (r + 1) -> r = Z.sqrt n.
Proof. intros Hr H. symmetry. apply Z.sqrt_unique. unfold Z.succ. lia. Qed.

Lemma middle_spec a lo hi :
  canonical a -> canonical lo -> canonical hi -> Z.of_nat (size a) < 2 ^ 32 ->
  0 <= value lo <= value hi -> value hi <= value a ->
  let mid := op_div (op_add hi lo) (InfInt_of_int64 2) in
  canonical mid /\ value mid = (value hi + value lo) / 2 /\
  canonical (op_mul mid mid) /\ value (op_mul mid mid) = value mid * value mid.
Proof.
  intros Ca Cl Ch Hs Hlo Hhi mid.
  destruct (op_add_spec hi lo) as [EA CA]; [apply Ch|apply Cl|].
  destruct (InfInt_of_int64_spec 2) as [E2 C2]; [done|].
  destruct (op_div_spec (op_add hi lo) (InfInt_of_int64 2)) as [EM CM]; [apply CA|apply C2|by rewrite E2|].
  rewrite EA, E2, Z.quot_div_nonneg in EM by lia. fold mid in EM, CM.
  assert (value mid <= value a) by (rewrite EM; apply Z.div_le_upper_bound; lia).
  assert (0 <= value mid) by (rewrite EM; apply Z.div_pos; lia).
  destruct (op_mul_spec mid mid) as [EQ CQ]; [apply CM|apply CM| |done].
  unfold fits. rewrite Nat.min_id.
  assert (size mid <= size a)%nat; [|lia]. apply size_le; [apply CM|apply Ca|].
  rewrite !nonneg_eval by (done || lia). done.
Qed.

(** What remains to be searched after one step. *)
Lemma sqrt_loop_step fuel a lo hi :
  canonical a -> canonical lo -> canonical hi -> Z.of_nat (size a) < 2 ^ 32 ->
  0 <= value lo < value hi -> value hi <= value a -> value lo * value lo <= value a < value hi * value hi ->
  (exists r, sqrt_loop (S fuel) a lo hi = Some r /\ canonical r /\ value r = Z.sqrt (value a)) \/
  (exists lo' hi', sqrt_loop (S fuel) a lo hi = sqrt_loop fuel a lo' hi' /\ canonical lo' /\ canonical hi' /\
     0 <= value lo' < value hi' - 1 /\ value hi' <= value a /\
     value lo' * value lo' <= value a < value hi' * value hi' /\
     2 * (value hi' - value lo') <= value hi - value lo + 1).
Proof.
  intros Ca Cl Ch Hs Hlo Hhi Hn.
  destruct (middle_spec a lo hi) as (Cm & Em & Cq & Eq); [done..|lia|done|].
  destruct (InfInt_of_int64_spec 1) as [E1 C1]; [done|]. cbn [sqrt_loop].
  set (mid := op_div _ _) in *. set (mid2 := op_mul mid mid) in *.
  assert (value lo <= value mid < value hi) as Hm.
  { rewrite Em. split; [apply Z.div_le_lower_bound|apply Z.div_lt_upper_bound]; lia. }
  assert (value hi + value lo - 1 <= 2 * value mid <= value hi + value lo) as Hm2.
  { rewrite Em. pose proof (Z.div_mod (value hi + value lo) 2). pose proof (Z.mod_pos_bound (value hi + value lo) 2). lia. }
  rewrite (op_ne_eq mid2), (op_eq_spec mid2 a Cq Ca), (op_lt_spec mid2 a Cq Ca), Eq.
  destruct (Z.eqb_spec (value mid * value mid) (value a)) as [E|E].
  { left. exists mid. split; [done|]. split; [done|]. apply sqrt_unique; nia. }
  cbn [negb]. rewrite andb_true_r.
  destruct (Z.ltb_spec (value mid * value mid) (value a)) as [L|L].
  - destruct (op_sub_spec hi (InfInt_of_int64 1)) as [ES CS]; [apply Ch|apply C1|].
    rewrite (op_lt_spec _ _ Cm CS), ES, E1. destruct (Z.ltb_spec (value mid) (value hi - 1)).
    + right. exists mid, hi. split; [done|]. split_and!; try done; lia.
    + left. exists mid. split; [done|]. split; [done|]. apply sqrt_unique; [lia|].
      replace (value mid + 1) with (value hi) by lia. lia.
  - destruct (op_sub_spec mid (InfInt_of_int64 1)) as [ES CS]; [apply Cm|apply C1|].
    rewrite (op_lt_spec _ _ Cl CS), ES, E1. destruct (Z.ltb_spec (value lo) (value mid - 1)).
    + right. exists lo, mid. split; [done|]. split_and!; try done; lia.
    + left. exists lo. split; [done|]. split; [done|]. apply sqrt_unique; [lia|].
      assert (value mid <= value lo + 1) by lia. split; [lia|].
      apply Z.lt_le_trans with (value mid * value mid); [lia|]. apply Z.mul_le_mono_nonneg; lia.
Qed.

Lemma sqrt_loop_spec fuel : forall a lo hi,
  canonical a -> canonical lo -> canonical hi -> Z.of_nat (size a) < 2 ^ 32 ->
  0 <= value lo < value hi -> value hi <= value a -> value lo * value lo <= value a < value hi * value hi ->
  value hi - value lo <= 2 ^ Z.of_nat fuel ->
  exists r, sqrt_loop (S fuel) a lo hi = Some r /\ canonical r /\ value r = Z.sqrt (value a).
Proof.
  induction fuel as [|fuel IH]; intros a lo hi Ca Cl Ch Hs Hlo Hhi Hn Hw.
  - destruct (sqrt_loop_step 0 a lo hi) as [|(lo' & hi' & _ & _ & _ & ? & _ & _ & ?)]; [done..|]. cbn in Hw. lia.
  - destruct (sqrt_loop_step (S fuel) a lo hi) as [|(lo' & hi' & -> & Cl' & Ch' & Hlo' & Hhi' & Hn' & Hw')];
      [done..|]. apply IH; try done; [lia|].
    rewrite Nat2Z.inj_succ, Z.pow_succ_r in Hw by lia. lia.
Qed.

Lemma times_ten_spec n h :
  canonical h -> value (times_ten n h) = value h * 10 ^ Z.of_nat n /\ canonical (times_ten n h).
Proof.
  revert h. induction n as [|n IH]; intros h Ch; cbn [times_ten].
  - split; [cbn; lia|done].
  - destruct (op_mul_elem_spec h 10) as [E C]; [apply Ch|unfold_base; lia|].
    destruct (IH _ C) as [E' C']. unfold op_mul_elem_assign. split; [|done].
    rewrite E', E, Nat2Z.inj_succ, Z.pow_succ_r by lia. lia.
Qed.

(** The number of the digits of the root, or one less. *)
Definition half_digits (a : InfInt) : Z := Z.max 1 (numberOfDigits a / 2).

Lemma optimizeSqrtSearchBounds_spec a hi lo' hi' :
  canonical a -> canonical hi -> 1 < value a -> Z.of_nat (size a) * 9 < 2 ^ 31 ->
  value a < value hi * value hi -> 0 <= value hi <= value a ->
  optimizeSqrtSearchBounds a InfInt_zero hi = (lo', hi') ->
  canonical lo' /\ canonical hi' /\ 0 <= value lo' /\ 0 <= value hi' <= value a /\
  value lo' * value lo' <= value a < value hi' * value hi' /\ value hi' <= 10 ^ (half_digits a + 1).
Proof.
  intros Ca Ch Ha Hs Hh2 Hh. unfold optimizeSqrtSearchBounds. intros [= <- <-].
  destruct (numberOfDigits_spec a) as (N1 & N2 & N3); [apply Ca|rewrite nonneg_eval by (done || lia); lia|].
  rewrite nonneg_eval in N2, N3 by (done || lia).
  assert (numberOfDigits a <= Z.of_nat (size a) * 9) as N4.
  { destruct Ca as [[HF HT] _]. unfold size. unfold trimmed in HT. destruct (rev (val a)) as [|x r] eqn:Er; [done|].
    assert (val a = rev r ++ [x]) as E by (by rewrite <- (rev_involutive (val a)), Er).
    rewrite E in HF. apply Forall_app in HF as [_ HFx]. apply Forall_cons_iff in HFx as [Hx _].
    destruct (number_of_digits_split a _ x E Hx) as (d & Hd & -> & _). rewrite E, length_app. cbn [length]. lia. }
  assert (i32 (numberOfDigits a) = numberOfDigits a) as -> by (apply swrap_small; cbn in *; lia).
  set (n := Z.to_nat (numberOfDigits a / 2 - 1)). assert (Z.of_nat n = half_digits a - 1) as En.
  { unfold n, half_digits. pose proof (Z.div_pos (numberOfDigits a) 2). lia. }
  destruct (InfInt_of_int64_spec 1) as [E1 C1]; [done|].
  destruct (times_ten_spec n _ C1) as [Et Ct]. rewrite E1, Z.mul_1_l, En in Et. set (h := times_ten n _) in *.
  destruct (op_mul_elem_spec h 100) as [E2 C2]; [apply Ct|unfold_base; lia|].
  change (op_mul_elem_assign h 100) with (op_mul_elem h 100).
  set (k := half_digits a) in *. assert (1 <= k) by (unfold k, half_digits; lia).
  assert (value (op_mul_elem h 100) = 10 ^ (k + 1)) as E3.
  { rewrite E2, Et. change 100 with (10 ^ 2). rewrite <- Z.pow_add_r by lia. f_equal. lia. }
  pose proof (Z.div_mod (numberOfDigits a) 2 ltac:(lia)). pose proof (Z.mod_pos_bound (numberOfDigits a) 2 ltac:(lia)).
  assert (canonical InfInt_zero) as C0 by (by repeat constructor).
  rewrite op_lt_spec, op_gt_spec, Et, E3 by done. change (value InfInt_zero) with 0.
  pose proof (Z.pow_pos_nonneg 10 (k - 1)). destruct (Z.ltb_spec 0 (10 ^ (k - 1))); [|lia].
  assert (10 ^ (k - 1) * 10 ^ (k - 1) <= value a) as Hl.
  { rewrite <- Z.pow_add_r by lia. unfold k, half_digits in *. destruct (Z.max_spec 1 (numberOfDigits a / 2)) as [[? ->]|[? ->]].
    - apply Z.le_trans with (10 ^ (numberOfDigits a - 1)); [apply Z.pow_le_mono_r; lia|done].
    - cbn. lia. }
  assert (value a < 10 ^ (k + 1) * 10 ^ (k + 1)) as Hu.
  { rewrite <- Z.pow_add_r by lia. apply Z.lt_le_trans with (10 ^ numberOfDigits a); [done|].
    apply Z.pow_le_mono_r; [lia|]. unfold k, half_digits. lia. }
  pose proof (Z.pow_pos_nonneg 10 (k + 1)).
  split; [done|]. rewrite Et. rewrite Z.gtb_ltb. destruct (Z.ltb_spec (10 ^ (k + 1)) (value hi)).
  - rewrite E3. split_and!; done || lia.
  - split_and!; done || lia.
Qed.

Lemma sqrt_bits k : 0 <= k -> 10 ^ k <= 2 ^ (4 * k).
Proof. intros. rewrite Z.pow_mul_r by lia. apply Z.pow_le_mono_l. lia. Qed.

(** The integer square root of a positive number is exact, and the search ends. *)
Lemma intSqrt_spec a :
  canonical a -> 0 < value a -> Z.of_nat (size a) * 9 < 2 ^ 31 ->
  exists r, intSqrt a = Some r /\ canonical r /\ value r = Z.sqrt (value a).
Proof.
  intros Ca Ha Hs. destruct (Z.eq_dec (value a) 1) as [E|E].
  { destruct (InfInt_of_int64_spec 1) as [E1 C1]; [done|].
    rewrite (canonical_unique a _ Ca C1) by lia. exists (InfInt_of_int64 1).
    split; [vm_compute; reflexivity|]. split; [exact C1|]. rewrite E1. reflexivity. }
  assert (canonical InfInt_zero) as C0 by (by repeat constructor).
  unfold intSqrt. rewrite op_le_spec by done. change (value InfInt_zero) with 0.
  destruct (Z.leb_spec (value a) 0); [lia|].
  destruct (InfInt_of_int64_spec 2) as [E2 C2]; [done|]. destruct (InfInt_of_int64_spec 1) as [E1 C1]; [done|].
  destruct (op_div_spec a (InfInt_of_int64 2)) as [ED CD]; [apply Ca|apply C2|by rewrite E2|].
  rewrite E2, Z.quot_div_nonneg in ED by lia.
  destruct (op_add_spec (op_div a (InfInt_of_int64 2)) (InfInt_of_int64 1)) as [EH CH]; [apply CD|apply C1|].
  rewrite ED, E1 in EH. set (hi := op_add _ _) in *.
  pose proof (Z.div_mod (value a) 2 ltac:(lia)). pose proof (Z.mod_pos_bound (value a) 2 ltac:(lia)).
  destruct (optimizeSqrtSearchBounds a InfInt_zero hi) as [lo' hi'] eqn:EO.
  apply optimizeSqrtSearchBounds_spec in EO as (Cl & Chi & Hl & Hh & Hn & Hk); [|done|done|lia|done|nia|nia].
  unfold sqrt_fuel. fold (half_digits a).
  assert (1 <= half_digits a) by (unfold half_digits; lia).
  replace (Z.to_nat (4 * (half_digits a + 1) + 1)) with (S (Z.to_nat (4 * (half_digits a + 1)))) by lia.
  apply sqrt_loop_spec; try done; [lia|nia|lia|].
  rewrite Z2Nat.id by lia. pose proof (sqrt_bits (half_digits a + 1)). lia.
Qed.
