(* ===== verification/Hashing.v ===== *)
(** * Hashing

    [murmur3_32] of [src/src/misc/Murmur3Hash.cpp], on lists of bytes.  The
    theorem behind its use: with one seed, keys of one length that differ in a
    single block never collide, because every stage is a bijection. *)
From Stdlib Require Import Ascii String.
From S2P Require Import Prelude.

Definition rotl32 (x r : Z) : Z := Z.lor (u32 (Z.shiftl x r)) (Z.shiftr x (32 - r)).

Definition murmur_32_scramble (k : Z) : Z :=
  let k := u32 (k * 0xcc9e2d51) in
  let k := rotl32 k 15 in
  u32 (k * 0x1b873593).

(** One round of the main loop, for the block [k]. *)
Definition murmur_round (h k : Z) : Z :=
  let h := Z.lxor h (murmur_32_scramble k) in
  let h := rotl32 h 13 in
  u32 (u32 (h * 5) + 0xe6546b64).

(** [memcpy] of four bytes into a [uint32_t], little-endian, and the loop over
    the tail [k <<= 8; k |= key[i - 1]]: both read the bytes least significant
    first. *)
Fixpoint le_word (bs : list Z) : Z :=
  match bs with [] => 0 | b :: r => Z.lor (u32 (Z.shiftl (le_word r) 8)) b end.

Fixpoint murmur_blocks (n : nat) (h : Z) (key : list Z) : Z * list Z :=
  match n with
  | O => (h, key)
  | S n => murmur_blocks n (murmur_round h (le_word (take 4 key))) (drop 4 key)
  end.

Definition murmur_finish (h len : Z) : Z :=
  let h := u32 (Z.lxor h len) in
  let h := Z.lxor h (Z.shiftr h 16) in
  let h := u32 (h * 0x85ebca6b) in
  let h := Z.lxor h (Z.shiftr h 13) in
  let h := u32 (h * 0xc2b2ae35) in
  Z.lxor h (Z.shiftr h 16).

Definition murmur3_32 (key : list Z) (seed : Z) : Z :=
  let len := Z.of_nat (length key) in
  let (h, rest) := murmur_blocks (Z.to_nat (Z.shiftr len 2)) seed key in
  let k := le_word (take (Z.to_nat (Z.land len 3)) rest) in
  let h := Z.lxor h (murmur_32_scramble k) in
  murmur_finish h len.

(** ** Every stage is injective on 32-bit words *)

Definition word (x : Z) : Prop := 0 <= x < 2 ^ 32.

Lemma u32_word x : word (u32 x).
Proof. by apply uwrap_range. Qed.

Lemma word_bits x n : word x -> 32 <= n -> Z.testbit x n = false.
Proof.
  intros [H0 H] Hn. destruct (Z.eq_dec x 0) as [->|]; [apply Z.testbit_0_l|].
  apply Z.bits_above_log2; [done|]. enough (Z.log2 x < 32) by lia.
  by apply Z.log2_lt_pow2; [lia|].
Qed.

Lemma word_from_bits x : 0 <= x -> (forall n, 32 <= n -> Z.testbit x n = false) -> word x.
Proof.
  intros H0 Hb. split; [done|]. destruct (Z.eq_dec x 0) as [->|]; [done|].
  apply Z.log2_lt_pow2; [lia|].
  destruct (Z.lt_ge_cases (Z.log2 x) 32) as [|H]; [done|].
  specialize (Hb _ H). rewrite Z.bit_log2 in Hb by lia. done.
Qed.

Lemma lxor_word x y : word x -> word y -> word (Z.lxor x y).
Proof.
  intros Hx Hy. apply word_from_bits; [apply Z.lxor_nonneg; destruct Hx, Hy; lia|].
  intros n Hn. rewrite Z.lxor_spec, !word_bits by done. done.
Qed.

Lemma shiftr_word x r : word x -> 0 <= r -> word (Z.shiftr x r).
Proof.
  intros Hx Hr. apply word_from_bits; [apply Z.shiftr_nonneg; destruct Hx; lia|].
  intros n Hn. rewrite Z.shiftr_spec by lia. apply word_bits; [done|lia].
Qed.

Lemma u32_bits x n : 0 <= n -> Z.testbit (u32 x) n = if n <? 32 then Z.testbit x n else false.
Proof.
  intros Hn. unfold uwrap. destruct (Z.ltb_spec n 32).
  - by rewrite Z.mod_pow2_bits_low.
  - apply Z.mod_pow2_bits_high. lia.
Qed.

Lemma rotl32_word x r : word x -> 0 <= r <= 32 -> word (rotl32 x r).
Proof.
  intros Hx Hr. pose proof (u32_word (Z.shiftl x r)) as H1.
  pose proof (shiftr_word x (32 - r) Hx) as H2.
  apply word_from_bits; [apply Z.lor_nonneg; destruct H1, H2; lia|].
  intros n Hn. unfold rotl32. rewrite Z.lor_spec, !word_bits; [done|..]; auto with lia.
Qed.

Lemma rotl32_inj x y r : word x -> word y -> 0 < r < 32 -> rotl32 x r = rotl32 y r -> x = y.
Proof.
  intros Hx Hy Hr E. apply Z.bits_inj'. intros n Hn.
  destruct (Z.lt_ge_cases n 32) as [Hn32|]; [|by rewrite !word_bits].
  destruct (Z.lt_ge_cases n (32 - r)) as [Hlow|Hhigh].
  - apply (f_equal (fun z => Z.testbit z (n + r))) in E. unfold rotl32 in E.
    rewrite !Z.lor_spec, !u32_bits, !Z.shiftr_spec in E by lia.
    replace (n + r <? 32) with true in E by lia.
    rewrite !Z.shiftl_spec, !(word_bits _ (n + r + (32 - r))), !orb_false_r in E by (done || lia).
    by replace (n + r - r) with n in E by lia.
  - apply (f_equal (fun z => Z.testbit z (n - (32 - r)))) in E. unfold rotl32 in E.
    rewrite !Z.lor_spec, !u32_bits, !Z.shiftr_spec in E by lia.
    replace (n - (32 - r) <? 32) with true in E by lia.
    rewrite !Z.shiftl_spec_low in E by lia. cbn [orb] in E.
    by replace (n - (32 - r) + (32 - r)) with n in E by lia.
Qed.

(** Multiplication by a number that has an inverse modulo 2^32. *)
Lemma mul_inj c c' x y :
  (c * c') mod 2 ^ 32 = 1 -> word x -> word y -> u32 (x * c) = u32 (y * c) -> x = y.
Proof.
  unfold uwrap. intros Hc Hx Hy E.
  assert (forall z, word z -> (((z * c) mod 2 ^ 32) * c') mod 2 ^ 32 = z) as H.
  { intros z Hz. rewrite Zmult_mod_idemp_l, <- Z.mul_assoc, <- Zmult_mod_idemp_r, Hc.
    rewrite Z.mul_1_r. by apply Z.mod_small. }
  by rewrite <- (H x Hx), <- (H y Hy), E.
Qed.

Lemma shiftr_zero x r : word x -> 32 <= r -> Z.shiftr x r = 0.
Proof.
  intros Hx Hr. apply Z.bits_inj'. intros n Hn. rewrite Z.testbit_0_l, Z.shiftr_spec by lia.
  apply word_bits; [done|lia].
Qed.

(** [h ^= h >> r], undone by xoring the shifts again. *)
Lemma xorshift_inj x y r :
  word x -> word y -> 11 <= r ->
  Z.lxor x (Z.shiftr x r) = Z.lxor y (Z.shiftr y r) -> x = y.
Proof.
  intros Hx Hy Hr E.
  set (f := fun z => Z.lxor z (Z.shiftr z r)).
  assert (forall z, word z ->
          Z.lxor (f z) (Z.lxor (Z.shiftr (f z) r) (Z.shiftr (f z) (r + r))) = z) as H.
  { intros z Hz. subst f. cbn beta.
    rewrite !Z.shiftr_lxor, !Z.shiftr_shiftr by lia.
    rewrite (shiftr_zero z (r + (r + r))) by (done || lia).
    rewrite Z.lxor_0_r. rewrite Z.lxor_assoc, <- (Z.lxor_assoc (Z.shiftr z r)).
    rewrite <- (Z.lxor_assoc (Z.shiftr z r) (Z.shiftr z r)), Z.lxor_nilpotent, Z.lxor_0_l.
    by rewrite Z.lxor_nilpotent, Z.lxor_0_r. }
  rewrite <- (H x Hx), <- (H y Hy). subst f. cbn beta. by rewrite E.
Qed.

Lemma scramble_word k : word (murmur_32_scramble k).
Proof. apply u32_word. Qed.

Lemma scramble_inj x y :
  word x -> word y -> murmur_32_scramble x = murmur_32_scramble y -> x = y.
Proof.
  intros Hx Hy E. unfold murmur_32_scramble in E.
  apply (mul_inj _ 0x56ed309b) in E; [|done|apply rotl32_word; [apply u32_word|lia]..].
  apply rotl32_inj in E; [|apply u32_word..|lia].
  by apply (mul_inj _ 0xdee13bb1) in E.
Qed.

Lemma lxor_inj_r a x y : Z.lxor a x = Z.lxor a y -> x = y.
Proof.
  intros E. apply (f_equal (Z.lxor a)) in E.
  by rewrite <- !Z.lxor_assoc, Z.lxor_nilpotent, !Z.lxor_0_l in E.
Qed.

Lemma round_word h k : word (murmur_round h k).
Proof. apply u32_word. Qed.

Lemma add_mod_inj c x y : word x -> word y -> u32 (x + c) = u32 (y + c) -> x = y.
Proof.
  unfold uwrap. intros Hx Hy E.
  assert (forall z, word z -> ((z + c) mod 2 ^ 32 - c) mod 2 ^ 32 = z) as H.
  { intros z Hz. rewrite Zminus_mod_idemp_l. replace (z + c - c) with z by lia.
    by apply Z.mod_small. }
  by rewrite <- (H x Hx), <- (H y Hy), E.
Qed.

(** The part of a round after the block has been mixed in. *)
Lemma round_mix_inj x y :
  word x -> word y ->
  u32 (u32 (rotl32 x 13 * 5) + 0xe6546b64) = u32 (u32 (rotl32 y 13 * 5) + 0xe6546b64) -> x = y.
Proof.
  intros Hx Hy E. apply add_mod_inj in E; [|apply u32_word..].
  apply (mul_inj _ 0xcccccccd) in E; [|done|apply rotl32_word; [done|lia]..].
  by apply rotl32_inj in E; [| |done|].
Qed.

Lemma round_inj_block h x y :
  word h -> word x -> word y -> murmur_round h x = murmur_round h y -> x = y.
Proof.
  intros Hh Hx Hy E. apply round_mix_inj in E; [|apply lxor_word; auto using scramble_word..].
  apply lxor_inj_r in E. by apply scramble_inj.
Qed.

Lemma round_inj_state g h k :
  word g -> word h -> murmur_round g k = murmur_round h k -> g = h.
Proof.
  intros Hg Hh E. apply round_mix_inj in E; [|apply lxor_word; auto using scramble_word..].
  rewrite !(Z.lxor_comm _ (murmur_32_scramble k)) in E. by apply lxor_inj_r in E.
Qed.

Lemma u32_lxor_word h len : word h -> 0 <= len -> u32 (Z.lxor h len) = Z.lxor h (u32 len).
Proof.
  intros Hh Hl. apply Z.bits_inj'. intros n Hn.
  rewrite u32_bits, !Z.lxor_spec, u32_bits by lia. destruct (Z.ltb_spec n 32); [done|].
  by rewrite word_bits.
Qed.

Lemma finish_inj g h len :
  word g -> word h -> 0 <= len -> murmur_finish g len = murmur_finish h len -> g = h.
Proof.
  intros Hg Hh Hl E. unfold murmur_finish in E.
  assert (forall x r, word x -> 0 <= r -> word (Z.lxor x (Z.shiftr x r))) as W
    by (intros; apply lxor_word; [done|by apply shiftr_word]).
  apply xorshift_inj in E; [|apply u32_word..|lia].
  apply (mul_inj _ 0x7ed1b41d) in E; [|done|apply W; [apply u32_word|lia]..].
  apply xorshift_inj in E; [|apply u32_word..|lia].
  apply (mul_inj _ 0xa5cb9243) in E; [|done|apply W; [apply u32_word|lia]..].
  apply xorshift_inj in E; [|apply u32_word..|lia].
  rewrite !u32_lxor_word, !(Z.lxor_comm _ (u32 len)) in E by done. by apply lxor_inj_r in E.
Qed.

(** ** Keys that differ in one block *)

Definition is_byte (b : Z) : Prop := 0 <= b < 256.

Lemma lor_shift8 x b : 0 <= x -> is_byte b -> Z.lor (Z.shiftl x 8) b = x * 256 + b.
Proof.
  intros Hx Hb. rewrite Z.shiftl_mul_pow2 by lia.
  assert (Z.land (x * 2 ^ 8) b = 0) as E.
  { apply Z.bits_inj'. intros n Hn. rewrite Z.land_spec, Z.testbit_0_l.
    destruct (Z.lt_ge_cases n 8) as [H|H].
    - by rewrite Z.mul_pow2_bits_low.
    - rewrite andb_comm. replace b with (b mod 2 ^ 8) by (apply Z.mod_small; exact Hb).
      by rewrite Z.mod_pow2_bits_high. }
  pose proof (Z.add_lor_land (x * 2 ^ 8) b) as H. rewrite E in H. lia.
Qed.

Lemma le_word_bound bs :
  Forall is_byte bs -> (length bs <= 4)%nat -> 0 <= le_word bs < 256 ^ Z.of_nat (length bs).
Proof.
  induction 1 as [|b bs Hb Hbs IH]; intros HL; [done|]. cbn [le_word length] in *.
  specialize (IH ltac:(lia)).
  assert (256 ^ Z.of_nat (length bs) <= 256 ^ 3) by (apply Z.pow_le_mono_r; lia).
  change (256 ^ 3) with 16777216 in *.
  rewrite uwrap_small by (rewrite Z.shiftl_mul_pow2 by lia; cbn; lia).
  rewrite lor_shift8 by (done || lia). rewrite Nat2Z.inj_succ, Z.pow_succ_r by lia.
  unfold is_byte in Hb. lia.
Qed.

Lemma le_word_word bs : Forall is_byte bs -> (length bs <= 4)%nat -> word (le_word bs).
Proof.
  intros HF HL. pose proof (le_word_bound bs HF HL).
  assert (256 ^ Z.of_nat (length bs) <= 256 ^ 4) by (apply Z.pow_le_mono_r; lia).
  change (256 ^ 4) with (2 ^ 32) in *. unfold word. lia.
Qed.

Lemma le_word_inj bs cs :
  Forall is_byte bs -> Forall is_byte cs -> length bs = length cs -> (length bs <= 4)%nat ->
  le_word bs = le_word cs -> bs = cs.
Proof.
  intros HF. revert cs. induction HF as [|b bs Hb Hbs IH]; intros [|c cs] HG HL H4 E;
    try done. apply Forall_cons_iff in HG as [Hc Hcs]. cbn [length le_word] in *.
  injection HL as HL.
  pose proof (le_word_bound bs Hbs ltac:(lia)) as B1.
  pose proof (le_word_bound cs Hcs ltac:(lia)) as B2. rewrite <- HL in B2.
  assert (256 ^ Z.of_nat (length bs) <= 256 ^ 3) by (apply Z.pow_le_mono_r; lia).
  change (256 ^ 3) with 16777216 in *.
  rewrite !uwrap_small, !lor_shift8 in E
    by (done || lia || (rewrite Z.shiftl_mul_pow2 by lia; cbn; lia)).
  unfold is_byte in Hb, Hc. f_equal; [lia|]. apply IH; [done|done|lia|lia].
Qed.

Lemma blocks_add n m h key :
  murmur_blocks (n + m) h key
  = murmur_blocks m (fst (murmur_blocks n h key)) (snd (murmur_blocks n h key)).
Proof. revert h key. induction n as [|n IH]; intros h key; [done|]. apply IH. Qed.

Lemma blocks_snd n h key : snd (murmur_blocks n h key) = drop (4 * n) key.
Proof.
  revert h key. induction n as [|n IH]; intros h key; [done|]. cbn [murmur_blocks].
  rewrite IH, drop_drop. f_equal. lia.
Qed.

Lemma blocks_word n h key : word h -> word (fst (murmur_blocks n h key)).
Proof.
  revert h key. induction n as [|n IH]; intros h key Hh; [done|]. apply IH, round_word.
Qed.

Lemma blocks_inj n g h key :
  word g -> word h -> fst (murmur_blocks n g key) = fst (murmur_blocks n h key) -> g = h.
Proof.
  revert g h key. induction n as [|n IH]; intros g h key Hg Hh E; [done|].
  apply IH in E; [|apply round_word..]. by apply round_inj_state in E.
Qed.

(** The blocks of a key only depend on the bytes they cover. *)
Lemma blocks_prefix n h p q :
  length p = (4 * n)%nat -> murmur_blocks n h (p ++ q) = (fst (murmur_blocks n h p), q).
Proof.
  revert h p. induction n as [|n IH]; intros h p HL.
  - destruct p; [done|]. cbn in HL. lia.
  - cbn [murmur_blocks]. rewrite take_app_le, drop_app_le by lia.
    apply IH. rewrite length_drop. lia.
Qed.

Lemma murmur_blocks_count (key : list Z) :
  Z.to_nat (Z.shiftr (Z.of_nat (length key)) 2) = (length key / 4)%nat
  /\ Z.to_nat (Z.land (Z.of_nat (length key)) 3) = (length key mod 4)%nat.
Proof.
  rewrite Z.shiftr_div_pow2 by lia. change 3 with (Z.ones 2).
  rewrite Z.land_ones by lia. change (2 ^ 2) with (Z.of_nat 4).
  rewrite <- Nat2Z.inj_div, <- Nat2Z.inj_mod. lia.
Qed.

(** The hash of a key, split at a block. *)
Lemma murmur3_split i p a q seed :
  length p = (4 * i)%nat -> length a = 4%nat ->
  let h := murmur_round (fst (murmur_blocks i seed p)) (le_word a) in
  let m := (length q / 4)%nat in
  murmur3_32 (p ++ a ++ q) seed
  = murmur_finish
      (Z.lxor (fst (murmur_blocks m h q))
         (murmur_32_scramble (le_word (take (length q mod 4) (drop (4 * m) q)))))
      (Z.of_nat (length (p ++ a ++ q))).
Proof.
  intros Lp La. cbn zeta. unfold murmur3_32.
  destruct (murmur_blocks_count (p ++ a ++ q)) as [-> ->].
  assert (length (p ++ a ++ q) = (i + 1) * 4 + length q)%nat as L
    by (rewrite !length_app; lia).
  replace (length (p ++ a ++ q) / 4)%nat with (i + (1 + length q / 4))%nat
    by (rewrite L, Nat.div_add_l by lia; lia).
  replace (length (p ++ a ++ q) mod 4)%nat with (length q mod 4)%nat
    by (rewrite L, Nat.add_comm, Nat.Div0.mod_add; done).
  rewrite blocks_add, blocks_prefix by done. cbn [fst snd].
  rewrite blocks_add. cbn [murmur_blocks fst snd].
  rewrite take_app_le, drop_app_le, (take_ge a), (drop_ge a) by lia. cbn [app].
  destruct (murmur_blocks (length q / 4) _ q) as [h' rest] eqn:E. cbn [fst].
  by rewrite <- (blocks_snd (length q / 4) (murmur_round (fst (murmur_blocks i seed p)) (le_word a))), E.
Qed.

Lemma murmur3_block_injective i p a b q seed :
  word seed -> length p = (4 * i)%nat -> length a = 4%nat -> length b = 4%nat ->
  Forall is_byte a -> Forall is_byte b ->
  murmur3_32 (p ++ a ++ q) seed = murmur3_32 (p ++ b ++ q) seed -> a = b.
Proof.
  intros Hs Lp La Lb Ha Hb E. rewrite !(murmur3_split i) in E by done.
  assert (length (p ++ b ++ q) = length (p ++ a ++ q)) as L by (rewrite !length_app; lia).
  rewrite L in E.
  apply finish_inj in E; [|apply lxor_word; [apply blocks_word, round_word|apply scramble_word]..|lia].
  rewrite !(Z.lxor_comm _ (murmur_32_scramble _)) in E. apply lxor_inj_r in E.
  apply blocks_inj in E; [|apply round_word..].
  apply round_inj_block in E; [|by apply blocks_word|apply le_word_word; [done|lia]..].
  apply le_word_inj in E; [done|done|done|lia|lia].
Qed.

(** ** The properties of the hash *)

(** C39: hashing separates keys that differ in one block: for one seed, two keys
    of the same length that agree everywhere but in one aligned group of four
    bytes have different hashes. *)
Theorem murmur3_separates_blocks i p a b q seed :
  word seed -> length p = (4 * i)%nat -> length a = 4%nat -> length b = 4%nat ->
  Forall is_byte a -> Forall is_byte b -> a <> b ->
  murmur3_32 (p ++ a ++ q) seed <> murmur3_32 (p ++ b ++ q) seed.
Proof. intros Hs Lp La Lb Ha Hb N E. by apply N, (murmur3_block_injective i p a b q seed). Qed.

Definition bytes (s : string) : list Z :=
  (fun c => Z.of_N (Ascii.N_of_ascii c)) <$> list_ascii_of_string s.

Lemma murmur3_separates_blocks_witness :
  murmur3_32 (bytes "spam" ++ bytes "eggs" ++ bytes "!") 7
  <> murmur3_32 (bytes "spam" ++ bytes "legs" ++ bytes "!") 7.
Proof.
  apply (murmur3_separates_blocks 1); [done..| | |done];
    repeat (apply Forall_cons_iff; split; [done|]); by apply Forall_nil.
Defined.

(** the reference vectors of the algorithm, which are also those of the unit
    tests of the program. *)
Theorem murmur3_reference_vectors :
  murmur3_32 [] 0 = 0 /\ murmur3_32 [] 1 = 0x514e28b7 /\ murmur3_32 [] 0xffffffff = 0x81f16f39
  /\ murmur3_32 (bytes "test") 0 = 0xba6bd213
  /\ murmur3_32 (bytes "test") 0x9747b28c = 0x704b81dc
  /\ murmur3_32 (bytes "Hello, world!") 0 = 0xc0363e43
  /\ murmur3_32 (bytes "Hello, world!") 0x9747b28c = 0x24884cba
  /\ murmur3_32 (bytes "The quick brown fox jumps over the lazy dog") 0 = 0x2e4ff723
  /\ murmur3_32 (bytes "The quick brown fox jumps over the lazy dog") 0x9747b28c = 0x2fa826cd.
Proof. vm_compute. done. Qed.
