(* ===== verification/Lexer.v ===== *)
(** * The lexer

    [src/src/compiler/Lexer.h] and [Lexer.cpp]: the tokens, the state with its
    line buffer and input stream, and the operations that read the next token or
    peek at it.  Every loop takes the fuel of its caller; [remaining] bounds it,
    and the theorems show that this bound is enough. *)
From Stdlib Require Import String Ascii.
From S2P Require Import Prelude InfIntText.

Module Lexer.

Inductive Symbol : Type :=
  | NONE | Integer | Double | Not | And | Or | Star | Div | Mod | Plus | Minus
  | Equal | More | Less | Comma | At | Per | NewBlock | EndBlock | Colon | Period
  | Exit | Assign | NewTerm | EndTerm | Pound | Primitive | Separator | STString
  | Identifier | Keyword | KeywordSequence | OperatorSequence.

#[export] Instance Symbol_eq_dec : EqDecision Symbol.
Proof. solve_decision. Defined.

Definition all_symbols : list Symbol :=
  [NONE; Integer; Double; Not; And; Or; Star; Div; Mod; Plus; Minus; Equal; More;
   Less; Comma; At; Per; NewBlock; EndBlock; Colon; Period; Exit; Assign; NewTerm;
   EndTerm; Pound; Primitive; Separator; STString; Identifier; Keyword;
   KeywordSequence; OperatorSequence].

(** The table that messages index with a symbol. *)
Definition symnames : list string :=
  ["NONE"; "Integer"; "Not"; "And"; "Or"; "Star"; "Div"; "Mod"; "Plus"; "Minus";
   "Equal"; "More"; "Less"; "Comma"; "At"; "Per"; "NewBlock"; "EndBlock"; "Colon";
   "Period"; "Exit"; "Assign"; "NewTerm"; "EndTerm"; "Pound"; "Primitive";
   "Separator"; "STString"; "Identifier"; "Keyword"; "KeywordSequence";
   "OperatorSequence"]%string.

Definition Symbol_index (s : Symbol) : nat :=
  match s with
  | NONE => 0 | Integer => 1 | Double => 2 | Not => 3 | And => 4 | Or => 5 | Star => 6
  | Div => 7 | Mod => 8 | Plus => 9 | Minus => 10 | Equal => 11 | More => 12 | Less => 13
  | Comma => 14 | At => 15 | Per => 16 | NewBlock => 17 | EndBlock => 18 | Colon => 19
  | Period => 20 | Exit => 21 | Assign => 22 | NewTerm => 23 | EndTerm => 24 | Pound => 25
  | Primitive => 26 | Separator => 27 | STString => 28 | Identifier => 29 | Keyword => 30
  | KeywordSequence => 31 | OperatorSequence => 32
  end.

Record LexerState : Type := mkState {
  lineNumber : nat;
  bufp : nat;
  sym : Symbol;
  symc : ascii;
  text : list ascii;
  startBufp : nat
}.

(** The input stream: what is left of it while it is [good]. *)
Record Lexer : Type := mkLexer {
  infile : option (list ascii);
  peekDone : bool;
  state : LexerState;
  stateAfterPeek : LexerState;
  buf : list ascii
}.

Definition M (A : Type) : Type := stateful Lexer A.

Definition NUL : ascii := of_chr 0.
Definition initial_state : LexerState := mkState 0 0 NONE NUL [] 0.
Definition new_Lexer (input : list ascii) : Lexer :=
  mkLexer (Some input) false initial_state initial_state [].

(** ** State access *)

Definition set_state (s : LexerState) (l : Lexer) : Lexer :=
  mkLexer (infile l) (peekDone l) s (stateAfterPeek l) (buf l).

Definition set_bufp (n : nat) (s : LexerState) : LexerState :=
  mkState (lineNumber s) n (sym s) (symc s) (text s) (startBufp s).
Definition set_sym (y : Symbol) (s : LexerState) : LexerState :=
  mkState (lineNumber s) (bufp s) y (symc s) (text s) (startBufp s).
Definition set_symc (c : ascii) (s : LexerState) : LexerState :=
  mkState (lineNumber s) (bufp s) (sym s) c (text s) (startBufp s).
Definition set_text (t : list ascii) (s : LexerState) : LexerState :=
  mkState (lineNumber s) (bufp s) (sym s) (symc s) t (startBufp s).
Definition set_startBufp (n : nat) (s : LexerState) : LexerState :=
  mkState (lineNumber s) (bufp s) (sym s) (symc s) (text s) n.

Definition update (f : LexerState -> LexerState) : M () :=
  modify (fun l => set_state (f (state l)) l).

Definition add_text (c : ascii) : M () := update (fun s => set_text (text s ++ [c]) s).

Definition incPtr (v : nat) : M () :=
  update (fun s => mkState (lineNumber s) (bufp s + v) (sym s) (symc s) (text s) (bufp s + v)).

(** [buf[i]]: a [std::string] has a null character behind its last one, and what
    follows may not be read. *)
Definition buf_at (b : list ascii) (i : nat) : result ascii :=
  match b !! i with
  | Some c => Ok c
  | None => if (i =? length b)%nat then Ok NUL else Err Undef
  end.

Definition char_at (d : nat) : M ascii := fun l =>
  match buf_at (buf l) (bufp (state l) + d) with
  | Ok c => Ok (c, l)
  | Err e => Err e
  end.

Definition BC : M ascii := char_at 0.
Definition EOB (l : Lexer) : bool := (length (buf l) <=? bufp (state l))%nat.

(** [std::getline]: a line without its newline; reading to the end of the input
    ends [good()]. *)
Fixpoint getline (s : list ascii) : list ascii * option (list ascii) :=
  match s with
  | [] => ([], None)
  | c :: r =>
      if chr c =? 10 then ([], Some r)
      else let (line, rest) := getline r in (c :: line, rest)
  end.

(** [false] where the code returns -1. *)
Definition fillBuffer : M bool := fun l =>
  match infile l with
  | None => Ok (false, l)
  | Some s =>
      let (line, rest) := getline s in
      let st := state l in
      Ok (true, mkLexer rest (peekDone l)
                  (mkState (lineNumber st + 1) 0 (sym st) (symc st) (text st) (startBufp st))
                  (stateAfterPeek l) line)
  end.

Fixpoint hasMoreInput (fuel : nat) : M bool := fun l =>
  match fuel with
  | O => Err OutOfFuel
  | S fuel =>
      if EOB l then (b ← fillBuffer; if b : bool then hasMoreInput fuel else mret false) l
      else Ok (true, l)
  end.

(** ** Characters *)

Definition isupper (c : ascii) : bool := (65 <=? chr c) && (chr c <=? 90).
Definition islower (c : ascii) : bool := (97 <=? chr c) && (chr c <=? 122).
Definition isalpha (c : ascii) : bool := isupper c || islower c.
Definition isalnum (c : ascii) : bool := isalpha c || isdigit c.
Definition is_char (z : Z) (c : ascii) : bool := chr c =? z.

Definition ISOP (c : ascii) : bool :=
  is_char 126 c || is_char 38 c || is_char 124 c || is_char 42 c || is_char 47 c
  || is_char 92 c || is_char 43 c || is_char 61 c || is_char 62 c || is_char 60 c
  || is_char 44 c || is_char 64 c || is_char 37 c || is_char 45 c.

(** The symbols that are one character; [_MATCH] sets the state for them. *)
Definition operator_symbol (c : ascii) : option Symbol :=
  if is_char 126 c then Some Not else if is_char 38 c then Some And
  else if is_char 124 c then Some Or else if is_char 42 c then Some Star
  else if is_char 47 c then Some Div else if is_char 92 c then Some Mod
  else if is_char 43 c then Some Plus else if is_char 61 c then Some Equal
  else if is_char 62 c then Some More else if is_char 60 c then Some Less
  else if is_char 44 c then Some Comma else if is_char 64 c then Some At
  else if is_char 37 c then Some Per else if is_char 45 c then Some Minus
  else None.

Definition MATCH (c : ascii) (y : Symbol) : M () :=
  update (fun s => set_text [c] (set_symc c (set_sym y s)));; incPtr 1.

(** [while (p(_BC)) { state.text += buf[state.bufp]; state.incPtr(); }] *)
Fixpoint take_while (fuel : nat) (p : ascii -> bool) : M () :=
  match fuel with
  | O => fail OutOfFuel
  | S fuel =>
      c ← BC;
      if p c then add_text c;; incPtr 1;; take_while fuel p else mret tt
  end.

(** ** Lexing functions *)

Fixpoint skipWhiteSpace (fuel : nat) : M () :=
  match fuel with
  | O => fail OutOfFuel
  | S fuel =>
      c ← BC;
      if isspace c then
        incPtr 1;;
        b ← hasMoreInput fuel;
        if b : bool then skipWhiteSpace fuel else mret tt
      else mret tt
  end.

(** The loop up to the closing quote; [true] when it was found. *)
Fixpoint skip_to_quote (fuel : nat) : M bool :=
  match fuel with
  | O => fail OutOfFuel
  | S fuel =>
      incPtr 1;;
      b ← hasMoreInput fuel;
      if b : bool then c ← BC; if is_char 34 c then mret true else skip_to_quote fuel
      else mret false
  end.

Definition skipComment (fuel : nat) : M () :=
  c ← BC;
  if is_char 34 c then
    b ← skip_to_quote fuel;
    if b : bool then incPtr 1 else mret tt
  else mret tt.

(** The [do ... while (isdigit(_BC))] loop. *)
Fixpoint number_loop (fuel : nat) (sawDecimalMark : bool) : M () :=
  match fuel with
  | O => fail OutOfFuel
  | S fuel =>
      c ← BC; add_text c;; incPtr 1;;
      l ← get;
      dot ← BC;
      mark ← (if negb sawDecimalMark && is_char 46 dot
                && (bufp (state l) + 1 <? length (buf l))%nat
              then d ← char_at 1; mret (isdigit d) else mret false);
      (if mark : bool
       then update (set_sym Double);; add_text dot;; incPtr 1 else mret tt);;
      d ← BC;
      if isdigit d then number_loop fuel (sawDecimalMark || mark) else mret tt
  end.

Definition lexNumber (fuel : nat) : M () :=
  update (fun s => set_text [] (set_symc NUL (set_sym Integer s)));;
  number_loop fuel false.

(** The other characters are left out; the assertion against them is not
    compiled in. *)
Definition escape (c : ascii) : option ascii :=
  if is_char 116 c then Some (of_chr 9) else if is_char 98 c then Some (of_chr 8)
  else if is_char 110 c then Some (of_chr 10) else if is_char 114 c then Some (of_chr 13)
  else if is_char 102 c then Some (of_chr 12) else if is_char 48 c then Some NUL
  else if is_char 39 c then Some c else if is_char 92 c then Some c
  else None.

Definition lexEscapeChar : M () :=
  c ← BC;
  match escape c with Some e => add_text e | None => mret tt end;;
  incPtr 1.

Definition lexStringChar : M () :=
  c ← BC;
  if is_char 92 c then incPtr 1;; lexEscapeChar else add_text c;; incPtr 1.

(** [while (EOB)] of [lexString]: every line that is begun adds a newline. *)
Fixpoint fill_string (fuel : nat) : M bool := fun l =>
  match fuel with
  | O => Err OutOfFuel
  | S fuel =>
      if EOB l then
        (b ← fillBuffer;
         if b : bool then add_text (of_chr 10);; fill_string fuel else mret false) l
      else Ok (true, l)
  end.

Fixpoint string_loop (fuel : nat) : M () :=
  match fuel with
  | O => fail OutOfFuel
  | S fuel =>
      c ← BC;
      if is_char 39 c then incPtr 1
      else
        b ← fill_string fuel;
        if b : bool then
          c ← BC;
          (if is_char 39 c then mret tt else lexStringChar);;
          string_loop fuel
        else mret tt
  end.

Definition lexString (fuel : nat) : M () :=
  update (fun s => set_text [] (set_symc NUL (set_sym STString s)));;
  incPtr 1;;
  string_loop fuel.

Definition lexOperator (fuel : nat) : M () :=
  next ← char_at 1;
  if ISOP next then
    update (fun s => set_text [] (set_symc NUL (set_sym OperatorSequence s)));;
    take_while fuel ISOP
  else
    c ← BC;
    match operator_symbol c with
    | Some y => MATCH c y
    | None => mret tt
    end.

Definition PRIMITIVE : list ascii := list_ascii_of_string "primitive".
Definition SEPARATOR : list ascii := list_ascii_of_string "----".
Definition ASSIGN : list ascii := list_ascii_of_string ":=".

Definition starts_with (w : list ascii) (l : Lexer) : bool :=
  bool_decide (substr (bufp (state l)) (length w) (buf l) = w).

Definition nextWordInBufferIsPrimitive : M bool :=
  l ← get;
  if starts_with PRIMITIVE l then
    if (length (buf l) <=? bufp (state l) + length PRIMITIVE)%nat then mret true
    else c ← char_at (length PRIMITIVE); mret (negb (isalnum c))
  else mret false.

Definition is_ident_char (c : ascii) : bool := isalpha c || isdigit c || is_char 95 c.
Definition is_keyword_char (c : ascii) : bool := isalpha c || is_char 58 c.

Definition lexWord (fuel : nat) : M () :=
  update (fun s => set_symc NUL (set_text [] s));;
  take_while fuel is_ident_char;;
  update (set_sym Identifier);;
  c ← BC;
  if is_char 58 c then
    update (set_sym Keyword);; incPtr 1;; add_text c;;
    d ← BC;
    if isalpha d then
      update (set_sym KeywordSequence);; take_while fuel is_keyword_char
    else mret tt
  else mret tt.

(** The part of [GetSym] behind the white space, for the character [c]. *)
Definition lexToken (fuel : nat) (c : ascii) : M () :=
  if is_char 39 c then lexString fuel
  else if is_char 91 c then MATCH c NewBlock
  else if is_char 93 c then MATCH c EndBlock
  else if is_char 58 c then
    next ← char_at 1;
    if is_char 61 next then
      incPtr 2;; update (fun s => set_text ASSIGN (set_symc NUL (set_sym Assign s)))
    else incPtr 1;; update (fun s => set_text [c] (set_symc c (set_sym Colon s)))
  else if is_char 40 c then MATCH c NewTerm
  else if is_char 41 c then MATCH c EndTerm
  else if is_char 35 c then MATCH c Pound
  else if is_char 94 c then MATCH c Exit
  else if is_char 46 c then MATCH c Period
  else if is_char 45 c then
    l ← get;
    if starts_with SEPARATOR l then
      update (set_text []);; take_while fuel (is_char 45);; update (set_sym Separator)
    else lexOperator fuel
  else if ISOP c then lexOperator fuel
  else
    prim ← nextWordInBufferIsPrimitive;
    if prim : bool then
      incPtr (length PRIMITIVE);;
      update (fun s => set_text PRIMITIVE (set_symc NUL (set_sym Primitive s)))
    else if isalpha c then lexWord fuel
    else if isdigit c then lexNumber fuel
    else update (fun s => set_text [c] (set_symc c (set_sym NONE s))).

(** The [do ... while] loop in front of a token; [false] at the end of the
    input. *)
Fixpoint skip_loop (fuel : nat) : M bool :=
  match fuel with
  | O => fail OutOfFuel
  | S fuel =>
      more ← hasMoreInput fuel;
      if more : bool then
        skipWhiteSpace fuel;;
        skipComment fuel;;
        l ← get;
        if EOB l then skip_loop fuel
        else c ← BC; if isspace c || is_char 34 c then skip_loop fuel else mret true
      else mret false
  end.

Definition set_peek (b : bool) (l : Lexer) : Lexer :=
  mkLexer (infile l) b (state l) (stateAfterPeek l) (buf l).

Definition readSym (fuel : nat) : M Symbol :=
  more ← skip_loop fuel;
  if more : bool then
    update (fun s => set_startBufp (bufp s) s);;
    c ← BC;
    lexToken fuel c;;
    gets (fun l => sym (state l))
  else
    update (fun s => set_text [] (set_symc NUL (set_sym NONE s)));;
    mret NONE.

Definition GetSym_fuel (fuel : nat) : M Symbol :=
  l ← get;
  if peekDone l then
    modify (fun l => set_state (stateAfterPeek l) (set_peek false l));;
    gets (fun l => sym (state l))
  else readSym fuel.

(** What is left to read: the characters of the stream, one for the stream being
    good, and the characters of the line. *)
Definition remaining (l : Lexer) : nat :=
  match infile l with None => 0 | Some s => S (length s) end
  + (length (buf l) - bufp (state l)).

Definition GetSym : M Symbol := fun l => GetSym_fuel (S (S (remaining l))) l.

Definition Peek : M Symbol :=
  l ← get;
  if peekDone l then fail (ErrorExit "Cannot Peek twice!")
  else
    nextSym ← GetSym;
    modify (fun l' => mkLexer (infile l') true (state l) (state l') (buf l'));;
    mret nextSym.

Definition GetText (l : Lexer) : list ascii := text (state l).
Definition GetNextText (l : Lexer) : list ascii := text (stateAfterPeek l).
Definition GetCurrentLineNumber (l : Lexer) : nat := lineNumber (state l).
Definition GetCurrentColumn (l : Lexer) : Z :=
  u64 (Z.of_nat (startBufp (state l)) + 1 - Z.of_nat (length (text (state l)))).

(** ** Termination and memory safety

    The only read outside the buffer is one character past a backslash that ends
    a line inside a string.  A lexer is [clean] when no backslash is left in its
    input; [inv] says that the buffer pointer is inside the buffer then. *)

Definition clean (l : Lexer) : Prop :=
  Forall (fun c => is_char 92 c = false) (buf l)
  /\ match infile l with None => True | Some s => Forall (fun c => is_char 92 c = false) s end.

Definition inv (l : Lexer) : Prop := clean l -> (bufp (state l) <= length (buf l))%nat.

(** How a piece of the lexer may change the state. *)
Definition step (l l' : Lexer) : Prop :=
  inv l' /\ (remaining l' <= remaining l)%nat /\ (clean l -> clean l')
  /\ peekDone l' = peekDone l.

(** [ok m l Q]: from [l], [m] ends, with a result that satisfies [Q], or the input
    was not clean. *)
Definition ok {A} (m : M A) (l : Lexer) (Q : A -> Lexer -> Prop) : Prop :=
  match m l with
  | Ok (a, l') => Q a l'
  | Err Undef => ~ clean l
  | Err _ => False
  end.

Lemma step_refl l : inv l -> step l l.
Proof. by split. Qed.

Lemma step_trans l1 l2 l3 : step l1 l2 -> step l2 l3 -> step l1 l3.
Proof.
  intros (I1 & R1 & C1 & K1) (I2 & R2 & C2 & K2).
  split; [done|]. split; [lia|]. split; [auto|congruence].
Qed.

Lemma ok_bind {A B} (m : M A) (f : A -> M B) l Q R :
  ok m l R ->
  (forall a l', R a l' -> (clean l -> clean l') /\ ok (f a) l' Q) ->
  ok (m ≫= f) l Q.
Proof.
  unfold ok, mbind, stateful_bind. destruct (m l) as [[a l']|e]; [|by destruct e].
  intros HR HF. destruct (HF a l' HR) as [HC HO]. destruct (f a l') as [[b l'']|e']; [done|].
  destruct e'; auto.
Qed.

Lemma ok_ret {A} (a : A) l (Q : A -> Lexer -> Prop) : Q a l -> ok (mret a) l Q.
Proof. done. Qed.

Lemma ok_mono {A} (m : M A) l (Q R : A -> Lexer -> Prop) :
  ok m l Q -> (forall a l', Q a l' -> R a l') -> ok m l R.
Proof. unfold ok. destruct (m l) as [[a l']|e]; auto. Qed.

(** *** Primitive operations *)

Lemma BC_ok l :
  inv l ->
  ok BC l (fun c l' => l' = l /\ (buf l !! bufp (state l) = Some c
                                  \/ bufp (state l) = length (buf l) /\ c = NUL)).
Proof.
  intros HI. unfold ok, BC, char_at, buf_at. rewrite Nat.add_0_r.
  destruct (buf l !! bufp (state l)) as [c|] eqn:E.
  - split; [done|]. by left.
  - apply lookup_ge_None in E. destruct (Nat.eqb_spec (bufp (state l)) (length (buf l))).
    + split; [done|]. by right.
    + intros C. specialize (HI C). lia.
Qed.

Lemma char_at_1_ok l :
  (bufp (state l) < length (buf l))%nat -> ok (char_at 1) l (fun c l' => l' = l).
Proof.
  intros HI. unfold ok, char_at, buf_at. destruct (_ !! _) as [c|] eqn:E; [done|].
  apply lookup_ge_None in E. destruct (Nat.eqb_spec (bufp (state l) + 1) (length (buf l))); [done|lia].
Qed.

(** Moving inside the line. *)
Lemma incPtr_ok v l :
  (bufp (state l) + v <= length (buf l))%nat ->
  ok (incPtr v) l (fun _ l' => step l l' /\ (remaining l' + v <= remaining l)%nat
                               /\ buf l' = buf l /\ bufp (state l') = (bufp (state l) + v)%nat).
Proof.
  intros H. unfold ok, incPtr, update, modify, step, inv, remaining. cbn.
  assert (forall k, k + (length (buf l) - (bufp (state l) + v)) + v
                    <= k + (length (buf l) - bufp (state l)))%nat as HR by lia.
  split; [split; [done|split; [|done]]|split; [|done]].
  - etransitivity; [|apply HR]. lia.
  - apply HR.
Qed.

(** An update that leaves the buffer pointer. *)
Definition pure_update (f : LexerState -> LexerState) : Prop := forall s, bufp (f s) = bufp s.

Lemma update_ok f l :
  pure_update f -> inv l ->
  ok (update f) l (fun _ l' => step l l' /\ remaining l' = remaining l /\ buf l' = buf l
                               /\ bufp (state l') = bufp (state l)).
Proof.
  intros Hf HI. unfold ok, update, modify, step, inv, remaining, clean in *. cbn.
  rewrite Hf. done.
Qed.

Lemma add_text_ok c l :
  inv l ->
  ok (add_text c) l (fun _ l' => step l l' /\ remaining l' = remaining l /\ buf l' = buf l
                                 /\ bufp (state l') = bufp (state l)).
Proof. by apply update_ok. Qed.

Lemma getline_spec s line rest :
  getline s = (line, rest) ->
  match rest with
  | None => s = line
  | Some r => exists c, s = line ++ c :: r
  end.
Proof.
  revert line rest. induction s as [|c s IH]; intros line rest; cbn [getline].
  - by intros [= <- <-].
  - destruct (chr c =? 10); [intros [= <- <-]; by exists c|].
    destruct (getline s) as [l0 r0]. intros [= <- <-]. specialize (IH _ _ eq_refl).
    destruct r0 as [r|]; [|by subst]. destruct IH as [d ->]. by exists d.
Qed.

Lemma fillBuffer_ok l :
  EOB l = true ->
  ok fillBuffer l (fun b l' =>
    ((clean l -> clean l') /\ peekDone l' = peekDone l)
    /\ if b : bool then inv l' /\ (remaining l' < remaining l)%nat else l' = l).
Proof.
  unfold EOB. intros HE%Nat.leb_le. unfold ok, fillBuffer, clean.
  destruct (infile l) as [s|] eqn:E; [|split; [split; [by rewrite E|done]|done]].
  destruct (getline s) as [line rest] eqn:G. apply getline_spec in G. unfold inv, remaining. cbn.
  rewrite E. destruct rest as [r|]; cbn.
  - destruct G as [c ->]. rewrite length_app. cbn [length].
    split; [split; [|done]|split; [intros; lia|lia]]. intros [_ H]. apply Forall_app in H as [H1 H2]. by apply Forall_cons_iff in H2 as [_ H2].
  - subst line. split; [split; [by intros [_ H]|done]|]. split; [intros; lia|lia].
Qed.

Lemma hasMoreInput_ok fuel l :
  inv l -> (remaining l < fuel)%nat ->
  ok (hasMoreInput fuel) l (fun b l' =>
    step l l' /\ if b : bool then (bufp (state l') < length (buf l'))%nat else True).
Proof.
  revert l. induction fuel as [|fuel IH]; intros l HI Hf; [lia|].
  unfold ok. cbn [hasMoreInput]. destruct (EOB l) eqn:HE.
  - eapply (ok_bind fillBuffer (fun b : bool => if b then hasMoreInput fuel else mret false));
      [by apply fillBuffer_ok|].
    intros [] l' [[HC HK] HR].
    + destruct HR as [HI' HR]. split; [done|]. eapply ok_mono; [apply IH; [done|lia]|].
      intros b l'' [HS HB]. split; [|done]. apply (step_trans _ l'); [|done].
      split; [done|]. split; [lia|done].
    + subst l'. split; [done|]. apply ok_ret. split; [by apply step_refl|done].
  - unfold EOB in HE. apply Nat.leb_gt in HE. split; [by apply step_refl|done].
Qed.

(** A character other than the null character is inside the line. *)
Lemma BC_inside l c :
  buf l !! bufp (state l) = Some c \/ bufp (state l) = length (buf l) /\ c = NUL ->
  c <> NUL -> (bufp (state l) + 1 <= length (buf l))%nat.
Proof. intros [H|[_ ->]] Hc; [|done]. apply lookup_lt_Some in H. lia. Qed.

Lemma class_not_NUL (p : ascii -> bool) c : p NUL = false -> p c = true -> c <> NUL.
Proof. by intros H1 H2 ->; rewrite H1 in H2. Qed.

(** *** Loops *)

(** The next character is in a class. *)
Definition at_char (l : Lexer) (p : ascii -> bool) : Prop :=
  match buf l !! bufp (state l) with Some c => p c = true | None => False end.

Lemma not_at_char l p c :
  buf l !! bufp (state l) = Some c \/ bufp (state l) = length (buf l) /\ c = NUL ->
  p c = false -> ~ at_char l p.
Proof.
  unfold at_char. intros [->|[E _]] H; [congruence|].
  rewrite (proj2 (lookup_ge_None _ _)) by lia. by intros [].
Qed.

(** Moving on. *)
Definition progress (l l' : Lexer) : Prop := step l l' /\ (remaining l' < remaining l)%nat.

Lemma step_progress l1 l2 l3 : step l1 l2 -> progress l2 l3 -> progress l1 l3.
Proof. intros S1 [S2 R2]. split; [eauto using step_trans|]. destruct S1 as (_ & R1 & _). lia. Qed.

Lemma progress_step l1 l2 l3 : progress l1 l2 -> step l2 l3 -> progress l1 l3.
Proof. intros [S1 R1] S2. split; [eauto using step_trans|]. destruct S2 as (_ & R2 & _). lia. Qed.

Lemma take_while_ok fuel p l :
  p NUL = false -> inv l -> (remaining l < fuel)%nat ->
  ok (take_while fuel p) l (fun _ l' => step l l' /\ (at_char l p -> progress l l')).
Proof.
  intros Hp. revert l. induction fuel as [|fuel IH]; intros l HI Hf; [lia|].
  cbn [take_while]. eapply ok_bind; [by apply BC_ok|]. intros c l0 [-> Hc]. split; [done|].
  destruct (p c) eqn:Ep.
  2: { apply ok_ret. split; [by apply step_refl|]. intros H. by destruct (not_at_char l p c Hc Ep). }
  pose proof (BC_inside l c Hc (class_not_NUL p c Hp Ep)) as Hin.
  eapply ok_bind; [by apply add_text_ok|]. intros [] l1 (S1 & R1 & B1 & P1).
  split; [apply S1|]. eapply ok_bind; [apply incPtr_ok; rewrite B1, P1; exact Hin|].
  intros [] l2 (S2 & R2 & B2 & P2). split; [apply S2|].
  eapply ok_mono; [apply IH; [apply S2|lia]|]. intros [] l3 [S3 _].
  assert (progress l l3) as HP; [|split; [apply HP|done]].
  apply (step_progress _ l1), (progress_step _ l2); [done|split; [done|lia]|done].
Qed.

(** Skipping leaves the state or moves on. *)
Definition skipped (p : ascii -> bool) (l l' : Lexer) : Prop :=
  step l l' /\ (l' = l /\ ~ at_char l p \/ (remaining l' < remaining l)%nat).

Lemma skipWhiteSpace_ok fuel l :
  inv l -> (remaining l < fuel)%nat ->
  ok (skipWhiteSpace fuel) l (fun _ l' => skipped isspace l l').
Proof.
  revert l. induction fuel as [|fuel IH]; intros l HI Hf; [lia|].
  cbn [skipWhiteSpace]. eapply ok_bind; [by apply BC_ok|]. intros c l0 [-> Hc]. split; [done|].
  destruct (isspace c) eqn:Ep.
  2: { apply ok_ret. split; [by apply step_refl|]. left. eauto using not_at_char. }
  pose proof (BC_inside l c Hc (class_not_NUL isspace c eq_refl Ep)) as Hin.
  eapply ok_bind; [apply incPtr_ok; exact Hin|].
  intros [] l1 (S1 & R1 & B1 & P1). split; [apply S1|].
  eapply ok_bind; [apply hasMoreInput_ok; [apply S1|lia]|].
  intros b l2 [S2 Hb]. split; [apply S2|]. pose proof S2 as (I2 & R2 & _). destruct b.
  - eapply ok_mono; [apply IH; [done|lia]|]. intros [] l3 [S3 _].
    pose proof S3 as (_ & R3 & _). split; [eauto using step_trans|]. right. lia.
  - apply ok_ret. split; [eauto using step_trans|]. right. lia.
Qed.

Lemma skip_to_quote_ok fuel l :
  (bufp (state l) < length (buf l))%nat -> (remaining l < fuel)%nat ->
  ok (skip_to_quote fuel) l (fun b l' =>
    step l l' /\ (remaining l' < remaining l)%nat
    /\ if b : bool then (bufp (state l') < length (buf l'))%nat else True).
Proof.
  revert l. induction fuel as [|fuel IH]; intros l Hin Hf; [lia|].
  cbn [skip_to_quote]. eapply ok_bind; [apply (incPtr_ok 1); lia|].
  intros [] l1 (S1 & R1 & B1 & P1). split; [apply S1|].
  eapply ok_bind; [apply hasMoreInput_ok; [apply S1|lia]|].
  intros b l2 [S2 Hb]. split; [apply S2|]. pose proof S2 as (I2 & R2 & _). destruct b.
  - eapply ok_bind; [by apply BC_ok|]. intros c l0 [-> Hc]. split; [done|].
    destruct (is_char 34 c).
    + apply ok_ret. split; [eauto using step_trans|]. split; [lia|done].
    + eapply ok_mono; [apply IH; [done|lia]|]. intros b l3 (S3 & R3 & Hb3).
      split; [eauto using step_trans|]. split; [lia|done].
  - apply ok_ret. split; [eauto using step_trans|]. split; [lia|done].
Qed.

Lemma skipComment_ok fuel l :
  inv l -> (remaining l < fuel)%nat ->
  ok (skipComment fuel) l (fun _ l' => skipped (is_char 34) l l').
Proof.
  intros HI Hf. unfold skipComment. eapply ok_bind; [by apply BC_ok|].
  intros c l0 [-> Hc]. split; [done|]. destruct (is_char 34 c) eqn:Ep.
  2: { apply ok_ret. split; [by apply step_refl|]. left. eauto using not_at_char. }
  pose proof (BC_inside l c Hc (class_not_NUL (is_char 34) c eq_refl Ep)) as Hin.
  eapply ok_bind; [apply skip_to_quote_ok; lia|]. intros b l1 (S1 & R1 & Hb).
  split; [apply S1|]. destruct b.
  - eapply ok_mono; [apply (incPtr_ok 1); lia|]. intros [] l2 (S2 & R2 & _).
    split; [eauto using step_trans|]. right. lia.
  - apply ok_ret. split; [done|]. right. lia.
Qed.

Lemma skip_loop_ok fuel l :
  inv l -> (remaining l + 1 < fuel)%nat ->
  ok (skip_loop fuel) l (fun b l' =>
    step l l' /\ if b : bool then (bufp (state l') < length (buf l'))%nat else True).
Proof.
  revert l. induction fuel as [|fuel IH]; intros l HI Hf; [lia|].
  cbn [skip_loop]. eapply ok_bind; [apply hasMoreInput_ok; [done|lia]|].
  intros b l1 [S1 Hb]. split; [apply S1|]. pose proof S1 as (I1 & R1 & _).
  destruct b; [|apply ok_ret; done].
  eapply ok_bind; [apply skipWhiteSpace_ok; [done|lia]|]. intros [] l2 [S2 H2].
  pose proof S2 as (I2 & R2 & _). split; [apply S2|].
  eapply ok_bind; [apply skipComment_ok; [done|lia]|]. intros [] l3 [S3 H3].
  pose proof S3 as (I3 & R3 & _). split; [apply S3|].
  assert (step l l3) as S13 by eauto using step_trans.
  assert (remaining l3 < remaining l -> ok (skip_loop fuel) l3 (fun b l' =>
    step l l' /\ if b : bool then (bufp (state l') < length (buf l'))%nat else True))%nat as Hrec.
  { intros Hlt. eapply ok_mono; [apply IH; [done|lia]|]. intros b l4 [S4 Hb4].
    split; [eauto using step_trans|done]. }
  eapply ok_bind; [instantiate (1 := fun a l' => a = l3 /\ l' = l3); done|].
  intros ? ? [-> ->]. split; [done|].
  destruct H3 as [[-> H3]|H3]; [|].
  - destruct H2 as [[-> H2]|H2].
    + assert (EOB l1 = false) as -> by (unfold EOB; apply Nat.leb_gt; done).
      eapply ok_bind; [by apply BC_ok|]. intros c ? [-> Hc]. split; [done|].
      destruct Hc as [Hc|[Hc _]]; [|lia]. unfold at_char in H2, H3. rewrite Hc in H2, H3.
      destruct (isspace c); [done|]. destruct (is_char 34 c); [done|]. apply ok_ret. done.
    + destruct (EOB l2) eqn:HE; [apply Hrec; lia|].
      eapply ok_bind; [by apply BC_ok|]. intros c ? [-> Hc]. split; [done|].
      destruct (_ || _); [apply Hrec; lia|]. apply ok_ret. split; [done|].
      unfold EOB in HE. by apply Nat.leb_gt in HE.
  - destruct (EOB l3) eqn:HE; [apply Hrec; lia|].
    eapply ok_bind; [by apply BC_ok|]. intros c ? [-> Hc]. split; [done|].
    destruct (_ || _); [apply Hrec; lia|]. apply ok_ret. split; [done|].
    unfold EOB in HE. by apply Nat.leb_gt in HE.
Qed.

(** *** Tokens *)

Lemma number_loop_ok fuel saw l :
  (bufp (state l) < length (buf l))%nat -> (remaining l < fuel)%nat ->
  ok (number_loop fuel saw) l (fun _ l' => progress l l').
Proof.
  revert saw l. induction fuel as [|fuel IH]; intros saw l Hin Hf; [lia|].
  assert (inv l) as HI by (intros _; lia).
  cbn [number_loop]. eapply ok_bind; [by apply BC_ok|]. intros c ? [-> Hc]. split; [done|].
  eapply ok_bind; [by apply add_text_ok|]. intros [] l1 (S1 & R1 & B1 & P1). split; [apply S1|].
  eapply ok_bind; [apply (incPtr_ok 1); rewrite B1, P1; lia|].
  intros [] l2 (S2 & R2 & B2 & P2). split; [apply S2|]. pose proof S2 as (I2 & _ & _).
  eapply ok_bind; [instantiate (1 := fun a l' => a = l2 /\ l' = l2); done|].
  intros ? ? [-> ->]. split; [done|].
  eapply ok_bind; [by apply BC_ok|]. intros dot ? [-> Hdot]. split; [done|].
  set (cond := negb saw && is_char 46 dot && (bufp (state l2) + 1 <? length (buf l2))%nat).
  eapply ok_bind with (R := fun (m : bool) l' => l' = l2 /\ (m = true -> cond = true)).
  { destruct cond eqn:Ec; [|by apply ok_ret].
    eapply ok_bind; [apply char_at_1_ok|].
    - subst cond. apply andb_prop in Ec as [_ Ec]. apply Nat.ltb_lt in Ec. lia.
    - intros d ? ->. split; [done|]. apply ok_ret. done. }
  intros mark ? [-> Hm]. split; [done|].
  eapply ok_bind with (R := fun _ l' => step l2 l').
  { destruct mark; [|apply ok_ret; by apply step_refl].
    specialize (Hm eq_refl). subst cond. apply andb_prop in Hm as [_ Hm].
    apply Nat.ltb_lt in Hm.
    eapply ok_bind; [by apply (update_ok (set_sym Double))|].
    intros [] l3 (S3 & R3 & B3 & P3). split; [apply S3|].
    eapply ok_bind; [apply add_text_ok, S3|]. intros [] l4 (S4 & R4 & B4 & P4). split; [apply S4|].
    eapply ok_mono; [apply (incPtr_ok 1); rewrite B4, B3, P4, P3; lia|].
    intros [] l5 (S5 & _). eauto using step_trans. }
  intros [] l3 S3. pose proof S3 as (I3 & R3 & _). split; [apply S3|].
  eapply ok_bind; [by apply BC_ok|]. intros d ? [-> Hd]. split; [done|].
  assert (progress l l3) as HP.
  { apply (step_progress _ l1), (progress_step _ l2); [done|split; [done|lia]|done]. }
  destruct (isdigit d) eqn:Ed; [|by apply ok_ret].
  pose proof (BC_inside l3 d Hd (class_not_NUL isdigit d eq_refl Ed)) as Hin3.
  eapply ok_mono; [apply IH; [lia|destruct HP; lia]|]. intros [] l4 [S4 _].
  eauto using progress_step.
Qed.

Lemma lexNumber_ok fuel l :
  (bufp (state l) < length (buf l))%nat -> (remaining l < fuel)%nat ->
  ok (lexNumber fuel) l (fun _ l' => progress l l').
Proof.
  intros Hin Hf. unfold lexNumber. eapply ok_bind; [apply update_ok; [done|intros _; lia]|].
  intros [] l1 (S1 & R1 & B1 & P1). split; [apply S1|].
  eapply ok_mono; [apply number_loop_ok; [rewrite B1, P1; lia|lia]|].
  intros [] l2 S2. eauto using step_progress.
Qed.

(** After a backslash the pointer may leave the line, but the input is not clean. *)
Lemma lexStringChar_ok l :
  (bufp (state l) < length (buf l))%nat ->
  ok lexStringChar l (fun _ l' => step l l' /\ (remaining l' < remaining l)%nat).
Proof.
  intros Hin. unfold lexStringChar. assert (inv l) as HI by (intros _; lia).
  eapply ok_bind; [by apply BC_ok|]. intros c ? [-> Hc]. split; [done|].
  destruct (is_char 92 c) eqn:E92.
  - assert (~ clean l) as HC.
    { intros [HB _]. destruct Hc as [Hc|[_ ->]]; [|done].
      rewrite Forall_lookup in HB. apply HB in Hc. congruence. }
    assert (forall st p, bufp st = (bufp (state l) + S p)%nat ->
      step l (set_state st l) /\ (remaining (set_state st l) < remaining l)%nat) as Hend.
    { intros st p Ep. unfold step, inv, remaining. cbn [state set_state buf infile].
      rewrite Ep. split; [|lia]. split; [intros C; by destruct (HC C)|]. split; [lia|]. split; [exact id|done]. }
    unfold ok, mbind, stateful_bind, incPtr, update, modify. cbn [mbind].
    unfold lexEscapeChar, mbind, stateful_bind, BC, char_at, buf_at. cbn.
    destruct (buf l !! (bufp (state l) + 1 + 0)%nat) as [e|];
      [destruct (escape e)
      |destruct (bufp (state l) + 1 + 0 =? length (buf l))%nat; [destruct (escape zero)|exact HC]];
      cbn; match goal with
           | |- step _ (set_state ?st _) /\ _ => apply (Hend st 1%nat); cbn; lia
           end.
  - eapply ok_bind; [by apply add_text_ok|]. intros [] l1 (S1 & R1 & B1 & P1). split; [apply S1|].
    eapply ok_mono; [apply (incPtr_ok 1); rewrite B1, P1; lia|].
    intros [] l2 (S2 & R2 & _). split; [eauto using step_trans|lia].
Qed.

Lemma fill_string_ok fuel l :
  inv l -> (remaining l < fuel)%nat ->
  ok (fill_string fuel) l (fun b l' =>
    step l l' /\ if b : bool then (bufp (state l') < length (buf l'))%nat else True).
Proof.
  revert l. induction fuel as [|fuel IH]; intros l HI Hf; [lia|].
  unfold ok. cbn [fill_string]. destruct (EOB l) eqn:HE.
  - eapply (ok_bind fillBuffer (fun b : bool =>
      if b then add_text (of_chr 10);; fill_string fuel else mret false));
      [by apply fillBuffer_ok|].
    intros [] l' [[HC HK] HR].
    + destruct HR as [HI' HR]. split; [done|].
      eapply ok_bind; [by apply add_text_ok|]. intros [] l1 (S1 & R1 & B1 & P1).
      split; [apply S1|]. eapply ok_mono; [apply IH; [apply S1|lia]|].
      intros b l'' [HS HB]. split; [|done]. apply (step_trans _ l1); [|done].
      apply (step_trans _ l'); [|done]. split; [done|]. split; [lia|done].
    + subst l'. split; [done|]. apply ok_ret. split; [by apply step_refl|done].
  - unfold EOB in HE. apply Nat.leb_gt in HE. split; [by apply step_refl|done].
Qed.

Lemma string_loop_ok fuel l :
  inv l -> (remaining l + 1 < fuel)%nat -> ok (string_loop fuel) l (fun _ l' => step l l').
Proof.
  revert l. induction fuel as [|fuel IH]; intros l HI Hf; [lia|].
  cbn [string_loop]. eapply ok_bind; [by apply BC_ok|]. intros c ? [-> Hc]. split; [done|].
  destruct (is_char 39 c) eqn:E.
  { eapply ok_mono; [apply (incPtr_ok 1), (BC_inside l c Hc), (class_not_NUL (is_char 39)); done|].
    by intros [] l1 (S1 & _). }
  eapply ok_bind; [apply fill_string_ok; [done|lia]|]. intros b l1 [S1 Hb].
  split; [apply S1|]. pose proof S1 as (I1 & R1 & _). destruct b; [|by apply ok_ret].
  eapply ok_bind; [by apply BC_ok|]. intros d ? [-> Hd]. split; [done|].
  destruct (is_char 39 d) eqn:E'.
  - eapply ok_bind; [by apply (ok_ret tt l1 (fun _ l' => l' = l1))|]. intros [] ? ->. split; [done|].
    destruct fuel as [|fuel]; [lia|]. cbn [string_loop].
    eapply ok_bind; [by apply BC_ok|]. intros e ? [-> He]. split; [done|].
    assert (e = d) as ->.
    { destruct Hd as [Hd|[Hd _]], He as [He|[He _]]; [congruence|lia|lia|lia]. }
    rewrite E'. eapply ok_mono; [apply (incPtr_ok 1); lia|].
    intros [] l2 (S2 & _). eauto using step_trans.
  - eapply ok_bind; [by apply lexStringChar_ok|]. intros [] l2 [S2 R2]. split; [apply S2|].
    eapply ok_mono; [apply IH; [apply S2|lia]|]. intros [] l3 S3. eauto using step_trans.
Qed.

Lemma lexString_ok fuel l :
  (bufp (state l) < length (buf l))%nat -> (remaining l < fuel)%nat ->
  ok (lexString fuel) l (fun _ l' => progress l l').
Proof.
  intros Hin Hf. unfold lexString. eapply ok_bind; [apply update_ok; [done|intros _; lia]|].
  intros [] l1 (S1 & R1 & B1 & P1). split; [apply S1|].
  eapply ok_bind; [apply (incPtr_ok 1); rewrite B1, P1; lia|].
  intros [] l2 (S2 & R2 & _). split; [apply S2|].
  eapply ok_mono; [apply string_loop_ok; [apply S2|lia]|].
  intros [] l3 S3. apply (step_progress _ l1), (progress_step _ l2); [done|split; [done|lia]|done].
Qed.

Lemma MATCH_ok c y l :
  (bufp (state l) < length (buf l))%nat -> ok (MATCH c y) l (fun _ l' => progress l l').
Proof.
  intros Hin. unfold MATCH. eapply ok_bind; [apply update_ok; [done|intros _; lia]|].
  intros [] l1 (S1 & R1 & B1 & P1). split; [apply S1|].
  eapply ok_mono; [apply (incPtr_ok 1); rewrite B1, P1; lia|].
  intros [] l2 (S2 & R2 & _). apply (step_progress _ l1); [done|split; [done|lia]].
Qed.

Lemma operator_symbol_None c : operator_symbol c = None -> ISOP c = false.
Proof. unfold operator_symbol, ISOP. by repeat (destruct (is_char _ c); [done|]). Qed.

Lemma lexOperator_ok fuel c l :
  buf l !! bufp (state l) = Some c -> ISOP c = true -> (remaining l < fuel)%nat ->
  ok (lexOperator fuel) l (fun _ l' => progress l l').
Proof.
  intros Hc Hop Hf. assert (bufp (state l) < length (buf l))%nat as Hin by (by eapply lookup_lt_Some).
  assert (inv l) as HI by (intros _; lia). unfold lexOperator.
  eapply ok_bind; [by apply char_at_1_ok|]. intros n ? ->. split; [done|].
  destruct (ISOP n).
  - eapply ok_bind; [by apply update_ok|]. intros [] l1 (S1 & R1 & B1 & P1). split; [apply S1|].
    eapply ok_mono; [apply take_while_ok; [done|apply S1|lia]|].
    intros [] l2 [_ S2]. apply (step_progress _ l1); [done|]. apply S2. unfold at_char.
    by rewrite B1, P1, Hc.
  - eapply ok_bind; [by apply BC_ok|]. intros d ? [-> Hd]. split; [done|].
    assert (d = c) as -> by (destruct Hd as [Hd|[Hd _]]; [congruence|lia]).
    destruct (operator_symbol c) eqn:E; [by apply MATCH_ok|]. by rewrite (operator_symbol_None c E) in Hop.
Qed.

Lemma lexWord_ok fuel c l :
  buf l !! bufp (state l) = Some c -> isalpha c = true -> (remaining l < fuel)%nat ->
  ok (lexWord fuel) l (fun _ l' => progress l l').
Proof.
  intros Hc Ha Hf. assert (inv l) as HI by (intros _; apply lookup_lt_Some in Hc; lia).
  unfold lexWord. eapply ok_bind; [by apply update_ok|].
  intros [] l1 (S1 & R1 & B1 & P1). split; [apply S1|].
  eapply ok_bind; [apply take_while_ok; [done|apply S1|lia]|]. intros [] l2 [S2 HP].
  assert (progress l l2) as HP2.
  { apply (step_progress _ l1); [done|]. apply HP. unfold at_char, is_ident_char.
    by rewrite B1, P1, Hc, Ha. }
  clear HP. split; [apply S2|]. pose proof S2 as (I2 & R2 & _).
  eapply ok_bind; [by apply update_ok|]. intros [] l3 (S3 & R3 & _). split; [apply S3|].
  pose proof S3 as (I3 & _ & _).
  assert (progress l l3) as S13 by eauto using progress_step.
  eapply ok_bind; [by apply BC_ok|]. intros d ? [-> Hd]. split; [done|].
  destruct (is_char 58 d) eqn:E; [|by apply ok_ret].
  pose proof (BC_inside l3 d Hd (class_not_NUL (is_char 58) d eq_refl E)) as Hin.
  eapply ok_bind; [by apply update_ok|]. intros [] l4 (S4 & R4 & B4 & P4). split; [apply S4|].
  eapply ok_bind; [apply (incPtr_ok 1); rewrite B4, P4; lia|].
  intros [] l5 (S5 & R5 & _). split; [apply S5|].
  eapply ok_bind; [apply add_text_ok, S5|]. intros [] l6 (S6 & R6 & _). split; [apply S6|].
  assert (progress l l6) as S16 by eauto 8 using step_trans, progress_step.
  pose proof S6 as (I6 & _ & _).
  eapply ok_bind; [by apply BC_ok|]. intros e ? [-> He]. split; [done|].
  destruct (isalpha e); [|by apply ok_ret].
  eapply ok_bind; [by apply update_ok|]. intros [] l7 (S7 & R7 & _). split; [apply S7|].
  eapply ok_mono; [apply take_while_ok; [done|apply S7|lia]|].
  intros [] l8 [S8 _]. eauto using step_trans, progress_step.
Qed.

Lemma starts_with_length w l :
  starts_with w l = true -> (0 < length w)%nat ->
  (bufp (state l) + length w <= length (buf l))%nat.
Proof.
  unfold starts_with. intros H%bool_decide_eq_true Hw.
  apply (f_equal length) in H. unfold substr in H. rewrite length_take, length_drop in H. lia.
Qed.

Lemma isPrimitive_ok l :
  (bufp (state l) < length (buf l))%nat ->
  ok nextWordInBufferIsPrimitive l (fun b l' => l' = l /\
    (b = true -> (bufp (state l) + length PRIMITIVE <= length (buf l))%nat)).
Proof.
  intros Hin. unfold nextWordInBufferIsPrimitive.
  eapply ok_bind; [instantiate (1 := fun a l' => a = l /\ l' = l); done|].
  intros ? ? [-> ->]. split; [done|]. destruct (starts_with PRIMITIVE l) eqn:E.
  - apply starts_with_length in E; [|cbn; lia].
    destruct (Nat.leb_spec (length (buf l)) (bufp (state l) + length PRIMITIVE)); [by apply ok_ret|].
    unfold ok, mbind, stateful_bind, char_at, buf_at.
    destruct (_ !! _) eqn:El; [done|]. apply lookup_ge_None in El. lia.
  - by apply ok_ret.
Qed.

(** A symbol is read only by moving on. *)
Definition weight (y : Symbol) : nat := if decide (y = NONE) then 0 else 1.

Definition symbol_read (l l' : Lexer) : Prop :=
  step l l' /\ (remaining l' + weight (sym (state l')) <= remaining l)%nat.

Lemma progress_symbol l l' : progress l l' -> symbol_read l l'.
Proof. intros [HS HR]. split; [done|]. unfold weight. case_decide; lia. Qed.

Lemma ok_progress m l : ok m l (fun (_ : ()) l' => progress l l') -> ok m l (fun _ l' => symbol_read l l').
Proof. intros H. eapply ok_mono; [exact H|]. intros ? l'. apply progress_symbol. Qed.

(** Moving the pointer and then setting the symbol. *)
Lemma inc_update_ok v f l :
  pure_update f -> (0 < v)%nat -> (bufp (state l) + v <= length (buf l))%nat ->
  ok (incPtr v;; update f) l (fun _ l' => progress l l').
Proof.
  intros Hf Hv Hin. eapply ok_bind; [by apply incPtr_ok|]. intros [] l1 (S1 & R1 & _).
  split; [apply S1|]. eapply ok_mono; [apply update_ok; [done|apply S1]|]. intros [] l2 (S2 & _).
  apply (progress_step _ l1); [|done]. split; [done|lia].
Qed.

Lemma lexSeparator_ok fuel l :
  at_char l (is_char 45) -> (remaining l < fuel)%nat ->
  ok (update (set_text []);; take_while fuel (is_char 45);; update (set_sym Separator)) l
    (fun _ l' => progress l l').
Proof.
  unfold at_char. intros Hc Hf. destruct (buf l !! _) as [c|] eqn:E; [|done].
  eapply ok_bind; [apply update_ok; [done|]|].
  { intros _. apply lookup_lt_Some in E. lia. }
  intros [] l1 (S1 & R1 & B1 & P1). split; [apply S1|].
  eapply ok_bind; [apply take_while_ok; [done|apply S1|lia]|]. intros [] l2 [S2 HP].
  split; [apply S2|]. eapply ok_mono; [apply update_ok; [done|apply S2]|].
  intros [] l3 (S3 & _). apply (progress_step _ l2); [|done]. apply (step_progress _ l1); [done|].
  apply HP. unfold at_char. by rewrite B1, P1, E.
Qed.

Lemma lexToken_ok fuel c l :
  buf l !! bufp (state l) = Some c -> (remaining l < fuel)%nat ->
  ok (lexToken fuel c) l (fun _ l' => symbol_read l l').
Proof.
  intros Hc Hf. assert (bufp (state l) < length (buf l))%nat as Hin by (by eapply lookup_lt_Some).
  assert (inv l) as HI by (intros _; lia). unfold lexToken.
  destruct (is_char 39 c); [by apply ok_progress, lexString_ok|].
  destruct (is_char 91 c); [by apply ok_progress, MATCH_ok|].
  destruct (is_char 93 c); [by apply ok_progress, MATCH_ok|].
  destruct (is_char 58 c).
  { apply ok_progress. eapply ok_bind; [instantiate (1 := fun d l' => l' = l /\
        (is_char 61 d = true -> bufp (state l) + 2 <= length (buf l))%nat)|].
    - unfold ok, char_at, buf_at. destruct (buf l !! (bufp (state l) + 1)%nat) as [d|] eqn:El.
      + split; [done|]. intros _. apply lookup_lt_Some in El. lia.
      + apply lookup_ge_None in El.
        destruct (Nat.eqb_spec (bufp (state l) + 1) (length (buf l))); [done|lia].
    - intros d ? [-> Hd]. split; [done|].
      destruct (is_char 61 d); apply inc_update_ok; try done; [lia|auto|lia|lia]. }
  do 5 (destruct (is_char _ c) in |- *; [by apply ok_progress, MATCH_ok|]).
  destruct (is_char 45 c) eqn:E45.
  { apply ok_progress. eapply ok_bind; [instantiate (1 := fun a l' => a = l /\ l' = l); done|].
    intros ? ? [-> ->]. split; [done|]. destruct (starts_with SEPARATOR l).
    - apply lexSeparator_ok; [|done]. unfold at_char. by rewrite Hc.
    - apply (lexOperator_ok _ c); [done| |done]. unfold ISOP. rewrite E45. apply orb_true_r. }
  destruct (ISOP c) eqn:Eop; [by apply ok_progress, (lexOperator_ok _ c)|].
  eapply ok_bind; [by apply isPrimitive_ok|]. intros b ? [-> Hb]. split; [done|]. destruct b.
  { apply ok_progress, inc_update_ok; [done|cbn; lia|auto]. }
  destruct (isalpha c) eqn:Ea; [by apply ok_progress, (lexWord_ok _ c)|].
  destruct (isdigit c); [by apply ok_progress, lexNumber_ok|].
  destruct (update_ok (fun s => set_text [c] (set_symc c (set_sym NONE s))) l ltac:(done) HI)
    as (S1 & R1 & _). split; [exact S1|].
  replace (weight _) with 0%nat by done. rewrite Nat.add_0_r. apply Nat.eq_le_incl, R1.
Qed.

Lemma readSym_ok l :
  inv l -> ok (readSym (S (S (remaining l)))) l (fun y l' => symbol_read l l' /\ y = sym (state l')).
Proof.
  intros HI. unfold readSym. eapply ok_bind; [apply skip_loop_ok; [done|lia]|].
  intros b l1 [S1 Hb]. split; [apply S1|]. pose proof S1 as (I1 & R1 & _). destruct b.
  - eapply ok_bind; [by apply update_ok|]. intros [] l2 (S2 & R2 & B2 & P2). split; [apply S2|].
    eapply ok_bind; [apply BC_ok, S2|]. intros c ? [-> Hc]. split; [done|].
    destruct Hc as [Hc|[Hc _]]; [|rewrite B2, P2 in Hc; lia].
    eapply ok_bind; [apply lexToken_ok; [done|lia]|]. intros [] l3 [S3 R3]. split; [apply S3|].
    unfold ok, gets. split; [|done]. split; [eauto using step_trans|lia].
  - eapply ok_bind with (R := fun _ l2 => step l1 l2 /\ sym (state l2) = NONE).
    { split; [|done]. by apply (update_ok (fun s => set_text [] (set_symc NUL (set_sym NONE s))) l1). }
    intros [] l2 [S2 E2]. split; [apply S2|]. apply ok_ret. split; [|done].
    split; [eauto using step_trans|]. rewrite E2. replace (weight NONE) with 0%nat by done.
    destruct S2 as (_ & R2 & _). lia.
Qed.

(** A lexer between two calls: also the state that a peek has left is inside the
    line. *)
Definition readable (l : Lexer) : Prop :=
  if peekDone l then inv (set_state (stateAfterPeek l) l) else inv l.

Lemma GetSym_eq l :
  GetSym l =
    if peekDone l
    then Ok (sym (stateAfterPeek l), set_state (stateAfterPeek l) (set_peek false l))
    else readSym (S (S (remaining l))) l.
Proof.
  unfold GetSym, GetSym_fuel, mbind, stateful_bind, get. by destruct (peekDone l).
Qed.

(** What is left to read for the caller: a symbol that has been peeked at is still to
    come. *)
Definition pending (l : Lexer) : nat :=
  if peekDone l
  then remaining (set_state (stateAfterPeek l) l) + weight (sym (stateAfterPeek l))
  else remaining l.

Lemma GetSym_ok l :
  readable l ->
  ok GetSym l (fun y l' => (readable l' /\ peekDone l' = false /\ y = sym (state l')
                            /\ (clean l -> clean l'))
                           /\ (pending l' + weight y <= pending l)%nat).
Proof.
  unfold readable, ok, pending. rewrite GetSym_eq. destruct (peekDone l) eqn:Ep; intros HI.
  - done.
  - pose proof (readSym_ok l HI) as H. unfold ok in H.
    destruct (readSym _ l) as [[y l']|e]; [|done]. destruct H as [[(I & R & C & K) HR] ->].
    rewrite K, Ep. done.
Qed.

Lemma Peek_ok l :
  readable l -> peekDone l = false ->
  ok Peek l (fun y l' => (readable l' /\ peekDone l' = true /\ (clean l -> clean l')
                          /\ y = sym (stateAfterPeek l') /\ state l' = state l)
                         /\ (pending l' <= pending l)%nat).
Proof.
  intros HI Ep. unfold Peek.
  eapply ok_bind; [instantiate (1 := fun a l' => a = l /\ l' = l); done|].
  intros ? ? [-> ->]. split; [done|]. rewrite Ep.
  eapply ok_bind; [by apply GetSym_ok|]. intros y l1 ((R1 & K1 & -> & C1) & HP). split; [done|].
  unfold readable in R1. rewrite K1 in R1. unfold pending in HP. rewrite K1 in HP. done.
Qed.

(** Peeking does not change what is read: the next [GetSym] gives the symbol that
    was peeked, and the state that reading it directly would have given. *)
Lemma Peek_GetSym l y l1 :
  peekDone l = false -> Peek l = Ok (y, l1) ->
  exists l2, GetSym l = Ok (y, l2)
    /\ GetSym l1 = Ok (y, set_state (state l2) (set_peek false l1))
    /\ infile l1 = infile l2 /\ buf l1 = buf l2 /\ stateAfterPeek l1 = state l2.
Proof.
  intros Ep H. unfold Peek, mbind, stateful_bind, get in H. rewrite Ep in H.
  destruct (GetSym l) as [[y2 l2]|] eqn:E; [|done]. injection H as <- <-.
  exists l2. split; [done|]. split; [|done].
  assert (y2 = sym (state l2)) as ->; [|by rewrite GetSym_eq].
  rewrite GetSym_eq, Ep in E. unfold readSym, mbind, stateful_bind in E.
  destruct (skip_loop _ l) as [[[] l3]|]; [| |done].
  - unfold update, modify in E. destruct (BC _) as [[c l4]|]; [|done].
    destruct (lexToken _ c l4) as [[[] l5]|]; [|done]. unfold gets in E. by simplify_eq.
  - unfold update, modify in E. by injection E as <- <-.
Qed.

(** ** The properties of the lexer *)

Definition initial (s : string) : Lexer := new_Lexer (list_ascii_of_string s).

(** C33: reading a symbol ends on every input: no loop of the lexer runs for ever,
    an unclosed comment or string included, the state between two calls stays
    inside the line buffer, and nothing outside the buffer is read unless the input
    has a backslash (the code reads past a line that ends in one).  A symbol other
    than [NONE] is only returned for input that is used up.  Peeking keeps the current
    state, uses nothing up and leaves the lexer readable too. *)
Theorem lexer_total_and_safe l :
  readable l ->
  ok GetSym l (fun y l' => (readable l' /\ peekDone l' = false /\ y = sym (state l')
                            /\ (clean l -> clean l'))
                           /\ (y <> NONE -> pending l' < pending l)%nat)
  /\ (peekDone l = false ->
      ok Peek l (fun y l' => (readable l' /\ peekDone l' = true /\ (clean l -> clean l')
                              /\ y = sym (stateAfterPeek l') /\ state l' = state l)
                             /\ (pending l' <= pending l)%nat)).
Proof.
  intros R. split; [|by apply Peek_ok]. eapply ok_mono; [by apply GetSym_ok|].
  intros y l' [H1 H2]. split; [done|]. unfold weight in H2. case_decide; [done|lia].
Qed.

Lemma lexer_total_and_safe_witness :
  ok GetSym (initial "foo = ( ^ 'unclosed )")
    (fun y l' => (readable l' /\ peekDone l' = false /\ y = sym (state l')
                  /\ (clean (initial "foo = ( ^ 'unclosed )") -> clean l'))
                 /\ (y <> NONE -> pending l' < pending (initial "foo = ( ^ 'unclosed )"))%nat).
Proof. apply lexer_total_and_safe. by intros ?. Defined.

(** Looking ahead is transparent: after [Peek] the next [GetSym] delivers
    the peeked symbol and leaves the lexer in the state that reading without the
    look-ahead would have left it in. *)
Theorem peek_then_read l y l1 :
  peekDone l = false -> Peek l = Ok (y, l1) ->
  exists l2 l3, GetSym l = Ok (y, l2) /\ GetSym l1 = Ok (y, l3)
    /\ state l3 = state l2 /\ infile l3 = infile l2 /\ buf l3 = buf l2
    /\ peekDone l3 = false.
Proof.
  intros K H. destruct (Peek_GetSym l y l1 K H) as (l2 & E1 & E2 & I & B & S).
  by eexists _, _.
Qed.

Lemma peek_then_read_witness :
  exists l2 l3, GetSym (initial "x := 3.4e") = Ok (Identifier, l2)
    /\ (match Peek (initial "x := 3.4e") with Ok (_, l1) => GetSym l1 | Err e => Err e end)
       = Ok (Identifier, l3)
    /\ state l3 = state l2.
Proof.
  destruct (Peek (initial "x := 3.4e")) as [[y l1]|e] eqn:E; [|by vm_compute in E].
  assert (y = Identifier) as -> by (vm_compute in E; by injection E as <- <-).
  destruct (peek_then_read (initial "x := 3.4e") Identifier l1) as (l2 & l3 & E1 & E2 & E3 & _);
    [reflexivity|exact E|].
  by exists l2, l3.
Defined.

(** The symbols of a text, read to its end. *)
Fixpoint symbols (n : nat) (l : Lexer) : list (Symbol * string) :=
  match n with
  | O => []
  | S n =>
      match GetSym l with
      | Ok (NONE, _) => []
      | Ok (y, l') => (y, string_of_list_ascii (GetText l')) :: symbols n l'
      | Err _ => []
      end
  end.

Example symbols_of_a_method :
  symbols 20 (initial "at: i put: x = ( ^ self #foo:bar: -- -3.5 [:a| a] 'it' primitive )")
  = [(Keyword, "at:"); (Identifier, "i"); (Keyword, "put:"); (Identifier, "x"); (Equal, "=");
     (NewTerm, "("); (Exit, "^"); (Identifier, "self"); (Pound, "#");
     (KeywordSequence, "foo:bar:"); (OperatorSequence, "--"); (Minus, "-"); (Double, "3.5");
     (NewBlock, "["); (Colon, ":"); (Identifier, "a"); (Or, "|"); (Identifier, "a");
     (EndBlock, "]"); (STString, "it")]%string.
Proof. vm_compute. reflexivity. Qed.

(** A backslash that ends a line inside a string makes the lexer read past the
    line. *)
Example backslash_at_end_of_line :
  exists l, readable l /\ GetSym l = Err Undef.
Proof.
  exists (new_Lexer [of_chr 39; of_chr 92; of_chr 10; of_chr 120; of_chr 39]).
  split; [|vm_compute; reflexivity]. by intros ?.
Qed.

(** The table of names lacks the entry of [Double]: every later symbol is reported
    under the name of its successor, and the last one has no name. *)
Example symnames_shifted :
  symnames !! Symbol_index Double = Some "Not"%string
  /\ symnames !! Symbol_index OperatorSequence = None.
Proof. done. Qed.

End Lexer.
