(* ===== verification/Objects.v ===== *)
(** * The objects of the virtual machine

    The object model of [src/src/vmobjects/]: object pointers, the kinds of heap
    objects with their fields, the symbol table ([vm/Symbols.cpp]), the globals and
    the allocation functions of [vm/Universe.cpp], and method lookup with the
    per-symbol cache ([VMClass.cpp], [VMSymbol.cpp]).

    A pointer is null, a tagged integer or a location of the heap; two pointers are
    the same object exactly when they are equal.  An operation on an object of
    another kind, or past the end of its fields, is [Undef]: the code casts and
    indexes without a check (the assertions are not compiled in). *)
From Stdlib Require Import Ascii String.
From Stdlib Require Import SpecFloat.
From stdpp Require Export gmap strings.
From S2P Require Import Prelude InfIntBase InfIntMul.

Notation loc := nat (only parsing).

Inductive oop : Type :=
  | Null
  | Tagged (z : Z)
  | Ref (l : loc).

#[export] Instance oop_eq_dec : EqDecision oop.
Proof. solve_decision. Defined.

(** ** Data of the compiler that methods keep

    [compiler/Variable.h], [LexicalScope.h] and [SourceCoordinate.h]; a scope is
    shared between a method and the methods of its blocks, so it lives in a store
    of its own. *)

Record SourceCoordinate : Type := mkCoord { c_line : nat; c_column : Z }.

#[export] Instance SourceCoordinate_eq_dec : EqDecision SourceCoordinate.
Proof. solve_decision. Defined.

Record VariableT : Type := mkVariable {
  v_name : string;
  v_index : Z;
  v_isArgument : bool;
  v_coord : SourceCoordinate }.

Definition scope_id : Type := nat.

Record LexicalScope : Type := mkScope {
  s_outer : option scope_id;
  s_arguments : list VariableT;
  s_locals : list VariableT }.

Record BackJump : Type := mkBackJump { loopBeginIdx : Z; backwardJumpIdx : Z }.

(** ** Heap objects *)

(** The instances of [VMObject] and of its subclasses: all of them keep their
    members behind the class pointer, where [GetField] and [SetField] reach them.
    The fields of a class are its name, instance fields, invokables and superclass,
    then its own; those of a block its method and context, those of a vector first,
    last and storage, and those of an array its elements. *)
Inductive kind : Type := KObject | KClass | KBlock | KVector | KArray.

Record Method : Type := mkMethod {
  m_signature : loc;
  m_holder : oop;
  m_numberOfLocals : nat;
  m_maxStack : nat;
  m_bytecodes : list Z;
  m_numberOfArguments : nat;
  m_constants : list oop;
  m_scope : scope_id;
  m_inlinedLoops : list BackJump }.

Inductive trivial : Type :=
  | VMLiteralReturn (literal : oop)
  | VMGlobalReturn (globalName : loc)
  | VMGetter (fieldIndex : Z)
  | VMSetter (fieldIndex argIndex : Z).

(** A primitive holds the address of a native routine, given here by its name. *)
Inductive primitive : Type :=
  | FramePrim (routine : string)
  | SafeUnaryPrim (routine : string)
  | SafeBinaryPrim (routine : string)
  | SafeTernaryPrim (routine : string)
  | EvaluationPrim (numberOfArguments : nat).

(** A frame: [f_slots] are the slots from the first argument to the top of the
    stack, arguments, locals and stack in one array, [f_locals] is the index of the
    first local and [f_size] the number of slots allocated. *)
Record Frame : Type := mkFrame {
  f_previous : option loc;
  f_context : option loc;
  f_method : loc;
  f_bytecodeIndex : Z;
  f_locals : nat;
  f_slots : list oop;
  f_size : nat }.

Record SymbolData : Type := mkSymbol {
  sym_chars : string;
  sym_cache : list (oop * oop);
  sym_nextCachePos : nat }.

Inductive obj : Type :=
  | OInteger (z : Z)
  | OBigInteger (i : InfInt)
  | ODouble (d : spec_float)
  | OString (s : string)
  | OSymbol (s : SymbolData)
  | OObject (k : kind) (clazz : oop) (fields : list oop)
  | OFrame (f : Frame)
  | OMethod (m : Method)
  | OTrivial (signature : loc) (holder : oop) (numberOfArguments : nat)
             (arguments : list VariableT) (t : trivial)
  | OPrimitive (signature : loc) (holder : oop) (p : primitive).

(** ** The state of the machine *)

(** The objects that the virtual machine itself refers to ([vm/Globals.cpp]), the box
    of tagged integers ([IntegerBox.cpp]) and the symbols of [vm/Symbols.cpp]. *)
Record Known : Type := mkKnown {
  nilObject : oop; trueObject : oop; falseObject : oop;
  objectClass : oop; classClass : oop; metaClassClass : oop;
  nilClass : oop; integerClass : oop; arrayClass : oop; vectorClass : oop;
  methodClass : oop; symbolClass : oop; primitiveClass : oop; stringClass : oop;
  systemClass : oop; blockClass : oop; doubleClass : oop;
  trueClass : oop; falseClass : oop;
  integerBox : oop;
  symbolSelf : oop; symbolSuper : oop; symbolBlockSelf : oop;
  symbolIfTrue : oop; symbolIfFalse : oop; symbolPlus : oop; symbolMinus : oop }.

(** Before the initialisation: the variables are null. *)
Definition no_known (nil : oop) : Known :=
  mkKnown nil Null Null Null Null Null Null Null Null Null Null Null Null Null Null Null Null
    Null Null Null Null Null Null Null Null Null Null.

Record World : Type := mkWorld {
  heap : gmap loc obj;
  next : loc;
  scopes : gmap scope_id LexicalScope;
  nextScope : scope_id;
  symbolsMap : gmap string loc;
  globals : gmap loc oop;
  blockClassesByNoOfArgs : gmap nat oop;
  known : Known;
  frame : option loc;
  method : loc;
  bytecodeIndexGlobal : Z }.

Notation V := (stateful World).

Definition set_heap (h : gmap loc obj) (w : World) : World :=
  mkWorld h (next w) (scopes w) (nextScope w) (symbolsMap w) (globals w)
    (blockClassesByNoOfArgs w) (known w) (frame w) (method w) (bytecodeIndexGlobal w).
Definition set_next (n : loc) (w : World) : World :=
  mkWorld (heap w) n (scopes w) (nextScope w) (symbolsMap w) (globals w)
    (blockClassesByNoOfArgs w) (known w) (frame w) (method w) (bytecodeIndexGlobal w).
Definition set_scopes (s : gmap scope_id LexicalScope) (n : scope_id) (w : World) : World :=
  mkWorld (heap w) (next w) s n (symbolsMap w) (globals w)
    (blockClassesByNoOfArgs w) (known w) (frame w) (method w) (bytecodeIndexGlobal w).
Definition set_symbolsMap (m : gmap string loc) (w : World) : World :=
  mkWorld (heap w) (next w) (scopes w) (nextScope w) m (globals w)
    (blockClassesByNoOfArgs w) (known w) (frame w) (method w) (bytecodeIndexGlobal w).
Definition set_globals (g : gmap loc oop) (w : World) : World :=
  mkWorld (heap w) (next w) (scopes w) (nextScope w) (symbolsMap w) g
    (blockClassesByNoOfArgs w) (known w) (frame w) (method w) (bytecodeIndexGlobal w).
Definition set_blockClasses (b : gmap nat oop) (w : World) : World :=
  mkWorld (heap w) (next w) (scopes w) (nextScope w) (symbolsMap w) (globals w)
    b (known w) (frame w) (method w) (bytecodeIndexGlobal w).
Definition set_known (k : Known) (w : World) : World :=
  mkWorld (heap w) (next w) (scopes w) (nextScope w) (symbolsMap w) (globals w)
    (blockClassesByNoOfArgs w) k (frame w) (method w) (bytecodeIndexGlobal w).
Definition set_registers (f : option loc) (m : loc) (i : Z) (w : World) : World :=
  mkWorld (heap w) (next w) (scopes w) (nextScope w) (symbolsMap w) (globals w)
    (blockClassesByNoOfArgs w) (known w) f m i.
Definition set_bytecodeIndex (i : Z) (w : World) : World :=
  set_registers (frame w) (method w) i w.

(** ** Access to the heap *)

Definition load (l : loc) : V obj := fun w =>
  match heap w !! l with Some o => Ok (o, w) | None => Err Undef end.

(** Overwrites an object that is there. *)
Definition store (l : loc) (o : obj) : V () := fun w =>
  match heap w !! l with
  | Some _ => Ok (tt, set_heap (<[l := o]> (heap w)) w)
  | None => Err Undef
  end.

Definition alloc (o : obj) : V loc := fun w =>
  Ok (next w, set_next (S (next w)) (set_heap (<[next w := o]> (heap w)) w)).

Definition deref (p : oop) : V obj :=
  match p with Ref l => load l | _ => fail Undef end.

Definition loc_of (p : oop) : V loc :=
  match p with Ref l => mret l | _ => fail Undef end.

Definition load_method (l : loc) : V Method :=
  o ← load l; match o with OMethod m => mret m | _ => fail Undef end.

Definition load_frame (l : loc) : V Frame :=
  o ← load l; match o with OFrame f => mret f | _ => fail Undef end.

Definition load_symbol (l : loc) : V SymbolData :=
  o ← load l; match o with OSymbol s => mret s | _ => fail Undef end.

Definition update_frame (l : loc) (g : Frame -> Frame) : V () :=
  f ← load_frame l; store l (OFrame (g f)).

(** ** Symbols and signatures *)

(** [Signature::IsBinary] *)
Definition binary_chars : list ascii :=
  ["~"; "&"; "|"; "*"; "/"; "@"; "+"; "-"; "="; ">"; "<"; ","; "%"; "\"]%char.

Definition IsBinary (sig : string) : bool :=
  match sig with
  | EmptyString => false
  | String c _ => existsb (Ascii.eqb c) binary_chars
  end.

Fixpoint count_colons (sig : string) : nat :=
  match sig with
  | EmptyString => 0
  | String c r => (if Ascii.eqb c ":" then 1 else 0) + count_colons r
  end.

(** The count is an [int] that is returned as [uint8_t]. *)
Definition DetermineNumberOfArguments (sig : string) : nat :=
  if IsBinary sig then 2%nat
  else Z.to_nat (u8 (Z.of_nat (count_colons sig) + 1)).

Definition GetNumberOfArguments (sig : loc) : V nat :=
  s ← load_symbol sig; mret (DetermineNumberOfArguments (sym_chars s)).

Definition NewSymbol (str : string) : V loc :=
  l ← alloc (OSymbol (mkSymbol str (replicate 3 (Null, Null)) 0));
  modify (fun w => set_symbolsMap (<[str := l]> (symbolsMap w)) w);;
  mret l.

Definition SymbolFor (str : string) : V loc :=
  m ← gets symbolsMap;
  match m !! str with Some l => mret l | None => NewSymbol str end.

Definition set_symbols (s1 s2 s3 s4 s5 s6 s7 : oop) (k : Known) : Known :=
  mkKnown (nilObject k) (trueObject k) (falseObject k) (objectClass k) (classClass k)
    (metaClassClass k) (nilClass k) (integerClass k) (arrayClass k) (vectorClass k)
    (methodClass k) (symbolClass k) (primitiveClass k) (stringClass k) (systemClass k)
    (blockClass k) (doubleClass k) (trueClass k) (falseClass k) (integerBox k)
    s1 s2 s3 s4 s5 s6 s7.

Definition InitializeSymbols : V () :=
  s1 ← SymbolFor "self"; s2 ← SymbolFor "super"; s3 ← SymbolFor "$blockSelf";
  s4 ← SymbolFor "ifTrue:"; s5 ← SymbolFor "ifFalse:"; s6 ← SymbolFor "+"; s7 ← SymbolFor "-";
  modify (fun w => set_known
    (set_symbols (Ref s1) (Ref s2) (Ref s3) (Ref s4) (Ref s5) (Ref s6) (Ref s7) (known w)) w).

(** The cache of a symbol: the class and the invokable found in it. *)
Fixpoint cache_search (cls : oop) (cache : list (oop * oop)) : oop :=
  match cache with
  | [] => Null
  | (c, i) :: r => if decide (cls = c) then i else cache_search cls r
  end.

Definition GetCachedInvokable (cls : oop) (s : SymbolData) : oop :=
  cache_search cls (sym_cache s).

Definition UpdateCachedInvokable (name : loc) (cls invo : oop) : V () :=
  s ← load_symbol name;
  store name (OSymbol (mkSymbol (sym_chars s)
    (<[sym_nextCachePos s := (cls, invo)]> (sym_cache s))
    ((sym_nextCachePos s + 1) mod 3)%nat)).

(** ** Fields *)

Definition GetField (self : oop) (index : Z) : V oop :=
  o ← deref self;
  match o with
  | OObject _ _ fields =>
      if index <? 0 then fail Undef else lift (of_option Undef (fields !! Z.to_nat index))
  | _ => fail Undef
  end.

Definition SetField (self : oop) (index : Z) (value : oop) : V () :=
  l ← loc_of self;
  o ← load l;
  match o with
  | OObject k c fields =>
      if (0 <=? index) && (index <? Z.of_nat (length fields))
      then store l (OObject k c (<[Z.to_nat index := value]> fields))
      else fail Undef
  | _ => fail Undef
  end.

(** [VMArray]: an index equal to the size passes the check and reads past the
    end. *)
Definition array_elements (a : oop) : V (list oop) :=
  o ← deref a;
  match o with OObject _ _ fields => mret fields | _ => fail Undef end.

Definition GetNumberOfIndexableFields (a : oop) : V Z :=
  es ← array_elements a; mret (Z.of_nat (length es)).

Definition IndexOutOfBounds : error := ErrorExit "Array index out of bounds".

Definition GetIndexableField (a : oop) (idx : Z) : V oop :=
  n ← GetNumberOfIndexableFields a;
  if u64 idx >? n then fail IndexOutOfBounds else GetField a (u64 idx).

Definition SetIndexableField (a : oop) (idx : Z) (value : oop) : V () :=
  n ← GetNumberOfIndexableFields a;
  if u64 idx >? n then fail IndexOutOfBounds else SetField a (u64 idx) value.

(** ** Invokables *)

Definition GetSignature (inv : loc) : V loc :=
  o ← load inv;
  match o with
  | OMethod m => mret (m_signature m)
  | OTrivial s _ _ _ _ => mret s
  | OPrimitive s _ _ => mret s
  | _ => fail Undef
  end.

Definition IsPrimitive (inv : loc) : V bool :=
  o ← load inv;
  match o with
  | OMethod _ | OTrivial _ _ _ _ _ | OPrimitive _ _ (EvaluationPrim _) => mret false
  | OPrimitive _ _ _ => mret true
  | _ => fail Undef
  end.

(** The arguments of an invokable, receiver included. *)
Definition invokable_arguments (inv : loc) : V nat :=
  o ← load inv;
  match o with
  | OMethod m => mret (m_numberOfArguments m)
  | OTrivial s _ _ _ _ => GetNumberOfArguments s
  | OPrimitive s _ (EvaluationPrim n) => mret n
  | OPrimitive s _ _ => GetNumberOfArguments s
  | _ => fail Undef
  end.

Definition with_holder (hld : oop) (o : obj) : obj :=
  match o with
  | OMethod m =>
      OMethod (mkMethod (m_signature m) hld (m_numberOfLocals m) (m_maxStack m)
        (m_bytecodes m) (m_numberOfArguments m) (m_constants m) (m_scope m)
        (m_inlinedLoops m))
  | OTrivial s _ n a t => OTrivial s hld n a t
  | OPrimitive s _ p => OPrimitive s hld p
  | _ => o
  end.

(** [SetHolder] descends into the methods of the blocks of a method
    ([VMMethod::SetHolderAll]); the fuel bounds the nesting: with more levels than
    objects a method is nested in itself and the recursion overflows the stack. *)
Fixpoint SetHolder (fuel : nat) (inv : loc) (hld : oop) : V () :=
  match fuel with
  | O => fail Undef
  | S fuel =>
      o ← load inv;
      store inv (with_holder hld o);;
      match o with
      | OMethod m =>
          foldr (fun c (k : V ()) =>
            match c with
            | Ref l =>
                oc ← load l;
                match oc with
                | OMethod _ | OTrivial _ _ _ _ _ | OPrimitive _ _ _ => SetHolder fuel l hld;; k
                | _ => k
                end
            | _ => k
            end) (mret tt) (m_constants m)
      | OTrivial _ _ _ _ _ | OPrimitive _ _ _ => mret tt
      | _ => fail Undef
      end
  end.

(** ** Classes *)

Definition class_field (index : nat) (c : oop) : V oop :=
  o ← deref c;
  match o with
  | OObject KClass _ fields => lift (of_option Undef (fields !! index))
  | _ => fail Undef
  end.

Definition GetName : oop -> V oop := class_field 0.
Definition GetInstanceFields : oop -> V oop := class_field 1.
Definition GetInstanceInvokables : oop -> V oop := class_field 2.
Definition GetSuperClass : oop -> V oop := class_field 3.

Definition set_class_field (index : nat) (c v : oop) : V () :=
  l ← loc_of c; o ← load l;
  match o with
  | OObject KClass cl fields =>
      if (index <? length fields)%nat
      then store l (OObject KClass cl (<[index := v]> fields)) else fail Undef
  | _ => fail Undef
  end.

Definition SetName : oop -> oop -> V () := set_class_field 0.
Definition SetInstanceFields : oop -> oop -> V () := set_class_field 1.
Definition SetSuperClass : oop -> oop -> V () := set_class_field 3.

Definition SetClass (self cl : oop) : V () :=
  l ← loc_of self; o ← load l;
  match o with
  | OObject k _ fields => store l (OObject k cl fields)
  | _ => fail Undef
  end.

Definition HasSuperClass (c : oop) : V bool :=
  s ← GetSuperClass c; k ← gets known;
  mret (bool_decide (s <> nilObject k)).

Definition GetNumberOfInstanceInvokables (c : oop) : V Z :=
  a ← GetInstanceInvokables c; GetNumberOfIndexableFields a.

Definition GetInstanceInvokable (c : oop) (index : Z) : V oop :=
  a ← GetInstanceInvokables c; GetIndexableField a index.

(** A bound on the length of a chain of superclasses, or of nested blocks: the
    number of objects there are. *)
Definition heap_fuel : V nat := gets (fun w => S (next w)).

(** [for (i = 0; i < numInvokables; ++i)] with the early return. *)
Fixpoint find_invokable (n : nat) (i : Z) (cls : oop) (name : loc) : V (option loc) :=
  match n with
  | O => mret None
  | S n =>
      p ← GetInstanceInvokable cls i;
      inv ← loc_of p;
      sig ← GetSignature inv;
      if decide (sig = name) then mret (Some inv) else find_invokable n (i + 1) cls name
  end.

Fixpoint LookupInvokable_fuel (fuel : nat) (cls : oop) (name : loc) : V (option loc) :=
  match fuel with
  | O => fail OutOfFuel
  | S fuel =>
      s ← load_symbol name;
      match GetCachedInvokable cls s with
      | Ref inv => mret (Some inv)
      | _ =>
          numInvokables ← GetNumberOfInstanceInvokables cls;
          found ← find_invokable (Z.to_nat numInvokables) 0 cls name;
          match found with
          | Some inv => UpdateCachedInvokable name cls (Ref inv);; mret (Some inv)
          | None =>
              hasSuper ← HasSuperClass cls;
              if hasSuper : bool then
                superClass ← GetSuperClass cls; LookupInvokable_fuel fuel superClass name
              else mret None
          end
      end
  end.

Definition LookupInvokable (cls : oop) (name : loc) : V (option loc) :=
  fuel ← heap_fuel; LookupInvokable_fuel fuel cls name.

(** A class that is among its own superclasses makes the recursion overflow the
    stack. *)
Fixpoint GetNumberOfInstanceFields_fuel (fuel : nat) (cls : oop) : V Z :=
  match fuel with
  | O => fail Undef
  | S fuel =>
      a ← GetInstanceFields cls;
      n ← GetNumberOfIndexableFields a;
      hasSuper ← HasSuperClass cls;
      if hasSuper : bool then
        superClass ← GetSuperClass cls;
        m ← GetNumberOfInstanceFields_fuel fuel superClass;
        mret (n + m)
      else mret n
  end.

Definition GetNumberOfInstanceFields (cls : oop) : V Z :=
  fuel ← heap_fuel; GetNumberOfInstanceFields_fuel fuel cls.

Definition numberOfSuperInstanceFields (cls : oop) : V Z :=
  hasSuper ← HasSuperClass cls;
  if hasSuper : bool then
    superClass ← GetSuperClass cls; GetNumberOfInstanceFields superClass
  else mret 0.

Fixpoint GetInstanceFieldName_fuel (fuel : nat) (cls : oop) (index : Z) : V oop :=
  match fuel with
  | O => fail OutOfFuel
  | S fuel =>
      n ← numberOfSuperInstanceFields cls;
      if index >=? n then
        a ← GetInstanceFields cls; GetIndexableField a (index - n)
      else
        superClass ← GetSuperClass cls; GetInstanceFieldName_fuel fuel superClass index
  end.

Definition GetInstanceFieldName (cls : oop) (index : Z) : V oop :=
  fuel ← heap_fuel; GetInstanceFieldName_fuel fuel cls index.

(** [for (i = 0; i <= numInstanceFields; ++i)] *)
Fixpoint lookup_field (n : nat) (i : Z) (cls : oop) (name : oop) : V Z :=
  match n with
  | O => mret (-1)
  | S n =>
      f ← GetInstanceFieldName cls i;
      if decide (name = f) then mret i else lookup_field n (i + 1) cls name
  end.

Definition LookupFieldIndex (cls : oop) (name : oop) : V Z :=
  numInstanceFields ← GetNumberOfInstanceFields cls;
  lookup_field (Z.to_nat numInstanceFields + 1) 0 cls name.

Fixpoint has_primitives (n : nat) (i : Z) (cls : oop) : V bool :=
  match n with
  | O => mret false
  | S n =>
      p ← GetInstanceInvokable cls i;
      inv ← loc_of p;
      b ← IsPrimitive inv;
      if b : bool then mret true else has_primitives n (i + 1) cls
  end.

Definition HasPrimitives (cls : oop) : V bool :=
  n ← GetNumberOfInstanceInvokables cls; has_primitives (Z.to_nat n) 0 cls.
