(* ===== verification/Lookup.v ===== *)
(** * Method lookup

    What [VMClass::LookupInvokable] promises: the first invokable with the signature
    along the chain of superclasses, whatever is in the caches of the symbols.  The
    specification is a relation on the class hierarchy; the caches have to be sound for
    it, and lookup keeps them so. *)
From Stdlib Require Import String.
From S2P Require Import Prelude Objects.
Local Open Scope Z_scope.

(** ** The class hierarchy *)

Definition signature_of (o : obj) : option loc :=
  match o with
  | OMethod m => Some (m_signature m)
  | OTrivial s _ _ _ _ => Some s
  | OPrimitive s _ _ => Some s
  | _ => None
  end.

Definition entry (h : gmap loc obj) (p : oop) : option (loc * loc) :=
  match p with
  | Ref l => o ← h !! l; s ← signature_of o; Some (s, l)
  | _ => None
  end.

(** The signatures and invokables of a class, in order, and its superclass. *)
Definition class_shape (h : gmap loc obj) (c : loc) : option (list (loc * loc) * oop) :=
  match h !! c with
  | Some (OObject KClass _ fields) =>
      match fields !! 2%nat, fields !! 3%nat with
      | Some (Ref a), Some super =>
          match h !! a with
          | Some (OObject _ _ es) => ms ← mapM (entry h) es; Some (ms, super)
          | _ => None
          end
      | _, _ => None
      end
  | _ => None
  end.

Fixpoint first_match (name : loc) (ms : list (loc * loc)) : option loc :=
  match ms with
  | [] => None
  | (s, l) :: r => if decide (s = name) then Some l else first_match name r
  end.

(** [finds h nil name c chain r]: from the class [c], looking at the classes of
    [chain], [name] is found as [r], or is in none of them. *)
Inductive finds (h : gmap loc obj) (nil : oop) (name : loc) : loc -> list loc -> option loc -> Prop :=
  | finds_here c ms super l :
      class_shape h c = Some (ms, super) -> first_match name ms = Some l ->
      finds h nil name c [c] (Some l)
  | finds_super c ms d chain r :
      class_shape h c = Some (ms, Ref d) -> first_match name ms = None -> Ref d <> nil ->
      finds h nil name d chain r ->
      finds h nil name c (c :: chain) r
  | finds_nowhere c ms :
      class_shape h c = Some (ms, nil) -> first_match name ms = None ->
      finds h nil name c [c] None.

Definition cache_sound (w : World) : Prop :=
  forall name s c i,
    heap w !! name = Some (OSymbol s) -> (c, Ref i) ∈ sym_cache s ->
    exists d chain, c = Ref d /\ finds (heap w) (nilObject (known w)) name d chain (Some i).

(** No object is outside of what was allocated, and no array has [2^64] elements. *)
Record heap_ok (w : World) : Prop := mkHeapOk {
  heap_below : forall l o, heap w !! l = Some o -> (l < next w)%nat;
  arrays_small : forall l k c es,
    heap w !! l = Some (OObject k c es) -> Z.of_nat (length es) < 2 ^ 64 }.

(** ** The relation is a function, and its chains are short *)

Lemma finds_functional h nil name c chain1 r1 chain2 r2 :
  finds h nil name c chain1 r1 -> finds h nil name c chain2 r2 -> chain1 = chain2 /\ r1 = r2.
Proof.
  intros H1. revert chain2 r2.
  induction H1 as [c ms sup l S F|c ms d chain r S F N H IH|c ms S F]; intros chain2 r2 H2;
    inversion H2; simplify_eq; try done.
  edestruct IH as [-> ->]; eauto.
Qed.

Lemma finds_suffix h nil name c chain r d :
  finds h nil name c chain r -> d ∈ chain ->
  exists chain1 chain2, chain = chain1 ++ chain2 /\ finds h nil name d chain2 r.
Proof.
  intros H. induction H as [c ms sup l S F|c ms e chain r S F N H IH|c ms S F]; intros Hd.
  - apply list_elem_of_singleton in Hd as ->. exists [], [c]. split; [done|]. by econstructor.
  - apply elem_of_cons in Hd as [->|Hd].
    + exists [], (c :: chain). split; [done|]. by econstructor.
    + destruct (IH Hd) as (c1 & c2 & -> & ?). by exists (c :: c1), c2.
  - apply list_elem_of_singleton in Hd as ->. exists [], [c]. split; [done|].
    by eapply finds_nowhere.
Qed.

Lemma finds_head h nil name c chain r :
  finds h nil name c chain r -> exists rest, chain = c :: rest.
Proof. intros []; eauto. Qed.

Lemma finds_nodup h nil name c chain r : finds h nil name c chain r -> NoDup chain.
Proof.
  intros H. induction H as [c ms sup l S F|c ms e chain r S F N H IH|c ms S F].
  - apply NoDup_singleton.
  - constructor; [|done]. intros Hc.
    destruct (finds_suffix _ _ _ _ _ _ _ H Hc) as (c1 & c2 & -> & H2).
    assert (finds h nil name c (c :: c1 ++ c2) r) as H3 by (by econstructor).
    destruct (finds_functional _ _ _ _ _ _ _ _ H2 H3) as [E _].
    apply (f_equal length) in E. cbn in E. rewrite length_app in E. lia.
  - apply NoDup_singleton.
Qed.

Lemma class_shape_is_Some h c x : class_shape h c = Some x -> is_Some (h !! c).
Proof. unfold class_shape. destruct (h !! c); [eauto|done]. Qed.

Lemma finds_bound w name c chain r :
  heap_ok w -> finds (heap w) (nilObject (known w)) name c chain r ->
  (length chain <= next w)%nat.
Proof.
  intros HO H.
  assert (forall d, d ∈ chain -> (d < next w)%nat) as HB.
  { intros d Hd. destruct (finds_suffix _ _ _ _ _ _ _ H Hd) as (? & c2 & _ & H2).
    inversion H2; subst;
      match goal with S : class_shape _ _ = _ |- _ => apply class_shape_is_Some in S as [? S] end;
      by eapply heap_below. }
  apply finds_nodup in H.
  assert (chain ⊆+ seq 0 (next w)) as L.
  { apply NoDup_submseteq; [done|]. intros d Hd. apply elem_of_seq. specialize (HB d Hd). lia. }
  apply submseteq_length in L. by rewrite length_seq in L.
Qed.

(** ** The code *)

Lemma load_step w l o : heap w !! l = Some o -> load l w = Ok (o, w).
Proof. intros H. unfold load. by rewrite H. Qed.

Lemma deref_step w l o : heap w !! l = Some o -> deref (Ref l) w = Ok (o, w).
Proof. apply load_step. Qed.

Lemma load_symbol_step w l s : heap w !! l = Some (OSymbol s) -> load_symbol l w = Ok (s, w).
Proof. intros H. unfold load_symbol. by erewrite bind_step by (by apply load_step). Qed.

Lemma store_step w l o o' :
  heap w !! l = Some o -> store l o' w = Ok (tt, set_heap (<[l := o']> (heap w)) w).
Proof. intros H. unfold store. by rewrite H. Qed.

#[export] Hint Resolve load_step deref_step load_symbol_step store_step : run.

Lemma of_option_step {S A} e (o : option A) (a : A) (s : S) :
  o = Some a -> lift (of_option e o) s = Ok (a, s).
Proof. by intros ->. Qed.
#[export] Hint Resolve of_option_step : run.

Lemma class_field_step w c cl fields i x :
  heap w !! c = Some (OObject KClass cl fields) -> fields !! i = Some x ->
  class_field i (Ref c) w = Ok (x, w).
Proof. intros Hc Hi. unfold class_field. mrun. by apply of_option_step. Qed.

Lemma GetIndexableField_step w a k cl es i x :
  heap_ok w -> heap w !! a = Some (OObject k cl es) -> es !! i = Some x ->
  GetIndexableField (Ref a) (Z.of_nat i) w = Ok (x, w).
Proof.
  intros HO Ha Hi. pose proof (arrays_small _ HO _ _ _ _ Ha).
  pose proof (lookup_lt_Some _ _ _ Hi).
  unfold GetIndexableField, GetNumberOfIndexableFields, array_elements, GetField.
  rewrite uwrap_small by lia. mrun.
  destruct (Z.of_nat i >? Z.of_nat (length es)) eqn:G; [lia|]. mrun.
  destruct (Z.of_nat i <? 0) eqn:L; [lia|]. rewrite Nat2Z.id. by apply of_option_step.
Qed.

(** One class: the loop over the invokables. *)
Lemma find_invokable_spec w c cl fields a k acl es ms super name :
  heap_ok w ->
  heap w !! c = Some (OObject KClass cl fields) ->
  fields !! 2%nat = Some (Ref a) -> fields !! 3%nat = Some super ->
  heap w !! a = Some (OObject k acl es) -> mapM (entry (heap w)) es = Some ms ->
  forall n i, (i + n = length es)%nat ->
  find_invokable n (Z.of_nat i) (Ref c) name w = Ok (first_match name (drop i ms), w).
Proof.
  intros HO Hc H2 H3 Ha HM n. apply mapM_Some in HM.
  induction n as [|n IH]; intros i Hi.
  - rewrite (drop_ge ms); [done|]. apply Forall2_length in HM. lia.
  - destruct (lookup_lt_is_Some_2 es i) as [x Hx]; [lia|].
    destruct (Forall2_lookup_l _ _ _ _ _ HM Hx) as ([s l] & Hm & He).
    destruct x as [| |x]; try done. cbn in He.
    destruct (heap w !! x) as [o|] eqn:Ho; [|done]. cbn in He.
    destruct (signature_of o) as [s'|] eqn:Hs; [|done]. cbn in He. simplify_eq.
    rewrite (drop_S _ _ _ Hm). cbn [find_invokable first_match].
    unfold GetInstanceInvokable, GetInstanceInvokables.
    erewrite bind_step.
    2: { erewrite bind_step by (by eapply class_field_step).
         by eapply GetIndexableField_step. }
    cbn beta. erewrite bind_step by done.
    assert (GetSignature l w = Ok (s, w)) as HG.
    { unfold GetSignature. erewrite bind_step by (by apply load_step).
      destruct o; naive_solver. }
    erewrite bind_step by exact HG.
    destruct (decide (s = name)) as [->|]; [done|].
    replace (Z.of_nat i + 1) with (Z.of_nat (S i)) by lia. apply IH. lia.
Qed.

(** ** Symbols are not part of the hierarchy *)

Section Symbols.

Context (h : gmap loc obj) (name : loc) (s s' : SymbolData).
Hypothesis Hname : h !! name = Some (OSymbol s).

Lemma entry_symbol p : entry (<[name := OSymbol s']> h) p = entry h p.
Proof.
  destruct p as [| |l]; try done. cbn. destruct (decide (l = name)) as [->|].
  - by rewrite lookup_insert_eq, Hname.
  - by rewrite lookup_insert_ne by done.
Qed.

Lemma entries_symbol es : mapM (entry (<[name := OSymbol s']> h)) es = mapM (entry h) es.
Proof. induction es as [|e es IH]; [done|]. cbn. by rewrite entry_symbol, IH. Qed.

Lemma class_shape_symbol c : class_shape (<[name := OSymbol s']> h) c = class_shape h c.
Proof.
  unfold class_shape. destruct (decide (c = name)) as [->|].
  { by rewrite lookup_insert_eq, Hname. }
  rewrite lookup_insert_ne by done. repeat case_match; try done;
    repeat match goal with
    | H : <[name := _]> h !! ?a = _ |- _ =>
        destruct (decide (a = name)) as [->|];
        [rewrite lookup_insert_eq in H | rewrite lookup_insert_ne in H by done]
    end; simplify_eq; try done; by rewrite entries_symbol.
Qed.

Lemma finds_symbol nil n c chain r :
  finds (<[name := OSymbol s']> h) nil n c chain r <-> finds h nil n c chain r.
Proof.
  split; intros H; induction H;
    match goal with S : class_shape _ _ = _ |- _ =>
      first [rewrite class_shape_symbol in S | rewrite <- class_shape_symbol in S] end;
    solve [by eapply finds_here | by eapply finds_super | by eapply finds_nowhere].
Qed.

End Symbols.

Lemma cache_search_In c cache i :
  cache_search c cache = Ref i -> (c, Ref i) ∈ cache.
Proof.
  induction cache as [|[d x] cache IH]; [done|]. cbn. rewrite elem_of_cons.
  destruct (decide (c = d)) as [->|]; [intros ->; by left|]. right. auto.
Qed.

(** A new entry that agrees with the hierarchy keeps the caches sound. *)
Lemma UpdateCachedInvokable_sound w name s c chain i :
  heap w !! name = Some (OSymbol s) -> cache_sound w ->
  finds (heap w) (nilObject (known w)) name c chain (Some i) ->
  exists s', UpdateCachedInvokable name (Ref c) (Ref i) w
             = Ok (tt, set_heap (<[name := OSymbol s']> (heap w)) w)
             /\ sym_chars s' = sym_chars s
             /\ cache_sound (set_heap (<[name := OSymbol s']> (heap w)) w).
Proof.
  intros Hn HC HF. eexists. split; [|split].
  - unfold UpdateCachedInvokable. mrun. by eapply store_step.
  - done.
  - intros n' t d j Ht Hin. cbn in *.
    assert (exists d' ch, d = Ref d' /\ finds (heap w) (nilObject (known w)) n' d' ch (Some j))
      as (d' & ch & -> & HF').
    { destruct (decide (n' = name)) as [->|].
      - rewrite lookup_insert_eq in Ht. simplify_eq. cbn in Hin.
        apply list_elem_of_lookup in Hin as [k Hk].
        destruct (decide (k = sym_nextCachePos s)) as [->|].
        + assert (sym_nextCachePos s < length (sym_cache s))%nat.
          { apply lookup_lt_Some in Hk. by rewrite length_insert in Hk. }
          rewrite list_lookup_insert_eq in Hk by done. simplify_eq. eauto.
        + rewrite list_lookup_insert_ne in Hk by done.
          eapply HC; [done|]. by eapply list_elem_of_lookup_2.
      - rewrite lookup_insert_ne in Ht by done. by eapply HC. }
    exists d', ch. split; [done|]. by eapply finds_symbol.
Qed.

(** ** The refinement *)

Lemma class_shape_inv h c ms super :
  class_shape h c = Some (ms, super) ->
  exists cl fields a k acl es,
    h !! c = Some (OObject KClass cl fields) /\ fields !! 2%nat = Some (Ref a)
    /\ fields !! 3%nat = Some super /\ h !! a = Some (OObject k acl es)
    /\ mapM (entry h) es = Some ms.
Proof.
  unfold class_shape. repeat case_match; try done.
  destruct (mapM (entry h) _) eqn:E; [|done]. cbn. intros [= -> ->]. eauto 20.
Qed.

(** The search in one class, and the superclass. *)
Lemma class_steps w c ms super name :
  heap_ok w -> class_shape (heap w) c = Some (ms, super) ->
  exists n, GetNumberOfInstanceInvokables (Ref c) w = Ok (Z.of_nat n, w)
    /\ find_invokable n 0 (Ref c) name w = Ok (first_match name ms, w)
    /\ GetSuperClass (Ref c) w = Ok (super, w)
    /\ HasSuperClass (Ref c) w = Ok (bool_decide (super <> nilObject (known w)), w).
Proof.
  intros HO H. apply class_shape_inv in H as (cl & fields & a & k & acl & es & Hc & H2 & H3 & Ha & HM).
  exists (length es).
  assert (GetSuperClass (Ref c) w = Ok (super, w)) as HS by (by eapply class_field_step).
  split; [|split; [|split; [done|]]].
  - unfold GetNumberOfInstanceInvokables, GetInstanceInvokables.
    erewrite bind_step by (by eapply class_field_step).
    unfold GetNumberOfIndexableFields, array_elements. by mrun.
  - by apply (find_invokable_spec w c cl fields a k acl es ms super name HO Hc H2 H3 Ha HM
                (length es) 0%nat).
  - unfold HasSuperClass. erewrite bind_step by exact HS. by mrun.
Qed.

Definition cache_only (name : loc) (w w' : World) : Prop :=
  exists s s', heap w !! name = Some (OSymbol s) /\ sym_chars s' = sym_chars s
    /\ w' = set_heap (<[name := OSymbol s']> (heap w)) w.

Lemma cache_only_refl name s w : heap w !! name = Some (OSymbol s) -> cache_only name w w.
Proof.
  intros H. exists s, s. split; [done|]. split; [done|].
  destruct w. unfold set_heap. cbn in *. f_equal. by rewrite insert_id.
Qed.

(** A hit in the cache is what the hierarchy says. *)
Lemma cache_hit w name s c chain r i :
  cache_sound w -> heap w !! name = Some (OSymbol s) ->
  finds (heap w) (nilObject (known w)) name c chain r ->
  GetCachedInvokable (Ref c) s = Ref i -> r = Some i.
Proof.
  intros HC Hn HF G. apply cache_search_In in G.
  destruct (HC _ _ _ _ Hn G) as (d & ch & [= <-] & HF').
  by destruct (finds_functional _ _ _ _ _ _ _ _ HF HF') as [_ ->].
Qed.

Definition looks_up (w : World) (name c : loc) (r : option loc) (m : V (option loc)) : Prop :=
  exists w', m w = Ok (r, w') /\ cache_only name w w' /\ cache_sound w'.

(** The body of the recursion: a hit, a method of the class itself, or the rest. *)
Lemma LookupInvokable_body w name s c chain r ms super fuel :
  heap_ok w -> cache_sound w -> heap w !! name = Some (OSymbol s) ->
  finds (heap w) (nilObject (known w)) name c chain r ->
  class_shape (heap w) c = Some (ms, super) ->
  (first_match name ms = None ->
   if decide (super = nilObject (known w)) then r = None
   else looks_up w name c r (LookupInvokable_fuel fuel super name)) ->
  looks_up w name c r (LookupInvokable_fuel (S fuel) (Ref c) name).
Proof.
  intros HO HC Hn HF S HR. unfold looks_up. cbn [LookupInvokable_fuel].
  erewrite bind_step by (by eapply load_symbol_step).
  destruct (GetCachedInvokable (Ref c) s) as [|z|i] eqn:G.
  3: { rewrite (cache_hit _ _ _ _ _ _ _ HC Hn HF G). exists w. split; [done|].
       split; [by eapply cache_only_refl|done]. }
  all: destruct (class_steps w c ms super name HO S) as (n & E1 & E2 & E3 & E4);
    erewrite bind_step by exact E1; rewrite Nat2Z.id; erewrite bind_step by exact E2;
    destruct (first_match name ms) as [l|] eqn:F.
  1,3: assert (finds (heap w) (nilObject (known w)) name c [c] (Some l)) as HF'
      by (by eapply finds_here);
    destruct (finds_functional _ _ _ _ _ _ _ _ HF HF') as [_ ->];
    destruct (UpdateCachedInvokable_sound _ _ _ _ _ _ Hn HC HF') as (s' & U & Ch & CS);
    erewrite bind_step by exact U; eexists; split; [done|]; split; [|done];
    by exists s, s'.
  all: specialize (HR eq_refl); erewrite bind_step by exact E4;
    destruct (decide (super = nilObject (known w))) as [->|N];
    [rewrite bool_decide_eq_false_2 by (by intros ?); rewrite HR; exists w; split; [done|];
     split; [by eapply cache_only_refl|done]
    |rewrite bool_decide_eq_true_2 by done; erewrite bind_step by exact E3; exact HR].
Qed.

Lemma LookupInvokable_fuel_spec w name s chain fuel c r :
  heap_ok w -> cache_sound w -> heap w !! name = Some (OSymbol s) ->
  finds (heap w) (nilObject (known w)) name c chain r ->
  (length chain <= fuel)%nat ->
  looks_up w name c r (LookupInvokable_fuel fuel (Ref c) name).
Proof.
  intros HO HC Hn HF. revert fuel.
  induction HF as [c ms sup l S F|c ms d chain r S F N H IH|c ms S F];
    intros [|fuel] L; cbn in L; try lia.
  - eapply LookupInvokable_body; eauto using finds_here. by rewrite F.
  - eapply LookupInvokable_body; eauto using finds_super. intros _.
    rewrite decide_False by done. apply IH. lia.
  - eapply LookupInvokable_body; eauto using finds_nowhere. intros _. by rewrite decide_True.
Qed.

(** C1: [LookupInvokable] ends and returns the first invokable with the signature along the
    chain of superclasses, or null if there is none, whatever its caches hold, provided
    that what they hold agrees with the class hierarchy; it changes nothing but the cache
    of the symbol, and the caches agree with the hierarchy afterwards. *)
Theorem lookup_refines_hierarchy w name s c chain r :
  heap_ok w -> cache_sound w -> heap w !! name = Some (OSymbol s) ->
  finds (heap w) (nilObject (known w)) name c chain r ->
  exists w', LookupInvokable (Ref c) name w = Ok (r, w')
             /\ cache_only name w w' /\ cache_sound w'.
Proof.
  intros HO HC Hn HF. unfold LookupInvokable, heap_fuel. mrun.
  eapply LookupInvokable_fuel_spec; eauto.
  pose proof (finds_bound _ _ _ _ _ HO HF). lia.
Qed.

(** ** Symbols are unique *)

Definition chars (w : World) (l : loc) : option string :=
  match heap w !! l with Some (OSymbol s) => Some (sym_chars s) | _ => None end.

(** The symbol table holds every symbol, under its characters. *)
Definition symbols_ok (w : World) : Prop :=
  forall str l, symbolsMap w !! str = Some l <-> chars w l = Some str.

Lemma NewSymbol_ok w str :
  (forall l o, heap w !! l = Some o -> (l < next w)%nat) ->
  symbols_ok w -> symbolsMap w !! str = None ->
  exists w', NewSymbol str w = Ok (next w, w') /\ symbols_ok w' /\ chars w' (next w) = Some str
    /\ (forall l o, heap w !! l = Some o -> heap w' !! l = Some o).
Proof.
  intros HB HS HN. eexists. split; [|split; [|split]].
  - unfold NewSymbol. erewrite bind_step by (unfold alloc; reflexivity). by mrun.
  - intros s l. unfold chars. cbn. destruct (decide (l = next w)) as [->|Hl].
    + rewrite lookup_insert_eq. cbn. split.
      * destruct (decide (s = str)) as [->|]; [done|]. rewrite lookup_insert_ne by done.
        intros H%HS. unfold chars in H. destruct (heap w !! next w) as [o|] eqn:E; [|done].
        apply HB in E. lia.
      * intros [= ->]. by rewrite lookup_insert_eq.
    + rewrite (lookup_insert_ne (heap w)) by done. specialize (HS s l). unfold chars in HS.
      destruct (decide (s = str)) as [->|]; [|by rewrite lookup_insert_ne by done].
      rewrite lookup_insert_eq. split; [intros [= <-]; done|]. intros H%HS. congruence.
  - unfold chars. cbn. by rewrite lookup_insert_eq.
  - intros l o H. cbn. rewrite lookup_insert_ne; [done|]. intros <-. apply HB in H. lia.
Qed.

Lemma SymbolFor_ok w str :
  (forall l o, heap w !! l = Some o -> (l < next w)%nat) -> symbols_ok w ->
  exists l w', SymbolFor str w = Ok (l, w') /\ symbols_ok w' /\ chars w' l = Some str
    /\ (forall l' o, heap w !! l' = Some o -> heap w' !! l' = Some o).
Proof.
  intros HB HS. unfold SymbolFor. mrun. destruct (symbolsMap w !! str) as [l|] eqn:E.
  - exists l, w. split; [done|]. split; [done|]. split; [by apply HS|done].
  - destruct (NewSymbol_ok w str HB HS E) as (w' & ? & ? & ? & ?). eauto 10.
Qed.

(** C34: Symbols are unique: [SymbolFor] always returns a symbol with the characters asked
    for, every other symbol has other characters, so that comparing pointers compares
    characters; asking for characters again returns the same symbol exactly if they are
    the same; and no object is changed. *)
Theorem symbols_unique w str :
  heap_ok w -> symbols_ok w ->
  exists l w', SymbolFor str w = Ok (l, w') /\ symbols_ok w'
    /\ chars w' l = Some str
    /\ (forall l' str', chars w' l' = Some str' -> (l' = l <-> str' = str))
    /\ (forall l' o, heap w !! l' = Some o -> heap w' !! l' = Some o)
    /\ SymbolFor str w' = Ok (l, w').
Proof.
  intros HO HS. destruct (SymbolFor_ok w str (heap_below w HO) HS) as (l & w' & E & HS' & C & K).
  exists l, w'. split; [done|]. split; [done|]. split; [done|]. split; [|split; [done|]].
  - intros l' str' C'. split; [congruence|]. intros ->.
    apply HS' in C, C'. congruence.
  - unfold SymbolFor. mrun. apply HS' in C. by rewrite C.
Qed.

(** ** A concrete hierarchy

    nil, a class with one method and a subclass without; the symbol has the method in
    its cache for the class. *)

Definition small_heap : list (loc * obj) :=
  [(0, OObject KObject Null []);
   (1, OSymbol (mkSymbol "run" [(Ref 2, Ref 4); (Null, Null); (Null, Null)] 1));
   (2, OObject KClass Null [Null; Null; Ref 3; Ref 0]);
   (3, OObject KArray Null [Ref 4]);
   (4, OTrivial 1 (Ref 2) 1 [] (VMLiteralReturn (Ref 0)));
   (5, OObject KClass Null [Null; Null; Ref 6; Ref 2]);
   (6, OObject KArray Null [])]%nat.

Definition small_world : World :=
  mkWorld (list_to_map small_heap) 7%nat ∅ 0%nat ∅ ∅ ∅
    (no_known (Ref 0%nat)) None 0%nat 0.

Lemma small_world_entries l o : heap small_world !! l = Some o -> (l, o) ∈ small_heap.
Proof. apply elem_of_list_to_map_2. Qed.

Lemma small_world_finds_4 :
  finds (heap small_world) (Ref 0%nat) 1%nat 2%nat [2%nat] (Some 4%nat).
Proof. by eapply finds_here. Qed.

Lemma small_world_heap_ok : heap_ok small_world.
Proof.
  split.
  - intros l o H. apply small_world_entries in H. unfold small_heap in H. set_unfold in H.
    repeat (destruct H as [?|H]; [simplify_eq; cbn; lia|]). done.
  - intros l k c es H. apply small_world_entries in H. unfold small_heap in H. set_unfold in H.
    repeat (destruct H as [?|H]; [simplify_eq; cbn; lia|]). done.
Qed.

Lemma small_world_cache_sound : cache_sound small_world.
Proof.
  intros name s c i H Hin. apply small_world_entries in H. unfold small_heap in H.
  set_unfold in H. destruct_or! H; simplify_eq; try done.
  set_unfold in Hin. destruct_or! Hin; simplify_eq; try done.
  exists 2%nat, [2%nat]. split; [done|apply small_world_finds_4].
Qed.

Lemma lookup_refines_hierarchy_witness :
  exists w', LookupInvokable (Ref 5%nat) 1%nat small_world = Ok (Some 4%nat, w')
             /\ cache_only 1%nat small_world w' /\ cache_sound w'.
Proof.
  eapply (lookup_refines_hierarchy small_world 1%nat _ 5%nat [5%nat; 2%nat]).
  - apply small_world_heap_ok.
  - apply small_world_cache_sound.
  - reflexivity.
  - eapply finds_super; [reflexivity|reflexivity|discriminate|apply small_world_finds_4].
Defined.

Definition symbol_world : World := set_symbolsMap {["run"%string := 1%nat]} small_world.

Lemma symbol_world_ok : symbols_ok symbol_world.
Proof.
  intros str l. unfold chars. cbn [heap symbol_world set_symbolsMap]. split.
  - intros H. change (({["run"%string := 1%nat]} : gmap string loc) !! str = Some l) in H.
    apply lookup_singleton_Some in H as [<- <-]. done.
  - destruct (heap small_world !! l) as [o|] eqn:E; [|done]. apply small_world_entries in E.
    unfold small_heap in E. set_unfold in E. destruct_or! E; simplify_eq; try done.
    by intros [= <-].
Qed.

Lemma symbols_unique_witness :
  exists l w', SymbolFor "walk" symbol_world = Ok (l, w') /\ symbols_ok w'
    /\ chars w' l = Some "walk"%string
    /\ (forall l' str', chars w' l' = Some str' -> (l' = l <-> str' = "walk"%string))
    /\ (forall l' o, heap symbol_world !! l' = Some o -> heap w' !! l' = Some o)
    /\ SymbolFor "walk" w' = Ok (l, w').
Proof.
  apply (symbols_unique symbol_world "walk").
  - destruct small_world_heap_ok as [B A]. split; [exact B|exact A].
  - apply symbol_world_ok.
Defined.
