(* ===== verification/Universe.v ===== *)
(** * The universe: allocation, globals, primitives

    The allocation functions and the globals of [src/src/vm/Universe.cpp], the
    installation of primitives ([vmobjects/VMClass.cpp],
    [primitivesCore/PrimitiveContainer.cpp]) and the views of an object as a number
    ([vmobjects/ObjectFormats.h]).  The build option [USE_TAGGING] is a parameter;
    without it integers are heap objects (the optional cache of prebuilt integers is
    off). *)
From Stdlib Require Import Ascii String SpecFloat.
From S2P Require Import Prelude InfIntBase InfIntMul IntegerPrims Hashing Objects.
Local Open Scope Z_scope.

(** ** Globals *)

Definition GetGlobal (name : loc) : V oop :=
  g ← gets globals; mret (default Null (g !! name)).

Definition HasGlobal (name : loc) : V bool :=
  g ← gets globals; mret (bool_decide (is_Some (g !! name))).

Definition SetGlobal (name : loc) (val : oop) : V () :=
  modify (fun w => set_globals (<[name := val]> (globals w)) w).

(** ** Arrays and instances *)

Definition NewArray (size : Z) : V oop :=
  k ← gets known;
  l ← alloc (OObject KArray (arrayClass k) (replicate (Z.to_nat size) (nilObject k)));
  mret (Ref l).

Fixpoint copy_elements (n : nat) (i : Z) (from to : oop) : V () :=
  match n with
  | O => mret tt
  | S n =>
      e ← GetIndexableField from i;
      SetIndexableField to i e;;
      copy_elements n (i + 1) from to
  end.

(** [VMArray::CopyIndexableFieldsTo] *)
Definition CopyIndexableFieldsTo (from to : oop) : V () :=
  n ← GetNumberOfIndexableFields from; copy_elements (Z.to_nat n) 0 from to.

Definition NewExpandedArrayFromArray (size : Z) (array : oop) : V oop :=
  n ← GetNumberOfIndexableFields array;
  result ← NewArray size;
  copy_elements (Z.to_nat n) 0 array result;;
  mret result.

(** [VMArray::Copy] and [VMArray::CopyAndExtendWith] *)
Definition array_Copy (a : oop) : V oop :=
  es ← array_elements a;
  k ← gets known;
  l ← alloc (OObject KArray (arrayClass k) es);
  mret (Ref l).

Definition CopyAndExtendWith (a item : oop) : V oop :=
  fields ← GetNumberOfIndexableFields a;
  result ← NewArray (fields + 1);
  CopyIndexableFieldsTo a result;;
  SetIndexableField result fields item;;
  mret result.

Fixpoint fill_array (a : oop) (i : Z) (list : list oop) : V () :=
  match list with
  | [] => mret tt
  | e :: r => SetIndexableField a i e;; fill_array a (i + 1) r
  end.

Definition NewArrayList (list : list oop) : V oop :=
  result ← NewArray (Z.of_nat (length list));
  fill_array result 0 list;;
  mret result.

Fixpoint symbols_for (strings : list string) : V (list oop) :=
  match strings with
  | [] => mret []
  | s :: r => l ← SymbolFor s; ls ← symbols_for r; mret (Ref l :: ls)
  end.

(** The symbols are made after the array, as in the code. *)
Definition NewArrayOfSymbolsFromStrings (strings : list string) : V oop :=
  result ← NewArray (Z.of_nat (length strings));
  es ← symbols_for strings;
  fill_array result 0 es;;
  mret result.

Definition NewInstance (classOfInstance : oop) : V oop :=
  numOfFields ← GetNumberOfInstanceFields classOfInstance;
  k ← gets known;
  l ← alloc (OObject KObject classOfInstance (replicate (Z.to_nat numOfFields) (nilObject k)));
  mret (Ref l).

(** A class has the four fields of every class and those that its metaclass
    declares. *)
Definition VMClassNumberOfFields : nat := 4.

Definition NewClass (classOfClass : oop) : V oop :=
  numFields ← GetNumberOfInstanceFields classOfClass;
  k ← gets known;
  l ← alloc (OObject KClass classOfClass
               (replicate (Z.to_nat numFields + VMClassNumberOfFields) (nilObject k)));
  mret (Ref l).

Definition NewString (str : string) : V oop := l ← alloc (OString str); mret (Ref l).

Definition NewDouble (value : spec_float) : V oop := l ← alloc (ODouble value); mret (Ref l).

Definition NewMethod (signature : loc) (bytecodes : list Z) (constants : list oop)
    (numLocals maxStackDepth : nat) (scope : scope_id) (inlinedLoops : list BackJump) : V loc :=
  n ← GetNumberOfArguments signature;
  alloc (OMethod (mkMethod signature Null numLocals maxStackDepth bytecodes n constants
                    scope inlinedLoops)).

(** [VMFrame::VMFrame]: the locals and the stack are nil, the arguments are copied in
    later; [f_slots] reaches to the last local. *)
Definition new_frame (nil : oop) (length : nat) (previousFrame : option loc)
    (m : loc) (numArgs numLocals : nat) : Frame :=
  mkFrame previousFrame None m 0 numArgs
    (replicate numArgs Null ++ replicate numLocals nil) length.

Definition NewFrame (previousFrame : option loc) (m : loc) : V loc :=
  meth ← load_method m;
  k ← gets known;
  let length := (m_numberOfArguments meth + m_numberOfLocals meth + m_maxStack meth)%nat in
  alloc (OFrame (new_frame (nilObject k) length previousFrame m
                   (m_numberOfArguments meth) (m_numberOfLocals meth))).

(** ** Classes of objects *)

Definition GetClass (o : obj) : V oop :=
  k ← gets known;
  match o with
  | OInteger _ | OBigInteger _ => mret (integerClass k)
  | ODouble _ => mret (doubleClass k)
  | OString _ => mret (stringClass k)
  | OSymbol _ => mret (symbolClass k)
  | OObject _ c _ => mret c
  | OFrame _ => mret Null
  | OMethod _ | OTrivial _ _ _ _ _ => mret (methodClass k)
  | OPrimitive _ _ _ => mret (primitiveClass k)
  end.

Definition CLASS_OF (x : oop) : V oop :=
  match x with
  | Tagged _ => k ← gets known; mret (integerClass k)
  | _ => o ← deref x; GetClass o
  end.

(** ** Holders and primitives *)

Definition SetInstanceInvokable (cls : oop) (index : Z) (invokable : oop) : V () :=
  a ← GetInstanceInvokables cls;
  SetIndexableField a index invokable;;
  k ← gets known;
  if decide (invokable = nilObject k) then mret tt
  else inv ← loc_of invokable; fuel ← heap_fuel; SetHolder fuel inv cls.

Fixpoint set_holders (n : nat) (i : Z) (cls : oop) : V () :=
  match n with
  | O => mret tt
  | S n =>
      p ← GetInstanceInvokable cls i;
      k ← gets known;
      (if decide (p = nilObject k) then mret tt
       else inv ← loc_of p; fuel ← heap_fuel; SetHolder fuel inv cls);;
      set_holders n (i + 1) cls
  end.

Definition SetInstanceInvokables (cls invokables : oop) : V () :=
  set_class_field 2 cls invokables;;
  n ← GetNumberOfInstanceInvokables cls;
  set_holders (Z.to_nat n) 0 cls.

Inductive PrimInstallResult : Type :=
  | NULL_ARG | NULL_IN_INVOKABLES | HASH_MISMATCH | INSTALLED_REPLACED | INSTALLED_ADDED.

#[export] Instance PrimInstallResult_eq_dec : EqDecision PrimInstallResult.
Proof. solve_decision. Defined.

Definition GetBytecodeHash (m : Method) : Z := murmur3_32 (m_bytecodes m) 0.

(** What is installed in place of [inv]: the hash of the method that is replaced has
    to be the expected one, unless 0 is given for it. *)
Definition replacement (inv : obj) (bytecodeHash : Z) : PrimInstallResult :=
  if negb (bytecodeHash =? 0) then
    match inv with
    | OMethod m =>
        if GetBytecodeHash m =? bytecodeHash then INSTALLED_REPLACED else HASH_MISMATCH
    | _ => HASH_MISMATCH
    end
  else INSTALLED_REPLACED.

Fixpoint install_search (n : nat) (i : Z) (cls : oop) (invokable : loc) (bytecodeHash : Z)
    : V (option PrimInstallResult) :=
  match n with
  | O => mret None
  | S n =>
      p ← GetInstanceInvokable cls i;
      match p with
      | Null => fail (ErrorExit "Invokables array corrupted. Either NULL pointer added or pointer to non-invokable.")
      | _ =>
          inv ← loc_of p;
          sig1 ← GetSignature invokable;
          sig2 ← GetSignature inv;
          if decide (sig1 = sig2) then
            o ← load inv;
            match replacement o bytecodeHash with
            | HASH_MISMATCH => mret (Some HASH_MISMATCH)
            | result => SetInstanceInvokable cls i (Ref invokable);; mret (Some result)
            end
          else install_search n (i + 1) cls invokable bytecodeHash
      end
  end.

Definition InstallPrimitive (cls : oop) (invokable : loc) (bytecodeHash : Z)
    : V PrimInstallResult :=
  n ← GetNumberOfInstanceInvokables cls;
  r ← install_search (Z.to_nat n) 0 cls invokable bytecodeHash;
  match r with
  | Some result => mret result
  | None =>
      a ← GetInstanceInvokables cls;
      a' ← CopyAndExtendWith a (Ref invokable);
      set_class_field 2 cls a';;
      k ← gets known;
      (if decide (Ref invokable = nilObject k) then mret tt
       else fuel ← heap_fuel; SetHolder fuel invokable cls);;
      mret INSTALLED_ADDED
  end.

(** ** Tables of primitives

    A routine with its side and the hash of the method it may replace; a second
    routine is tried when the hash does not match. *)
Record Prim : Type := mkPrim { pr_routine : string; pr_isClassSide : bool; pr_bytecodeHash : Z }.

Definition PrimTable : Type := list (string * (Prim * option Prim)).

Record PrimitiveContainer : Type := mkContainer {
  unaryPrims : PrimTable; binaryPrims : PrimTable;
  ternaryPrims : PrimTable; framePrims : PrimTable }.

Definition new_primitive (mk : string -> primitive) (sig : loc) (p : Prim) : V loc :=
  alloc (OPrimitive sig Null (mk (pr_routine p))).

Definition is_mismatch (r : PrimInstallResult) : bool := bool_decide (r = HASH_MISMATCH).

Fixpoint installPrimitives (classSide : bool) (clazz : oop) (mk : string -> primitive)
    (prims : PrimTable) (hasHashMismatch : bool) : V bool :=
  match prims with
  | [] => mret hasHashMismatch
  | (name, (prim1, prim2)) :: rest =>
      if negb (Bool.eqb classSide (pr_isClassSide prim1))
      then installPrimitives classSide clazz mk rest hasHashMismatch
      else
        sig ← SymbolFor name;
        p1 ← new_primitive mk sig prim1;
        r1 ← InstallPrimitive clazz p1 (pr_bytecodeHash prim1);
        match prim2 with
        | None =>
            installPrimitives classSide clazz mk rest (hasHashMismatch || is_mismatch r1)
        | Some prim2 =>
            if is_mismatch r1 then
              p2 ← new_primitive mk sig prim2;
              r2 ← InstallPrimitive clazz p2 (pr_bytecodeHash prim2);
              installPrimitives classSide clazz mk rest (hasHashMismatch || is_mismatch r2)
            else installPrimitives classSide clazz mk rest hasHashMismatch
        end
  end.

(** [hasHashMismatch = hasHashMismatch || installPrimitives(...)]: the call is not
    made once there was a mismatch. *)
Definition or_install (hasHashMismatch : bool) (install : V bool) : V bool :=
  if hasHashMismatch then mret true else install.

Definition InstallPrimitives (abortOnCoreLibHashMismatch : bool) (c : PrimitiveContainer)
    (clazz : oop) (classSide : bool) : V () :=
  m1 ← installPrimitives classSide clazz SafeUnaryPrim (unaryPrims c) false;
  m2 ← or_install m1 (installPrimitives classSide clazz SafeBinaryPrim (binaryPrims c) false);
  m3 ← or_install m2 (installPrimitives classSide clazz SafeTernaryPrim (ternaryPrims c) false);
  m4 ← or_install m3 (installPrimitives classSide clazz FramePrim (framePrims c) false);
  if abortOnCoreLibHashMismatch && m4
  then fail (ErrorExit "The implementation of methods seem to have changed.")
  else mret tt.

(** ** Blocks *)

Section Blocks.

(** Compiling a class file, [Universe::LoadClassBasic]; null if there is none. *)
Context (LoadClassBasic : loc -> V oop).

Definition decimal_string (n : nat) : string :=
  string_of_list_ascii (InfIntText.decimal 4 (Z.of_nat n)).

(** [value], [value:], [value:with:] and so on; there is always the receiver. *)
Definition computeSignatureString (argc : nat) : V loc :=
  match argc with
  | O => fail Undef
  | S O => SymbolFor "value"
  | S (S n) => SymbolFor ("value:" ++ String.concat "" (repeat "with:"%string n))
  end.

Definition GetBlockClassWithArgs (numberOfArguments : nat) : V oop :=
  b ← gets blockClassesByNoOfArgs;
  match b !! numberOfArguments with
  | Some c => mret c
  | None =>
      name ← SymbolFor ("Block" ++ decimal_string numberOfArguments);
      result ← LoadClassBasic name;
      sig ← computeSignatureString numberOfArguments;
      prim ← alloc (OPrimitive sig Null (EvaluationPrim numberOfArguments));
      InstallPrimitive result prim 0;;
      SetGlobal name result;;
      modify (fun w => set_blockClasses (<[numberOfArguments := result]> (blockClassesByNoOfArgs w)) w);;
      mret result
  end.

Definition NewBlock (m : oop) (context : oop) (arguments : nat) : V oop :=
  l ← alloc (OObject KBlock Null [m; context]);
  c ← GetBlockClassWithArgs arguments;
  SetClass (Ref l) c;;
  mret (Ref l).

End Blocks.

(** ** Numbers *)

Section Numbers.

Context (USE_TAGGING : bool).

Definition NEW_INT (x : Z) : V oop :=
  if USE_TAGGING then
    if within_tagged_range x then mret (Tagged x)
    else l ← alloc (OBigInteger (InfInt_of_int64 x)); mret (Ref l)
  else l ← alloc (OInteger x); mret (Ref l).

(** [IS_SMALL_INT] together with [SMALL_INT_VAL]. *)
Definition small_int (x : oop) : V (option Z) :=
  match x with
  | Tagged z => mret (if USE_TAGGING then Some z else None)
  | Null => mret None
  | Ref l =>
      if USE_TAGGING then mret None
      else o ← load l; mret (match o with OInteger z => Some z | _ => None end)
  end.

(** The value of something else is undefined. *)
Definition SMALL_INT_VAL (x : oop) : V Z := z ← small_int x; lift (of_option Undef z).

(** [IS_DOUBLE] together with [AS_DOUBLE]. *)
Definition as_double (x : oop) : V (option spec_float) :=
  match x with
  | Ref l => o ← load l; mret (match o with ODouble d => Some d | _ => None end)
  | _ => mret None
  end.

Definition IS_TAGGED (x : oop) : bool :=
  match x with Tagged _ => USE_TAGGING | _ => false end.

End Numbers.

Definition boolean (b : bool) : V oop :=
  k ← gets known; mret (if b then trueObject k else falseObject k).
