(* ===== verification/Doubles.v ===== *)
(** * The primitives of Double

    [src/src/primitives/Double.cpp]: arithmetic, comparisons and conversions of IEEE
    doubles, with [llround], [std::stod] and the output with 17 digits of the standard
    library.  The sine and the cosine are a parameter: the precision of the library's
    ones is its own. *)
From Stdlib Require Import String Ascii SpecFloat.
From S2P Require Import Prelude InfIntBase InfIntMul InfIntText IntegerPrims Objects Universe.
Local Open Scope Z_scope.

(** ** The library's functions on doubles *)

(** [llround]: halves away from zero; outside the range the result is unspecified. *)
Definition f64_llround (d : spec_float) : result Z :=
  match d with
  | S754_zero _ => Ok 0
  | S754_finite s m e =>
      let n := if 0 <=? e then Z.shiftl (Zpos m) e
               else Z.shiftr (Zpos m + Z.shiftl 1 (- e - 1)) (- e) in
      let z := if s then - n else n in
      if (INT64_MIN <=? z) && (z <=? INT64_MAX) then Ok z else Err Undef
  | _ => Err Undef
  end.

(** The double nearest to [n / d], for positive numbers. *)
Definition f64_of_ratio (neg : bool) (n d : Z) : spec_float :=
  let '(q, e, l) := SFdiv_core_binary 53 1024 n 0 d 0 in binary_round_aux 53 1024 neg q e l.

(** *** Reading

    [std::stod]: spaces, a sign, digits with or without a decimal mark, an exponent;
    what follows is not looked at.  It throws when there is no digit, and when the
    number is too large or too small.  The names of infinity and of the values that are
    no numbers and hexadecimal digits are not modelled. *)
Definition is_letter (code : Z) (c : ascii) : bool := (chr c =? code) || (chr c =? code + 32).

Definition read_exponent (s : list ascii) : Z :=
  match s with
  | c :: r =>
      if is_letter 69 c then
        let neg := match r with c :: _ => is_minus c | [] => false end in
        let body := match r with c :: q => if is_minus c || is_plus c then q else r | [] => [] end in
        let x := dval (leading_digits body) in if neg then - x else x
      else 0
  | [] => 0
  end.

Definition read_decimal (s : list ascii) : option (Z * Z) :=
  let whole := leading_digits s in
  let rest := drop (length whole) s in
  let fraction := match rest with c :: r => if chr c =? 46 then leading_digits r else [] | [] => [] end in
  let rest' := match rest with c :: r => if chr c =? 46 then drop (length fraction) r else rest | [] => [] end in
  match whole ++ fraction with
  | [] => None
  | ds => Some (dval ds, read_exponent rest' - Z.of_nat (length fraction))
  end.

Definition f64_of_decimal (neg : bool) (n k : Z) : spec_float :=
  if n =? 0 then S754_zero neg
  else if 0 <=? k then f64_of_ratio neg (n * 10 ^ k) 1
  else f64_of_ratio neg n (10 ^ (- k)).

(** A number that has lost precision because it is too small. *)
Definition tiny (d : spec_float) : bool :=
  match d with
  | S754_zero _ => true
  | S754_finite _ m _ => Zpos m <? 2 ^ 52
  | _ => false
  end.

Definition stod (s : list ascii) : result spec_float :=
  let s := skip_spaces s in
  let neg := match s with c :: _ => is_minus c | [] => false end in
  let body := match s with c :: r => if is_minus c || is_plus c then r else s | [] => [] end in
  match body with
  | c :: r =>
      if is_letter 73 c || is_letter 78 c ||
         ((chr c =? 48) && match r with x :: _ => is_letter 88 x | [] => false end)
      then Err Undef
      else
        match read_decimal body with
        | None => Err (ErrorExit "std::invalid_argument")
        | Some (n, k) =>
            let d := f64_of_decimal neg n k in
            match d with
            | S754_infinity _ => Err (ErrorExit "std::out_of_range")
            | _ => if tiny d && negb (n =? 0) then Err Undef else Ok d
            end
        end
  | [] => Err (ErrorExit "std::invalid_argument")
  end.

(** *** Printing

    A stream with precision [p] prints like [%.pg]: the nearest number with [p] digits,
    in fixed notation for the exponents -4 to [p - 1], without trailing zeros. *)

(** The power of ten of the first digit of [n / d]: the candidates are tried downwards,
    from one that is not too small by the length of the numbers. *)
Fixpoint decimal_exponent (fuel : nat) (x n d : Z) : Z :=
  match fuel with
  | O => x
  | S fuel =>
      if (if 0 <=? x then d * 10 ^ x <=? n else d <=? n * 10 ^ (- x)) then x
      else decimal_exponent fuel (x - 1) n d
  end.

(** [n / d * 10^k] to the nearest integer, halves to even. *)
Definition scaled (n d k : Z) : Z :=
  let n' := if 0 <=? k then n * 10 ^ k else n in
  let d' := if 0 <=? k then d else d * 10 ^ (- k) in
  let q := n' / d' in
  let r := 2 * (n' mod d') in
  if (r >? d') || ((r =? d') && Z.odd q) then q + 1 else q.

Fixpoint drop_zeros (rs : list ascii) : list ascii :=
  match rs with c :: r => if chr c =? 48 then drop_zeros r else rs | [] => [] end.

Definition trim_zeros (ds : list ascii) : list ascii := rev (drop_zeros (rev ds)).

Definition with_mark (whole fraction : list ascii) : list ascii :=
  match trim_zeros fraction with [] => whole | f => whole ++ of_chr 46 :: f end.

Definition print_exponent (x : Z) : list ascii :=
  of_chr 101 :: of_chr (if x <? 0 then 45 else 43) ::
  (let ds := decimal 4 (Z.abs x) in replicate (2 - length ds) (of_chr 48) ++ ds).

Definition print_decimal (p : nat) (n d : Z) : list ascii :=
  let x0 := decimal_exponent 8 ((Z.log2 n - Z.log2 d + 1) * 30103 / 100000 + 1) n d in
  let q := Z.of_nat p in
  let m0 := scaled n d (q - 1 - x0) in
  let '(x, m) := if m0 =? 10 ^ q then (x0 + 1, 10 ^ (q - 1)) else (x0, m0) in
  let ds := decimal p m in
  if (x <? - 4) || (x >=? q) then with_mark (take 1 ds) (drop 1 ds) ++ print_exponent x
  else if x <? 0 then with_mark [of_chr 48] (replicate (Z.to_nat (- x - 1)) (of_chr 48) ++ ds)
  else with_mark (take (Z.to_nat x + 1) ds) (drop (Z.to_nat x + 1) ds).

Definition print_double_with (p : nat) (d : spec_float) : string :=
  let sign (s : bool) := if s then [of_chr 45] else [] in
  match d with
  | S754_zero s => string_of_list_ascii (sign s ++ [of_chr 48])
  | S754_infinity s => if s then "-inf" else "inf"
  | S754_nan => "nan"
  | S754_finite s m e =>
      let n := if 0 <=? e then Z.shiftl (Zpos m) e else Zpos m in
      let den := if 0 <=? e then 1 else 2 ^ (- e) in
      string_of_list_ascii (sign s ++ print_decimal p n den)
  end.

Definition print_double : spec_float -> string := print_double_with 17.

(** ** The primitives *)

Section Primitives.

Context (USE_TAGGING : bool) (cos sin : spec_float -> spec_float).

Definition coerceDouble (x : oop) : V spec_float :=
  z ← small_int USE_TAGGING x;
  match z with
  | Some z => mret (f64_of_Z z)
  | None =>
      d ← as_double x;
      match d with
      | Some d => mret d
      | None =>
          match x with
          | Ref l =>
              o ← load l;
              match o with
              | OBigInteger i => mret (toDouble i)
              | _ => fail (ErrorExit "Attempt to apply Double operation to non-number.")
              end
          | _ => fail (ErrorExit "Attempt to apply Double operation to non-number.")
          end
      end
  end.

Definition GetEmbeddedDouble (x : oop) : V spec_float := d ← as_double x; lift (of_option Undef d).

(** [PREPARE_OPERANDS], then [op] *)
Definition with_operands {A} (leftPtr rightObj : oop) (op : spec_float -> spec_float -> V A) : V A :=
  right ← coerceDouble rightObj;
  left ← GetEmbeddedDouble leftPtr;
  op left right.

Definition dblPlus (l r : oop) : V oop := with_operands l r (fun x y => NewDouble (f64_add x y)).
Definition dblMinus (l r : oop) : V oop := with_operands l r (fun x y => NewDouble (f64_sub x y)).
Definition dblStar (l r : oop) : V oop := with_operands l r (fun x y => NewDouble (f64_mul x y)).
Definition dblSlashslash (l r : oop) : V oop := with_operands l r (fun x y => NewDouble (f64_div x y)).

(** The remainder of the truncated numbers. *)
Definition dblPercent (l r : oop) : V oop :=
  with_operands l r (fun x y =>
    a ← lift (int64_of_f64 x); b ← lift (int64_of_f64 y); z ← lift (int64_rem a b);
    NewDouble (f64_of_Z z)).

Definition dblEqual (l r : oop) : V oop := with_operands l r (fun x y => boolean (SFeqb x y)).
Definition dblUnequal (l r : oop) : V oop := with_operands l r (fun x y => boolean (negb (SFeqb x y))).
Definition dblLowerthan (l r : oop) : V oop := with_operands l r (fun x y => boolean (SFltb x y)).
Definition dblLowerThanEqual (l r : oop) : V oop := with_operands l r (fun x y => boolean (SFleb x y)).
Definition dblGreaterThan (l r : oop) : V oop := with_operands l r (fun x y => boolean (SFltb y x)).
Definition dblGreaterThanEqual (l r : oop) : V oop := with_operands l r (fun x y => boolean (SFleb y x)).

Definition dblMin (l r : oop) : V oop :=
  with_operands l r (fun x y => mret (if SFltb x y then l else r)).
Definition dblMax (l r : oop) : V oop :=
  with_operands l r (fun x y => mret (if SFltb y x then l else r)).

Definition dblCos (rcvr : oop) : V oop := d ← GetEmbeddedDouble rcvr; NewDouble (cos d).
Definition dblSin (rcvr : oop) : V oop := d ← GetEmbeddedDouble rcvr; NewDouble (sin d).
Definition dblSqrt (rcvr : oop) : V oop := d ← GetEmbeddedDouble rcvr; NewDouble (f64_sqrt d).

Definition dblAsString (rcvr : oop) : V oop := d ← GetEmbeddedDouble rcvr; NewString (print_double d).

Definition dblRound (rcvr : oop) : V oop :=
  d ← GetEmbeddedDouble rcvr; z ← lift (f64_llround d); NEW_INT USE_TAGGING z.

Definition dblAsInteger (rcvr : oop) : V oop :=
  d ← GetEmbeddedDouble rcvr; z ← lift (int64_of_f64 d); NEW_INT USE_TAGGING z.

Definition dblPositiveInfinity (rcvr : oop) : V oop := NewDouble (S754_infinity false).

Definition dblFromString (rcvr rightObj : oop) : V oop :=
  o ← deref rightObj;
  match o with
  | OString s => d ← lift (stod (list_ascii_of_string s)); NewDouble d
  | OSymbol s => d ← lift (stod (list_ascii_of_string (sym_chars s))); NewDouble d
  | _ => fail Undef
  end.

End Primitives.

(** ** Doubles that are integers

    [double_int d z]: the double stands for the integer [z] of at most 53 bits; it is
    normalised, and zero may have either sign. *)
Definition double_int (d : spec_float) (z : Z) : Prop :=
  Z.abs z < 2 ^ 53 /\
  match d with
  | S754_zero _ => z = 0
  | S754_finite s m e =>
      2 ^ 52 <= Zpos m < 2 ^ 53 /\ - 52 <= e <= 0 /\ z * 2 ^ (- e) = cond_Zopp s (Zpos m)
  | _ => False
  end.

Lemma digits2_bounds p : 2 ^ (Zpos (digits2_pos p) - 1) <= Zpos p < 2 ^ Zpos (digits2_pos p).
Proof.
  induction p as [p IH|p IH|]; cbn [digits2_pos]; [| |done]; rewrite Pos2Z.inj_succ.
  all: replace (Z.succ (Zpos (digits2_pos p)) - 1) with (Z.succ (Zpos (digits2_pos p) - 1)) by lia.
  all: rewrite !Z.pow_succ_r by lia; lia.
Qed.

Lemma digits2_unique p k : 0 < k -> 2 ^ (k - 1) <= Zpos p < 2 ^ k -> Zpos (digits2_pos p) = k.
Proof.
  intros Hk H. pose proof (digits2_bounds p) as B.
  assert (Zpos (digits2_pos p) - 1 < k) by (apply (Z.pow_lt_mono_r_iff 2); lia).
  assert (k - 1 < Zpos (digits2_pos p)) by (apply (Z.pow_lt_mono_r_iff 2); lia). lia.
Qed.

Lemma iter_xO m d : Zpos (Pos.iter xO m d) = Zpos m * 2 ^ Zpos d.
Proof.
  induction d as [|d IH] using Pos.peano_ind; [cbn; lia|].
  rewrite Pos.iter_succ, Pos2Z.inj_succ, Z.pow_succ_r by lia. lia.
Qed.

(** Shifting out zeros. *)
Lemma shr_1_even m : 0 < m -> shr_1 (Build_shr_record (2 * m) false false) = Build_shr_record m false false.
Proof. by destruct m. Qed.

Lemma iter_shr p : forall m, 0 < m ->
  SpecFloat.iter_pos shr_1 p (Build_shr_record (m * 2 ^ Zpos p) false false) = Build_shr_record m false false.
Proof.
  induction p as [p IH|p IH|]; intros m Hm; cbn [SpecFloat.iter_pos].
  - replace (m * 2 ^ Zpos p~1) with (2 * (m * 2 ^ Zpos p * 2 ^ Zpos p)).
    2:{ rewrite (Pos2Z.inj_xI p). replace (2 * Zpos p + 1) with (Zpos p + Zpos p + 1) by lia.
        rewrite !Z.pow_add_r by lia. lia. }
    rewrite shr_1_even by (pose proof (Z.pow_pos_nonneg 2 (Zpos p)); nia).
    rewrite IH by (pose proof (Z.pow_pos_nonneg 2 (Zpos p)); nia). by apply IH.
  - replace (m * 2 ^ Zpos p~0) with (m * 2 ^ Zpos p * 2 ^ Zpos p).
    2:{ rewrite (Pos2Z.inj_xO p). replace (2 * Zpos p) with (Zpos p + Zpos p) by lia.
        rewrite Z.pow_add_r by lia. lia. }
    rewrite IH by (pose proof (Z.pow_pos_nonneg 2 (Zpos p)); nia). by apply IH.
  - replace (m * 2 ^ 1) with (2 * m) by lia. by apply shr_1_even.
Qed.

(** Rounding a number [a * 2^j] with at least 53 digits whose [a] has at most 53: the
    digits to be shifted out are zeros. *)
Lemma round_exact sx p e a j :
  Zpos p = a * 2 ^ j -> 0 < a < 2 ^ 53 -> 0 <= j -> 53 <= Zpos (digits2_pos p) ->
  e = - j -> j <= 1000 -> exists m e',
  binary_round_aux 53 1024 sx (Zpos p) e loc_Exact = S754_finite sx m e' /\
  2 ^ 52 <= Zpos m < 2 ^ 53 /\ - 52 <= e' <= 0 /\ a * 2 ^ (- e') = Zpos m.
Proof.
  intros Hp Ha Hj Hd -> Hj'. pose proof (digits2_bounds p) as B. set (s := Zpos (digits2_pos p) - 53) in *.
  assert (0 <= s) as Hs0 by lia.
  assert (s <= j) as Hs.
  { destruct (Z_lt_le_dec j s); [|done].
    assert (2 ^ (Zpos (digits2_pos p) - 1) = 2 ^ 52 * 2 ^ s) as E by (rewrite <- Z.pow_add_r by lia; f_equal; lia).
    assert (2 ^ (j + 1) <= 2 ^ s) by (apply Z.pow_le_mono_r; lia).
    rewrite Z.pow_add_r in * by lia. nia. }
  assert (Zpos p = a * 2 ^ (j - s) * 2 ^ s) as Hp'.
  { rewrite <- Z.mul_assoc, <- Z.pow_add_r by lia. rewrite Hp. f_equal. f_equal. lia. }
  assert (0 < a * 2 ^ (j - s)) as Hpos by (pose proof (Z.pow_pos_nonneg 2 (j - s)); nia).
  destruct (a * 2 ^ (j - s)) as [|m|] eqn:Em; [lia| |lia].
  assert (2 ^ 52 <= Zpos m < 2 ^ 53) as Hm.
  { pose proof (Z.pow_pos_nonneg 2 s).
    replace (2 ^ (Zpos (digits2_pos p) - 1)) with (2 ^ 52 * 2 ^ s) in B by (rewrite <- Z.pow_add_r by lia; f_equal; lia).
    replace (2 ^ Zpos (digits2_pos p)) with (2 ^ 53 * 2 ^ s) in B by (rewrite <- Z.pow_add_r by lia; f_equal; lia).
    nia. }
  assert (j - s <= 52) as Hjs.
  { destruct (Z_lt_le_dec 52 (j - s)); [|lia].
    assert (2 ^ 53 <= 2 ^ (j - s)) by (apply Z.pow_le_mono_r; lia). nia. }
  exists m, (s - j). split; [|split; [done|split; [lia|]]].
  2:{ rewrite <- Em. f_equal. f_equal. lia. }
  assert (forall e, - 1000 <= e -> shr_fexp 53 1024 (Zpos m) e loc_Exact = (Build_shr_record (Zpos m) false false, e)) as Hfix.
  { intros e He. unfold shr_fexp. cbn [Zdigits2 shr_record_of_loc].
    rewrite (digits2_unique m 53) by lia. unfold fexp, emin.
    replace (Z.max (53 + e - 53) (3 - 1024 - 53) - e) with 0 by lia. done. }
  unfold binary_round_aux.
  assert (shr_fexp 53 1024 (Zpos p) (- j) loc_Exact = (Build_shr_record (Zpos m) false false, s - j)) as ->.
  { unfold shr_fexp. cbn [Zdigits2 shr_record_of_loc]. unfold fexp, emin.
    replace (Z.max (Zpos (digits2_pos p) + - j - 53) (3 - 1024 - 53) - - j) with s by lia.
    destruct s as [|s'|]; [|cbn [shr]|lia].
    - cbn [shr]. replace (Zpos p) with (Zpos m) by lia. f_equal; lia.
    - rewrite Hp', iter_shr by done. f_equal. lia. }
  cbn [loc_of_shr_record shr_m round_nearest_even]. rewrite Hfix by lia. cbn [shr_m].
  rewrite (proj2 (Z.leb_le _ _)) by lia. done.
Qed.

(** [binary_normalize] of a number [z * 2^j] with the exponent [-j]. *)
Lemma normalize_exact z j szero :
  Z.abs z < 2 ^ 53 -> 0 <= j <= 900 -> double_int (binary_normalize 53 1024 (z * 2 ^ j) (- j) szero) z.
Proof.
  intros Hz Hj. split; [done|]. pose proof (Z.pow_pos_nonneg 2 j) as Hpow.
  assert (forall sx p, Zpos p = Z.abs z * 2 ^ j ->
    exists m e', binary_round 53 1024 sx p (- j) = S754_finite sx m e' /\
      2 ^ 52 <= Zpos m < 2 ^ 53 /\ - 52 <= e' <= 0 /\ Z.abs z * 2 ^ (- e') = Zpos m) as Hround.
  { intros sx p Hp. unfold binary_round, shl_align, fexp, emin.
    pose proof (digits2_bounds p) as B. set (dp := Zpos (digits2_pos p)) in *.
    destruct (Z_lt_le_dec dp 53) as [Hlt|Hge].
    - replace (Z.max (dp + - j - 53) (3 - 1024 - 53) - - j) with (- (53 - dp)) by lia.
      destruct (53 - dp) as [|k|] eqn:Ek; [lia| |lia]. cbn [Z.opp].
      replace (Z.max (dp + - j - 53) (3 - 1024 - 53)) with (- (j + Zpos k)) by lia.
      apply round_exact with (j := j + Zpos k); [|lia|lia| |done|lia].
      + rewrite iter_xO, Hp, Z.pow_add_r by lia. lia.
      + rewrite (digits2_unique _ 53); [lia|lia|]. rewrite iter_xO.
        replace dp with (53 - Zpos k) in B by lia.
        replace (2 ^ (53 - 1)) with (2 ^ (53 - Zpos k - 1) * 2 ^ Zpos k) by (rewrite <- Z.pow_add_r by lia; f_equal; lia).
        replace (2 ^ 53) with (2 ^ (53 - Zpos k) * 2 ^ Zpos k) by (rewrite <- Z.pow_add_r by lia; f_equal; lia).
        pose proof (Z.pow_pos_nonneg 2 (Zpos k)). nia.
    - destruct (Z.max (dp + - j - 53) (3 - 1024 - 53) - - j) as [|k|k] eqn:Ek; [| |lia].
      all: apply round_exact with (j := j); [done|lia|lia|done|done|lia]. }
  destruct (z * 2 ^ j) as [|p|p] eqn:E; cbn [binary_normalize].
  - nia.
  - destruct (Hround false p) as (m & e' & -> & ? & ? & ?); [lia|]. cbn [cond_Zopp]. nia.
  - destruct (Hround true p) as (m & e' & -> & ? & ? & ?); [nia|]. cbn [cond_Zopp]. nia.
Qed.

Lemma double_int_of_Z z : Z.abs z < 2 ^ 53 -> double_int (f64_of_Z z) z.
Proof. intros Hz. pose proof (normalize_exact z 0 false Hz) as H. rewrite Z.mul_1_r in H. apply H. lia. Qed.

Lemma shl_align_value sx m e ez : ez <= e ->
  cond_Zopp sx (Zpos (fst (shl_align m e ez))) = cond_Zopp sx (Zpos m) * 2 ^ (e - ez).
Proof.
  intros He. unfold shl_align. destruct (ez - e) as [|p|p] eqn:E; [|lia|]; cbn [fst].
  - replace (e - ez) with 0 by lia. lia.
  - rewrite iter_xO. replace (e - ez) with (Zpos p) by lia. destruct sx; cbn [cond_Zopp]; lia.
Qed.

(** Both numbers with the smaller exponent. *)
Lemma aligned x s m e ez :
  ez <= e <= 0 -> x * 2 ^ (- e) = cond_Zopp s (Zpos m) ->
  cond_Zopp s (Zpos (fst (shl_align m e ez))) = x * 2 ^ (- ez).
Proof.
  intros He Hx. rewrite shl_align_value by lia. rewrite <- Hx, <- Z.mul_assoc, <- Z.pow_add_r by lia.
  f_equal. f_equal. lia.
Qed.

Lemma double_int_zero s z : double_int (S754_zero s) z <-> z = 0.
Proof. split; [by intros [_ ?]|]. by intros ->. Qed.

Lemma double_int_add a b x y :
  double_int a x -> double_int b y -> Z.abs (x + y) < 2 ^ 53 -> double_int (f64_add a b) (x + y).
Proof.
  intros Ha Hb Hs. destruct a as [sa| | |sa ma ea]; [|by destruct Ha..|].
  - apply double_int_zero in Ha as ->. destruct b as [sb| | |sb mb eb]; [|by destruct Hb..|done].
    apply double_int_zero in Hb as ->. cbn. destruct sa, sb; by apply double_int_zero.
  - destruct b as [sb| | |sb mb eb]; [|by destruct Hb..|].
    { apply double_int_zero in Hb as ->. by rewrite Z.add_0_r. }
    destruct Ha as (_ & _ & Hea & Ha), Hb as (_ & _ & Heb & Hb). unfold f64_add, SFadd.
    rewrite (aligned x) by (done || lia). rewrite (aligned y) by (done || lia).
    rewrite <- Z.mul_add_distr_r. replace (Z.min ea eb) with (- - Z.min ea eb) at 2 by lia.
    apply normalize_exact; [done|lia].
Qed.

Lemma double_int_sub a b x y :
  double_int a x -> double_int b y -> Z.abs (x - y) < 2 ^ 53 -> double_int (f64_sub a b) (x - y).
Proof.
  intros Ha Hb Hs. destruct a as [sa| | |sa ma ea]; [|by destruct Ha..|].
  - apply double_int_zero in Ha as ->. destruct b as [sb| | |sb mb eb]; [|by destruct Hb..|].
    + apply double_int_zero in Hb as ->. cbn. destruct sa, sb; by apply double_int_zero.
    + destruct Hb as (? & ? & ? & Hb). unfold f64_sub, SFsub. split; [done|].
      split; [done|]. split; [done|]. destruct sb; cbn [cond_Zopp negb] in *; lia.
  - destruct b as [sb| | |sb mb eb]; [|by destruct Hb..|].
    { apply double_int_zero in Hb as ->. by rewrite Z.sub_0_r. }
    destruct Ha as (_ & _ & Hea & Ha), Hb as (_ & _ & Heb & Hb). unfold f64_sub, SFsub.
    rewrite (aligned x) by (done || lia). rewrite (aligned y) by (done || lia).
    rewrite <- Z.mul_sub_distr_r. replace (Z.min ea eb) with (- - Z.min ea eb) at 2 by lia.
    apply normalize_exact; [done|lia].
Qed.

Lemma double_int_mul a b x y :
  double_int a x -> double_int b y -> Z.abs (x * y) < 2 ^ 53 -> double_int (f64_mul a b) (x * y).
Proof.
  intros Ha Hb Hs. destruct a as [sa| | |sa ma ea]; [|by destruct Ha..|].
  - apply double_int_zero in Ha as ->. destruct b as [sb| | |sb mb eb]; [|by destruct Hb..|].
    all: by apply double_int_zero.
  - destruct b as [sb| | |sb mb eb]; [|by destruct Hb..|].
    { apply double_int_zero in Hb as ->. rewrite Z.mul_0_r. by apply double_int_zero. }
    destruct Ha as (_ & Bma & Hea & Ha), Hb as (_ & Bmb & Heb & Hb). unfold f64_mul, SFmul.
    pose proof (Z.pow_pos_nonneg 2 (- ea)) as Pa. pose proof (Z.pow_pos_nonneg 2 (- eb)) as Pb.
    assert (Zpos ma = Z.abs x * 2 ^ (- ea)) as Ea by (destruct sa; cbn [cond_Zopp] in *; nia).
    assert (Zpos mb = Z.abs y * 2 ^ (- eb)) as Eb by (destruct sb; cbn [cond_Zopp] in *; nia).
    destruct (round_exact (xorb sa sb) (ma * mb) (ea + eb) (Z.abs (x * y)) (- (ea + eb)))
      as (m & e & -> & Bm & Be & Em); [| |lia| |lia|lia|].
    + rewrite Pos2Z.inj_mul, Ea, Eb, Z.abs_mul. replace (- (ea + eb)) with (- ea + - eb) by lia.
      rewrite Z.pow_add_r by lia. lia.
    + rewrite Z.abs_mul in *. nia.
    + pose proof (digits2_bounds (ma * mb)) as B.
      destruct (Z_lt_le_dec (Zpos (digits2_pos (ma * mb))) 53) as [Hlt|]; [|done].
      assert (2 ^ Zpos (digits2_pos (ma * mb)) <= 2 ^ 52) by (apply Z.pow_le_mono_r; lia).
      rewrite Pos2Z.inj_mul in B. nia.
    + split; [done|]. split; [done|]. split; [done|].
      destruct sa, sb; cbn [cond_Zopp xorb] in *; nia.
Qed.

(** A smaller exponent means a smaller number. *)
Lemma magnitude_order x y ma ea mb eb :
  2 ^ 52 <= ma < 2 ^ 53 -> 2 ^ 52 <= mb < 2 ^ 53 -> ea <= 0 -> eb <= 0 ->
  x * 2 ^ (- ea) = ma -> y * 2 ^ (- eb) = mb ->
  (x ?= y) = match ea ?= eb with Lt => Lt | Gt => Gt | Eq => ma ?= mb end.
Proof.
  assert (forall x y ma ea mb eb, 2 ^ 52 <= ma < 2 ^ 53 -> 2 ^ 52 <= mb < 2 ^ 53 -> eb <= 0 ->
    x * 2 ^ (- ea) = ma -> y * 2 ^ (- eb) = mb -> ea < eb -> x < y) as Hlt.
  { clear. intros x y ma ea mb eb Ba Bb Hb Ea Eb H.
    assert (2 ^ (- ea) = 2 ^ (eb - ea) * 2 ^ (- eb)) as E by (rewrite <- Z.pow_add_r by lia; f_equal; lia).
    assert (2 ^ 1 <= 2 ^ (eb - ea)) by (apply Z.pow_le_mono_r; lia).
    pose proof (Z.pow_pos_nonneg 2 (- eb)). nia. }
  intros Ba Bb Ha Hb Ea Eb. destruct (Z.compare_spec ea eb) as [->|H|H].
  - rewrite <- Ea, <- Eb, <- Zmult_compare_compat_r; [done|]. pose proof (Z.pow_pos_nonneg 2 (- eb)). lia.
  - apply Z.compare_lt_iff. apply (Hlt x y ma ea mb eb); done.
  - apply Z.compare_gt_iff. apply (Hlt y x mb eb ma ea); done.
Qed.

Lemma double_int_compare a b x y :
  double_int a x -> double_int b y -> SFcompare a b = Some (x ?= y).
Proof.
  intros Ha Hb.
  destruct a as [sa| | |sa ma ea]; [|by destruct Ha..|];
    (destruct b as [sb| | |sb mb eb]; [|by destruct Hb..|]); cbn [SFcompare].
  - apply double_int_zero in Ha as ->. by apply double_int_zero in Hb as ->.
  - apply double_int_zero in Ha as ->. destruct Hb as (_ & Bm & Be & Hb). f_equal. symmetry.
    pose proof (Z.pow_pos_nonneg 2 (- eb)).
    destruct sb; cbn [cond_Zopp] in Hb; [apply Z.compare_gt_iff|apply Z.compare_lt_iff]; nia.
  - apply double_int_zero in Hb as ->. destruct Ha as (_ & Bm & Be & Ha). f_equal. symmetry.
    pose proof (Z.pow_pos_nonneg 2 (- ea)).
    destruct sa; cbn [cond_Zopp] in Ha; [apply Z.compare_lt_iff|apply Z.compare_gt_iff]; nia.
  - destruct Ha as (_ & Bma & Bea & Ha), Hb as (_ & Bmb & Beb & Hb). f_equal. symmetry.
    pose proof (Z.pow_pos_nonneg 2 (- ea)) as Pa. pose proof (Z.pow_pos_nonneg 2 (- eb)) as Pb.
    destruct sa, sb; cbn [cond_Zopp] in Ha, Hb.
    + rewrite <- Z.compare_opp, (magnitude_order (- y) (- x) (Zpos mb) eb (Zpos ma) ea) by lia.
      rewrite (Z.compare_antisym ea eb), (Z.compare_antisym (Zpos ma) (Zpos mb)).
      by destruct (ea ?= eb).
    + apply Z.compare_lt_iff. assert (x < 0) by nia. assert (0 < y) by nia. lia.
    + apply Z.compare_gt_iff. assert (0 < x) by nia. assert (y < 0) by nia. lia.
    + rewrite (magnitude_order x y (Zpos ma) ea (Zpos mb) eb) by lia. done.
Qed.

(** Truncating and rounding give the integer back. *)
Lemma double_int_truncate d z : double_int d z -> int64_of_f64 d = Ok z.
Proof.
  destruct d as [s| | |s m e]; [|by intros [_ []]..|]; [by intros ->%double_int_zero|].
  intros (Hz & Bm & Be & E). unfold int64_of_f64.
  assert (Z.shiftl (Zpos m) e = Z.abs z) as ->.
  { rewrite <- (Z.opp_involutive e), Z.shiftl_opp_r, Z.shiftr_div_pow2 by lia.
    pose proof (Z.pow_pos_nonneg 2 (- e)). symmetry; apply Z.div_unique_exact; [lia|].
    destruct s; cbn [cond_Zopp] in E; nia. }
  pose proof (Z.pow_pos_nonneg 2 (- e)).
  replace (if s then - Z.abs z else Z.abs z) with z by (destruct s; cbn [cond_Zopp] in E; nia).
  rewrite (proj2 (Z.leb_le INT64_MIN z)), (proj2 (Z.leb_le z INT64_MAX)) by (unfold_int64; lia). done.
Qed.

Lemma double_int_round d z : double_int d z -> f64_llround d = Ok z.
Proof.
  destruct d as [s| | |s m e]; [|by intros [_ []]..|]; [by intros ->%double_int_zero|].
  intros (Hz & Bm & Be & E). unfold f64_llround. pose proof (Z.pow_pos_nonneg 2 (- e)).
  assert (Zpos m = Z.abs z * 2 ^ (- e)) as Em by (destruct s; cbn [cond_Zopp] in E; nia).
  assert ((if 0 <=? e then Z.shiftl (Zpos m) e
           else Z.shiftr (Zpos m + Z.shiftl 1 (- e - 1)) (- e)) = Z.abs z) as ->.
  { destruct (Z.leb_spec 0 e) as [He|He].
    - replace e with 0 in * by lia. rewrite Z.shiftl_0_r. lia.
    - rewrite Z.shiftr_div_pow2, Z.shiftl_1_l by lia. symmetry.
      assert (2 ^ (- e) = 2 * 2 ^ (- e - 1)) as E2
        by (rewrite <- Z.pow_succ_r by lia; f_equal; lia).
      pose proof (Z.pow_pos_nonneg 2 (- e - 1)).
      apply (Z.div_unique _ _ _ (2 ^ (- e - 1))); lia. }
  replace (if s then - Z.abs z else Z.abs z) with z by (destruct s; cbn [cond_Zopp] in E; nia).
  rewrite (proj2 (Z.leb_le INT64_MIN z)), (proj2 (Z.leb_le z INT64_MAX)) by (unfold_int64; lia). done.
Qed.

(** ** The primitives on doubles that are integers *)

Definition double_object (w : World) (p : oop) (x : Z) : Prop :=
  exists l d, p = Ref l /\ heap w !! l = Some (ODouble d) /\ double_int d x.

(** The right operand may be a small integer. *)
Definition operand (USE_TAGGING : bool) (w : World) (p : oop) (x : Z) : Prop :=
  double_object w p x \/ (small_int USE_TAGGING p w = Ok (Some x, w) /\ Z.abs x < 2 ^ 53).

Section Steps.

Context (USE_TAGGING : bool) (w : World).

Lemma GetEmbeddedDouble_step p x : double_object w p x -> exists d,
  GetEmbeddedDouble p w = Ok (d, w) /\ double_int d x.
Proof.
  intros (l & d & -> & Hl & Hd). exists d. split; [|done]. unfold GetEmbeddedDouble, as_double, load.
  by rewrite bind_assoc; erewrite bind_step by (by rewrite Hl).
Qed.

Lemma coerceDouble_step p x : operand USE_TAGGING w p x -> exists d,
  coerceDouble USE_TAGGING p w = Ok (d, w) /\ double_int d x.
Proof.
  intros [(l & d & -> & Hl & Hd)|[Hs Hx]]; unfold coerceDouble.
  - exists d. split; [|done].
    erewrite bind_step with (a := None) (s1 := w).
    2:{ unfold small_int. destruct USE_TAGGING; [done|]. unfold load.
        by erewrite bind_step by (by rewrite Hl). }
    erewrite bind_step with (a := Some d) (s1 := w); [done|].
    unfold as_double, load. by erewrite bind_step by (by rewrite Hl).
  - exists (f64_of_Z x). erewrite bind_step by exact Hs. split; [done|]. by apply double_int_of_Z.
Qed.

Lemma with_operands_step {A} l r x y (op : spec_float -> spec_float -> V A) :
  double_object w l x -> operand USE_TAGGING w r y -> exists a b,
  with_operands USE_TAGGING l r op w = op a b w /\ double_int a x /\ double_int b y.
Proof.
  intros (a & Ea & Ha)%GetEmbeddedDouble_step (b & Eb & Hb)%coerceDouble_step. exists a, b.
  unfold with_operands. erewrite bind_step by exact Eb. by erewrite bind_step by exact Ea.
Qed.

Lemma NewDouble_step d z : double_int d z -> exists w',
  NewDouble d w = Ok (Ref (next w), w') /\ double_object w' (Ref (next w)) z.
Proof.
  intros Hd. eexists. split; [done|]. exists (next w), d. split; [done|]. split; [|done].
  apply lookup_insert_eq.
Qed.

Lemma arithmetic_step l r x y z op :
  double_object w l x -> operand USE_TAGGING w r y ->
  (forall a b, double_int a x -> double_int b y -> double_int (op a b) z) -> exists w',
  with_operands USE_TAGGING l r (fun a b => NewDouble (op a b)) w = Ok (Ref (next w), w') /\
  double_object w' (Ref (next w)) z.
Proof.
  intros Hl Hr Hop. destruct (with_operands_step l r x y (fun a b => NewDouble (op a b)) Hl Hr)
    as (a & b & -> & Ha & Hb). by apply NewDouble_step, Hop.
Qed.

Lemma comparison_step l r x y test c :
  double_object w l x -> operand USE_TAGGING w r y ->
  (forall a b, SFcompare a b = Some (x ?= y) -> SFcompare b a = Some (y ?= x) -> test a b = c) ->
  with_operands USE_TAGGING l r (fun a b => boolean (test a b)) w = boolean c w.
Proof.
  intros Hl Hr Ht. destruct (with_operands_step l r x y (fun a b => boolean (test a b)) Hl Hr)
    as (a & b & -> & Ha & Hb). by rewrite Ht by (by apply double_int_compare).
Qed.

End Steps.

Ltac comparison :=
  eapply comparison_step; [done..|]; intros a b E E'; rewrite ?Z.eqb_compare;
  unfold SFeqb, SFltb, SFleb, Z.ltb, Z.leb; rewrite ?E, ?E'; by destruct (_ ?= _).


Definition doubles_world : World :=
  mkWorld {[ 0%nat := ODouble (f64_of_Z 7) ]} 1%nat ∅ 0%nat ∅ ∅ ∅ (no_known Null) None 0%nat 0.


(** [=] is the comparison of numbers, under which the two zeros are equal, although their
    bits differ. *)
Example equal_zeros :
  let w := mkWorld {[ 0%nat := ODouble (S754_zero false); 1%nat := ODouble (S754_zero true) ]} 2%nat ∅ 0%nat
             ∅ ∅ ∅ (no_known Null) None 0%nat 0 in
  with_operands true (Ref 0%nat) (Ref 1%nat) (fun x y => mret (SFeqb x y)) w = Ok (true, w) /\
  dblEqual true (Ref 0%nat) (Ref 1%nat) w = boolean true w.
Proof. vm_compute. done. Qed.

(** A maximum that is not a number depends on the order of the operands. *)
Example max_of_nan :
  let w := mkWorld {[ 0%nat := ODouble S754_nan; 1%nat := ODouble (f64_of_Z 1) ]} 2%nat ∅ 0%nat
             ∅ ∅ ∅ (no_known Null) None 0%nat 0 in
  dblMax true (Ref 0%nat) (Ref 1%nat) w = Ok (Ref 1%nat, w) /\
  dblMax true (Ref 1%nat) (Ref 0%nat) w = Ok (Ref 0%nat, w).
Proof. vm_compute. done. Qed.

Example printed_doubles :
  print_double <$> [f64_of_Z 100; f64_of_ratio false 1 10; f64_of_ratio true 314 100;
                    f64_of_decimal false 1 22; f64_of_decimal false 25 (-6); S754_zero true]
  = ["100"; "0.10000000000000001"; "-3.1400000000000001"; "1e+22"; "2.5000000000000001e-05"; "-0"]%string.
Proof. vm_compute. reflexivity. Qed.

Example read_doubles :
  stod (list_ascii_of_string " +12.50xyz") = Ok (f64_of_ratio false 25 2) /\
  stod (list_ascii_of_string "-3e2") = Ok (f64_of_Z (-300)) /\
  stod (list_ascii_of_string "x") = Err (ErrorExit "std::invalid_argument").
Proof. vm_compute. done. Qed.
