(* ===== verification/HeapWalk.v ===== *)
(** * Walking the object graph

    What the garbage collectors of [src/src/memory/] share: the memory with the
    collector's field of every object ([vmobjects/VMObjectBase.h]), the sizes of
    objects, [WalkObjects] of every class of [src/src/vmobjects/], and the walk over
    the global variables of the machine ([Universe::WalkGlobals], [WalkSymbols],
    [Interpreter::WalkGlobals]).

    [WalkObjects] replaces every pointer of an object by what a function returns for
    it.  The code writes a pointer back before it walks the next one; no such function
    reads the pointers of the object that is being walked, so that writing them back
    at the end is the same.

    The second part is an interface: what a collector promises of its function
    ([Walker]), and what then holds of an object or of all globals that were walked. *)
From Stdlib Require Import Ascii String SpecFloat.
From S2P Require Import Prelude InfIntBase IntegerPrims Objects Universe.
Local Open Scope nat_scope.

(** ** The memory

    [H] is the data of the heap class of a collector. *)
Record Mem (H : Type) : Type := mkMem {
  objects : gmap loc obj;
  gcfields : gmap loc nat;
  heap_data : H }.
Arguments mkMem {H} _ _ _.
Arguments objects {H} _.
Arguments gcfields {H} _.
Arguments heap_data {H} _.

(** ** Sizes of objects

    The size of the structs is a matter of the compiler. *)
Inductive cxx_class : Type :=
  | VMInteger_c | VMBigInteger_c | VMDouble_c | VMString_c | VMSymbol_c
  | VMObject_c | VMClass_c | VMBlock_c | VMVector_c | VMArray_c
  | VMFrame_c | VMMethod_c | VMLiteralReturn_c | VMGlobalReturn_c | VMGetter_c | VMSetter_c
  | VMPrimitive_c | VMSafeUnaryPrimitive_c | VMSafeBinaryPrimitive_c
  | VMSafeTernaryPrimitive_c | VMEvaluationPrimitive_c.

(** A pointer has 8 bytes. *)
Definition PADDED_SIZE (n : nat) : nat := (n + 7) / 8 * 8.

(** [(size_t)((double)n * 0.9)]: the constant is the [double] next to 0.9. *)
Definition ninety_percent (n : nat) : nat :=
  match int64_of_f64 (f64_mul (f64_of_Z (Z.of_nat n)) (S754_finite false 8106479329266893 (-53))) with
  | Ok z => Z.to_nat z
  | Err _ => 0
  end.

Section Sizes.

Context (sizeof : cxx_class -> nat).

Definition object_size (k : kind) (numberOfFields : nat) : nat :=
  match k with
  | KObject => sizeof VMObject_c + 8 * numberOfFields
  | KClass => sizeof VMClass_c + 8 * (numberOfFields - VMClassNumberOfFields)
  | KBlock => sizeof VMBlock_c
  | KVector => sizeof VMVector_c
  | KArray => sizeof VMArray_c + 8 * numberOfFields
  end.

Definition trivial_size (t : trivial) : nat :=
  match t with
  | VMLiteralReturn _ => sizeof VMLiteralReturn_c
  | VMGlobalReturn _ => sizeof VMGlobalReturn_c
  | VMGetter _ => sizeof VMGetter_c
  | VMSetter _ _ => sizeof VMSetter_c
  end.

Definition primitive_size (p : primitive) : nat :=
  match p with
  | FramePrim _ => sizeof VMPrimitive_c
  | SafeUnaryPrim _ => sizeof VMSafeUnaryPrimitive_c
  | SafeBinaryPrim _ => sizeof VMSafeBinaryPrimitive_c
  | SafeTernaryPrim _ => sizeof VMSafeTernaryPrimitive_c
  | EvaluationPrim _ => sizeof VMEvaluationPrimitive_c
  end.

Definition GetObjectSize (o : obj) : nat :=
  match o with
  | OInteger _ => sizeof VMInteger_c
  | OBigInteger _ => sizeof VMBigInteger_c
  | ODouble _ => sizeof VMDouble_c
  | OString s => sizeof VMString_c + PADDED_SIZE (String.length s)
  | OSymbol s => sizeof VMSymbol_c + PADDED_SIZE (String.length (sym_chars s))
  | OObject k _ fields => object_size k (length fields)
  | OFrame f => sizeof VMFrame_c + 8 * f_size f
  | OMethod m => sizeof VMMethod_c + PADDED_SIZE (length (m_bytecodes m) + 8 * length (m_constants m))
  | OTrivial _ _ _ _ t => trivial_size t
  | OPrimitive _ _ p => primitive_size p
  end.

End Sizes.

(** ** Access *)

Section Walk.

Context {H : Type}.
Notation M := (stateful (Mem H)).

Definition load_object (l : loc) : M obj := fun m =>
  match objects m !! l with Some o => Ok (o, m) | None => Err Undef end.

Definition store_object (l : loc) (o : obj) : M () := fun m =>
  match objects m !! l with
  | Some _ => Ok (tt, mkMem (<[l := o]> (objects m)) (gcfields m) (heap_data m))
  | None => Err Undef
  end.

Definition GetGCField (l : loc) : M nat := fun m =>
  match objects m !! l with
  | Some _ => Ok (default 0%nat (gcfields m !! l), m)
  | None => Err Undef
  end.

Definition SetGCField (l : loc) (v : nat) : M () := fun m =>
  match objects m !! l with
  | Some _ => Ok (tt, mkMem (objects m) (<[l := v]> (gcfields m)) (heap_data m))
  | None => Err Undef
  end.

Definition set_heap_data (d : H) : M () :=
  modify (fun m => mkMem (objects m) (gcfields m) d).

(** ** Walking *)

Context (USE_TAGGING : bool) (walk : oop -> M oop).

Fixpoint walk_list (ps : list oop) : M (list oop) :=
  match ps with
  | [] => mret []
  | p :: r => p' ← walk p; r' ← walk_list r; mret (p' :: r')
  end.

(** [if (p != nullptr) p = walk(p)] *)
Definition walk_nonnull (p : oop) : M oop :=
  match p with Null => mret Null | _ => walk p end.

Fixpoint walk_nonnulls (ps : list oop) : M (list oop) :=
  match ps with
  | [] => mret []
  | p :: r => p' ← walk_nonnull p; r' ← walk_nonnulls r; mret (p' :: r')
  end.

(** [static_cast] to the class of the member. *)
Definition walk_loc (l : loc) : M loc :=
  p ← walk (Ref l);
  match p with Ref l' => mret l' | _ => fail Undef end.

Definition walk_option (o : option loc) : M (option loc) :=
  match o with
  | Some l => l' ← walk_loc l; mret (Some l')
  | None => mret None
  end.

(** The entries of the cache below [nextCachePos]. *)
Fixpoint walk_cache (n : nat) (cache : list (oop * oop)) : M (list (oop * oop)) :=
  match n, cache with
  | S n, (c, i) :: r =>
      c' ← walk c; i' ← walk i; r' ← walk_cache n r; mret ((c', i') :: r')
  | _, _ => mret cache
  end.

Definition walk_trivial (t : trivial) : M trivial :=
  match t with
  | VMLiteralReturn literal => p ← walk literal; mret (VMLiteralReturn p)
  | VMGlobalReturn globalName => l ← walk_loc globalName; mret (VMGlobalReturn l)
  | _ => mret t
  end.

(** [WalkObjects] of each class, on the contents of the object. *)
Definition walk_symbol (s : SymbolData) : M SymbolData :=
  c ← walk_cache (sym_nextCachePos s) (sym_cache s);
  mret (mkSymbol (sym_chars s) c (sym_nextCachePos s)).

Definition walk_fields (k : kind) (clazz : oop) (fields : list oop) : M obj :=
  c ← walk clazz; fs ← walk_list fields; mret (OObject k c fs).

Definition walk_frame (f : Frame) : M Frame :=
  previousFrame ← walk_option (f_previous f);
  context ← walk_option (f_context f);
  m ← walk_loc (f_method f);
  slots ← walk_nonnulls (f_slots f);
  mret (mkFrame previousFrame context m (f_bytecodeIndex f) (f_locals f) slots (f_size f)).

Definition walk_invokable (s : loc) (hld : oop) : M (loc * oop) :=
  s ← walk_loc s; hld ← walk_nonnull hld; mret (s, hld).

Definition walk_method (m : Method) : M Method :=
  sh ← walk_invokable (m_signature m) (m_holder m);
  cs ← walk_nonnulls (m_constants m);
  mret (mkMethod sh.1 sh.2 (m_numberOfLocals m) (m_maxStack m) (m_bytecodes m)
          (m_numberOfArguments m) cs (m_scope m) (m_inlinedLoops m)).

Definition walk_object (o : obj) : M obj :=
  match o with
  | OInteger _ | OBigInteger _ | ODouble _ | OString _ => mret o
  | OSymbol s => s' ← walk_symbol s; mret (OSymbol s')
  | OObject k clazz fields => walk_fields k clazz fields
  | OFrame f => f' ← walk_frame f; mret (OFrame f')
  | OMethod m => m' ← walk_method m; mret (OMethod m')
  | OTrivial s hld n a t =>
      sh ← walk_invokable s hld; t ← walk_trivial t; mret (OTrivial sh.1 sh.2 n a t)
  | OPrimitive s hld p => sh ← walk_invokable s hld; mret (OPrimitive sh.1 sh.2 p)
  end.

Definition WalkObjects (l : loc) : M () :=
  o ← load_object l; o' ← walk_object o; store_object l o'.

(** ** Globals *)

(** The variables of [Globals.cpp], in the order of [Universe::WalkGlobals]. *)
Definition walk_known (k : Known) : M Known :=
  a1 ← walk (nilObject k); a2 ← walk (trueObject k); a3 ← walk (falseObject k);
  box ← (if USE_TAGGING then walk (integerBox k) else mret (integerBox k));
  b1 ← walk (objectClass k); b2 ← walk (classClass k); b3 ← walk (metaClassClass k);
  c1 ← walk (nilClass k); c2 ← walk (integerClass k); c3 ← walk (arrayClass k);
  c4 ← walk (vectorClass k); c5 ← walk (methodClass k); c6 ← walk (symbolClass k);
  c7 ← walk (primitiveClass k); c8 ← walk (stringClass k); c9 ← walk (systemClass k);
  d1 ← walk (blockClass k); d2 ← walk (doubleClass k);
  d3 ← walk (trueClass k); d4 ← walk (falseClass k);
  mret (mkKnown a1 a2 a3 b1 b2 b3 c1 c2 c3 c4 c5 c6 c7 c8 c9 d1 d2 d3 d4 box
          (symbolSelf k) (symbolSuper k) (symbolBlockSelf k) (symbolIfTrue k)
          (symbolIfFalse k) (symbolPlus k) (symbolMinus k)).

(** The map is rebuilt, since its keys are pointers too. *)
Fixpoint walk_globals (globs : list (loc * oop)) (acc : gmap loc oop) : M (gmap loc oop) :=
  match globs with
  | [] => mret acc
  | (name, val) :: r =>
      key ← walk_loc name; v ← walk val; walk_globals r (<[key := v]> acc)
  end.

Fixpoint walk_symbols (syms : list (string * loc)) (acc : gmap string loc)
    : M (gmap string loc) :=
  match syms with
  | [] => mret acc
  | (name, s) :: r => s' ← walk_loc s; walk_symbols r (<[name := s']> acc)
  end.

(** The symbols of one record and the other variables of another. *)
Definition symbols_of (k' k : Known) : Known :=
  set_symbols (symbolSelf k') (symbolSuper k') (symbolBlockSelf k') (symbolIfTrue k')
    (symbolIfFalse k') (symbolPlus k') (symbolMinus k') k.

Definition WalkSymbols (symbols : gmap string loc) (k : Known) : M (gmap string loc * Known) :=
  m ← walk_symbols (map_to_list symbols) symbols;
  s1 ← walk (symbolSelf k); s2 ← walk (symbolSuper k); s3 ← walk (symbolBlockSelf k);
  s4 ← walk (symbolIfTrue k); s5 ← walk (symbolIfFalse k);
  s6 ← walk (symbolPlus k); s7 ← walk (symbolMinus k);
  mret (m, set_symbols s1 s2 s3 s4 s5 s6 s7 k).

Fixpoint walk_blockClasses (bs : list (nat * oop)) (acc : gmap nat oop) : M (gmap nat oop) :=
  match bs with
  | [] => mret acc
  | (n, c) :: r => c' ← walk c; walk_blockClasses r (<[n := c']> acc)
  end.

(** The variables of the machine, with the frame and the method of the interpreter;
    the objects themselves are in the memory. *)
Definition WalkGlobals (w : World) : M World :=
  k ← walk_known (known w);
  g ← walk_globals (map_to_list (globals w)) ∅;
  sk ← WalkSymbols (symbolsMap w) (known w);
  b ← walk_blockClasses (map_to_list (blockClassesByNoOfArgs w)) (blockClassesByNoOfArgs w);
  mth ← walk_loc (method w);
  f ← match frame w with Some l => walk_loc l | None => fail Undef end;
  mret (mkWorld (heap w) (next w) (scopes w) (nextScope w) sk.1 g b (symbols_of sk.2 k)
          (Some f) mth (bytecodeIndexGlobal w)).

End Walk.

(** ** Copies

    [CloneForMovingGC] of every class.  Objects are copied as they are, but a symbol
    begins with an empty cache, and a frame finds its locals behind the arguments of
    its method, which may have been moved: then the field of the collector leads to
    the method.  A copy has the field 0, as the original has before it is moved. *)

Definition MASK_OBJECT_IS_MARKED : nat := 1.
Definition MASK_OBJECT_IS_OLD : nat := 2.
Definition MASK_SEEN_BY_WRITE_BARRIER : nat := 4.

Section Clone.

Context {H : Type} (sizeof : cxx_class -> nat) (allocate : nat -> stateful (Mem H) loc).
Notation M := (stateful (Mem H)).

Definition clone_frame (f : Frame) : M Frame :=
  g ← GetGCField (f_method f);
  o ← load_object (if negb (g =? 0) && negb (g =? MASK_OBJECT_IS_OLD) then g else f_method f);
  match o with
  | OMethod m =>
      mret (mkFrame (f_previous f) (f_context f) (f_method f) (f_bytecodeIndex f)
              (m_numberOfArguments m) (f_slots f) (f_size f))
  | _ => fail Undef
  end.

Definition clone_symbol (s : SymbolData) : SymbolData :=
  mkSymbol (sym_chars s) (replicate 3 (Null, Null)) 0.

Definition clone_contents (o : obj) : M obj :=
  match o with
  | OSymbol s => mret (OSymbol (clone_symbol s))
  | OFrame f => f' ← clone_frame f; mret (OFrame f')
  | _ => mret o
  end.

Definition CloneForMovingGC (l : loc) : M loc :=
  o ← load_object l;
  clone ← allocate (GetObjectSize sizeof o);
  o' ← clone_contents o;
  modify (fun m => mkMem (<[clone := o']> (objects m)) (<[clone := 0]> (gcfields m)) (heap_data m));;
  mret clone.

End Clone.

(** ** The pointers of an object, and their replacement *)

Definition map_oop (f : loc -> loc) (p : oop) : oop :=
  match p with Ref l => Ref (f l) | _ => p end.

Definition nonnulls (ps : list oop) : list oop := filter (fun p => p <> Null) ps.

Definition of_loc (o : option loc) : list oop :=
  match o with Some l => [Ref l] | None => [] end.

Fixpoint cache_pointers (n : nat) (cache : list (oop * oop)) : list oop :=
  match n, cache with
  | S n, (c, i) :: r => c :: i :: cache_pointers n r
  | _, _ => []
  end.

Definition trivial_pointers (t : trivial) : list oop :=
  match t with
  | VMLiteralReturn p => [p]
  | VMGlobalReturn l => [Ref l]
  | _ => []
  end.

Definition pointers (o : obj) : list oop :=
  match o with
  | OInteger _ | OBigInteger _ | ODouble _ | OString _ => []
  | OSymbol s => cache_pointers (sym_nextCachePos s) (sym_cache s)
  | OObject _ c fields => c :: fields
  | OFrame f =>
      of_loc (f_previous f) ++ of_loc (f_context f) ++ Ref (f_method f) :: nonnulls (f_slots f)
  | OMethod m => Ref (m_signature m) :: nonnulls [m_holder m] ++ nonnulls (m_constants m)
  | OTrivial s hld _ _ t => Ref s :: nonnulls [hld] ++ trivial_pointers t
  | OPrimitive s hld _ => Ref s :: nonnulls [hld]
  end.

Fixpoint map_cache (f : loc -> loc) (n : nat) (cache : list (oop * oop)) : list (oop * oop) :=
  match n, cache with
  | S n, (c, i) :: r => (map_oop f c, map_oop f i) :: map_cache f n r
  | _, _ => cache
  end.

Definition map_trivial (f : loc -> loc) (t : trivial) : trivial :=
  match t with
  | VMLiteralReturn p => VMLiteralReturn (map_oop f p)
  | VMGlobalReturn l => VMGlobalReturn (f l)
  | _ => t
  end.

Definition map_object (f : loc -> loc) (o : obj) : obj :=
  match o with
  | OInteger _ | OBigInteger _ | ODouble _ | OString _ => o
  | OSymbol s =>
      OSymbol (mkSymbol (sym_chars s) (map_cache f (sym_nextCachePos s) (sym_cache s))
                 (sym_nextCachePos s))
  | OObject k c fields => OObject k (map_oop f c) (map_oop f <$> fields)
  | OFrame g =>
      OFrame (mkFrame (f <$> f_previous g) (f <$> f_context g) (f (f_method g))
                (f_bytecodeIndex g) (f_locals g) (map_oop f <$> f_slots g) (f_size g))
  | OMethod m =>
      OMethod (mkMethod (f (m_signature m)) (map_oop f (m_holder m)) (m_numberOfLocals m)
                 (m_maxStack m) (m_bytecodes m) (m_numberOfArguments m)
                 (map_oop f <$> m_constants m) (m_scope m) (m_inlinedLoops m))
  | OTrivial s hld n a t => OTrivial (f s) (map_oop f hld) n a (map_trivial f t)
  | OPrimitive s hld p => OPrimitive (f s) (map_oop f hld) p
  end.

(** Replacing pointers does not change the size. *)
Lemma map_object_size sizeof f o :
  GetObjectSize sizeof (map_object f o) = GetObjectSize sizeof o.
Proof.
  destruct o as [| | | | |k c fs| |m|s hld n a t|]; try done; cbn.
  - by rewrite length_fmap.
  - by rewrite length_fmap.
  - by destruct t.
Qed.

Lemma map_oop_id p : map_oop id p = p.
Proof. by destruct p. Qed.

Lemma map_oops_id (ps : list oop) : map_oop id <$> ps = ps.
Proof. induction ps as [|p ps IH]; [done|]. cbn. by rewrite map_oop_id, IH. Qed.

Lemma map_object_id o : map_object id o = o.
Proof.
  destruct o as [| | | |s|k c fs|g|m|s hld n a t|s hld p]; try done; cbn.
  - destruct s as [chars cache pos]. cbn. do 2 f_equal. revert pos.
    induction cache as [|[c i] r IH]; intros [|n]; cbn; [done..|]. by rewrite !map_oop_id, IH.
  - by rewrite map_oop_id, map_oops_id.
  - destruct g. cbn. by rewrite !option_fmap_id, map_oops_id.
  - destruct m. cbn. by rewrite map_oop_id, map_oops_id.
  - rewrite map_oop_id. destruct t; cbn; by rewrite ?map_oop_id.
  - by rewrite map_oop_id.
Qed.

(** ** The global variables as roots *)

Definition known_pointers (USE_TAGGING : bool) (k : Known) : list oop :=
  [nilObject k; trueObject k; falseObject k]
  ++ (if USE_TAGGING then [integerBox k] else [])
  ++ [objectClass k; classClass k; metaClassClass k; nilClass k; integerClass k; arrayClass k;
      vectorClass k; methodClass k; symbolClass k; primitiveClass k; stringClass k;
      systemClass k; blockClass k; doubleClass k; trueClass k; falseClass k].

Definition symbol_pointers (k : Known) : list oop :=
  [symbolSelf k; symbolSuper k; symbolBlockSelf k; symbolIfTrue k; symbolIfFalse k;
   symbolPlus k; symbolMinus k].

Definition global_pointers (globs : list (loc * oop)) : list oop :=
  globs ≫= (fun kv => [Ref kv.1; kv.2]).

Definition roots (USE_TAGGING : bool) (w : World) : list oop :=
  known_pointers USE_TAGGING (known w) ++ global_pointers (map_to_list (globals w))
  ++ (Ref ∘ snd <$> map_to_list (symbolsMap w)) ++ symbol_pointers (known w)
  ++ (snd <$> map_to_list (blockClassesByNoOfArgs w)) ++ [Ref (method w)]
  ++ of_loc (frame w).

Definition map_known (USE_TAGGING : bool) (f : loc -> loc) (k : Known) : Known :=
  let g := map_oop f in
  mkKnown (g (nilObject k)) (g (trueObject k)) (g (falseObject k)) (g (objectClass k))
    (g (classClass k)) (g (metaClassClass k)) (g (nilClass k)) (g (integerClass k))
    (g (arrayClass k)) (g (vectorClass k)) (g (methodClass k)) (g (symbolClass k))
    (g (primitiveClass k)) (g (stringClass k)) (g (systemClass k)) (g (blockClass k))
    (g (doubleClass k)) (g (trueClass k)) (g (falseClass k))
    (if USE_TAGGING then g (integerBox k) else integerBox k)
    (g (symbolSelf k)) (g (symbolSuper k)) (g (symbolBlockSelf k)) (g (symbolIfTrue k))
    (g (symbolIfFalse k)) (g (symbolPlus k)) (g (symbolMinus k)).

(** The entries in the order of the map, a later one in place of an earlier one. *)
Definition rebuilt_globals (f : loc -> loc) (globs : list (loc * oop)) (acc : gmap loc oop)
    : gmap loc oop :=
  foldl (fun acc kv => <[f kv.1 := map_oop f kv.2]> acc) acc globs.

Definition map_world (USE_TAGGING : bool) (f : loc -> loc) (w : World) : World :=
  mkWorld (heap w) (next w) (scopes w) (nextScope w) (f <$> symbolsMap w)
    (rebuilt_globals f (map_to_list (globals w)) ∅)
    (map_oop f <$> blockClassesByNoOfArgs w) (map_known USE_TAGGING f (known w))
    (f <$> frame w) (f (method w)) (bytecodeIndexGlobal w).

(** ** Reachability *)

Inductive reachable (h : gmap loc obj) (rs : list oop) : loc -> Prop :=
  | reachable_root l : Ref l ∈ rs -> reachable h rs l
  | reachable_step l o l' :
      reachable h rs l -> h !! l = Some o -> Ref l' ∈ pointers o -> reachable h rs l'.

(** Every pointer that a walk comes across leads to an object or is an integer. *)
Definition well_formed (h : gmap loc obj) (rs : list oop) : Prop :=
  (Null ∉ rs) /\
  forall l, reachable h rs l -> exists o, h !! l = Some o /\ (Null ∉ pointers o).

(** ** What a collector promises

    [ok] are the objects that may be walked, [seen m] those that were, and [fwd m] is
    where an object is found after it was walked; [le] relates a memory to later
    ones. *)
Definition valid (ok : loc -> Prop) (p : oop) : Prop :=
  match p with Null => False | Tagged _ => True | Ref l => ok l end.

Record Walker {H : Type} (ok : loc -> Prop) (inv : Mem H -> Prop) (le : Mem H -> Mem H -> Prop)
    (fwd : Mem H -> loc -> loc) (seen : Mem H -> loc -> Prop)
    (walk : oop -> stateful (Mem H) oop) : Prop := mkWalker {
  walker_refl m : le m m;
  walker_trans m1 m2 m3 : le m1 m2 -> le m2 m3 -> le m1 m3;
  walker_seen m m' l : le m m' -> seen m l -> seen m' l;
  walker_fwd m m' l : le m m' -> seen m l -> fwd m' l = fwd m l;
  walker_walk m p :
    inv m -> valid ok p ->
    exists m', walk p m = Ok (map_oop (fwd m') p, m') /\ inv m' /\ le m m'
               /\ valid (seen m') p }.

Section Walker.

Context {H : Type} {ok : loc -> Prop} {inv : Mem H -> Prop} {le : Mem H -> Mem H -> Prop}
  {fwd : Mem H -> loc -> loc} {seen : Mem H -> loc -> Prop}
  {walk : oop -> stateful (Mem H) oop} (W : Walker ok inv le fwd seen walk).
Notation M := (stateful (Mem H)).

(** An action that walks the pointers [ps] and returns a value that is computed from
    where they lead. *)
Definition visits {A} (a : M A) (ps : list oop) (v : (loc -> loc) -> A) : Prop :=
  (forall f g, (forall l, Ref l ∈ ps -> f l = g l) -> v f = v g) /\
  forall m, inv m -> Forall (valid ok) ps ->
    exists m', a m = Ok (v (fwd m'), m') /\ inv m' /\ le m m' /\ Forall (valid (seen m')) ps.

Lemma visits_ret {A} (x : A) : visits (mret x) [] (fun _ => x).
Proof using W.
  split; [done|]. intros m Hm _. exists m. split; [done|]. split; [done|].
  split; [apply (walker_refl _ _ _ _ _ _ W)|done].
Qed.

Lemma visits_bind {A B} (a : M A) (k : A -> M B) ps qs v u :
  visits a ps v -> (forall x, visits (k x) qs (u x)) ->
  visits (a ≫= k) (ps ++ qs) (fun f => u (v f) f).
Proof using W.
  intros [Pa Ha] Hk. split.
  - intros f g E. assert (v f = v g) as -> by (apply Pa; intros l Hl; apply E; set_solver).
    apply Hk. intros l Hl. apply E. set_solver.
  - intros m Hm [V1 V2]%Forall_app. destruct (Ha m Hm V1) as (m1 & E1 & I1 & L1 & S1).
    destruct (Hk (v (fwd m1))) as [_ Hk']. destruct (Hk' m1 I1 V2) as (m2 & E2 & I2 & L2 & S2).
    exists m2. rewrite (bind_step _ _ _ _ _ E1), E2.
    assert (v (fwd m1) = v (fwd m2)) as ->.
    { apply Pa. intros l Hl. symmetry. apply (walker_fwd _ _ _ _ _ _ W); [done|].
      rewrite Forall_forall in S1. by apply (S1 _ Hl). }
    split; [done|]. split; [done|]. split; [by apply (walker_trans _ _ _ _ _ _ W _ m1)|].
    apply Forall_app. split; [|done]. apply (Forall_impl _ _ _ S1). intros [| |l]; cbn; [done..|].
    by apply (walker_seen _ _ _ _ _ _ W).
Qed.

(** The same pointers in another list, the same value in another form. *)
Lemma visits_as {A} (a : M A) ps qs v u :
  visits a ps v -> (forall p, p ∈ ps <-> p ∈ qs) -> (forall f, v f = u f) -> visits a qs u.
Proof using.
  intros [P Ha] E Ev. split.
  - intros f g Hfg. rewrite <- !Ev. apply P. intros l Hl. apply Hfg, E, Hl.
  - intros m Hm V. destruct (Ha m Hm) as (m' & E' & I & L & S).
    { rewrite Forall_forall in V |- *. intros p Hp. apply V, E, Hp. }
    exists m'. rewrite E', Ev. split; [done|]. split; [done|]. split; [done|].
    rewrite Forall_forall in S |- *. intros p Hp. apply S, E, Hp.
Qed.

Lemma visits_walk p : visits (walk p) [p] (fun f => map_oop f p).
Proof using W.
  split.
  - intros f g E. destruct p; cbn; [done..|]. by rewrite E by set_solver.
  - intros m Hm [V _]%Forall_cons. destruct (walker_walk _ _ _ _ _ _ W m p Hm V)
      as (m' & E & I & L & S).
    exists m'. split; [done|]. split; [done|]. split; [done|]. by constructor.
Qed.

Lemma visits_loc l : visits (walk_loc walk l) [Ref l] (fun f => f l).
Proof using W.
  split; [intros f g E; apply E; set_solver|].
  intros m Hm V. destruct (visits_walk (Ref l)) as [_ Hw].
  destruct (Hw m Hm V) as (m' & E & R). exists m'. split; [|exact R].
  unfold walk_loc. by rewrite (bind_step _ _ _ _ _ E).
Qed.

Lemma visits_seq {A B} (a : M A) (k : A -> M B) ps qs v u w :
  visits a ps v -> (forall x, visits (k x) qs (u x)) -> (forall f, w f = u (v f) f) ->
  visits (a ≫= k) (ps ++ qs) w.
Proof using W. intros Ha Hk E. eapply visits_as; [by eapply visits_bind|done|done]. Qed.

(** Solves [visits a ps v] for a sequence of actions that are solved by lemmas or
    hypotheses; lists of pointers are compared as sets. *)
Create HintDb visits discriminated.
#[local] Hint Resolve visits_loc : visits.

Ltac visit_action :=
  lazymatch goal with
  | |- visits (_ ≫= _) _ _ => eapply visits_seq; [visit_action|intros ?; visit_action|reflexivity]
  | |- visits (mret _) _ _ => refine (visits_ret _)
  | |- visits (walk _) _ _ => refine (visits_walk _)
  | IH : forall _, visits _ _ _ |- _ => first [refine (IH _)|solve [eauto with visits]]
  | |- _ => solve [eauto with visits]
  end.
Ltac visit := eapply visits_as; [visit_action|set_solver|done].

Lemma visits_list ps : visits (walk_list walk ps) ps (fun f => map_oop f <$> ps).
Proof using W. induction ps as [|p ps IH]; cbn [walk_list]; visit. Qed.

Lemma visits_nonnull p : visits (walk_nonnull walk p) (nonnulls [p]) (fun f => map_oop f p).
Proof using W. destruct p; cbn; visit. Qed.
#[local] Hint Resolve visits_list visits_nonnull : visits.

Lemma nonnulls_cons p ps : nonnulls (p :: ps) = nonnulls [p] ++ nonnulls ps.
Proof using. unfold nonnulls. rewrite !filter_cons, filter_nil. by case_decide. Qed.

Lemma visits_nonnulls ps : visits (walk_nonnulls walk ps) (nonnulls ps) (fun f => map_oop f <$> ps).
Proof using W.
  induction ps as [|p ps IH]; cbn [walk_nonnulls]; [visit|]. rewrite nonnulls_cons. visit.
Qed.

Lemma visits_option o : visits (walk_option walk o) (of_loc o) (fun f => f <$> o).
Proof using W. destruct o; cbn; visit. Qed.

Lemma visits_cache n cache :
  visits (walk_cache walk n cache) (cache_pointers n cache) (fun f => map_cache f n cache).
Proof using W. revert n. induction cache as [|[c i] r IH]; intros [|n]; cbn; visit. Qed.

Lemma visits_trivial t :
  visits (walk_trivial walk t) (trivial_pointers t) (fun f => map_trivial f t).
Proof using W. destruct t; cbn; visit. Qed.
#[local] Hint Resolve visits_nonnulls visits_option visits_cache visits_trivial : visits.

Lemma visits_symbol s :
  visits (walk_symbol walk s) (cache_pointers (sym_nextCachePos s) (sym_cache s)) (fun f =>
    mkSymbol (sym_chars s) (map_cache f (sym_nextCachePos s) (sym_cache s)) (sym_nextCachePos s)).
Proof using W. unfold walk_symbol. visit. Qed.

Lemma visits_invokable s hld :
  visits (walk_invokable walk s hld) (Ref s :: nonnulls [hld]) (fun f => (f s, map_oop f hld)).
Proof using W. unfold walk_invokable. visit. Qed.
#[local] Hint Resolve visits_symbol visits_invokable : visits.

Lemma visits_frame fr :
  visits (walk_frame walk fr)
    (of_loc (f_previous fr) ++ of_loc (f_context fr) ++ Ref (f_method fr) :: nonnulls (f_slots fr))
    (fun f => mkFrame (f <$> f_previous fr) (f <$> f_context fr) (f (f_method fr))
                (f_bytecodeIndex fr) (f_locals fr) (map_oop f <$> f_slots fr) (f_size fr)).
Proof using W. unfold walk_frame. visit. Qed.

Lemma visits_method m :
  visits (walk_method walk m)
    (Ref (m_signature m) :: nonnulls [m_holder m] ++ nonnulls (m_constants m))
    (fun f => mkMethod (f (m_signature m)) (map_oop f (m_holder m)) (m_numberOfLocals m)
                (m_maxStack m) (m_bytecodes m) (m_numberOfArguments m)
                (map_oop f <$> m_constants m) (m_scope m) (m_inlinedLoops m)).
Proof using W. unfold walk_method. visit. Qed.
#[local] Hint Resolve visits_frame visits_method : visits.

Lemma visits_object o : visits (walk_object walk o) (pointers o) (fun f => map_object f o).
Proof using W. destruct o; cbn [walk_object pointers]; unfold walk_fields; visit. Qed.

(** *** Globals *)

Lemma visits_known USE_TAGGING k :
  visits (walk_known USE_TAGGING walk k) (known_pointers USE_TAGGING k)
    (fun f => set_symbols (symbolSelf k) (symbolSuper k) (symbolBlockSelf k) (symbolIfTrue k)
                (symbolIfFalse k) (symbolPlus k) (symbolMinus k)
                (map_known USE_TAGGING f k)).
Proof using W. unfold walk_known, known_pointers. destruct USE_TAGGING; visit. Qed.

Lemma visits_globals globs acc :
  visits (walk_globals walk globs acc) (global_pointers globs)
    (fun f => rebuilt_globals f globs acc).
Proof using W.
  revert acc. induction globs as [|[name val] r IH]; intros acc; cbn [walk_globals]; [visit|].
  eapply visits_as; [visit_action| |done]. unfold global_pointers. set_solver.
Qed.

Lemma visits_symbol_table syms acc :
  visits (walk_symbols walk syms acc) (Ref ∘ snd <$> syms)
    (fun f => foldl (fun acc kv => <[kv.1 := f kv.2]> acc) acc syms).
Proof using W.
  revert acc. induction syms as [|[name s] r IH]; intros acc; cbn [walk_symbols]; visit.
Qed.

Lemma visits_blockClasses bs acc :
  visits (walk_blockClasses walk bs acc) (snd <$> bs)
    (fun f => foldl (fun acc kv => <[kv.1 := map_oop f kv.2]> acc) acc bs).
Proof using W.
  revert acc. induction bs as [|[n c] r IH]; intros acc; cbn [walk_blockClasses]; visit.
Qed.
#[local] Hint Resolve visits_known visits_globals visits_symbol_table visits_blockClasses : visits.

Lemma visits_world_raw USE_TAGGING w l :
  frame w = Some l ->
  visits (WalkGlobals USE_TAGGING walk w) (roots USE_TAGGING w) (fun f =>
    mkWorld (heap w) (next w) (scopes w) (nextScope w)
      (foldl (fun acc kv => <[kv.1 := f kv.2]> acc) (symbolsMap w) (map_to_list (symbolsMap w)))
      (rebuilt_globals f (map_to_list (globals w)) ∅)
      (foldl (fun acc kv => <[kv.1 := map_oop f kv.2]> acc) (blockClassesByNoOfArgs w)
         (map_to_list (blockClassesByNoOfArgs w)))
      (map_known USE_TAGGING f (known w)) (Some (f l)) (f (method w)) (bytecodeIndexGlobal w)).
Proof using W.
  intros Hl. unfold WalkGlobals, roots, WalkSymbols. rewrite Hl.
  eapply visits_as; [visit_action| |done].
  intros p. unfold symbol_pointers. cbn [of_loc].
  rewrite !elem_of_app, !elem_of_cons, !elem_of_nil. tauto.
Qed.

End Walker.

(** Overwriting every entry of a map is [fmap]. *)
Lemma foldl_insert_lookup `{Countable K} {A B} (g : A -> B) (es : list (K * A)) (acc : gmap K B) k :
  NoDup es.*1 ->
  foldl (fun acc kv => <[kv.1 := g kv.2]> acc) acc es !! k =
  match (list_to_map es : gmap K A) !! k with Some a => Some (g a) | None => acc !! k end.
Proof.
  revert acc. induction es as [|[i a] es IH]; intros acc; cbn; [done|].
  intros [Hn HN]%NoDup_cons. rewrite IH by done. destruct (decide (i = k)) as [->|Hk].
  - rewrite lookup_insert_eq. by rewrite (not_elem_of_list_to_map_1 es k Hn), lookup_insert_eq.
  - by rewrite !lookup_insert_ne by done.
Qed.

Lemma foldl_overwrite `{Countable K} {A} (g : A -> A) (m : gmap K A) :
  foldl (fun acc kv => <[kv.1 := g kv.2]> acc) m (map_to_list m) = g <$> m.
Proof.
  apply map_eq. intros k. rewrite foldl_insert_lookup by apply NoDup_fst_map_to_list.
  rewrite list_to_map_to_list, lookup_fmap. by destruct (m !! k).
Qed.

(** All globals are walked: each of them is replaced by where its object is. *)
Lemma visits_world {H ok inv le fwd seen} {walk : oop -> stateful (Mem H) oop}
    (W : Walker ok inv le fwd seen walk) USE_TAGGING w :
  is_Some (frame w) ->
  visits (ok := ok) (inv := inv) (le := le) (fwd := fwd) (seen := seen)
    (WalkGlobals USE_TAGGING walk w) (roots USE_TAGGING w) (fun f => map_world USE_TAGGING f w).
Proof.
  intros [l Hl]. eapply visits_as; [by apply (visits_world_raw W)|done|].
  intros f. unfold map_world. by rewrite Hl, !foldl_overwrite.
Qed.

(** Nothing moves: the globals stay as they are. *)
Lemma rebuilt_globals_id (g : gmap loc oop) : rebuilt_globals id (map_to_list g) ∅ = g.
Proof.
  apply map_eq. intros k. unfold rebuilt_globals.
  etrans; [apply (foldl_insert_lookup (map_oop id)), NoDup_fst_map_to_list|].
  rewrite list_to_map_to_list. destruct (g !! k) as [p|]; [|done]. by rewrite map_oop_id.
Qed.

Lemma map_world_id USE_TAGGING w : map_world USE_TAGGING id w = w.
Proof.
  unfold map_world. rewrite rebuilt_globals_id, map_fmap_id, option_fmap_id.
  rewrite (map_fmap_ext _ id), map_fmap_id by (intros; apply map_oop_id).
  destruct w as [h n sc ns sm gl bc k fr mt bi]. cbn. f_equal.
  destruct k. unfold map_known. cbn. rewrite !map_oop_id. by destruct USE_TAGGING.
Qed.

Lemma valid_pointers h rs l o :
  well_formed h rs -> reachable h rs l -> h !! l = Some o ->
  Forall (valid (reachable h rs)) (pointers o).
Proof.
  intros [_ HW] HR Ho. apply Forall_forall. intros [|z|l'] Hp; cbn; [|done|].
  - destruct (HW l HR) as (o' & E & N). by assert (o' = o) as -> by congruence.
  - by apply (reachable_step h rs l o).
Qed.

Lemma valid_roots h rs : well_formed h rs -> Forall (valid (reachable h rs)) rs.
Proof.
  intros [HN _]. apply Forall_forall. intros [|z|l] Hp; cbn; [done..|]. by apply reachable_root.
Qed.

(** ** Copied objects *)

Lemma map_oop_ext f g p : (forall l, p = Ref l -> f l = g l) -> map_oop f p = map_oop g p.
Proof. destruct p as [| |l]; cbn; [done..|]. intros E. by rewrite (E l). Qed.

Lemma map_oops_ext f g (ps : list oop) :
  (forall l, Ref l ∈ ps -> f l = g l) -> map_oop f <$> ps = map_oop g <$> ps.
Proof.
  intros E. apply list_fmap_ext. intros i p Hp. apply map_oop_ext. intros l ->.
  apply E. by apply list_elem_of_lookup_2 with i.
Qed.

Lemma elem_of_nonnulls p ps : p ∈ nonnulls ps <-> p <> Null /\ p ∈ ps.
Proof. unfold nonnulls. by rewrite list_elem_of_filter. Qed.

(** Only where the pointers of an object lead matters. *)
Lemma map_object_ext f g o :
  (forall l, Ref l ∈ pointers o -> f l = g l) -> map_object f o = map_object g o.
Proof.
  destruct o as [| | | |s|k c fs|fr|m|s hld n a t|s hld p]; cbn; intros E; try done.
  - do 2 f_equal. destruct s as [chars cache pos]. cbn in *. revert pos E.
    induction cache as [|[c i] r IH]; intros [|pos] E; cbn in *; [done..|].
    rewrite (map_oop_ext f g c), (map_oop_ext f g i), IH; [done|set_solver..].
  - f_equal; [apply map_oop_ext|apply map_oops_ext]; set_solver.
  - assert (forall o, (forall l, o = Some l -> Ref l ∈ of_loc o) ->
      (forall l, Ref l ∈ of_loc o -> f l = g l) -> f <$> o = g <$> o) as HO.
    { intros [l|] H1 H2; [|done]. cbn. by rewrite H2 by set_solver. }
    do 2 f_equal; [apply HO; [intros l ->|]; set_solver..|apply E; set_solver|].
    apply map_oops_ext. intros l Hl. apply E. rewrite !elem_of_app, elem_of_cons, elem_of_nonnulls.
    naive_solver.
  - do 2 f_equal; [apply E; set_solver|apply map_oop_ext|apply map_oops_ext].
    + intros l Hl. apply E. rewrite Hl. set_solver.
    + intros l Hl. apply E. rewrite elem_of_cons, elem_of_app, !elem_of_nonnulls. naive_solver.
  - f_equal; [apply E; set_solver|apply map_oop_ext; intros l ->; apply E; set_solver|].
    destruct t; cbn in *; try done; f_equal; [apply map_oop_ext; intros ? ->|]; apply E; set_solver.
  - f_equal; [apply E; set_solver|]. apply map_oop_ext. intros l ->. apply E. set_solver.
Qed.

Lemma GetObjectSize_pos sizeof : (forall c, 0 < sizeof c) -> forall o, 0 < GetObjectSize sizeof o.
Proof.
  intros Hp o. assert (forall c n, 0 < sizeof c + n) as Ha by (intros c n; specialize (Hp c); lia).
  destruct o as [| | | | |[]| | |? ? ? ? []|? ? []]; cbn; auto.
Qed.

Lemma nonnulls_map f (ps : list oop) : nonnulls (map_oop f <$> ps) = map_oop f <$> nonnulls ps.
Proof.
  induction ps as [|p ps IH]; [done|]. rewrite fmap_cons, nonnulls_cons, IH, (nonnulls_cons p).
  rewrite fmap_app. f_equal. by destruct p.
Qed.

Lemma of_loc_map f o : of_loc (f <$> o) = map_oop f <$> of_loc o.
Proof. by destruct o. Qed.

Lemma pointers_map f o : pointers (map_object f o) = map_oop f <$> pointers o.
Proof.
  destruct o as [| | | |s|k c fs|fr|m|s hld n a t|s hld p]; cbn -[nonnulls]; try done.
  - destruct s as [chars cache pos]. cbn. revert pos.
    induction cache as [|[c i] r IH]; intros [|pos]; cbn; [done..|]. by rewrite IH.
  - by rewrite !fmap_app, fmap_cons, !of_loc_map, nonnulls_map.
  - by rewrite fmap_app, <- !nonnulls_map.
  - rewrite fmap_app, <- nonnulls_map. by destruct t.
  - by rewrite <- nonnulls_map.
Qed.

Lemma map_oop_compose f g p : map_oop f (map_oop g p) = map_oop (f ∘ g) p.
Proof. by destruct p. Qed.

Lemma map_oops_compose f g (ps : list oop) :
  map_oop f <$> (map_oop g <$> ps) = map_oop (f ∘ g) <$> ps.
Proof. rewrite <- list_fmap_compose. apply list_fmap_ext. intros. apply map_oop_compose. Qed.

Lemma map_object_compose f g o : map_object f (map_object g o) = map_object (f ∘ g) o.
Proof.
  destruct o as [| | | |s|k c fs|fr|m|s hld n a t|s hld p]; cbn; try done.
  - destruct s as [chars cache pos]. cbn. do 2 f_equal. revert pos.
    induction cache as [|[c i] r IH]; intros [|pos]; cbn; [done..|]. by rewrite !map_oop_compose, IH.
  - by rewrite map_oop_compose, map_oops_compose.
  - by rewrite map_oops_compose, !option_fmap_compose.
  - by rewrite map_oop_compose, map_oops_compose.
  - rewrite map_oop_compose. destruct t; cbn; by rewrite ?map_oop_compose.
  - by rewrite map_oop_compose.
Qed.

(** What a copy has: a symbol loses its cache. *)
Definition clone_of (o : obj) : obj :=
  match o with
  | OSymbol s => OSymbol (mkSymbol (sym_chars s) (replicate 3 (Null, Null)) 0)
  | _ => o
  end.

Lemma clone_of_size sizeof o : GetObjectSize sizeof (clone_of o) = GetObjectSize sizeof o.
Proof. by destruct o. Qed.

(** The locals of a frame begin behind the arguments of its method. *)
Definition frame_ok (h : gmap loc obj) (o : obj) : Prop :=
  match o with
  | OFrame f => exists m, h !! f_method f = Some (OMethod m) /\ f_locals f = m_numberOfArguments m
  | _ => True
  end.

Lemma clone_of_mapped f o : clone_of (map_object f (clone_of o)) = map_object f (clone_of o).
Proof. by destruct o. Qed.

Lemma rebuilt_globals_Some f globs acc k v :
  rebuilt_globals f globs acc !! k = Some v ->
  acc !! k = Some v \/ exists k0 v0, (k0, v0) ∈ globs /\ k = f k0 /\ v = map_oop f v0.
Proof.
  revert acc. induction globs as [|[k0 v0] r IH]; intros acc E; cbn in E; [by left|].
  apply IH in E as [E|(k1 & v1 & Hin & E)]; [|right; set_solver].
  apply lookup_insert_Some in E as [[<- <-]|[_ E]]; [|by left]. right. set_solver.
Qed.

(** The globals after the walk are the images of globals. *)
Lemma roots_map USE_TAGGING f w p :
  p ∈ roots USE_TAGGING (map_world USE_TAGGING f w) ->
  exists q, q ∈ roots USE_TAGGING w /\ p = map_oop f q.
Proof.
  assert (forall qs, qs ⊆ roots USE_TAGGING w -> p ∈ map_oop f <$> qs ->
    exists q, q ∈ roots USE_TAGGING w /\ p = map_oop f q) as HI.
  { intros qs Hq (q & -> & Hin)%list_elem_of_fmap. exists q. by split; [apply Hq|]. }
  unfold roots at 1. rewrite !elem_of_app. intros [H|[H|[H|[H|[H|[H|H]]]]]].
  - apply (HI (known_pointers USE_TAGGING (known w))); [intros q Hq; unfold roots; rewrite !elem_of_app; tauto|].
    unfold known_pointers in *. by destruct USE_TAGGING.
  - unfold global_pointers in H. apply list_elem_of_bind in H as ([k v] & Hp & Hin).
    apply elem_of_map_to_list, rebuilt_globals_Some in Hin as [E|(k0 & v0 & Hin & -> & ->)].
    { by rewrite lookup_empty in E. }
    apply (HI [Ref k0; v0]); [|set_solver].
    intros q Hq. unfold roots. rewrite !elem_of_app. right. left.
    unfold global_pointers. apply list_elem_of_bind. by exists (k0, v0).
  - apply list_elem_of_fmap in H as ([k l] & -> & Hin). apply elem_of_map_to_list in Hin.
    cbn in Hin. rewrite lookup_fmap in Hin. apply fmap_Some in Hin as (l0 & Hin & ->).
    apply (HI [Ref l0]); [|set_solver]. intros q ->%list_elem_of_singleton. unfold roots.
    rewrite !elem_of_app. do 2 right. left. apply list_elem_of_fmap. exists (k, l0).
    split; [done|]. by apply elem_of_map_to_list.
  - apply (HI (symbol_pointers (known w))); [intros q Hq; unfold roots; rewrite !elem_of_app; tauto|]. done.
  - apply list_elem_of_fmap in H as ([k c] & -> & Hin). apply elem_of_map_to_list in Hin.
    cbn in Hin. rewrite lookup_fmap in Hin. apply fmap_Some in Hin as (c0 & Hin & ->).
    apply (HI [c0]); [|set_solver]. intros q ->%list_elem_of_singleton. unfold roots.
    rewrite !elem_of_app. do 4 right. left. apply list_elem_of_fmap. exists (k, c0).
    split; [done|]. by apply elem_of_map_to_list.
  - apply (HI [Ref (method w)]); [intros q Hq; unfold roots; rewrite !elem_of_app; tauto|]. done.
  - apply (HI (of_loc (frame w))); [intros q Hq; unfold roots; rewrite !elem_of_app; tauto|]. by rewrite <- of_loc_map.
Qed.

Lemma rebuilt_globals_other f globs acc k :
  (forall k', k' ∈ globs.*1 -> f k' <> k) -> rebuilt_globals f globs acc !! k = acc !! k.
Proof.
  revert acc. induction globs as [|[k0 v0] r IH]; intros acc HN; [done|]. cbn.
  etrans; [apply IH; set_solver|]. apply lookup_insert_ne. apply HN. set_solver.
Qed.

Lemma rebuilt_globals_lookup f globs acc k v :
  NoDup globs.*1 -> (forall k1 k2, k1 ∈ globs.*1 -> k2 ∈ globs.*1 -> f k1 = f k2 -> k1 = k2) ->
  (k, v) ∈ globs -> rebuilt_globals f globs acc !! f k = Some (map_oop f v).
Proof.
  revert acc. induction globs as [|[k0 v0] r IH]; intros acc HN HI; [by intros ?%elem_of_nil|].
  cbn in HN, HI. apply NoDup_cons in HN as [Hk HN]. intros [[= <- <-]|Hin]%elem_of_cons.
  - etrans; [apply (rebuilt_globals_other f r (<[f k := map_oop f v]> acc))|apply lookup_insert_eq].
    intros k' Hk' E. apply HI in E; [by subst|set_solver..].
  - cbn. apply IH; [done| |done]. intros k1 k2 H1 H2. apply HI; set_solver.
Qed.

(** The images of globals are among the globals after the walk. *)
Lemma roots_map_back USE_TAGGING f w q :
  (forall l l', Ref l ∈ roots USE_TAGGING w -> Ref l' ∈ roots USE_TAGGING w -> f l = f l' -> l = l') ->
  q ∈ roots USE_TAGGING w -> map_oop f q ∈ roots USE_TAGGING (map_world USE_TAGGING f w).
Proof.
  intros HI. assert (forall (ps qs : list oop) p, p ∈ ps -> map_oop f <$> ps = qs -> map_oop f p ∈ qs) as HF.
  { intros ps qs p Hp <-. apply list_elem_of_fmap. by exists p. }
  assert (forall k, k ∈ (map_to_list (globals w)).*1 -> Ref k ∈ roots USE_TAGGING w) as HK.
  { intros k ([k' v] & -> & Hin)%list_elem_of_fmap. unfold roots. rewrite !elem_of_app. right. left.
    apply list_elem_of_bind. exists (k', v). split; [set_solver|done]. }
  unfold roots at 1 2. rewrite !elem_of_app. intros [H|[H|[H|[H|[H|[H|H]]]]]].
  - left. apply (HF _ _ _ H). unfold known_pointers. by destruct USE_TAGGING.
  - right. left. unfold global_pointers in *. apply list_elem_of_bind in H as ([k v] & Hp & Hin).
    apply list_elem_of_bind. exists (f k, map_oop f v). split; [set_solver|].
    apply elem_of_map_to_list. cbn. apply rebuilt_globals_lookup; [apply NoDup_fst_map_to_list| |done].
    intros k1 k2 H1 H2. by apply HI; apply HK.
  - do 2 right. left. apply list_elem_of_fmap in H as ([k l] & -> & Hin).
    apply elem_of_map_to_list in Hin. apply list_elem_of_fmap. exists (k, f l). split; [done|].
    apply elem_of_map_to_list. cbn. by rewrite lookup_fmap, Hin.
  - do 3 right. left. by apply (HF _ _ _ H).
  - do 4 right. left. apply list_elem_of_fmap in H as ([k c] & -> & Hin).
    apply elem_of_map_to_list in Hin. apply list_elem_of_fmap. exists (k, map_oop f c).
    split; [done|]. apply elem_of_map_to_list. cbn. by rewrite lookup_fmap, Hin.
  - do 5 right. left. by apply (HF _ _ _ H).
  - do 6 right. apply (HF _ _ _ H). cbn. by rewrite of_loc_map.
Qed.

(** ** Steps *)

Definition gc_of {H} (m : Mem H) (l : loc) : nat := default 0 (gcfields m !! l).

Lemma GetGCField_step {H} l o (m : Mem H) :
  objects m !! l = Some o -> GetGCField l m = Ok (gc_of m l, m).
Proof. intros E. unfold GetGCField. by rewrite E. Qed.

Lemma SetGCField_step {H} l o v (m : Mem H) :
  objects m !! l = Some o ->
  SetGCField l v m = Ok (tt, mkMem (objects m) (<[l := v]> (gcfields m)) (heap_data m)).
Proof. intros E. unfold SetGCField. by rewrite E. Qed.

Lemma load_object_step {H} l o (m : Mem H) :
  objects m !! l = Some o -> load_object l m = Ok (o, m).
Proof. intros E. unfold load_object. by rewrite E. Qed.

Lemma set_heap_data_step {H} (d : H) (m : Mem H) :
  set_heap_data d m = Ok (tt, mkMem (objects m) (gcfields m) d).
Proof. done. Qed.

Lemma gc_of_insert {H} (h : gmap loc obj) gc (d : H) l v l' :
  gc_of (mkMem h (<[l := v]> gc) d) l' = if decide (l = l') then v else default 0 (gc !! l').
Proof.
  unfold gc_of. cbn. case_decide as E; [subst; by rewrite lookup_insert_eq|].
  by rewrite lookup_insert_ne.
Qed.

Definition total (sizeof : cxx_class -> nat) (h : gmap loc obj) (ls : list loc) : nat :=
  sum_list_with (fun l => from_option (GetObjectSize sizeof) 0 (h !! l)) ls.

Lemma total_ext sizeof h h' ls :
  (forall l, l ∈ ls -> h !! l = h' !! l) -> total sizeof h ls = total sizeof h' ls.
Proof.
  intros E. induction ls as [|l ls IH]; [done|]. unfold total in *. cbn.
  rewrite E, IH by set_solver. done.
Qed.

Lemma gc_of_delete {H} h gc (d : H) l l' :
  gc_of (mkMem h (delete l gc) d) l' = if decide (l = l') then 0 else default 0 (gc !! l').
Proof.
  unfold gc_of. cbn. case_decide as E; [subst; by rewrite lookup_delete_eq|].
  by rewrite lookup_delete_ne.
Qed.

Lemma filter_ext_elem {A} (P Q : A -> Prop) `{!forall x, Decision (P x), !forall x, Decision (Q x)} (l : list A) :
  (forall x, x ∈ l -> P x <-> Q x) -> filter P l = filter Q l.
Proof.
  intros E. induction l as [|x l IH]; [done|]. rewrite !filter_cons, IH by set_solver.
  assert (P x <-> Q x) as Ex by (apply E; set_solver). repeat case_decide; naive_solver.
Qed.

(** Restricting the memory to what is reachable does not change reachability. *)
Lemma reachable_restrict (h h' : gmap loc obj) rs :
  (forall l, reachable h rs l -> h' !! l = h !! l) ->
  forall l, reachable h rs l <-> reachable h' rs l.
Proof.
  intros E l. split.
  - induction 1 as [l Hl|l o l' HR IH Ho Hl']; [by apply reachable_root|].
    apply (reachable_step h' rs l o l'); [done|by rewrite E|done].
  - induction 1 as [l Hl|l o l' HR IH Ho Hl']; [by apply reachable_root|].
    apply (reachable_step h rs l o l'); [done|by rewrite <- E|done].
Qed.

Lemma well_formed_restrict (h h' : gmap loc obj) rs :
  (forall l, reachable h rs l -> h' !! l = h !! l) -> well_formed h rs -> well_formed h' rs.
Proof.
  intros E [HN HW]. split; [done|]. intros l HR. apply (reachable_restrict h h') in HR; [|done].
  rewrite E by done. by apply HW.
Qed.

Lemma reachable_mono (h : gmap loc obj) rs rs' l :
  rs ⊆ rs' -> reachable h rs l -> reachable h rs' l.
Proof.
  intros Hs. induction 1 as [l Hl|l o l' _ IH Ho Hl']; [by apply reachable_root, Hs|].
  by apply (reachable_step h rs' l o).
Qed.

Lemma well_formed_mono (h : gmap loc obj) rs rs' : rs ⊆ rs' -> well_formed h rs' -> well_formed h rs.
Proof.
  intros Hs [HN HW]. split; [by intros H%Hs|]. intros l Hl. apply HW. by apply (reachable_mono h rs).
Qed.

(** ** Images of graphs

    [h'] has, at [f l], every reachable object [l] of [h] with its pointers replaced. *)
Section Image.

Context (h h' : gmap loc obj) (rs rs' : list oop) (f : loc -> loc)
  (Hroots : forall p, p ∈ rs' -> exists q, q ∈ rs /\ p = map_oop f q)
  (Himage : forall l o, reachable h rs l -> h !! l = Some o -> h' !! f l = Some (map_object f o))
  (HW : well_formed h rs).

Lemma image_reachable l' : reachable h' rs' l' -> exists l, reachable h rs l /\ l' = f l.
Proof using Hroots Himage HW.
  induction 1 as [l' Hl'|l' o' c' _ (l & HR & ->) Ho' Hc'].
  - apply Hroots in Hl' as ([| |l] & Hl & [= ->]). exists l. split; [by apply reachable_root|done].
  - destruct (proj2 HW l HR) as (o & Ho & _). rewrite (Himage l o HR Ho) in Ho'.
    injection Ho' as <-. rewrite pointers_map in Hc'.
    apply list_elem_of_fmap in Hc' as ([| |c] & [= ->] & Hc). exists c.
    split; [by apply (reachable_step h rs l o)|done].
Qed.

(** If the roots are images as well, everything that was reachable stays so. *)
Lemma image_forward l :
  (forall q, q ∈ rs -> map_oop f q ∈ rs') -> reachable h rs l -> reachable h' rs' (f l).
Proof using Himage.
  intros HB. induction 1 as [l Hl|l o l' HR IH Ho Hl'].
  - apply reachable_root. by apply (HB (Ref l)).
  - apply (reachable_step h' rs' (f l) (map_object f o)); [done|by apply Himage|].
    rewrite pointers_map. apply list_elem_of_fmap. by exists (Ref l').
Qed.

Lemma image_well_formed : well_formed h' rs'.
Proof using Hroots Himage HW.
  split.
  - intros ([| |l] & Hq & E)%Hroots; try done. by apply (proj1 HW).
  - intros l' (l & HR & ->)%image_reachable. destruct (proj2 HW l HR) as (o & Ho & HN).
    exists (map_object f o). split; [by apply Himage|]. rewrite pointers_map.
    intros ([| |c] & E & Hc)%list_elem_of_fmap; done.
Qed.

End Image.

(** ** A check of well-formedness, and a small memory that passes it *)

Definition leads_to_object (h : gmap loc obj) (p : oop) : bool :=
  match p with
  | Null => false
  | Tagged _ => true
  | Ref l => bool_decide (is_Some (h !! l))
  end.

Lemma well_formed_closed h rs :
  map_Forall (fun _ o => forallb (leads_to_object h) (pointers o) = true) h ->
  forallb (leads_to_object h) rs = true -> well_formed h rs.
Proof.
  intros HH HR. rewrite forallb_forall in HR.
  assert (forall ps, (forall p, In p ps -> leads_to_object h p = true) -> Null ∉ ps) as HN.
  { intros ps Hps H%list_elem_of_In. by apply Hps in H. }
  split; [by apply HN|]. intros l Hl.
  assert (exists o, h !! l = Some o) as [o Ho].
  { induction Hl as [l Hl|l o l' _ _ Ho Hl'].
    - apply list_elem_of_In, HR, bool_decide_eq_true in Hl as [o Ho]. by exists o.
    - specialize (HH l o Ho). cbn in HH. rewrite forallb_forall in HH.
      apply list_elem_of_In, HH, bool_decide_eq_true in Hl' as [o' Ho']. by exists o'. }
  exists o. split; [done|]. apply HN. specialize (HH l o Ho). cbn in HH.
  by rewrite forallb_forall in HH.
Qed.

(** An object, a method with its signature, a frame of the method, and a string that
    nothing refers to, at given locations. *)
Definition tiny_objects (a b c d e : loc) : gmap loc obj :=
  list_to_map
    [(a, OObject KObject (Ref a) [Ref a; Tagged 7]);
     (b, OMethod (mkMethod c Null 0 2 [0%Z] 1 [Ref a; Null] 0 []));
     (c, OSymbol (mkSymbol "run" [(Ref a, Ref b); (Null, Null); (Null, Null)] 1));
     (d, OFrame (mkFrame None None b 0 1 [Ref a; Tagged 3] 3));
     (e, OString "garbage")].

Definition tiny_world (a b c d : loc) : World :=
  let n := Ref a in
  mkWorld ∅ 0 ∅ 0 {[ "run"%string := c ]} {[ c := Ref b ]} {[ 1%nat := Ref a ]}
    (mkKnown n n n n n n n n n n n n n n n n n n n n n n n n n n n) (Some d) b 0.
