(* ===== verification/Marking.v ===== *)
(** * Marking and sweeping

    What the mark and sweep collector and the major collection of the generational
    collector have in common: a function that marks an object and then what it refers
    to ([mark_object] of both), and a list of objects from which those without a mark
    are freed.  A mark is a value of the collector's field. *)
From S2P Require Import Prelude Objects Universe HeapWalk.
Local Open Scope nat_scope.

(** ** Marking is reachability *)

Section Marking.

(** [test] tells whether a field has a mark, [mark] is the field of a marked object,
    and [mark_object] is the function of the collector, here by its equation. *)
Context {H : Type} (test : nat -> bool) (mark : nat) (mark_tested : test mark = true).
Context (mark_object : nat -> oop -> stateful (Mem H) oop).

Definition marks : Prop := forall fuel p,
  mark_object (S fuel) p =
  match p with
  | Tagged _ => mret p
  | Null => fail Undef
  | Ref l =>
      g ← GetGCField l;
      if test g then mret p
      else SetGCField l mark;; WalkObjects (mark_object fuel) l;; mret p
  end.

Context (mark_equation : marks).
Context (h : gmap loc obj) (rs : list oop) (HW : well_formed h rs).

Definition has_mark (m : Mem H) (l : loc) : Prop := test (gc_of m l) = true.
#[export] Instance has_mark_dec m l : Decision (has_mark m l).
Proof. unfold has_mark. apply _. Defined.

Definition unmarked (m : Mem H) : gmap loc obj :=
  filter (fun kv => ~ has_mark m kv.1) h.

(** During the marking: only fields of the collector change, and only those of objects
    that are reachable. [m0] is the memory at the beginning. *)
Record marking (m0 : Mem H) (fuel : nat) (m : Mem H) : Prop := mkMarking {
  marking_objects : objects m = h;
  marking_data : heap_data m = heap_data m0;
  marking_fields l : gc_of m l = gc_of m0 l \/ gc_of m l = mark;
  marking_reach l : has_mark m l -> ~ has_mark m0 l -> reachable h rs l;
  marking_fuel : size (unmarked m) < fuel }.

(** A later memory has more marks, and what was marked in between has its pointers
    marked. *)
Record later (m m' : Mem H) : Prop := mkLater {
  later_marked l : has_mark m l -> has_mark m' l;
  later_closed l o l' :
    has_mark m' l -> ~ has_mark m l -> h !! l = Some o -> Ref l' ∈ pointers o -> has_mark m' l' }.

Lemma marked_later_refl m : later m m.
Proof using. by split. Qed.

Lemma marked_later_trans m1 m2 m3 : later m1 m2 -> later m2 m3 -> later m1 m3.
Proof using.
  intros [M1 C1] [M2 C2]. split; [by auto|].
  intros l o l' H3 H1 Ho Hl'. destruct (decide (has_mark m2 l)) as [E|E].
  - apply M2. by apply (C1 l o l').
  - by apply (C2 l o l').
Qed.

Lemma unmarked_later m m' : later m m' -> size (unmarked m') <= size (unmarked m).
Proof using.
  intros [HM _]. apply map_subseteq_size. apply map_filter_strong_subseteq_ext.
  intros l o. cbn. intros [E ?]. split; [|done]. intros N. by apply E, HM.
Qed.

(** Marking an object. *)
Definition mark1 (l : loc) (m : Mem H) : Mem H :=
  mkMem (objects m) (<[l := mark]> (gcfields m)) (heap_data m).

Lemma marked_mark1 l m l' : has_mark (mark1 l m) l' <-> l = l' \/ has_mark m l'.
Proof using mark_tested.
  unfold has_mark, mark1. rewrite gc_of_insert. case_decide; [|by naive_solver].
  split; [by left|done].
Qed.

Lemma unmarked_mark1 l o m :
  h !! l = Some o -> ~ has_mark m l -> size (unmarked (mark1 l m)) < size (unmarked m).
Proof using mark_tested.
  intros Ho Hm. apply map_subset_size. apply map_subset_alt. split.
  - apply map_filter_strong_subseteq_ext. intros l' o'. cbn. intros [E ?]. split; [|done].
    intros N. by apply E, marked_mark1; right.
  - exists l. split.
    + apply map_lookup_filter_None. right. intros o' _. cbn. intros N. apply N, marked_mark1. by left.
    + exists o. by apply map_lookup_filter_Some.
Qed.

Lemma marking_mark1 m0 fuel l o m :
  h !! l = Some o -> reachable h rs l -> ~ has_mark m l ->
  marking m0 (S fuel) m -> marking m0 fuel (mark1 l m).
Proof using mark_tested.
  intros Ho HR Hl [EO ED EF ER EU]. split; [done|done| | |].
  - intros l'. unfold mark1. rewrite gc_of_insert. case_decide; [by right|apply EF].
  - intros l' [<-|N]%marked_mark1 N0; [done|by apply ER].
  - pose proof (unmarked_mark1 l o m Ho Hl). lia.
Qed.

Lemma mark_object_walker m0 fuel :
  Walker (reachable h rs) (marking m0 fuel) later (fun _ => id) has_mark (mark_object fuel).
Proof using HW mark_equation mark_tested.
  induction fuel as [|fuel IH];
    (split; [apply marked_later_refl|apply marked_later_trans|by intros m m' l [HL _]; apply HL|done|]).
  { by intros m p [_ _ _ _ ?]; lia. }
  intros m p HM HV. rewrite mark_equation. destruct p as [|z|l]; [done| |].
  { exists m. split; [done|]. split; [done|]. split; [apply marked_later_refl|done]. }
  cbn in HV. destruct (proj2 HW l HV) as (o & Ho & _).
  pose proof (marking_objects _ _ _ HM) as EO. rewrite <- EO in Ho.
  rewrite (bind_step _ _ _ _ _ (GetGCField_step _ _ _ Ho)).
  destruct (test (gc_of m l)) eqn:E.
  { exists m. split; [done|]. split; [done|]. split; [apply marked_later_refl|done]. }
  rewrite (bind_step _ _ _ _ _ (SetGCField_step _ _ _ _ Ho)). fold (mark1 l m).
  rewrite EO in Ho. assert (~ has_mark m l) as Hl by (unfold has_mark; by rewrite E).
  pose proof (marking_mark1 _ _ _ _ _ Ho HV Hl HM) as HM1.
  destruct (visits_object IH o) as [_ HV'].
  destruct (HV' _ HM1 (valid_pointers _ _ _ _ HW HV Ho)) as (m2 & E2 & I2 & L2 & S2).
  exists m2. unfold WalkObjects. rewrite bind_assoc.
  rewrite (bind_step _ _ _ _ _ (load_object_step l o (mark1 l m) (eq_trans (f_equal _ EO) Ho))).
  rewrite bind_assoc, (bind_step _ _ _ _ _ E2), map_object_id.
  assert (store_object l o m2 = Ok (tt, m2)) as HS.
  { unfold store_object. rewrite (marking_objects _ _ _ I2), Ho, insert_id by done.
    by rewrite <- (marking_objects _ _ _ I2); destruct m2. }
  rewrite (bind_step _ _ _ _ _ HS).
  split; [done|]. pose proof L2 as [LM LC]. split; [|split].
  - destruct I2 as [IO ID IF IR IU]. by split; auto.
  - split; [intros l' N; apply LM, marked_mark1; by right|].
    intros l' o' c H2 Hn Ho' Hc. destruct (decide (l = l')) as [<-|Hne].
    + assert (o' = o) as -> by congruence. rewrite Forall_forall in S2. by apply (S2 _ Hc).
    + apply (LC l' o'); [done| |done|done]. by intros [?|?]%marked_mark1.
  - cbn. apply LM, marked_mark1. by left.
Qed.

(** If what the globals reach has no marks in the beginning, the new marks are those of
    what they reach. *)
Lemma mark_globals USE_TAGGING w (m : Mem H) :
  is_Some (frame w) -> objects m = h -> rs = roots USE_TAGGING w ->
  (forall l, reachable h rs l -> ~ has_mark m l) ->
  exists m', WalkGlobals USE_TAGGING (mark_object (S (size h))) w m = Ok (w, m')
    /\ objects m' = h /\ heap_data m' = heap_data m
    /\ (forall l, ~ has_mark m l -> has_mark m' l <-> reachable h rs l)
    /\ (forall l, ~ has_mark m l ->
          gc_of m' l = if decide (has_mark m' l) then mark else gc_of m l).
Proof using HW mark_equation mark_tested.
  intros HF EO ER H0.
  assert (marking m (S (size h)) m) as HM.
  { split; [done|done|by left|done|].
    apply Nat.lt_succ_r, map_subseteq_size, map_filter_subseteq. }
  destruct (visits_world (mark_object_walker m (S (size h))) USE_TAGGING w HF) as [_ HV].
  rewrite <- ER in HV.
  destruct (HV m HM (valid_roots _ _ HW)) as (m' & E & [IO ID IF IR _] & [_ LC] & S).
  rewrite map_world_id in E. exists m'. split; [done|]. split; [done|]. split; [done|]. split.
  - intros l Hl. split; [intros N; by apply IR|]. clear Hl.
    induction 1 as [l Hl|l o l' HR IH Ho Hl'].
    + rewrite Forall_forall in S. by apply (S _ Hl).
    + apply (LC l o l'); auto.
  - intros l Hl. case_decide as N; destruct (IF l) as [E1|E1]; [|done..|].
    + destruct Hl. unfold has_mark in *. by rewrite <- E1.
    + destruct N. unfold has_mark. by rewrite E1.
Qed.

End Marking.

(** ** Sweeping *)

Section Sweeping.

(** Objects with a mark get the field [reset], the others are freed. *)
Context {H : Type} (test : nat -> bool) (reset : nat).

(** [m1] is the memory after one object was swept: freed, or its mark removed. *)
Definition swept1 (m m1 : Mem H) (l : loc) : Prop :=
  heap_data m1 = heap_data m /\
  objects m1 !! l = (if decide (has_mark test m l) then objects m !! l else None) /\
  gc_of m1 l = (if decide (has_mark test m l) then reset else 0) /\
  forall l', l' <> l -> gc_of m1 l' = gc_of m l' /\ objects m1 !! l' = objects m !! l'.

Definition swept (m m' : Mem H) (objs : list loc) : Prop :=
  heap_data m' = heap_data m /\
  (forall l, objects m' !! l =
     if decide (l ∈ objs /\ ~ has_mark test m l) then None else objects m !! l) /\
  (forall l, gc_of m' l =
     if decide (l ∈ objs) then (if decide (has_mark test m l) then reset else 0) else gc_of m l).

Lemma swept_nil m : swept m m [].
Proof using. split; [done|]. split; intros l; by rewrite decide_False by set_solver. Qed.

Lemma swept_cons m m1 m' l r : l ∉ r -> swept1 m m1 l -> swept m1 m' r -> swept m m' (l :: r).
Proof using.
  intros Hl (D1 & O1 & G1 & R1) (D & O & G). split; [congruence|]. split.
  - intros l'. rewrite O. destruct (decide (l' = l)) as [->|Hne].
    + rewrite decide_False by tauto. rewrite O1.
      repeat case_decide; set_solver.
    + destruct (R1 l' Hne) as [E1 E2]. rewrite E2. apply decide_ext.
      unfold has_mark. rewrite E1. set_solver.
  - intros l'. rewrite G. destruct (decide (l' = l)) as [->|Hne].
    + rewrite decide_False by done. rewrite (decide_True (P := l ∈ l :: r)) by set_solver. done.
    + destruct (R1 l' Hne) as [E1 _]. rewrite E1.
      assert (has_mark test m1 l' <-> has_mark test m l') by (unfold has_mark; by rewrite E1).
      repeat case_decide; set_solver.
Qed.

Lemma swept1_filter m m1 l (r : list loc) :
  l ∉ r -> swept1 m m1 l -> filter (has_mark test m1) r = filter (has_mark test m) r.
Proof using.
  intros Hl (_ & _ & _ & R1).
  apply filter_ext_elem. intros l' Hl'. unfold has_mark.
  by rewrite (proj1 (R1 l' ltac:(set_solver))).
Qed.

Lemma swept1_total sizeof m m1 l (r : list loc) :
  l ∉ r -> swept1 m m1 l -> total sizeof (objects m1) r = total sizeof (objects m) r.
Proof using.
  intros Hl (_ & _ & _ & R1). apply total_ext. intros l' Hl'.
  by rewrite (proj2 (R1 l' ltac:(set_solver))).
Qed.

Lemma swept1_objects m m1 l (r : list loc) :
  l ∉ r -> swept1 m m1 l -> (forall l', l' ∈ l :: r -> is_Some (objects m !! l')) ->
  forall l', l' ∈ r -> is_Some (objects m1 !! l').
Proof using.
  intros Hl (_ & _ & _ & R1) HS l' Hl'. rewrite (proj2 (R1 l' ltac:(set_solver))).
  apply HS. set_solver.
Qed.

Lemma swept1_keep m l o :
  objects m !! l = Some o -> has_mark test m l ->
  swept1 m (mkMem (objects m) (<[l := reset]> (gcfields m)) (heap_data m)) l.
Proof using.
  intros Ho E. split; [done|]. rewrite !decide_True by done. split; [done|].
  rewrite gc_of_insert, decide_True by done. split; [done|].
  intros l' Hne. by rewrite gc_of_insert, decide_False.
Qed.

Lemma swept1_free m l :
  ~ has_mark test m l ->
  swept1 m (mkMem (delete l (objects m)) (delete l (gcfields m)) (heap_data m)) l.
Proof using.
  intros E. split; [done|]. rewrite !decide_False by done. cbn. split; [by rewrite lookup_delete_eq|].
  rewrite gc_of_delete, decide_True by done. split; [done|].
  intros l' Hne. rewrite gc_of_delete, decide_False by done. by rewrite lookup_delete_ne.
Qed.

End Sweeping.
