(* ===== verification/MarkSweep.v ===== *)
(** * The mark and sweep collector

    [src/src/memory/MarkSweepHeap.cpp] and [MarkSweepCollector.cpp]: objects come from
    [malloc] and are kept in a list; a collection marks what the globals reach and
    frees the rest.  The theorem says that it frees exactly what cannot be reached,
    and that nothing else changes. *)
From Stdlib Require Import Ascii String.
From S2P Require Import Prelude Objects Universe HeapWalk Marking.
Local Open Scope nat_scope.

Record MarkSweepHeap : Type := mkMarkSweepHeap {
  allocatedObjects : list loc;
  spcAlloc : nat;
  collectionLimit : nat;
  gcWasRequested : bool }.

Notation MS := (stateful (Mem MarkSweepHeap)).

Definition new_MarkSweepHeap (objectSpaceSize : nat) : MarkSweepHeap :=
  mkMarkSweepHeap [] 0 (ninety_percent objectSpaceSize) false.

Section MarkSweep.

Context (sizeof : cxx_class -> nat) (USE_TAGGING : bool).

(** [malloc] returns null or a location where no object is. *)
Context (malloc : gmap loc obj -> nat -> option loc).

Definition AllocateObject (size : nat) : MS loc :=
  m ← get;
  match malloc (objects m) size with
  | None => fail (ErrorExit "Failed to allocate")
  | Some newObject =>
      let d := heap_data m in
      let spc := spcAlloc d + size in
      set_heap_data (mkMarkSweepHeap (allocatedObjects d ++ [newObject]) spc (collectionLimit d)
                       (gcWasRequested d || (collectionLimit d <=? spc)));;
      mret newObject
  end.

(** [operator new] and the constructor. *)
Definition new_object (o : obj) : MS loc :=
  l ← AllocateObject (GetObjectSize sizeof o);
  modify (fun m => mkMem (<[l := o]> (objects m)) (<[l := 0]> (gcfields m)) (heap_data m));;
  mret l.

(** ** Marking *)

Definition GC_MARKED : nat := 3456.

Fixpoint mark_object (fuel : nat) (p : oop) : MS oop :=
  match fuel with
  | O => fail OutOfFuel
  | S fuel =>
      match p with
      | Tagged _ => mret p
      | Null => fail Undef
      | Ref l =>
          g ← GetGCField l;
          if negb (g =? 0) then mret p
          else
            SetGCField l GC_MARKED;;
            WalkObjects (mark_object fuel) l;;
            mret p
      end
  end.

(** The recursion is as deep as there are objects at most. *)
Definition markReachableObjects (w : World) : MS World :=
  n ← gets (fun m => size (objects m));
  WalkGlobals USE_TAGGING (mark_object (S n)) w.

(** ** Sweeping *)

Definition FreeObject (l : loc) : MS () :=
  modify (fun m => mkMem (delete l (objects m)) (delete l (gcfields m)) (heap_data m)).

Fixpoint sweep (objs : list loc) (survivors : list loc) (survivorsSize : nat)
    : MS (list loc * nat) :=
  match objs with
  | [] => mret (survivors, survivorsSize)
  | l :: r =>
      g ← GetGCField l;
      if g =? GC_MARKED then
        o ← load_object l;
        SetGCField l 0;;
        sweep r (survivors ++ [l]) (survivorsSize + GetObjectSize sizeof o)
      else FreeObject l;; sweep r survivors survivorsSize
  end.

Definition Collect (w : World) : MS World :=
  d ← gets heap_data;
  set_heap_data (mkMarkSweepHeap (allocatedObjects d) (spcAlloc d) (collectionLimit d) false);;
  w' ← markReachableObjects w;
  s ← sweep (allocatedObjects d) [] 0;
  set_heap_data (mkMarkSweepHeap s.1 s.2 (2 * s.2) false);;
  mret w'.

End MarkSweep.

(** ** Marking and sweeping *)

(** An object has been marked if its field is not 0; the sweep looks for the mark. *)
Definition nonzero (g : nat) : bool := negb (g =? 0).
Definition is_GC_MARKED (g : nat) : bool := g =? GC_MARKED.

Lemma mark_object_marks : marks nonzero GC_MARKED mark_object.
Proof. by intros fuel p. Qed.

Lemma nonzero_unmarked (m : Mem MarkSweepHeap) l : gc_of m l = 0 -> ~ has_mark nonzero m l.
Proof. intros E. unfold has_mark. by rewrite E. Qed.

Lemma mark_reachable USE_TAGGING w (m : Mem MarkSweepHeap) :
  is_Some (frame w) -> well_formed (objects m) (roots USE_TAGGING w) ->
  (forall l, gc_of m l = 0) ->
  exists m', markReachableObjects USE_TAGGING w m = Ok (w, m')
    /\ objects m' = objects m /\ heap_data m' = heap_data m
    /\ (forall l, has_mark is_GC_MARKED m' l <-> reachable (objects m) (roots USE_TAGGING w) l)
    /\ (forall l, ~ has_mark is_GC_MARKED m' l -> gc_of m' l = 0).
Proof.
  intros HF HW H0.
  destruct (mark_globals nonzero GC_MARKED eq_refl mark_object mark_object_marks _ _ HW
              USE_TAGGING w m HF eq_refl eq_refl (fun l _ => nonzero_unmarked m l (H0 l)))
    as (m' & E & EO & ED & ER & EF).
  assert (forall l, has_mark is_GC_MARKED m' l <-> has_mark nonzero m' l) as HM.
  { intros l. specialize (EF l (nonzero_unmarked m l (H0 l))). rewrite H0 in EF. unfold has_mark, is_GC_MARKED, nonzero in *.
    case_decide as K; rewrite EF; [done|]. by rewrite EF in K. }
  exists m'. split; [unfold markReachableObjects; by mstep|]. split; [done|]. split; [done|]. split.
  - intros l. rewrite HM. by apply ER, nonzero_unmarked.
  - intros l. rewrite HM, EF, H0 by (by apply nonzero_unmarked). by case_decide.
Qed.

Notation is_marked := (has_mark is_GC_MARKED).

Lemma sweep_spec sizeof objs surv sz (m : Mem MarkSweepHeap) :
  NoDup objs -> (forall l, l ∈ objs -> is_Some (objects m !! l)) ->
  exists m', sweep sizeof objs surv sz m =
      Ok ((surv ++ filter (is_marked m) objs,
           sz + total sizeof (objects m) (filter (is_marked m) objs)), m')
    /\ swept is_GC_MARKED 0 m m' objs.
Proof.
  revert surv sz m. induction objs as [|l r IH]; intros surv sz m HN HS.
  { exists m. rewrite app_nil_r, Nat.add_0_r. split; [done|apply swept_nil]. }
  apply NoDup_cons in HN as [Hl HN]. destruct (HS l ltac:(set_solver)) as [o Ho]. cbn [sweep].
  rewrite (bind_step _ _ _ _ _ (GetGCField_step _ _ _ Ho)), filter_cons.
  assert (l ∉ filter (is_marked m) r) as Hlf by (rewrite list_elem_of_filter; tauto).
  assert (forall m1 surv' sz', swept1 is_GC_MARKED 0 m m1 l ->
    exists m', sweep sizeof r surv' sz' m1 =
      Ok ((surv' ++ filter (is_marked m) r,
           sz' + total sizeof (objects m) (filter (is_marked m) r)), m')
    /\ swept is_GC_MARKED 0 m m' (l :: r)) as HR.
  { intros m1 surv' sz' H1.
    destruct (IH surv' sz' m1 HN (swept1_objects _ _ _ _ _ _ Hl H1 HS)) as (m' & E' & HS').
    exists m'. rewrite E', (swept1_filter _ _ _ _ _ _ Hl H1), (swept1_total _ _ _ _ _ _ _ Hlf H1).
    split; [done|by apply (swept_cons _ _ m m1)]. }
  change (gc_of m l =? GC_MARKED) with (is_GC_MARKED (gc_of m l)).
  destruct (is_GC_MARKED (gc_of m l)) eqn:Hm; rewrite ?(decide_True (P := is_marked m l)) by done.
  - rewrite (bind_step _ _ _ _ _ (load_object_step _ _ _ Ho)).
    rewrite (bind_step _ _ _ _ _ (SetGCField_step _ _ _ _ Ho)).
    destruct (HR _ (surv ++ [l]) (sz + GetObjectSize sizeof o) (swept1_keep _ _ _ _ _ Ho Hm))
      as (m' & E' & HS'). exists m'. rewrite E'. split; [|done].
    rewrite <- app_assoc. unfold total. cbn. rewrite Ho. cbn. do 3 f_equal. lia.
  - assert (~ is_marked m l) as Hn by (unfold has_mark; by rewrite Hm).
    rewrite (decide_False (P := is_marked m l)) by done.
    unfold FreeObject. rewrite (bind_step _ _ _ _ _ (modify_step _ _)).
    apply HR. by apply swept1_free.
Qed.

(** ** Collection *)

(** The list of the heap has the objects of the memory, once each; no object is
    marked; the pointers that the globals lead to are pointers to objects. *)
Record consistent (USE_TAGGING : bool) (w : World) (m : Mem MarkSweepHeap) : Prop :=
  mkConsistent {
    consistent_frame : is_Some (frame w);
    consistent_nodup : NoDup (allocatedObjects (heap_data m));
    consistent_list l : l ∈ allocatedObjects (heap_data m) <-> is_Some (objects m !! l);
    consistent_unmarked l : gc_of m l = 0;
    consistent_pointers : well_formed (objects m) (roots USE_TAGGING w) }.

Lemma Collect_spec sizeof USE_TAGGING w (m : Mem MarkSweepHeap) :
  consistent USE_TAGGING w m ->
  exists m', Collect sizeof USE_TAGGING w m = Ok (w, m')
    /\ (forall l o, objects m' !! l = Some o <->
          objects m !! l = Some o /\ reachable (objects m) (roots USE_TAGGING w) l)
    /\ spcAlloc (heap_data m') = total sizeof (objects m') (allocatedObjects (heap_data m'))
    /\ collectionLimit (heap_data m') = 2 * spcAlloc (heap_data m')
    /\ gcWasRequested (heap_data m') = false
    /\ consistent USE_TAGGING w m'.
Proof.
  intros [HF HN HL H0 HW]. unfold Collect.
  rewrite (bind_step _ _ _ _ _ (gets_step _ _)).
  rewrite (bind_step _ _ _ _ _ (set_heap_data_step _ _)).
  set (m1 := mkMem _ _ _). destruct (mark_reachable USE_TAGGING w m1 HF HW H0)
    as (m2 & E2 & O2 & D2 & R2 & U2). rewrite (bind_step _ _ _ _ _ E2).
  destruct (sweep_spec sizeof (allocatedObjects (heap_data m)) [] 0 m2 HN)
    as (m3 & E3 & D3 & O3 & G3).
  { intros l Hl. rewrite O2. by apply HL. }
  rewrite (bind_step _ _ _ _ _ E3). eexists. split; [reflexivity|]. cbn [objects heap_data gcfields].
  cbn [fst snd spcAlloc allocatedObjects collectionLimit gcWasRequested app].
  assert (forall l o, objects m3 !! l = Some o <->
    objects m !! l = Some o /\ reachable (objects m) (roots USE_TAGGING w) l) as HO.
  { intros l o. rewrite O3, O2. change (objects m1) with (objects m) in *.
    rewrite <- R2. case_decide as E; [split; [done|]; tauto|]. split; [|tauto].
    intros Ho. split; [done|]. destruct (decide (is_marked m2 l)); [done|]. destruct E.
    split; [|done]. apply HL. by exists o. }
  split; [done|]. split.
  { apply total_ext. intros l [Hm Hl]%list_elem_of_filter. rewrite O3.
    rewrite decide_False; [by rewrite O2|]. tauto. }
  split; [done|]. split; [done|].
  split; cbn [objects heap_data allocatedObjects].
  - done.
  - by apply NoDup_filter.
  - intros l. rewrite list_elem_of_filter, HL, R2. split.
    + intros [HR [o Ho]]. exists o. by apply HO.
    + intros [o [Ho HR]%HO]. split; [done|]. by exists o.
  - intros l. change (gc_of m3 l = 0). rewrite G3. case_decide as E; [by case_decide|].
    destruct (decide (is_marked m2 l)) as [K|K].
    + apply R2 in K. destruct (proj2 HW l K) as (o & Ho & _). destruct E. apply HL. by exists o.
    + by apply U2.
  - apply (well_formed_restrict (objects m)); [|done]. intros l HR.
    destruct (proj2 HW l HR) as (o & Ho & _). rewrite Ho. by apply HO.
Qed.

(** C11: a collection ends and keeps exactly the objects that the globals reach, as
    they were; the others are freed. The list of the heap, the space that is accounted
    for and the limit for the next collection are those of the objects kept, and the
    memory is ready for the next collection. *)
Theorem mark_sweep_collects sizeof USE_TAGGING w (m : Mem MarkSweepHeap) :
  consistent USE_TAGGING w m ->
  exists m', Collect sizeof USE_TAGGING w m = Ok (w, m')
    /\ (forall l o, objects m' !! l = Some o <->
          objects m !! l = Some o /\ reachable (objects m) (roots USE_TAGGING w) l)
    /\ spcAlloc (heap_data m') = total sizeof (objects m') (allocatedObjects (heap_data m'))
    /\ collectionLimit (heap_data m') = 2 * spcAlloc (heap_data m')
    /\ gcWasRequested (heap_data m') = false
    /\ consistent USE_TAGGING w m'.
Proof. apply Collect_spec. Qed.

Definition tiny_memory : Mem MarkSweepHeap :=
  mkMem (tiny_objects 0 1 2 3 4) ∅ (mkMarkSweepHeap [0; 1; 2; 3; 4] 300 200 true).

Lemma mark_sweep_collects_witness :
  exists m', Collect (fun _ => 8) true (tiny_world 0 1 2 3) tiny_memory = Ok (tiny_world 0 1 2 3, m')
    /\ objects m' !! 4 = None /\ is_Some (objects m' !! 3).
Proof.
  destruct (mark_sweep_collects (fun _ => 8) true (tiny_world 0 1 2 3) tiny_memory)
    as (m' & E & HO & _).
  - split.
    + by exists 3.
    + by apply (bool_decide_unpack _).
    + intros l. split.
      * intros Hl. repeat (apply elem_of_cons in Hl as [->|Hl]; [by eexists|]). by apply elem_of_nil in Hl.
      * intros [o Ho%elem_of_list_to_map_2].
        repeat (apply elem_of_cons in Ho as [[= -> _]|Ho]; [set_solver|]). by apply elem_of_nil in Ho.
    + done.
    + apply well_formed_closed; [by apply (bool_decide_unpack _)|by vm_compute].
  - exists m'. vm_compute in E. injection E as <-. done.
Defined.
