(* ===== verification/Copying.v ===== *)
(** * The copying collector

    [src/src/memory/CopyingHeap.cpp] and [CopyingCollector.cpp]: two buffers, of which
    one is in use.  A collection switches the buffers, copies what the globals refer
    to, and then goes over the copies, from one object to the one behind it, copying
    what these refer to, until it reaches the end of what was copied.  The field of
    the collector has the address of the copy.

    Here a location is an address.  The theorem says that the collection ends, that
    the copies never need more space than there is, and that the new buffer has an
    isomorphic copy of what was reachable and nothing else. *)
From Stdlib Require Import Ascii String.
From S2P Require Import Prelude Objects Universe HeapWalk.
Local Open Scope nat_scope.

Module Copying.

Record CopyingHeap : Type := mkCopyingHeap {
  currentBuffer : nat;
  collectionLimit : nat;
  currentBufferEnd : nat;
  oldBuffer : nat;
  oldBufferEnd : nat;
  nextFreePosition : nat;
  oldBufferIsValid : bool;
  gcWasRequested : bool;
  increaseMemory : bool }.

Notation CM := (stateful (Mem CopyingHeap)).

(** Memory that is cleared or given back has no objects. *)
Definition in_range (a b : nat) (l : loc) : Prop := a <= l < b.
#[export] Instance in_range_dec a b l : Decision (in_range a b l).
Proof. unfold in_range. apply _. Defined.

Definition wipe (a b : nat) : CM () :=
  modify (fun m => mkMem (filter (fun kv => ~ in_range a b kv.1) (objects m))
                         (filter (fun kv => ~ in_range a b kv.1) (gcfields m)) (heap_data m)).

Section Copying.

Context (sizeof : cxx_class -> nat) (USE_TAGGING : bool).

(** [malloc], given the blocks in use; it may return null. *)
Context (malloc : list (nat * nat) -> nat -> option nat).

Definition no_memory : error := ErrorExit "unable to allocate heap memory".

(** The constructor does not look at what [malloc] returns. *)
Definition new_CopyingHeap (objectSpaceSize : nat) : result CopyingHeap :=
  match malloc [] objectSpaceSize with
  | None => Err Undef
  | Some b =>
      match malloc [(b, b + objectSpaceSize)] objectSpaceSize with
      | None => Err Undef
      | Some o =>
          Ok (mkCopyingHeap b (b + ninety_percent objectSpaceSize) (b + objectSpaceSize)
                o (o + objectSpaceSize) b false false false)
      end
  end.

Definition switchBuffers (increase : bool) : CM () :=
  d ← gets heap_data;
  let oldBufSizeBeforeSwitch := oldBufferEnd d - oldBuffer d in
  if increase then
    wipe (oldBuffer d) (oldBufferEnd d);;
    let newSize := oldBufSizeBeforeSwitch * 2 in
    match malloc [(currentBuffer d, currentBufferEnd d)] newSize with
    | None => fail no_memory
    | Some b =>
        set_heap_data (mkCopyingHeap b (b + ninety_percent newSize) (b + newSize)
          (currentBuffer d) (currentBufferEnd d) b true (gcWasRequested d) (increaseMemory d));;
        wipe b (b + newSize)
    end
  else
    set_heap_data (mkCopyingHeap (oldBuffer d)
      (oldBuffer d + ninety_percent oldBufSizeBeforeSwitch) (oldBufferEnd d)
      (currentBuffer d) (currentBufferEnd d) (oldBuffer d) true (gcWasRequested d)
      (increaseMemory d));;
    wipe (oldBuffer d) (oldBuffer d + oldBufSizeBeforeSwitch).

Definition with_old (b e : nat) (valid : bool) (d : CopyingHeap) : CopyingHeap :=
  mkCopyingHeap (currentBuffer d) (collectionLimit d) (currentBufferEnd d) b e
    (nextFreePosition d) valid (gcWasRequested d) (increaseMemory d).

Definition invalidateOldBuffer : CM () :=
  d ← gets heap_data;
  let currentBufSize := currentBufferEnd d - currentBuffer d in
  let oldBufSize := oldBufferEnd d - oldBuffer d in
  if oldBufSize <? currentBufSize then
    wipe (oldBuffer d) (oldBufferEnd d);;
    match malloc [(currentBuffer d, currentBufferEnd d)] currentBufSize with
    | None => fail no_memory
    | Some b => set_heap_data (with_old b (b + currentBufSize) false d)
    end
  else set_heap_data (with_old (oldBuffer d) (oldBufferEnd d) false d).

Definition AllocateObject (size : nat) : CM loc :=
  d ← gets heap_data;
  let next := nextFreePosition d + size in
  if currentBufferEnd d <? next then fail (ErrorExit "Failed to allocate")
  else
    set_heap_data (mkCopyingHeap (currentBuffer d) (collectionLimit d) (currentBufferEnd d)
      (oldBuffer d) (oldBufferEnd d) next (oldBufferIsValid d)
      (gcWasRequested d || (collectionLimit d <? next)) (increaseMemory d));;
    mret (nextFreePosition d).

Definition copy_if_necessary (p : oop) : CM oop :=
  match p with
  | Tagged _ => mret p
  | Null => fail Undef
  | Ref l =>
      gcField ← GetGCField l;
      if negb (gcField =? 0) then mret (Ref gcField)
      else
        newObj ← CloneForMovingGC sizeof AllocateObject l;
        SetGCField l newObj;;
        mret (Ref newObj)
  end.

(** The loop over the copies. *)
Fixpoint scan (fuel : nat) (curObject : loc) : CM () :=
  match fuel with
  | O => fail OutOfFuel
  | S fuel =>
      d ← gets heap_data;
      if curObject <? nextFreePosition d then
        WalkObjects copy_if_necessary curObject;;
        o ← load_object curObject;
        scan fuel (curObject + GetObjectSize sizeof o)
      else mret tt
  end.

Definition with_flags (requested increase : bool) (d : CopyingHeap) : CopyingHeap :=
  mkCopyingHeap (currentBuffer d) (collectionLimit d) (currentBufferEnd d) (oldBuffer d)
    (oldBufferEnd d) (nextFreePosition d) (oldBufferIsValid d) requested increase.

Definition update_data (f : CopyingHeap -> CopyingHeap) : CM () :=
  modify (fun m => mkMem (objects m) (gcfields m) (f (heap_data m))).

(** [increaseMemory] is a static variable.  The copies are no more than the objects
    there were. *)
Definition Collect (w : World) : CM World :=
  d ← gets heap_data;
  update_data (with_flags false (increaseMemory d));;
  switchBuffers (increaseMemory d);;
  update_data (fun d => with_flags (gcWasRequested d) false d);;
  n ← gets (fun m => size (objects m));
  w' ← WalkGlobals USE_TAGGING copy_if_necessary w;
  d ← gets heap_data;
  scan (S n) (currentBuffer d);;
  invalidateOldBuffer;;
  update_data (fun d =>
    if currentBufferEnd d - nextFreePosition d <=? nextFreePosition d - currentBuffer d
    then with_flags (gcWasRequested d) true d else d);;
  mret w'.

End Copying.

(** ** Objects one behind the other

    [place sz a ls] are the addresses of the objects [ls], of sizes [sz], when they are
    put one behind the other from the address [a] on. *)
Fixpoint place (sz : loc -> nat) (a : nat) (ls : list loc) : list nat :=
  match ls with
  | [] => []
  | l :: r => a :: place sz (a + sz l) r
  end.

Definition space (sz : loc -> nat) (ls : list loc) : nat := sum_list_with sz ls.

Lemma space_app sz ls ks : space sz (ls ++ ks) = space sz ls + space sz ks.
Proof. apply sum_list_with_app. Qed.

Lemma place_app sz a ls ks : place sz a (ls ++ ks) = place sz a ls ++ place sz (a + space sz ls) ks.
Proof.
  revert a. induction ls as [|l ls IH]; intros a; cbn.
  - by rewrite Nat.add_0_r.
  - rewrite IH. do 3 f_equal. unfold space. lia.
Qed.

Lemma place_length sz a ls : length (place sz a ls) = length ls.
Proof. revert a. induction ls as [|l ls IH]; intros a; cbn; [done|]. by rewrite IH. Qed.

Lemma place_lookup sz a ls i l :
  ls !! i = Some l -> place sz a ls !! i = Some (a + space sz (take i ls)).
Proof.
  revert a i. induction ls as [|l' ls IH]; intros a [|i] E; cbn in *; [done..| |].
  - by rewrite Nat.add_0_r.
  - rewrite (IH _ i) by done. unfold space. f_equal. lia.
Qed.

Lemma place_range sz a ls n :
  n ∈ place sz a ls -> (forall l, l ∈ ls -> 0 < sz l) -> a <= n < a + space sz ls.
Proof.
  revert a. induction ls as [|l ls IH]; intros a Hn Hp; cbn in *; [by apply elem_of_nil in Hn|].
  assert (0 < sz l) by (apply Hp; set_solver). apply elem_of_cons in Hn as [->|Hn].
  - lia.
  - apply IH in Hn; [unfold space in Hn; lia|]. intros l' Hl'. apply Hp. set_solver.
Qed.

Lemma place_NoDup sz a ls : (forall l, l ∈ ls -> 0 < sz l) -> NoDup (place sz a ls).
Proof.
  revert a. induction ls as [|l ls IH]; intros a Hp; cbn; [constructor|].
  assert (0 < sz l) by (apply Hp; set_solver).
  assert (forall l', l' ∈ ls -> 0 < sz l') as Hp' by (intros; apply Hp; set_solver).
  constructor; [|by apply IH]. intros Hn. apply place_range in Hn; [lia|done].
Qed.

(** Where the objects [ls] are found. *)
Definition forward (sz : loc -> nat) (a : nat) (ls : list loc) : gmap loc nat :=
  list_to_map (zip ls (place sz a ls)).

Lemma forward_lookup sz a ls l n :
  NoDup ls ->
  forward sz a ls !! l = Some n <->
  exists i, ls !! i = Some l /\ n = a + space sz (take i ls).
Proof.
  intros HN. unfold forward. rewrite <- elem_of_list_to_map.
  2: { rewrite fst_zip by (by rewrite place_length). done. }
  rewrite list_elem_of_lookup. split.
  - intros [i E]. apply lookup_zip_with_Some in E as (x & y & [= -> ->] & Ex & Ey).
    exists i. split; [done|]. rewrite (place_lookup _ _ _ _ _ Ex) in Ey. congruence.
  - intros (i & E & ->). exists i. apply lookup_zip_with_Some. eexists _, _.
    split; [done|]. split; [done|]. by apply place_lookup with l.
Qed.

Lemma forward_None sz a ls l : forward sz a ls !! l = None <-> l ∉ ls.
Proof.
  unfold forward. rewrite <- not_elem_of_list_to_map.
  by rewrite fst_zip by (by rewrite place_length).
Qed.

Lemma forward_snoc sz a ls l :
  l ∉ ls -> forward sz a (ls ++ [l]) = <[l := a + space sz ls]> (forward sz a ls).
Proof.
  intros Hl. unfold forward. rewrite place_app, zip_with_app by (by rewrite place_length).
  rewrite list_to_map_app. cbn. rewrite <- insert_union_r; [by rewrite map_union_empty|].
  by apply forward_None.
Qed.

(** Objects that are placed do not overlap, and what follows one of them is the next
    one or the end. *)
Lemma space_take sz ls i j l :
  ls !! i = Some l -> i < j -> space sz (take i ls) + sz l <= space sz (take j ls).
Proof.
  intros Ei Hij. assert (space sz (take (S i) ls) <= space sz (take j ls)) as Hle.
  { replace (take j ls) with (take (S i) ls ++ drop (S i) (take j ls)); [rewrite space_app; lia|].
    rewrite <- (take_drop (S i) (take j ls)) at 2. f_equal. rewrite take_take. f_equal. lia. }
  rewrite (take_S_r _ _ _ Ei), space_app in Hle. cbn in Hle. lia.
Qed.

Lemma forward_disjoint sz a ls l n l' n' :
  NoDup ls -> (forall l, l ∈ ls -> 0 < sz l) ->
  forward sz a ls !! l = Some n -> forward sz a ls !! l' = Some n' ->
  l = l' /\ n = n' \/ n + sz l <= n' \/ n' + sz l' <= n.
Proof.
  intros HN Hp (i & Ei & ->)%forward_lookup (j & Ej & ->)%forward_lookup; [|done..].
  destruct (lt_eq_lt_dec i j) as [[Hij| ->]|Hij].
  - right. left. pose proof (space_take sz ls i j l Ei Hij). lia.
  - left. split; [congruence|done].
  - right. right. pose proof (space_take sz ls j i l' Ej Hij). lia.
Qed.

Lemma forward_next sz a ls l n :
  NoDup ls -> forward sz a ls !! l = Some n ->
  n + sz l = a + space sz ls \/ exists l', forward sz a ls !! l' = Some (n + sz l).
Proof.
  intros HN (i & Ei & ->)%forward_lookup; [|done].
  assert (a + space sz (take i ls) + sz l = a + space sz (take (S i) ls)) as ->.
  { rewrite (take_S_r _ _ _ Ei), space_app. cbn. lia. }
  destruct (ls !! S i) as [l'|] eqn:E.
  - right. exists l'. apply forward_lookup; [done|]. by exists (S i).
  - left. apply lookup_ge_None in E. by rewrite take_ge by done.
Qed.

Lemma forward_range sz a ls l n :
  NoDup ls -> (forall l, l ∈ ls -> 0 < sz l) ->
  forward sz a ls !! l = Some n -> a <= n /\ n + sz l <= a + space sz ls.
Proof.
  intros HN Hp (i & Ei & ->)%forward_lookup; [|done]. split; [lia|].
  rewrite <- (take_drop_middle _ _ _ Ei) at 2. rewrite space_app. cbn. lia.
Qed.

Lemma place_same sz sz' a os ns :
  Forall2 (fun l n => sz l = sz' n) os ns ->
  place sz a os = place sz' a ns /\ space sz os = space sz' ns.
Proof.
  intros HA. revert a. induction HA as [|l n os ns E _ IH]; intros a; [done|]. cbn.
  destruct (IH (a + sz l)) as [EP ES]. rewrite <- E, EP. split; [done|].
  unfold space in *. cbn. by rewrite ES, E.
Qed.

(** The size of the object at a location. *)
Definition size_in (sizeof : cxx_class -> nat) (h : gmap loc obj) (l : loc) : nat :=
  from_option (GetObjectSize sizeof) 0 (h !! l).

(** ** The state between collections *)

(** The objects of the buffer in use. *)
Definition current (m : Mem CopyingHeap) : gmap loc obj :=
  filter (fun kv => in_range (currentBuffer (heap_data m)) (currentBufferEnd (heap_data m)) kv.1)
    (objects m).

(** Both buffers have the same size and do not overlap. *)
Record buffers_ok (d : CopyingHeap) : Prop := mkBuffersOk {
  buffers_nonnull : 0 < currentBuffer d /\ 0 < oldBuffer d;
  buffers_ordered : currentBuffer d <= currentBufferEnd d /\ oldBuffer d <= oldBufferEnd d;
  buffers_disjoint : currentBufferEnd d <= oldBuffer d \/ oldBufferEnd d <= currentBuffer d;
  buffers_same : oldBufferEnd d - oldBuffer d = currentBufferEnd d - currentBuffer d }.

(** The objects in use stand one behind the other, up to the next free position; none
    has been moved; the pointers that the globals lead to are pointers to objects in
    use. *)
Record consistent (sizeof : cxx_class -> nat) (USE_TAGGING : bool) (w : World)
    (m : Mem CopyingHeap) : Prop := mkConsistent {
  consistent_frame : is_Some (frame w);
  consistent_buffers : buffers_ok (heap_data m);
  consistent_next : nextFreePosition (heap_data m) <= currentBufferEnd (heap_data m);
  consistent_where l : is_Some (objects m !! l) ->
    in_range (currentBuffer (heap_data m)) (currentBufferEnd (heap_data m)) l \/
    in_range (oldBuffer (heap_data m)) (oldBufferEnd (heap_data m)) l;
  consistent_fields l :
    in_range (oldBuffer (heap_data m)) (oldBufferEnd (heap_data m)) l \/ gc_of m l = 0;
  consistent_placed : exists ls,
    NoDup ls /\ (forall l, l ∈ ls <-> is_Some (current m !! l)) /\
    ls = place (size_in sizeof (current m)) (currentBuffer (heap_data m)) ls /\
    nextFreePosition (heap_data m) =
      currentBuffer (heap_data m) + space (size_in sizeof (current m)) ls;
  consistent_frames l o : current m !! l = Some o -> frame_ok (current m) o;
  consistent_pointers : well_formed (clone_of <$> current m) (roots USE_TAGGING w) }.

(** ** Copying *)

Unset Default Proof Using.

Section Collecting.

Context (sizeof : cxx_class -> nat) (sizeof_pos : forall c, 0 < sizeof c) (USE_TAGGING : bool).

(** The objects before the collection, in the buffer from [A] to [AE]; the new buffer
    from [B] to [BE] has the space for them. *)
Context (h : gmap loc obj) (rs : list oop) (A AE B BE : nat).

Definition live : loc -> Prop := reachable (clone_of <$> h) rs.

Notation sz := (size_in sizeof h).

Context (HW : well_formed (clone_of <$> h) rs)
  (HF : forall l o, h !! l = Some o -> frame_ok h o)
  (HA : forall l, is_Some (h !! l) -> A <= l < AE)
  (HAB : BE <= A \/ AE <= B) (HB : 0 < B)
  (HS : space sz (map_to_list h).*1 <= BE - B).

Lemma sz_pos l o : h !! l = Some o -> 0 < sz l.
Proof. intros E. unfold size_in. rewrite E. by apply GetObjectSize_pos. Qed.

(** Everything but the position and the trigger stays. *)
Definition same_buffers (d d' : CopyingHeap) : Prop :=
  currentBuffer d' = currentBuffer d /\ collectionLimit d' = collectionLimit d /\
  currentBufferEnd d' = currentBufferEnd d /\ oldBuffer d' = oldBuffer d /\
  oldBufferEnd d' = oldBufferEnd d /\ oldBufferIsValid d' = oldBufferIsValid d /\
  increaseMemory d' = increaseMemory d.

Context (d0 : CopyingHeap) (HB0 : currentBuffer d0 = B) (HE0 : currentBufferEnd d0 = BE).

Definition fwd (m : Mem CopyingHeap) (l : loc) : loc := gc_of m l.
Definition seen (m : Mem CopyingHeap) (l : loc) : Prop := gc_of m l <> 0.

(** The objects [os] were copied, in this order; the copies below [s] have been
    walked. *)
Record copied (s : nat) (os : list loc) (m : Mem CopyingHeap) : Prop := mkCopied {
  copied_nodup : NoDup os;
  copied_live l : l ∈ os -> live l;
  copied_data : same_buffers d0 (heap_data m);
  copied_next : nextFreePosition (heap_data m) = B + space sz os;
  copied_scan : s <= B + space sz os;
  copied_old l o : h !! l = Some o -> objects m !! l = Some o;
  copied_fields l : gc_of m l = default 0 (forward sz B os !! l);
  copied_new (l : loc) (n : nat) o :
    forward sz B os !! l = Some n -> h !! l = Some o ->
    objects m !! n = Some (if decide (n < s) then map_object (fwd m) (clone_of o) else clone_of o)
    /\ (n < s -> Forall (valid (seen m)) (pointers (clone_of o)));
  copied_only (n : nat) :
    is_Some (objects m !! n) -> is_Some (h !! n) \/ exists l : loc, forward sz B os !! l = Some n }.

Definition copying (s : nat) (m : Mem CopyingHeap) : Prop := exists os, copied s os m.

Definition later (m m' : Mem CopyingHeap) : Prop :=
  same_buffers (heap_data m) (heap_data m') /\
  forall l, seen m l -> gc_of m' l = gc_of m l.

Lemma same_buffers_trans d1 d2 d3 : same_buffers d1 d2 -> same_buffers d2 d3 -> same_buffers d1 d3.
Proof. unfold same_buffers. intuition congruence. Qed.

Lemma later_refl m : later m m.
Proof. split; [unfold same_buffers|]; done. Qed.

Lemma later_trans m1 m2 m3 : later m1 m2 -> later m2 m3 -> later m1 m3.
Proof.
  intros [D1 G1] [D2 G2]. split; [by apply (same_buffers_trans _ (heap_data m2))|].
  intros l Hl. rewrite G2; [by apply G1|]. unfold seen. by rewrite G1.
Qed.

Lemma live_object l : live l -> exists o, h !! l = Some o /\ Forall (valid live) (pointers (clone_of o)).
Proof.
  intros Hl. destruct (proj2 HW l Hl) as (o' & E & _). pose proof E as E'.
  rewrite lookup_fmap in E. apply fmap_Some in E as (o & Ho & ->). exists o. split; [done|].
  by apply (valid_pointers _ _ l).
Qed.

Section State.

Context (s : nat) (os : list loc) (m : Mem CopyingHeap) (HC : copied s os m).

Lemma copied_objects l : l ∈ os -> is_Some (h !! l).
Proof.
  intros Hl. destruct (live_object l (copied_live _ _ _ HC l Hl)) as (o & Ho & _). by exists o.
Qed.

Lemma copied_pos l : l ∈ os -> 0 < sz l.
Proof. intros [o Ho]%copied_objects. by apply sz_pos with o. Qed.

Lemma forward_seen l n : forward sz B os !! l = Some n <-> seen m l /\ gc_of m l = n.
Proof.
  unfold seen. rewrite (copied_fields _ _ _ HC l).
  destruct (forward sz B os !! l) as [n'|] eqn:E; cbn; [|naive_solver].
  apply forward_lookup in E as (i & Ei & ->); [|apply (copied_nodup _ _ _ HC)].
  split; [intros [= <-]; split; [lia|done]|]. by intros [_ <-].
Qed.

(** Another object fits. *)
Lemma space_fits ls :
  NoDup ls -> (forall l, l ∈ ls -> is_Some (h !! l)) -> B + space sz ls <= BE \/ space sz ls = 0.
Proof.
  intros HN Hin. assert (ls ⊆+ (map_to_list h).*1) as Hsub.
  { apply NoDup_submseteq; [done|]. intros l Hl. destruct (Hin l Hl) as [o Ho].
    apply list_elem_of_fmap. exists (l, o). split; [done|]. by apply elem_of_map_to_list. }
  apply submseteq_Permutation in Hsub as [k Hk].
  assert (space sz (map_to_list h).*1 = space sz ls + space sz k) as E; [|lia].
  unfold space. by rewrite Hk, !sum_list_with_app.
Qed.

Lemma space_left l o : h !! l = Some o -> l ∉ os -> B + space sz os + sz l <= BE.
Proof.
  intros Ho Hl. pose proof (sz_pos l o Ho). destruct (space_fits (os ++ [l])) as [Hs|Hs].
  - apply NoDup_app. split; [apply (copied_nodup _ _ _ HC)|]. split; [set_solver|apply NoDup_singleton].
  - intros l' [Hl'|Hl']%elem_of_app; [by apply copied_objects|].
    apply list_elem_of_singleton in Hl' as ->. by exists o.
  - rewrite space_app in Hs. cbn in Hs. lia.
  - rewrite space_app in Hs. cbn in Hs. lia.
Qed.

Lemma forward_end l n : forward sz B os !! l = Some n -> B <= n /\ n + sz l <= B + space sz os /\ n < BE.
Proof.
  intros Hf. assert (l ∈ os) as Hin.
  { destruct (decide (l ∈ os)) as [|Hout]; [done|].
    by rewrite (proj2 (forward_None sz B os l) Hout) in Hf. }
  pose proof (copied_pos l Hin).
  apply forward_range in Hf as [H1 H2]; [|apply (copied_nodup _ _ _ HC)|apply copied_pos].
  destruct (space_fits os (copied_nodup _ _ _ HC) copied_objects); lia.
Qed.

(** A place in the new buffer has no object of the old one. *)
Lemma place_fresh n : B <= n < BE -> h !! n = None.
Proof. intros Hn. destruct (h !! n) eqn:E; [|done]. specialize (HA n ltac:(by eexists)). lia. Qed.

Lemma next_fresh : B + space sz os < BE -> objects m !! (B + space sz os) = None.
Proof.
  intros Hlt. destruct (objects m !! (B + space sz os)) as [o|] eqn:E; [|done].
  destruct (copied_only _ _ _ HC _ (ex_intro _ o E)) as [[o' Ho']|[l Hl]].
  - rewrite place_fresh in Ho'; [done|lia].
  - assert (l ∈ os) as Hin.
    { destruct (decide (l ∈ os)) as [|Hout]; [done|].
      rewrite (proj2 (forward_None sz B os l) Hout) in Hl. done. }
    apply forward_range in Hl as [_ Hl]; [|apply (copied_nodup _ _ _ HC)|apply copied_pos].
    pose proof (copied_pos l Hin). lia.
Qed.

(** A frame finds the number of arguments at its method, moved or not. *)
Lemma clone_contents_step o (d : CopyingHeap) :
  let m1 := mkMem (objects m) (gcfields m) d in
  frame_ok h o -> clone_contents o m1 = Ok (clone_of o, m1).
Proof.
  intros m1. destruct o as [| | | | | |f| | |]; try done. cbn [frame_ok clone_contents].
  intros (mt & Hm & El).
  assert (clone_frame f m1 = Ok (f, m1)) as E; [|by rewrite (bind_step _ _ _ _ _ E)].
  unfold clone_frame. pose proof (copied_old _ _ _ HC _ _ Hm) as Hm'.
  rewrite (bind_step _ _ _ _ _ (GetGCField_step (f_method f) (OMethod mt) m1 Hm')).
  change (gc_of m1) with (gc_of m). set (g := gc_of m (f_method f)).
  assert (exists mt', objects m !! (if negb (g =? 0) && negb (g =? MASK_OBJECT_IS_OLD)
                                    then g else f_method f) = Some (OMethod mt')
            /\ m_numberOfArguments mt' = m_numberOfArguments mt) as (mt' & Ho & En).
  { destruct (Nat.eqb_spec g 0) as [E0|E0]; cbn [negb andb]; [by exists mt|].
    destruct (g =? MASK_OBJECT_IS_OLD); cbn [negb]; [by exists mt|].
    destruct (copied_new _ _ _ HC (f_method f) g _
                (proj2 (forward_seen _ _) (conj E0 eq_refl)) Hm) as [EN _].
    case_decide; eexists; (split; [exact EN|done]). }
  rewrite (bind_step _ _ _ _ _ (load_object_step _ _ m1 Ho)). rewrite En, <- El. by destruct f.
Qed.

(** The memory after the copy of [l] was made. *)
Definition with_copy (l : loc) (o : obj) (m' : Mem CopyingHeap) : Prop :=
  let n := B + space sz os in
  objects m' = <[n := clone_of o]> (objects m) /\
  gcfields m' = <[l := n]> (<[n := 0]> (gcfields m)) /\
  same_buffers (heap_data m) (heap_data m') /\ nextFreePosition (heap_data m') = n + sz l.

Lemma copy_step l o :
  h !! l = Some o -> l ∉ os ->
  exists m', (newObj ← CloneForMovingGC sizeof AllocateObject l; SetGCField l newObj;;
              mret (Ref newObj)) m = Ok (Ref (B + space sz os), m') /\ with_copy l o m'.
Proof.
  intros Ho Hl. pose proof (space_left l o Ho Hl) as Hsp. pose proof (sz_pos l o Ho) as Hpos.
  assert (GetObjectSize sizeof o = sz l) as Esz by (unfold size_in; by rewrite Ho).
  pose proof (copied_data _ _ _ HC) as HD. destruct HD as (D1 & _ & D3 & _).
  eexists. split.
  - unfold CloneForMovingGC. rewrite bind_assoc.
    rewrite (bind_step _ _ _ _ _ (load_object_step _ _ _ (copied_old _ _ _ HC _ _ Ho))), Esz.
    rewrite bind_assoc. unfold AllocateObject at 1. rewrite bind_assoc.
    rewrite (bind_step _ _ _ _ _ (gets_step _ _)), (copied_next _ _ _ HC).
    rewrite D3, HE0. rewrite (proj2 (Nat.ltb_ge _ _)) by lia.
    rewrite bind_assoc, (bind_step _ _ _ _ _ (set_heap_data_step _ _)).
    rewrite (bind_step _ _ _ _ _ (ret_step _ _)), bind_assoc.
    rewrite (bind_step _ _ _ _ _ (clone_contents_step o _ (HF l o Ho))).
    rewrite bind_assoc, (bind_step _ _ _ _ _ (modify_step _ _)).
    rewrite (bind_step _ _ _ _ _ (ret_step _ _)).
    erewrite bind_step; [reflexivity|]. apply (SetGCField_step _ o). cbn [objects].
    rewrite lookup_insert_ne; [by apply (copied_old _ _ _ HC)|].
    specialize (HA l (ex_intro _ o Ho)). lia.
  - split; [done|]. split; [done|]. split; [|done].
    unfold same_buffers. cbn. rewrite D3, HE0. done.
Qed.

Section Copied.

Context (l : loc) (o : obj) (m' : Mem CopyingHeap) (HL : live l) (Ho : h !! l = Some o)
  (Hl : l ∉ os) (HM : with_copy l o m').

Lemma copy_apart : l <> B + space sz os.
Proof. pose proof (space_left l o Ho Hl). specialize (HA l (ex_intro _ o Ho)).
  pose proof (sz_pos l o Ho). lia. Qed.

Lemma copy_fields l' : gc_of m' l' = if decide (l' = l) then B + space sz os else gc_of m l'.
Proof.
  destruct HM as (_ & G & _). unfold gc_of at 1. rewrite G. case_decide as E.
  - subst l'. by rewrite lookup_insert_eq.
  - rewrite lookup_insert_ne by done. destruct (decide (l' = B + space sz os)) as [->|Hne].
    + rewrite lookup_insert_eq, (copied_fields _ _ _ HC).
      rewrite (proj2 (forward_None sz B os _)); [done|]. intros Hin.
      destruct (copied_objects _ Hin) as [o' Ho']. rewrite place_fresh in Ho'; [done|].
      pose proof (space_left l o Ho Hl). pose proof (sz_pos l o Ho). lia.
    + by rewrite lookup_insert_ne.
Qed.

Lemma copy_later : later m m'.
Proof.
  split; [by destruct HM as (_ & _ & D & _)|]. intros l' Hs. rewrite copy_fields, decide_False; [done|].
  intros ->. unfold seen in Hs. rewrite (copied_fields _ _ _ HC) in Hs.
  by rewrite (proj2 (forward_None sz B os l) Hl) in Hs.
Qed.

Lemma seen_later (m1 m2 : Mem CopyingHeap) ps :
  later m1 m2 -> Forall (valid (seen m1)) ps -> Forall (valid (seen m2)) ps.
Proof.
  intros [_ HG] H. apply (Forall_impl _ _ _ H). intros [| |l']; cbn; [done..|].
  unfold seen. intros Hs. by rewrite HG.
Qed.

Lemma map_object_later (m1 m2 : Mem CopyingHeap) o' :
  later m1 m2 -> Forall (valid (seen m1)) (pointers o') ->
  map_object (fwd m2) o' = map_object (fwd m1) o'.
Proof.
  intros [_ HG] H. apply map_object_ext. intros l' Hl'. rewrite Forall_forall in H.
  apply HG, (H _ Hl').
Qed.

Lemma copy_copied : copied s (os ++ [l]) m'.
Proof.
  pose proof copy_later as HLt. pose proof HM as (MO & MG & MD & MN). split.
  - apply NoDup_app. split; [apply (copied_nodup _ _ _ HC)|]. split; [set_solver|apply NoDup_singleton].
  - intros l' [Hin|Hin]%elem_of_app; [by apply (copied_live _ _ _ HC)|].
    by apply list_elem_of_singleton in Hin as ->.
  - by apply (same_buffers_trans _ (heap_data m)); [apply (copied_data _ _ _ HC)|].
  - rewrite MN, space_app. cbn. lia.
  - rewrite space_app. pose proof (copied_scan _ _ _ HC). lia.
  - intros l' o' Ho'. rewrite MO, lookup_insert_ne; [by apply (copied_old _ _ _ HC)|].
    intros <-. rewrite place_fresh in Ho'; [done|].
    pose proof (space_left l o Ho Hl). pose proof (sz_pos l o Ho). lia.
  - intros l'. rewrite copy_fields, forward_snoc by done. case_decide as E.
    + subst l'. by rewrite lookup_insert_eq.
    + rewrite lookup_insert_ne by done. apply (copied_fields _ _ _ HC).
  - intros l' n o' Hf Ho'. rewrite forward_snoc in Hf by done. rewrite MO.
    apply lookup_insert_Some in Hf as [[<- <-]|[Hne Hf]].
    + assert (o' = o) as -> by congruence. rewrite lookup_insert_eq.
      pose proof (copied_scan _ _ _ HC). rewrite decide_False by lia. split; [done|lia].
    + destruct (copied_new _ _ _ HC l' n o' Hf Ho') as [EN HV].
      assert (l' ∈ os) as Hin.
      { destruct (decide (l' ∈ os)) as [|Hout]; [done|].
        by rewrite (proj2 (forward_None sz B os l') Hout) in Hf. }
      pose proof (copied_pos l' Hin).
      apply forward_range in Hf as [_ Hr]; [|apply (copied_nodup _ _ _ HC)|apply copied_pos].
      rewrite lookup_insert_ne by lia. rewrite EN. split.
      * case_decide as Hlt; [|done]. by rewrite (map_object_later m m' _ HLt (HV Hlt)).
      * intros Hlt. by apply (seen_later m m'), HV.
  - intros n [o' Hn]. rewrite MO in Hn. apply lookup_insert_Some in Hn as [[<- _]|[Hne Hn]].
    + right. exists l. by rewrite forward_snoc, lookup_insert_eq.
    + destruct (copied_only _ _ _ HC n (ex_intro _ o' Hn)) as [|[l' Hl']]; [by left|right].
      exists l'. rewrite forward_snoc, lookup_insert_ne; [done| |done]. intros <-.
      by rewrite (proj2 (forward_None sz B os l) Hl) in Hl'.
Qed.

End Copied.

End State.

Lemma copy_walker s :
  Walker live (copying s) later fwd seen (copy_if_necessary sizeof).
Proof.
  split; [apply later_refl|apply later_trans| |by intros m m' l [_ HG]; apply HG|].
  { intros m m' l [_ HG] Hs. unfold seen in *. by rewrite HG. }
  intros m p [os HC] HV. destruct p as [|z|l]; [done| |].
  { exists m. split; [done|]. split; [by exists os|]. split; [apply later_refl|done]. }
  cbn in HV. destruct (live_object l HV) as (o & Ho & _). cbn [copy_if_necessary].
  rewrite (bind_step _ _ _ _ _ (GetGCField_step _ _ _ (copied_old _ _ _ HC _ _ Ho))).
  destruct (Nat.eqb_spec (gc_of m l) 0) as [E|E]; cbn [negb].
  2: { exists m. split; [done|]. split; [by exists os|]. split; [apply later_refl|done]. }
  assert (l ∉ os) as Hl.
  { apply (forward_None sz B). destruct (forward sz B os !! l) as [n|] eqn:Ef; [|done].
    by apply (forward_seen s os m HC) in Ef as [Hs _]. }
  destruct (copy_step s os m HC l o Ho Hl) as (m' & Em & HM). exists m'.
  pose proof (copy_fields s os m HC l o m' Ho Hl HM l) as Eg. rewrite decide_True in Eg by done.
  split; [|split; [|split]].
  - rewrite Em. cbn. unfold fwd. by rewrite Eg.
  - exists (os ++ [l]). by apply (copy_copied s os m HC l o).
  - by apply (copy_later s os m HC l o).
  - cbn. unfold seen. rewrite Eg. lia.
Qed.

(** ** The scan *)

(** What was not yet copied and walked. *)
Definition unscanned (s : nat) (m : Mem CopyingHeap) : gmap loc obj :=
  filter (fun kv => ~ (gc_of m kv.1 <> 0 /\ gc_of m kv.1 < s)) h.

Lemma scan_step s os m l :
  copied s os m -> gc_of m l = s -> s <> 0 ->
  exists m' os', WalkObjects (copy_if_necessary sizeof) s m = Ok (tt, m')
    /\ copied (s + sz l) os' m' /\ later m m'
    /\ (exists o, objects m' !! s = Some o /\ GetObjectSize sizeof o = sz l)
    /\ size (unscanned (s + sz l) m') < size (unscanned s m).
Proof.
  intros HC Hg H0.
  assert (forward sz B os !! l = Some s) as Hf
    by (apply (forward_seen s os m HC); unfold seen; rewrite Hg; done).
  assert (exists o, h !! l = Some o /\ Forall (valid live) (pointers (clone_of o))) as (o & Ho & HV).
  { apply live_object, (copied_live _ _ _ HC). destruct (decide (l ∈ os)) as [|Hout]; [done|].
    by rewrite (proj2 (forward_None sz B os l) Hout) in Hf. }
  destruct (copied_new _ _ _ HC l s o Hf Ho) as [EN _]. rewrite decide_False in EN by lia.
  destruct (visits_object (copy_walker s) (clone_of o)) as [_ HVis].
  destruct (HVis m (ex_intro _ os HC) HV) as (m1 & E1 & [os1 HC1] & L1 & S1).
  pose proof L1 as [LD LG]. assert (gc_of m1 l = s) as Hg1 by (rewrite LG; [done|]; unfold seen; by rewrite Hg).
  assert (forward sz B os1 !! l = Some s) as Hf1
    by (apply (forward_seen s os1 m1 HC1); unfold seen; rewrite Hg1; done).
  destruct (copied_new _ _ _ HC1 l s o Hf1 Ho) as [EN1 _]. rewrite decide_False in EN1 by lia.
  pose proof (forward_end s os1 m1 HC1 l s Hf1) as (R1 & R2 & R3). pose proof (sz_pos l o Ho) as Hpos.
  exists (mkMem (<[s := map_object (fwd m1) (clone_of o)]> (objects m1)) (gcfields m1) (heap_data m1)), os1.
  split.
  { unfold WalkObjects. rewrite (bind_step _ _ _ _ _ (load_object_step _ _ _ EN)).
    rewrite (bind_step _ _ _ _ _ E1). unfold store_object. by rewrite EN1. }
  split; [|split; [done|split]].
  - destruct HC1 as [HN HL HD HX HSc HO HG HNw HOn]. split; try done.
    + intros l' o' Ho'. cbn. rewrite lookup_insert_ne; [by apply HO|]. intros <-.
      by rewrite place_fresh in Ho'.
    + intros l' n o' Hf' Ho'. cbn [objects].
      destruct (HNw l' n o' Hf' Ho') as [EN' HV'].
      destruct (forward_disjoint sz B os1 l s l' n HN) as [[<- <-]|Hn]; [|done|done| |].
      { apply (copied_pos s os1 m1). by split. }
      * assert (o' = o) as -> by congruence. rewrite lookup_insert_eq, decide_True by lia. done.
      * assert (l' ∈ os1) as Hin.
        { destruct (decide (l' ∈ os1)) as [|Hout]; [done|].
          by rewrite (proj2 (forward_None sz B os1 l') Hout) in Hf'. }
        assert (0 < sz l') by (apply (copied_pos s os1 m1); [by split|done]).
        rewrite lookup_insert_ne by lia. rewrite EN'.
        split; [|intros; apply HV'; lia]. by repeat case_decide; try lia.
    + intros n Hn. apply HOn. cbn in Hn. destruct (decide (n = s)) as [->|Hne].
      * by rewrite EN1.
      * by rewrite lookup_insert_ne in Hn.
  - exists (map_object (fwd m1) (clone_of o)). cbn. rewrite lookup_insert_eq. split; [done|].
    rewrite map_object_size, clone_of_size. unfold size_in. by rewrite Ho.
  - apply map_subset_size, map_subset_alt. split.
    + apply map_filter_strong_subseteq_ext. intros l' o'. cbn. intros [Hn Ho']. split; [|done].
      intros [Hs Hlt]. apply Hn. change (gc_of _ l') with (gc_of m1 l'). rewrite LG by done. lia.
    + exists l. split.
      * apply map_lookup_filter_None. right. intros o' _ Hn. apply Hn. cbn.
        change (gc_of _ l) with (gc_of m1 l). lia.
      * exists o. apply map_lookup_filter_Some. split; [done|]. cbn. lia.
Qed.

(** The scan ends when it reaches the end of the copies: all of them have been
    walked. *)
Lemma scan_spec fuel s os m :
  copied s os m -> s <> 0 ->
  s = nextFreePosition (heap_data m) \/ (exists l, gc_of m l = s) ->
  size (unscanned s m) < fuel ->
  exists m' os', scan sizeof fuel s m = Ok (tt, m')
    /\ copied (nextFreePosition (heap_data m')) os' m' /\ later m m'.
Proof.
  revert s os m. induction fuel as [|fuel IH]; intros s os m HC H0 HS1 Hf; [lia|].
  cbn [scan]. rewrite (bind_step _ _ _ _ _ (gets_step _ _)).
  pose proof (copied_next _ _ _ HC) as HN. pose proof (copied_scan _ _ _ HC) as HSc.
  destruct (Nat.ltb_spec s (nextFreePosition (heap_data m))) as [Hlt|Hge].
  2: { exists m, os. split; [done|]. split; [|apply later_refl].
       assert (nextFreePosition (heap_data m) = s) as -> by lia. done. }
  destruct HS1 as [->|[l Hl]]; [lia|].
  destruct (scan_step s os m l HC Hl H0) as (m1 & os1 & E1 & HC1 & L1 & (o & Ho & Eo) & HU).
  rewrite (bind_step _ _ _ _ _ E1), (bind_step _ _ _ _ _ (load_object_step _ _ _ Ho)), Eo.
  destruct (IH (s + sz l) os1 m1 HC1) as (m2 & os2 & E2 & HC2 & L2); [lia| |lia|].
  - rewrite (copied_next _ _ _ HC1).
    assert (gc_of m1 l = s) as Hl1 by (rewrite (proj2 L1); [done|]; unfold seen; lia).
    destruct (forward_next sz B os1 l s (copied_nodup _ _ _ HC1)) as [->|[l' Hl']]; [|by left|right].
    + apply (forward_seen _ os1 m1 HC1). unfold seen. by rewrite Hl1.
    + exists l'. by apply (forward_seen _ os1 m1 HC1) in Hl' as [_ ->].
  - exists m2, os2. split; [done|]. split; [done|]. by apply (later_trans _ m1).
Qed.

(** From the roots to the end: what is live was copied, and its copy is complete. *)
Lemma collect_copies fuel w m :
  is_Some (frame w) -> rs = roots USE_TAGGING w -> copied B [] m -> size h < fuel ->
  exists m1 m' os,
    WalkGlobals USE_TAGGING (copy_if_necessary sizeof) w m = Ok (map_world USE_TAGGING (fwd m') w, m1)
    /\ currentBuffer (heap_data m1) = B
    /\ scan sizeof fuel B m1 = Ok (tt, m')
    /\ copied (nextFreePosition (heap_data m')) os m'
    /\ (forall l, l ∈ os <-> live l).
Proof.
  intros HFr Hrs HC Hf. destruct (visits_world (copy_walker B) USE_TAGGING w HFr) as [HP HV].
  destruct (HV m (ex_intro _ [] HC)) as (m1 & E1 & [os1 HC1] & L1 & S1).
  { rewrite <- Hrs. apply (valid_roots _ _ HW). }
  destruct (scan_spec fuel B os1 m1 HC1) as (m2 & os2 & E2 & HC2 & L2).
  - lia.
  - rewrite (copied_next _ _ _ HC1). destruct os1 as [|l r]; [left; cbn; lia|right]. exists l.
    apply (forward_seen _ _ m1 HC1). apply forward_lookup; [apply (copied_nodup _ _ _ HC1)|].
    exists 0. split; [done|]. cbn. lia.
  - pose proof (map_subseteq_size _ _ (map_filter_subseteq
      (fun kv => ~ (gc_of m1 kv.1 <> 0 /\ gc_of m1 kv.1 < B)) h)). unfold unscanned. lia.
  - exists m1, m2, os2. split; [|split; [|split; [done|split; [done|]]]].
    + rewrite E1. do 2 f_equal. apply HP. intros l Hl. rewrite Forall_forall in S1. symmetry.
      apply L2, (S1 _ Hl).
    + destruct (copied_data _ _ _ HC1) as [-> _]. done.
    + intros l. split; [apply (copied_live _ _ _ HC2)|].
      assert (forall l, live l -> seen m2 l) as HL.
      { clear l. intros l Hl. induction Hl as [l Hl|l o l' Hl IH Ho Hl'].
        - rewrite Forall_forall in S1. unfold seen. rewrite Hrs in Hl.
          rewrite (proj2 L2); apply (S1 _ Hl).
        - rewrite lookup_fmap in Ho. apply fmap_Some in Ho as (o0 & Ho & ->).
          assert (forward sz B os2 !! l = Some (gc_of m2 l)) as Hfw
            by (apply (forward_seen _ _ m2 HC2); done).
          destruct (copied_new _ _ _ HC2 _ _ _ Hfw Ho) as [_ HV2].
          rewrite (copied_next _ _ _ HC2) in HV2. rewrite Forall_forall in HV2.
          pose proof (forward_end _ _ m2 HC2 _ _ Hfw) as (_ & He & _).
          pose proof (sz_pos l o0 Ho). by apply (HV2 ltac:(lia) _ Hl'). }
      intros Hl. apply HL in Hl.
      destruct (decide (l ∈ os2)) as [|Hout]; [done|].
      unfold seen in Hl. rewrite (copied_fields _ _ _ HC2) in Hl.
      by rewrite (proj2 (forward_None sz B os2 l) Hout) in Hl.
Qed.

(** *** The new buffer *)

Section NewBuffer.

Context (w : World) (Hrs : rs = roots USE_TAGGING w) (HBE : B <= BE).
Context (os : list loc) (m : Mem CopyingHeap) (HFr : is_Some (frame w))
  (HC : copied (nextFreePosition (heap_data m)) os m)
  (HL : forall l, l ∈ os <-> live l).
Notation f := (fwd m).

(** The memory at the end: the new buffer as it was left by the scan, and no object
    outside of the buffers. *)
Context (m' : Mem CopyingHeap) (HD : buffers_ok (heap_data m'))
  (HD1 : currentBuffer (heap_data m') = B) (HD2 : currentBufferEnd (heap_data m') = BE)
  (HD3 : nextFreePosition (heap_data m') = nextFreePosition (heap_data m))
  (HO : forall n, B <= n < BE -> objects m' !! n = objects m !! n)
  (HO' : forall n, is_Some (objects m' !! n) -> is_Some (objects m !! n) /\
    (is_Some (h !! n) -> in_range (oldBuffer (heap_data m')) (oldBufferEnd (heap_data m')) n))
  (HG : forall l, gc_of m' l = 0 \/
    gc_of m' l = gc_of m l /\
    (is_Some (h !! l) -> in_range (oldBuffer (heap_data m')) (oldBufferEnd (heap_data m')) l)).

Lemma fwd_forward l : live l -> forward sz B os !! l = Some (f l).
Proof.
  intros Hl%HL. destruct (forward sz B os !! l) as [n|] eqn:E.
  - apply (forward_seen _ _ _ HC) in E as [_ <-]. done.
  - by apply forward_None in E.
Qed.

Lemma forward_live l n : forward sz B os !! l = Some n -> live l.
Proof.
  intros E. apply HL. destruct (decide (l ∈ os)) as [|Hout]; [done|].
  by rewrite (proj2 (forward_None sz B os l) Hout) in E.
Qed.

Lemma fwd_range l : live l -> B <= f l < BE /\ f l < nextFreePosition (heap_data m).
Proof.
  intros Hl. pose proof (fwd_forward l Hl) as Hf.
  destruct (live_object l Hl) as (o & Ho & _).
  pose proof (sz_pos l o Ho).
  pose proof (forward_end _ _ _ HC _ _ Hf) as (R1 & R2 & R3).
  rewrite (copied_next _ _ _ HC). lia.
Qed.

(** The copy of a live object is complete. *)
Lemma new_object l o :
  live l -> h !! l = Some o -> current m' !! f l = Some (map_object f (clone_of o)).
Proof.
  intros Hl Ho. pose proof (fwd_range l Hl) as [R1 R2].
  destruct (copied_new _ _ _ HC _ _ _ (fwd_forward l Hl) Ho) as [EN _].
  rewrite decide_True in EN by done. unfold current. apply map_lookup_filter_Some.
  rewrite HD1, HD2. split; [|done]. by rewrite HO.
Qed.

(** Nothing else is in the new buffer. *)
Lemma new_only n : is_Some (current m' !! n) -> exists l, live l /\ n = f l.
Proof.
  intros [o E]. unfold current in E. apply map_lookup_filter_Some in E as [E R].
  rewrite HD1, HD2 in R. cbn in R. unfold in_range in R. rewrite HO in E by done.
  destruct (copied_only _ _ _ HC n (ex_intro _ o E)) as [Hn|[l Hf]].
  - specialize (HA n Hn). lia.
  - exists l. pose proof (forward_live l n Hf) as Hl. split; [done|].
    rewrite (fwd_forward l Hl) in Hf. congruence.
Qed.

Lemma new_injective l l' : live l -> live l' -> f l = f l' -> l = l'.
Proof.
  intros Hl Hl' E. destruct (forward_disjoint sz B os l (f l) l' (f l')) as [[? _]|Hd]; try done.
  - apply (copied_nodup _ _ _ HC).
  - intros k Hk. by apply (copied_pos _ _ _ HC).
  - by apply fwd_forward.
  - by apply fwd_forward.
  - destruct (live_object l Hl) as (o & Ho & _).
    destruct (live_object l' Hl') as (o' & Ho' & _).
    pose proof (sz_pos l o Ho). pose proof (sz_pos l' o' Ho'). lia.
Qed.

(** Reachability is the image of reachability. *)
Lemma new_reachable n :
  reachable (clone_of <$> current m') (roots USE_TAGGING (map_world USE_TAGGING f w)) n ->
  exists l, live l /\ n = f l.
Proof.
  induction 1 as [n Hn|n o n' _ (l & Hl & ->) Ho Hn'].
  - apply roots_map in Hn as ([| |l] & Hl & [= ->]). exists l. split; [|done].
    apply reachable_root. by rewrite Hrs.
  - destruct (live_object l Hl) as (ol & Hol & _).
    rewrite lookup_fmap, (new_object l ol Hl Hol) in Ho. cbn in Ho. injection Ho as <-.
    rewrite clone_of_mapped, pointers_map in Hn'.
    apply list_elem_of_fmap in Hn' as ([| |l'] & [= ->] & Hl'). exists l'. split; [|done].
    apply (reachable_step _ _ l (clone_of ol)); [done| |done]. by rewrite lookup_fmap, Hol.
Qed.

Lemma new_address n : n ∈ place sz B os <-> exists l, live l /\ n = f l.
Proof.
  rewrite list_elem_of_lookup. split.
  - intros [i Ei]. assert (is_Some (os !! i)) as [l El].
    { apply lookup_lt_is_Some. apply lookup_lt_Some in Ei. by rewrite place_length in Ei. }
    exists l. assert (forward sz B os !! l = Some n) as Hf.
    { apply forward_lookup; [apply (copied_nodup _ _ _ HC)|]. exists i. split; [done|].
      rewrite (place_lookup _ _ _ _ _ El) in Ei. congruence. }
    pose proof (forward_live l n Hf) as Hl. split; [done|]. rewrite (fwd_forward l Hl) in Hf. congruence.
  - intros (l & Hl & ->). pose proof (fwd_forward l Hl) as Hf.
    apply forward_lookup in Hf as (i & Ei & ->); [|apply (copied_nodup _ _ _ HC)].
    exists i. by apply place_lookup with l.
Qed.

Lemma new_placed :
  NoDup (place sz B os) /\ (forall l, l ∈ place sz B os <-> is_Some (current m' !! l)) /\
  place sz B os = place (size_in sizeof (current m')) B (place sz B os) /\
  B + space sz os = B + space (size_in sizeof (current m')) (place sz B os).
Proof.
  split; [apply place_NoDup, (copied_pos _ _ _ HC)|]. split.
  { intros n. rewrite new_address. split; [|apply new_only]. intros (l & Hl & ->).
    destruct (live_object l Hl) as (o & Ho & _). rewrite (new_object l o Hl Ho). by eexists. }
  destruct (place_same sz (size_in sizeof (current m')) B os (place sz B os)) as [EP ES].
  - apply Forall2_same_length_lookup_2; [by rewrite place_length|]. intros i l n El En.
    assert (live l) as Hl by (apply HL, list_elem_of_lookup; by exists i).
    assert (n = f l) as ->.
    { pose proof (fwd_forward l Hl) as Hf. rewrite (place_lookup _ _ _ _ _ El) in En.
      assert (forward sz B os !! l = Some n) as Hf'; [|congruence].
      apply forward_lookup; [apply (copied_nodup _ _ _ HC)|]. exists i. split; [done|congruence]. }
    destruct (live_object l Hl) as (o & Ho & _). unfold size_in.
    rewrite (new_object l o Hl Ho), Ho. cbn. by rewrite map_object_size, clone_of_size.
  - by rewrite <- EP, <- ES.
Qed.

Lemma new_consistent : consistent sizeof USE_TAGGING (map_world USE_TAGGING f w) m'.
Proof.
  assert (forall l, l ∈ os -> is_Some (h !! l)) as Hos
    by apply (copied_objects _ _ _ HC).
  split.
  - cbn. by apply fmap_is_Some.
  - done.
  - rewrite HD3, HD2, (copied_next _ _ _ HC).
    destruct (space_fits os (copied_nodup _ _ _ HC) Hos); lia.
  - intros n Hn. apply HO' in Hn as [Hn Hr].
    destruct (copied_only _ _ _ HC n Hn) as [Hh|[l Hf]]; [right; by apply Hr|left].
    rewrite HD1, HD2. pose proof (forward_live l n Hf) as Hl. rewrite (fwd_forward l Hl) in Hf.
    injection Hf as <-. by apply fwd_range.
  - intros l. destruct (HG l) as [|[E Hr]]; [by right|]. rewrite E.
    destruct (decide (gc_of m l = 0)) as [|Hs]; [by right|left]. apply Hr, Hos.
    destruct (decide (l ∈ os)) as [|Hout]; [done|]. rewrite (copied_fields _ _ _ HC) in Hs.
    by rewrite (proj2 (forward_None sz B os l) Hout) in Hs.
  - exists (place sz B os). rewrite HD1, HD3, (copied_next _ _ _ HC). apply new_placed.
  - intros n o' Hn. destruct (new_only n (ex_intro _ o' Hn)) as (l & Hl & ->).
    destruct (live_object l Hl) as (o & Ho & HV).
    rewrite (new_object l o Hl Ho) in Hn. injection Hn as <-. specialize (HF l o Ho).
    destruct o as [| | | | | |fr| | |]; try done. cbn in *. destruct HF as (mt & Hm & El).
    eexists. split; [rewrite (new_object (f_method fr) (OMethod mt)); [done| |done]|exact El].
    apply (reachable_step _ _ l (OFrame fr)); [done|by rewrite lookup_fmap, Ho|]. cbn. set_solver.
  - split.
    + intros ([| |l] & Hq & Ep)%roots_map; try done. apply (proj1 HW). by rewrite Hrs.
    + intros n Hn. destruct (new_reachable n Hn) as (l & Hl & ->).
      destruct (live_object l Hl) as (o & Ho & HV).
      exists (map_object f (clone_of o)).
      rewrite lookup_fmap, (new_object l o Hl Ho). cbn. rewrite clone_of_mapped. split; [done|].
      rewrite pointers_map. intros ([| |l'] & Ep & Hq)%list_elem_of_fmap; try done.
      rewrite Forall_forall in HV. by apply (HV _ Hq).
Qed.

Lemma new_buffer :
  (forall l l', live l -> live l' -> f l = f l' -> l = l')
  /\ (forall l o, live l -> h !! l = Some o -> current m' !! f l = Some (map_object f (clone_of o)))
  /\ (forall n, is_Some (current m' !! n) -> exists l, live l /\ n = f l)
  /\ consistent sizeof USE_TAGGING (map_world USE_TAGGING f w) m'.
Proof.
  split; [apply new_injective|]. split; [apply new_object|].
  split; [apply new_only|apply new_consistent].
Qed.

End NewBuffer.

End Collecting.

(** ** Collection *)

(** [malloc] gives memory that overlaps no block in use. *)
Definition malloc_ok (malloc : list (nat * nat) -> nat -> option nat) : Prop :=
  forall blocks n a, malloc blocks n = Some a ->
    0 < a /\ forall b e, (b, e) ∈ blocks -> a + n <= b \/ e <= a.

Lemma wipe_step a b (m : Mem CopyingHeap) :
  wipe a b m = Ok (tt, mkMem (filter (fun kv => ~ in_range a b kv.1) (objects m))
                             (filter (fun kv => ~ in_range a b kv.1) (gcfields m)) (heap_data m)).
Proof. done. Qed.

Lemma lookup_filter_range {A} (P : loc -> Prop) `{!forall kv : loc * A, Decision (P kv.1)}
    (g : gmap loc A) l `{!Decision (P l)} :
  filter (fun kv => P kv.1) g !! l = if decide (P l) then g !! l else None.
Proof.
  destruct (filter _ g !! l) as [x|] eqn:E.
  - apply map_lookup_filter_Some in E as [-> HP]. by rewrite decide_True.
  - apply map_lookup_filter_None in E as [->|HP]; [by case_decide|].
    case_decide as HD; [|done]. destruct (g !! l) eqn:Eg; [|done]. by destruct (HP _ eq_refl).
Qed.

(** After the switch only the objects that were in use are left, in what is now the
    old buffer; the other buffer is at least as big. *)
Lemma switch_spec malloc increase (m : Mem CopyingHeap) :
  malloc_ok malloc -> buffers_ok (heap_data m) ->
  (forall l, is_Some (objects m !! l) ->
    in_range (currentBuffer (heap_data m)) (currentBufferEnd (heap_data m)) l \/
    in_range (oldBuffer (heap_data m)) (oldBufferEnd (heap_data m)) l) ->
  (forall l, in_range (oldBuffer (heap_data m)) (oldBufferEnd (heap_data m)) l \/ gc_of m l = 0) ->
  (switchBuffers malloc increase m = Err no_memory /\ exists bs n, malloc bs n = None) \/
  exists m', switchBuffers malloc increase m = Ok (tt, m')
    /\ objects m' = current m /\ (forall l, gc_of m' l = 0)
    /\ nextFreePosition (heap_data m') = currentBuffer (heap_data m')
    /\ 0 < currentBuffer (heap_data m') /\ currentBuffer (heap_data m') <= currentBufferEnd (heap_data m')
    /\ oldBuffer (heap_data m') = currentBuffer (heap_data m)
    /\ oldBufferEnd (heap_data m') = currentBufferEnd (heap_data m)
    /\ (currentBufferEnd (heap_data m') <= currentBuffer (heap_data m)
        \/ currentBufferEnd (heap_data m) <= currentBuffer (heap_data m'))
    /\ currentBufferEnd (heap_data m) - currentBuffer (heap_data m)
       <= currentBufferEnd (heap_data m') - currentBuffer (heap_data m').
Proof.
  intros HM [HB0 HBo HBd HBs] HO HG. unfold switchBuffers.
  rewrite (bind_step _ _ _ _ _ (gets_step _ _)).
  set (d := heap_data m) in *.
  assert (forall b e, (oldBufferEnd d <= e /\ b <= oldBuffer d) ->
    (e <= currentBuffer d \/ currentBufferEnd d <= b) ->
    filter (fun kv => ~ in_range b e kv.1) (objects m) = current m) as HF.
  { intros b e Hbe Hd. apply map_eq. intros l. unfold current. fold d.
    rewrite (lookup_filter_range (fun l => ~ in_range b e l) (objects m) l),
      (lookup_filter_range (in_range (currentBuffer d) (currentBufferEnd d)) (objects m) l). specialize (HO l). unfold in_range in *.
    destruct (objects m !! l) as [o|] eqn:E; [|by repeat case_decide].
    specialize (HO ltac:(by eexists)). repeat case_decide; try done; lia. }
  assert (forall b e (d' : CopyingHeap), (oldBufferEnd d <= e /\ b <= oldBuffer d) -> forall l,
    gc_of (mkMem (current m) (filter (fun kv => ~ in_range b e kv.1) (gcfields m)) d') l = 0) as HGF.
  { intros b e d' Hbe l. unfold gc_of. cbn.
    rewrite (lookup_filter_range (fun l => ~ in_range b e l) (gcfields m) l).
    specialize (HG l). unfold in_range in *. case_decide; [|done]. destruct HG as [?|HG]; [lia|].
    exact HG. }
  destruct increase.
  - rewrite (bind_step _ _ _ _ _ (wipe_step _ _ _)).
    destruct (malloc _ _) as [b|] eqn:EM.
    2: { left. split; [done|]. by eexists _, _. }
    right. destruct (HM _ _ _ EM) as [Hb Hblk]. specialize (Hblk _ _ (list_elem_of_here _ _)).
    rewrite (bind_step _ _ _ _ _ (set_heap_data_step _ _)). rewrite wipe_step.
    eexists. split; [done|]. cbn [objects gcfields heap_data currentBuffer currentBufferEnd
      oldBuffer oldBufferEnd nextFreePosition].
    rewrite (HF (oldBuffer d) (oldBufferEnd d)) by lia.
    split; [|split; [|repeat split; try lia]].
    + apply map_filter_id. intros l o Hl. cbn. unfold current in Hl. fold d in Hl.
      apply map_lookup_filter_Some in Hl as [_ Hl]. unfold in_range in *. cbn in Hl. lia.
    + intros l. unfold gc_of. cbn.
      rewrite (lookup_filter_range (fun l => ~ in_range _ _ l) (filter _ (gcfields m)) l).
      case_decide; [|done]. apply (HGF (oldBuffer d) (oldBufferEnd d) d). lia.
  - right. rewrite (bind_step _ _ _ _ _ (set_heap_data_step _ _)). rewrite wipe_step.
    eexists. split; [done|]. cbn [objects gcfields heap_data currentBuffer currentBufferEnd
      oldBuffer oldBufferEnd nextFreePosition].
    rewrite HF by lia. split; [done|]. split; [|repeat split; try lia].
    intros l. by apply HGF; lia.
Qed.


(** The end of a collection: the old buffer gets the size of the new one, the new one
    stays as it is. *)
Lemma invalidate_spec malloc (m : Mem CopyingHeap) :
  malloc_ok malloc ->
  let d := heap_data m in
  0 < currentBuffer d -> 0 < oldBuffer d -> currentBuffer d <= currentBufferEnd d ->
  oldBuffer d <= oldBufferEnd d ->
  currentBufferEnd d <= oldBuffer d \/ oldBufferEnd d <= currentBuffer d ->
  oldBufferEnd d - oldBuffer d <= currentBufferEnd d - currentBuffer d ->
  (invalidateOldBuffer malloc m = Err no_memory /\ exists bs n, malloc bs n = None) \/
  exists m', invalidateOldBuffer malloc m = Ok (tt, m')
    /\ buffers_ok (heap_data m') /\ currentBuffer (heap_data m') = currentBuffer d
    /\ currentBufferEnd (heap_data m') = currentBufferEnd d
    /\ nextFreePosition (heap_data m') = nextFreePosition d
    /\ (forall n, ~ in_range (oldBuffer d) (oldBufferEnd d) n -> objects m' !! n = objects m !! n)
    /\ (forall n, is_Some (objects m' !! n) -> is_Some (objects m !! n) /\
          (in_range (oldBuffer d) (oldBufferEnd d) n ->
           in_range (oldBuffer (heap_data m')) (oldBufferEnd (heap_data m')) n))
    /\ (forall l, gc_of m' l = 0 \/ gc_of m' l = gc_of m l /\
          (in_range (oldBuffer d) (oldBufferEnd d) l ->
           in_range (oldBuffer (heap_data m')) (oldBufferEnd (heap_data m')) l)).
Proof.
  intros HM d Hc Ho Hce Hoe Hd Hs. unfold invalidateOldBuffer.
  rewrite (bind_step _ _ _ _ _ (gets_step _ _)). fold d.
  destruct (Nat.ltb_spec (oldBufferEnd d - oldBuffer d) (currentBufferEnd d - currentBuffer d)).
  - rewrite (bind_step _ _ _ _ _ (wipe_step _ _ _)).
    destruct (malloc _ _) as [b|] eqn:EM; [right|left; split; [done|by eexists _, _]].
    destruct (HM _ _ _ EM) as [Hb Hblk]. specialize (Hblk _ _ (list_elem_of_here _ _)).
    eexists. split; [apply set_heap_data_step|]. cbn [heap_data objects gcfields].
    unfold with_old. cbn. split; [split; cbn; lia|]. split; [done|]. split; [done|]. split; [done|].
    assert (forall n, ~ in_range (oldBuffer d) (oldBufferEnd d) n ->
      filter (fun kv : loc * obj => ~ in_range (oldBuffer d) (oldBufferEnd d) kv.1) (objects m) !! n
      = objects m !! n) as HO.
    { intros n Hn. rewrite (lookup_filter_range (fun l => ~ in_range _ _ l) (objects m) n).
      by rewrite decide_True. }
    split; [done|]. split.
    + intros n [o Hn]. rewrite (lookup_filter_range (fun l => ~ in_range _ _ l) (objects m) n) in Hn.
      case_decide; [|done]. split; [by eexists|]. done.
    + intros l. unfold gc_of at 1 2. cbn.
      rewrite (lookup_filter_range (fun l => ~ in_range _ _ l) (gcfields m) l).
      case_decide; [|by left]. right. by split.
  - right. eexists. split; [apply set_heap_data_step|]. cbn [heap_data objects gcfields].
    unfold with_old. cbn. split; [split; cbn; lia|]. split; [done|]. split; [done|]. split; [done|].
    split; [done|]. split; [done|]. intros l. by right.
Qed.

Lemma update_data_step f (m : Mem CopyingHeap) :
  update_data f m = Ok (tt, mkMem (objects m) (gcfields m) (f (heap_data m))).
Proof. done. Qed.

(** The space that the objects in use need is what is used of the buffer. *)
Lemma placed_space sizeof (h : gmap loc obj) ls :
  NoDup ls -> (forall l, l ∈ ls <-> is_Some (h !! l)) ->
  space (size_in sizeof h) (map_to_list h).*1 = space (size_in sizeof h) ls.
Proof.
  intros HN HL. assert ((map_to_list h).*1 ≡ₚ ls) as E; [|unfold space; by rewrite E].
  apply NoDup_Permutation; [apply NoDup_fst_map_to_list|done|]. intros l. rewrite HL.
  rewrite list_elem_of_fmap. split.
  - intros ([l' o] & -> & Ho%elem_of_map_to_list). by exists o.
  - intros [o Ho]. exists (l, o). split; [done|]. by apply elem_of_map_to_list.
Qed.

(** At the beginning nothing is copied. *)
Lemma copied_nothing sizeof h rs (m : Mem CopyingHeap) :
  objects m = h -> (forall l, gc_of m l = 0) ->
  nextFreePosition (heap_data m) = currentBuffer (heap_data m) ->
  copied sizeof h rs (currentBuffer (heap_data m)) (heap_data m) (currentBuffer (heap_data m)) [] m.
Proof.
  intros HO HG HN. split; [constructor|by intros l ?%elem_of_nil|done| |cbn; lia| | | |].
  - rewrite HN. cbn. lia.
  - intros l o. by rewrite HO.
  - done.
  - done.
  - intros n. rewrite HO. by left.
Qed.

(** C7: a collection ends, and unless [malloc] fails the new buffer has exactly one copy
    of each object that is reachable (not counting the caches of symbols, which the
    copies do not have), in which every pointer leads to the copy of the object it
    led to; the globals are changed in the same way. The copies fit the new buffer,
    stand one behind the other, and are ready for the next collection. *)
Theorem copying_collects sizeof USE_TAGGING malloc w (m : Mem CopyingHeap) :
  (forall c, 0 < sizeof c) -> malloc_ok malloc -> consistent sizeof USE_TAGGING w m ->
  let h := current m in
  let live := reachable (clone_of <$> h) (roots USE_TAGGING w) in
  (Collect sizeof USE_TAGGING malloc w m = Err no_memory /\ exists blocks n, malloc blocks n = None)
  \/ exists f m',
    Collect sizeof USE_TAGGING malloc w m = Ok (map_world USE_TAGGING f w, m')
    /\ (forall l l', live l -> live l' -> f l = f l' -> l = l')
    /\ (forall l o, live l -> h !! l = Some o ->
          current m' !! f l = Some (map_object f (clone_of o)))
    /\ (forall n, is_Some (current m' !! n) -> exists l, live l /\ n = f l)
    /\ consistent sizeof USE_TAGGING (map_world USE_TAGGING f w) m'.
Proof.
  intros Hpos HM [HFr HBf HNx HWh HGf (ls & HND & HLs & HPl & HNp) HFrm HWf] h live.
  unfold Collect. rewrite (bind_step _ _ _ _ _ (gets_step _ _)).
  rewrite (bind_step _ _ _ _ _ (update_data_step _ _)). set (m1 := mkMem _ _ _).
  destruct (switch_spec malloc (increaseMemory (heap_data m)) m1 HM) as
    [[E1 HMn]|(m2 & E1 & O2 & G2 & N2 & P2 & R2 & OB2 & OE2 & D2 & S2)]; [by destruct HBf|done|done| |].
  { left. unfold mbind, stateful_bind. by rewrite E1. }
  rewrite (bind_step _ _ _ _ _ E1), (bind_step _ _ _ _ _ (update_data_step _ _)).
  set (m3 := mkMem _ _ _). rewrite (bind_step _ _ _ _ _ (gets_step _ _)).
  change (objects m2 = h) in O2. set (B := currentBuffer (heap_data m2)).
  set (BE := currentBufferEnd (heap_data m2)). set (A := currentBuffer (heap_data m)).
  set (AE := currentBufferEnd (heap_data m)).
  assert (HA : forall l, is_Some (h !! l) -> A <= l < AE).
  { intros l [o Ho]. by apply map_lookup_filter_Some in Ho as [_ Ho]. }
  assert (HS : space (size_in sizeof h) (map_to_list h).*1 <= BE - B).
  { rewrite (placed_space sizeof h ls HND HLs). cbn in S2. fold A AE h in S2, HNp, HNx. fold B BE in S2. lia. }
  destruct (collect_copies sizeof Hpos USE_TAGGING h (roots USE_TAGGING w) A AE B BE HWf HFrm HA D2 P2 HS
              (heap_data m3) eq_refl eq_refl (S (size (objects m3))) w m3 HFr eq_refl)
    as (m4 & m5 & os & E4 & B4 & E5 & HC & HL).
  { by apply (copied_nothing sizeof h (roots USE_TAGGING w) m3). }
  { change (objects m3) with (objects m2). rewrite O2. lia. }
  rewrite (bind_step _ _ _ _ _ E4), (bind_step _ _ _ _ _ (gets_step _ _)), B4.
  rewrite (bind_step _ _ _ _ _ E5).
  destruct (copied_data _ _ _ _ _ _ _ _ HC) as (D51 & _ & D53 & D54 & D55 & _).
  change (currentBuffer (heap_data m5) = B) in D51. change (currentBufferEnd (heap_data m5) = BE) in D53.
  change (oldBuffer (heap_data m5) = oldBuffer (heap_data m2)) in D54. rewrite OB2 in D54.
  change (oldBufferEnd (heap_data m5) = oldBufferEnd (heap_data m2)) in D55. rewrite OE2 in D55.
  destruct HBf as [[Hb1 _] [Hb2 _] _ _]. fold A AE in Hb1, Hb2, D54, D55, S2, D2.
  destruct (invalidate_spec malloc m5 HM) as
    [[E6 HMn]|(m6 & E6 & HB6 & C6 & CE6 & N6 & O6 & O6' & G6)];
    rewrite ?D51, ?D53, ?D54, ?D55 in *; [done|done|done|done|done|done| |].
  { left. unfold mbind, stateful_bind. by rewrite E6. }
  rewrite (bind_step _ _ _ _ _ E6), (bind_step _ _ _ _ _ (update_data_step _ _)).
  set (d7 := if _ <=? _ then _ else _).
  assert (buffers_ok d7 /\ currentBuffer d7 = B /\ currentBufferEnd d7 = BE
    /\ nextFreePosition d7 = nextFreePosition (heap_data m5)
    /\ oldBuffer d7 = oldBuffer (heap_data m6) /\ oldBufferEnd d7 = oldBufferEnd (heap_data m6))
    as (HB7 & C7 & CE7 & N7 & OB7 & OE7).
  { subst d7. destruct HB6. case_match; unfold with_flags; cbn; [|done]. split; [by split|done]. }
  right. exists (fwd m5), (mkMem (objects m6) (gcfields m6) d7). split; [reflexivity|].
  apply (new_buffer sizeof Hpos USE_TAGGING h (roots USE_TAGGING w) A AE B BE HWf HFrm HA D2 P2 HS
           (heap_data m3) eq_refl eq_refl w eq_refl R2 os m5 HFr HC HL); try done.
  - intros n Hn. apply O6. unfold in_range. lia.
  - intros n Hn. cbn [heap_data]. rewrite OB7, OE7. destruct (O6' n Hn) as [Hn' Hr].
    split; [done|]. intros Hh. by apply Hr, HA.
  - intros l. cbn [heap_data]. rewrite OB7, OE7. destruct (G6 l) as [|[Hg Hr]]; [by left|right].
    split; [done|]. intros Hh. by apply Hr, HA.
Qed.

(** ** Example *)

Definition tiny_memory : Mem CopyingHeap :=
  mkMem (tiny_objects 8 32 64 80 112) ∅ (mkCopyingHeap 8 120 136 136 264 128 false true false).

(** Memory behind everything that is in use. *)
Definition tiny_malloc (blocks : list (nat * nat)) (n : nat) : option nat :=
  Some (S (max_list (snd <$> blocks))).

Lemma tiny_malloc_ok : malloc_ok tiny_malloc.
Proof.
  intros blocks n a [= <-]. split; [lia|]. intros b e Hin. right.
  pose proof (max_list_elem_of_le e (snd <$> blocks)) as H. unfold compose in H.
  assert (e ∈ snd <$> blocks) as He by (apply list_elem_of_fmap; by exists (b, e)).
  specialize (H He). lia.
Qed.

Definition buffer_of (r : result (World * Mem CopyingHeap)) : option (nat * nat) :=
  match r with
  | Ok (_, m) => Some (currentBuffer (heap_data m), nextFreePosition (heap_data m))
  | Err _ => None
  end.

Lemma tiny_result :
  buffer_of (Collect (fun _ => 8) true tiny_malloc (tiny_world 8 32 64 80) tiny_memory)
  = Some (136, 240).
Proof. by vm_compute. Qed.

Lemma copying_collects_witness :
  exists f m', Collect (fun _ => 8) true tiny_malloc (tiny_world 8 32 64 80) tiny_memory
      = Ok (map_world true f (tiny_world 8 32 64 80), m')
    /\ currentBuffer (heap_data m') = 136 /\ nextFreePosition (heap_data m') = 240.
Proof.
  destruct (copying_collects (fun _ => 8) true tiny_malloc (tiny_world 8 32 64 80) tiny_memory)
    as [[E _]|(f & m' & E & _)].
  - lia.
  - apply tiny_malloc_ok.
  - split.
    + by exists 80.
    + split; cbn; lia.
    + cbn. lia.
    + intros l [o Ho%elem_of_list_to_map_2]. left. unfold in_range. cbn.
      repeat (apply elem_of_cons in Ho as [[= -> _]|Ho]; [lia|]). by apply elem_of_nil in Ho.
    + by right.
    + exists [8; 32; 64; 80; 112]. split; [by apply (bool_decide_unpack _)|]. split; [|done].
      assert (current tiny_memory = tiny_objects 8 32 64 80 112) as -> by (by vm_compute).
      intros l. split.
      * intros Hl. repeat (apply elem_of_cons in Hl as [->|Hl]; [by eexists|]). by apply elem_of_nil in Hl.
      * intros [o Ho%elem_of_list_to_map_2].
        repeat (apply elem_of_cons in Ho as [[= -> _]|Ho]; [set_solver|]). by apply elem_of_nil in Ho.
    + assert (current tiny_memory = tiny_objects 8 32 64 80 112) as -> by (by vm_compute).
      intros l o Ho%elem_of_list_to_map_2.
      repeat (apply elem_of_cons in Ho as [[= -> ->]|Ho]; [try done|]).
      * by eexists.
      * by apply elem_of_nil in Ho.
    + apply well_formed_closed; [by apply (bool_decide_unpack _)|by vm_compute].
  - by vm_compute in E.
  - exists f, m'. split; [done|].
    pose proof tiny_result as H. rewrite E in H. cbn [buffer_of] in H. clear E.
    by injection H as -> ->.
Defined.

End Copying.
