(* ===== verification/Generational.v ===== *)
(** * The generational collector

    [src/src/memory/GenerationalHeap.cpp], [GenerationalHeap.h] and
    [GenerationalCollector.cpp]: objects are allocated in a nursery; a minor collection
    copies those that can be reached into memory from [malloc], where they are old, and
    starts the nursery anew; a major collection marks and sweeps the old objects.  A
    write barrier keeps a list of the old objects that may refer to young ones, which
    the minor collection takes as further roots.

    The theorem: a collection ends, unless [malloc] returns null; it leaves an isomorphic
    copy of what was reachable and no pointer into the nursery, it promotes exactly what
    the variables or the objects on the list lead to, and, when it is a major one, it
    leaves no old object that cannot be reached. *)
From Stdlib Require Import Ascii String.
From S2P Require Import Prelude Objects Universe HeapWalk Marking.
Local Open Scope nat_scope.

Module Generational.

Record GenerationalHeap : Type := mkGenerationalHeap {
  nursery : nat;
  nursery_end : nat;
  nurserySize : nat;
  maxNurseryObjSize : nat;
  matureObjectsSize : nat;
  nextFreePosition : nat;
  collectionLimit : nat;
  oldObjsWithRefToYoungObjs : list loc;
  allocatedObjects : list loc;
  gcWasRequested : bool;
  majorCollectionThreshold : nat }.

Notation GM := (stateful (Mem GenerationalHeap)).

Definition new_GenerationalHeap (nursery objectSpaceSize : nat) : GenerationalHeap :=
  mkGenerationalHeap nursery (nursery + objectSpaceSize) objectSpaceSize (objectSpaceSize / 2) 0
    nursery (nursery + ninety_percent objectSpaceSize) [] [] false (5 * 1024 * 1024).

(** The fields that change. *)
Definition with_nursery (next : nat) (requested : bool) (d : GenerationalHeap) : GenerationalHeap :=
  mkGenerationalHeap (nursery d) (nursery_end d) (nurserySize d) (maxNurseryObjSize d)
    (matureObjectsSize d) next (collectionLimit d) (oldObjsWithRefToYoungObjs d)
    (allocatedObjects d) requested (majorCollectionThreshold d).

Definition with_mature (size : nat) (objs : list loc) (d : GenerationalHeap) : GenerationalHeap :=
  mkGenerationalHeap (nursery d) (nursery_end d) (nurserySize d) (maxNurseryObjSize d)
    size (nextFreePosition d) (collectionLimit d) (oldObjsWithRefToYoungObjs d)
    objs (gcWasRequested d) (majorCollectionThreshold d).

Definition with_remembered (ls : list loc) (d : GenerationalHeap) : GenerationalHeap :=
  mkGenerationalHeap (nursery d) (nursery_end d) (nurserySize d) (maxNurseryObjSize d)
    (matureObjectsSize d) (nextFreePosition d) (collectionLimit d) ls
    (allocatedObjects d) (gcWasRequested d) (majorCollectionThreshold d).

Definition with_threshold (n : nat) (d : GenerationalHeap) : GenerationalHeap :=
  mkGenerationalHeap (nursery d) (nursery_end d) (nurserySize d) (maxNurseryObjSize d)
    (matureObjectsSize d) (nextFreePosition d) (collectionLimit d) (oldObjsWithRefToYoungObjs d)
    (allocatedObjects d) (gcWasRequested d) n.

Definition update_data (f : GenerationalHeap -> GenerationalHeap) : GM () :=
  modify (fun m => mkMem (objects m) (gcfields m) (f (heap_data m))).

Definition place_object (l : loc) (o : obj) : GM () :=
  modify (fun m => mkMem (<[l := o]> (objects m)) (<[l := 0]> (gcfields m)) (heap_data m)).

(** ** The write barrier *)

(** A tagged integer is compared as the number that the machine word is. *)
Definition address (p : oop) : Z :=
  match p with
  | Null => 0
  | Tagged z => (2 * z + 1) mod 2 ^ 64
  | Ref l => Z.of_nat l
  end.

Definition isObjectInNursery (d : GenerationalHeap) (p : oop) : bool :=
  (Z.of_nat (nursery d) <=? address p)%Z && (address p <? Z.of_nat (nursery_end d))%Z.

Definition writeBarrier_OldHolder (holder : loc) (referencedObject : oop) : GM () :=
  d ← gets heap_data;
  if isObjectInNursery d referencedObject then
    update_data (with_remembered (oldObjsWithRefToYoungObjs d ++ [holder]));;
    g ← GetGCField holder;
    SetGCField holder (Nat.lor g MASK_SEEN_BY_WRITE_BARRIER)
  else mret tt.

Definition writeBarrier (holder : loc) (referencedObject : oop) : GM () :=
  g ← GetGCField holder;
  if Nat.land g 6 =? 2 then writeBarrier_OldHolder holder referencedObject else mret tt.

(** [VMObject::SetField], where [store_ptr] is the store and the barrier. *)
Definition SetField (self : loc) (index : nat) (value : oop) : GM () :=
  o ← load_object self;
  match o with
  | OObject k c fields =>
      if index <? length fields then
        store_object self (OObject k c (<[index := value]> fields));;
        writeBarrier self value
      else fail Undef
  | _ => fail Undef
  end.

(** [VMObject::SetClass] *)
Definition SetClass (self : loc) (cl : oop) : GM () :=
  o ← load_object self;
  match o with
  | OObject k _ fields => store_object self (OObject k cl fields);; writeBarrier self cl
  | _ => fail Undef
  end.

Section Generational.

Context (sizeof : cxx_class -> nat) (USE_TAGGING : bool).

(** [malloc], given what is in use; it may return null. *)
Context (malloc : GenerationalHeap -> nat -> option loc).

(** ** Allocation *)

Definition AllocateNurseryObject (size : nat) : GM loc :=
  d ← gets heap_data;
  let next := nextFreePosition d + size in
  if nursery_end d <? next then fail (ErrorExit "Failed to allocate Bytes in nursery.")
  else
    update_data (with_nursery next (gcWasRequested d || (collectionLimit d <? next)));;
    mret (nextFreePosition d).

Definition no_memory : error := ErrorExit "Failed to allocate Bytes.".

Definition AllocateMatureObject (size : nat) : GM loc :=
  d ← gets heap_data;
  match malloc d size with
  | None => fail no_memory
  | Some newObject =>
      update_data (with_mature (matureObjectsSize d + size) (allocatedObjects d ++ [newObject]));;
      mret newObject
  end.

(** [operator new] with the flag [outsideNursery]. *)
Definition operator_new (size : nat) (outsideNursery : bool) : GM loc :=
  if outsideNursery then AllocateMatureObject size else AllocateNurseryObject size.

(** An object of a fixed size, such as those of [Universe::NewInstance]. *)
Definition new_object (o : obj) : GM loc :=
  l ← operator_new (GetObjectSize sizeof o) false; place_object l o;; mret l.

(** [Universe::NewArray]; the class is stored after the construction. *)
Definition NewArray (nilObject arrayClass : oop) (size : nat) : GM loc :=
  d ← gets heap_data;
  let additionalBytes := 8 * size in
  let outsideNursery := maxNurseryObjSize d <? additionalBytes + sizeof VMArray_c in
  result ← operator_new (sizeof VMArray_c + additionalBytes) outsideNursery;
  place_object result (OObject KArray Null (replicate size nilObject));;
  (if outsideNursery then SetGCField result MASK_OBJECT_IS_OLD else mret tt);;
  SetClass result arrayClass;;
  mret result.

(** [VMArray::Copy]: the elements are copied as bytes. *)
Definition Copy (nilObject arrayClass : oop) (self : loc) : GM loc :=
  o ← load_object self;
  match o with
  | OObject KArray _ fields =>
      copy ← NewArray nilObject arrayClass (length fields);
      o' ← load_object copy;
      match o' with
      | OObject k c _ => store_object copy (OObject k c fields);; mret copy
      | _ => fail Undef
      end
  | _ => fail Undef
  end.

(** ** The minor collection *)

Definition CloneForMovingGC : loc -> GM loc :=
  HeapWalk.CloneForMovingGC sizeof (fun size => operator_new size true).

Fixpoint copy_if_necessary (fuel : nat) (p : oop) : GM oop :=
  match fuel with
  | O => fail OutOfFuel
  | S fuel =>
      match p with
      | Tagged _ => mret p
      | Null => fail Undef
      | Ref l =>
          gcField ← GetGCField l;
          if negb (Nat.land gcField MASK_OBJECT_IS_OLD =? 0) then mret p
          else if negb (gcField =? 0) then mret (Ref gcField)
          else
            newObj ← CloneForMovingGC l;
            SetGCField l newObj;;
            SetGCField newObj MASK_OBJECT_IS_OLD;;
            WalkObjects (copy_if_necessary fuel) newObj;;
            mret (Ref newObj)
      end
  end.

(** The loop over the objects detected by the write barrier. *)
Fixpoint walk_remembered (fuel : nat) (objs : list loc) : GM () :=
  match objs with
  | [] => mret tt
  | oldObj :: r =>
      SetGCField oldObj MASK_OBJECT_IS_OLD;;
      WalkObjects (copy_if_necessary fuel) oldObj;;
      walk_remembered fuel r
  end.

(** The recursion is as deep as there are objects at most. *)
Definition MinorCollection (w : World) : GM World :=
  n ← gets (fun m => size (objects m));
  w' ← WalkGlobals USE_TAGGING (copy_if_necessary (S n)) w;
  d ← gets heap_data;
  walk_remembered (S n) (oldObjsWithRefToYoungObjs d);;
  update_data (with_remembered []);;
  update_data (fun d => with_nursery (nursery d) (gcWasRequested d) d);;
  mret w'.

(** ** The major collection *)

Fixpoint mark_object (fuel : nat) (p : oop) : GM oop :=
  match fuel with
  | O => fail OutOfFuel
  | S fuel =>
      match p with
      | Tagged _ => mret p
      | Null => fail Undef
      | Ref l =>
          g ← GetGCField l;
          if negb (Nat.land g MASK_OBJECT_IS_MARKED =? 0) then mret p
          else
            SetGCField l (Nat.lor MASK_OBJECT_IS_OLD MASK_OBJECT_IS_MARKED);;
            WalkObjects (mark_object fuel) l;;
            mret p
      end
  end.

Definition FreeObject (l : loc) : GM () :=
  modify (fun m => mkMem (delete l (objects m)) (delete l (gcfields m)) (heap_data m)).

Fixpoint sweep (objs : list loc) (survivors : list loc) : GM (list loc) :=
  match objs with
  | [] => mret survivors
  | obj :: r =>
      g ← GetGCField obj;
      if negb (Nat.land g MASK_OBJECT_IS_MARKED =? 0) then
        SetGCField obj MASK_OBJECT_IS_OLD;; sweep r (survivors ++ [obj])
      else FreeObject obj;; sweep r survivors
  end.

Definition MajorCollection (w : World) : GM World :=
  n ← gets (fun m => size (objects m));
  w' ← WalkGlobals USE_TAGGING (mark_object (S n)) w;
  d ← gets heap_data;
  survivors ← sweep (allocatedObjects d) [];
  update_data (fun d => with_mature (matureObjectsSize d) survivors d);;
  mret w'.

Definition Collect (w : World) : GM World :=
  update_data (fun d => with_nursery (nextFreePosition d) false d);;
  w' ← MinorCollection w;
  d ← gets heap_data;
  if majorCollectionThreshold d <? matureObjectsSize d then
    w'' ← MajorCollection w';
    update_data (fun d => with_threshold (2 * matureObjectsSize d) d);;
    mret w''
  else mret w'.

End Generational.

(** ** The state between collections *)

Definition young (d : GenerationalHeap) (l : loc) : Prop := nursery d <= l < nursery_end d.
#[export] Instance young_dec d l : Decision (young d l).
Proof. unfold young. apply _. Defined.

(** The objects as a minor collection sees them: a symbol that is copied loses its
    cache. *)
Definition as_moved (d : GenerationalHeap) (l : loc) (o : obj) : obj :=
  if decide (young d l) then clone_of o else o.

Definition graph (m : Mem GenerationalHeap) : gmap loc obj :=
  map_imap (fun l o => Some (as_moved (heap_data m) l o)) (objects m).

Lemma graph_lookup m l : graph m !! l = as_moved (heap_data m) l <$> (objects m !! l).
Proof. unfold graph. rewrite map_lookup_imap. by destruct (objects m !! l). Qed.

(** The roots of a minor collection. *)
Definition all_roots (USE_TAGGING : bool) (w : World) (m : Mem GenerationalHeap) : list oop :=
  roots USE_TAGGING w ++ (Ref <$> oldObjsWithRefToYoungObjs (heap_data m)).

(** Old objects are outside of the nursery and are marked as such; those on the list of
    the write barrier have its flag too. An old object that refers to a young one is on
    the list. What can be reached is an old object or an object of the nursery that
    has not been moved; the frames among the latter know where their locals are, and
    their methods are not on the list. *)
Record consistent (USE_TAGGING : bool) (w : World) (m : Mem GenerationalHeap) : Prop :=
  mkConsistent {
    consistent_frame : is_Some (frame w);
    consistent_next : nursery (heap_data m) <= nextFreePosition (heap_data m);
    consistent_nodup : NoDup (allocatedObjects (heap_data m));
    consistent_mature l : l ∈ allocatedObjects (heap_data m) ->
      is_Some (objects m !! l) /\ ~ young (heap_data m) l;
    consistent_fields l : l ∈ allocatedObjects (heap_data m) ->
      gc_of m l = if decide (l ∈ oldObjsWithRefToYoungObjs (heap_data m)) then 6 else 2;
    consistent_list : NoDup (oldObjsWithRefToYoungObjs (heap_data m));
    consistent_list_old l : l ∈ oldObjsWithRefToYoungObjs (heap_data m) ->
      l ∈ allocatedObjects (heap_data m);
    consistent_barrier l o l' : l ∈ allocatedObjects (heap_data m) -> objects m !! l = Some o ->
      Ref l' ∈ pointers o -> young (heap_data m) l' -> l ∈ oldObjsWithRefToYoungObjs (heap_data m);
    consistent_reach l : reachable (graph m) (all_roots USE_TAGGING w m) l ->
      l ∈ allocatedObjects (heap_data m) \/
      young (heap_data m) l /\ l < nextFreePosition (heap_data m) /\ gc_of m l = 0;
    consistent_frames l f : reachable (graph m) (all_roots USE_TAGGING w m) l ->
      young (heap_data m) l -> objects m !! l = Some (OFrame f) ->
      (f_method f ∉ oldObjsWithRefToYoungObjs (heap_data m)) /\
      exists mth, objects m !! f_method f = Some (OMethod mth)
                  /\ f_locals f = m_numberOfArguments mth;
    consistent_pointers : well_formed (graph m) (all_roots USE_TAGGING w m) }.

(** What [malloc] returns, unless it is null, is aligned and not in use. *)
Definition malloc_ok (malloc : GenerationalHeap -> nat -> option loc) : Prop :=
  forall d n a, malloc d n = Some a -> 0 < a /\ a mod 8 = 0 /\ ~ young d a /\ a ∉ allocatedObjects d.

(** [malloc] that never returns null. *)
Definition never_null (malloc : GenerationalHeap -> nat -> option loc) : Prop :=
  forall d n, is_Some (malloc d n).

(** ** Steps *)

Lemma gen_update_step f m :
  update_data f m = Ok (tt, mkMem (objects m) (gcfields m) (f (heap_data m))).
Proof. done. Qed.

Lemma place_object_step l o m :
  place_object l o m
  = Ok (tt, mkMem (<[l := o]> (objects m)) (<[l := 0]> (gcfields m)) (heap_data m)).
Proof. done. Qed.

Lemma aligned_not_old a : a mod 8 = 0 -> Nat.land a MASK_OBJECT_IS_OLD = 0.
Proof.
  intros E. unfold MASK_OBJECT_IS_OLD. apply Nat.bits_inj. intros n.
  rewrite Nat.land_spec, Nat.bits_0. destruct (decide (n = 1)) as [->|Hn].
  - rewrite <- (Nat.mod_pow2_bits_low a 3 1) by lia. change (2 ^ 3) with 8. by rewrite E.
  - change 2 with (2 ^ 1). rewrite Nat.pow2_bits_false by lia. apply andb_false_r.
Qed.

Unset Default Proof Using.

(** ** Copying *)

Section Minor.

Context (sizeof : cxx_class -> nat) (malloc : GenerationalHeap -> nat -> option loc)
  (malloc_fine : malloc_ok malloc) (malloc_some : never_null malloc).

(** The memory before the collection: [d0] and the objects [h0], what is reachable [R],
    and the objects [rem] that the write barrier has flagged. *)
Context (d0 : GenerationalHeap) (h0 : gmap loc obj) (R : loc -> Prop) (rem : list loc).
Notation young0 := (young d0).
Notation old0 := (allocatedObjects d0).

Context
  (R_objects : forall l, R l -> exists o, h0 !! l = Some o /\
     Forall (valid R) (pointers (as_moved d0 l o)))
  (R_where : forall l, R l -> l ∈ old0 \/ young0 l)
  (R_frames : forall l f, R l -> young0 l -> h0 !! l = Some (OFrame f) ->
     (f_method f ∉ rem) /\
     exists mth, h0 !! f_method f = Some (OMethod mth) /\ f_locals f = m_numberOfArguments mth)
  (old0_nodup : NoDup old0)
  (old0_objects : forall l, l ∈ old0 -> is_Some (h0 !! l) /\ ~ young0 l).

Definition fwd (m : Mem GenerationalHeap) (l : loc) : loc :=
  if decide (young0 l) then gc_of m l else l.

Definition seen (m : Mem GenerationalHeap) (l : loc) : Prop :=
  R l /\ (young0 l -> gc_of m l <> 0).

Definition unmoved (m : Mem GenerationalHeap) : gmap loc obj :=
  filter (fun kv => young0 kv.1 /\ gc_of m kv.1 = 0) h0.

Notation alloc m := (allocatedObjects (heap_data m)).

(** During the collection: the nursery stays as it was, apart from the fields that lead
    to copies; every copy is a new old object with the contents of the original, up to
    pointers; so are the contents of objects that were old before. *)
Record copying (fuel : nat) (m : Mem GenerationalHeap) : Prop := mkCopying {
  copying_data : heap_data m = with_mature (matureObjectsSize (heap_data m)) (alloc m) d0;
  copying_alloc l : l ∈ old0 -> l ∈ alloc m;
  copying_nodup : NoDup (alloc m);
  copying_young l o : young0 l -> h0 !! l = Some o -> objects m !! l = Some o;
  copying_old l o : l ∈ old0 -> h0 !! l = Some o -> exists f, objects m !! l = Some (map_object f o);
  copying_old_field l : l ∈ old0 -> gc_of m l = 2 \/ gc_of m l = 6 /\ l ∈ rem;
  copying_moved l : R l -> young0 l -> gc_of m l <> 0 ->
    gc_of m l ∈ alloc m /\ (gc_of m l ∉ old0) /\
    exists o f, h0 !! l = Some o /\ objects m !! gc_of m l = Some (map_object f (clone_of o));
  copying_new n : n ∈ alloc m -> n ∉ old0 ->
    gc_of m n = 2 /\ ~ young0 n /\ n mod 8 = 0 /\ 0 < n /\
    exists l, R l /\ young0 l /\ gc_of m l = n;
  copying_inj l l' : R l -> R l' -> young0 l -> young0 l' -> gc_of m l <> 0 ->
    gc_of m l = gc_of m l' -> l = l';
  copying_fuel : size (unmoved m) < fuel }.

(** A later memory has more copies, and what was copied in between refers to copies. *)
Record later (m m' : Mem GenerationalHeap) : Prop := mkLater {
  later_mature n : n ∈ alloc m ->
    n ∈ alloc m' /\ objects m' !! n = objects m !! n /\ gc_of m' n = gc_of m n;
  later_moved l : young0 l -> gc_of m l <> 0 -> gc_of m' l = gc_of m l;
  later_closed l o : R l -> young0 l -> h0 !! l = Some o -> gc_of m l = 0 -> gc_of m' l <> 0 ->
    gc_of m' l ∈ alloc m' /\
    objects m' !! gc_of m' l = Some (map_object (fwd m') (clone_of o)) /\
    Forall (valid (seen m')) (pointers (clone_of o)) }.

Lemma minor_later_refl m : later m m.
Proof. by split. Qed.

Lemma minor_seen_later m m' l : later m m' -> seen m l -> seen m' l.
Proof. intros [_ LM _] [HR HS]. split; [done|]. intros Hy. rewrite LM by auto. auto. Qed.

Lemma fwd_later m m' l : later m m' -> seen m l -> fwd m' l = fwd m l.
Proof. intros [_ LM _] [HR HS]. unfold fwd. case_decide; auto. Qed.

Lemma seen_pointers m m' ps :
  later m m' -> Forall (valid (seen m)) ps -> Forall (valid (seen m')) ps.
Proof.
  intros HL HF. apply (Forall_impl _ _ _ HF). intros [| |l]; cbn; [done..|].
  by apply minor_seen_later.
Qed.

Lemma map_later m m' o :
  later m m' -> Forall (valid (seen m)) (pointers o) ->
  map_object (fwd m') o = map_object (fwd m) o.
Proof.
  intros HL HF. apply map_object_ext. intros l Hl. rewrite Forall_forall in HF.
  apply fwd_later; [done|]. by apply (HF _ Hl).
Qed.

Lemma minor_later_trans m1 m2 m3 : later m1 m2 -> later m2 m3 -> later m1 m3.
Proof.
  intros L1 L2. pose proof L1 as [A1 M1 C1]. pose proof L2 as [A2 M2 C2]. split.
  - intros n Hn. destruct (A1 n Hn) as (H1 & E1 & G1). destruct (A2 n H1) as (H2 & E2 & G2).
    split; [done|]. split; congruence.
  - intros l Hy Hl. rewrite M2, M1; auto. rewrite M1; auto.
  - intros l o HR Hy Ho G1 G3. destruct (decide (gc_of m2 l = 0)) as [G2|G2]; [by apply C2|].
    destruct (C1 l o HR Hy Ho G1 G2) as (H2 & E2 & S2).
    rewrite (M2 l Hy G2). destruct (A2 _ H2) as (H3 & E3 & _). split; [done|]. split.
    + by rewrite E3, E2, (map_later m2 m3).
    + by apply (seen_pointers m2 m3).
Qed.

Lemma unmoved_later m m' : later m m' -> size (unmoved m') <= size (unmoved m).
Proof.
  intros [_ LM _]. apply map_subseteq_size, map_filter_strong_subseteq_ext.
  intros l o. cbn. intros [[Hy E] ?]. split; [|done]. split; [done|].
  destruct (decide (gc_of m l = 0)) as [|N]; [done|]. by rewrite LM in E.
Qed.

(** What a frame needs to know of its method is found wherever the method is. *)
Lemma minor_clone_step fuel m l o (da : GenerationalHeap) :
  copying fuel m -> R l -> young0 l -> h0 !! l = Some o ->
  clone_contents o (mkMem (objects m) (gcfields m) da)
  = Ok (clone_of o, mkMem (objects m) (gcfields m) da).
Proof.
  intros HC HR Hy Ho. destruct o as [| | | | | |f| | |]; try done. cbn.
  destruct (R_frames l f HR Hy Ho) as (Hn & mth & Hm & Hf).
  assert (R (f_method f)) as HRm.
  { destruct (R_objects l HR) as (o & E & HF). rewrite Ho in E. injection E as <-.
    unfold as_moved in HF. rewrite decide_True in HF by done. rewrite Forall_forall in HF.
    apply (HF (Ref (f_method f))). cbn. set_solver. }
  set (ma := mkMem _ _ da).
  assert (forall x om, objects m !! x = Some om -> load_object x ma = Ok (om, ma)) as HL.
  { intros x om E. by apply load_object_step. }
  assert (exists om, objects m !! f_method f = Some om) as [om Hom].
  { destruct (R_where _ HRm) as [H|H]; [|by eexists; apply (copying_young _ _ HC)].
    destruct (copying_old _ _ HC _ _ H Hm). by eexists. }
  unfold clone_frame. rewrite bind_assoc.
  rewrite (bind_step _ _ _ _ _ (GetGCField_step (f_method f) om ma Hom)).
  change (gc_of ma (f_method f)) with (gc_of m (f_method f)).
  assert (exists g mth', objects m !! (if negb (gc_of m (f_method f) =? 0)
      && negb (gc_of m (f_method f) =? MASK_OBJECT_IS_OLD) then gc_of m (f_method f)
      else f_method f) = Some (map_object g (OMethod mth'))
    /\ m_numberOfArguments mth' = m_numberOfArguments mth) as (g & mth' & E & EN).
  { unfold MASK_OBJECT_IS_OLD. destruct (R_where _ HRm) as [H|H].
    - destruct (copying_old_field _ _ HC _ H) as [-> |[_ ?]]; [|by destruct Hn]. cbn.
      destruct (copying_old _ _ HC _ _ H Hm) as [g E]. eauto.
    - destruct (Nat.eqb_spec (gc_of m (f_method f)) 0) as [E0|E0]; cbn [negb andb].
      + exists id, mth. rewrite map_object_id. split; [|done]. by apply (copying_young _ _ HC).
      + destruct (copying_moved _ _ HC _ HRm H E0) as (H1 & H2 & o & g & E1 & E2).
        assert (o = OMethod mth) as -> by congruence.
        destruct (copying_new _ _ HC _ H1 H2) as (_ & _ & Ha & _).
        destruct (Nat.eqb_spec (gc_of m (f_method f)) 2) as [E3|_]; [by rewrite E3 in Ha|].
        cbn [negb andb]. eauto. }
  rewrite bind_assoc, (bind_step _ _ _ _ _ (HL _ _ E)). cbn [map_object].
  rewrite (bind_step _ _ _ _ _ (ret_step _ _)). cbn. rewrite EN, <- Hf. by destruct f.
Qed.

(** The object [o] at [l] gets a copy at [n]. *)
Definition promote (l n : loc) (o : obj) (m : Mem GenerationalHeap) : Mem GenerationalHeap :=
  mkMem (<[n := clone_of o]> (objects m))
    (<[n := MASK_OBJECT_IS_OLD]> (<[l := n]> (<[n := 0]> (gcfields m))))
    (with_mature (matureObjectsSize (heap_data m) + GetObjectSize sizeof o) (alloc m ++ [n])
       (heap_data m)).

Lemma gc_of_promote l n o m x :
  l <> n -> gc_of (promote l n o m) x = if decide (n = x) then 2 else if decide (l = x) then n else gc_of m x.
Proof.
  intros Hne. unfold promote. rewrite gc_of_insert. case_decide as E1; [done|].
  destruct (decide (l = x)) as [->|E2]; [by rewrite lookup_insert_eq|].
  by rewrite !lookup_insert_ne.
Qed.

(** The copying of an object up to the walk. *)
Lemma promote_step fuel m l o :
  copying fuel m -> R l -> young0 l -> h0 !! l = Some o ->
  exists n, 0 < n /\ n mod 8 = 0 /\ (~ young0 n) /\ (n ∉ alloc m) /\
    forall B (k : loc -> GM B),
    (newObj ← CloneForMovingGC sizeof malloc l;
     SetGCField l newObj;; SetGCField newObj MASK_OBJECT_IS_OLD;; k newObj) m
    = k n (promote l n o m).
Proof.
  intros HC HR Hy Ho.
  destruct (malloc_some (heap_data m) (GetObjectSize sizeof o)) as [n EM].
  destruct (malloc_fine _ _ _ EM) as (Hp & Ha & Hn & Hi).
  exists n. split; [done|]. split; [done|]. assert (~ young0 n) as Hn0.
  { rewrite (copying_data _ _ HC) in Hn. apply Hn. }
  split; [done|]. split; [done|]. intros B k.
  pose proof (copying_young _ _ HC l o Hy Ho) as Hl.
  unfold CloneForMovingGC, HeapWalk.CloneForMovingGC. rewrite bind_assoc.
  rewrite (bind_step _ _ _ _ _ (load_object_step _ _ _ Hl)), bind_assoc.
  unfold operator_new, AllocateMatureObject. rewrite bind_assoc.
  rewrite (bind_step _ _ _ _ _ (gets_step _ _)), EM, bind_assoc.
  rewrite (bind_step _ _ _ _ _ (gen_update_step _ _)).
  rewrite (bind_step _ _ _ _ _ (ret_step _ _)), bind_assoc.
  rewrite (bind_step _ _ _ _ _ (minor_clone_step fuel m l o _ HC HR Hy Ho)), bind_assoc.
  rewrite (bind_step _ _ _ _ _ (modify_step _ _)).
  rewrite (bind_step _ _ _ _ _ (ret_step _ _)). cbn [objects gcfields heap_data].
  assert (n <> l) as Hne by (intros ->; by apply Hn0).
  erewrite bind_step; [|apply (SetGCField_step l o); cbn; by rewrite lookup_insert_ne].
  cbn [objects gcfields heap_data].
  by rewrite (bind_step _ _ _ _ _ (SetGCField_step n (clone_of o) _ _ (lookup_insert_eq _ _ _))).
Qed.

(** Old objects have their pointers replaced. *)
Definition store_old (n : loc) (o : obj) (m : Mem GenerationalHeap) : Mem GenerationalHeap :=
  mkMem (<[n := o]> (objects m)) (gcfields m) (heap_data m).

Lemma copying_store fuel m n o f :
  copying fuel m -> n ∈ alloc m -> objects m !! n = Some o ->
  copying fuel (store_old n (map_object f o) m).
Proof.
  intros [CD CA CN CY CO CF CM CW CI CS] Hn Ho. split; [done|done|done| | |done| |done|done|done].
  - intros l ol Hl Hol. cbn. rewrite lookup_insert_ne; [auto|]. intros ->.
    destruct (decide (l ∈ old0)) as [H|H]; [by destruct (old0_objects l H)|].
    by destruct (CW l Hn H) as (_ & ? & _).
  - intros l ol Hl Hol. cbn. destruct (CO l ol Hl Hol) as [g E].
    destruct (decide (n = l)) as [<-|Hne]; [|rewrite lookup_insert_ne by done; eauto].
    rewrite lookup_insert_eq. assert (o = map_object g ol) as -> by congruence.
    rewrite map_object_compose. eauto.
  - intros l HR Hl G. destruct (CM l HR Hl G) as (H1 & H2 & ol & g & E1 & E2).
    split; [done|]. split; [done|]. change (gc_of (store_old _ _ m) l) with (gc_of m l). cbn.
    destruct (decide (n = gc_of m l)) as [->|Hne].
    + rewrite lookup_insert_eq. exists ol, (f ∘ g). split; [done|].
      assert (o = map_object g (clone_of ol)) as -> by congruence. by rewrite map_object_compose.
    + rewrite lookup_insert_ne by done. eauto.
Qed.

Lemma copying_weaken fuel m : copying fuel m -> copying (S fuel) m.
Proof. intros []. split; auto. Qed.

Lemma store_object_step n o o' m :
  objects m !! n = Some o -> store_object n o' m = Ok (tt, store_old n o' m).
Proof. intros E. unfold store_object. by rewrite E. Qed.

Section Promote.

Context (fuel : nat) (m : Mem GenerationalHeap) (l n : loc) (o : obj)
  (HC : copying (S fuel) m) (HR : R l) (Hy : young0 l) (Ho : h0 !! l = Some o)
  (Hl : gc_of m l = 0) (Hp : 0 < n) (Ha : n mod 8 = 0) (Hn : ~ young0 n) (Hi : n ∉ alloc m).

Lemma promote_ne : l <> n.
Proof. by intros ->. Qed.

Lemma promote_other x : x <> l -> x <> n -> gc_of (promote l n o m) x = gc_of m x.
Proof. intros ? ?. rewrite gc_of_promote by apply promote_ne. by rewrite !decide_False. Qed.

Lemma promote_self : gc_of (promote l n o m) l = n.
Proof.
  pose proof promote_ne. rewrite gc_of_promote by done. by rewrite decide_False, decide_True.
Qed.

Lemma promote_young x : young0 x -> gc_of (promote l n o m) x = if decide (l = x) then n else gc_of m x.
Proof.
  intros Hx. case_decide as E; [rewrite <- E; apply promote_self|]. apply promote_other; [done|]. by intros ->.
Qed.

Lemma promote_object x : x <> n -> objects (promote l n o m) !! x = objects m !! x.
Proof. intros. unfold promote. cbn. by rewrite lookup_insert_ne. Qed.

Lemma promote_old x : x ∈ alloc m -> x <> l /\ x <> n.
Proof.
  intros Hx. split; [|by intros ->]. intros ->. destruct (decide (l ∈ old0)) as [H|H].
  - by destruct (old0_objects l H).
  - by destruct (copying_new _ _ HC l Hx H) as (_ & ? & _).
Qed.

Lemma promote_size : size (unmoved (promote l n o m)) < fuel.
Proof.
  enough (size (unmoved (promote l n o m)) < size (unmoved m))
    by (pose proof (copying_fuel _ _ HC); lia).
  apply map_subset_size, map_subset_alt. split.
  - apply map_filter_strong_subseteq_ext. intros x ox. cbn. intros [[Hx E] ?].
    split; [|done]. split; [done|]. rewrite promote_young in E by done. case_decide; [lia|done].
  - exists l. split.
    + apply map_lookup_filter_None. right. intros ox _. cbn. rewrite promote_self. lia.
    + exists o. by apply map_lookup_filter_Some.
Qed.

Lemma copying_promote : copying fuel (promote l n o m).
Proof.
  pose proof HC as [CD CA CN CY CO CF CM CW CI _].
  assert (forall x, x ∈ alloc (promote l n o m) <-> x ∈ alloc m \/ x = n) as HA.
  { intros x. cbn. by rewrite elem_of_app, list_elem_of_singleton. }
  split.
  - unfold promote. cbn. rewrite CD. done.
  - intros x Hx. apply HA. auto.
  - cbn. apply NoDup_app. split; [done|]. split; [|apply NoDup_singleton].
    intros x Hx ->%list_elem_of_singleton. done.
  - intros x ox Hx Hox. rewrite promote_object; [auto|by intros ->].
  - intros x ox Hx Hox. rewrite promote_object; [auto|]. by destruct (promote_old x (CA x Hx)).
  - intros x Hx. destruct (promote_old x (CA x Hx)). rewrite promote_other by done. auto.
  - intros x Rx Hx. rewrite promote_young by done. case_decide as E; [rewrite <- E; intros _|].
    + split; [apply HA; by right|]. split; [by intros ?%CA|]. exists o, id. split; [done|].
      unfold promote. cbn. by rewrite lookup_insert_eq, map_object_id.
    + intros G. destruct (CM x Rx Hx G) as (H1 & H2 & ox & f & H3 & H4).
      split; [apply HA; by left|]. split; [done|]. exists ox, f. split; [done|].
      rewrite promote_object; [done|]. by destruct (promote_old _ H1).
  - intros x [Hx| ->]%HA Hx0.
    + destruct (promote_old x Hx). rewrite promote_other by done.
      destruct (CW x Hx Hx0) as (G & ? & ? & ? & l' & Rl' & Hl' & E).
      split; [done|]. split; [done|]. split; [done|]. split; [done|]. exists l'.
      split; [done|]. split; [done|]. rewrite promote_young by done. case_decide as E2; [|done].
      rewrite <- E2, Hl in E. lia.
    + split; [rewrite gc_of_promote by apply promote_ne; by rewrite decide_True|].
      split; [done|]. split; [done|]. split; [done|]. exists l. split; [done|].
      split; [done|apply promote_self].
  - intros x y Rx Ry Hx Hy'. rewrite !promote_young by done.
    assert (forall z, R z -> young0 z -> gc_of m z <> 0 -> gc_of m z <> n) as HN.
    { intros z Rz Hz G E. destruct (CM z Rz Hz G) as (H1 & _). by rewrite E in H1. }
    case_decide as E1; case_decide as E2; [congruence| | |by apply CI].
    + intros _ E. symmetry in E. by destruct (HN y Ry Hy'); [lia|].
    + intros G E. by destruct (HN x Rx Hx G).
  - apply promote_size.
Qed.

(** After the walk of the copy. *)
Lemma later_finish m2 :
  copying fuel m2 -> later (promote l n o m) m2 ->
  Forall (valid (seen m2)) (pointers (clone_of o)) ->
  later m (store_old n (map_object (fwd m2) (clone_of o)) m2).
Proof.
  intros C2 L2 S2. set (m3 := store_old _ _ _). pose proof L2 as [LA LM LC].
  assert (gc_of m2 l = n) as E2.
  { rewrite LM; [by apply promote_self|done|]. rewrite promote_self. lia. }
  split.
  - intros x Hx. destruct (LA x) as (H1 & H2 & H3); [cbn; set_solver|].
    destruct (promote_old x Hx) as [Hxl Hxn].
    split; [done|]. cbn. rewrite lookup_insert_ne by done. rewrite H2, promote_object by done.
    split; [done|]. etrans; [exact H3|]. by apply promote_other.
  - intros x Hx Gx. change (gc_of m3 x) with (gc_of m2 x).
    assert (x <> l) as Hne by (intros ->; done). rewrite LM, promote_other; try done.
    + by intros ->.
    + rewrite promote_other; [done|done|by intros ->].
  - intros x ox Rx Hx Hox Gx. change (gc_of m3 x) with (gc_of m2 x). change (fwd m3) with (fwd m2).
    change (alloc m3) with (alloc m2). change (seen m3) with (seen m2). intros G3.
    destruct (decide (l = x)) as [Hlx|Hne].
    + rewrite <- Hlx in *. rewrite E2. assert (ox = o) as -> by congruence.
      split; [|split; [by cbn; rewrite lookup_insert_eq|done]]. apply (LA n). cbn. set_solver.
    + assert (gc_of (promote l n o m) x = 0) as G1.
      { rewrite promote_other; [done|congruence|by intros ->]. }
      destruct (LC x ox Rx Hx Hox G1 G3) as (H1 & H2 & H3). split; [done|]. split; [|done].
      cbn. rewrite lookup_insert_ne; [done|]. intros E. destruct Hne.
      apply (copying_inj _ _ C2); [done..|rewrite E2; lia|congruence].
Qed.

End Promote.

Lemma minor_walker fuel :
  Walker R (copying fuel) later fwd seen (copy_if_necessary sizeof malloc fuel).
Proof.
  induction fuel as [|fuel IH];
    (split; [apply minor_later_refl|apply minor_later_trans|apply minor_seen_later|apply fwd_later|]).
  { intros m p HC. pose proof (copying_fuel _ _ HC). lia. }
  intros m p HC HV. cbn [copy_if_necessary]. destruct p as [|z|l]; [done| |].
  { exists m. split; [done|]. split; [done|]. split; [apply minor_later_refl|done]. }
  cbn in HV. destruct (R_objects l HV) as (o & Ho & HF).
  assert (exists ol, objects m !! l = Some ol) as [ol Hol].
  { destruct (R_where l HV) as [H|H]; [|by eexists; apply (copying_young _ _ HC)].
    destruct (copying_old _ _ HC _ _ H Ho). by eexists. }
  rewrite (bind_step _ _ _ _ _ (GetGCField_step _ _ _ Hol)).
  destruct (decide (young0 l)) as [Hy|Hy].
  2: { assert (l ∈ old0) as H by (by destruct (R_where l HV)).
    assert (negb (Nat.land (gc_of m l) MASK_OBJECT_IS_OLD =? 0) = true) as ->
      by (by destruct (copying_old_field _ _ HC l H) as [-> |[-> _]]).
    exists m. split; [unfold map_oop, fwd; by rewrite decide_False|]. split; [done|].
    split; [apply minor_later_refl|]. by split. }
  destruct (decide (gc_of m l = 0)) as [G|G].
  2: { destruct (copying_moved _ _ HC l HV Hy G) as (H1 & H2 & _).
    destruct (copying_new _ _ HC _ H1 H2) as (_ & _ & Ha & _).
    rewrite (aligned_not_old _ Ha). rewrite (proj2 (Nat.eqb_neq _ 0) G). cbn [Nat.eqb negb].
    exists m. split; [unfold map_oop, fwd; by rewrite decide_True|]. split; [done|].
    split; [apply minor_later_refl|]. by split. }
  rewrite G. cbn [Nat.land Nat.eqb negb]. change (negb (Nat.land 0 MASK_OBJECT_IS_OLD =? 0)) with false.
  cbn match.
  destruct (promote_step (S fuel) m l o HC HV Hy Ho) as (n & Hp & Ha & Hn & Hi & ->).
  pose proof (copying_promote fuel m l n o HC HV Hy Ho G Hp Ha Hn Hi) as HC1.
  unfold as_moved in HF. rewrite decide_True in HF by done.
  destruct (visits_object IH (clone_of o)) as [_ HV'].
  destruct (HV' _ HC1 HF) as (m2 & E2 & C2 & L2 & S2).
  assert (n ∈ alloc (promote l n o m)) as Hin by (cbn; set_solver).
  destruct (later_mature _ _ L2 n Hin) as (Hin2 & O2 & G2). cbn in O2. rewrite lookup_insert_eq in O2.
  exists (store_old n (map_object (fwd m2) (clone_of o)) m2).
  unfold WalkObjects. rewrite bind_assoc.
  rewrite (bind_step _ _ _ _ _ (load_object_step n (clone_of o) (promote l n o m) (lookup_insert_eq _ _ _))).
  rewrite bind_assoc, (bind_step _ _ _ _ _ E2).
  rewrite (bind_step _ _ _ _ _ (store_object_step _ _ _ _ O2)).
  pose proof (later_finish fuel m l n o HC HV Hy Ho G Hp Ha Hn Hi m2 C2 L2 S2) as L3.
  set (m3 := store_old _ _ _) in *.
  assert (gc_of m2 l = n) as El.
  { rewrite (later_moved _ _ L2), promote_self; [done|done..|]. rewrite promote_self; [lia|done..]. }
  split; [unfold map_oop, fwd; rewrite decide_True by done; by rewrite <- El|].
  split; [by apply copying_weaken, copying_store|]. split; [done|].
  split; [done|]. intros _. change (gc_of m2 l <> 0). lia.
Qed.

(** ** The objects of the write barrier

    [dn] are the old objects that have been walked. *)
Record progress (fuel : nat) (dn : list loc) (m : Mem GenerationalHeap) : Prop := mkProgress {
  progress_copying : copying fuel m;
  progress_closed l o : R l -> young0 l -> h0 !! l = Some o -> gc_of m l <> 0 ->
    objects m !! gc_of m l = Some (map_object (fwd m) (clone_of o)) /\
    Forall (valid (seen m)) (pointers (clone_of o));
  progress_done l o : l ∈ dn -> h0 !! l = Some o ->
    gc_of m l = 2 /\ objects m !! l = Some (map_object (fwd m) o) /\
    Forall (valid (seen m)) (pointers o);
  progress_rest l : l ∈ old0 -> l ∉ dn -> objects m !! l = h0 !! l }.

Lemma progress_later fuel dn m m' :
  (forall l, l ∈ dn -> l ∈ old0) ->
  progress fuel dn m -> copying fuel m' -> later m m' -> progress fuel dn m'.
Proof.
  intros Hdn [PC PL PD PR] C' L. pose proof L as [LA LM LC]. split; [done| | |].
  - intros l o HR Hy Ho G. destruct (decide (gc_of m l = 0)) as [G0|G0].
    + by destruct (LC l o HR Hy Ho G0 G) as (_ & ? & ?).
    + destruct (PL l o HR Hy Ho G0) as [E F]. destruct (copying_moved _ _ PC l HR Hy G0) as (H1 & _).
      rewrite (LM l Hy G0). destruct (LA _ H1) as (_ & -> & _). rewrite E.
      split; [by rewrite (map_later m m')|by apply (seen_pointers m)].
  - intros l o Hl Ho. destruct (PD l o Hl Ho) as (G & E & F).
    destruct (LA l) as (_ & -> & ->); [by apply (copying_alloc _ _ PC), Hdn|].
    split; [done|]. rewrite E. split; [by rewrite (map_later m m')|by apply (seen_pointers m)].
  - intros l Hl Hn. destruct (LA l) as (_ & -> & _); [by apply (copying_alloc _ _ PC)|]. auto.
Qed.

(** An old object loses the flag of the write barrier. *)
Definition unflag (l : loc) (m : Mem GenerationalHeap) : Mem GenerationalHeap :=
  mkMem (objects m) (<[l := MASK_OBJECT_IS_OLD]> (gcfields m)) (heap_data m).

Lemma gc_of_unflag l m x : gc_of (unflag l m) x = if decide (l = x) then 2 else gc_of m x.
Proof. apply gc_of_insert. Qed.

Lemma unflag_young l m x : l ∈ old0 -> young0 x -> gc_of (unflag l m) x = gc_of m x.
Proof.
  intros Hl Hx. rewrite gc_of_unflag. case_decide; [|done]. subst. by destruct (old0_objects x Hl).
Qed.

Lemma fwd_unflag l m x : l ∈ old0 -> fwd (unflag l m) x = fwd m x.
Proof. intros Hl. unfold fwd. case_decide; [|done]. by apply unflag_young. Qed.

Lemma seen_unflag l m x : l ∈ old0 -> seen (unflag l m) x <-> seen m x.
Proof.
  intros Hl. unfold seen. destruct (decide (young0 x)) as [Hy|Hy]; [|tauto].
  by rewrite unflag_young.
Qed.

Lemma seens_unflag l m ps :
  l ∈ old0 -> Forall (valid (seen m)) ps -> Forall (valid (seen (unflag l m))) ps.
Proof.
  intros Hl F. apply (Forall_impl _ _ _ F). intros [| |x]; cbn; [done..|]. by apply seen_unflag.
Qed.

Lemma copying_unflag fuel l m : l ∈ old0 -> copying fuel m -> copying fuel (unflag l m).
Proof.
  intros Hl [CD CA CN CY CO CF CM CW CI CS]. split; [done|done|done|done|done| | | | |].
  - intros x Hx. rewrite gc_of_unflag. case_decide; auto.
  - intros x Rx Hx. rewrite unflag_young by done. apply CM; auto.
  - intros n Hn Hn0. destruct (CW n Hn Hn0) as (G & ? & ? & ? & x & Rx & Hx & E).
    rewrite gc_of_unflag. case_decide; [by subst|]. split; [done|]. split; [done|].
    split; [done|]. split; [done|]. exists x. by rewrite unflag_young.
  - intros x y Rx Ry Hx Hy. rewrite !unflag_young by done. auto.
  - eapply Nat.le_lt_trans; [|exact CS]. apply map_subseteq_size, map_filter_strong_subseteq_ext.
    intros x o. cbn. intros [[Hx E] ?]. by rewrite unflag_young in E.
Qed.

Lemma progress_unflag fuel dn l m : l ∈ old0 -> progress fuel dn m -> progress fuel dn (unflag l m).
Proof.
  intros Hl [PC PL PD PR].
  assert (forall o, map_object (fwd (unflag l m)) o = map_object (fwd m) o) as HE.
  { intros o. apply map_object_ext. intros x _. by apply fwd_unflag. }
  split; [by apply copying_unflag| | |done].
  - intros x o HR Hy Ho. rewrite unflag_young, HE by done. intros G.
    destruct (PL x o HR Hy Ho G) as [E F]. split; [done|by apply seens_unflag].
  - intros x o Hx Ho. destruct (PD x o Hx Ho) as (G & E & F). rewrite gc_of_unflag, HE.
    split; [by case_decide|]. split; [done|by apply seens_unflag].
Qed.

Lemma progress_store fuel dn l o m :
  l ∈ old0 -> l ∉ dn -> h0 !! l = Some o -> gc_of m l = 2 ->
  Forall (valid (seen m)) (pointers o) ->
  progress fuel dn m -> progress fuel (l :: dn) (store_old l (map_object (fwd m) o) m).
Proof.
  intros Hl Hdn Ho G F [PC PL PD PR].
  assert (objects m !! l = Some o) as Hol by (by rewrite PR).
  pose proof (copying_alloc _ _ PC l Hl) as Ha.
  split; [by apply copying_store| | |].
  - intros x ox HR Hy Hox Gx. destruct (PL x ox HR Hy Hox Gx) as [E F']. split; [|done].
    change (gc_of (store_old _ _ m) x) with (gc_of m x). cbn. rewrite lookup_insert_ne; [done|].
    intros ->. by destruct (copying_moved _ _ PC x HR Hy Gx) as (_ & ? & _).
  - intros x ox [->|Hx]%elem_of_cons Hox.
    + assert (ox = o) as -> by congruence. split; [done|]. split; [|done].
      cbn. by rewrite lookup_insert_eq.
    + destruct (PD x ox Hx Hox) as (Gx & E & F'). split; [done|]. split; [|done].
      cbn. rewrite lookup_insert_ne; [done|]. by intros ->.
  - intros x Hx [Hn Hn']%not_elem_of_cons. cbn. rewrite lookup_insert_ne by done. auto.
Qed.

(** What was copied stays where it is. *)
Definition grows (m m' : Mem GenerationalHeap) : Prop :=
  forall l, young0 l -> gc_of m l <> 0 -> gc_of m' l = gc_of m l.

Lemma walk_remembered_step fuel objs dn m :
  NoDup objs -> (forall l, l ∈ objs -> l ∈ old0 /\ R l /\ l ∉ dn) -> (forall l, l ∈ dn -> l ∈ old0) ->
  progress fuel dn m ->
  exists m', walk_remembered sizeof malloc fuel objs m = Ok (tt, m')
    /\ progress fuel (rev objs ++ dn) m' /\ grows m m'.
Proof.
  revert dn m. induction objs as [|l r IH]; intros dn m HN HO Hdn HP.
  { exists m. split; [done|]. split; [done|]. by intros ? ?. }
  apply NoDup_cons in HN as [Hlr HN]. destruct (HO l ltac:(set_solver)) as (Hl & HR & Hd).
  destruct (R_objects l HR) as (o & Ho & F). unfold as_moved in F.
  rewrite decide_False in F by (by destruct (old0_objects l Hl)).
  pose proof (progress_rest _ _ _ HP l Hl Hd) as Hol. rewrite Ho in Hol.
  cbn [walk_remembered]. rewrite (bind_step _ _ _ _ _ (SetGCField_step _ _ _ _ Hol)).
  fold (unflag l m). pose proof (progress_unflag fuel dn l m Hl HP) as HP1.
  destruct (visits_object (minor_walker fuel) o) as [_ HV].
  destruct (HV _ (progress_copying _ _ _ HP1) F) as (m2 & E2 & C2 & L2 & S2).
  pose proof (progress_later _ _ _ _ Hdn HP1 C2 L2) as HP2.
  destruct (later_mature _ _ L2 l (copying_alloc _ _ (progress_copying _ _ _ HP1) l Hl)) as (_ & O2 & G2).
  rewrite gc_of_unflag, decide_True in G2 by done. cbn in O2. rewrite Hol in O2.
  unfold WalkObjects. rewrite bind_assoc.
  rewrite (bind_step _ _ _ _ _ (load_object_step l o (unflag l m) Hol)).
  rewrite bind_assoc, (bind_step _ _ _ _ _ E2).
  rewrite (bind_step _ _ _ _ _ (store_object_step _ _ _ _ O2)).
  destruct (IH (l :: dn) (store_old l (map_object (fwd m2) o) m2) HN) as (m' & E' & HP' & HG).
  - intros x Hx. destruct (HO x ltac:(set_solver)) as (? & ? & ?). set_solver.
  - set_solver.
  - by apply progress_store.
  - exists m'. split; [done|]. split; [cbn; by rewrite <- app_assoc|].
    intros x Hx Gx. assert (gc_of m2 x = gc_of m x) as E.
    { rewrite (later_moved _ _ L2); rewrite ?unflag_young; done. }
    rewrite HG; [done|done|]. change (gc_of m2 x <> 0). by rewrite E.
Qed.

End Minor.

(** ** The minor collection *)

Section MinorCollection.

Context (sizeof : cxx_class -> nat) (USE_TAGGING : bool)
  (malloc : GenerationalHeap -> nat -> option loc) (malloc_fine : malloc_ok malloc)
  (malloc_some : never_null malloc)
  (w : World) (m : Mem GenerationalHeap) (HC : consistent USE_TAGGING w m).

Notation R := (reachable (graph m) (all_roots USE_TAGGING w m)).
Notation d0 := (heap_data m).
Notation rem := (oldObjsWithRefToYoungObjs d0).
Notation alloc m := (allocatedObjects (heap_data m)).

Lemma reachable_objects l : R l -> exists o, objects m !! l = Some o /\
  Forall (valid R) (pointers (as_moved d0 l o)).
Proof.
  intros HR. pose proof (consistent_pointers _ _ _ HC) as HW.
  destruct (proj2 HW l HR) as (o' & Ho' & _). pose proof Ho' as Ho. rewrite graph_lookup in Ho.
  apply fmap_Some in Ho as (o & Ho & ->). exists o. split; [done|]. by apply (valid_pointers _ _ l).
Qed.

Lemma remembered_reachable l : l ∈ rem -> R l.
Proof.
  intros Hl. apply reachable_root. unfold all_roots. apply elem_of_app. right.
  apply list_elem_of_fmap. by exists l.
Qed.

Notation copying := (copying d0 (objects m) R rem).
Notation progress := (progress d0 (objects m) R rem).
Notation fwd := (fwd d0).
Notation seen := (seen d0 R).

Lemma copying_start : copying (S (size (objects m))) m.
Proof.
  pose proof HC as [_ _ HN HM HF _ _ _ HR _ _]. split.
  - by destruct m as [? ? []].
  - done.
  - done.
  - done.
  - intros l o _ Ho. exists id. by rewrite map_object_id.
  - intros l Hl. rewrite (HF l Hl). case_decide; auto.
  - intros l Rl Hy G. destruct (HR l Rl) as [Hl|(_ & _ & G0)]; [|done]. by destruct (HM l Hl).
  - done.
  - intros l l' Rl _ Hy _ G. destruct (HR l Rl) as [Hl|(_ & _ & G0)]; [|done]. by destruct (HM l Hl).
  - apply Nat.lt_succ_r, map_subseteq_size, map_filter_subseteq.
Qed.

(** The walk of the globals and of the objects on the list of the write barrier. *)
Lemma minor_walk :
  exists m1 m2,
    WalkGlobals USE_TAGGING (copy_if_necessary sizeof malloc (S (size (objects m)))) w m
      = Ok (map_world USE_TAGGING (fwd m2) w, m1)
    /\ oldObjsWithRefToYoungObjs (heap_data m1) = rem
    /\ walk_remembered sizeof malloc (S (size (objects m))) rem m1 = Ok (tt, m2)
    /\ progress (S (size (objects m))) (rev rem) m2
    /\ (forall l, Ref l ∈ roots USE_TAGGING w -> seen m2 l).
Proof.
  pose proof HC as [HF _ HN HM _ HL HO _ HR HFr HW].
  assert (forall l, R l -> l ∈ alloc m \/ young d0 l) as HWh by (intros l Hl; destruct (HR l Hl); tauto).
  assert (forall l, l ∈ alloc m -> is_Some (objects m !! l) /\ ~ young d0 l) as HOld by done.
  destruct (visits_world (minor_walker sizeof malloc malloc_fine malloc_some d0 (objects m) R rem reachable_objects
    HWh HFr HN HOld (S (size (objects m)))) USE_TAGGING w HF) as [HE HV].
  destruct (HV m copying_start) as (m1 & E1 & C1 & L1 & S1).
  { pose proof (valid_roots _ _ HW) as V. by apply Forall_app in V as [V _]. }
  pose proof L1 as [LA LM LC].
  assert (progress (S (size (objects m))) [] m1) as HP1.
  { split; [done| | |].
    - intros l o Rl Hy Ho G. destruct (HR l Rl) as [Hl|(_ & _ & G0)]; [by destruct (HM l Hl)|].
      by destruct (LC l o Rl Hy Ho G0 G) as (_ & ? & ?).
    - by intros l o Hl%elem_of_nil.
    - intros l Hl _. by destruct (LA l Hl) as (_ & ? & _). }
  destruct (walk_remembered_step sizeof malloc malloc_fine malloc_some d0 (objects m) R rem reachable_objects
    HWh HFr HN HOld (S (size (objects m))) rem [] m1 HL) as (m2 & E2 & HP2 & HG); [| |done|].
  { intros l Hl. split; [auto|]. split; [by apply remembered_reachable|set_solver]. }
  { by intros l Hl%elem_of_nil. }
  rewrite app_nil_r in HP2. exists m1, m2.
  assert (forall l, Ref l ∈ roots USE_TAGGING w -> seen m1 l /\ fwd m2 l = fwd m1 l) as HSeen.
  { intros l Hl. rewrite Forall_forall in S1. pose proof (S1 _ Hl) as [Rl Gl]. split; [done|].
    unfold Generational.fwd. case_decide; [|done]. apply HG; auto. }
  split.
  { rewrite E1. do 2 f_equal. apply HE. intros l Hl. symmetry. by apply HSeen. }
  split; [by rewrite (copying_data _ _ _ _ _ _ C1)|]. split; [done|]. split; [done|].
  intros l Hl. destruct (HSeen l Hl) as [[Rl Gl] _]. split; [done|]. intros Hy. rewrite HG; auto.
Qed.

(** *** After the walk *)

Section After.

Context (fuel : nat) (m2 : Mem GenerationalHeap) (HP : progress fuel (rev rem) m2)
  (HS : forall l, Ref l ∈ roots USE_TAGGING w -> seen m2 l).
Notation f := (fwd m2).

Definition after : Mem GenerationalHeap :=
  mkMem (objects m2) (gcfields m2)
    (with_nursery (nursery d0) (gcWasRequested d0) (with_remembered [] (heap_data m2))).

Lemma after_young l : young (heap_data after) l <-> young d0 l.
Proof. unfold after. cbn. by rewrite (copying_data _ _ _ _ _ _ (progress_copying _ _ _ _ _ _ _ HP)). Qed.

Lemma elem_of_rev l : l ∈ rev rem <-> l ∈ rem.
Proof. rewrite !list_elem_of_In. symmetry. apply in_rev. Qed.

(** Everything that can be reached has been seen. *)
Lemma after_seen l : R l -> seen m2 l.
Proof.
  pose proof HC as [_ _ _ HM _ _ HO HB HR _ HW].
  induction 1 as [l Hl|l o' l' Rl IH Ho' Hl'].
  { unfold all_roots in Hl. apply elem_of_app in Hl as [Hl|(x & [= <-] & Hx)%list_elem_of_fmap]; [auto|].
    split; [by apply remembered_reachable|]. intros Hy. by destruct (HM l (HO l Hx)). }
  assert (R l') as Rl' by (by apply (reachable_step _ _ l o')). split; [done|]. intros Hy'.
  rewrite graph_lookup in Ho'. apply fmap_Some in Ho' as (o & Ho & ->).
  enough (Forall (valid (seen m2)) (pointers (as_moved d0 l o))) as F.
  { rewrite Forall_forall in F. by destruct (F _ Hl') as [_ G]; apply G. }
  unfold as_moved in *. case_decide as Hy.
  - destruct IH as [_ G]. by apply (progress_closed _ _ _ _ _ _ _ HP l o Rl Hy Ho (G Hy)).
  - destruct (HR l Rl) as [Hl|[? _]]; [|done].
    assert (l ∈ rev rem) as Hrem by (apply elem_of_rev; by apply (HB l o l')).
    by apply (progress_done _ _ _ _ _ _ _ HP l o Hrem Ho).
Qed.

(** Where reachable objects are: among the old ones. *)
Lemma after_old l : R l -> f l ∈ alloc after.
Proof.
  intros Rl. destruct (after_seen l Rl) as [_ G]. pose proof (progress_copying _ _ _ _ _ _ _ HP) as C.
  unfold Generational.fwd. case_decide as Hy.
  - by apply (copying_moved _ _ _ _ _ _ C l Rl Hy (G Hy)).
  - destruct (consistent_reach _ _ _ HC l Rl) as [Hl|[? _]]; [|done].
    by apply (copying_alloc _ _ _ _ _ _ C).
Qed.

Lemma after_not_young n : n ∈ alloc after -> ~ young d0 n.
Proof.
  intros Hn. destruct (decide (n ∈ alloc m)) as [H|H]; [by apply (consistent_mature _ _ _ HC)|].
  by destruct (copying_new _ _ _ _ _ _ (progress_copying _ _ _ _ _ _ _ HP) n Hn H) as (_ & ? & _).
Qed.

Lemma after_fixed l : l ∈ alloc m -> f l = l.
Proof.
  intros Hl. unfold Generational.fwd. rewrite decide_False; [done|]. by apply (consistent_mature _ _ _ HC).
Qed.

(** The contents of what can be reached. *)
Lemma after_object l o :
  R l -> objects m !! l = Some o -> objects after !! f l = Some (map_object f (as_moved d0 l o)).
Proof.
  intros Rl Ho. unfold Generational.fwd at 1, as_moved. case_decide as Hy.
  - destruct (after_seen l Rl) as [_ G].
    by apply (progress_closed _ _ _ _ _ _ _ HP l o Rl Hy Ho (G Hy)).
  - destruct (consistent_reach _ _ _ HC l Rl) as [Hl|[? _]]; [|done].
    destruct (decide (l ∈ rem)) as [Hr|Hr].
    + by apply (progress_done _ _ _ _ _ _ _ HP l o (proj2 (elem_of_rev l) Hr) Ho).
    + cbn. rewrite (progress_rest _ _ _ _ _ _ _ HP l Hl) by (by rewrite elem_of_rev).
      rewrite Ho. f_equal. etrans; [symmetry; apply map_object_id|]. apply map_object_ext.
      intros x Hx. unfold Generational.fwd. rewrite decide_False; [done|]. intros Hyx.
      by apply Hr, (consistent_barrier _ _ _ HC l o x).
Qed.

Lemma after_injective l l' : R l -> R l' -> f l = f l' -> l = l'.
Proof.
  intros Rl Rl' E. pose proof (after_old l Rl) as Ho. pose proof (after_old l' Rl') as Ho'.
  destruct (after_seen l Rl) as [_ G]. destruct (after_seen l' Rl') as [_ G'].
  pose proof (progress_copying _ _ _ _ _ _ _ HP) as C.
  unfold Generational.fwd in *.
  destruct (decide (young d0 l)) as [Hy|Hy], (decide (young d0 l')) as [Hy'|Hy'].
  - apply (copying_inj _ _ _ _ _ _ C); auto.
  - destruct (consistent_reach _ _ _ HC l' Rl') as [Hl'|[? _]]; [|done].
    destruct (copying_moved _ _ _ _ _ _ C l Rl Hy (G Hy)) as (_ & Hn & _). by rewrite E in Hn.
  - destruct (consistent_reach _ _ _ HC l Rl) as [Hl|[? _]]; [|done].
    destruct (copying_moved _ _ _ _ _ _ C l' Rl' Hy' (G' Hy')) as (_ & Hn & _). by rewrite <- E in Hn.
  - done.
Qed.

(** Nothing else has become old. *)
Lemma after_only n : n ∈ alloc after -> n ∈ alloc m \/ exists l, R l /\ young d0 l /\ f l = n.
Proof.
  intros Hn. destruct (decide (n ∈ alloc m)) as [H|H]; [by left|right].
  destruct (copying_new _ _ _ _ _ _ (progress_copying _ _ _ _ _ _ _ HP) n Hn H)
    as (_ & _ & _ & _ & l & Rl & Hy & E).
  exists l. split; [done|]. split; [done|]. unfold Generational.fwd. by rewrite decide_True.
Qed.

Lemma after_pointers n o l :
  n ∈ alloc after -> objects after !! n = Some o -> Ref l ∈ pointers o -> ~ young d0 l.
Proof.
  intros Hn Ho Hl. enough ((exists x, R x /\ l = f x) \/ ~ young d0 l) as [(x & Rx & ->)|]; [|done|].
  { by apply after_not_young, after_old. }
  destruct (after_only n Hn) as [H|(x & Rx & Hy & <-)].
  - destruct (proj1 (consistent_mature _ _ _ HC n H)) as [o0 Ho0].
    destruct (decide (n ∈ rem)) as [Hr|Hr].
    + destruct (progress_done _ _ _ _ _ _ _ HP n o0 (proj2 (elem_of_rev n) Hr) Ho0) as (_ & E & F).
      cbn in Ho. rewrite E in Ho. injection Ho as <-. rewrite pointers_map in Hl.
      apply list_elem_of_fmap in Hl as ([| |x] & [= ->] & Hx). left. exists x. split; [|done].
      rewrite Forall_forall in F. by apply (F _ Hx).
    + right. intros Hy. cbn in Ho. rewrite (progress_rest _ _ _ _ _ _ _ HP n H) in Ho
        by (by rewrite elem_of_rev). by apply Hr, (consistent_barrier _ _ _ HC n o l).
  - destruct (reachable_objects x Rx) as (o0 & Ho0 & F). rewrite (after_object x o0 Rx Ho0) in Ho.
    injection Ho as <-. rewrite pointers_map in Hl.
    apply list_elem_of_fmap in Hl as ([| |y] & [= ->] & Hyy). left. exists y. split; [|done].
    rewrite Forall_forall in F. by apply (F _ Hyy).
Qed.

Lemma after_graph l o : l ∈ alloc after -> objects after !! l = Some o -> graph after !! l = Some o.
Proof.
  intros Hl Ho. rewrite graph_lookup, Ho. cbn. f_equal. unfold as_moved.
  rewrite decide_False; [done|]. rewrite after_young. by apply after_not_young.
Qed.

Lemma after_reachable n :
  reachable (graph after) (all_roots USE_TAGGING (map_world USE_TAGGING f w) after) n ->
  exists l, R l /\ n = f l.
Proof.
  apply (image_reachable (graph m)).
  - intros p Hp. unfold all_roots in Hp. cbn in Hp. rewrite app_nil_r in Hp.
    apply roots_map in Hp as (q & Hq & ->). exists q. split; [|done].
    unfold all_roots. apply elem_of_app. by left.
  - intros l o' Rl Ho'. rewrite graph_lookup in Ho'. apply fmap_Some in Ho' as (o & Ho & ->).
    apply after_graph; [by apply after_old|by apply after_object].
  - apply HC.
Qed.

Lemma after_well_formed :
  well_formed (graph after) (all_roots USE_TAGGING (map_world USE_TAGGING f w) after).
Proof.
  apply (image_well_formed (graph m) _ (all_roots USE_TAGGING w m) _ f).
  - intros p Hp. unfold all_roots in Hp. cbn in Hp. rewrite app_nil_r in Hp.
    apply roots_map in Hp as (q & Hq & ->). exists q. split; [|done].
    unfold all_roots. apply elem_of_app. by left.
  - intros l o' Rl Ho'. rewrite graph_lookup in Ho'. apply fmap_Some in Ho' as (o & Ho & ->).
    apply after_graph; [by apply after_old|by apply after_object].
  - apply HC.
Qed.

Lemma after_consistent : consistent USE_TAGGING (map_world USE_TAGGING f w) after.
Proof.
  pose proof HC as [HF _ _ HM HG _ _ _ _ _ _]. pose proof (progress_copying _ _ _ _ _ _ _ HP) as C.
  assert (forall n, n ∈ alloc after -> is_Some (objects after !! n) /\ gc_of after n = 2) as HA.
  { intros n Hn. destruct (decide (n ∈ alloc m)) as [H|H].
    - destruct (HM n H) as [[o Ho] _]. destruct (copying_old _ _ _ _ _ _ C n o H Ho) as [g E].
      split; [by eexists|]. destruct (decide (n ∈ rem)) as [Hr|Hr].
      + by apply (progress_done _ _ _ _ _ _ _ HP n o (proj2 (elem_of_rev n) Hr) Ho).
      + by destruct (copying_old_field _ _ _ _ _ _ C n H) as [?|[_ ?]].
    - destruct (copying_new _ _ _ _ _ _ C n Hn H) as (G & _ & _ & Hpos & l & Rl & Hy & E).
      split; [|done]. destruct (copying_moved _ _ _ _ _ _ C l Rl Hy) as (_ & _ & o & g & _ & E2); [lia|].
      rewrite E in E2. by eexists. }
  split.
  - cbn. by destruct (frame w), HF.
  - cbn. by rewrite (copying_data _ _ _ _ _ _ C).
  - apply (copying_nodup _ _ _ _ _ _ C).
  - intros n Hn. split; [by apply HA|]. rewrite after_young. by apply after_not_young.
  - intros n Hn. rewrite decide_False by apply not_elem_of_nil. by apply HA.
  - constructor.
  - by intros l Hl%elem_of_nil.
  - intros n o l Hn Ho Hl Hy. rewrite after_young in Hy. by destruct (after_pointers n o l Hn Ho Hl).
  - intros n (l & Rl & ->)%after_reachable. left. by apply after_old.
  - intros n fr (l & Rl & ->)%after_reachable Hy. rewrite after_young in Hy.
    by destruct (after_not_young _ (after_old l Rl)).
  - apply after_well_formed.
Qed.

End After.

(** What a collection does: old objects stay, objects of the nursery that can be reached
    become old, at different places, with the same contents. *)
Record promoted (m' : Mem GenerationalHeap) (f : loc -> loc) : Prop := mkPromoted {
  promoted_fixed l : l ∈ alloc m -> f l = l;
  promoted_old l : R l -> f l ∈ alloc m';
  promoted_injective l l' : R l -> R l' -> f l = f l' -> l = l';
  promoted_object l o : R l -> objects m !! l = Some o ->
    objects m' !! f l = Some (map_object f (as_moved d0 l o)) }.

Lemma minor_collects :
  exists f m', MinorCollection sizeof USE_TAGGING malloc w m = Ok (map_world USE_TAGGING f w, m')
    /\ promoted m' f
    /\ (forall n, n ∈ alloc m' <-> n ∈ alloc m \/ exists l, R l /\ young d0 l /\ f l = n)
    /\ consistent USE_TAGGING (map_world USE_TAGGING f w) m'
    /\ oldObjsWithRefToYoungObjs (heap_data m') = []
    /\ nextFreePosition (heap_data m') = nursery (heap_data m')
    /\ gcWasRequested (heap_data m') = gcWasRequested d0
    /\ majorCollectionThreshold (heap_data m') = majorCollectionThreshold d0.
Proof.
  destruct minor_walk as (m1 & m2 & E1 & D1 & E2 & HP & HS).
  exists (fwd m2), (after m2). split.
  { unfold MinorCollection. rewrite (bind_step _ _ _ _ _ (gets_step _ _)).
    rewrite (bind_step _ _ _ _ _ E1), (bind_step _ _ _ _ _ (gets_step _ _)), D1.
    rewrite (bind_step _ _ _ _ _ E2), (bind_step _ _ _ _ _ (gen_update_step _ _)).
    rewrite (bind_step _ _ _ _ _ (gen_update_step _ _)). unfold after. cbn.
    by rewrite (copying_data _ _ _ _ _ _ (progress_copying _ _ _ _ _ _ _ HP)). }
  split; [|split; [|split; [|split; [done|split; [|split; [done|]]]]]].
  - split; [by eapply after_fixed|by eapply after_old|by eapply after_injective|by eapply after_object].
  - intros n. split; [by eapply after_only|].
    intros [Hn|(l & Rl & _ & <-)]; [|by eapply after_old].
    by apply (copying_alloc _ _ _ _ _ _ (progress_copying _ _ _ _ _ _ _ HP)).
  - by eapply after_consistent.
  - cbn. by rewrite (copying_data _ _ _ _ _ _ (progress_copying _ _ _ _ _ _ _ HP)).
  - cbn. by rewrite (copying_data _ _ _ _ _ _ (progress_copying _ _ _ _ _ _ _ HP)).
Qed.

End MinorCollection.

(** ** The major collection *)

Definition is_mark (g : nat) : bool := negb (Nat.land g MASK_OBJECT_IS_MARKED =? 0).

Lemma major_mark_object : marks is_mark 3 mark_object.
Proof. by intros fuel p. Qed.

Lemma major_sweep objs surv (m : Mem GenerationalHeap) :
  NoDup objs -> (forall l, l ∈ objs -> is_Some (objects m !! l)) ->
  exists m', sweep objs surv m = Ok (surv ++ filter (has_mark is_mark m) objs, m')
    /\ swept is_mark 2 m m' objs.
Proof.
  revert surv m. induction objs as [|l r IH]; intros surv m HN HS.
  { exists m. rewrite app_nil_r. split; [done|apply swept_nil]. }
  apply NoDup_cons in HN as [Hl HN]. destruct (HS l ltac:(set_solver)) as [o Ho]. cbn [sweep].
  rewrite (bind_step _ _ _ _ _ (GetGCField_step _ _ _ Ho)), filter_cons.
  assert (forall m1 surv', swept1 is_mark 2 m m1 l ->
    exists m', sweep r surv' m1 = Ok (surv' ++ filter (has_mark is_mark m) r, m')
    /\ swept is_mark 2 m m' (l :: r)) as HR.
  { intros m1 surv' H1.
    destruct (IH surv' m1 HN (swept1_objects _ _ _ _ _ _ Hl H1 HS)) as (m' & E' & HS').
    exists m'. rewrite E', (swept1_filter _ _ _ _ _ _ Hl H1).
    split; [done|by apply (swept_cons _ _ m m1)]. }
  change (negb (Nat.land (gc_of m l) MASK_OBJECT_IS_MARKED =? 0)) with (is_mark (gc_of m l)).
  destruct (is_mark (gc_of m l)) eqn:Hm.
  - rewrite (decide_True (P := has_mark is_mark m l)) by done.
    rewrite (bind_step _ _ _ _ _ (SetGCField_step _ _ _ _ Ho)).
    destruct (HR _ (surv ++ [l]) (swept1_keep _ _ _ _ _ Ho Hm)) as (m' & E' & HS').
    exists m'. unfold MASK_OBJECT_IS_OLD. rewrite E', <- app_assoc. done.
  - assert (~ has_mark is_mark m l) as Hn by (unfold has_mark; by rewrite Hm).
    rewrite (decide_False (P := has_mark is_mark m l)) by done.
    unfold FreeObject. rewrite (bind_step _ _ _ _ _ (modify_step _ _)).
    apply HR. by apply swept1_free.
Qed.

Section MajorCollection.

Context (USE_TAGGING : bool) (w : World) (m : Mem GenerationalHeap)
  (HC : consistent USE_TAGGING w m)
  (HE : oldObjsWithRefToYoungObjs (heap_data m) = [])
  (HN : nextFreePosition (heap_data m) = nursery (heap_data m)).

Notation alloc m := (allocatedObjects (heap_data m)).
Notation rs := (roots USE_TAGGING w).

Lemma major_roots : all_roots USE_TAGGING w m = rs.
Proof. unfold all_roots. rewrite HE. apply app_nil_r. Qed.

(** The nursery is empty. *)
Lemma major_reachable_old l : reachable (graph m) rs l -> l ∈ alloc m.
Proof.
  intros Rl. rewrite <- major_roots in Rl.
  destruct (consistent_reach _ _ _ HC l Rl) as [|(Hy & Hlt & _)]; [done|]. unfold young in Hy. lia.
Qed.

Lemma major_graph l : l ∈ alloc m -> graph m !! l = objects m !! l.
Proof.
  intros Hl. destruct (consistent_mature _ _ _ HC l Hl) as [[o Ho] Hy].
  rewrite graph_lookup, Ho. cbn. unfold as_moved. by rewrite decide_False.
Qed.

Lemma major_reachable l : reachable (objects m) rs l <-> reachable (graph m) rs l.
Proof.
  symmetry. apply reachable_restrict. intros x Rx. symmetry. by apply major_graph, major_reachable_old.
Qed.

Lemma major_well_formed : well_formed (objects m) rs.
Proof.
  apply (well_formed_restrict (graph m)).
  - intros x Rx. symmetry. by apply major_graph, major_reachable_old.
  - pose proof (consistent_pointers _ _ _ HC) as H. by rewrite major_roots in H.
Qed.

Lemma major_unmarked l : l ∈ alloc m -> ~ has_mark is_mark m l.
Proof.
  intros Hl. unfold has_mark. rewrite (consistent_fields _ _ _ HC l Hl), HE.
  by rewrite decide_False by apply not_elem_of_nil.
Qed.

Lemma major_collects :
  exists m', MajorCollection USE_TAGGING w m = Ok (w, m')
    /\ (forall l, l ∈ alloc m' <-> reachable (objects m) rs l)
    /\ (forall l, l ∈ alloc m -> objects m' !! l =
          if decide (l ∈ alloc m') then objects m !! l else None)
    /\ consistent USE_TAGGING w m'
    /\ heap_data m' = with_mature (matureObjectsSize (heap_data m)) (alloc m') (heap_data m).
Proof.
  pose proof HC as [HF HX HND HM HG _ _ HB _ _ HW].
  destruct (mark_globals is_mark 3 eq_refl mark_object major_mark_object _ _ major_well_formed
    USE_TAGGING w m HF eq_refl eq_refl) as (m1 & E1 & O1 & D1 & R1 & G1).
  { intros l Rl. by apply major_unmarked, major_reachable_old, major_reachable. }
  destruct (major_sweep (alloc m) [] m1 HND) as (m2 & E2 & D2 & O2 & G2).
  { intros l Hl. rewrite O1. by apply HM. }
  set (m' := mkMem (objects m2) (gcfields m2)
    (with_mature (matureObjectsSize (heap_data m)) (filter (has_mark is_mark m1) (alloc m)) (heap_data m))).
  exists m'. split.
  { unfold MajorCollection. rewrite (bind_step _ _ _ _ _ (gets_step _ _)), (bind_step _ _ _ _ _ E1).
    rewrite (bind_step _ _ _ _ _ (gets_step _ _)), D1, (bind_step _ _ _ _ _ E2).
    rewrite (bind_step _ _ _ _ _ (gen_update_step _ _)). unfold m'. by rewrite D2, D1. }
  assert (forall l, l ∈ alloc m' <-> reachable (objects m) rs l) as HA.
  { intros l. cbn. rewrite list_elem_of_filter. split.
    - intros [Hm Hl]. apply R1; [by apply major_unmarked|done].
    - intros Rl. assert (l ∈ alloc m) as Hl by (by apply major_reachable_old, major_reachable).
      split; [|done]. apply R1; [by apply major_unmarked|done]. }
  assert (forall l, l ∈ alloc m -> objects m' !! l =
    if decide (l ∈ alloc m') then objects m !! l else None) as HO.
  { intros l Hl. change (objects m' !! l) with (objects m2 !! l). rewrite O2, O1.
    pose proof (R1 l (major_unmarked l Hl)) as E. rewrite <- HA in E.
    repeat case_decide; tauto. }
  assert (forall l, l ∈ alloc m' -> l ∈ alloc m) as HS by (intros l; cbn; rewrite list_elem_of_filter; tauto).
  assert (forall l, l ∈ alloc m' -> objects m' !! l = objects m !! l) as HK.
  { intros l Hl. rewrite HO by auto. by rewrite decide_True. }
  split; [done|]. split; [done|]. split; [|done].
  assert (forall l, reachable (graph m) rs l -> graph m' !! l = graph m !! l) as HGr.
  { intros l Rl. rewrite !graph_lookup, HK; [done|]. by apply HA, major_reachable. }
  assert (all_roots USE_TAGGING w m' = rs) as Hrs by exact major_roots.
  split; rewrite ?Hrs.
  - done.
  - done.
  - by apply NoDup_filter.
  - intros l Hl. rewrite HK by done. by apply HM, HS.
  - intros l Hl. cbn [heap_data m' with_mature oldObjsWithRefToYoungObjs]. rewrite HE.
    rewrite decide_False by apply not_elem_of_nil. change (gc_of m2 l = 2). rewrite G2.
    rewrite decide_True by auto. rewrite decide_True; [done|].
    apply R1; [by apply major_unmarked; auto|by apply HA].
  - cbn. rewrite HE. constructor.
  - cbn. rewrite HE. by intros l Hl%elem_of_nil.
  - intros l o l' Hl. rewrite HK by done. apply HB. auto.
  - intros l Rl. left. apply HA, major_reachable. by apply (reachable_restrict _ _ _ HGr) in Rl.
  - intros l fr Rl Hy. apply (reachable_restrict _ _ _ HGr), major_reachable_old in Rl.
    by destruct (HM l Rl) as [_ []].
  - apply (well_formed_restrict _ _ _ HGr). by rewrite <- major_roots.
Qed.

End MajorCollection.

(** ** Collections *)

Lemma consistent_requested USE_TAGGING w m b :
  consistent USE_TAGGING w m ->
  consistent USE_TAGGING w (mkMem (objects m) (gcfields m)
    (with_nursery (nextFreePosition (heap_data m)) b (heap_data m))).
Proof. intros []. by split. Qed.

Lemma consistent_threshold USE_TAGGING w m n :
  consistent USE_TAGGING w m ->
  consistent USE_TAGGING w (mkMem (objects m) (gcfields m) (with_threshold n (heap_data m))).
Proof. intros []. by split. Qed.

(** What the variables of the machine lead to, and what a minor collection finds: also
    what the old objects on the list of the write barrier lead to. *)
Definition live (USE_TAGGING : bool) (w : World) (m : Mem GenerationalHeap) : loc -> Prop :=
  reachable (graph m) (roots USE_TAGGING w).

Definition found (USE_TAGGING : bool) (w : World) (m : Mem GenerationalHeap) : loc -> Prop :=
  reachable (graph m) (all_roots USE_TAGGING w m).

(** The effect of a collection; the object at [l] is at [f l] afterwards. *)
Record collected (USE_TAGGING : bool) (w : World) (m m' : Mem GenerationalHeap) (f : loc -> loc) : Prop :=
  mkCollected {
    (** Old objects stay where they are, and no two objects get to the same place. *)
    collected_fixed l : l ∈ allocatedObjects (heap_data m) -> f l = l;
    collected_injective l l' : 
      live USE_TAGGING w m l -> live USE_TAGGING w m l' -> f l = f l' -> l = l';
    (** What is live is old afterwards and has the same contents, up to pointers. *)
    collected_live l o : live USE_TAGGING w m l -> objects m !! l = Some o ->
      f l ∈ allocatedObjects (heap_data m')
      /\ objects m' !! f l = Some (map_object f (as_moved (heap_data m) l o));
    (** Without a major collection all old objects stay, and exactly the objects of the
        nursery that were found become old. *)
    collected_minor n : matureObjectsSize (heap_data m') <= majorCollectionThreshold (heap_data m) ->
      n ∈ allocatedObjects (heap_data m') <->
      n ∈ allocatedObjects (heap_data m)
      \/ exists l, found USE_TAGGING w m l /\ young (heap_data m) l /\ f l = n;
    (** With a major one exactly what is live stays. *)
    collected_major n : majorCollectionThreshold (heap_data m) < matureObjectsSize (heap_data m') ->
      n ∈ allocatedObjects (heap_data m') <-> exists l, live USE_TAGGING w m l /\ f l = n;
    collected_threshold :
      majorCollectionThreshold (heap_data m') =
        if majorCollectionThreshold (heap_data m) <? matureObjectsSize (heap_data m')
        then 2 * matureObjectsSize (heap_data m') else majorCollectionThreshold (heap_data m);
    collected_nursery : nextFreePosition (heap_data m') = nursery (heap_data m');
    collected_requested : gcWasRequested (heap_data m') = false;
    collected_consistent : consistent USE_TAGGING (map_world USE_TAGGING f w) m' }.

Lemma collect_promotes sizeof USE_TAGGING malloc w (m : Mem GenerationalHeap) :
  malloc_ok malloc -> never_null malloc -> consistent USE_TAGGING w m ->
  exists f m', Collect sizeof USE_TAGGING malloc w m = Ok (map_world USE_TAGGING f w, m')
    /\ collected USE_TAGGING w m m' f.
Proof.
  intros HM HS HC. set (L := live USE_TAGGING w m).
  pose proof (consistent_requested _ _ _ false HC) as HC0. set (m0 := mkMem _ _ _) in HC0.
  destruct (minor_collects sizeof USE_TAGGING malloc HM HS w m0 HC0)
    as (f & m1 & E1 & [PF PO PI PC] & A1 & C1 & R1 & N1 & G1 & T1).
  assert (roots USE_TAGGING w ⊆ all_roots USE_TAGGING w m0) as Hrs
    by (intros p Hp; unfold all_roots; apply elem_of_app; by left).
  assert (forall l, L l -> reachable (graph m0) (all_roots USE_TAGGING w m0) l) as HL
    by (intros l; by apply reachable_mono).
  assert (forall l o, L l -> graph m !! l = Some o -> graph m1 !! f l = Some (map_object f o)) as HI.
  { intros l o' Hl Ho'. change (graph m) with (graph m0) in Ho'. rewrite graph_lookup in Ho'.
    apply fmap_Some in Ho' as (o & Ho & ->). rewrite graph_lookup, (PC l o (HL l Hl) Ho). cbn. f_equal.
    unfold as_moved at 1. rewrite decide_False; [done|].
    by apply (consistent_mature _ _ _ C1 _ (PO l (HL l Hl))). }
  assert (forall n, reachable (graph m1) (roots USE_TAGGING (map_world USE_TAGGING f w)) n ->
    exists l, L l /\ f l = n) as HB.
  { intros n Hn. destruct (image_reachable (graph m) (graph m1) (roots USE_TAGGING w)
      (roots USE_TAGGING (map_world USE_TAGGING f w)) f) with n
      as (l & Hl & ->); [intros p; apply roots_map|done| |done|by exists l].
    by apply (well_formed_mono _ _ _ Hrs), HC0. }
  assert (forall l, L l -> reachable (graph m1) (roots USE_TAGGING (map_world USE_TAGGING f w)) (f l)) as HFw.
  { intros l. apply (image_forward (graph m)); [done|]. intros q. apply roots_map_back.
    intros x x' Hx Hx'. by apply PI; apply HL, reachable_root. }
  unfold Collect. rewrite (bind_step _ _ _ _ _ (gen_update_step _ _)).
  rewrite (bind_step _ _ _ _ _ E1), (bind_step _ _ _ _ _ (gets_step _ _)), T1.
  change (majorCollectionThreshold (heap_data m0)) with (majorCollectionThreshold (heap_data m)).
  destruct (Nat.ltb_spec (majorCollectionThreshold (heap_data m)) (matureObjectsSize (heap_data m1))) as [Hlt|Hge].
  - destruct (major_collects USE_TAGGING _ m1 C1 R1 N1) as (m2 & E2 & A2 & O2 & C2 & D2).
    rewrite (bind_step _ _ _ _ _ E2), (bind_step _ _ _ _ _ (gen_update_step _ _)).
    eexists f, _. split; [reflexivity|].
    assert (forall n, n ∈ allocatedObjects (heap_data m2) <-> exists l, L l /\ f l = n) as HA.
    { intros n. rewrite A2, (major_reachable USE_TAGGING _ m1 C1 R1 N1).
      split; [apply HB|]. intros (l & Hl & <-). auto. }
    split; cbn [heap_data objects].
    + done.
    + intros l l' Hl Hl'. by apply PI; apply HL.
    + intros l o Hl Ho. split; [apply HA; by exists l|]. rewrite O2 by (by apply PO, HL).
      rewrite decide_True by (apply HA; by exists l). by apply PC; auto.
    + intros n. cbn. rewrite D2. cbn. lia.
    + intros n _. apply HA.
    + rewrite D2. cbn - [Nat.ltb]. by rewrite (proj2 (Nat.ltb_lt _ _) Hlt).
    + cbn. by rewrite D2.
    + cbn. by rewrite D2.
    + by apply consistent_threshold.
  - exists f, m1. split; [done|]. split; try done.
    + intros l l' Hl Hl'. by apply PI; apply HL.
    + intros l o Hl Ho. split; [by apply PO, HL|by apply PC; auto].
    + intros n ?. lia.
    + by rewrite (proj2 (Nat.ltb_ge _ _) Hge).
Qed.

(** ** [malloc] that fails

    A collection with a [malloc] that returns null in some cases ends with the error of
    [AllocateMatureObject], or as it does with one that returns other memory in these
    cases. *)

(** [m] fails with [no_memory] or does the same as [m']. *)
Definition fails_or {S A} (m m' : stateful S A) : Prop :=
  forall s, m s = Err no_memory \/ m s = m' s.

Lemma fails_or_refl {S A} (m : stateful S A) : fails_or m m.
Proof. by right. Qed.

Lemma fails_or_bind {S A B} (m m' : stateful S A) (k k' : A -> stateful S B) :
  fails_or m m' -> (forall a, fails_or (k a) (k' a)) -> fails_or (m ≫= k) (m' ≫= k').
Proof.
  intros Hm Hk s. unfold mbind, stateful_bind. destruct (Hm s) as [->| ->]; [by left|].
  destruct (m' s) as [[a s']|e]; [apply Hk|by right].
Qed.

Create HintDb fails_or discriminated.

Ltac fails_or :=
  intros; repeat lazymatch goal with
  | |- fails_or ?m ?m => apply fails_or_refl
  | |- fails_or _ _ =>
      first [ solve [eauto 3 with fails_or nocore]
            | apply fails_or_bind; [|intros ?]
            | match goal with |- fails_or (match ?x with _ => _ end) _ => destruct x end ]
  end.

Section FailingWalk.

Context (USE_TAGGING : bool) (walk walk' : oop -> stateful (Mem GenerationalHeap) oop)
  (Hwalk : forall p, fails_or (walk p) (walk' p)).
#[local] Hint Resolve Hwalk : fails_or.

Lemma fails_or_walk_list ps : fails_or (walk_list walk ps) (walk_list walk' ps).
Proof. induction ps as [|p r IH]; cbn [walk_list]; fails_or. Qed.
Lemma fails_or_walk_nonnull p : fails_or (walk_nonnull walk p) (walk_nonnull walk' p).
Proof. unfold walk_nonnull. fails_or. Qed.
#[local] Hint Resolve fails_or_walk_list fails_or_walk_nonnull : fails_or.
Lemma fails_or_walk_nonnulls ps : fails_or (walk_nonnulls walk ps) (walk_nonnulls walk' ps).
Proof. induction ps as [|p r IH]; cbn [walk_nonnulls]; fails_or. Qed.
Lemma fails_or_walk_loc l : fails_or (walk_loc walk l) (walk_loc walk' l).
Proof. unfold walk_loc. fails_or. Qed.
#[local] Hint Resolve fails_or_walk_nonnulls fails_or_walk_loc : fails_or.
Lemma fails_or_walk_cache n c : fails_or (walk_cache walk n c) (walk_cache walk' n c).
Proof. revert c. induction n as [|n IH]; intros [|[? ?] r]; cbn [walk_cache]; fails_or. Qed.
Lemma fails_or_walk_option o : fails_or (walk_option walk o) (walk_option walk' o).
Proof. unfold walk_option. fails_or. Qed.
Lemma fails_or_walk_invokable s h : fails_or (walk_invokable walk s h) (walk_invokable walk' s h).
Proof. unfold walk_invokable. fails_or. Qed.
#[local] Hint Resolve fails_or_walk_cache fails_or_walk_option fails_or_walk_invokable : fails_or.

Lemma fails_or_WalkObjects l : fails_or (WalkObjects walk l) (WalkObjects walk' l).
Proof.
  unfold WalkObjects, walk_object, walk_symbol, walk_fields, walk_frame, walk_method, walk_trivial.
  fails_or.
Qed.

Lemma fails_or_WalkGlobals w : fails_or (WalkGlobals USE_TAGGING walk w) (WalkGlobals USE_TAGGING walk' w).
Proof.
  assert (forall gs acc, fails_or (walk_globals walk gs acc) (walk_globals walk' gs acc)) as Hg.
  { induction gs as [|[? ?] r IH]; intros acc; cbn [walk_globals]; fails_or. }
  assert (forall ss acc, fails_or (walk_symbols walk ss acc) (walk_symbols walk' ss acc)) as Hs.
  { induction ss as [|[? ?] r IH]; intros acc; cbn [walk_symbols]; fails_or. }
  assert (forall bs acc, fails_or (walk_blockClasses walk bs acc) (walk_blockClasses walk' bs acc)) as Hb.
  { induction bs as [|[? ?] r IH]; intros acc; cbn [walk_blockClasses]; fails_or. }
  unfold WalkGlobals, walk_known, WalkSymbols. fails_or.
Qed.

End FailingWalk.

(** The first address behind what is in use that is a multiple of 8. *)
Definition tiny_malloc (d : GenerationalHeap) (n : nat) : option loc :=
  Some (8 * S (max_list (nursery_end d :: allocatedObjects d) / 8)).

Lemma tiny_malloc_fine : malloc_ok tiny_malloc.
Proof.
  intros d n a E. set (k := max_list (nursery_end d :: allocatedObjects d)).
  assert (a = 8 * S (k / 8)) as -> by (unfold tiny_malloc in E; subst k; congruence). split; [lia|].
  split; [rewrite Nat.mul_comm; apply Nat.Div0.mod_mul|].
  assert (k < 8 * S (k / 8)) as Hk by (pose proof (Nat.div_mod_eq k 8); pose proof (Nat.mod_upper_bound k 8); lia).
  assert (forall x, x ∈ nursery_end d :: allocatedObjects d -> x <= k) as Hm
    by (intros x Hx; by apply max_list_elem_of_le).
  split.
  - intros [_ H]. pose proof (Hm (nursery_end d) ltac:(set_solver)). lia.
  - intros H. pose proof (Hm (8 * S (k / 8)) ltac:(set_solver)). lia.
Qed.

Section FailingMalloc.

Context (sizeof : cxx_class -> nat) (USE_TAGGING : bool)
  (malloc : GenerationalHeap -> nat -> option loc) (malloc_fine : malloc_ok malloc).

Definition unfailing (d : GenerationalHeap) (n : nat) : option loc :=
  match malloc d n with Some a => Some a | None => tiny_malloc d n end.

Lemma unfailing_fine : malloc_ok unfailing.
Proof.
  intros d n a. unfold unfailing. destruct (malloc d n) as [b|] eqn:E; [|apply tiny_malloc_fine].
  intros [= <-]. by apply (malloc_fine d n).
Qed.

Lemma unfailing_never_null : never_null unfailing.
Proof. intros d n. unfold unfailing. destruct (malloc d n); by eexists. Qed.

Lemma fails_or_AllocateMatureObject n :
  fails_or (AllocateMatureObject malloc n) (AllocateMatureObject unfailing n).
Proof.
  intros m. unfold AllocateMatureObject, unfailing. rewrite !(bind_step _ _ _ _ _ (gets_step _ _)).
  destruct (malloc _ n); [by right|by left].
Qed.

Lemma fails_or_copy fuel p :
  fails_or (copy_if_necessary sizeof malloc fuel p) (copy_if_necessary sizeof unfailing fuel p).
Proof.
  revert p. induction fuel as [|fuel IH]; intros p; cbn [copy_if_necessary]; [fails_or|].
  pose proof (fails_or_WalkObjects _ _ IH). pose proof fails_or_AllocateMatureObject.
  unfold CloneForMovingGC, HeapWalk.CloneForMovingGC, operator_new. fails_or.
Qed.

Lemma fails_or_Collect w : fails_or (Collect sizeof USE_TAGGING malloc w) (Collect sizeof USE_TAGGING unfailing w).
Proof.
  assert (forall fuel ls, fails_or (walk_remembered sizeof malloc fuel ls)
    (walk_remembered sizeof unfailing fuel ls)) as Hr.
  { intros fuel. pose proof (fails_or_WalkObjects _ _ (fails_or_copy fuel)).
    induction ls as [|l ls IH]; cbn [walk_remembered]; fails_or. }
  pose proof (fun fuel => fails_or_WalkGlobals USE_TAGGING _ _ (fails_or_copy fuel)).
  unfold Collect, MinorCollection. fails_or.
Qed.

Lemma collect_or_fail w m :
  consistent USE_TAGGING w m ->
  (exists f m', Collect sizeof USE_TAGGING malloc w m = Ok (map_world USE_TAGGING f w, m')
     /\ collected USE_TAGGING w m m' f)
  \/ Collect sizeof USE_TAGGING malloc w m = Err no_memory.
Proof.
  intros HC. destruct (fails_or_Collect w m) as [E|E]; [by right|left]. rewrite E.
  by apply collect_promotes; [apply unfailing_fine|apply unfailing_never_null|].
Qed.

End FailingMalloc.


(** *** Example *)

(** Four objects in the nursery and an old string that nothing refers to. *)
Definition tiny_memory (threshold : nat) : Mem GenerationalHeap :=
  mkMem (tiny_objects 8 32 64 80 200) {[ 200 := 2 ]}
    (mkGenerationalHeap 8 136 128 64 16 112 120 [] [200] true threshold).

Lemma tiny_consistent threshold : consistent true (tiny_world 8 32 64 80) (tiny_memory threshold).
Proof.
  assert (forall l o, objects (tiny_memory threshold) !! l = Some o ->
    (l, o) ∈ map_to_list (tiny_objects 8 32 64 80 200)) as HO.
  { intros l o Ho. by apply elem_of_map_to_list. }
  set (es := map_to_list (tiny_objects 8 32 64 80 200)) in HO. vm_compute in es. subst es.
  assert (well_formed (graph (tiny_memory threshold))
    (all_roots true (tiny_world 8 32 64 80) (tiny_memory threshold))) as HW.
  { apply well_formed_closed; [by apply (bool_decide_unpack _)|by vm_compute]. }
  assert (forall l, reachable (graph (tiny_memory threshold))
    (all_roots true (tiny_world 8 32 64 80) (tiny_memory threshold)) l ->
    l ∈ [8; 32; 64; 80]) as HR.
  { intros l. induction 1 as [l Hl|l o l' _ IH Ho Hl'].
    - assert (forallb (fun p => match p with Ref l => bool_decide (l ∈ [8; 32; 64; 80]) | _ => true end)
        (all_roots true (tiny_world 8 32 64 80) (tiny_memory threshold)) = true) as HF by (by vm_compute).
      rewrite forallb_forall in HF. apply list_elem_of_In, HF in Hl. by apply bool_decide_eq_true in Hl.
    - repeat (apply elem_of_cons in IH as [->|IH];
        [vm_compute in Ho; injection Ho as <-; cbn in Hl'; set_solver|]). by apply elem_of_nil in IH. }
  split; cbn [heap_data tiny_memory allocatedObjects oldObjsWithRefToYoungObjs].
  - by exists 80.
  - cbn. lia.
  - apply NoDup_singleton.
  - intros l ->%list_elem_of_singleton. split; [by eexists|]. unfold young. cbn. lia.
  - by intros l ->%list_elem_of_singleton.
  - constructor.
  - by intros l Hl%elem_of_nil.
  - intros l o l' ->%list_elem_of_singleton Ho. vm_compute in Ho. injection Ho as <-. by intros ?%elem_of_nil.
  - intros l Rl%HR. right. unfold young. cbn.
    repeat (apply elem_of_cons in Rl as [->|Rl]; [split; [lia|]; split; [lia|done]|]).
    by apply elem_of_nil in Rl.
  - intros l f _ _ Hf%HO. repeat (apply elem_of_cons in Hf as [[=]|Hf]).
    all: try by apply elem_of_nil in Hf.
    subst. split; [by apply not_elem_of_nil|]. by eexists.
  - done.
Qed.


Definition old_objects (r : result (World * Mem GenerationalHeap)) : option (list loc) :=
  match r with
  | Ok (_, m) => Some (allocatedObjects (heap_data m))
  | Err _ => None
  end.

(** The string is freed by a major collection. *)
Example tiny_collections :
  old_objects (Collect (fun _ => 8) true tiny_malloc (tiny_world 8 32 64 80) (tiny_memory 100))
    = Some [208; 216; 224; 232] /\
  old_objects (Collect (fun _ => 8) true tiny_malloc (tiny_world 8 32 64 80) (tiny_memory 1000))
    = Some [200; 208; 216; 224; 232].
Proof. by vm_compute. Qed.

Example collection_without_memory :
  Collect (fun _ => 8) true (fun _ _ => None) (tiny_world 8 32 64 80) (tiny_memory 100) = Err no_memory.
Proof. by vm_compute. Qed.

End Generational.
