(* ===== verification/DebugCopying.v ===== *)
(** * The copying collector for debugging

    [src/src/memory/DebugCopyingHeap.cpp] and [DebugCopyingCollector.cpp]: like the copying
    collector, but every object comes from [malloc], so that a memory checker finds the use
    of an object that was moved.  The two halves of the heap are lists of objects. *)
From Stdlib Require Import Ascii String.
From S2P Require Import Prelude Objects Universe HeapWalk.
Local Open Scope nat_scope.

Module DebugCopying.

Record DebugCopyingHeap : Type := mkDebugCopyingHeap {
  currentHeap : list loc;
  currentHeapSize : nat;
  currentHeapUsage : nat;
  collectionLimit : nat;
  oldHeap : list loc;
  oldHeapSize : nat;
  oldHeapIsValid : bool;
  gcWasRequested : bool;
  increaseMemory : bool }.

Notation DM := (stateful (Mem DebugCopyingHeap)).

Definition new_DebugCopyingHeap (objectSpaceSize : nat) : DebugCopyingHeap :=
  mkDebugCopyingHeap [] objectSpaceSize 0 (ninety_percent objectSpaceSize) [] 0 false false false.

Definition update_data (f : DebugCopyingHeap -> DebugCopyingHeap) : DM () :=
  modify (fun m => mkMem (objects m) (gcfields m) (f (heap_data m))).

Section DebugCopying.

Context (sizeof : cxx_class -> nat) (USE_TAGGING : bool).

(** [malloc] returns null or a location where no object is. *)
Context (malloc : gmap loc obj -> nat -> option loc).

Definition switchBuffers (increase : bool) : DM () :=
  update_data (fun d =>
    let newSize := if increase then currentHeapSize d + currentHeapSize d else currentHeapSize d in
    mkDebugCopyingHeap (oldHeap d) newSize 0
      (if increase then ninety_percent newSize else collectionLimit d)
      (currentHeap d) (currentHeapSize d) true (gcWasRequested d) (increaseMemory d)).

Definition free (l : loc) : DM () :=
  modify (fun m => mkMem (delete l (objects m)) (delete l (gcfields m)) (heap_data m)).

Fixpoint free_all (ls : list loc) : DM () :=
  match ls with [] => mret tt | l :: r => free l;; free_all r end.

Definition invalidateOldBuffer : DM () :=
  d ← gets heap_data;
  free_all (oldHeap d);;
  update_data (fun d =>
    mkDebugCopyingHeap (currentHeap d) (currentHeapSize d) (currentHeapUsage d) (collectionLimit d) []
      (if oldHeapSize d <? currentHeapSize d then currentHeapSize d else oldHeapSize d)
      false (gcWasRequested d) (increaseMemory d)).

(** Null is not looked for; the use of the object is undefined then. *)
Definition AllocateObject (size : nat) : DM loc :=
  m ← get;
  let d := heap_data m in
  let usage := currentHeapUsage d + size in
  if currentHeapSize d <? usage then fail (ErrorExit "Failed to allocate")
  else
    match malloc (objects m) size with
    | None => fail Undef
    | Some newObject =>
        set_heap_data (mkDebugCopyingHeap (currentHeap d ++ [newObject]) (currentHeapSize d) usage
          (collectionLimit d) (oldHeap d) (oldHeapSize d) (oldHeapIsValid d)
          (gcWasRequested d || (collectionLimit d <? usage)) (increaseMemory d));;
        mret newObject
    end.

Definition copy_if_necessary (p : oop) : DM oop :=
  match p with
  | Tagged _ => mret p
  | Null => fail Undef
  | Ref l =>
      gcField ← GetGCField l;
      if negb (gcField =? 0) then mret (Ref gcField)
      else
        newObj ← CloneForMovingGC sizeof AllocateObject l;
        SetGCField l newObj;;
        mret (Ref newObj)
  end.

(** The loop over the copies, by their index. *)
Fixpoint scan (fuel : nat) (i : nat) : DM () :=
  match fuel with
  | O => fail OutOfFuel
  | S fuel =>
      d ← gets heap_data;
      match currentHeap d !! i with
      | Some l => WalkObjects copy_if_necessary l;; scan fuel (i + 1)
      | None => mret tt
      end
  end.

Definition with_flags (requested increase : bool) (d : DebugCopyingHeap) : DebugCopyingHeap :=
  mkDebugCopyingHeap (currentHeap d) (currentHeapSize d) (currentHeapUsage d) (collectionLimit d)
    (oldHeap d) (oldHeapSize d) (oldHeapIsValid d) requested increase.

(** [increaseMemory] is a static variable. *)
Definition Collect (w : World) : DM World :=
  d ← gets heap_data;
  update_data (with_flags false (increaseMemory d));;
  switchBuffers (increaseMemory d);;
  update_data (fun d => with_flags (gcWasRequested d) false d);;
  n ← gets (fun m => size (objects m));
  w' ← WalkGlobals USE_TAGGING copy_if_necessary w;
  scan (S n) 0;;
  invalidateOldBuffer;;
  update_data (fun d =>
    if currentHeapSize d - currentHeapUsage d <? currentHeapUsage d
    then with_flags (gcWasRequested d) true d else d);;
  mret w'.

End DebugCopying.

(** ** A collection

    The objects of [tiny_objects]: the four that can be reached are copied, with the
    references between them, and everything else is freed. *)
Definition tiny_memory : Mem DebugCopyingHeap :=
  mkMem (tiny_objects 1 2 3 4 5) ∅
    (mkDebugCopyingHeap [1; 2; 3; 4; 5] 150 140 135 [] 0 false true false).

(** The location above all that are in use. *)
Definition next_location (h : gmap loc obj) (size : nat) : option loc :=
  Some (S (foldr Nat.max 0 (map_to_list h).*1)).

Definition moved (l : loc) : loc := match l with 1 => 6 | 2 => 8 | 3 => 7 | 4 => 9 | _ => l end.

(** A copy of a symbol has an empty cache. *)
Definition moved_objects : gmap loc obj :=
  <[7 := OSymbol (mkSymbol "run" [(Null, Null); (Null, Null); (Null, Null)] 0)]>
    (delete 0 (tiny_objects 6 8 7 9 0)).

Example debug_collection :
  exists m', Collect (fun _ => 8) true next_location (tiny_world 1 2 3 4) tiny_memory
      = Ok (map_world true moved (tiny_world 1 2 3 4), m')
    /\ objects m' = moved_objects
    /\ heap_data m' = mkDebugCopyingHeap [6; 7; 8; 9] 150 104 135 [] 150 false false true.
Proof. eexists. split; [vm_compute; reflexivity|]. split; vm_compute; reflexivity. Qed.

End DebugCopying.
