(* ===== verification/WriteBarrier.v ===== *)
(** * The write barrier

    What the running program may do between collections of the generational collector
    ([src/src/memory/GenerationalHeap.h], [vmobjects/ObjectFormats.h], [vm/Universe.cpp]):
    store pointers with the write barrier, allocate in the nursery and, for large arrays,
    outside of it, and change its variables.  All of it keeps the state that the
    collections need ([consistent]), so that a collection at any time succeeds, as long as
    there is memory. *)
From Stdlib Require Import Ascii String.
From S2P Require Import Prelude Objects Universe HeapWalk Marking Generational.
Import Generational.Generational.
Local Open Scope nat_scope.

Unset Default Proof Using.

(** ** The write barrier *)

(** [o'] is the object [o] after the pointers [ps] were stored in it, or after a change
    that stores none; a frame keeps its method, and a method its arguments. A copy of a
    symbol has an empty cache. *)
Record stores (ps : list oop) (o o' : obj) : Prop := mkStores {
  stores_pointers q : q ∈ pointers o' -> q ∈ ps \/ q ∈ pointers o;
  stores_clone q : q ∈ pointers (clone_of o') -> q ∈ ps \/ q ∈ pointers (clone_of o);
  stores_frame f : o' = OFrame f ->
    exists f0, o = OFrame f0 /\ f_method f = f_method f0 /\ f_locals f = f_locals f0;
  stores_method mth : o = OMethod mth ->
    exists mth', o' = OMethod mth' /\ m_numberOfArguments mth' = m_numberOfArguments mth }.

Lemma stores_field k c fs i p : stores [p] (OObject k c fs) (OObject k c (<[i := p]> fs)).
Proof.
  assert (forall q, q ∈ c :: <[i := p]> fs -> q ∈ [p] \/ q ∈ c :: fs) as H; [|by split].
  intros q. rewrite !elem_of_cons. intros [->|Hq]; [by right; left|].
  apply list_elem_of_lookup in Hq as [j [(_ & -> & _)|[_ Hj]]%list_lookup_insert_Some]; [by left; left|].
  right. right. by apply list_elem_of_lookup_2 with j.
Qed.

Lemma stores_class k c fs p : stores [p] (OObject k c fs) (OObject k p fs).
Proof. split; [..|done|done]; intros q; cbn; set_solver. Qed.

(** [VMInvokable::SetHolder] *)
Lemma stores_holder mth p :
  stores [p] (OMethod mth)
    (OMethod (mkMethod (m_signature mth) p (m_numberOfLocals mth) (m_maxStack mth) (m_bytecodes mth)
       (m_numberOfArguments mth) (m_constants mth) (m_scope mth) (m_inlinedLoops mth))).
Proof.
  assert (forall q, q ∈ nonnulls [p] -> q ∈ [p]) as H.
  { intros q. unfold nonnulls. rewrite list_elem_of_filter. tauto. }
  split.
  - intros q. cbn. set_solver.
  - intros q. cbn. set_solver.
  - done.
  - intros ? [= <-]. by eexists.
Qed.

(** [VMSymbol::UpdateCachedInvokable] *)
Lemma cache_pointers_insert n i c p1 p2 q :
  n <= S i -> q ∈ cache_pointers n (<[i := (p1, p2)]> c) -> q ∈ [p2; p1] \/ q ∈ cache_pointers i c.
Proof.
  revert n i. induction c as [|[x y] c IH]; intros [|n] i Hn Hq; try by apply elem_of_nil in Hq.
  destruct i as [|i]; cbn in Hq.
  - assert (n = 0) as -> by lia. cbn in Hq. set_solver.
  - rewrite !elem_of_cons in Hq. cbn [cache_pointers]. rewrite !elem_of_cons.
    destruct Hq as [?|[?|Hq]]; [tauto|tauto|].
    destruct (IH n i) as [H|H]; [lia|done| |tauto]. rewrite !elem_of_cons in H. tauto.
Qed.

Lemma stores_cache s cls invo :
  stores [invo; cls] (OSymbol s)
    (OSymbol (mkSymbol (sym_chars s) (<[sym_nextCachePos s := (cls, invo)]> (sym_cache s))
       ((sym_nextCachePos s + 1) mod 3))).
Proof.
  split; [|by intros q; right|done|done]. intros q. apply cache_pointers_insert. cbn [sym_nextCachePos].
  pose proof (Nat.Div0.mod_le (sym_nextCachePos s + 1) 3). lia.
Qed.

Section Barrier.

Context (USE_TAGGING : bool) (w : World) (m : Mem GenerationalHeap) (HC : consistent USE_TAGGING w m).
Notation d0 := (heap_data m).
Notation rem := (oldObjsWithRefToYoungObjs d0).
Notation alloc := (allocatedObjects d0).
Notation R := (reachable (graph m) (all_roots USE_TAGGING w m)).

(** What is reachable has the flags of an old object or is young. *)
Lemma reachable_field l :
  R l -> l ∈ alloc /\ gc_of m l = (if decide (l ∈ rem) then 6 else 2) \/ (l ∉ alloc) /\ young d0 l /\ gc_of m l = 0.
Proof.
  intros Rl. destruct (consistent_reach _ _ _ HC l Rl) as [Hl|(Hy & _ & G)].
  - left. split; [done|]. by apply (consistent_fields _ _ _ HC).
  - right. split; [|done]. intros Hl. by destruct (consistent_mature _ _ _ HC l Hl).
Qed.

Lemma in_nursery_young l : isObjectInNursery d0 (Ref l) = true <-> young d0 l.
Proof. unfold isObjectInNursery, young. cbn. rewrite andb_true_iff, Z.leb_le, Z.ltb_lt. lia. Qed.

(** The memory after the object [o] was stored and the pointers [ps] were passed to the
    barrier. *)
Definition remembers (l : loc) (ps : list oop) : bool :=
  bool_decide (l ∈ alloc) && negb (bool_decide (l ∈ rem)) && existsb (isObjectInNursery d0) ps.

Definition stored (l : loc) (o : obj) (ps : list oop) : Mem GenerationalHeap :=
  mkMem (<[l := o]> (objects m))
    (if remembers l ps then <[l := 6]> (gcfields m) else gcfields m)
    (if remembers l ps then with_remembered (rem ++ [l]) d0 else d0).

Lemma stored_start l o o' :
  objects m !! l = Some o -> store_object l o' m = Ok (tt, stored l o' []).
Proof.
  intros Ho. unfold store_object. rewrite Ho. unfold stored, remembers. cbn. by rewrite andb_false_r.
Qed.

Lemma stored_store l o o' ps :
  store_object l o' (stored l o ps) = Ok (tt, stored l o' ps).
Proof.
  unfold store_object, stored. cbn. by rewrite lookup_insert_eq, insert_insert_eq.
Qed.

Lemma stored_barrier l o ps p :
  R l -> writeBarrier l p (stored l o ps) = Ok (tt, stored l o (ps ++ [p])).
Proof.
  intros Rl. set (m1 := stored l o ps).
  assert (objects m1 !! l = Some o) as Ho1 by apply lookup_insert_eq.
  unfold writeBarrier. rewrite (bind_step _ _ _ _ _ (GetGCField_step _ _ _ Ho1)).
  assert (remembers l (ps ++ [p]) = remembers l ps || remembers l [p]) as ER.
  { unfold remembers. rewrite existsb_app. destruct (bool_decide _ && negb _), (existsb _ ps); done. }
  destruct (remembers l ps) eqn:E.
  { unfold m1, stored at 1, gc_of. rewrite E. cbn [gcfields]. rewrite lookup_insert_eq.
    unfold stored. by rewrite ER, E. }
  unfold m1, stored at 1, gc_of. rewrite E. cbn [gcfields]. fold (gc_of m l).
  cbn [orb] in ER. unfold remembers in ER at 2. cbn in ER. rewrite orb_false_r in ER.
  destruct (reachable_field l Rl) as [[Hl G]|(Hl & _ & G)]; rewrite G.
  2: { rewrite (bool_decide_eq_false_2 (l ∈ alloc)) in ER by done. unfold stored. by rewrite ER, E. }
  rewrite (bool_decide_eq_true_2 (l ∈ alloc)) in ER by done. case_decide as Hr.
  { rewrite (bool_decide_eq_true_2 (l ∈ rem)) in ER by done. unfold stored. by rewrite ER, E. }
  rewrite (bool_decide_eq_false_2 (l ∈ rem)) in ER by done. cbn [negb andb] in ER.
  change (Nat.land 2 6 =? 2) with true. cbn match. unfold writeBarrier_OldHolder.
  rewrite (bind_step _ _ _ _ _ (gets_step _ _)).
  assert (heap_data (stored l o ps) = d0) as D by (unfold stored; by rewrite E). rewrite D.
  destruct (isObjectInNursery d0 p); [|unfold stored; by rewrite ER, E].
  rewrite (bind_step _ _ _ _ _ (gen_update_step _ _)), D.
  erewrite bind_step; [|by apply (GetGCField_step l o)].
  erewrite SetGCField_step; [|exact Ho1]. unfold stored, gc_of. rewrite ER, E. cbn.
  fold (gc_of m l). by rewrite G.
Qed.

(** Storing [ps] into an object. A frame in the nursery relies on its method not being on
    the list of the barrier. *)
Section Store.

Context (l : loc) (o o' : obj) (ps : list oop)
  (Rl : R l) (Ho : objects m !! l = Some o) (Hp : Forall (valid R) ps)
  (Hoo : stores ps o o').
Notation m' := (stored l o' ps).

Lemma stored_data : nursery (heap_data m') = nursery d0 /\ nursery_end (heap_data m') = nursery_end d0
  /\ nextFreePosition (heap_data m') = nextFreePosition d0 /\ allocatedObjects (heap_data m') = alloc.
Proof. unfold stored. cbn. by destruct (remembers l ps). Qed.

Lemma stored_young x : young (heap_data m') x <-> young d0 x.
Proof. unfold young. destruct stored_data as (-> & -> & _). done. Qed.

Lemma stored_list x :
  x ∈ oldObjsWithRefToYoungObjs (heap_data m') <-> x ∈ rem \/ remembers l ps = true /\ x = l.
Proof.
  unfold stored. cbn. destruct (remembers l ps); cbn.
  - rewrite elem_of_app, list_elem_of_singleton. naive_solver.
  - naive_solver.
Qed.

Lemma remembers_true : remembers l ps = true -> l ∈ alloc /\ (l ∉ rem).
Proof.
  unfold remembers. rewrite !andb_true_iff, negb_true_iff, bool_decide_eq_true, bool_decide_eq_false.
  tauto.
Qed.

Lemma stored_graph x :
  graph m' !! x = if decide (x = l) then Some (as_moved d0 l o') else graph m !! x.
Proof.
  rewrite !graph_lookup. change (objects m') with (<[l := o']> (objects m)). case_decide as E.
  - subst. rewrite lookup_insert_eq. cbn. f_equal. unfold as_moved. apply decide_ext. apply stored_young.
  - rewrite lookup_insert_ne by done. destruct (objects m !! x); [|done]. cbn. f_equal.
    unfold as_moved. apply decide_ext. apply stored_young.
Qed.

Lemma stored_pointers q :
  q ∈ pointers (as_moved d0 l o') -> q ∈ ps \/ q ∈ pointers (as_moved d0 l o).
Proof. unfold as_moved. case_decide; apply Hoo. Qed.

Lemma stored_before : graph m !! l = Some (as_moved d0 l o).
Proof. by rewrite graph_lookup, Ho. Qed.

Lemma stored_valid q : q ∈ ps -> valid R q.
Proof. rewrite Forall_forall in Hp. apply Hp. Qed.

(** Nothing becomes reachable that was not. *)
Lemma stored_reachable x :
  reachable (graph m') (all_roots USE_TAGGING w m') x -> R x.
Proof.
  induction 1 as [x Hx|x ox x' _ IH Hxo Hx'].
  - unfold all_roots in Hx. apply elem_of_app in Hx as [Hx|(y & [= <-] & Hy)%list_elem_of_fmap].
    + apply reachable_root. unfold all_roots. apply elem_of_app. by left.
    + apply stored_list in Hy as [Hy|[_ ->]]; [|done]. by apply remembered_reachable.
  - rewrite stored_graph in Hxo. case_decide as E.
    + subst x. injection Hxo as <-.
      apply stored_pointers in Hx' as [Ep|Hx']; [by apply (stored_valid _ Ep)|].
      apply (reachable_step _ _ l _ _ Rl stored_before Hx').
    + by apply (reachable_step _ _ x ox).
Qed.

Lemma stored_well_formed : well_formed (graph m') (all_roots USE_TAGGING w m').
Proof.
  pose proof (consistent_pointers _ _ _ HC) as [HN HW]. split.
  - unfold all_roots. rewrite elem_of_app. intros [H|(y & [=] & _)%list_elem_of_fmap].
    apply HN. unfold all_roots. apply elem_of_app. by left.
  - intros x Rx%stored_reachable. rewrite stored_graph. case_decide as E; [|by apply HW]. subst x.
    eexists. split; [done|]. intros [Ep|H]%stored_pointers; [by apply (stored_valid _ Ep)|].
    destruct (HW l Rl) as (ol & E & HNo). rewrite stored_before in E. by injection E as <-.
Qed.

Lemma stored_consistent :
  (remembers l ps = true ->
     forall x f, R x -> young d0 x -> objects m !! x = Some (OFrame f) -> f_method f <> l) ->
  consistent USE_TAGGING w m'.
Proof.
  intros Hframes. pose proof HC as [HF HX HND HM HG HL HLO HB HR HFr HW].
  destruct stored_data as (E1 & E2 & E3 & E4). pose proof remembers_true as HRm.
  split; rewrite ?E1, ?E3, ?E4; try done.
  - intros x Hx. rewrite stored_young. destruct (HM x Hx) as [HS HY]. split; [|done].
    cbn. destruct (decide (l = x)) as [<-|?]; [rewrite lookup_insert_eq|rewrite lookup_insert_ne]; done.
  - intros x Hx. specialize (HG x Hx). unfold stored at 1. unfold gc_of. cbn [gcfields].
    destruct (remembers l ps) eqn:ER.
    + destruct (HRm eq_refl) as (Hl & Hr). destruct (decide (l = x)) as [<-|Hne].
      * rewrite lookup_insert_eq, decide_True; [done|]. apply stored_list. by right.
      * rewrite lookup_insert_ne by done. fold (gc_of m x). rewrite HG. apply decide_ext.
        rewrite stored_list. clear -Hne. naive_solver.
    + fold (gc_of m x). rewrite HG. apply decide_ext. rewrite stored_list, ER. clear. naive_solver.
  - unfold stored. cbn. destruct (remembers l ps) eqn:ER; [|done]. destruct (HRm eq_refl) as (Hl & Hr).
    cbn. apply NoDup_app. split; [done|]. split; [|apply NoDup_singleton].
    intros x Hx ->%list_elem_of_singleton. done.
  - intros x [Hx|[ER ->]]%stored_list; [auto|]. by destruct (HRm ER).
  - intros x ox x' Hx Hox Hx' Hy%stored_young. apply stored_list. cbn in Hox.
    destruct (decide (l = x)) as [<-|Hne]; [|rewrite lookup_insert_ne in Hox by done; left; by apply (HB x ox x')].
    rewrite lookup_insert_eq in Hox. injection Hox as <-.
    destruct (decide (l ∈ rem)) as [|Hr]; [by left|]. right. split; [|done].
    apply (stores_pointers _ _ _ Hoo) in Hx' as [Ep|Hx']; [|by destruct Hr; apply (HB l o x')].
    unfold remembers. rewrite bool_decide_eq_true_2, bool_decide_eq_false_2 by done. cbn.
    apply existsb_exists. exists (Ref x'). split; [by apply list_elem_of_In|by apply in_nursery_young].
  - intros x Rx%stored_reachable. destruct (HR x Rx) as [Hx|(Hy & Hlt & G)]; [by left|right].
    rewrite stored_young. split; [done|]. split; [done|]. unfold stored, gc_of. cbn [gcfields].
    destruct (remembers l ps) eqn:ER; [|done]. rewrite lookup_insert_ne; [done|]. intros ->.
    by destruct (HM x (proj1 (HRm eq_refl))).
  - intros x f Rx%stored_reachable Hy%stored_young Hf.
    assert (exists f0, objects m !! x = Some (OFrame f0) /\ f_method f = f_method f0
      /\ f_locals f = f_locals f0) as (f0 & Hf0 & E5 & E6).
    { cbn in Hf. destruct (decide (l = x)) as [<-|Hne].
      - rewrite lookup_insert_eq in Hf. injection Hf as Ef.
        destruct (stores_frame _ _ _ Hoo f Ef) as (f0 & E & ?). exists f0. split; [congruence|done].
      - rewrite lookup_insert_ne in Hf by done. by exists f. }
    destruct (HFr x f0 Rx Hy Hf0) as (Hn & mth & Hm & Ef). rewrite E5, E6.
    split; [rewrite stored_list; intros [?|[ER ?]]; [done|by apply (Hframes ER x f0)]|]. cbn.
    destruct (decide (l = f_method f0)) as [E|Hne]; [|exists mth; by rewrite lookup_insert_ne].
    destruct (stores_method _ _ _ Hoo mth) as (mth' & EM & EN); [congruence|].
    exists mth'. by rewrite E, lookup_insert_eq, EM, EN.
  - apply stored_well_formed.
Qed.

End Store.

End Barrier.

(** ** New objects *)

Section New.

Context (USE_TAGGING : bool) (w w' : World) (m m' : Mem GenerationalHeap)
  (HC : consistent USE_TAGGING w m).
Notation d0 := (heap_data m).
Notation rem := (oldObjsWithRefToYoungObjs d0).
Notation alloc := (allocatedObjects d0).
Notation R := (reachable (graph m) (all_roots USE_TAGGING w m)).

(** The object [o] at [l] is new, in the nursery or as an old object ([mature]), perhaps
    on the list of the write barrier ([flag]); the globals may refer to it. *)
Context (l : loc) (o : obj) (mature flag : bool)
  (Hobjects : objects m' = <[l := o]> (objects m))
  (Hfields : forall x, gc_of m' x =
     if decide (x = l) then (if mature then if flag then 6 else 2 else 0) else gc_of m x)
  (Hnursery : nursery (heap_data m') = nursery d0)
  (Hnursery_end : nursery_end (heap_data m') = nursery_end d0)
  (Hnext : nextFreePosition d0 <= nextFreePosition (heap_data m'))
  (Halloc : allocatedObjects (heap_data m') = if mature then alloc ++ [l] else alloc)
  (Hlist : oldObjsWithRefToYoungObjs (heap_data m') = if flag then rem ++ [l] else rem)
  (Hfresh : l ∉ alloc)
  (Hwhere : if mature then ~ young d0 l
            else young d0 l /\ nextFreePosition d0 <= l < nextFreePosition (heap_data m'))
  (Hflag : flag = true -> mature = true)
  (Hbarrier : mature = true -> forall x, Ref x ∈ pointers o -> young d0 x -> flag = true)
  (Hclone : clone_of o = o) (Hpointers : Forall (valid R) (pointers o))
  (Hframe : forall f, o = OFrame f -> (f_method f ∉ rem) /\
     exists mth, objects m !! f_method f = Some (OMethod mth) /\ f_locals f = m_numberOfArguments mth)
  (Hwframe : is_Some (frame w'))
  (Hroots : forall p, p ∈ roots USE_TAGGING w' -> p = Ref l \/ valid R p).

Lemma new_unreachable : ~ R l.
Proof.
  clear -HC Hfresh Hwhere. intros Rl.
  destruct (consistent_reach _ _ _ HC l Rl) as [|(Hy & Hlt & _)]; [done|].
  destruct mature; [done|]. lia.
Qed.

Lemma new_young x : young (heap_data m') x <-> young d0 x.
Proof. unfold young. by rewrite Hnursery, Hnursery_end. Qed.

Lemma new_list x : x ∈ oldObjsWithRefToYoungObjs (heap_data m') <-> x ∈ rem \/ flag = true /\ x = l.
Proof.
  clear -Hlist. rewrite Hlist. destruct flag.
  - rewrite elem_of_app, list_elem_of_singleton. naive_solver.
  - naive_solver.
Qed.

Lemma new_alloc x : x ∈ allocatedObjects (heap_data m') <-> x ∈ alloc \/ mature = true /\ x = l.
Proof.
  clear -Halloc. rewrite Halloc. destruct mature.
  - rewrite elem_of_app, list_elem_of_singleton. naive_solver.
  - naive_solver.
Qed.

Lemma new_graph x : graph m' !! x = if decide (x = l) then Some o else graph m !! x.
Proof.
  rewrite !graph_lookup, Hobjects. case_decide as E.
  - rewrite E, lookup_insert_eq. cbn. f_equal. unfold as_moved. by case_decide.
  - rewrite lookup_insert_ne by done. destruct (objects m !! x); [|done]. cbn. f_equal.
    unfold as_moved. apply decide_ext. apply new_young.
Qed.

Lemma allocation_reachable x :
  reachable (graph m') (all_roots USE_TAGGING w' m') x -> R x \/ x = l.
Proof.
  induction 1 as [x Hx|x ox x' _ IH Hox Hx'].
  - unfold all_roots in Hx. apply elem_of_app in Hx as [Hx|(y & [= <-] & Hy)%list_elem_of_fmap].
    + apply Hroots in Hx as [[= ->]|Hx]; [by right|by left].
    + apply new_list in Hy as [Hy|[_ ->]]; [|by right]. left. by apply remembered_reachable.
  - rewrite new_graph in Hox. case_decide as E.
    + injection Hox as <-. left. rewrite Forall_forall in Hpointers. by apply (Hpointers _ Hx').
    + destruct IH as [Rx|?]; [|done]. left. by apply (reachable_step _ _ x ox).
Qed.

Lemma new_well_formed : well_formed (graph m') (all_roots USE_TAGGING w' m').
Proof.
  pose proof (consistent_pointers _ _ _ HC) as [HN HW]. split.
  - unfold all_roots. rewrite elem_of_app. intros [H|(y & [=] & _)%list_elem_of_fmap].
    by apply Hroots in H as [|H].
  - intros x Hx. rewrite new_graph. case_decide as E.
    + exists o. split; [done|]. intros H. rewrite Forall_forall in Hpointers. by apply (Hpointers _ H).
    + apply allocation_reachable in Hx as [Rx|?]; [|done]. by apply HW.
Qed.

Lemma allocation_consistent : consistent USE_TAGGING w' m'.
Proof.
  pose proof HC as [HF HX HND HM HG HL HLO HB HR HFr HW].
  assert (forall x, x ∈ alloc -> x <> l) as Hne by (intros x Hx ->; done).
  assert (l ∉ rem) as Hlr by (by intros ?%HLO).
  split.
  - done.
  - rewrite Hnursery. lia.
  - rewrite Halloc. case mature; [|done]. apply NoDup_app. split; [done|].
    split; [|apply NoDup_singleton]. by intros x Hx ->%list_elem_of_singleton.
  - intros x Hx%new_alloc. rewrite new_young, Hobjects. destruct Hx as [Hx|[Em ->]].
    + rewrite lookup_insert_ne by (symmetry; auto). by apply HM.
    + rewrite lookup_insert_eq. split; [done|]. by rewrite Em in Hwhere.
  - intros x Hx%new_alloc. rewrite Hfields. destruct Hx as [Hx|[Em ->]].
    + rewrite decide_False by auto. rewrite (HG x Hx). apply decide_ext. rewrite new_list.
      split; [by left|]. intros [?|[_ ?]]; [done|]. by destruct (Hne x).
    + rewrite decide_True, Em by done.
      destruct (decide (flag = true)) as [Ef|Ef%not_true_is_false]; rewrite Ef.
      * rewrite decide_True; [done|]. apply new_list. by right.
      * rewrite decide_False; [done|]. rewrite new_list. intros [?|[? _]]; [done|congruence].
  - rewrite Hlist. case flag; [|done]. apply NoDup_app. split; [done|].
    split; [|apply NoDup_singleton]. by intros x Hx ->%list_elem_of_singleton.
  - intros x [Hx|[Ef ->]]%new_list; apply new_alloc; [by left; auto|by right; auto].
  - intros x ox x' Hx%new_alloc Hox Hx' Hy%new_young. apply new_list. rewrite Hobjects in Hox.
    destruct Hx as [Hx|[Em ->]].
    + rewrite lookup_insert_ne in Hox by (symmetry; auto). left. by apply (HB x ox x').
    + rewrite lookup_insert_eq in Hox. injection Hox as <-. right. split; [|done].
      by apply (Hbarrier Em x').
  - intros x Hx. rewrite new_alloc, new_young, Hfields.
    apply allocation_reachable in Hx as [Rx| ->].
    + destruct (HR x Rx) as [?|(Hy & Hlt & G)]; [by left; left|right]. split; [done|]. split; [lia|].
      rewrite decide_False; [done|]. intros ->. by apply new_unreachable.
    + rewrite decide_True by done.
      destruct (decide (mature = true)) as [Em|Em%not_true_is_false]; [by left; right|right].
      rewrite Em in Hwhere |- *. split; [tauto|]. split; [lia|done].
  - intros x f Hx Hy%new_young. rewrite Hobjects. apply allocation_reachable in Hx as [Rx| ->].
    + assert (l <> x) as Hlx by (intros <-; by apply new_unreachable). rewrite lookup_insert_ne by done.
      intros Hf. destruct (HFr x f Rx Hy Hf) as (Hn & mth & Hm & Ef).
      assert (R (f_method f)) as Rm.
      { apply (reachable_step _ _ x (OFrame f)); [done| |cbn; set_solver].
        rewrite graph_lookup, Hf. cbn. f_equal. unfold as_moved. by case_decide. }
      assert (l <> f_method f) as Hlf by (intros E; apply new_unreachable; by rewrite E). split.
      * rewrite new_list. intros [?|[_ ?]]; congruence.
      * exists mth. by rewrite lookup_insert_ne.
    + rewrite lookup_insert_eq. intros [= Ef]. destruct (Hframe f Ef) as (Hn & mth & Hm & El).
      assert (l <> f_method f) as Hlf.
      { intros E. apply new_unreachable. rewrite E. pose proof Hpointers as HV.
        rewrite Ef, Forall_forall in HV. apply (HV (Ref (f_method f))). cbn. set_solver. }
      split; [rewrite new_list; intros [?|[_ ?]]; congruence|]. exists mth. by rewrite lookup_insert_ne.
  - apply new_well_formed.
Qed.

End New.

(** The class of an object that was just allocated. *)
Lemma SetClass_new (m : Mem GenerationalHeap) l k fs cl (mature : bool) :
  objects m !! l = Some (OObject k Null fs) -> gc_of m l = (if mature then 2 else 0) ->
  SetClass l cl m =
    let flag := mature && isObjectInNursery (heap_data m) cl in
    Ok (tt, mkMem (<[l := OObject k cl fs]> (objects m))
              (if flag then <[l := 6]> (gcfields m) else gcfields m)
              (if flag then with_remembered (oldObjsWithRefToYoungObjs (heap_data m) ++ [l]) (heap_data m)
               else heap_data m)).
Proof.
  intros Ho G. unfold SetClass. rewrite (bind_step _ _ _ _ _ (load_object_step _ _ _ Ho)).
  rewrite (bind_step _ _ _ _ _ (store_object_step _ _ _ _ Ho)). unfold writeBarrier, store_old.
  erewrite bind_step; [|apply (GetGCField_step l (OObject k cl fs)), lookup_insert_eq].
  change (gc_of (mkMem _ _ _) l) with (gc_of m l). rewrite G.
  destruct mature; [|done]. cbn [andb]. change (Nat.land 2 6 =? 2) with true. cbn match.
  unfold writeBarrier_OldHolder. rewrite (bind_step _ _ _ _ _ (gets_step _ _)). cbn [heap_data].
  destruct (isObjectInNursery (heap_data m) cl); [|done].
  rewrite (bind_step _ _ _ _ _ (gen_update_step _ _)).
  erewrite bind_step; [|apply (GetGCField_step l (OObject k cl fs)), lookup_insert_eq].
  erewrite SetGCField_step; [|apply lookup_insert_eq]. cbn. unfold gc_of in *. cbn. by rewrite G.
Qed.

Section Allocation.

Context (sizeof : cxx_class -> nat) (sizeof_pos : forall c, 0 < sizeof c) (USE_TAGGING : bool)
  (malloc : GenerationalHeap -> nat -> option loc) (malloc_fine : malloc_ok malloc)
  (w w' : World) (m : Mem GenerationalHeap) (HC : consistent USE_TAGGING w m).
Notation R := (reachable (graph m) (all_roots USE_TAGGING w m)).
Notation d0 := (heap_data m).

(** The memory after an allocation in the nursery. *)
Lemma nursery_step size l m1 :
  0 < size -> AllocateNurseryObject size m = Ok (l, m1) ->
  l = nextFreePosition d0 /\ young d0 l /\ (l ∉ allocatedObjects d0) /\ exists b,
  m1 = mkMem (objects m) (gcfields m) (with_nursery (l + size) b d0).
Proof.
  intros Hs. unfold AllocateNurseryObject. rewrite (bind_step _ _ _ _ _ (gets_step _ _)).
  destruct (Nat.ltb_spec (nursery_end d0) (nextFreePosition d0 + size)) as [|Hle]; [done|].
  rewrite (bind_step _ _ _ _ _ (gen_update_step _ _)). intros [= <- <-]. split; [done|].
  pose proof (consistent_next _ _ _ HC) as Hn. assert (young d0 (nextFreePosition d0)) as Hy by (split; lia).
  split; [done|]. split; [|by eexists]. intros H. by destruct (consistent_mature _ _ _ HC _ H).
Qed.

Lemma new_object_consistent o l m' :
  new_object sizeof malloc o m = Ok (l, m') ->
  clone_of o = o -> Forall (valid R) (pointers o) ->
  (forall f, o = OFrame f -> (f_method f ∉ oldObjsWithRefToYoungObjs d0) /\
     exists mth, objects m !! f_method f = Some (OMethod mth) /\ f_locals f = m_numberOfArguments mth) ->
  is_Some (frame w') ->
  (forall p, p ∈ roots USE_TAGGING w' -> p = Ref l \/ valid R p) ->
  consistent USE_TAGGING w' m' /\ forall x, young (heap_data m') x <-> young d0 x.
Proof.
  intros HE Hcl Hp Hf Hw Hr. unfold new_object, operator_new in HE.
  apply bind_Ok in HE as (l1 & m1 & E1 & HE). apply nursery_step in E1 as (El & Hy & Hn & b & ->);
    [|by apply GetObjectSize_pos].
  rewrite (bind_step _ _ _ _ _ (place_object_step _ _ _)) in HE. injection HE as <- <-.
  split; [|done].
  apply (allocation_consistent USE_TAGGING w w' m _ HC l1 o false false); try done; cbn.
  - intros x. rewrite gc_of_insert. by repeat case_decide; subst.
  - lia.
  - pose proof (GetObjectSize_pos sizeof sizeof_pos o). split; [done|]. lia.
Qed.

(** A new array, with its elements replaced by [fields]. The elements of an array outside
    of the nursery are set without a barrier; the barrier for its class takes care of
    them, if the class is young whenever one of them is. *)
Lemma array_consistent nilObject arrayClass fields l m1 :
  let m' := mkMem (<[l := OObject KArray arrayClass fields]> (objects m1)) (gcfields m1) (heap_data m1) in
  NewArray sizeof malloc nilObject arrayClass (length fields) m = Ok (l, m1) ->
  Forall (valid R) fields -> valid R arrayClass ->
  (maxNurseryObjSize d0 < 8 * length fields + sizeof VMArray_c ->
   forall a, Ref a ∈ fields -> young d0 a -> exists b, arrayClass = Ref b /\ young d0 b) ->
  is_Some (frame w') ->
  (forall p, p ∈ roots USE_TAGGING w' -> p = Ref l \/ valid R p) ->
  objects m1 !! l = Some (OObject KArray arrayClass (replicate (length fields) nilObject))
  /\ consistent USE_TAGGING w' m' /\ forall x, young (heap_data m') x <-> young d0 x.
Proof.
  intros m' HE Vf Vc Hyy Hw Hr. unfold NewArray in HE. set (n := length fields) in *.
  rewrite (bind_step _ _ _ _ _ (gets_step _ _)) in HE.
  set (o := OObject KArray arrayClass fields).
  assert (Forall (valid R) (pointers o)) as Hp by (by constructor).
  set (out := maxNurseryObjSize d0 <? 8 * n + sizeof VMArray_c) in HE.
  assert (0 < sizeof VMArray_c + 8 * n) as Hs by (pose proof (sizeof_pos VMArray_c); lia).
  apply bind_Ok in HE as (l1 & m2 & E1 & HE). rewrite (bind_step _ _ _ _ _ (place_object_step _ _ _)) in HE.
  set (m3 := mkMem _ _ _) in HE. set (oN := OObject KArray Null (replicate n nilObject)).
  assert (objects m3 !! l1 = Some oN) as Ho2 by apply lookup_insert_eq.
  destruct out eqn:Eout; unfold operator_new in E1.
  - unfold AllocateMatureObject in E1. rewrite (bind_step _ _ _ _ _ (gets_step _ _)) in E1.
    destruct (malloc d0 (sizeof VMArray_c + 8 * n)) as [a|] eqn:EM; [|done].
    destruct (malloc_fine _ _ _ EM) as (Hpos & _ & Hny & Hna).
    injection E1 as <- <-. rewrite (bind_step _ _ _ _ _ (SetGCField_step _ _ _ _ Ho2)) in HE.
    erewrite bind_step in HE; [|apply (SetClass_new _ a KArray (replicate n nilObject) arrayClass true);
      [exact Ho2|by rewrite gc_of_insert, decide_True]].
    injection HE as <- <-. subst m'. split; [apply lookup_insert_eq|].
    split; [|intros x; unfold young; cbn; by destruct (isObjectInNursery _ _)].
    apply Nat.ltb_lt in Eout.
    apply (allocation_consistent USE_TAGGING w w' m _ HC a o true (isObjectInNursery d0 arrayClass)); try done; cbn.
    + by rewrite !insert_insert_eq.
    + intros x. destruct (isObjectInNursery _ _); rewrite !gc_of_insert; repeat case_decide; subst;
        rewrite ?lookup_insert_ne by done; done.
    + by destruct (isObjectInNursery _ _).
    + by destruct (isObjectInNursery _ _).
    + by destruct (isObjectInNursery _ _).
    + by destruct (isObjectInNursery _ _).
    + by destruct (isObjectInNursery _ _).
    + intros _ x [<-|Hx]%elem_of_cons Hy; [by apply in_nursery_young|].
      destruct (Hyy Eout x Hx Hy) as (b & -> & Hb). by apply in_nursery_young.
  - apply nursery_step in E1 as (El & Hy & Hn & b & ->); [|done].
    rewrite (bind_step _ _ _ _ _ (ret_step _ _)) in HE.
    erewrite bind_step in HE; [|apply (SetClass_new _ l1 KArray (replicate n nilObject) arrayClass false);
      [exact Ho2|by unfold m3; rewrite gc_of_insert, decide_True]].
    injection HE as <- <-. subst m'. split; [apply lookup_insert_eq|]. split; [|done].
    apply (allocation_consistent USE_TAGGING w w' m _ HC l1 o false false); try done; cbn.
    + by rewrite !insert_insert_eq.
    + intros x. rewrite gc_of_insert. by repeat case_decide; subst.
    + lia.
    + split; [done|]. lia.
Qed.

Lemma NewArray_consistent nilObject arrayClass n l m' :
  NewArray sizeof malloc nilObject arrayClass n m = Ok (l, m') ->
  valid R nilObject -> valid R arrayClass ->
  (forall a, nilObject = Ref a -> young d0 a -> exists b, arrayClass = Ref b /\ young d0 b) ->
  is_Some (frame w') ->
  (forall p, p ∈ roots USE_TAGGING w' -> p = Ref l \/ valid R p) ->
  consistent USE_TAGGING w' m' /\ forall x, young (heap_data m') x <-> young d0 x.
Proof.
  intros HE Vn Vc Hyy Hw Hr.
  destruct (array_consistent nilObject arrayClass (replicate n nilObject) l m') as (Hl & HC' & HY);
    [by rewrite length_replicate|by apply Forall_replicate|done| |done|done|].
  { intros _ a [Ea _]%elem_of_replicate. by apply Hyy. }
  rewrite length_replicate in Hl. rewrite insert_id in HC', HY by done. by destruct m'.
Qed.

(** [VMArray::Copy] copies the elements without a barrier. *)
Lemma Copy_consistent nilObject arrayClass self c fields l m' :
  Copy sizeof malloc nilObject arrayClass self m = Ok (l, m') ->
  objects m !! self = Some (OObject KArray c fields) ->
  8 * length fields + sizeof VMArray_c <= maxNurseryObjSize d0 ->
  Forall (valid R) fields -> valid R arrayClass ->
  is_Some (frame w') ->
  (forall p, p ∈ roots USE_TAGGING w' -> p = Ref l \/ valid R p) ->
  consistent USE_TAGGING w' m' /\ forall x, young (heap_data m') x <-> young d0 x.
Proof.
  intros HE Ho Hsize Vf Vc Hw Hr. unfold Copy in HE.
  rewrite (bind_step _ _ _ _ _ (load_object_step _ _ _ Ho)) in HE.
  apply bind_Ok in HE as (copy & m1 & E1 & HE).
  apply bind_Ok in HE as (o1 & m2 & E2 & HE). unfold load_object in E2.
  destruct (objects m1 !! copy) as [ol|] eqn:El; [|done]. injection E2 as -> ->.
  destruct o1 as [| | | | |k c1 fs1| | | |]; try done.
  rewrite (bind_step _ _ _ _ _ (store_object_step _ _ _ _ El)) in HE. injection HE as -> <-.
  destruct (array_consistent nilObject arrayClass fields l m2 E1) as (Hl & HC' & HY); [done..|lia|done|done|].
  rewrite El in Hl. injection Hl as -> -> _. done.
Qed.

End Allocation.

(** ** Running

    What a program does to the memory. It stores pointers that it can reach, with the
    barrier; it changes objects without storing pointers, as taking values from a stack
    does; it enters invokables into the caches of symbols; it creates objects and copies
    arrays, which its variables may refer to afterwards; it changes its variables; and
    there are collections. Two things that the code may do are left out, since they are
    not safe: storing a pointer into a method that a frame in the nursery refers to, if it
    puts the method on the list of the barrier ([flagged_method]), and copying an array
    that is too large for the nursery ([array_copy_without_barrier]). *)
Section Run.

Context (sizeof : cxx_class -> nat) (USE_TAGGING : bool)
  (malloc : GenerationalHeap -> nat -> option loc).

Notation state := (World * Mem GenerationalHeap)%type.
Notation live := (live USE_TAGGING).

(** [store_ptr] of [ObjectFormats.h]: the object with the field stored, and the barrier. *)
Definition store_ptr (l : loc) (o : obj) (val : oop) : stateful (Mem GenerationalHeap) () :=
  store_object l o;; writeBarrier l val.

(** [VMSymbol::UpdateCachedInvokable] *)
Definition update_cache (self : loc) (cls invo : oop) : stateful (Mem GenerationalHeap) () :=
  o ← load_object self;
  match o with
  | OSymbol s =>
      let pos := sym_nextCachePos s in
      let entry := default (Null, Null) (sym_cache s !! pos) in
      store_ptr self (OSymbol (mkSymbol (sym_chars s) (<[pos := (entry.1, invo)]> (sym_cache s)) pos)) invo;;
      store_ptr self (OSymbol (mkSymbol (sym_chars s) (<[pos := (cls, invo)]> (sym_cache s)) pos)) cls;;
      store_object self (OSymbol (mkSymbol (sym_chars s) (<[pos := (cls, invo)]> (sym_cache s)) ((pos + 1) mod 3)))
  | _ => fail Undef
  end.

(** The variables refer to what could be reached, or to the new object. *)
Definition reassigned (w w' : World) (m : Mem GenerationalHeap) (new : option loc) : Prop :=
  known w' = known w /\ is_Some (frame w') /\
  forall p, p ∈ roots USE_TAGGING w' -> valid (live w m) p \/ exists l, new = Some l /\ p = Ref l.

(** A frame in the nursery refers to the method at [l]. *)
Definition running (w : World) (m : Mem GenerationalHeap) (l : loc) : Prop :=
  exists x f, found USE_TAGGING w m x /\ young (heap_data m) x /\
    objects m !! x = Some (OFrame f) /\ f_method f = l.

Inductive mutates : state -> state -> Prop :=
  | mutates_store w m l o o' p m' :
      live w m l -> objects m !! l = Some o -> stores [p] o o' -> valid (live w m) p ->
      (running w m l -> remembers m l [p] = false) ->
      store_ptr l o' p m = Ok (tt, m') -> mutates (w, m) (w, m')
  | mutates_change w m l o o' m' :
      live w m l -> objects m !! l = Some o -> stores [] o o' ->
      store_object l o' m = Ok (tt, m') -> mutates (w, m) (w, m')
  | mutates_cache w m l cls invo m' :
      live w m l -> valid (live w m) cls -> valid (live w m) invo ->
      update_cache l cls invo m = Ok (tt, m') -> mutates (w, m) (w, m')
  | mutates_new w w' m o l m' :
      clone_of o = o -> Forall (valid (live w m)) (pointers o) ->
      (forall f, o = OFrame f -> (f_method f ∉ oldObjsWithRefToYoungObjs (heap_data m)) /\
         exists mth, objects m !! f_method f = Some (OMethod mth)
                     /\ f_locals f = m_numberOfArguments mth) ->
      new_object sizeof malloc o m = Ok (l, m') -> reassigned w w' m (Some l) ->
      mutates (w, m) (w', m')
  | mutates_array w w' m n l m' :
      NewArray sizeof malloc (nilObject (known w)) (arrayClass (known w)) n m = Ok (l, m') ->
      reassigned w w' m (Some l) -> mutates (w, m) (w', m')
  | mutates_copy w w' m self c fields l m' :
      live w m self -> objects m !! self = Some (OObject KArray c fields) ->
      8 * length fields + sizeof VMArray_c <= maxNurseryObjSize (heap_data m) ->
      Copy sizeof malloc (nilObject (known w)) (arrayClass (known w)) self m = Ok (l, m') ->
      reassigned w w' m (Some l) -> mutates (w, m) (w', m')
  | mutates_variables w w' m : reassigned w w' m None -> mutates (w, m) (w', m)
  | mutates_collect w m w' m' :
      Collect sizeof USE_TAGGING malloc w m = Ok (w', m') -> mutates (w, m) (w', m').

(** The class of arrays is as young as [nil]: both are created at the start. *)
Definition nil_with_class (w : World) (m : Mem GenerationalHeap) : Prop :=
  forall a, nilObject (known w) = Ref a -> young (heap_data m) a ->
    exists b, arrayClass (known w) = Ref b /\ young (heap_data m) b.

Definition sound (s : state) : Prop := consistent USE_TAGGING s.1 s.2 /\ nil_with_class s.1 s.2.

Lemma live_reachable w m l : live w m l -> reachable (graph m) (all_roots USE_TAGGING w m) l.
Proof.
  apply reachable_mono. intros p Hp. unfold all_roots. apply elem_of_app. by left.
Qed.

Lemma live_valid w m p : valid (live w m) p -> valid (reachable (graph m) (all_roots USE_TAGGING w m)) p.
Proof. destruct p; [done..|]. apply live_reachable. Qed.

Lemma variables_consistent w w' m :
  consistent USE_TAGGING w m -> is_Some (frame w') ->
  (forall p, p ∈ roots USE_TAGGING w' -> valid (live w m) p) -> consistent USE_TAGGING w' m.
Proof.
  intros [HF HX HND HM HG HL HLO HB HR HFr HW] HF' HP.
  assert (forall l, reachable (graph m) (all_roots USE_TAGGING w' m) l ->
    reachable (graph m) (all_roots USE_TAGGING w m) l) as HS.
  { induction 1 as [l Hl|l o l' _ IH Ho Hl']; [|by apply (reachable_step _ _ l o)].
    unfold all_roots in Hl. apply elem_of_app in Hl as [Hl|Hl]; [by apply HP, live_reachable in Hl|].
    apply reachable_root. unfold all_roots. apply elem_of_app. by right. }
  split; [done..|by auto|by eauto|]. destruct HW as [HN HW]. split; [|by auto].
  unfold all_roots in *. rewrite elem_of_app in *. intros [H|H]; [by apply HP in H|]. tauto.
Qed.

(** The variables, before and after the creation of an object. *)
Lemma known_valid w m p :
  consistent USE_TAGGING w m -> p ∈ [nilObject (known w); arrayClass (known w)] ->
  valid (reachable (graph m) (all_roots USE_TAGGING w m)) p.
Proof.
  intros HC Hin. pose proof (valid_roots _ _ (consistent_pointers _ _ _ HC)) as V.
  rewrite Forall_forall in V. apply V. unfold all_roots. apply elem_of_app. left.
  unfold roots, known_pointers. rewrite !elem_of_app, !elem_of_cons in *. clear -Hin. tauto.
Qed.

Lemma new_roots w w' m l :
  (forall p, p ∈ roots USE_TAGGING w' -> valid (live w m) p \/ exists x, Some l = Some x /\ p = Ref x) ->
  forall p, p ∈ roots USE_TAGGING w' ->
  p = Ref l \/ valid (reachable (graph m) (all_roots USE_TAGGING w m)) p.
Proof.
  intros HR p Hin. destruct (HR p Hin) as [?|(x & [= <-] & ->)]; [right; by apply live_valid|by left].
Qed.

(** A memory in which objects were changed. *)
Lemma stored_sound w m l o o' ps :
  sound (w, m) -> live w m l -> objects m !! l = Some o -> Forall (valid (live w m)) ps ->
  stores ps o o' -> (running w m l -> remembers m l ps = false) -> sound (w, stored m l o' ps).
Proof.
  intros [HC HN] Hl Ho Hp Hoo Hrun. cbn [fst snd] in *. split; cbn [fst snd].
  - apply (stored_consistent USE_TAGGING w m HC l o o' ps); [by apply live_reachable|done| |done|].
    + apply (Forall_impl _ _ _ Hp). apply live_valid.
    + intros ER x f Rx Hy Hx El. rewrite Hrun in ER; [done|]. by exists x, f.
  - intros a Ha. setoid_rewrite (stored_young m l o' ps). by apply HN.
Qed.

(** The list of the barrier is no concern of frames that refer to other objects. *)
Lemma not_running w m l o :
  consistent USE_TAGGING w m -> objects m !! l = Some o -> (forall mth, o <> OMethod mth) -> ~ running w m l.
Proof.
  intros HC Ho Hne (x & f & Rx & Hy & Hf & E).
  destruct (consistent_frames _ _ _ HC x f Rx Hy Hf) as (_ & mth & Hm & _).
  apply (Hne mth). congruence.
Qed.

Lemma update_cache_step w m l s cls invo :
  consistent USE_TAGGING w m -> live w m l -> objects m !! l = Some (OSymbol s) ->
  update_cache l cls invo m = Ok (tt, stored m l (OSymbol (mkSymbol (sym_chars s)
    (<[sym_nextCachePos s := (cls, invo)]> (sym_cache s)) ((sym_nextCachePos s + 1) mod 3))) [invo; cls]).
Proof.
  intros HC Hl%live_reachable Ho. unfold update_cache, store_ptr.
  rewrite (bind_step _ _ _ _ _ (load_object_step _ _ _ Ho)), bind_assoc.
  rewrite (bind_step _ _ _ _ _ (stored_start m l _ _ Ho)).
  rewrite (bind_step _ _ _ _ _ (stored_barrier USE_TAGGING w m HC l _ [] invo Hl)), bind_assoc.
  rewrite (bind_step _ _ _ _ _ (stored_store m l _ _ _)).
  rewrite (bind_step _ _ _ _ _ (stored_barrier USE_TAGGING w m HC l _ [invo] cls Hl)).
  apply stored_store.
Qed.

Lemma mutates_sound s s' :
  (forall c, 0 < sizeof c) -> malloc_ok malloc -> sound s -> mutates s s' -> sound s'.
Proof.
  intros Hpos HM HS Hs. pose proof HS as [HC HN].
  destruct Hs as [w m l o o' p m' Hl Ho Hoo Hp Hrun E|w m l o o' m' Hl Ho Hoo E|w m l cls invo m' Hl Hc Hi E
    |w w' m o l m' Hcl Hp Hf E (Hk & HF & HR)|w w' m n l m' E (Hk & HF & HR)
    |w w' m self c fields l m' Hl Ho Hsize E (Hk & HF & HR)|w w' m (Hk & HF & HR)
    |w m w' m' E]; cbn [fst snd] in *.
  - unfold store_ptr in E. rewrite (bind_step _ _ _ _ _ (stored_start m l _ _ Ho)) in E.
    rewrite (stored_barrier USE_TAGGING w m HC l o' [] p) in E by (by apply live_reachable).
    injection E as <-. apply (stored_sound w m l o); [done..| |done|done]. by constructor.
  - rewrite (stored_start m l o o' Ho) in E. injection E as <-.
    apply (stored_sound w m l o); [done..|constructor|done|]. intros _. unfold remembers. apply andb_false_r.
  - unfold update_cache in E. destruct (objects m !! l) as [o|] eqn:Ho.
    2: { unfold load_object, mbind, stateful_bind in E. by rewrite Ho in E. }
    destruct o as [| | | |s0| | | | |]; try by rewrite (bind_step _ _ _ _ _ (load_object_step _ _ _ Ho)) in E.
    fold (update_cache l cls invo) in E. rewrite (update_cache_step w m l s0 cls invo HC Hl Ho) in E.
    injection E as <-. apply (stored_sound w m l (OSymbol s0)); [done..| |apply stores_cache|].
    + by repeat constructor.
    + by intros []%(not_running w m l (OSymbol s0)).
  - destruct (new_object_consistent sizeof Hpos USE_TAGGING malloc w w' m HC o l m' E Hcl) as [C' Y'];
      [|done|done| |].
    + apply (Forall_impl _ _ _ Hp). apply live_valid.
    + by apply new_roots.
    + split; [done|]. intros a. cbn. rewrite Hk. setoid_rewrite Y'. apply HN.
  - destruct (NewArray_consistent sizeof Hpos USE_TAGGING malloc HM w w' m HC _ _ n l m' E) as [C' Y'];
      [by apply known_valid; set_solver|by apply known_valid; set_solver|done|done|by apply new_roots|].
    split; [done|]. intros a. cbn. rewrite Hk. setoid_rewrite Y'. apply HN.
  - destruct (Copy_consistent sizeof Hpos USE_TAGGING malloc HM w w' m HC _ _ self c fields l m' E Ho Hsize)
      as [C' Y']; [|by apply known_valid; set_solver|done|by apply new_roots|].
    + destruct (reachable_objects USE_TAGGING w m HC self (live_reachable _ _ _ Hl)) as (o & Ho' & V).
      rewrite Ho in Ho'. injection Ho' as <-. unfold as_moved in V.
      destruct (decide (young (heap_data m) self)); by inversion V.
    + split; [done|]. intros a. cbn. rewrite Hk. setoid_rewrite Y'. apply HN.
  - split; cbn [fst snd].
    + apply (variables_consistent w); [done|done|]. intros p Hin.
      by destruct (HR p Hin) as [?|(x & [=] & _)].
    + intros a. rewrite Hk. apply HN.
  - destruct (collect_or_fail sizeof USE_TAGGING malloc HM w m HC) as [(f & m1 & E1 & HCo)|E1];
      rewrite E1 in E; [|done]. injection E as <- <-. pose proof (collected_consistent _ _ _ _ _ HCo) as C1.
    split; [done|]. intros a' Ha' Hy. cbn in Ha'.
    destruct (nilObject (known w)) as [| |a] eqn:Ea; try done. injection Ha' as <-.
    assert (live w m a) as Hl.
    { apply reachable_root. rewrite <- Ea. unfold roots, known_pointers. set_solver. }
    destruct (reachable_objects USE_TAGGING w m HC a (live_reachable _ _ _ Hl)) as (o & Ho & _).
    destruct (collected_live _ _ _ _ _ HCo a o Hl Ho) as [Hin _]. by destruct (consistent_mature _ _ _ C1 _ Hin).
Qed.


End Run.

(** *** Example *)

Definition tiny_object (p : oop) : obj := OObject KObject (Ref 8) [Ref 8; p].

Definition tiny_store : Mem GenerationalHeap :=
  stored (tiny_memory 100) 8 (tiny_object (Ref 32)) [Ref 32].

Lemma tiny_sound : sound true (tiny_world 8 32 64 80, tiny_memory 100).
Proof. split; [apply tiny_consistent|]. intros a [= <-] Hy. by exists 8. Qed.

Lemma tiny_run :
  rtc (mutates (fun _ => 8) true tiny_malloc)
    (tiny_world 8 32 64 80, tiny_memory 100) (tiny_world 8 32 64 80, tiny_store).
Proof.
  apply rtc_once, (mutates_store _ _ _ _ _ 8 (tiny_object (Tagged 7)) (tiny_object (Ref 32)) (Ref 32)).
  - by apply reachable_root, elem_of_cons; left.
  - by vm_compute.
  - apply (stores_field KObject (Ref 8) [Ref 8; Tagged 7] 1).
  - apply reachable_root. unfold roots. rewrite !elem_of_app. do 5 right. left. by apply list_elem_of_singleton.
  - by vm_compute.
  - by vm_compute.
Qed.


(** ** Copying large arrays

    [VMArray::Copy] copies the elements without the write barrier. Here an old array
    with nine elements refers to the object at 8 in the nursery and is on the list of
    the barrier. Its copy is too large for the nursery: it is an old object that refers
    to the nursery as well, but it is not on the list, and the next collection leaves
    it with a pointer into the nursery. *)
Definition array_memory : Mem GenerationalHeap :=
  mkMem (<[208 := OObject KArray (Ref 200) (replicate 9 (Ref 8))]>
          (<[200 := OObject KObject (Ref 200) []]> (tiny_objects 8 32 64 80 112)))
    {[ 200 := 2; 208 := 6 ]}
    (mkGenerationalHeap 8 136 128 64 96 128 120 [208] [200; 208] false 1000).

Definition copy_then_collect : stateful (Mem GenerationalHeap) (loc * World) :=
  l ← Copy (fun _ => 8) tiny_malloc (Ref 200) (Ref 200) 208;
  w ← Collect (fun _ => 8) true tiny_malloc (tiny_world 8 32 64 80);
  mret (l, w).

(** The two arrays after the collection: the elements of the old one have moved. *)
Example array_copy_without_barrier :
  match copy_then_collect array_memory with
  | Ok ((l, _), m) => objects m !! 208 = Some (OObject KArray (Ref 200) (replicate 9 (Ref 224)))
      /\ objects m !! l = Some (OObject KArray (Ref 200) (replicate 9 (Ref 8)))
      /\ young (heap_data m) 8
  | Err _ => False
  end.
Proof. vm_compute. split; [done|]. split; [done|]. lia. Qed.

(** ** Methods on the list of the write barrier

    [VMFrame::CloneForMovingGC] takes the field of the method for the address of its
    copy unless it is 0 or that of an old object. If the method is on the list of the
    write barrier, its field is 6, and a minor collection looks for a method there. *)
Definition flagged_memory : Mem GenerationalHeap :=
  mkMem (tiny_objects 8 200 64 80 112) {[ 200 := 6 ]}
    (mkGenerationalHeap 8 136 128 64 96 128 120 [200] [200] false 1000).

Example flagged_method :
  (CloneForMovingGC (fun _ => 8) tiny_malloc 80 flagged_memory) = Err Undef /\
  (Collect (fun _ => 8) true tiny_malloc (tiny_world 8 200 64 80) flagged_memory) = Err Undef.
Proof. by vm_compute. Qed.
