(* ===== verification/Frame.v ===== *)
(** * Frames

    [src/src/vmobjects/VMFrame.h] and [VMFrame.cpp]: the operand stack, arguments,
    locals and contexts of an activation.  The slots above the top of the stack are
    not represented, no operation reads one before it is written; a pop of an empty
    frame, a push beyond the allocated size or an index outside of the slots is
    [Undef]. *)
From Stdlib Require Import String.
From S2P Require Import Prelude Objects Universe.
Local Open Scope Z_scope.

Definition with_slots (s : list oop) (f : Frame) : Frame :=
  mkFrame (f_previous f) (f_context f) (f_method f) (f_bytecodeIndex f) (f_locals f) s (f_size f).
Definition with_bytecodeIndex (i : Z) (f : Frame) : Frame :=
  mkFrame (f_previous f) (f_context f) (f_method f) i (f_locals f) (f_slots f) (f_size f).
Definition with_context (c : option loc) (f : Frame) : Frame :=
  mkFrame (f_previous f) c (f_method f) (f_bytecodeIndex f) (f_locals f) (f_slots f) (f_size f).
Definition with_previous (p : option loc) (f : Frame) : Frame :=
  mkFrame p (f_context f) (f_method f) (f_bytecodeIndex f) (f_locals f) (f_slots f) (f_size f).

(** ** The operand stack *)

Definition Push (l : loc) (obj : oop) : V () :=
  f ← load_frame l;
  if (length (f_slots f) <? f_size f)%nat
  then store l (OFrame (with_slots (f_slots f ++ [obj]) f))
  else fail Undef.

Definition Pop (l : loc) : V oop :=
  f ← load_frame l;
  match last (f_slots f) with
  | Some x => store l (OFrame (with_slots (removelast (f_slots f)) f));; mret x
  | None => fail Undef
  end.

(** [PopVoid], and [n] pops in a row. *)
Definition PopVoid (l : loc) : V () := Pop l;; mret tt.

Fixpoint pop_n (n : nat) (l : loc) : V () :=
  match n with O => mret tt | S n => PopVoid l;; pop_n n l end.

(** [stack_ptr[-index]] *)
Definition stack_element (index : nat) (f : Frame) : option oop :=
  if (index <? length (f_slots f))%nat
  then f_slots f !! (length (f_slots f) - 1 - index)%nat else None.

Definition GetStackElement (l : loc) (index : nat) : V oop :=
  f ← load_frame l; lift (of_option Undef (stack_element index f)).

Definition Top (l : loc) : V oop := GetStackElement l 0.
Definition Top2 (l : loc) : V oop := GetStackElement l 1.

Definition SetTop (l : loc) (val : oop) : V () :=
  f ← load_frame l;
  match f_slots f with
  | [] => fail Undef
  | _ => store l (OFrame (with_slots (removelast (f_slots f) ++ [val]) f))
  end.

Definition RemainingStackSize (f : Frame) : nat := f_size f - length (f_slots f).

(** ** Contexts *)

Fixpoint GetContextLevel (lvl : nat) (l : loc) : V loc :=
  match lvl with
  | O => mret l
  | S lvl =>
      f ← load_frame l;
      c ← lift (of_option Undef (f_context f));
      GetContextLevel lvl c
  end.

Fixpoint outer_context (fuel : nat) (l : loc) : V loc :=
  match fuel with
  | O => fail OutOfFuel
  | S fuel =>
      f ← load_frame l;
      match f_context f with
      | Some c => outer_context fuel c
      | None => mret l
      end
  end.

Definition GetOuterContext (l : loc) : V loc := fuel ← heap_fuel; outer_context fuel l.

(** ** Arguments and locals *)

Definition read_slot (l : loc) (i : nat) : V oop :=
  f ← load_frame l; lift (of_option Undef (f_slots f !! i)).

Definition write_slot (l : loc) (i : nat) (v : oop) : V () :=
  f ← load_frame l;
  if (i <? length (f_slots f))%nat
  then store l (OFrame (with_slots (<[i := v]> (f_slots f)) f)) else fail Undef.

Definition GetLocalInCurrentContext (l : loc) (index : nat) : V oop :=
  f ← load_frame l; read_slot l (f_locals f + index).

Definition SetLocalInCurrentContext (l : loc) (index : nat) (v : oop) : V () :=
  f ← load_frame l; write_slot l (f_locals f + index) v.

Definition GetArgumentInCurrentContext (l : loc) (index : nat) : V oop := read_slot l index.
Definition SetArgumentInCurrentContext (l : loc) (index : nat) (v : oop) : V () :=
  write_slot l index v.

Definition GetLocal (l : loc) (index contextLevel : nat) : V oop :=
  c ← GetContextLevel contextLevel l; GetLocalInCurrentContext c index.
Definition SetLocal (l : loc) (index contextLevel : nat) (v : oop) : V () :=
  c ← GetContextLevel contextLevel l; SetLocalInCurrentContext c index v.
Definition GetArgument (l : loc) (index contextLevel : nat) : V oop :=
  c ← GetContextLevel contextLevel l; GetArgumentInCurrentContext c index.
Definition SetArgument (l : loc) (index contextLevel : nat) (v : oop) : V () :=
  c ← GetContextLevel contextLevel l; SetArgumentInCurrentContext c index v.

(** [for (i = 0; i < num_args; ++i)]: [n] rounds are left. *)
Fixpoint copy_arguments (n : nat) (num_args : nat) (this from : loc) : V () :=
  match n with
  | O => mret tt
  | S m =>
      let i := (num_args - n)%nat in
      e ← GetStackElement from (num_args - 1 - i);
      SetArgumentInCurrentContext this i e;;
      copy_arguments m num_args this from
  end.

Definition CopyArgumentsFrom (this from : loc) : V () :=
  f ← load_frame this;
  m ← load_method (f_method f);
  copy_arguments (m_numberOfArguments m) (m_numberOfArguments m) this from.

Definition SetBytecodeIndex (l : loc) (i : Z) : V () := update_frame l (with_bytecodeIndex i).
Definition SetContext (l : loc) (c : option loc) : V () := update_frame l (with_context c).
Definition ClearPreviousFrame (l : loc) : V () := update_frame l (with_previous None).

(** ** Emergency frames

    A bigger copy of a frame, for a send that the compiler did not plan for.  All the
    slots of [from], used or not, are copied: if the copy is the smaller one they are
    written past its end. *)
Definition EmergencyFrameFrom (from : loc) (extraLength : nat) : V loc :=
  f ← load_frame from;
  m ← load_method (f_method f);
  let length :=
    (m_numberOfArguments m + m_numberOfLocals m + m_maxStack m + extraLength)%nat in
  if (length <? f_size f)%nat then fail Undef
  else alloc (OFrame (mkFrame (f_previous f) (f_context f) (f_method f) (f_bytecodeIndex f)
                        (m_numberOfArguments m) (f_slots f) length)).
