(* ===== verification/Interpreter.v ===== *)
(** * The interpreter

    [src/src/interpreter/Interpreter.cpp]: the registers, frames and sends, and one
    step of the interpretation loop for every bytecode; with the invocation of each
    kind of invokable ([VMMethod.cpp], [VMTrivialMethod.cpp],
    [VMEvaluationPrimitive.cpp], [VMSafePrimitive.cpp], [VMPrimitive.h]) and
    [AbstractVMObject::Send].

    The native routines of the primitives are a parameter, a table from the name
    kept in a primitive to the routine, and so is the compilation of a class file.
    Garbage collection between two steps is not part of this model. *)
From Stdlib Require Import String SpecFloat.
From S2P Require Import Prelude Bytecodes IntegerPrims Objects Universe Frame.
Local Open Scope Z_scope.

(** The code that native routines stand for. *)
Record Routines : Type := mkRoutines {
  frame_routine : string -> loc -> V ();
  unary_routine : string -> oop -> V oop;
  binary_routine : string -> oop -> oop -> V oop;
  ternary_routine : string -> oop -> oop -> oop -> V oop }.

Section Interpreter.

Context (USE_TAGGING : bool) (LoadClassBasic : loc -> V oop) (routines : Routines).

(** ** Registers and frames *)

Definition GetFrame : V loc := f ← gets frame; lift (of_option Undef f).

Definition SetFrame (frm : loc) : V () :=
  old ← gets frame;
  i ← gets bytecodeIndexGlobal;
  match old with Some o => SetBytecodeIndex o i | None => mret tt end;;
  f ← load_frame frm;
  modify (set_registers (Some frm) (f_method f) (f_bytecodeIndex f)).

Definition PushNewFrame (m : loc) : V loc :=
  prev ← gets frame;
  frm ← NewFrame prev m;
  SetFrame frm;;
  mret frm.

Definition GetSelf : V oop :=
  f ← GetFrame;
  context ← GetOuterContext f;
  GetArgumentInCurrentContext context 0.

Definition popFrame : V loc :=
  result ← GetFrame;
  f ← load_frame result;
  prev ← lift (of_option Undef (f_previous f));
  SetFrame prev;;
  ClearPreviousFrame result;;
  mret result.

Definition popFrameAndPushResult (result : oop) : V () :=
  prevFrame ← popFrame;
  f ← load_frame prevFrame;
  m ← load_method (f_method f);
  cur ← GetFrame;
  pop_n (m_numberOfArguments m) cur;;
  Push cur result.

(** ** Sends

    Invoking may send again (an unknown global in a trivial method), so the
    functions take fuel for the nesting. *)

Definition AS_OBJ (x : oop) : V oop :=
  match x with Tagged _ => k ← gets known; mret (integerBox k) | _ => mret x end.

Fixpoint push_all (l : loc) (args : list oop) : V () :=
  match args with [] => mret tt | a :: r => Push l a;; push_all l r end.

(** The frame is replaced by a bigger one when the send needs more slots than are
    left. *)
Definition reserve (slots : nat) : V () :=
  cur ← GetFrame;
  f ← load_frame cur;
  if (RemainingStackSize f <? slots)%nat then
    i ← gets bytecodeIndexGlobal;
    SetBytecodeIndex cur i;;
    e ← EmergencyFrameFrom cur (slots - RemainingStackSize f);
    SetFrame e
  else mret tt.

Definition VMMethod_Invoke (this frm : loc) : V (option loc) :=
  i ← gets bytecodeIndexGlobal;
  SetBytecodeIndex frm i;;
  new ← PushNewFrame this;
  CopyArgumentsFrom new frm;;
  mret (Some new).

Definition VMMethod_Invoke1 (this frm : loc) : V (option loc) :=
  i ← gets bytecodeIndexGlobal;
  SetBytecodeIndex frm i;;
  new ← PushNewFrame this;
  t ← Top frm;
  SetArgumentInCurrentContext new 0 t;;
  mret (Some new).

(** The popped receiver: the last of [n] pops. *)
Fixpoint pop_last (n : nat) (l : loc) (self : oop) : V oop :=
  match n with O => mret self | S n => x ← Pop l; pop_last n l x end.

Definition no_fields : error := ErrorExit "Integers do not have fields!".

Definition get_field_of (self : oop) (index : Z) : V oop :=
  if IS_TAGGED USE_TAGGING self then fail no_fields else GetField self index.

(** [for (i = numberOfArguments - 1; i > 0; i -= 1)]: the value is the argument
    [argIndex], null if that is the receiver. *)
Fixpoint setter_pops (i : nat) (argIndex : Z) (l : loc) (value : oop) : V oop :=
  match i with
  | O => mret value
  | S j =>
      x ← Pop l;
      setter_pops j argIndex l (if Z.of_nat i =? argIndex then x else value)
  end.

Definition VMSetter_Invoke (frm : loc) (numberOfArguments : nat) (fieldIndex argIndex : Z) : V () :=
  value ← setter_pops (numberOfArguments - 1) argIndex frm Null;
  self ← Top frm;
  if IS_TAGGED USE_TAGGING self then fail no_fields
  else SetField self fieldIndex value.

Fixpoint Send (fuel : nat) (this : oop) (selectorString : string) (arguments : list oop) : V () :=
  match fuel with
  | O => fail OutOfFuel
  | S fuel =>
      frm ← GetFrame;
      selector ← SymbolFor selectorString;
      Push frm this;;
      push_all frm arguments;;
      o ← deref this;
      cl ← GetClass o;
      found ← LookupInvokable cl selector;
      inv ← lift (of_option Undef found);
      Invoke fuel inv frm;;
      mret tt
  end
with SendUnknownGlobal (fuel : nat) (globalName : loc) : V () :=
  match fuel with
  | O => fail OutOfFuel
  | S fuel =>
      self ← GetSelf;
      reserve 2;;
      obj ← AS_OBJ self;
      Send fuel obj "unknownGlobal:" [Ref globalName]
  end
with Invoke (fuel : nat) (this frm : loc) : V (option loc) :=
  match fuel with
  | O => fail OutOfFuel
  | S fuel =>
      o ← load this;
      match o with
      | OMethod _ => VMMethod_Invoke this frm
      | OTrivial _ _ n _ (VMLiteralReturn literal) =>
          pop_n n frm;; Push frm literal;; mret None
      | OTrivial _ _ n _ (VMGlobalReturn globalName) =>
          pop_n n frm;;
          value ← GetGlobal globalName;
          (if decide (value = Null) then SendUnknownGlobal fuel globalName
           else Push frm value);;
          mret None
      | OTrivial _ _ n _ (VMGetter fieldIndex) =>
          self ← pop_last n frm Null;
          result ← get_field_of self fieldIndex;
          Push frm result;; mret None
      | OTrivial _ _ n _ (VMSetter fieldIndex argIndex) =>
          VMSetter_Invoke frm n fieldIndex argIndex;; mret None
      | OPrimitive _ _ (FramePrim r) => frame_routine routines r frm;; mret None
      | OPrimitive _ _ (SafeUnaryPrim r) =>
          self ← Pop frm;
          x ← unary_routine routines r self;
          Push frm x;; mret None
      | OPrimitive _ _ (SafeBinaryPrim r) =>
          rightObj ← Pop frm; leftObj ← Pop frm;
          x ← binary_routine routines r leftObj rightObj;
          Push frm x;; mret None
      | OPrimitive _ _ (SafeTernaryPrim r) =>
          arg2 ← Pop frm; arg1 ← Pop frm; self ← Pop frm;
          x ← ternary_routine routines r self arg1 arg2;
          Push frm x;; mret None
      | OPrimitive _ _ (EvaluationPrim n) =>
          block ← GetStackElement frm (n - 1);
          context ← GetField block 1;
          m ← GetField block 0;
          meth ← loc_of m;
          newFrame ← Invoke fuel meth frm;
          match newFrame with
          | Some nf => SetContext nf (match context with Ref c => Some c | _ => None end)
          | None => mret tt
          end;;
          mret None
      | _ => fail Undef
      end
  end.

(** [Invoke1] is the variant for unary sends. *)
Fixpoint Invoke1 (fuel : nat) (this frm : loc) : V (option loc) :=
  match fuel with
  | O => fail OutOfFuel
  | S fuel =>
      o ← load this;
      match o with
      | OMethod _ => VMMethod_Invoke1 this frm
      | OTrivial _ _ _ _ (VMLiteralReturn literal) =>
          Pop frm;; Push frm literal;; mret None
      | OTrivial _ _ _ _ (VMGlobalReturn globalName) =>
          Pop frm;;
          value ← GetGlobal globalName;
          (if decide (value = Null) then SendUnknownGlobal fuel globalName
           else Push frm value);;
          mret None
      | OTrivial _ _ _ _ (VMGetter fieldIndex) =>
          self ← Pop frm;
          result ← get_field_of self fieldIndex;
          Push frm result;; mret None
      | OTrivial _ _ _ _ (VMSetter _ _) =>
          fail (ErrorExit "VMSetter::Invoke1 should not be reachable")
      | OPrimitive _ _ (FramePrim r) => frame_routine routines r frm;; mret None
      | OPrimitive _ _ (SafeUnaryPrim r) =>
          self ← Pop frm;
          x ← unary_routine routines r self;
          Push frm x;; mret None
      | OPrimitive _ _ (SafeBinaryPrim _ | SafeTernaryPrim _) =>
          fail (ErrorExit "Unary invoke on binary primitive")
      | OPrimitive _ _ (EvaluationPrim _) =>
          block ← GetStackElement frm 0;
          context ← GetField block 1;
          m ← GetField block 0;
          meth ← loc_of m;
          newFrame ← Invoke1 fuel meth frm;
          match newFrame with
          | Some nf => SetContext nf (match context with Ref c => Some c | _ => None end)
          | None => mret tt
          end;;
          mret None
      | _ => fail Undef
      end
  end.

(** [for (i = numberOfArgs - 2; i >= 0; --i)]: [n] arguments are left to pop. *)
Fixpoint pop_arguments (n : nat) (l : loc) (argumentsArray : oop) : V () :=
  match n with
  | O => mret tt
  | S m =>
      o ← Pop l;
      SetIndexableField argumentsArray (Z.of_nat m) o;;
      pop_arguments m l argumentsArray
  end.

Definition triggerDoesNotUnderstand (fuel : nat) (signature : loc) : V () :=
  numberOfArgs ← GetNumberOfArguments signature;
  cur ← GetFrame;
  receiver ← GetStackElement cur (numberOfArgs - 1);
  argumentsArray ← NewArray (Z.of_nat numberOfArgs - 1);
  pop_arguments (numberOfArgs - 1) cur argumentsArray;;
  PopVoid cur;;
  reserve 3;;
  obj ← AS_OBJ receiver;
  Send fuel obj "doesNotUnderstand:arguments:" [Ref signature; argumentsArray].

Definition send (fuel : nat) (signature : loc) (receiverClass : oop) : V () :=
  found ← LookupInvokable receiverClass signature;
  match found with
  | Some invokable => frm ← GetFrame; Invoke fuel invokable frm;; mret tt
  | None => triggerDoesNotUnderstand fuel signature
  end.

(** ** Access to the current method *)

Definition fetch (i : Z) : V Z :=
  m ← gets method;
  meth ← load_method m;
  if i <? 0 then fail Undef else lift (of_option Undef (m_bytecodes meth !! Z.to_nat i)).

Definition constant (idx : Z) : V oop :=
  m ← gets method;
  meth ← load_method m;
  lift (of_option Undef (m_constants meth !! Z.to_nat idx)).

(** An index out of range is reported and gives null, which the callers use. *)
Definition GetConstant (bytecodeIndex : Z) : V oop :=
  bc ← fetch (bytecodeIndex + 1);
  m ← gets method;
  meth ← load_method m;
  mret (default Null (m_constants meth !! Z.to_nat bc)).

(** ** The handlers *)

Definition push (x : oop) : V () := cur ← GetFrame; Push cur x.
Definition pop : V oop := cur ← GetFrame; Pop cur.

Definition doDup : V () := cur ← GetFrame; elem ← GetStackElement cur 0; Push cur elem.

Definition doDupSecond : V () := cur ← GetFrame; elem ← GetStackElement cur 1; Push cur elem.

Definition push_local (index ctx : Z) : V () :=
  cur ← GetFrame; x ← GetLocal cur (Z.to_nat index) (Z.to_nat ctx); Push cur x.

Definition doPushLocal (bytecodeIndex : Z) : V () :=
  bc1 ← fetch (bytecodeIndex + 1); bc2 ← fetch (bytecodeIndex + 2); push_local bc1 bc2.

Definition doPushLocalWithIndex (localIndex : nat) : V () :=
  cur ← GetFrame; x ← GetLocalInCurrentContext cur localIndex; Push cur x.

Definition push_argument (index ctx : Z) : V () :=
  cur ← GetFrame; x ← GetArgument cur (Z.to_nat index) (Z.to_nat ctx); Push cur x.

Definition doPushArgument (bytecodeIndex : Z) : V () :=
  argIndex ← fetch (bytecodeIndex + 1);
  contextLevel ← fetch (bytecodeIndex + 2);
  push_argument argIndex contextLevel.

Definition push_argument_here (index : nat) : V () :=
  cur ← GetFrame; x ← GetArgumentInCurrentContext cur index; Push cur x.

Definition doPushFieldWithIndex (fieldIndex : Z) : V () :=
  self ← GetSelf; o ← get_field_of self fieldIndex; push o.

Definition doPushField (bytecodeIndex : Z) : V () :=
  fieldIndex ← fetch (bytecodeIndex + 1); doPushFieldWithIndex fieldIndex.

Definition doReturnFieldWithIndex (fieldIndex : Z) : V () :=
  self ← GetSelf; o ← get_field_of self fieldIndex; popFrameAndPushResult o.

Definition push_block (block : oop) : V () :=
  blockMethod ← loc_of block;
  numOfArgs ← invokable_arguments blockMethod;
  cur ← GetFrame;
  b ← NewBlock LoadClassBasic block (Ref cur) numOfArgs;
  push b.

Definition doPushBlock (bytecodeIndex : Z) : V () :=
  block ← GetConstant bytecodeIndex; push_block block.

Definition doPushConstant (bytecodeIndex : Z) : V () :=
  c ← GetConstant bytecodeIndex; push c.

Definition push_global (fuel : nat) (globalName : oop) : V () :=
  name ← loc_of globalName;
  global ← GetGlobal name;
  if decide (global = Null) then SendUnknownGlobal fuel name else push global.

Definition doPushGlobal (fuel : nat) (bytecodeIndex : Z) : V () :=
  globalName ← GetConstant bytecodeIndex; push_global fuel globalName.

Definition doPop : V () := cur ← GetFrame; PopVoid cur.

Definition pop_local (index ctx : Z) : V () :=
  o ← pop; cur ← GetFrame; SetLocal cur (Z.to_nat index) (Z.to_nat ctx) o.

Definition doPopLocal (bytecodeIndex : Z) : V () :=
  bc1 ← fetch (bytecodeIndex + 1); bc2 ← fetch (bytecodeIndex + 2); pop_local bc1 bc2.

Definition doPopLocalWithIndex (localIndex : nat) : V () :=
  o ← pop; cur ← GetFrame; SetLocalInCurrentContext cur localIndex o.

Definition pop_argument (index ctx : Z) : V () :=
  o ← pop; cur ← GetFrame; SetArgument cur (Z.to_nat index) (Z.to_nat ctx) o.

Definition doPopArgument (bytecodeIndex : Z) : V () :=
  bc1 ← fetch (bytecodeIndex + 1); bc2 ← fetch (bytecodeIndex + 2); pop_argument bc1 bc2.

Definition doPopFieldWithIndex (fieldIndex : Z) : V () :=
  self ← GetSelf;
  o ← pop;
  if IS_TAGGED USE_TAGGING self
  then fail (ErrorExit "Integers do not have fields that can be set")
  else SetField self fieldIndex o.

Definition doPopField (bytecodeIndex : Z) : V () :=
  fieldIndex ← fetch (bytecodeIndex + 1); doPopFieldWithIndex fieldIndex.

(** *** Sends *)

Definition send_signature (fuel : nat) (s : oop) : V () :=
  signature ← loc_of s;
  numOfArgs ← GetNumberOfArguments signature;
  cur ← GetFrame;
  receiver ← GetStackElement cur (numOfArgs - 1);
  receiverClass ← CLASS_OF receiver;
  send fuel signature receiverClass.

Definition doSend (fuel : nat) (bytecodeIndex : Z) : V () :=
  s ← GetConstant bytecodeIndex; send_signature fuel s.

Definition unary_send_signature (fuel : nat) (s : oop) : V () :=
  signature ← loc_of s;
  cur ← GetFrame;
  receiver ← GetStackElement cur 0;
  receiverClass ← CLASS_OF receiver;
  found ← LookupInvokable receiverClass signature;
  match found with
  | Some invokable => Invoke1 fuel invokable cur;; mret tt
  | None => triggerDoesNotUnderstand fuel signature
  end.

Definition doUnarySend (fuel : nat) (bytecodeIndex : Z) : V () :=
  s ← GetConstant bytecodeIndex; unary_send_signature fuel s.

(** [for (uint8_t i = numOfArgs - 1; i >= 0; --i)]: the counter is unsigned, the
    condition always holds and the loop is left through the index check. *)
Fixpoint super_pops (fuel : nat) (i : Z) (l : loc) (argumentsArray : oop) : V () :=
  match fuel with
  | O => fail OutOfFuel
  | S fuel =>
      o ← Pop l;
      SetIndexableField argumentsArray i o;;
      super_pops fuel (u8 (i - 1)) l argumentsArray
  end.

Definition invokable_holder (o : obj) : V oop :=
  match o with
  | OMethod m => mret (m_holder m)
  | OTrivial _ h _ _ _ => mret h
  | OPrimitive _ h _ => mret h
  | _ => fail Undef
  end.

Definition super_send_signature (fuel : nat) (s : oop) : V () :=
  signature ← loc_of s;
  cur ← GetFrame;
  ctxt ← GetOuterContext cur;
  c ← load_frame ctxt;
  realMethod ← load_method (f_method c);
  super ← GetSuperClass (m_holder realMethod);
  found ← LookupInvokable super signature;
  match found with
  | Some invokable => Invoke fuel invokable cur;; mret tt
  | None =>
      numOfArgs ← GetNumberOfArguments signature;
      receiver ← GetStackElement cur (numOfArgs - 1);
      argumentsArray ← NewArray (Z.of_nat numOfArgs);
      super_pops 512 (u8 (Z.of_nat numOfArgs - 1)) cur argumentsArray;;
      obj ← AS_OBJ receiver;
      Send fuel obj "doesNotUnderstand:arguments:" [Ref signature; argumentsArray]
  end.

Definition doSuperSend (fuel : nat) (bytecodeIndex : Z) : V () :=
  s ← GetConstant bytecodeIndex; super_send_signature fuel s.

(** *** Returns *)

Definition doReturnLocal : V () := result ← pop; popFrameAndPushResult result.

Definition doReturnSelf : V () :=
  cur ← GetFrame; self ← GetArgumentInCurrentContext cur 0; popFrameAndPushResult self.

(** [while (GetFrame() != context) popFrame()] *)
Fixpoint unwind_to (fuel : nat) (context : loc) : V () :=
  match fuel with
  | O => fail OutOfFuel
  | S fuel =>
      cur ← GetFrame;
      if decide (cur = context) then mret tt else popFrame;; unwind_to fuel context
  end.

Definition escaped_block (fuel : nat) : V () :=
  cur ← GetFrame;
  block ← GetArgumentInCurrentContext cur 0;
  f ← load_frame cur;
  prevFrame ← lift (of_option Undef (f_previous f));
  outerContext ← GetOuterContext prevFrame;
  sender ← GetArgumentInCurrentContext outerContext 0;
  popFrame;;
  now ← GetFrame;
  nf ← load_frame now;
  m ← load_method (f_method nf);
  pop_n (m_numberOfArguments m) now;;
  reserve 2;;
  obj ← AS_OBJ sender;
  Send fuel obj "escapedBlock:" [block].

Definition doReturnNonLocal (fuel : nat) : V () :=
  result ← pop;
  cur ← GetFrame;
  context ← GetOuterContext cur;
  c ← load_frame context;
  match f_previous c with
  | None => escaped_block fuel
  | Some _ =>
      n ← heap_fuel;
      unwind_to n context;;
      popFrameAndPushResult result
  end.

(** *** Increment and decrement

    A small integer is incremented in an [int64_t], where an overflow is
    undefined. *)

Definition increment (delta : Z) (val : oop) : V oop :=
  i ← small_int USE_TAGGING val;
  match i with
  | Some z =>
      if overflows (z + delta) then fail Undef else NEW_INT USE_TAGGING (z + delta)
  | None =>
      cls ← CLASS_OF val;
      k ← gets known;
      if decide (cls = doubleClass k) then
        d ← as_double val;
        match d with
        | Some d => NewDouble (f64_add d (f64_of_Z delta))
        | None => fail Undef
        end
      else fail (ErrorExit "unsupported")
  end.

Definition doInc : V () :=
  cur ← GetFrame; val ← Top cur; val ← increment 1 val; SetTop cur val.

Definition doDec : V () :=
  cur ← GetFrame; val ← Top cur; val ← increment (-1) val; SetTop cur val.

Definition doIncField (fieldIndex : Z) : V () :=
  self ← GetSelf;
  val ← get_field_of self fieldIndex;
  val ← increment 1 val;
  SetField self fieldIndex val.

Definition doIncFieldPush (fieldIndex : Z) : V () :=
  self ← GetSelf;
  val ← get_field_of self fieldIndex;
  val ← increment 1 val;
  SetField self fieldIndex val;;
  push val.

Definition checkIsGreater : V bool :=
  cur ← GetFrame;
  top ← Top cur;
  top2 ← Top2 cur;
  i1 ← small_int USE_TAGGING top;
  i2 ← small_int USE_TAGGING top2;
  match i1, i2 with
  | Some a, Some b => mret (a >? b)
  | _, _ =>
      d1 ← as_double top;
      d2 ← as_double top2;
      match d1, d2 with
      | Some a, Some b => mret (SFltb b a)
      | _, _ => mret false
      end
  end.

(** ** Jumps

    [bytecodeIndexGlobal] is still the index of the jump itself. *)

Definition jump_by (delta : Z) : V () :=
  modify (fun w => set_bytecodeIndex (bytecodeIndexGlobal w + delta) w).

Definition offset1 : V Z := i ← gets bytecodeIndexGlobal; fetch (i + 1).

Definition offset2 : V Z :=
  i ← gets bytecodeIndexGlobal;
  b1 ← fetch (i + 1);
  b2 ← fetch (i + 2);
  mret (ComputeOffset b1 b2).

(** Jump on a condition and pop in both cases. *)
Definition jump_pop (offset : V Z) (test : Known -> oop -> bool) : V () :=
  cur ← GetFrame;
  val ← Top cur;
  k ← gets known;
  (if test k val then o ← offset; jump_by o else jump_by 3);;
  PopVoid cur.

(** Jump and replace the top by nil, or pop and go on. *)
Definition jump_top_nil (offset : V Z) (test : Known -> oop -> bool) : V () :=
  cur ← GetFrame;
  val ← Top cur;
  k ← gets known;
  if test k val then o ← offset; jump_by o;; SetTop cur (nilObject k)
  else PopVoid cur;; jump_by 3.

(** Jump and keep the top, or pop and go on. *)
Definition jump_top_top (offset : V Z) (test : Known -> oop -> bool) : V () :=
  cur ← GetFrame;
  val ← Top cur;
  k ← gets known;
  if test k val then o ← offset; jump_by o else PopVoid cur;; jump_by 3.

Definition is_true (k : Known) (x : oop) : bool := bool_decide (x = trueObject k).
Definition is_false (k : Known) (x : oop) : bool := bool_decide (x = falseObject k).
Definition is_nil (k : Known) (x : oop) : bool := bool_decide (x = nilObject k).
Definition not_nil (k : Known) (x : oop) : bool := bool_decide (x <> nilObject k).

Definition jump_if_greater (offset : V Z) : V () :=
  greater ← checkIsGreater;
  if greater : bool then
    o ← offset; jump_by o;;
    cur ← GetFrame; PopVoid cur;; PopVoid cur
  else jump_by 3.

(** ** One step *)

Definition PROLOGUE (bcCount : Z) : V () := jump_by bcCount.

(** The operand of the instruction that starts at [start]. *)
Definition from_start (n : Z) (k : Z -> V ()) : V () := i ← gets bytecodeIndexGlobal; k (i - n).

Definition dispatch (fuel : nat) (bc : bytecode) : V () :=
  match bc with
  | BC_HALT => mret tt
  | BC_DUP => PROLOGUE 1;; doDup
  | BC_DUP_SECOND => PROLOGUE 1;; doDupSecond
  | BC_PUSH_LOCAL => PROLOGUE 3;; from_start 3 doPushLocal
  | BC_PUSH_LOCAL_0 => PROLOGUE 1;; doPushLocalWithIndex 0
  | BC_PUSH_LOCAL_1 => PROLOGUE 1;; doPushLocalWithIndex 1
  | BC_PUSH_LOCAL_2 => PROLOGUE 1;; doPushLocalWithIndex 2
  | BC_PUSH_ARGUMENT => PROLOGUE 3;; from_start 3 doPushArgument
  | BC_PUSH_SELF => PROLOGUE 1;; push_argument_here 0
  | BC_PUSH_ARG_1 => PROLOGUE 1;; push_argument_here 1
  | BC_PUSH_ARG_2 => PROLOGUE 1;; push_argument_here 2
  | BC_PUSH_FIELD => PROLOGUE 2;; from_start 2 doPushField
  | BC_PUSH_FIELD_0 => PROLOGUE 1;; doPushFieldWithIndex 0
  | BC_PUSH_FIELD_1 => PROLOGUE 1;; doPushFieldWithIndex 1
  | BC_PUSH_BLOCK => PROLOGUE 2;; from_start 2 doPushBlock
  | BC_PUSH_CONSTANT => PROLOGUE 2;; from_start 2 doPushConstant
  | BC_PUSH_CONSTANT_0 => PROLOGUE 1;; c ← constant 0; push c
  | BC_PUSH_CONSTANT_1 => PROLOGUE 1;; c ← constant 1; push c
  | BC_PUSH_CONSTANT_2 => PROLOGUE 1;; c ← constant 2; push c
  | BC_PUSH_0 => PROLOGUE 1;; x ← NEW_INT USE_TAGGING 0; push x
  | BC_PUSH_1 => PROLOGUE 1;; x ← NEW_INT USE_TAGGING 1; push x
  | BC_PUSH_NIL => PROLOGUE 1;; k ← gets known; push (nilObject k)
  | BC_PUSH_GLOBAL => PROLOGUE 2;; from_start 2 (doPushGlobal fuel)
  | BC_POP => PROLOGUE 1;; doPop
  | BC_POP_LOCAL => PROLOGUE 3;; from_start 3 doPopLocal
  | BC_POP_LOCAL_0 => PROLOGUE 1;; doPopLocalWithIndex 0
  | BC_POP_LOCAL_1 => PROLOGUE 1;; doPopLocalWithIndex 1
  | BC_POP_LOCAL_2 => PROLOGUE 1;; doPopLocalWithIndex 2
  | BC_POP_ARGUMENT => PROLOGUE 3;; from_start 3 doPopArgument
  | BC_POP_FIELD => PROLOGUE 2;; from_start 2 doPopField
  | BC_POP_FIELD_0 => PROLOGUE 1;; doPopFieldWithIndex 0
  | BC_POP_FIELD_1 => PROLOGUE 1;; doPopFieldWithIndex 1
  | BC_SEND => PROLOGUE 2;; from_start 2 (doSend fuel)
  | BC_SEND_1 => PROLOGUE 2;; from_start 2 (doUnarySend fuel)
  | BC_SUPER_SEND => PROLOGUE 2;; from_start 2 (doSuperSend fuel)
  | BC_RETURN_LOCAL => PROLOGUE 1;; doReturnLocal
  | BC_RETURN_NON_LOCAL => PROLOGUE 1;; doReturnNonLocal fuel
  | BC_RETURN_SELF => PROLOGUE 1;; doReturnSelf
  | BC_RETURN_FIELD_0 => PROLOGUE 1;; doReturnFieldWithIndex 0
  | BC_RETURN_FIELD_1 => PROLOGUE 1;; doReturnFieldWithIndex 1
  | BC_RETURN_FIELD_2 => PROLOGUE 1;; doReturnFieldWithIndex 2
  | BC_INC => PROLOGUE 1;; doInc
  | BC_DEC => PROLOGUE 1;; doDec
  | BC_INC_FIELD => PROLOGUE 2;; from_start 1 (fun i => n ← fetch i; doIncField n)
  | BC_INC_FIELD_PUSH => PROLOGUE 2;; from_start 1 (fun i => n ← fetch i; doIncFieldPush n)
  | BC_JUMP => o ← offset1; jump_by o
  | BC_JUMP_ON_FALSE_POP => jump_pop offset1 is_false
  | BC_JUMP_ON_TRUE_POP => jump_pop offset1 is_true
  | BC_JUMP_ON_FALSE_TOP_NIL => jump_top_nil offset1 is_false
  | BC_JUMP_ON_TRUE_TOP_NIL => jump_top_nil offset1 is_true
  | BC_JUMP_ON_NOT_NIL_POP => jump_pop offset1 not_nil
  | BC_JUMP_ON_NIL_POP => jump_pop offset1 is_nil
  | BC_JUMP_ON_NOT_NIL_TOP_TOP => jump_top_top offset1 not_nil
  | BC_JUMP_ON_NIL_TOP_TOP => jump_top_top offset1 is_nil
  | BC_JUMP_IF_GREATER => jump_if_greater offset1
  | BC_JUMP_BACKWARD => o ← offset1; jump_by (- o)
  | BC_JUMP2 => o ← offset2; jump_by o
  | BC_JUMP2_ON_FALSE_POP => jump_pop offset2 is_false
  | BC_JUMP2_ON_TRUE_POP => jump_pop offset2 is_true
  | BC_JUMP2_ON_FALSE_TOP_NIL => jump_top_nil offset2 is_false
  | BC_JUMP2_ON_TRUE_TOP_NIL => jump_top_nil offset2 is_true
  | BC_JUMP2_ON_NOT_NIL_POP => jump_pop offset2 not_nil
  | BC_JUMP2_ON_NIL_POP => jump_pop offset2 is_nil
  | BC_JUMP2_ON_NOT_NIL_TOP_TOP => jump_top_top offset2 not_nil
  | BC_JUMP2_ON_NIL_TOP_TOP => jump_top_top offset2 is_nil
  | BC_JUMP2_IF_GREATER => jump_if_greater offset2
  | BC_JUMP2_BACKWARD => o ← offset2; jump_by (- o)
  end.

(** One round of the loop; [Some] is the result at a halt.  A byte that is no
    bytecode is outside of the jump table. *)
Definition step (fuel : nat) : V (option oop) :=
  i ← gets bytecodeIndexGlobal;
  b ← fetch i;
  match Bytecodes.decode b with
  | None => fail Undef
  | Some BC_HALT =>
      PROLOGUE 1;;
      cur ← GetFrame; x ← GetStackElement cur 0; mret (Some x)
  | Some bc => dispatch fuel bc;; mret None
  end.

(** [Interpreter::Start], for [steps] steps at most. *)
Fixpoint Start (steps : nat) (fuel : nat) : V oop :=
  match steps with
  | O => fail OutOfFuel
  | S steps =>
      r ← step fuel;
      match r with Some x => mret x | None => Start steps fuel end
  end.

End Interpreter.
