(* ===== verification/Natives.v ===== *)
(** * The native routines

    The primitives of [src/src/primitives] other than those of Double and Vector:
    [Array.cpp], [Block.cpp], [Class.cpp], [Method.cpp], [Object.cpp], [Primitive.cpp],
    [String.cpp], [Symbol.cpp] and [System.cpp], and those of [Integer.cpp] on objects.

    What is outside of the machine is a record of functions: the sizes of the C++
    classes, the addresses that serve as hash codes, the functions of the C library
    without a definition (sine, cosine, random numbers, time), input and output. *)
From Stdlib Require Import String Ascii SpecFloat.
From S2P Require Import Prelude InfIntBase InfIntMul InfIntText IntegerPrims Objects Universe HeapWalk Frame Interpreter.
Local Open Scope Z_scope.

Record Environment : Type := mkEnvironment {
  env_sizeof : cxx_class -> nat;
  env_address : loc -> Z;
  env_cos : spec_float -> spec_float;
  env_sin : spec_float -> spec_float;
  env_rand : V Z;
  env_clock : V (Z * Z);
  env_clz_of_zero : Z;
  env_Print : string -> V ();
  env_ErrorPrint : string -> V ();
  env_read : string -> V (option string);
  env_requestGC : V () }.

Section Natives.

Context (USE_TAGGING : bool) (env : Environment) (LoadClass : loc -> V oop).

(** [Invoke] is that of the invokables. *)
Context (Invoke : loc -> loc -> V (option loc)).

Notation SMALL_INT_VAL := (SMALL_INT_VAL USE_TAGGING).
Notation NEW_INT := (NEW_INT USE_TAGGING).

(** ** Arrays *)

Definition arrAt (leftObj idx : oop) : V oop :=
  i ← SMALL_INT_VAL idx; GetIndexableField leftObj (i - 1).

Definition arrAtPut (rcvr index value : oop) : V oop :=
  i ← SMALL_INT_VAL index; SetIndexableField rcvr (i - 1) value;; mret rcvr.

Definition arrLength (leftObj : oop) : V oop := n ← GetNumberOfIndexableFields leftObj; NEW_INT n.

(** A negative size becomes one that no heap has room for. *)
Definition arrNew (_clazz arg : oop) : V oop :=
  size ← SMALL_INT_VAL arg; if size <? 0 then fail Undef else NewArray size.

Definition arrCopy (rcvr : oop) : V oop := array_Copy rcvr.

(** ** Blocks *)

Definition ResetStackPointer (l : loc) : V () :=
  f ← load_frame l;
  m ← load_method (f_method f);
  store l (OFrame (with_slots (take (f_locals f + m_numberOfLocals m) (f_slots f)) f)).

Definition ResetBytecodeIndex (l : loc) : V () :=
  SetBytecodeIndex l 0;; modify (set_bytecodeIndex 0).

Definition bRestart (frm : loc) : V () := ResetBytecodeIndex frm;; ResetStackPointer frm.

(** ** Classes *)

Definition clsNew : oop -> V oop := NewInstance.
Definition clsName : oop -> V oop := GetName.
Definition clsSuperclass : oop -> V oop := GetSuperClass.
Definition clsMethods : oop -> V oop := GetInstanceInvokables.
Definition clsFields : oop -> V oop := GetInstanceFields.

(** ** Methods and primitives *)

Definition mHolder (rcvr : oop) : V oop := o ← deref rcvr; invokable_holder o.
Definition mSignature (rcvr : oop) : V oop := l ← loc_of rcvr; s ← GetSignature l; mret (Ref s).

(** [for (i = 0; i < num_args; i++)], [n] of which are left. *)
Fixpoint push_elements (n : nat) (i : Z) (args : oop) (frm : loc) : V () :=
  match n with
  | O => mret tt
  | S n => x ← GetIndexableField args i; Push frm x;; push_elements n (i + 1) args frm
  end.

Definition push_arguments (args : oop) (frm : loc) : V () :=
  n ← GetNumberOfIndexableFields args; push_elements (Z.to_nat n) 0 args frm.

Definition mInvokeOnWith (frm : loc) : V () :=
  args ← Pop frm;
  rcvr ← Pop frm;
  mthd ← Pop frm;
  Push frm rcvr;;
  push_arguments args frm;;
  m ← loc_of mthd;
  Invoke m frm;;
  mret tt.

Definition pHolder : oop -> V oop := mHolder.
Definition pSignature : oop -> V oop := mSignature.
Definition pInvokeOnWith : loc -> V () := mInvokeOnWith.

(** ** Objects *)

Definition objEqualequal (op2 op1 : oop) : V oop := boolean (bool_decide (op1 = op2)).

Definition objObjectSize (self : oop) : V oop :=
  p ← AS_OBJ self; o ← deref p; NEW_INT (Z.of_nat (GetObjectSize (env_sizeof env) o)).

(** The hash of a string: [hash * 33 + c] with a signed character. *)
Fixpoint string_hash (hash : Z) (s : string) : Z :=
  match s with
  | EmptyString => i64 hash
  | String c r => string_hash (u64 (hash * 33 + swrap 8 (chr c))) r
  end.

(** The bits of a double. *)
Definition f64_bits (d : spec_float) : Z :=
  let sign (s : bool) := if s then 2 ^ 63 else 0 in
  match d with
  | S754_zero s => sign s
  | S754_infinity s => sign s + 2047 * 2 ^ 52
  | S754_nan => 2047 * 2 ^ 52 + 2 ^ 51
  | S754_finite s m e =>
      sign s + (if Zpos m <? 2 ^ 52 then Zpos m else (e + 1075) * 2 ^ 52 + (Zpos m - 2 ^ 52))
  end.

Definition GetHash (l : loc) (o : obj) : Z :=
  match o with
  | OInteger z => z
  | OBigInteger i => snd (toInt64 i)
  | ODouble d => i64 (f64_bits d)
  | OString s => string_hash 5381 s
  | OSymbol s => string_hash 5381 (sym_chars s)
  | OFrame _ => 0
  | OObject _ _ _ | OMethod _ | OTrivial _ _ _ _ _ | OPrimitive _ _ _ => env_address env l
  end.

Definition objHashcode (self : oop) : V oop :=
  if IS_TAGGED USE_TAGGING self then mret self
  else l ← loc_of self; o ← load l; NEW_INT (GetHash l o).

Definition objInspect (_self : oop) : V oop := boolean false.
Definition objHalt (_self : oop) : V oop := boolean false.

(** The invokable of the class is invoked; there has to be one. *)
Definition invoke_selector (clazz selector : oop) (frm : loc) : V () :=
  sel ← loc_of selector;
  found ← LookupInvokable clazz sel;
  invokable ← lift (of_option Undef found);
  Invoke invokable frm;;
  mret tt.

Definition objPerform (frm : loc) : V () :=
  selector ← Pop frm;
  self ← GetStackElement frm 0;
  clazz ← CLASS_OF self;
  invoke_selector clazz selector frm.

Definition objPerformInSuperclass (frm : loc) : V () :=
  clazz ← Pop frm;
  selector ← Pop frm;
  invoke_selector clazz selector frm.

Definition objPerformWithArguments (frm : loc) : V () :=
  args ← Pop frm;
  selector ← Pop frm;
  self ← GetStackElement frm 0;
  push_arguments args frm;;
  clazz ← CLASS_OF self;
  invoke_selector clazz selector frm.

Definition objPerformWithArgumentsInSuperclass (frm : loc) : V () :=
  clazz ← Pop frm;
  args ← Pop frm;
  selector ← Pop frm;
  push_arguments args frm;;
  invoke_selector clazz selector frm.

Definition objInstVarAt (self idx : oop) : V oop := i ← SMALL_INT_VAL idx; GetField self (i - 1).

Definition objInstVarAtPut (self idx value : oop) : V oop :=
  i ← SMALL_INT_VAL idx; SetField self (i - 1) value;; mret self.

Definition objInstVarNamed (self nameObj : oop) : V oop :=
  p ← AS_OBJ self; o ← deref p; c ← GetClass o;
  fieldIdx ← LookupFieldIndex c nameObj;
  GetField self fieldIdx.

Definition objClass : oop -> V oop := CLASS_OF.

(** ** Strings and symbols

    A symbol is a string. *)
Definition GetStdString (p : oop) : V string :=
  o ← deref p;
  match o with
  | OString s => mret s
  | OSymbol s => mret (sym_chars s)
  | _ => fail Undef
  end.

Definition symAsString (rcvr : oop) : V oop := s ← GetStdString rcvr; NewString s.

Definition strConcatenate_ (leftObj rightObj : oop) : V oop :=
  a ← GetStdString rightObj; s ← GetStdString leftObj; NewString (s ++ a).

Definition strAsSymbol (rcvr : oop) : V oop := s ← GetStdString rcvr; l ← SymbolFor s; mret (Ref l).

Definition strHashcode (rcvr : oop) : V oop := s ← GetStdString rcvr; NEW_INT (string_hash 5381 s).

Definition strLength (rcvr : oop) : V oop :=
  s ← GetStdString rcvr; NEW_INT (Z.of_nat (String.length s)).

(** [strncmp(a, b, n) == 0]: up to the first difference or the first zero byte. *)
Fixpoint strncmp_equal (n : nat) (a b : string) : bool :=
  match n, a, b with
  | O, _, _ => true
  | S n, String c r, String d q =>
      if Ascii.eqb c d then if chr c =? 0 then true else strncmp_equal n r q else false
  | S _, _, _ => true
  end.

Definition strEqual (leftObj op1 : oop) : V oop :=
  if IS_TAGGED USE_TAGGING op1 then boolean false
  else if decide (leftObj = op1) then boolean true
  else
    otherClass ← CLASS_OF op1;
    k ← gets known;
    if decide (otherClass <> stringClass k /\ otherClass <> symbolClass k) then boolean false
    else
      left ← GetStdString leftObj;
      right ← GetStdString op1;
      if negb (Nat.eqb (String.length left) (String.length right)) then boolean false
      else boolean (strncmp_equal (String.length left) left right).

(** [str.substr(s, e - s + 1)]: both numbers become unsigned, a start behind the end of
    the string throws, a length that is too large is cut. *)
Definition substr (str : string) (s len : Z) : result string :=
  if u64 s >? Z.of_nat (String.length str) then Err (ErrorExit "std::out_of_range")
  else
    let start := Z.to_nat (u64 s) in
    Ok (String.substring start
      (Z.to_nat (Z.min (u64 len) (Z.of_nat (String.length str - start)))) str).

Definition strPrimSubstringFromTo (rcvr start end_ : oop) : V oop :=
  str ← GetStdString rcvr;
  s ← SMALL_INT_VAL start;
  e ← SMALL_INT_VAL end_;
  r ← lift (substr str (s - 1) (e - 1 - (s - 1) + 1));
  NewString r.

Definition strCharAt (rcvr indexPtr : oop) : V oop :=
  str ← GetStdString rcvr;
  i ← SMALL_INT_VAL indexPtr;
  if (i - 1 <? 0) || (u64 (i - 1) >=? Z.of_nat (String.length str))
  then NewString "Error - index out of bounds"
  else NewString (String.substring (Z.to_nat (i - 1)) 1 str).

Definition isalpha (c : ascii) : bool :=
  ((65 <=? chr c) && (chr c <=? 90)) || ((97 <=? chr c) && (chr c <=? 122)).

(** The three loops: no character fails the test, and there is one. *)
Definition all_characters (test : ascii -> bool) (rcvr : oop) : V oop :=
  s ← GetStdString rcvr;
  let cs := list_ascii_of_string s in
  boolean (forallb test cs && Nat.ltb 0 (length cs)).

Definition strIsWhiteSpace : oop -> V oop := all_characters isspace.
Definition strIsLetters : oop -> V oop := all_characters isalpha.
Definition strIsDigits : oop -> V oop := all_characters isdigit.

(** ** System *)

Definition sysGlobal_ (_sys rightObj : oop) : V oop :=
  arg ← loc_of rightObj;
  result ← GetGlobal arg;
  k ← gets known;
  mret (if decide (result = Null) then nilObject k else result).

Definition sysGlobalPut (sys sym val : oop) : V oop :=
  arg ← loc_of sym; SetGlobal arg val;; mret sys.

Definition sysHasGlobal_ (_sys rightObj : oop) : V oop :=
  arg ← loc_of rightObj; b ← HasGlobal arg; boolean b.

Definition sysLoad_ (_sys rightObj : oop) : V oop :=
  arg ← loc_of rightObj;
  result ← LoadClass arg;
  k ← gets known;
  mret (if decide (result = Null) then nilObject k else result).

Definition sysExit_ (_sys err : oop) : V oop :=
  n ← SMALL_INT_VAL err;
  fail (ErrorExit ("Quit " ++ string_of_list_ascii (print_int64 (i32 n)))).

Definition sysPrintString_ (leftObj rightObj : oop) : V oop :=
  s ← GetStdString rightObj; env_Print env s;; mret leftObj.

Definition newline : string := String (of_chr 10) EmptyString.

Definition sysPrintNewline (leftObj : oop) : V oop := env_Print env newline;; mret leftObj.

Definition sysErrorPrint_ (leftObj rightObj : oop) : V oop :=
  s ← GetStdString rightObj; env_ErrorPrint env s;; mret leftObj.

Definition sysErrorPrintNewline_ (leftObj rightObj : oop) : V oop :=
  s ← GetStdString rightObj; env_ErrorPrint env (s ++ newline);; mret leftObj.

(** The clock gives the differences of the seconds and of the microseconds to those of
    the start. *)
Definition sysTime (_sys : oop) : V oop :=
  t ← env_clock env; NEW_INT (t.1 * 1000 + Z.quot t.2 1000).
Definition sysTicks (_sys : oop) : V oop :=
  t ← env_clock env; NEW_INT (t.1 * 1000 * 1000 + t.2).

Definition sysFullGC (_sys : oop) : V oop := env_requestGC env;; boolean true.

Definition sysLoadFile_ (_sys rightObj : oop) : V oop :=
  fileName ← GetStdString rightObj;
  text ← env_read env fileName;
  match text with
  | Some s => NewString s
  | None => k ← gets known; mret (nilObject k)
  end.

(** [VMFrame::PrintStackTrace], from a frame to the previous one; the fuel bounds the
    depth of the recursion. *)
Fixpoint PrintStackTrace (fuel : nat) (l : loc) : V () :=
  match fuel with
  | O => fail Undef
  | S fuel =>
      f ← load_frame l;
      meth ← load_method (f_method f);
      k ← gets known;
      (if decide (m_holder meth = nilObject k) then env_Print env "nil"
       else n ← GetName (m_holder meth); s ← GetStdString n; env_Print env s);;
      sig ← GetStdString (Ref (m_signature meth));
      env_Print env (">>#" ++ sig ++ newline);;
      match f_previous f with Some p => PrintStackTrace fuel p | None => mret tt end
  end.

Definition printStackTrace (frm : loc) : V () := fuel ← heap_fuel; PrintStackTrace fuel frm.

(** ** Integers

    The routines of [IntegerPrims] on the values of the objects. *)
Definition view (x : oop) : V vm_value :=
  match x with
  | Tagged z => mret (if USE_TAGGING then VMInteger z else VMOther)
  | Null => mret VMOther
  | Ref l =>
      o ← load l;
      mret (match o with
            | OInteger z => if USE_TAGGING then VMOther else VMInteger z
            | OBigInteger i => VMBigInteger i
            | ODouble d => VMDouble d
            | OString s => VMString (list_ascii_of_string s)
            | OSymbol s => VMString (list_ascii_of_string (sym_chars s))
            | _ => VMOther
            end)
  end.

Definition reify (v : vm_value) : V oop :=
  match v with
  | VMInteger z => if USE_TAGGING then mret (Tagged z) else l ← alloc (OInteger z); mret (Ref l)
  | VMBigInteger i => l ← alloc (OBigInteger i); mret (Ref l)
  | VMDouble d => NewDouble d
  | VMString s => NewString (string_of_list_ascii s)
  | VMBool b => boolean b
  | VMOther => fail Undef
  end.

Definition int_unary (f : vm_value -> result vm_value) (self : oop) : V oop :=
  v ← view self; r ← lift (f v); reify r.

Definition int_binary (f : vm_value -> vm_value -> result vm_value) (leftObj rightObj : oop) : V oop :=
  a ← view leftObj; b ← view rightObj; r ← lift (f a b); reify r.

(** These answer one of the objects. *)
Definition int_abs (self : oop) : V oop :=
  v ← view self;
  match v with
  | VMInteger z => if z <? 0 then int_unary (intAbs USE_TAGGING) self else mret self
  | VMBigInteger i => if op_lt i InfInt_zero then int_unary (intAbs USE_TAGGING) self else mret self
  | _ => fail Undef
  end.

Definition int_min (self arg : oop) : V oop :=
  a ← view self; b ← view arg; lower ← lift (lowerThan a b); mret (if lower : bool then self else arg).

Definition int_max (self arg : oop) : V oop :=
  a ← view self; b ← view arg; lower ← lift (lowerThan a b); mret (if lower : bool then arg else self).

Fixpoint fill_range (n : nat) (i index : Z) (arr : oop) : V () :=
  match n with
  | O => mret tt
  | S n => x ← NEW_INT i; SetIndexableField arr index x;; fill_range n (i + 1) (index + 1) arr
  end.

Definition int_range (leftObj rightObj : oop) : V oop :=
  left ← SMALL_INT_VAL leftObj;
  right ← SMALL_INT_VAL rightObj;
  let numInteger := right - left + 1 in
  if numInteger <? 0 then fail Undef
  else
    arr ← NewArray numInteger;
    fill_range (Z.to_nat numInteger) left 0 arr;;
    mret arr.

(** The product with a random number, which has to fit. *)
Definition intAtRandom (self : oop) : V oop :=
  z ← SMALL_INT_VAL self;
  r ← env_rand env;
  if overflows (z * r) then fail Undef else NEW_INT (z * r).

End Natives.
