(* ===== verification/Activation.v ===== *)
(** * Activations

    What the operations on frames do to the state of the machine, and the protocol of
    calls and returns: invoking a bytecode method and returning from it, the unwinding
    of a non-local return. *)
From Stdlib Require Import String.
From S2P Require Import Prelude Bytecodes Objects Universe Frame Interpreter Lookup.
Local Open Scope Z_scope.

(** ** Steps of the frame operations *)

(** The world with [o] at [l]. *)
Definition put_obj (l : loc) (o : obj) (w : World) : World := set_heap (<[l := o]> (heap w)) w.
Notation put_frame l f := (put_obj l (OFrame f)).

Lemma put_obj_eq l o w : heap (put_obj l o w) !! l = Some o.
Proof. apply lookup_insert_eq. Qed.

Lemma put_obj_ne l l' o w : l <> l' -> heap (put_obj l o w) !! l' = heap w !! l'.
Proof. apply lookup_insert_ne. Qed.

Lemma put_obj_twice l o o' w : put_obj l o (put_obj l o' w) = put_obj l o w.
Proof. unfold put_obj. destruct w. unfold set_heap. cbn. by rewrite insert_insert_eq. Qed.

Lemma put_obj_id l o w : heap w !! l = Some o -> put_obj l o w = w.
Proof. intros H. unfold put_obj. destruct w. unfold set_heap. cbn in *. by rewrite insert_id. Qed.

Lemma put_obj_comm l l' o o' w :
  l <> l' -> put_obj l o (put_obj l' o' w) = put_obj l' o' (put_obj l o w).
Proof. intros H. unfold put_obj. destruct w. unfold set_heap. cbn. by rewrite insert_insert_ne. Qed.

Lemma put_obj_set_registers l o f m i w :
  put_obj l o (set_registers f m i w) = set_registers f m i (put_obj l o w).
Proof. done. Qed.

Lemma store_put w l o o' : heap w !! l = Some o -> store l o' w = Ok (tt, put_obj l o' w).
Proof. apply store_step. Qed.

Section Frame.

Context (w : World) (l : loc) (f : Frame).
Hypothesis Hf : heap w !! l = Some (OFrame f).

Lemma load_frame_step : load_frame l w = Ok (f, w).
Proof using Hf. unfold load_frame. by erewrite bind_step by (by apply load_step). Qed.

Lemma store_frame g : store l (OFrame g) w = Ok (tt, put_frame l g w).
Proof using Hf. by eapply store_put. Qed.

Lemma Push_step x :
  (length (f_slots f) < f_size f)%nat ->
  Push l x w = Ok (tt, put_frame l (with_slots (f_slots f ++ [x]) f) w).
Proof using Hf.
  intros H. unfold Push. erewrite bind_step by apply load_frame_step.
  rewrite (proj2 (Nat.ltb_lt _ _)) by done. apply store_frame.
Qed.

Lemma Pop_step s x :
  f_slots f = s ++ [x] -> Pop l w = Ok (x, put_frame l (with_slots s f) w).
Proof using Hf.
  intros H. unfold Pop. erewrite bind_step by apply load_frame_step.
  rewrite H, last_snoc, removelast_last. by erewrite bind_step by apply store_frame.
Qed.

Lemma PopVoid_step s x :
  f_slots f = s ++ [x] -> PopVoid l w = Ok (tt, put_frame l (with_slots s f) w).
Proof using Hf. intros H. unfold PopVoid. by erewrite bind_step by (by apply Pop_step). Qed.

Lemma GetStackElement_step s x t :
  f_slots f = s ++ x :: t -> GetStackElement l (length t) w = Ok (x, w).
Proof using Hf.
  intros H. unfold GetStackElement. erewrite bind_step by apply load_frame_step.
  apply of_option_step. unfold stack_element. rewrite H, length_app. cbn [length].
  rewrite (proj2 (Nat.ltb_lt _ _)) by lia.
  apply list_lookup_middle. lia.
Qed.

Lemma Top_step s x : f_slots f = s ++ [x] -> Top l w = Ok (x, w).
Proof using Hf. apply (GetStackElement_step s x []). Qed.

Lemma SetTop_step s x y :
  f_slots f = s ++ [x] -> SetTop l y w = Ok (tt, put_frame l (with_slots (s ++ [y]) f) w).
Proof using Hf.
  intros H. unfold SetTop. erewrite bind_step by apply load_frame_step.
  rewrite H, removelast_last. destruct (s ++ [x]) eqn:E; [by destruct s|]. apply store_frame.
Qed.

Lemma read_slot_step i x : f_slots f !! i = Some x -> read_slot l i w = Ok (x, w).
Proof using Hf.
  intros H. unfold read_slot. erewrite bind_step by apply load_frame_step.
  by apply of_option_step.
Qed.

Lemma write_slot_step i x :
  (i < length (f_slots f))%nat ->
  write_slot l i x w = Ok (tt, put_frame l (with_slots (<[i := x]> (f_slots f)) f) w).
Proof using Hf.
  intros H. unfold write_slot. erewrite bind_step by apply load_frame_step.
  rewrite (proj2 (Nat.ltb_lt _ _)) by done. apply store_frame.
Qed.

Lemma update_frame_step g : update_frame l g w = Ok (tt, put_frame l (g f) w).
Proof using Hf.
  unfold update_frame. erewrite bind_step by apply load_frame_step. apply store_frame.
Qed.

End Frame.

#[export] Hint Resolve load_frame_step Push_step Pop_step PopVoid_step Top_step SetTop_step
  read_slot_step write_slot_step update_frame_step : run.

Lemma load_method_step w l m : heap w !! l = Some (OMethod m) -> load_method l w = Ok (m, w).
Proof. intros H. unfold load_method. by erewrite bind_step by (by apply load_step). Qed.
#[export] Hint Resolve load_method_step : run.

(** [n] pops in a row remove the last [n] slots. *)
Lemma pop_n_step n w l f s t :
  heap w !! l = Some (OFrame f) -> f_slots f = s ++ t -> length t = n ->
  pop_n n l w = Ok (tt, put_frame l (with_slots s f) w).
Proof.
  revert w f t. induction n as [|n IH]; intros w f t Hf Hs Ht.
  - destruct t; [|done]. rewrite app_nil_r in Hs. cbn. rewrite <- Hs.
    rewrite put_obj_id; [done|]. by destruct f.
  - destruct t as [|x t] using rev_ind; [done|]. clear IHt.
    rewrite length_app in Ht. cbn in Ht. cbn [pop_n].
    rewrite app_assoc in Hs. erewrite bind_step by (by eapply PopVoid_step).
    rewrite (IH _ (with_slots (s ++ t) f) t); [|by apply put_obj_eq|done|lia].
    by rewrite put_obj_twice.
Qed.

Lemma GetFrame_step w l : frame w = Some l -> GetFrame w = Ok (l, w).
Proof. intros H. unfold GetFrame. erewrite bind_step by apply gets_step. by rewrite H. Qed.
#[export] Hint Resolve GetFrame_step : run.

(** Leaving the frame [cur], whose method is at [pc], for the frame [l]. *)
Lemma SetFrame_step w cur f l g :
  frame w = Some cur -> heap w !! cur = Some (OFrame f) ->
  cur <> l -> heap w !! l = Some (OFrame g) ->
  SetFrame l w =
    Ok (tt, set_registers (Some l) (f_method g) (f_bytecodeIndex g)
              (put_frame cur (with_bytecodeIndex (bytecodeIndexGlobal w) f) w)).
Proof.
  intros Hc Hf Hne Hg. unfold SetFrame.
  do 2 erewrite bind_step by apply gets_step. rewrite Hc. cbn beta iota.
  erewrite bind_step by (by apply update_frame_step).
  erewrite bind_step; [|apply load_frame_step, (eq_trans (put_obj_ne _ _ _ _ Hne) Hg)].
  apply modify_step.
Qed.

Lemma alloc_step o w : alloc o w = Ok (next w, put_obj (next w) o (set_next (S (next w)) w)).
Proof. done. Qed.
#[export] Hint Resolve alloc_step : run.

(** ** Calls *)

(** The argument slots of the new frame are filled in order from the stack of the
    caller. *)
Lemma copy_arguments_step n w this from g f base args done_ rest :
  this <> from ->
  heap w !! from = Some (OFrame f) -> f_slots f = base ++ done_ ++ args ->
  heap w !! this = Some (OFrame g) ->
  (exists old, length old = length args /\ f_slots g = done_ ++ old ++ rest) ->
  length args = n ->
  copy_arguments n (length (done_ ++ args)) this from w =
    Ok (tt, put_frame this (with_slots (done_ ++ args ++ rest) g) w).
Proof.
  intros Hne. revert w g args done_.
  induction n as [|n IH]; intros w g args done_ Hf Hs Hg (old & Ho & Hgs) Hn.
  - destruct args; [|done]. destruct old; [|done]. cbn.
    rewrite put_obj_id; [done|].
    cbn in Hgs. rewrite <- Hgs, Hg. by destruct g.
  - destruct args as [|a args]; [done|]. destruct old as [|o old]; [done|].
    cbn in Ho, Hn. cbn [copy_arguments].
    assert (length (done_ ++ a :: args) - S n = length done_)%nat as ->
      by (rewrite length_app; cbn; lia).
    erewrite bind_step.
    2:{ replace (length (done_ ++ a :: args) - 1 - length done_)%nat with (length args)
          by (rewrite length_app; cbn; lia).
        eapply (GetStackElement_step w from f Hf (base ++ done_) a args).
        by rewrite Hs, <- app_assoc. }
    erewrite bind_step.
    2:{ apply write_slot_step; [done|]. rewrite Hgs, length_app. cbn. lia. }
    replace (done_ ++ a :: args) with ((done_ ++ [a]) ++ args) by by rewrite <- app_assoc.
    erewrite (IH _ (with_slots (<[length done_ := a]> (f_slots g)) g) args (done_ ++ [a])).
    + rewrite put_obj_twice. by rewrite <- app_assoc.
    + rewrite put_obj_ne; done.
    + by rewrite Hs, <- app_assoc.
    + apply put_obj_eq.
    + exists old. split; [lia|]. cbn. rewrite Hgs, <- app_assoc.
      rewrite insert_app_r_alt, Nat.sub_diag by lia. done.
    + lia.
Qed.

(** The frame of a method that was just called. *)
Definition callee_frame (nil : oop) (caller this : loc) (m : Method) (args : list oop) : Frame :=
  mkFrame (Some caller) None this 0 (m_numberOfArguments m)
    (args ++ replicate (m_numberOfLocals m) nil)
    (m_numberOfArguments m + m_numberOfLocals m + m_maxStack m).

(** The state on entry of a method: the caller has its index saved, the registers
    are those of the new frame. *)
Definition entered (w : World) (cur : loc) (f : Frame) (this : loc) (m : Method)
    (args : list oop) : World :=
  set_registers (Some (next w)) this 0
    (put_frame (next w) (callee_frame (nilObject (known w)) cur this m args)
      (set_next (S (next w))
        (put_frame cur (with_bytecodeIndex (bytecodeIndexGlobal w) f) w))).

Lemma SetFrame_saved w cur f l g :
  frame w = Some cur -> heap w !! cur = Some (OFrame f) ->
  f_bytecodeIndex f = bytecodeIndexGlobal w ->
  cur <> l -> heap w !! l = Some (OFrame g) ->
  SetFrame l w = Ok (tt, set_registers (Some l) (f_method g) (f_bytecodeIndex g) w).
Proof.
  intros Hc Hf Hi Hne Hg. erewrite SetFrame_step by done.
  rewrite put_obj_id; [done|]. rewrite Hf, <- Hi. by destruct f.
Qed.

Lemma PushNewFrame_step w cur f this m :
  frame w = Some cur -> heap w !! cur = Some (OFrame f) ->
  f_bytecodeIndex f = bytecodeIndexGlobal w ->
  heap w !! this = Some (OMethod m) -> heap w !! next w = None ->
  PushNewFrame this w =
    Ok (next w,
        set_registers (Some (next w)) this 0
          (put_frame (next w)
             (callee_frame (nilObject (known w)) cur this m
                (replicate (m_numberOfArguments m) Null))
             (set_next (S (next w)) w))).
Proof.
  intros Hc Hf Hi Hm Hn. assert (cur <> next w) by congruence.
  unfold PushNewFrame, NewFrame. mrun. rewrite Hc.
  erewrite bind_step; [apply ret_step|].
  etrans; [eapply SetFrame_saved; [done| |done|done|apply lookup_insert_eq]|done].
  rewrite <- Hf. by apply lookup_insert_ne.
Qed.

Lemma VMMethod_Invoke_step w cur f this m base args :
  frame w = Some cur -> heap w !! cur = Some (OFrame f) ->
  heap w !! this = Some (OMethod m) -> heap w !! next w = None ->
  f_slots f = base ++ args -> length args = m_numberOfArguments m ->
  VMMethod_Invoke this cur w = Ok (Some (next w), entered w cur f this m args).
Proof.
  intros Hc Hf Hm Hn Hs Ha. unfold VMMethod_Invoke.
  assert (cur <> next w /\ cur <> this /\ this <> next w) as (?&?&?).
  { split_and!; congruence. }
  erewrite bind_step by apply gets_step.
  erewrite bind_step by (by apply update_frame_step).
  set (w1 := put_obj _ _ w).
  erewrite bind_step.
  2:{ eapply PushNewFrame_step; [done|apply put_obj_eq|done| |];
        unfold w1; by rewrite put_obj_ne. }
  erewrite bind_step; [apply ret_step|].
  unfold CopyArgumentsFrom.
  erewrite bind_step by (apply load_frame_step, put_obj_eq). cbn [f_method callee_frame].
  erewrite bind_step.
  2:{ apply load_method_step. cbn. rewrite !lookup_insert_ne by done. done. }
  rewrite <- Ha.
  rewrite (copy_arguments_step _ _ _ _
             (callee_frame (nilObject (known w)) cur this m (replicate (length args) Null))
             (with_bytecodeIndex (bytecodeIndexGlobal w) f) base args []
             (replicate (m_numberOfLocals m) (nilObject (known w)))).
  - unfold entered. rewrite put_obj_set_registers, put_obj_twice. done.
  - done.
  - cbn. rewrite lookup_insert_ne by done. apply lookup_insert_eq.
  - done.
  - apply put_obj_eq.
  - exists (replicate (length args) Null). rewrite length_replicate. done.
  - done.
Qed.

Lemma VMMethod_Invoke1_step w cur f this m base x :
  frame w = Some cur -> heap w !! cur = Some (OFrame f) ->
  heap w !! this = Some (OMethod m) -> heap w !! next w = None ->
  f_slots f = base ++ [x] -> m_numberOfArguments m = 1%nat ->
  VMMethod_Invoke1 this cur w = VMMethod_Invoke this cur w.
Proof.
  intros Hc Hf Hm Hn Hs Ha.
  erewrite (VMMethod_Invoke_step w cur f this m base [x]) by done.
  unfold VMMethod_Invoke1.
  assert (cur <> next w /\ cur <> this /\ this <> next w) as (?&?&?).
  { split_and!; congruence. }
  erewrite bind_step by apply gets_step.
  erewrite bind_step by (by apply update_frame_step).
  set (w1 := put_obj _ _ w).
  erewrite bind_step.
  2:{ eapply PushNewFrame_step; [done|apply put_obj_eq|done| |];
        unfold w1; by rewrite put_obj_ne. }
  erewrite bind_step.
  2:{ eapply (Top_step _ _ (with_bytecodeIndex (bytecodeIndexGlobal w) f)); [|done].
      cbn. rewrite lookup_insert_ne by done. apply lookup_insert_eq. }
  erewrite bind_step; [apply ret_step|].
  unfold SetArgumentInCurrentContext. rewrite Ha.
  erewrite write_slot_step; [|apply put_obj_eq|cbn; lia].
  unfold entered. rewrite put_obj_set_registers, put_obj_twice.
  unfold callee_frame. by rewrite Ha.
Qed.

(** ** Returns *)

(** The registers are those of the frame [l] again. *)
Definition resumed (l : loc) (g : Frame) (w : World) : World :=
  set_registers (Some l) (f_method g) (f_bytecodeIndex g) w.

(** A frame that was left: it keeps its index and has no link to its caller. *)
Definition left_frame (w : World) (f : Frame) : Frame :=
  with_previous None (with_bytecodeIndex (bytecodeIndexGlobal w) f).

Lemma popFrame_step w cur f prev g :
  frame w = Some cur -> heap w !! cur = Some (OFrame f) -> f_previous f = Some prev ->
  cur <> prev -> heap w !! prev = Some (OFrame g) ->
  popFrame w = Ok (cur, resumed prev g (put_frame cur (left_frame w f) w)).
Proof.
  intros Hc Hf Hp Hne Hg. unfold popFrame.
  erewrite bind_step by (by apply GetFrame_step).
  erewrite bind_step by (by apply load_frame_step).
  erewrite bind_step by (by apply of_option_step).
  erewrite bind_step by (by eapply SetFrame_step).
  erewrite bind_step.
  2:{ apply update_frame_step. apply put_obj_eq. }
  rewrite put_obj_set_registers, put_obj_twice. done.
Qed.

(** The number of arguments of the method of a frame. *)
Definition arguments_of (w : World) (f : Frame) (n : nat) : Prop :=
  exists m, heap w !! f_method f = Some (OMethod m) /\ m_numberOfArguments m = n.

Lemma popFrameAndPushResult_step w cur f prev g s args r :
  frame w = Some cur -> heap w !! cur = Some (OFrame f) -> f_previous f = Some prev ->
  cur <> prev -> heap w !! prev = Some (OFrame g) ->
  f_slots g = s ++ args -> arguments_of w f (length args) ->
  (length s < f_size g)%nat ->
  popFrameAndPushResult r w =
    Ok (tt, resumed prev g
              (put_frame prev (with_slots (s ++ [r]) g) (put_frame cur (left_frame w f) w))).
Proof.
  intros Hc Hf Hp Hne Hg Hs (m & Hm & Hn) Hz. unfold popFrameAndPushResult.
  assert (cur <> f_method f) by congruence.
  erewrite bind_step by (by eapply popFrame_step).
  erewrite bind_step by (apply load_frame_step, put_obj_eq).
  erewrite bind_step.
  2:{ apply load_method_step. cbn. by rewrite lookup_insert_ne. }
  erewrite bind_step by (by apply GetFrame_step). rewrite Hn.
  erewrite bind_step.
  2:{ eapply pop_n_step; [|done|done]. cbn. by rewrite lookup_insert_ne. }
  erewrite Push_step; [|apply put_obj_eq|done].
  rewrite put_obj_twice. unfold resumed. by rewrite put_obj_set_registers.
Qed.

(** ** Chains of frames *)

(** The frame that called the activation [l], and the frame its block was made in. *)
Definition caller_of (h : gmap loc obj) (l : loc) : option loc :=
  match h !! l with Some (OFrame f) => f_previous f | _ => None end.
Definition context_of (h : gmap loc obj) (l : loc) : option loc :=
  match h !! l with Some (OFrame f) => f_context f | _ => None end.

(** From [l] the links lead through [ls] to [t], which is not passed before. *)
Inductive path (link : loc -> option loc) : loc -> list loc -> loc -> Prop :=
  | path_nil l : path link l [] l
  | path_cons l l' ls t :
      link l = Some l' -> l <> t -> path link l' ls t -> path link l (l :: ls) t.

Section Paths.

Context (link : loc -> option loc).

Lemma path_functional l ls ls' t : path link l ls t -> path link l ls' t -> ls = ls'.
Proof.
  intros H. revert ls'. induction H as [l|l l' ls t E N H IH]; intros ls' H'.
  - inversion H'; by subst.
  - inversion H'; subst; [done|]. f_equal. apply IH. congruence.
Qed.

Lemma path_suffix l ls t d :
  path link l ls t -> d ∈ ls -> exists ls1 ls2, ls = ls1 ++ ls2 /\ path link d ls2 t.
Proof.
  intros H. induction H as [l|l l' ls t E N H IH]; intros Hd.
  - by apply elem_of_nil in Hd.
  - apply elem_of_cons in Hd as [->|Hd].
    + exists [], (l :: ls). split; [done|]. by econstructor.
    + destruct (IH Hd) as (l1 & l2 & -> & ?). by exists (l :: l1), l2.
Qed.

Lemma path_nodup l ls t : path link l ls t -> NoDup ls.
Proof.
  intros H. induction H as [l|l l' ls t E N H IH]; constructor; [|done].
  intros Hl. destruct (path_suffix _ _ _ _ H Hl) as (l1 & l2 & -> & H2).
  assert (path link l (l :: l1 ++ l2) t) as H3 by (by econstructor).
  pose proof (f_equal length (path_functional _ _ _ _ H2 H3)) as F.
  cbn in F. rewrite length_app in F. lia.
Qed.

Lemma path_target l ls t : path link l ls t -> t ∉ ls.
Proof.
  intros H. induction H as [l|l l' ls t E N H IH]; [apply not_elem_of_nil|].
  apply not_elem_of_cons. done.
Qed.

Lemma path_linked l ls t d : path link l ls t -> d ∈ ls -> is_Some (link d).
Proof.
  intros H Hd. destruct (path_suffix _ _ _ _ H Hd) as (? & ? & _ & H2).
  inversion H2; subst; [|eauto].
  by apply path_target in H.
Qed.

End Paths.

Lemma path_bound w link l ls t :
  heap_ok w -> (forall d, is_Some (link d) -> is_Some (heap w !! d)) ->
  path link l ls t -> (length ls <= next w)%nat.
Proof.
  intros HO HL H.
  assert (ls ⊆+ seq 0 (next w)) as L.
  { apply NoDup_submseteq; [by eapply path_nodup|]. intros d Hd. apply elem_of_seq.
    destruct (HL d) as [o Ho]; [by eapply path_linked|].
    apply (heap_below _ HO) in Ho. lia. }
  apply submseteq_length in L. by rewrite length_seq in L.
Qed.

Lemma caller_of_frame h l p : caller_of h l = Some p ->
  exists f, h !! l = Some (OFrame f) /\ f_previous f = Some p.
Proof. unfold caller_of. destruct (h !! l) as [[]|]; intros; simplify_eq; eauto. Qed.

Lemma context_of_frame h l p : context_of h l = Some p ->
  exists f, h !! l = Some (OFrame f) /\ f_context f = Some p.
Proof. unfold context_of. destruct (h !! l) as [[]|]; intros; simplify_eq; eauto. Qed.

(** [GetOuterContext] is the end of the chain of contexts. *)
Lemma outer_context_step fuel w l ls t f :
  path (context_of (heap w)) l ls t -> (length ls < fuel)%nat ->
  heap w !! t = Some (OFrame f) -> f_context f = None ->
  outer_context fuel l w = Ok (t, w).
Proof.
  intros H. revert fuel. induction H as [l|l l' ls t E N H IH]; intros fuel Hn Hf Hc.
  - destruct fuel; [lia|]. cbn [outer_context].
    erewrite bind_step by (by apply load_frame_step). by rewrite Hc.
  - destruct fuel; [cbn in Hn; lia|]. cbn [outer_context].
    destruct (context_of_frame _ _ _ E) as (g & Hg & Hp).
    erewrite bind_step by (by apply load_frame_step). rewrite Hp.
    apply IH; [cbn in Hn; lia|done|done].
Qed.

Lemma GetOuterContext_step w l ls t f :
  heap_ok w -> path (context_of (heap w)) l ls t ->
  heap w !! t = Some (OFrame f) -> f_context f = None ->
  GetOuterContext l w = Ok (t, w).
Proof.
  intros HO H Hf Hc. unfold GetOuterContext, heap_fuel. erewrite bind_step by apply gets_step.
  eapply outer_context_step; [done| |done|done].
  assert (length ls <= next w)%nat; [|lia]. eapply path_bound; [done| |done].
  intros d [p Hd]. apply context_of_frame in Hd as (? & ? & ?). eauto.
Qed.

(** ** Non-local returns *)

(** The frames [ls] were left, nothing else in the heap changed. *)
Record unwound (ls : list loc) (w w' : World) : Prop := mkUnwound {
  unwound_others : forall l, l ∉ ls -> heap w' !! l = heap w !! l;
  unwound_left : forall l f, l ∈ ls -> heap w !! l = Some (OFrame f) ->
    exists i, heap w' !! l = Some (OFrame (with_previous None (with_bytecodeIndex i f)));
  unwound_rest : exists f m i, w' = set_registers f m i (set_heap (heap w') w) }.

Lemma path_ext link link' l ls t :
  (forall d, d ∈ ls -> link d = link' d) -> path link l ls t -> path link' l ls t.
Proof.
  intros HE H. induction H as [l|l l' ls t E N H IH]; [constructor|].
  econstructor; [|done|].
  - rewrite <- HE; [done|]. apply elem_of_cons. auto.
  - apply IH. intros d Hd. apply HE, elem_of_cons. auto.
Qed.

Lemma path_start_target link l l' t ls : path link l (l' :: ls) t -> l = l' /\ l <> t.
Proof. inversion 1; by subst. Qed.

(** A frame other than the last one of a chain of callers has a frame as caller. *)
Lemma path_frames w l ls t :
  path (caller_of (heap w)) l ls t -> (exists f, heap w !! t = Some (OFrame f)) ->
  exists f, heap w !! l = Some (OFrame f).
Proof.
  intros H Ht. inversion H as [|? ? ? ? E]; subst; [done|].
  apply caller_of_frame in E as (f & ? & ?). eauto.
Qed.

Lemma unwind_to_step fuel w l ls t :
  frame w = Some l -> path (caller_of (heap w)) l ls t ->
  (exists f, heap w !! t = Some (OFrame f)) -> (length ls < fuel)%nat ->
  exists w', unwind_to fuel t w = Ok (tt, w') /\ frame w' = Some t /\ unwound ls w w'.
Proof.
  revert w l ls. induction fuel as [|fuel IH]; intros w l ls Hl H Ht Hn; [lia|].
  cbn [unwind_to]. erewrite bind_step by (by apply GetFrame_step).
  inversion H as [|? l' ls' ? E N H']; subst; case_decide; try done.
  - clear IH. exists w. split; [done|]. split; [done|]. split.
    + done.
    + intros ? ? Hd. by apply elem_of_nil in Hd.
    + exists (frame w), (method w), (bytecodeIndexGlobal w). by destruct w.
  - apply caller_of_frame in E as (f & Hf & Hp).
    destruct (path_frames _ _ _ _ H' Ht) as [g Hg]. destruct Ht as [ft Hft].
    assert (l ∉ ls') as Hni.
    { apply path_nodup in H. by inversion H. }
    assert (l <> l') as Hne.
    { intros <-. inversion H'; subst; [done|]. apply Hni, elem_of_cons. auto. }
    erewrite bind_step by (by eapply popFrame_step).
    set (w1 := resumed l' g _).
    assert (forall d, d <> l -> heap w1 !! d = heap w !! d) as Hsame.
    { intros d Hd. cbn. by rewrite lookup_insert_ne. }
    destruct (IH w1 l' ls') as (w' & Hr & Hf' & [Ho Hlf (a & b & c & He)]).
    + done.
    + eapply path_ext; [|done]. intros d Hd. unfold caller_of. rewrite Hsame; [done|]. set_solver.
    + exists ft. by rewrite Hsame.
    + cbn in Hn. lia.
    + exists w'. split; [done|]. split; [done|]. split.
      * intros d Hd. rewrite Ho, Hsame; set_solver.
      * intros d fd Hd Hfd. apply elem_of_cons in Hd as [->|Hd].
        -- exists (bytecodeIndexGlobal w). rewrite Ho by done. simplify_eq. apply lookup_insert_eq.
        -- apply Hlf; [done|]. rewrite Hsame; [done|]. set_solver.
      * exists a, b, c. rewrite He at 1. done.
Qed.

Lemma heap_ok_put_frame w l f f' :
  heap_ok w -> heap w !! l = Some (OFrame f) -> heap_ok (put_frame l f' w).
Proof.
  intros [HB HS] Hf. split.
  - intros d o Hd. cbn in *. destruct (decide (d = l)) as [->|]; [by eapply HB|].
    rewrite lookup_insert_ne in Hd by done. by eapply HB.
  - intros d k c es Hd. cbn in Hd. destruct (decide (d = l)) as [->|].
    + by rewrite lookup_insert_eq in Hd.
    + rewrite lookup_insert_ne in Hd by done. by eapply HS.
Qed.

Lemma arguments_of_put w l f g f' n :
  heap w !! l = Some (OFrame f) -> arguments_of w g n -> arguments_of (put_frame l f' w) g n.
Proof.
  intros Hl (m & Hm & Hn). exists m. split; [|done]. rewrite put_obj_ne; congruence.
Qed.

(** Changing the slots of a frame does not change its links. *)
Lemma links_put w l f s :
  heap w !! l = Some (OFrame f) ->
  forall d, caller_of (heap (put_frame l (with_slots s f) w)) d = caller_of (heap w) d /\
            context_of (heap (put_frame l (with_slots s f) w)) d = context_of (heap w) d.
Proof.
  intros Hl d. unfold caller_of, context_of. destruct (decide (d = l)) as [->|].
  - rewrite put_obj_eq, Hl. done.
  - by rewrite put_obj_ne.
Qed.

Section NonLocal.

Context (USE_TAGGING : bool) (routines : Routines) (w : World).
Context (cur home sender : loc) (f fh fs : Frame).
Context (base s args : list oop) (r : oop) (lex dyn : list loc).

(** A block activation [cur] whose home method is still active and was called by
    [sender]; the value to return is on top of the stack. *)
Record returning : Prop := mkReturning {
  ret_frame : frame w = Some cur;
  ret_cur : heap w !! cur = Some (OFrame f);
  ret_value : f_slots f = base ++ [r];
  ret_lexical : path (context_of (heap w)) cur lex home;
  ret_home : heap w !! home = Some (OFrame fh);
  ret_outermost : f_context fh = None;
  ret_dynamic : path (caller_of (heap w)) cur dyn home;
  ret_previous : f_previous fh = Some sender;
  ret_fresh : sender ∉ home :: dyn;
  ret_sender : heap w !! sender = Some (OFrame fs);
  ret_slots : f_slots fs = s ++ args;
  ret_arguments : arguments_of w fh (length args);
  ret_room : (length s < f_size fs)%nat }.

Hypothesis HO : heap_ok w.
Hypothesis H : returning.

(** The state after the value was popped. *)
Let w1 : World := put_frame cur (with_slots base f) w.
Let fh1 : Frame := if decide (cur = home) then with_slots base fh else fh.

Lemma popped_home : heap w1 !! home = Some (OFrame fh1).
Proof using H.
  destruct H. unfold w1, fh1. case_decide as E.
  - rewrite <- E, put_obj_eq. rewrite <- E in ret_home0. congruence.
  - by rewrite put_obj_ne.
Qed.

Lemma popped_sender : heap w1 !! sender = Some (OFrame fs).
Proof using H HO.
  destruct H. unfold w1. rewrite put_obj_ne; [done|]. intros ->.
  apply ret_fresh0. inversion ret_dynamic0; set_solver.
Qed.

Lemma popped_bound : (length dyn < S (next w1))%nat.
Proof using H HO.
  destruct H. assert (length dyn <= next w)%nat; [|unfold w1; cbn; lia].
  eapply path_bound; [done| |done].
  intros d [p Hd]. apply caller_of_frame in Hd as (? & ? & ?). eauto.
Qed.

Lemma doReturnNonLocal_step fuel :
  exists w', doReturnNonLocal USE_TAGGING routines fuel w = Ok (tt, w') /\
    exists w2 i,
      unwound dyn w1 w2 /\
      w' = resumed sender fs (put_frame sender (with_slots (s ++ [r]) fs)
             (put_frame home (with_previous None (with_bytecodeIndex i fh1)) w2)).
Proof using H HO.
  pose proof popped_home as Hh. pose proof popped_sender as Hs. pose proof popped_bound as Hb.
  destruct H. unfold doReturnNonLocal, pop. rewrite bind_assoc.
  erewrite bind_step by (by apply GetFrame_step).
  erewrite bind_step by (by eapply Pop_step). fold w1.
  erewrite bind_step by (by apply GetFrame_step).
  assert (forall d, caller_of (heap w1) d = caller_of (heap w) d /\
                    context_of (heap w1) d = context_of (heap w) d) as HL by by apply links_put.
  erewrite bind_step.
  2:{ eapply GetOuterContext_step; [by eapply heap_ok_put_frame| |exact Hh|].
      - eapply path_ext; [|exact ret_lexical0]. intros. symmetry. apply HL.
      - unfold fh1. by case_decide. }
  erewrite bind_step by (by apply load_frame_step).
  assert (f_previous fh1 = Some sender) as Hp by (unfold fh1; by case_decide).
  rewrite Hp. unfold heap_fuel. erewrite bind_step by apply gets_step.
  destruct (unwind_to_step (S (next w1)) w1 cur dyn home) as (w2 & Hr & Hf2 & Hu); eauto.
  { eapply path_ext; [|exact ret_dynamic0]. intros. symmetry. apply HL. }
  erewrite bind_step by exact Hr.
  assert (heap w2 !! home = Some (OFrame fh1)) as Hh2.
  { rewrite (unwound_others _ _ _ Hu); [done|]. by eapply path_target. }
  eexists. split.
  - eapply popFrameAndPushResult_step; [done|done|done| | |done| |done].
    + set_solver.
    + rewrite (unwound_others _ _ _ Hu); [done|]. set_solver.
    + destruct (arguments_of_put w cur f fh (with_slots base f) _ ret_cur0 ret_arguments0)
        as (m & Hm & Hn).
      exists m. split; [|done].
      assert (f_method fh1 = f_method fh) as -> by (unfold fh1; by case_decide).
      rewrite (unwound_others _ _ _ Hu); [done|]. intros Hd.
      apply (path_linked _ _ _ _ _ ret_dynamic0) in Hd as [p Hd]. 
      destruct (HL (f_method fh)) as [E _]. rewrite <- E in Hd.
      apply caller_of_frame in Hd as (? & Hd & _). fold w1 in Hm. congruence.
  - by exists w2, (bytecodeIndexGlobal w2).
Qed.

End NonLocal.

(** ** The claims *)

(** C21: calls and returns are bracketed.  Invoking a bytecode method from a frame with
    the arguments on top of its stack makes a frame whose slots are the arguments in
    order and the locals set to nil, linked to the caller, with the registers at the
    start of the method; nothing else changes but the saved index of the caller, and
    the variant for unary sends does the same.  Whatever the callee did in between, a
    return from its frame puts the registers of the caller back as they were at the
    call, replaces the arguments on its stack by the result and cuts the link of the
    frame that was left. *)
Theorem call_then_return w cur f this m base args :
  frame w = Some cur -> heap w !! cur = Some (OFrame f) ->
  heap w !! this = Some (OMethod m) -> heap w !! next w = None ->
  f_slots f = base ++ args -> length args = m_numberOfArguments m ->
  (length base < f_size f)%nat ->
  exists w1, VMMethod_Invoke this cur w = Ok (Some (next w), w1) /\
    (m_numberOfArguments m = 1%nat ->
      VMMethod_Invoke1 this cur w = Ok (Some (next w), w1)) /\
    frame w1 = Some (next w) /\ method w1 = this /\ bytecodeIndexGlobal w1 = 0 /\
    heap w1 !! next w = Some (OFrame (callee_frame (nilObject (known w)) cur this m args)) /\
    heap w1 !! cur = Some (OFrame (with_bytecodeIndex (bytecodeIndexGlobal w) f)) /\
    (forall l, l <> cur -> l <> next w -> heap w1 !! l = heap w !! l) /\
    forall w2 g f2 base2 args2 r,
      frame w2 = Some (next w) -> heap w2 !! next w = Some (OFrame g) ->
      f_previous g = Some cur -> f_method g = this -> heap w2 !! this = Some (OMethod m) ->
      heap w2 !! cur = Some (OFrame f2) -> f_method f2 = f_method f ->
      f_bytecodeIndex f2 = bytecodeIndexGlobal w -> f_size f2 = f_size f ->
      f_slots f2 = base2 ++ args2 ->
      length base2 = length base -> length args2 = length args ->
      exists w3, popFrameAndPushResult r w2 = Ok (tt, w3) /\
        frame w3 = Some cur /\ method w3 = f_method f /\
        bytecodeIndexGlobal w3 = bytecodeIndexGlobal w /\
        heap w3 !! cur = Some (OFrame (with_slots (base2 ++ [r]) f2)) /\
        caller_of (heap w3) (next w) = None /\
        (forall l, l <> cur -> l <> next w -> heap w3 !! l = heap w2 !! l).
Proof.
  intros Hc Hf Hm Hn Hs Ha Hz. assert (next w <> cur) as Hne by congruence.
  eexists. split; [by eapply VMMethod_Invoke_step|]. split.
  { intros H1. destruct args as [|x [|]]; cbn in Ha; try lia.
    erewrite VMMethod_Invoke1_step by done. by eapply VMMethod_Invoke_step. }
  split_and!; [done|done|done|apply put_obj_eq| | |].
  { unfold entered. cbn. rewrite lookup_insert_ne by done. apply lookup_insert_eq. }
  { intros l ? ?. cbn. by rewrite !lookup_insert_ne. }
  intros w2 g f2 base2 args2 r H1 H2 H3 H4 H5 H6 H7 H8 H9 H10 H11 H12.
  eexists. split.
  { eapply popFrameAndPushResult_step; [done|done|done|done|done|done| |lia].
    exists m. rewrite H4, H12. done. }
  split_and!; [done|by cbn|done|apply put_obj_eq| |].
  - unfold caller_of. cbn. rewrite lookup_insert_ne, lookup_insert_eq by done. done.
  - intros l ? ?. cbn. by rewrite !lookup_insert_ne.
Qed.


(** ** An example

    A frame 1 that runs the method 0 called a method 2, whose activation 3 called back
    a block: the activation 4 of its method 5. *)
Definition example_method (args locals stack : nat) : Method :=
  mkMethod 9%nat Null locals stack [] args [] 0%nat [].

Definition example_heap : gmap loc obj :=
  <[0%nat := OMethod (example_method 1 0 4)]>
  (<[1%nat := OFrame (mkFrame None None 0%nat 7 1 [Tagged 1; Tagged 2; Tagged 3] 5)]>
  (<[2%nat := OMethod (example_method 2 1 2)]>
  (<[3%nat := OFrame (mkFrame (Some 1%nat) None 2%nat 5 2 [Tagged 2; Tagged 3; Null; Tagged 4] 5)]>
  (<[4%nat := OFrame (mkFrame (Some 3%nat) (Some 3%nat) 5%nat 0 1 [Tagged 4; Tagged 42] 3)]>
  (<[5%nat := OMethod (example_method 1 0 2)]> ∅))))).

Definition example_world (f : loc) (i : Z) : World :=
  mkWorld example_heap 6%nat ∅ 0%nat ∅ ∅ ∅
    (no_known Null) (Some f) 0%nat i.

Lemma example_heap_ok f i : heap_ok (example_world f i).
Proof.
  split.
  - intros l o H. cbn in *. unfold example_heap in H.
    repeat (apply lookup_insert_Some in H as [[<- _]|[_ H]]; [lia|]). done.
  - intros l k c es H. cbn in *. unfold example_heap in H.
    repeat (apply lookup_insert_Some in H as [[_ H']|[_ H]]; [done|]). done.
Qed.

Lemma call_then_return_witness :
  exists w1, VMMethod_Invoke 2%nat 1%nat (example_world 1%nat 7) = Ok (Some 6%nat, w1) /\
    heap w1 !! 6%nat =
      Some (OFrame (callee_frame Null 1%nat 2%nat (example_method 2 1 2) [Tagged 2; Tagged 3])).
Proof.
  destruct (call_then_return (example_world 1%nat 7) 1%nat
              (mkFrame None None 0%nat 7 1 [Tagged 1; Tagged 2; Tagged 3] 5) 2%nat
              (example_method 2 1 2) [Tagged 1] [Tagged 2; Tagged 3])
    as (w1 & H1 & _ & _ & _ & _ & H2 & _); try reflexivity; [cbn; lia|].
  exists w1. split; assumption.
Defined.

