(* ===== verification/Stores.v ===== *)
(** * Stores

    What the operations on arrays do to the objects, and what they leave as it was. *)
From Stdlib Require Import String.
From S2P Require Import Prelude Objects Lookup Universe Frame Interpreter Activation.
Local Open Scope Z_scope.

(** ** Steps of the array operations *)

(** What an operation may have done to the objects: those of [ls] may differ, and there
    may be new ones. *)
Definition changes (ls : list loc) (w w' : World) : Prop :=
  exists h n, w' = set_next n (set_heap h w) /\ (next w <= n)%nat /\
    forall l, (l < next w)%nat -> (l ∉ ls) -> h !! l = heap w !! l.

Lemma changes_refl ls w : changes ls w w.
Proof. exists (heap w), (next w). by destruct w. Qed.

Lemma changes_next ls w w' : changes ls w w' -> (next w <= next w')%nat.
Proof. by intros (h & n & -> & ? & _). Qed.

Lemma changes_known ls w w' : changes ls w w' -> known w' = known w.
Proof. by intros (h & n & -> & ? & _). Qed.

Lemma changes_lookup ls w w' l :
  changes ls w w' -> (l < next w)%nat -> (l ∉ ls) -> heap w' !! l = heap w !! l.
Proof. intros (h & n & -> & ? & H). apply H. Qed.

Lemma changes_trans ls w w1 w2 : changes ls w w1 -> changes ls w1 w2 -> changes ls w w2.
Proof.
  intros (h & n & -> & Hn & H) (h' & n' & -> & Hn' & H'). cbn in *.
  exists h', n'. split; [done|]. split; [lia|]. intros l Hl Hls.
  rewrite H' by (done || lia). by apply H.
Qed.

Lemma changes_put ls w l o : l ∈ ls -> changes ls w (put_obj l o w).
Proof.
  intros Hl. exists (<[l := o]> (heap w)), (next w). split; [by destruct w|]. split; [done|].
  intros l' ? ?. rewrite lookup_insert_ne; [done|]. by intros ->.
Qed.

Lemma changes_new ls w o : changes ls w (put_obj (next w) o (set_next (S (next w)) w)).
Proof.
  exists (<[next w := o]> (heap w)), (S (next w)). split; [done|]. split; [lia|].
  intros l ? ?. rewrite lookup_insert_ne; [done|lia].
Qed.

Lemma changes_put_new ls w w1 l o :
  changes ls w w1 -> (next w <= l)%nat -> changes ls w (put_obj l o w1).
Proof.
  intros (h & n & -> & Hn & H) Hl. exists (<[l := o]> h), n. split; [done|]. split; [done|].
  intros l' ? ?. rewrite lookup_insert_ne by lia. by apply H.
Qed.

Lemma changes_mono ls ls' w w' : ls ⊆ ls' -> changes ls w w' -> changes ls' w w'.
Proof.
  intros Hs (h & n & -> & ? & H). exists h, n. split; [done|]. split; [done|].
  intros l ? ?. apply H; [done|]. set_solver.
Qed.

(** Objects that are in the heap stay below its end. *)
Definition small_object (o : obj) : Prop :=
  match o with OObject _ _ es => Z.of_nat (length es) < 2 ^ 64 | _ => True end.

Lemma heap_ok_put w l o :
  heap_ok w -> (l < next w)%nat -> small_object o -> heap_ok (put_obj l o w).
Proof.
  intros [HB HS] Hl Ho. split; cbn.
  - intros l' o' [[<- <-]|[? ?]]%lookup_insert_Some; [done|by eapply HB].
  - intros l' k c es [[<- ->]|[? ?]]%lookup_insert_Some; [done|by eapply HS].
Qed.

Lemma heap_ok_new w o :
  heap_ok w -> small_object o -> heap_ok (put_obj (next w) o (set_next (S (next w)) w)).
Proof.
  intros [HB HS] Ho. split; cbn.
  - intros l' o' [[<- <-]|[? ?%HB]]%lookup_insert_Some; lia.
  - intros l' k c es [[<- ->]|[? ?]]%lookup_insert_Some; [done|by eapply HS].
Qed.

Lemma GetNumberOfIndexableFields_step w a k c es :
  heap w !! a = Some (OObject k c es) ->
  GetNumberOfIndexableFields (Ref a) w = Ok (Z.of_nat (length es), w).
Proof. intros Ha. unfold GetNumberOfIndexableFields, array_elements. by mrun. Qed.

Lemma GetField_step w a k c es i x :
  heap w !! a = Some (OObject k c es) -> 0 <= i -> es !! Z.to_nat i = Some x ->
  GetField (Ref a) i w = Ok (x, w).
Proof.
  intros Ha Hi Hx. unfold GetField. mrun. destruct (i <? 0) eqn:?; [lia|].
  by apply of_option_step.
Qed.

Lemma SetField_step w a k c es i x :
  heap w !! a = Some (OObject k c es) -> 0 <= i < Z.of_nat (length es) ->
  SetField (Ref a) i x w = Ok (tt, put_obj a (OObject k c (<[Z.to_nat i := x]> es)) w).
Proof.
  intros Ha Hi. unfold SetField. cbn [loc_of]. mrun.
  rewrite (proj2 (Z.leb_le _ _)), (proj2 (Z.ltb_lt _ _)) by lia. by eapply store_put.
Qed.

Lemma GetIndexableField_at w a k c p x q i :
  heap_ok w -> heap w !! a = Some (OObject k c (p ++ x :: q)) -> i = Z.of_nat (length p) ->
  GetIndexableField (Ref a) i w = Ok (x, w).
Proof. intros HO Ha ->. eapply GetIndexableField_step; [done..|]. by apply list_lookup_middle. Qed.

Lemma SetIndexableField_at w a k c p x q i y :
  heap_ok w -> heap w !! a = Some (OObject k c (p ++ x :: q)) -> i = Z.of_nat (length p) ->
  SetIndexableField (Ref a) i y w = Ok (tt, put_obj a (OObject k c (p ++ y :: q)) w).
Proof.
  intros HO Ha ->. pose proof (arrays_small _ HO _ _ _ _ Ha) as Hs.
  rewrite length_app in Hs. cbn [length] in Hs.
  unfold SetIndexableField.
  erewrite bind_step by (by eapply GetNumberOfIndexableFields_step).
  rewrite uwrap_small by lia. rewrite length_app. cbn [length].
  destruct (_ >? _) eqn:G; [clear - G; apply Z.gtb_lt in G; lia|].
  erewrite SetField_step; [|done|rewrite length_app; cbn [length]; lia].
  rewrite Nat2Z.id, insert_app_r_alt, Nat.sub_diag by lia. done.
Qed.

Lemma NewArray_step size w :
  NewArray size w =
    Ok (Ref (next w), put_obj (next w)
      (OObject KArray (arrayClass (known w)) (replicate (Z.to_nat size) (nilObject (known w))))
      (set_next (S (next w)) w)).
Proof. unfold NewArray. by mrun. Qed.

(** The loops over arrays.  [rest] is what the array [to] has behind the copied part. *)
Lemma copy_elements_step todo : forall w done_ from to k c k' c' rest i,
  heap_ok w -> from <> to -> i = Z.of_nat (length done_) ->
  heap w !! from = Some (OObject k c (done_ ++ todo)) ->
  heap w !! to = Some (OObject k' c' (done_ ++ rest)) -> (length todo <= length rest)%nat ->
  copy_elements (length todo) i (Ref from) (Ref to) w =
    Ok (tt, put_obj to (OObject k' c' (done_ ++ todo ++ drop (length todo) rest)) w).
Proof.
  induction todo as [|x todo IH]; intros w done_ from to k c k' c' rest i HO Hne Hi Hf Ht Hl.
  { cbn. by rewrite put_obj_id. }
  destruct rest as [|y rest]; cbn in Hl; [lia|]. cbn [length copy_elements].
  erewrite bind_step by (by eapply GetIndexableField_at).
  erewrite bind_step by (by eapply SetIndexableField_at).
  rewrite (IH _ (done_ ++ [x]) from to k c k' c' rest).
  - rewrite put_obj_twice. by rewrite <- !(assoc_L (++)).
  - apply heap_ok_put; [done|by eapply heap_below|].
    pose proof (arrays_small _ HO _ _ _ _ Ht) as Hs. cbn in *.
    rewrite length_app in Hs |- *. cbn in *. lia.
  - done.
  - rewrite length_app. cbn [length]. lia.
  - rewrite put_obj_ne by done. rewrite Hf. by rewrite <- (assoc_L (++)).
  - rewrite put_obj_eq. by rewrite <- (assoc_L (++)).
  - lia.
Qed.
