(* ===== verification/Messages.v ===== *)
(** * Messages that are not understood, and messages sent by the program

    What [AbstractVMObject::Send] does for a method, the protocol for a message that no
    class of the receiver understands ([Interpreter::triggerDoesNotUnderstand]), and the
    primitives [perform:] and [perform:withArguments:] of [primitives/Object.cpp]. *)
From Stdlib Require Import String.
From S2P Require Import Prelude Objects Lookup Universe Frame Interpreter Activation Stores Natives.
Local Open Scope Z_scope.

(** ** What lookup depends on

    The hierarchy is made of the objects that are neither frames nor symbols. *)
Definition lasting (o : obj) : bool :=
  match o with OFrame _ | OSymbol _ => false | _ => true end.

Definition keeps (w w' : World) : Prop :=
  known w' = known w /\ (next w <= next w')%nat /\
  (forall l o, heap w !! l = Some o -> lasting o = true -> heap w' !! l = Some o) /\
  (forall l s, heap w !! l = Some (OSymbol s) ->
     exists s', heap w' !! l = Some (OSymbol s') /\ sym_chars s' = sym_chars s).

Lemma keeps_refl w : keeps w w.
Proof. split_and!; eauto. Qed.

Lemma keeps_trans w1 w2 w3 : keeps w1 w2 -> keeps w2 w3 -> keeps w1 w3.
Proof.
  intros (K1 & N1 & H1 & S1) (K2 & N2 & H2 & S2).
  split; [congruence|]. split; [lia|]. split; [eauto|].
  intros l s Hl. destruct (S1 _ _ Hl) as (s1 & Hl1 & E1). destruct (S2 _ _ Hl1) as (s2 & Hl2 & E2).
  exists s2. split; [done|congruence].
Qed.

(** A store at a place that is new or has a frame. *)
Lemma keeps_store w w' l o :
  (forall l', l' <> l -> heap w' !! l' = heap w !! l') ->
  (heap w !! l = None \/ exists f, heap w !! l = Some (OFrame f)) ->
  known w' = known w -> (next w <= next w')%nat -> heap w' !! l = o -> keeps w w'.
Proof.
  intros Hne Hl HK HN _. split_and!; [done|done| |].
  - intros l' o' Ho Hs. rewrite Hne; [done|]. intros ->. by destruct Hl as [?|[? ?]]; simplify_eq.
  - intros l' s Hs. exists s. rewrite Hne; [done|]. intros ->. by destruct Hl as [?|[? ?]]; simplify_eq.
Qed.

Lemma keeps_put_frame w l f g : heap w !! l = Some (OFrame f) -> keeps w (put_frame l g w).
Proof. intros Hl. eapply keeps_store; eauto; intros; by apply put_obj_ne. Qed.

Lemma heap_ok_next w : heap_ok w -> heap w !! next w = None.
Proof. intros HO. apply eq_None_not_Some. intros [o ?%(heap_below _ HO)]. lia. Qed.

Lemma keeps_new w o : heap_ok w -> keeps w (put_obj (next w) o (set_next (S (next w)) w)).
Proof.
  intros HO. eapply (keeps_store _ _ (next w)); eauto using heap_ok_next; intros.
  - by rewrite put_obj_ne.
  - cbn. lia.
Qed.

Lemma keeps_cache name w w' : cache_only name w w' -> keeps w w'.
Proof.
  intros (s & s' & Hn & Hs & ->). split_and!; [done|done| |].
  - intros l o Ho Hl. cbn. rewrite lookup_insert_ne; [done|]. intros ->. by simplify_eq.
  - intros l t Ht. cbn. destruct (decide (l = name)) as [->|N].
    + exists s'. rewrite lookup_insert_eq. by simplify_eq.
    + exists t. by rewrite lookup_insert_ne.
Qed.

Section Keeps.

Context (w w' : World) (K : keeps w w').

Lemma entry_keeps p x : entry (heap w) p = Some x -> entry (heap w') p = Some x.
Proof using K.
  destruct K as (_ & _ & H & _). destruct p as [| |l]; [done..|]. cbn.
  destruct (heap w !! l) as [o|] eqn:E; [|done]. cbn. intros Ho.
  rewrite (H l o E); [done|]. by destruct o.
Qed.

Lemma entries_keep es xs : mapM (entry (heap w)) es = Some xs -> mapM (entry (heap w')) es = Some xs.
Proof using K.
  rewrite !mapM_Some. intros H. induction H; constructor; eauto using entry_keeps.
Qed.

Lemma class_shape_keeps c x : class_shape (heap w) c = Some x -> class_shape (heap w') c = Some x.
Proof using K.
  destruct x as [ms super]. pose proof K as (_ & _ & H & _).
  intros (cl & fields & a & k & acl & es & Hc & H2 & H3 & Ha & HM)%class_shape_inv.
  unfold class_shape. rewrite (H _ _ Hc eq_refl), H2, H3, (H _ _ Ha eq_refl).
  by rewrite (entries_keep _ _ HM).
Qed.

Lemma finds_keeps nil name c chain r :
  finds (heap w) nil name c chain r -> finds (heap w') nil name c chain r.
Proof using K.
  induction 1; eauto using finds_here, finds_super, finds_nowhere, class_shape_keeps.
Qed.

Lemma cache_sound_keeps :
  cache_sound w ->
  (forall l s, heap w' !! l = Some (OSymbol s) -> heap w !! l = Some (OSymbol s)) -> cache_sound w'.
Proof using K.
  intros HC HS name s c i Hn Hin. destruct (HC _ _ _ _ (HS _ _ Hn) Hin) as (d & chain & -> & HF).
  exists d, chain. split; [done|]. destruct K as (-> & _). by apply finds_keeps.
Qed.

End Keeps.

Lemma cache_sound_put_frame w l f g :
  heap w !! l = Some (OFrame f) -> cache_sound w -> cache_sound (put_frame l g w).
Proof.
  intros Hl HC. eapply cache_sound_keeps; [by eapply keeps_put_frame|done|].
  intros l' s H. cbn in H. by apply lookup_insert_Some in H as [[_ ?]|[_ ?]].
Qed.

Lemma cache_sound_new w o :
  heap_ok w -> cache_sound w -> lasting o = true ->
  cache_sound (put_obj (next w) o (set_next (S (next w)) w)).
Proof.
  intros HO HC Ho. eapply cache_sound_keeps; [by apply keeps_new|done|].
  intros l' s H. cbn in H. by apply lookup_insert_Some in H as [[_ ->]|[_ ?]].
Qed.

Lemma heap_ok_cache name w w' : heap_ok w -> cache_only name w w' -> heap_ok w'.
Proof.
  intros HO (s & s' & Hn & _ & ->). apply heap_ok_put; [done|by eapply heap_below|done].
Qed.

(** ** A send to a method *)

Lemma push_all_step args : forall w l f,
  heap w !! l = Some (OFrame f) -> (length (f_slots f) + length args <= f_size f)%nat ->
  push_all l args w = Ok (tt, put_frame l (with_slots (f_slots f ++ args) f) w).
Proof.
  induction args as [|x args IH]; intros w l f Hf Hz; cbn [push_all].
  - rewrite app_nil_r, put_obj_id; [done|]. by destruct f.
  - cbn [length] in Hz. erewrite bind_step by (eapply Push_step; [done|lia]).
    erewrite IH by (apply put_obj_eq || (cbn; rewrite length_app; cbn; lia)).
    rewrite put_obj_twice. cbn. by rewrite <- app_assoc.
Qed.

(** The class of an object that is no tagged integer. *)
Definition class_of (w : World) (x : oop) (c : loc) : Prop :=
  exists l o, x = Ref l /\ heap w !! l = Some o /\ GetClass o w = Ok (Ref c, w).

Lemma class_of_keeps w w' x c : keeps w w' -> class_of w x c -> class_of w' x c.
Proof.
  intros (HK & _ & HL & HS) (l & o & -> & Ho & Hc). exists l.
  destruct (lasting o) eqn:E.
  - exists o. split; [done|]. split; [by apply HL|]. unfold GetClass in *. mrun.
    rewrite HK. revert Hc. mrun. by destruct o; injection 1 as ->.
  - destruct o as [| | | |s| |f| | |]; try done.
    destruct (HS _ _ Ho) as (s' & Hs' & _). exists (OSymbol s'). split; [done|]. split; [done|].
    revert Hc. unfold GetClass. mrun. rewrite HK. by injection 1 as ->.
Qed.

(** What a send relies on. *)
Record sound_heap (w : World) : Prop := mkSoundHeap {
  sh_heap : heap_ok w;
  sh_cache : cache_sound w;
  sh_symbols : forall str l, symbolsMap w !! str = Some l -> exists s, heap w !! l = Some (OSymbol s) }.

(** The method that the class of the receiver has for a selector. *)
Definition understands (w : World) (c : loc) (selector : loc) (m : loc) (mm : Method) : Prop :=
  (exists chain, finds (heap w) (nilObject (known w)) selector c chain (Some m)) /\
  heap w !! m = Some (OMethod mm).

Lemma understands_keeps w w' c sel m mm :
  keeps w w' -> understands w c sel m mm -> understands w' c sel m mm.
Proof.
  intros K [[chain HF] Hm]. split.
  - exists chain. rewrite (proj1 K). by eapply finds_keeps.
  - destruct K as (_ & _ & H & _). by apply H.
Qed.

Lemma sound_heap_put_frame w l f g :
  heap w !! l = Some (OFrame f) -> sound_heap w -> sound_heap (put_frame l g w).
Proof.
  intros Hl [HO HC HS]. split.
  - apply heap_ok_put; [done|by eapply heap_below|done].
  - by eapply cache_sound_put_frame.
  - intros str l' Hs. destruct (HS _ _ Hs) as [s Hl']. exists s.
    rewrite put_obj_ne; [done|]. intros ->. congruence.
Qed.

Lemma sound_heap_new w o :
  sound_heap w -> lasting o = true -> small_object o ->
  sound_heap (put_obj (next w) o (set_next (S (next w)) w)).
Proof.
  intros [HO HC HS] Ho Hs. split.
  - by apply heap_ok_new.
  - by apply cache_sound_new.
  - intros str l Hl. destruct (HS _ _ Hl) as [s H]. exists s.
    rewrite put_obj_ne; [done|]. apply (heap_below _ HO) in H. lia.
Qed.

Lemma sound_heap_new_frame w f :
  sound_heap w -> sound_heap (put_frame (next w) f (set_next (S (next w)) w)).
Proof.
  intros [HO HC HS]. split.
  - by apply heap_ok_new.
  - eapply cache_sound_keeps; [by apply keeps_new|done|].
    intros l' s H. cbn in H. by apply lookup_insert_Some in H as [[_ ?]|[_ ?]].
  - intros str l Hl. destruct (HS _ _ Hl) as [s H]. exists s.
    rewrite put_obj_ne; [done|]. apply (heap_below _ HO) in H. lia.
Qed.

Lemma sound_heap_registers w f m i : sound_heap w -> sound_heap (set_registers f m i w).
Proof. intros [[HB HA] HC HS]. by split. Qed.

Lemma lookup_step w name s c chain r :
  sound_heap w -> heap w !! name = Some (OSymbol s) ->
  finds (heap w) (nilObject (known w)) name c chain r ->
  exists w', LookupInvokable (Ref c) name w = Ok (r, w') /\ cache_only name w w' /\ sound_heap w'.
Proof.
  intros [HO HC HS] Hn HF.
  unfold LookupInvokable, heap_fuel. mrun.
  destruct (LookupInvokable_fuel_spec w name s chain (S (next w)) c r HO HC Hn HF) as (w' & E & Hc & HC').
  { pose proof (finds_bound _ _ _ _ _ HO HF). lia. }
  exists w'. split; [done|]. split; [done|]. split; [by eapply heap_ok_cache|done|].
  destruct Hc as (s0 & s1 & H0 & _ & ->). intros str l Hl. cbn in *.
  destruct (decide (l = name)) as [->|]; [rewrite lookup_insert_eq; eauto|].
  rewrite lookup_insert_ne by done. eauto.
Qed.

(** [Send] of a message for which there is a method: the method is activated with the
    receiver and the arguments, which are on the stack of the sender. *)
Lemma Send_step USE_TAGGING routines fuel w cur f x c sel selL args m mm :
  sound_heap w -> frame w = Some cur -> heap w !! cur = Some (OFrame f) ->
  (length (f_slots f) + S (length args) <= f_size f)%nat ->
  class_of w x c -> symbolsMap w !! sel = Some selL -> understands w c selL m mm ->
  m_numberOfArguments mm = S (length args) ->
  exists w1, cache_only selL (put_frame cur (with_slots (f_slots f ++ x :: args) f) w) w1 /\
    sound_heap w1 /\
    Send USE_TAGGING routines (S (S fuel)) x sel args w =
      Ok (tt, entered w1 cur (with_slots (f_slots f ++ x :: args) f) m mm (x :: args)).
Proof.
  intros HS Hcur Hf Hz Hx Hsel HU Hn.
  set (w0 := put_frame cur (with_slots (f_slots f ++ x :: args) f) w).
  assert (keeps w w0) as K0 by (by eapply keeps_put_frame).
  assert (sound_heap w0) as HS0 by (by eapply sound_heap_put_frame).
  destruct (understands_keeps _ _ _ _ _ _ K0 HU) as [[chain HF] Hm].
  destruct (sh_symbols _ HS0 sel selL Hsel) as [s Hs].
  destruct (lookup_step w0 selL s c chain (Some m) HS0 Hs HF) as (w1 & E1 & C1 & HS1).
  exists w1. split; [done|]. split; [done|]. cbn [Send].
  erewrite bind_step by (by apply GetFrame_step).
  erewrite bind_step by (unfold SymbolFor; mrun; by rewrite Hsel).
  erewrite bind_step by (eapply Push_step; [done|lia]).
  erewrite bind_step.
  2:{ eapply push_all_step; [apply put_obj_eq|]. cbn. rewrite length_app. cbn. lia. }
  rewrite put_obj_twice. cbn [f_slots with_slots f_size]. rewrite <- app_assoc. cbn [app].
  replace (with_slots (f_slots f ++ x :: args) (with_slots (f_slots f ++ [x]) f))
    with (with_slots (f_slots f ++ x :: args) f) by (by destruct f).
  fold w0. destruct (class_of_keeps _ _ _ _ K0 Hx) as (l & o & -> & Ho & Hc).
  erewrite bind_step by (by apply deref_step). erewrite bind_step by exact Hc.
  erewrite bind_step by exact E1. erewrite bind_step by apply lift_step.
  destruct C1 as (s0 & s1 & H0 & _ & ->).
  assert (forall l o, heap w0 !! l = Some o -> (forall s, o <> OSymbol s) -> <[selL := OSymbol s1]> (heap w0) !! l = Some o) as Hk.
  { intros l' o' Hl' No. rewrite lookup_insert_ne; [done|]. intros ->. rewrite H0 in Hl'.
    injection Hl' as <-. by eapply No. }
  set (w1 := set_heap (<[selL := OSymbol s1]> (heap w0)) w0) in *.
  assert (Invoke USE_TAGGING routines (S fuel) m cur w1 =
    Ok (Some (next w1), entered w1 cur (with_slots (f_slots f ++ Ref l :: args) f) m mm (Ref l :: args))) as HI.
  { cbn [Invoke]. erewrite bind_step by (apply load_step; cbn; by apply Hk).
    eapply VMMethod_Invoke_step; [done| | | |done|done].
    - cbn. apply Hk; [apply put_obj_eq|done].
    - cbn. by apply Hk.
    - exact (heap_ok_next _ (sh_heap _ HS1)). }
  erewrite bind_step by exact HI. done.
Qed.

(** ** Messages that are not understood *)

(** The arguments are popped into the array from the last one on. *)
Lemma collect_pops_step args : forall w l f base a k c junk rest,
  heap_ok w -> l <> a -> heap w !! l = Some (OFrame f) -> f_slots f = base ++ args ->
  heap w !! a = Some (OObject k c (junk ++ rest)) -> length junk = length args ->
  pop_arguments (length args) l (Ref a) w =
    Ok (tt, put_obj a (OObject k c (args ++ rest)) (put_frame l (with_slots base f) w)).
Proof.
  induction args as [|x args IH] using rev_ind; intros w l f base a k c junk rest HO Hne Hf Hs Ha Hj.
  { destruct junk; [|done]. cbn. rewrite app_nil_r in Hs. rewrite <- Hs.
    rewrite (put_obj_id l); [by rewrite put_obj_id|]. by destruct f. }
  rewrite length_app in *. cbn [length] in *. rewrite Nat.add_1_r in *. cbn [pop_arguments].
  destruct junk as [|j junk _] using rev_ind; [done|]. rewrite length_app in Hj. cbn [length] in Hj.
  rewrite app_assoc in Hs. erewrite bind_step by (eapply Pop_step; [exact Hf|exact Hs]).
  assert (heap_ok (put_frame l (with_slots (base ++ args) f) w)) as HO'
    by (apply heap_ok_put; [done|by eapply heap_below|done]).
  rewrite <- app_assoc in Ha. cbn [app] in Ha.
  erewrite bind_step.
  2:{ eapply SetIndexableField_at; [exact HO'|rewrite put_obj_ne by done; exact Ha|lia]. }
  erewrite (IH _ l (with_slots (base ++ args) f) base a k c junk (x :: rest)); [| |done| |done| |lia].
  - rewrite (put_obj_comm a l), (put_obj_twice a) by done.
    rewrite (put_obj_comm a l), (put_obj_twice l) by done.
    rewrite (put_obj_comm l a) by done. by rewrite <- app_assoc.
  - apply heap_ok_put; [done|exact (heap_below _ HO _ _ Ha)|].
    pose proof (arrays_small _ HO _ _ _ _ Ha) as Hb. revert Hb. cbn [small_object].
    rewrite !length_app. done.
  - rewrite put_obj_ne by done. apply put_obj_eq.
  - apply put_obj_eq.
Qed.

(** [reserve]: afterwards the current frame has room; it is the same one or a copy. *)
Lemma reserve_step n w cur f m :
  sound_heap w -> frame w = Some cur -> heap w !! cur = Some (OFrame f) ->
  heap w !! f_method f = Some (OMethod m) ->
  f_size f = (m_numberOfArguments m + m_numberOfLocals m + m_maxStack m)%nat ->
  (length (f_slots f) <= f_size f)%nat ->
  exists w' cur' g, reserve n w = Ok (tt, w') /\ sound_heap w' /\ keeps w w' /\
    symbolsMap w' = symbolsMap w /\
    frame w' = Some cur' /\ heap w' !! cur' = Some (OFrame g) /\
    f_slots g = f_slots f /\ f_previous g = f_previous f /\ f_context g = f_context f /\
    f_method g = f_method f /\ (length (f_slots g) + n <= f_size g)%nat /\
    bytecodeIndexGlobal w' = bytecodeIndexGlobal w /\
    (cur' = cur \/ cur' = next w).
Proof.
  intros HS Hcur Hf Hm Hz Hl. unfold reserve. erewrite bind_step by (by apply GetFrame_step).
  erewrite bind_step by (by apply load_frame_step). unfold RemainingStackSize.
  destruct (_ <? n)%nat eqn:G.
  - apply Nat.ltb_lt in G. erewrite bind_step by apply gets_step.
    erewrite bind_step by (by apply update_frame_step).
    set (f1 := with_bytecodeIndex _ f). set (w1 := put_frame cur f1 w).
    assert (sound_heap w1) as HS1 by (by eapply sound_heap_put_frame).
    assert (keeps w w1) as K1 by (by eapply keeps_put_frame).
    unfold EmergencyFrameFrom. rewrite bind_assoc.
    erewrite bind_step by (apply load_frame_step, put_obj_eq). rewrite bind_assoc.
    erewrite bind_step.
    2:{ apply load_method_step. destruct K1 as (_ & _ & K1 & _). by apply K1. }
    rewrite (proj2 (Nat.ltb_ge _ _)) by (cbn; lia). cbn zeta.
    erewrite bind_step by apply alloc_step. set (g := mkFrame _ _ _ _ _ _ _). set (w2 := put_obj _ _ _).
    assert (sound_heap w2) as HS2 by (by apply sound_heap_new_frame).
    assert (keeps w1 w2) as K2 by (apply keeps_new, HS1).
    assert (heap w2 !! cur = Some (OFrame f1)) as Hf2.
    { unfold w2. rewrite put_obj_ne; [apply put_obj_eq|].
      pose proof (heap_below _ (sh_heap _ HS) _ _ Hf) as ?. cbn. lia. }
    eexists _, (next w1), g. split; [eapply SetFrame_saved; [done|done|done| |apply put_obj_eq]|].
    { intros E. rewrite E in Hf2. unfold w2 in Hf2. rewrite put_obj_eq in Hf2.
      pose proof (heap_below _ (sh_heap _ HS) _ _ Hf) as ?. cbn in E. lia. }
    split; [by apply sound_heap_registers|]. split; [by eapply keeps_trans|].
    split_and!; try done; [apply put_obj_eq|cbn; lia|by right].
  - apply Nat.ltb_ge in G. exists w, cur, f. split_and!; eauto using keeps_refl; lia.
Qed.

Lemma entered_sound w cur f m mm args :
  sound_heap w -> heap w !! cur = Some (OFrame f) ->
  sound_heap (entered w cur f m mm args) /\ keeps w (entered w cur f m mm args).
Proof.
  intros HS Hf. set (w1 := put_frame cur (with_bytecodeIndex (bytecodeIndexGlobal w) f) w).
  assert (sound_heap w1) as HS1 by (by eapply sound_heap_put_frame).
  split; [apply sound_heap_registers; exact (sound_heap_new_frame w1 _ HS1)|].
  eapply (keeps_trans _ w1); [by eapply keeps_put_frame|]. exact (keeps_new w1 _ (sh_heap _ HS1)).
Qed.

(** A frame of the size that its method asks for. *)
Definition regular (w : World) (f : Frame) : Prop :=
  exists m, heap w !! f_method f = Some (OMethod m) /\
    f_size f = (m_numberOfArguments m + m_numberOfLocals m + m_maxStack m)%nat /\
    (length (f_slots f) <= f_size f)%nat.

(** The arguments of the message, from the stack of the sender into a new array. *)
Lemma collect_arguments_step w cur f base recv args :
  sound_heap w -> heap w !! cur = Some (OFrame f) -> f_slots f = base ++ recv :: args ->
  Z.of_nat (length args) < 2 ^ 64 -> exists w',
  (argumentsArray ← NewArray (Z.of_nat (length args));
   pop_arguments (length args) cur argumentsArray;; PopVoid cur;; mret argumentsArray) w =
    Ok (Ref (next w), w') /\ sound_heap w' /\ keeps w w' /\ symbolsMap w' = symbolsMap w /\
    frame w' = frame w /\ bytecodeIndexGlobal w' = bytecodeIndexGlobal w /\
    heap w' !! cur = Some (OFrame (with_slots base f)) /\
    heap w' !! next w = Some (OObject KArray (arrayClass (known w)) args).
Proof.
  intros HS Hf Hs Hl. pose proof (heap_below _ (sh_heap _ HS) _ _ Hf) as Hb.
  erewrite bind_step by apply NewArray_step. rewrite Nat2Z.id. set (w1 := put_obj _ _ _).
  assert (sound_heap w1) as HS1.
  { apply sound_heap_new; [done|done|]. cbn [small_object]. by rewrite length_replicate. }
  assert (keeps w w1) as K1 by (apply keeps_new, HS).
  assert (heap w1 !! cur = Some (OFrame f)) as Hf1 by (unfold w1; rewrite put_obj_ne by lia; done).
  erewrite bind_step.
  2:{ eapply (collect_pops_step args w1 cur f (base ++ [recv]) _ _ _
        (replicate (length args) (nilObject (known w))) []);
        [apply HS1|lia|done|by rewrite <- app_assoc| |by rewrite length_replicate].
      rewrite app_nil_r. apply put_obj_eq. }
  rewrite app_nil_r. set (w2 := put_obj (next w) _ _).
  assert (heap w2 !! cur = Some (OFrame (with_slots (base ++ [recv]) f))) as Hf2.
  { unfold w2. rewrite put_obj_ne by lia. apply put_obj_eq. }
  erewrite bind_step by (by eapply PopVoid_step). eexists. split; [done|].
  unfold w2, w1. rewrite (put_obj_comm (next w) cur) by lia. rewrite !put_obj_twice.
  change (with_slots base (with_slots (base ++ [recv]) f)) with (with_slots base f).
  set (w4 := put_obj (next w) _ (set_next _ w)).
  assert (sound_heap w4) as HS4 by (by apply sound_heap_new).
  assert (heap w4 !! cur = Some (OFrame f)) as Hf4 by (unfold w4; rewrite put_obj_ne by lia; done).
  split; [by eapply sound_heap_put_frame|].
  split; [eapply keeps_trans; [apply (keeps_new w); apply HS|by eapply keeps_put_frame]|].
  split_and!; try done; [apply put_obj_eq|]. rewrite put_obj_ne by lia. apply put_obj_eq.
Qed.

(** [numberOfArgs] is a byte. *)
Lemma signature_arguments str n : DetermineNumberOfArguments str = n -> (n < 256)%nat.
Proof.
  intros <-. unfold DetermineNumberOfArguments. destruct (IsBinary str); [lia|].
  pose proof (uwrap_range 8 (Z.of_nat (count_colons str) + 1)). lia.
Qed.

Lemma doesNotUnderstand_step USE_TAGGING routines fuel w cur f sig s base recv args c dnu m mm :
  sound_heap w -> frame w = Some cur -> heap w !! cur = Some (OFrame f) -> regular w f ->
  f_slots f = base ++ recv :: args ->
  heap w !! sig = Some (OSymbol s) -> DetermineNumberOfArguments (sym_chars s) = S (length args) ->
  class_of w recv c -> symbolsMap w !! "doesNotUnderstand:arguments:"%string = Some dnu ->
  understands w c dnu m mm -> m_numberOfArguments mm = 3%nat ->
  exists w1 cur' g, 
    sound_heap w1 /\ keeps w w1 /\ (next w < next w1)%nat /\
    bytecodeIndexGlobal w1 = bytecodeIndexGlobal w /\
    heap w1 !! cur' = Some (OFrame g) /\ f_slots g = base ++ [recv; Ref sig; Ref (next w)] /\
    f_previous g = f_previous f /\ f_context g = f_context f /\ f_method g = f_method f /\
    (cur' = cur \/ (next w <= cur')%nat) /\
    heap w1 !! next w = Some (OObject KArray (arrayClass (known w)) args) /\
    triggerDoesNotUnderstand USE_TAGGING routines (S (S fuel)) sig w =
      Ok (tt, entered w1 cur' g m mm [recv; Ref sig; Ref (next w)]).
Proof.
  intros HS Hcur Hf (mf & Hmf & Hz & Hl) Hs Hsig Hn Hc Hd HU Hmm.
  pose proof (signature_arguments _ _ Hn) as Hb.
  destruct (collect_arguments_step w cur f base recv args HS Hf Hs) as
    (w1 & E1 & HS1 & K1 & Sy1 & Fr1 & Bc1 & Hf1 & Ha1); [lia|].
  apply bind_Ok in E1 as (a1 & v1 & A1 & E1). apply bind_Ok in E1 as ([] & v2 & A2 & E1).
  apply bind_Ok in E1 as ([] & v3 & A3 & E1). injection E1 as -> ->.
  assert (heap w1 !! f_method f = Some (OMethod mf)) as Hmf1
    by (destruct K1 as (_ & _ & K & _); by apply K).
  destruct (reserve_step 3 w1 cur (with_slots base f) mf HS1) as
    (w2 & cur' & g & E2 & HS2 & K2 & Sy2 & Fr2 & Hg & Sg & Pg & Cg & Mg & Zg & Bc2 & Hcur');
    [by rewrite Fr1|done|done|done| |].
  { cbn. rewrite Hs, length_app in Hl. lia. }
  cbn [with_slots f_slots f_previous f_context f_method] in *.
  pose proof (keeps_trans _ _ _ K1 K2) as K12.
  assert (heap w2 !! next w = Some (OObject KArray (arrayClass (known w)) args)) as Ha2
    by (destruct K2 as (_ & _ & K & _); by apply K).
  destruct (Send_step USE_TAGGING routines fuel w2 cur' g recv c "doesNotUnderstand:arguments:" dnu
    [Ref sig; Ref (next w)] m mm HS2 Fr2 Hg) as (w3 & C3 & HS3 & E3).
  { done. } { by eapply class_of_keeps. } { by rewrite Sy2, Sy1. }
  { by eapply understands_keeps. } { done. }
  set (g' := with_slots (f_slots g ++ [recv; Ref sig; Ref (next w)]) g) in *.
  assert (keeps w2 w3) as K3.
  { eapply keeps_trans; [by eapply keeps_put_frame|by eapply keeps_cache]. }
  exists w3, cur', g'. split; [done|]. split; [by eapply keeps_trans|].
  assert (next w < next w1)%nat as Hnext by (by eapply heap_below, Ha1; apply HS1).
  split; [destruct K2 as (_ & ? & _), K3 as (_ & ? & _); lia|].
  destruct C3 as (s0 & s1 & H0 & _ & ->).
  assert (heap (set_heap (<[dnu := OSymbol s1]> (heap (put_frame cur' g' w2))) (put_frame cur' g' w2)) !! cur'
    = Some (OFrame g')) as Hg3.
  { cbn. rewrite lookup_insert_ne; [apply lookup_insert_eq|]. intros ->.
    rewrite put_obj_eq in H0. done. }
  split; [cbn; congruence|]. split; [exact Hg3|].
  split; [unfold g'; cbn; by rewrite Sg|]. split; [done|]. split; [done|]. split; [done|].
  split; [destruct Hcur' as [->| ->]; [by left|right; lia]|].
  split; [destruct K3 as (_ & _ & K & _); by apply K|].
  unfold triggerDoesNotUnderstand.
  erewrite bind_step by (unfold GetNumberOfArguments; mrun; by rewrite Hn).
  erewrite bind_step by (by apply GetFrame_step). cbn [Nat.sub].
  rewrite Nat.sub_0_r.
  erewrite bind_step by (eapply GetStackElement_step; [exact Hf|exact Hs]).
  replace (Z.of_nat (S (length args)) - 1) with (Z.of_nat (length args)) by lia.
  erewrite bind_step by exact A1. erewrite bind_step by exact A2. erewrite bind_step by exact A3.
  erewrite bind_step by exact E2.
  erewrite bind_step; [exact E3|]. destruct Hc as (l & o & -> & _). done.
Qed.


(** ** Messages sent by the program *)

(** The class of any value. *)
Definition has_class (w : World) (x : oop) (c : loc) : Prop := CLASS_OF x w = Ok (Ref c, w).

Lemma has_class_put_frame w l f g x c :
  heap w !! l = Some (OFrame f) -> has_class w x c -> has_class (put_frame l g w) x c.
Proof.
  intros Hl. unfold has_class, CLASS_OF. destruct x as [|z|l']; [done|mrun; by injection 1 as <-|].
  unfold deref. intros H. minv H. unfold load in E. destruct (heap w !! l') as [o|] eqn:Eo; [|done].
  injection E as <- <-. destruct (decide (l' = l)) as [->|N].
  { exfalso. rewrite Hl in Eo. injection Eo as <-. done. }
  erewrite bind_step by (apply load_step; by rewrite put_obj_ne).
  revert H. unfold GetClass. mrun. by destruct o; injection 1 as <-.
Qed.

Lemma push_elements_step args : forall w frm f a k c done_ i,
  heap_ok w -> heap w !! a = Some (OObject k c (done_ ++ args)) -> i = Z.of_nat (length done_) ->
  heap w !! frm = Some (OFrame f) -> (length (f_slots f) + length args <= f_size f)%nat ->
  push_elements (length args) i (Ref a) frm w = Ok (tt, put_frame frm (with_slots (f_slots f ++ args) f) w).
Proof.
  induction args as [|x args IH]; intros w frm f a k c done_ i HO Ha Hi Hf Hz; cbn [length push_elements].
  { rewrite app_nil_r, put_obj_id; [done|]. by destruct f. }
  cbn [length] in Hz. erewrite bind_step by (by eapply GetIndexableField_at).
  erewrite bind_step by (eapply Push_step; [done|lia]).
  erewrite (IH _ frm (with_slots (f_slots f ++ [x]) f) a k c (done_ ++ [x])).
  - rewrite put_obj_twice. cbn. by rewrite <- app_assoc.
  - apply heap_ok_put; [done|by eapply heap_below|done].
  - rewrite put_obj_ne by congruence. rewrite Ha. by rewrite <- app_assoc.
  - rewrite length_app. cbn [length]. lia.
  - apply put_obj_eq.
  - cbn. rewrite length_app. cbn [length]. lia.
Qed.

(** The invokable is there: looking it up and invoking it is what [send] does. *)
Lemma invoke_selector_send USE_TAGGING routines fuel w frm sel s c chain m :
  sound_heap w -> frame w = Some frm -> heap w !! sel = Some (OSymbol s) ->
  finds (heap w) (nilObject (known w)) sel c chain (Some m) ->
  invoke_selector (Invoke USE_TAGGING routines fuel) (Ref c) (Ref sel) frm w
    = send USE_TAGGING routines fuel sel (Ref c) w.
Proof.
  intros HS Hfrm Hsel HF. destruct (lookup_step w sel s c chain (Some m) HS Hsel HF) as (w1 & E & C & _).
  unfold invoke_selector, send. cbn [loc_of]. erewrite bind_step by apply ret_step.
  erewrite bind_step by exact E. erewrite bind_step by apply lift_step.
  erewrite (bind_step (LookupInvokable _ _)) by exact E. cbn beta iota.
  erewrite (bind_step GetFrame); [done|]. apply GetFrame_step.
  destruct C as (? & ? & _ & _ & ->). done.
Qed.

Section Perform.

Context (USE_TAGGING : bool) (routines : Routines) (fuel : nat).
Context (w : World) (frm : loc) (f : Frame) (sel : loc) (s : SymbolData) (c : loc) (chain : list loc) (m : loc).
Hypothesis HS : sound_heap w.
Hypothesis Hfrm : frame w = Some frm.
Hypothesis Hf : heap w !! frm = Some (OFrame f).
Hypothesis Hsel : heap w !! sel = Some (OSymbol s).
Hypothesis HF : finds (heap w) (nilObject (known w)) sel c chain (Some m).

Lemma invoke_after slots :
  invoke_selector (Invoke USE_TAGGING routines fuel) (Ref c) (Ref sel) frm (put_frame frm (with_slots slots f) w)
    = send USE_TAGGING routines fuel sel (Ref c) (put_frame frm (with_slots slots f) w).
Proof using HS Hfrm Hf Hsel HF.
  eapply invoke_selector_send; [by eapply sound_heap_put_frame|done| |].
  - rewrite put_obj_ne; [done|]. congruence.
  - eapply finds_keeps; [by eapply keeps_put_frame|done].
Qed.

Lemma arguments_pushed base args a k cl :
  heap w !! a = Some (OObject k cl args) -> (length base + length args <= f_size f)%nat ->
  push_arguments (Ref a) frm (put_frame frm (with_slots base f) w) =
    Ok (tt, put_frame frm (with_slots (base ++ args) f) w).
Proof using HS Hf.
  intros Ha Hz. assert (heap (put_frame frm (with_slots base f) w) !! a = Some (OObject k cl args)) as Ha'.
  { rewrite put_obj_ne; [done|]. congruence. }
  unfold push_arguments. erewrite bind_step by (by eapply GetNumberOfIndexableFields_step).
  rewrite Nat2Z.id. erewrite (push_elements_step args _ _ (with_slots base f) a k cl []); [|..].
  - by rewrite put_obj_twice.
  - apply heap_ok_put; [apply HS|by eapply heap_below; [apply HS|]|done].
  - done.
  - done.
  - apply put_obj_eq.
  - done.
Qed.

Lemma perform_step base recv :
  f_slots f = base ++ [recv; Ref sel] -> has_class w recv c ->
  objPerform (Invoke USE_TAGGING routines fuel) frm w =
    send USE_TAGGING routines fuel sel (Ref c) (put_frame frm (with_slots (base ++ [recv]) f) w).
Proof using HS Hfrm Hf Hsel HF.
  intros Hs Hc. unfold objPerform.
  erewrite bind_step by (eapply (Pop_step _ _ _ Hf (base ++ [recv])); rewrite Hs; by rewrite <- app_assoc).
  erewrite bind_step by (by eapply (GetStackElement_step _ _ _ (put_obj_eq _ _ _) base recv [])).
  erewrite bind_step by (by eapply has_class_put_frame). apply invoke_after.
Qed.

Lemma perform_in_superclass_step base recv :
  f_slots f = base ++ [recv; Ref sel; Ref c] ->
  objPerformInSuperclass (Invoke USE_TAGGING routines fuel) frm w =
    send USE_TAGGING routines fuel sel (Ref c) (put_frame frm (with_slots (base ++ [recv]) f) w).
Proof using HS Hfrm Hf Hsel HF.
  intros Hs. unfold objPerformInSuperclass.
  erewrite bind_step by (eapply (Pop_step _ _ _ Hf (base ++ [recv; Ref sel])); rewrite Hs; by rewrite <- app_assoc).
  erewrite bind_step by (eapply (Pop_step _ _ _ (put_obj_eq _ _ _) (base ++ [recv])); cbn; by rewrite <- app_assoc).
  rewrite put_obj_twice. apply invoke_after.
Qed.

Lemma perform_with_arguments_step base recv args a k cl :
  f_slots f = base ++ [recv; Ref sel; Ref a] -> has_class w recv c ->
  heap w !! a = Some (OObject k cl args) -> (length base + 1 + length args <= f_size f)%nat ->
  objPerformWithArguments (Invoke USE_TAGGING routines fuel) frm w =
    send USE_TAGGING routines fuel sel (Ref c) (put_frame frm (with_slots (base ++ recv :: args) f) w).
Proof using HS Hfrm Hf Hsel HF.
  intros Hs Hc Ha Hz. unfold objPerformWithArguments.
  erewrite bind_step by (eapply (Pop_step _ _ _ Hf (base ++ [recv; Ref sel])); rewrite Hs; by rewrite <- app_assoc).
  erewrite bind_step by (eapply (Pop_step _ _ _ (put_obj_eq _ _ _) (base ++ [recv])); cbn; by rewrite <- app_assoc).
  rewrite put_obj_twice.
  erewrite bind_step by (by eapply (GetStackElement_step _ _ _ (put_obj_eq _ _ _) base recv [])).
  erewrite bind_step by (eapply arguments_pushed; [exact Ha|rewrite length_app; cbn; lia]).
  erewrite bind_step by (by eapply has_class_put_frame). rewrite <- app_assoc. apply invoke_after.
Qed.

Lemma perform_with_arguments_in_superclass_step base recv args a k cl :
  f_slots f = base ++ [recv; Ref sel; Ref a; Ref c] ->
  heap w !! a = Some (OObject k cl args) -> (length base + 1 + length args <= f_size f)%nat ->
  objPerformWithArgumentsInSuperclass (Invoke USE_TAGGING routines fuel) frm w =
    send USE_TAGGING routines fuel sel (Ref c) (put_frame frm (with_slots (base ++ recv :: args) f) w).
Proof using HS Hfrm Hf Hsel HF.
  intros Hs Ha Hz. unfold objPerformWithArgumentsInSuperclass.
  erewrite bind_step by (eapply (Pop_step _ _ _ Hf (base ++ [recv; Ref sel; Ref a])); rewrite Hs; by rewrite <- app_assoc).
  erewrite bind_step by (eapply (Pop_step _ _ _ (put_obj_eq _ _ _) (base ++ [recv; Ref sel])); cbn; by rewrite <- app_assoc).
  erewrite bind_step by (eapply (Pop_step _ _ _ (put_obj_eq _ _ _) (base ++ [recv])); cbn; by rewrite <- app_assoc).
  rewrite !put_obj_twice.
  erewrite bind_step by (eapply arguments_pushed; [exact Ha|rewrite length_app; cbn; lia]).
  rewrite <- app_assoc. apply invoke_after.
Qed.

End Perform.

(** C26: a message sent by a program is a send: for a selector that the class understands, [perform:],
    [perform:inSuperclass:], [perform:withArguments:] and
    [perform:withArguments:inSuperclass:] do what the send instruction does when the
    stack has the receiver and the elements of the argument array in their place, from
    the class of the receiver or from the class given. *)
Theorem perform_sends USE_TAGGING routines fuel w frm f base recv sel s c chain m :
  sound_heap w -> frame w = Some frm -> heap w !! frm = Some (OFrame f) ->
  heap w !! sel = Some (OSymbol s) ->
  finds (heap w) (nilObject (known w)) sel c chain (Some m) ->
  let sends args := send USE_TAGGING routines fuel sel (Ref c)
                      (put_frame frm (with_slots (base ++ recv :: args) f) w) in
  (f_slots f = base ++ [recv; Ref sel] -> has_class w recv c ->
   objPerform (Invoke USE_TAGGING routines fuel) frm w = sends []) /\
  (f_slots f = base ++ [recv; Ref sel; Ref c] ->
   objPerformInSuperclass (Invoke USE_TAGGING routines fuel) frm w = sends []) /\
  (forall args a k cl, heap w !! a = Some (OObject k cl args) ->
   (length base + 1 + length args <= f_size f)%nat ->
   (f_slots f = base ++ [recv; Ref sel; Ref a] -> has_class w recv c ->
    objPerformWithArguments (Invoke USE_TAGGING routines fuel) frm w = sends args) /\
   (f_slots f = base ++ [recv; Ref sel; Ref a; Ref c] ->
    objPerformWithArgumentsInSuperclass (Invoke USE_TAGGING routines fuel) frm w = sends args)).
Proof.
  intros HS Hfrm Hf Hsel HF sends. split; [|split; [|intros args a k cl Ha Hz; split]].
  - by eapply perform_step.
  - by eapply perform_in_superclass_step.
  - intros. by eapply perform_with_arguments_step.
  - intros. by eapply perform_with_arguments_in_superclass_step.
Qed.

(** ** An example

    A method sends [foo:] to an object whose class has a method for messages that are not
    understood only. *)
Definition new_symbol (str : string) : obj := OSymbol (mkSymbol str (replicate 3 (Null, Null)) 0).

Definition reporting_method : Method := mkMethod 2%nat (Ref 3%nat) 0 2 [] 3 [] 0%nat [].

Definition message_heap : list (loc * obj) :=
  [(0, OObject KObject Null []);
   (1, new_symbol "foo:"); (2, new_symbol "doesNotUnderstand:arguments:");
   (3, OObject KClass Null [Null; Null; Ref 4; Ref 0]); (4, OObject KArray Null [Ref 5]);
   (5, OMethod reporting_method); (6, OObject KObject (Ref 3) []);
   (7, OMethod (mkMethod 1 (Ref 3) 0 2 [] 1 [] 0 []));
   (8, OFrame (mkFrame None None 7 4 1 [Null; Ref 6; Ref 0] 3))]%nat.

Definition message_world : World :=
  mkWorld (list_to_map message_heap) 9%nat ∅ 0%nat
    {[ "foo:" := 1%nat; "doesNotUnderstand:arguments:" := 2%nat ]}%string ∅ ∅
    (no_known (Ref 0%nat)) (Some 8%nat) 7%nat 4.

Lemma message_world_entries l o : heap message_world !! l = Some o -> (l, o) ∈ message_heap.
Proof. apply elem_of_list_to_map_2. Qed.

Lemma message_world_sound : sound_heap message_world.
Proof.
  split.
  - split; intros l; intros; pose proof (message_world_entries _ _ H) as Hin;
      unfold message_heap in Hin; set_unfold in Hin; destruct_or! Hin; simplify_eq; cbn; lia.
  - intros name s c i H Hin. apply message_world_entries in H. unfold message_heap, new_symbol in H.
    set_unfold in H. destruct_or! H; simplify_eq; cbn in Hin; set_unfold in Hin; naive_solver.
  - intros str l H. cbn in H. apply lookup_insert_Some in H as [[_ <-]|[_ H]]; [by eexists|].
    apply lookup_singleton_Some in H as [_ <-]. by eexists.
Qed.

Definition no_natives : Routines :=
  mkRoutines (fun _ _ => fail Undef) (fun _ _ => fail Undef) (fun _ _ _ => fail Undef)
    (fun _ _ _ _ => fail Undef).


(** The same objects, with the argument array 9 of a message [doesNotUnderstand:arguments:]
    on the stack. *)
Definition perform_frame : Frame := (mkFrame None None 7 4 1 [Null; Ref 6; Ref 2; Ref 9] 5)%nat.

Definition perform_world : World :=
  put_obj 8%nat (OFrame perform_frame)
    (put_obj 9%nat (OObject KArray Null [Ref 1; Ref 4]%nat) (set_next 10%nat message_world)).

Lemma perform_world_sound : sound_heap perform_world.
Proof.
  eapply sound_heap_put_frame; [reflexivity|].
  apply (sound_heap_new message_world); [apply message_world_sound|done|done].
Qed.

Lemma perform_sends_witness :
  objPerformWithArguments (Invoke true no_natives 1) 8%nat perform_world =
  send true no_natives 1 2%nat (Ref 3%nat)
    (put_frame 8%nat (with_slots ([Null] ++ Ref 6%nat :: [Ref 1%nat; Ref 4%nat]) perform_frame) perform_world).
Proof.
  destruct (perform_sends true no_natives 1 perform_world 8%nat perform_frame [Null] (Ref 6%nat) 2%nat
    (mkSymbol "doesNotUnderstand:arguments:" (replicate 3 (Null, Null)) 0) 3%nat [3%nat] 5%nat)
    as (_ & _ & H); [apply perform_world_sound|reflexivity..|by eapply finds_here|].
  destruct (H [Ref 1%nat; Ref 4%nat] 9%nat KArray Null) as [H' _]; [reflexivity|cbn; lia|].
  exact (H' eq_refl eq_refl).
Defined.

(** A selector that is not understood is not reported: there is no invokable to invoke. *)
Example perform_unknown :
  objPerform (Invoke true no_natives 1) 8%nat
    (put_frame 8%nat (mkFrame None None 7 4 1 [Null; Ref 6; Ref 1] 5)%nat message_world) = Err Undef.
Proof. vm_compute. reflexivity. Qed.
