(* ===== verification/Vector.v ===== *)
(** * Vectors

    [src/src/vmobjects/VMVector.h], [VMVector.cpp] and [src/src/primitives/Vector.cpp]:
    a growable array with the index of its first element and the index behind its last
    one, both counted from 1.

    The theorem relates the operations to those of a list, as long as the index is one
    of the list; the examples are uses for which the code does something else. *)
From Stdlib Require Import String.
From S2P Require Import Prelude InfIntMul InfIntText IntegerPrims Objects Lookup Universe Frame Interpreter Activation Stores.
Local Open Scope Z_scope.

Section Vector.

(** [Send] is [AbstractVMObject::Send]. *)
Context (USE_TAGGING : bool) (Send : oop -> string -> list oop -> V ()).

(** ** The object *)

Definition vec_first (self : oop) : V Z := x ← GetField self 0; SMALL_INT_VAL USE_TAGGING x.
Definition vec_last (self : oop) : V Z := x ← GetField self 1; SMALL_INT_VAL USE_TAGGING x.
Definition vec_storage (self : oop) : V oop := GetField self 2.

Definition set_first (self : oop) (i : Z) : V () := x ← NEW_INT USE_TAGGING i; SetField self 0 x.
Definition set_last (self : oop) (i : Z) : V () := x ← NEW_INT USE_TAGGING i; SetField self 1 x.

Definition NewVector (size : Z) (cls : oop) : V oop :=
  first ← NEW_INT USE_TAGGING 1;
  last ← NEW_INT USE_TAGGING 1;
  storageArray ← NewArray size;
  l ← alloc (OObject KVector Null [first; last; storageArray]);
  SetClass (Ref l) cls;;
  mret (Ref l).

(** ** Errors

    The message is sent to the vector, which pushes it and its argument on the current
    frame; the argument is popped and returned, and the invocation of the primitive
    pushes it again. *)
Definition to_string (n : Z) : string := string_of_list_ascii (InfIntText.decimal 20 n).

Definition send_error (self : oop) (message : string) : V oop :=
  frm ← GetFrame;
  errorMsg ← NewString message;
  Send self "error:" [errorMsg];;
  Pop frm.

Definition vec_IndexOutOfBounds (self : oop) (maxSize indexAccessed : Z) : V oop :=
  send_error self ("Vector[1.." ++ to_string (u64 maxSize) ++ "]: Index "
                   ++ to_string (u64 indexAccessed) ++ " out of bounds")%string.

(** ** Access *)

Definition AWFYGetStorage (self : oop) (index : Z) : V oop :=
  first ← vec_first self;
  storage ← vec_storage self;
  n ← GetNumberOfIndexableFields storage;
  if u64 index >? n then k ← gets known; mret (nilObject k)
  else GetIndexableField storage ((first - 1) + (index - 1)).

Definition GetStorage (self : oop) (index : Z) : V oop :=
  first ← vec_first self;
  last ← vec_last self;
  storage ← vec_storage self;
  if (index <? 1) || (index >? last - first) then vec_IndexOutOfBounds self (first + last - 1) index
  else GetIndexableField storage ((first - 1) + (index - 1)).

Definition SetStorage (self : oop) (index : Z) (value : oop) : V oop :=
  first ← vec_first self;
  last ← vec_last self;
  storage ← vec_storage self;
  if (index <? 1) || (index >? first + last) then vec_IndexOutOfBounds self (first + last - 1) index
  else
    curVal ← GetIndexableField storage (first + index - 2);
    SetIndexableField storage (first + index - 2) value;;
    mret curVal.

Definition SetStorageAWFY (self : oop) (index : Z) (value : oop) : V () :=
  first ← vec_first self;
  last ← vec_last self;
  storage ← vec_storage self;
  n ← GetNumberOfIndexableFields storage;
  if u64 index >? n then
    newStorage ← NewExpandedArrayFromArray (n * 2) storage;
    SetIndexableField newStorage (index - 1) value;;
    SetField self 2 newStorage
  else
    SetIndexableField storage (first + index - 2) value;;
    set_last self (last + 1).

Definition GetFirst (self : oop) : V oop := GetStorage self 1.
Definition GetLast (self : oop) : V oop := last ← vec_last self; GetStorage self (last - 1).

Definition Size (self : oop) : V oop :=
  first ← vec_first self; last ← vec_last self; NEW_INT USE_TAGGING (last - first).

Definition Capacity (self : oop) : V oop :=
  storage ← vec_storage self; n ← GetNumberOfIndexableFields storage; NEW_INT USE_TAGGING n.

(** ** Changes *)

(** The store of [Append], into a larger array when there is no room. *)
Definition append_at (self storage : oop) (n last : Z) (value : oop) : V () :=
  if u64 last >=? n then
    newStorage ← NewExpandedArrayFromArray (n * 2) storage;
    CopyIndexableFieldsTo storage newStorage;;
    SetIndexableField newStorage (last - 1) value;;
    SetField self 2 newStorage
  else SetIndexableField storage (last - 1) value.

Definition Append (self : oop) (value : oop) : V () :=
  last ← vec_last self;
  storage ← vec_storage self;
  n ← GetNumberOfIndexableFields storage;
  append_at self storage n last value;;
  set_last self (last + 1).

(** [for (i = index; i < last - first; ++i)], [n] times. *)
Fixpoint shift_left (n : nat) (i first : Z) (storage : oop) : V () :=
  match n with
  | O => mret tt
  | S n =>
      x ← GetIndexableField storage (first + i);
      SetIndexableField storage (first + i - 1) x;;
      shift_left n (i + 1) first storage
  end.

Definition remove (self : oop) (index : Z) : V oop :=
  first ← vec_first self;
  last ← vec_last self;
  storage ← vec_storage self;
  itemToRemove ← GetStorage self index;
  shift_left (Z.to_nat (last - first - index)) index first storage;;
  set_last self (last - 1);;
  mret itemToRemove.

Definition RemoveLast (self : oop) : V oop :=
  last ← vec_last self;
  first ← vec_first self;
  if last =? first then send_error self "Vector: error when removing Last item."
  else remove self (last - first).

Definition RemoveFirst (self : oop) : V oop :=
  first ← vec_first self;
  last ← vec_last self;
  if first >=? last then send_error self "Vector: error when removing First item."
  else
    itemToRemove ← GetStorage self 1;
    set_first self (first + 1);;
    mret itemToRemove.

(** The loop over the elements, [n] of which are left. *)
Fixpoint remove_search (n : nat) (i first : Z) (storage self other : oop) : V oop :=
  match n with
  | O => k ← gets known; mret (falseObject k)
  | S n =>
      current ← GetIndexableField storage i;
      if decide (current = other) then
        remove self (i - first + 2);;
        k ← gets known; mret (trueObject k)
      else remove_search n (i + 1) first storage self other
  end.

Definition RemoveObj (self other : oop) : V oop :=
  first ← vec_first self;
  last ← vec_last self;
  storage ← vec_storage self;
  remove_search (Z.to_nat (last - first)) (first - 1) first storage self other.

Definition RemoveAll (self : oop) : V () :=
  set_first self 1;;
  set_last self 1;;
  storage ← vec_storage self;
  n ← GetNumberOfIndexableFields storage;
  newArray ← NewArray n;
  SetField self 2 newArray.

Fixpoint copy_storage (n : nat) (i first : Z) (storage result : oop) : V () :=
  match n with
  | O => mret tt
  | S n =>
      x ← GetIndexableField storage i;
      SetIndexableField result (i - first + 1) x;;
      copy_storage n (i + 1) first storage result
  end.

Definition copyStorageArray (self : oop) : V oop :=
  first ← vec_first self;
  last ← vec_last self;
  storage ← vec_storage self;
  result ← NewArray (last - first);
  copy_storage (Z.to_nat (last - first)) (first - 1) first storage result;;
  mret result.

(** ** The primitives *)

Definition vecNew (clazz : oop) : V oop := NewVector 50 clazz.
(** A negative size becomes one that no heap has room for. *)
Definition vecNewSize (clazz arg : oop) : V oop :=
  size ← SMALL_INT_VAL USE_TAGGING arg; if size <? 0 then fail Undef else NewVector size clazz.
Definition vecAt (obj arg : oop) : V oop := index ← SMALL_INT_VAL USE_TAGGING arg; GetStorage obj index.
Definition vecAtAWFY (obj arg : oop) : V oop := index ← SMALL_INT_VAL USE_TAGGING arg; AWFYGetStorage obj index.
Definition vecAtPut (obj at_ put : oop) : V oop :=
  index ← SMALL_INT_VAL USE_TAGGING at_; SetStorage obj index put.
Definition vecAtPutAWFY (obj at_ put : oop) : V oop :=
  index ← SMALL_INT_VAL USE_TAGGING at_; SetStorageAWFY obj index put;; mret obj.
Definition vecAppend (obj arg : oop) : V oop := Append obj arg;; mret obj.
Definition vecFirst : oop -> V oop := GetFirst.
Definition vecLast : oop -> V oop := GetLast.
Definition removeLast : oop -> V oop := RemoveLast.
Definition removeFirst : oop -> V oop := RemoveFirst.
Definition removeObject : oop -> oop -> V oop := RemoveObj.
Definition removeAll (obj : oop) : V oop := RemoveAll obj;; mret obj.
Definition vecSize : oop -> V oop := Size.
Definition capacity : oop -> V oop := Capacity.
Definition asArray : oop -> V oop := copyStorageArray.

End Vector.

(** ** Steps of the loops *)

Lemma shift_left_step ys : forall w a k c p x q i first,
  heap_ok w -> heap w !! a = Some (OObject k c (p ++ x :: ys ++ q)) ->
  first + i = Z.of_nat (length p) + 1 -> exists z,
  shift_left (length ys) i first (Ref a) w =
    Ok (tt, put_obj a (OObject k c (p ++ ys ++ z :: q)) w).
Proof.
  induction ys as [|y ys IH]; intros w a k c p x q i first HO Ha Hi.
  { exists x. cbn. by rewrite put_obj_id. }
  cbn [length shift_left].
  destruct (IH (put_obj a (OObject k c (p ++ y :: (y :: ys) ++ q)) w) a k c (p ++ [y]) y q (i + 1) first)
    as [z Hz].
  { apply heap_ok_put; [done|by eapply heap_below|].
    pose proof (arrays_small _ HO _ _ _ _ Ha) as Hs. cbn in *.
    rewrite length_app in Hs |- *. cbn in *. lia. }
  { rewrite put_obj_eq. by rewrite <- (assoc_L (++)). }
  { rewrite length_app. cbn [length]. lia. }
  exists z. erewrite bind_step.
  2:{ eapply (GetIndexableField_at _ _ _ _ (p ++ [x])); [done| |rewrite length_app; cbn; lia].
      rewrite Ha. by rewrite <- (assoc_L (++)). }
  erewrite bind_step; [|eapply SetIndexableField_at; [done..|lia]].
  rewrite Hz, put_obj_twice. by rewrite <- (assoc_L (++)).
Qed.

Lemma copy_storage_step todo : forall w pre done_ post from to k c k' c' rest i,
  heap_ok w -> from <> to -> i = Z.of_nat (length pre + length done_) ->
  heap w !! from = Some (OObject k c (pre ++ done_ ++ todo ++ post)) ->
  heap w !! to = Some (OObject k' c' (done_ ++ rest)) -> length todo = length rest ->
  copy_storage (length todo) i (Z.of_nat (length pre) + 1) (Ref from) (Ref to) w =
    Ok (tt, put_obj to (OObject k' c' (done_ ++ todo)) w).
Proof.
  induction todo as [|x todo IH]; intros w pre done_ post from to k c k' c' rest i HO Hne Hi Hf Ht Hl.
  { destruct rest; [|done]. cbn. by rewrite put_obj_id. }
  destruct rest as [|y rest]; [done|]. cbn [length copy_storage].
  erewrite bind_step.
  2:{ eapply (GetIndexableField_at _ _ _ _ (pre ++ done_)); [done| |by rewrite length_app].
      rewrite Hf. by rewrite <- (assoc_L (++)). }
  erewrite bind_step; [|eapply SetIndexableField_at; [done..|lia]].
  rewrite (IH _ pre (done_ ++ [x]) post from to k c k' c' rest).
  - rewrite put_obj_twice. by rewrite <- !(assoc_L (++)).
  - apply heap_ok_put; [done|by eapply heap_below|].
    pose proof (arrays_small _ HO _ _ _ _ Ht) as Hs. cbn in *.
    rewrite length_app in Hs |- *. cbn in *. lia.
  - done.
  - rewrite length_app. cbn [length]. lia.
  - rewrite put_obj_ne by done. rewrite Hf. by rewrite <- (assoc_L (++) done_ [x]).
  - rewrite put_obj_eq. by rewrite <- (assoc_L (++)).
  - by injection Hl.
Qed.

(** ** The model

    A vector [v] with the storage array [s]: the bounds [first] and [last], and the
    elements [es] of the array. *)
Section Model.

Context (USE_TAGGING : bool) (Send : oop -> string -> list oop -> V ()).

Definition int_at (w : World) (x : oop) (z : Z) : Prop := small_int USE_TAGGING x w = Ok (Some z, w).

Record vector_object (w : World) (v s : loc) (first last : Z) (es : list oop) : Prop :=
  mkVectorObject {
    vo_heap : heap_ok w;
    vo_distinct : v <> s;
    vo_fields : exists k c x y, heap w !! v = Some (OObject k c [x; y; Ref s]) /\
      int_at w x first /\ int_at w y last;
    vo_storage : exists c, heap w !! s = Some (OObject KArray c es) }.

(** The elements of the vector are [xs]; there is always room for one more. *)
Definition is_vector (w : World) (v s : loc) (pre xs post : list oop) : Prop :=
  vector_object w v s (Z.of_nat (length pre) + 1) (Z.of_nat (length pre + length xs) + 1)
    (pre ++ xs ++ post) /\ post <> [].

Lemma int_at_inv w x z : int_at w x z ->
  (USE_TAGGING = true /\ x = Tagged z) \/
  (USE_TAGGING = false /\ exists l, x = Ref l /\ heap w !! l = Some (OInteger z)).
Proof.
  unfold int_at, small_int. destruct x as [|z'|l]; destruct USE_TAGGING; cbn; try done.
  - injection 1 as ->. by left.
  - intros H. right. minv H. unfold load in E. destruct (heap w !! l) as [o|] eqn:El; [|done].
    injection E as <- <-. destruct o; try done. injection H as ->. eauto.
Qed.

Lemma int_at_intro w x z :
  (USE_TAGGING = true /\ x = Tagged z) \/
  (USE_TAGGING = false /\ exists l, x = Ref l /\ heap w !! l = Some (OInteger z)) -> int_at w x z.
Proof.
  unfold int_at, small_int. intros [[-> ->]|[-> (l & -> & H)]]; [done|]. by mrun.
Qed.

Lemma int_at_changes w w' ls x z :
  int_at w x z -> heap_ok w -> changes ls w w' ->
  (forall l, l ∈ ls -> heap w !! l <> Some (OInteger z)) -> int_at w' x z.
Proof.
  intros [?|(? & l & ? & Hl)]%int_at_inv HO Hc Hls; apply int_at_intro; [by left|].
  right. split; [done|]. exists l. split; [done|]. erewrite changes_lookup; [done|done| |].
  - by eapply heap_below.
  - intros Hin. by apply (Hls l).
Qed.

Lemma SMALL_INT_VAL_step w x z : int_at w x z -> SMALL_INT_VAL USE_TAGGING x w = Ok (z, w).
Proof. intros H. unfold SMALL_INT_VAL. erewrite bind_step by exact H. done. Qed.

Lemma NEW_INT_step w z : - 2 ^ 62 <= z < 2 ^ 62 -> exists x w',
  NEW_INT USE_TAGGING z w = Ok (x, w') /\ int_at w' x z /\ changes [] w w' /\
  (heap_ok w -> heap_ok w').
Proof.
  intros Hz. unfold NEW_INT. destruct (decide (USE_TAGGING = true)) as [E|E].
  - exists (Tagged z), w. rewrite E. replace (within_tagged_range z) with true.
    2:{ symmetry. apply andb_true_iff. unfold VMTAGGEDINTEGER_MAX, VMTAGGEDINTEGER_MIN.
        rewrite Z.geb_le, Z.leb_le. lia. }
    split; [done|]. split; [apply int_at_intro; by left|]. split; [apply changes_refl|done].
  - apply not_true_is_false in E. rewrite E. eexists _, _.
    erewrite bind_step by apply alloc_step. split; [done|].
    split; [apply int_at_intro; right; split; [done|]; eexists; split; [done|]; apply put_obj_eq|].
    split; [apply changes_new|]. intros HO. by apply heap_ok_new.
Qed.

(** *** Steps of the parts of a vector *)

Lemma not_integer w l z k c es : heap w !! l = Some (OObject k c es) -> heap w !! l <> Some (OInteger z).
Proof. by intros ->. Qed.

Lemma vec_fields_step w v s first last es : vector_object w v s first last es ->
  vec_first USE_TAGGING (Ref v) w = Ok (first, w) /\ vec_last USE_TAGGING (Ref v) w = Ok (last, w) /\
  vec_storage (Ref v) w = Ok (Ref s, w) /\
  GetNumberOfIndexableFields (Ref s) w = Ok (Z.of_nat (length es), w) /\
  0 <= Z.of_nat (length es) < 2 ^ 64.
Proof.
  intros [HO _ (k & c & x & y & Hv & Hx & Hy) [c' Hs]]. unfold vec_first, vec_last, vec_storage.
  repeat split.
  - erewrite bind_step by (by eapply GetField_step). by apply SMALL_INT_VAL_step.
  - erewrite bind_step by (by eapply GetField_step). by apply SMALL_INT_VAL_step.
  - by eapply GetField_step.
  - by eapply GetNumberOfIndexableFields_step.
  - lia.
  - by eapply arrays_small.
Qed.

(** Nothing that the vector is made of has been touched. *)
Lemma vector_object_changes w w' v s first last es ls :
  vector_object w v s first last es -> changes ls w w' -> heap_ok w' ->
  (v ∉ ls) -> (s ∉ ls) -> (forall l z, l ∈ ls -> heap w !! l <> Some (OInteger z)) ->
  vector_object w' v s first last es.
Proof.
  intros [HO Hd (k & c & x & y & Hv & Hx & Hy) [c' Hs]] Hc HO' Nv Ns Hls. split; [done|done| |].
  - exists k, c, x, y. split; [|split; eapply int_at_changes; eauto].
    rewrite (changes_lookup _ _ _ _ Hc); [done| |done]. by eapply heap_below.
  - exists c'. rewrite (changes_lookup _ _ _ _ Hc); [done| |done]. by eapply heap_below.
Qed.

(** Its fields are stored. *)
Lemma vector_object_put w v k c xyz x y s first last c' es :
  heap_ok w -> heap w !! v = Some (OObject k c xyz) -> v <> s ->
  int_at w x first -> int_at w y last -> heap w !! s = Some (OObject KArray c' es) ->
  vector_object (put_obj v (OObject k c [x; y; Ref s]) w) v s first last es /\
  changes [v] w (put_obj v (OObject k c [x; y; Ref s]) w).
Proof.
  intros HO Hv Hd Hx Hy Hs.
  assert (changes [v] w (put_obj v (OObject k c [x; y; Ref s]) w)) as Hc
    by (by apply changes_put, list_elem_of_singleton).
  assert (forall l z, l ∈ [v] -> heap w !! l <> Some (OInteger z)) as Hn.
  { intros l z ->%list_elem_of_singleton. by rewrite Hv. }
  split; [|done]. split; [|done| |].
  - apply heap_ok_put; [done|by eapply heap_below|done].
  - exists k, c, x, y. rewrite put_obj_eq. split; [done|]. split; eapply int_at_changes; eauto.
  - exists c'. by rewrite put_obj_ne.
Qed.

Lemma vector_NEW_INT w v s first last es i :
  vector_object w v s first last es -> - 2 ^ 62 <= i < 2 ^ 62 -> exists x w1,
  NEW_INT USE_TAGGING i w = Ok (x, w1) /\ int_at w1 x i /\ vector_object w1 v s first last es /\
  changes [v] w w1.
Proof.
  intros HV Hi. destruct (NEW_INT_step w i Hi) as (x & w1 & E & Hx & Hc & HO).
  exists x, w1. split; [done|]. split; [done|]. split.
  - eapply vector_object_changes; [done..|by apply HO, HV| | |]; [by apply not_elem_of_nil..|].
    by intros ? ? ?%not_elem_of_nil.
  - eapply changes_mono, Hc. set_solver.
Qed.

Lemma set_first_step w v s first last es i :
  vector_object w v s first last es -> - 2 ^ 62 <= i < 2 ^ 62 -> exists w',
  set_first USE_TAGGING (Ref v) i w = Ok (tt, w') /\ vector_object w' v s i last es /\ changes [v] w w'.
Proof.
  intros HV Hi. destruct (vector_NEW_INT _ _ _ _ _ _ _ HV Hi) as (x & w1 & E & Hx & HV1 & Hc).
  destruct HV1 as [HO Hd (k & c & x0 & y0 & Hv & Hx0 & Hy) [c' Hs]].
  destruct (vector_object_put w1 v k c _ x y0 s i last c' es HO Hv Hd Hx Hy Hs) as [HV2 Hc2].
  eexists. unfold set_first. erewrite bind_step by exact E.
  split; [eapply SetField_step; [done|cbn; lia]|]. split; [exact HV2|]. by eapply changes_trans.
Qed.

Lemma set_last_step w v s first last es i :
  vector_object w v s first last es -> - 2 ^ 62 <= i < 2 ^ 62 -> exists w',
  set_last USE_TAGGING (Ref v) i w = Ok (tt, w') /\ vector_object w' v s first i es /\ changes [v] w w'.
Proof.
  intros HV Hi. destruct (vector_NEW_INT _ _ _ _ _ _ _ HV Hi) as (x & w1 & E & Hx & HV1 & Hc).
  destruct HV1 as [HO Hd (k & c & x0 & y0 & Hv & Hx0 & Hy) [c' Hs]].
  destruct (vector_object_put w1 v k c _ x0 x s first i c' es HO Hv Hd Hx0 Hx Hs) as [HV2 Hc2].
  eexists. unfold set_last. erewrite bind_step by exact E.
  split; [eapply SetField_step; [done|cbn; lia]|]. split; [exact HV2|]. by eapply changes_trans.
Qed.

(** The storage array is replaced by one that is there. *)
Lemma set_storage_step w v s first last es s' c' es' :
  vector_object w v s first last es -> v <> s' -> heap w !! s' = Some (OObject KArray c' es') ->
  exists w', SetField (Ref v) 2 (Ref s') w = Ok (tt, w') /\ vector_object w' v s' first last es' /\
    changes [v] w w'.
Proof.
  intros [HO Hd (k & c & x0 & y0 & Hv & Hx0 & Hy) _] Hd' Hs.
  destruct (vector_object_put w v k c _ x0 y0 s' first last c' es' HO Hv Hd' Hx0 Hy Hs) as [HV2 Hc2].
  eexists. split; [eapply SetField_step; [done|cbn; lia]|]. done.
Qed.

(** The storage array is overwritten. *)
Lemma vector_object_array w v s first last es c es' :
  vector_object w v s first last es -> length es' = length es ->
  heap w !! s = Some (OObject KArray c es) ->
  vector_object (put_obj s (OObject KArray c es') w) v s first last es' /\
  changes [s] w (put_obj s (OObject KArray c es') w).
Proof.
  intros [HO Hd (k & c1 & x0 & y0 & Hv & Hx0 & Hy) _] Hl Hs.
  assert (changes [s] w (put_obj s (OObject KArray c es') w)) as Hc
    by (by apply changes_put, list_elem_of_singleton).
  assert (forall l z, l ∈ [s] -> heap w !! l <> Some (OInteger z)) as Hn.
  { intros l z ->%list_elem_of_singleton. by rewrite Hs. }
  split; [|done]. split; [|done| |].
  - apply heap_ok_put; [done|by eapply heap_below|]. cbn [small_object]. rewrite Hl.
    by eapply arrays_small.
  - exists k, c1, x0, y0. rewrite put_obj_ne by done. split; [done|]. split; eapply int_at_changes; eauto.
  - exists c. by rewrite put_obj_eq.
Qed.

Lemma set_element_step w v s first last p x q i y :
  vector_object w v s first last (p ++ x :: q) -> i = Z.of_nat (length p) -> exists w',
  SetIndexableField (Ref s) i y w = Ok (tt, w') /\ vector_object w' v s first last (p ++ y :: q) /\
  changes [s] w w'.
Proof.
  intros HV Hi. destruct (vo_storage _ _ _ _ _ _ HV) as [c Hs]. eexists.
  erewrite SetIndexableField_at; [|apply HV|done|done]. split; [done|].
  eapply vector_object_array; [done| |done]. by rewrite !length_app.
Qed.

Lemma get_element_step w v s first last p x q i :
  vector_object w v s first last (p ++ x :: q) -> i = Z.of_nat (length p) ->
  GetIndexableField (Ref s) i w = Ok (x, w).
Proof.
  intros HV Hi. destruct (vo_storage _ _ _ _ _ _ HV) as [c Hs].
  by eapply GetIndexableField_at; [apply HV|..].
Qed.

(** *** Steps of the operations

    [fits m]: after [m] more additions the numbers are still those of small integers. *)
Definition fits (m : nat) (pre xs post : list oop) : Prop :=
  Z.of_nat (length pre + length xs + length post) < 2 ^ 62 /\
  2 * Z.of_nat (length pre + length xs + 1 + m) < 2 ^ 62.

Lemma GetStorage_step w v s pre a x b post i :
  is_vector w v s pre (a ++ x :: b) post -> i = Z.of_nat (length a) + 1 ->
  GetStorage USE_TAGGING Send (Ref v) i w = Ok (x, w).
Proof.
  intros [HV _] ->. destruct (vec_fields_step _ _ _ _ _ _ HV) as (Hf & Hl & Hs & _ & _).
  unfold GetStorage. erewrite bind_step by exact Hf. erewrite bind_step by exact Hl.
  erewrite bind_step by exact Hs. rewrite length_app. cbn [length].
  rewrite (proj2 (orb_false_iff _ _)); [|split; [apply Z.ltb_ge; lia|rewrite Z.gtb_ltb; apply Z.ltb_ge; lia]].
  eapply (get_element_step _ _ _ _ _ (pre ++ a) x (b ++ post)).
  - revert HV. by rewrite <- !(assoc_L (++)).
  - rewrite length_app. lia.
Qed.

Lemma SetStorage_step w v s pre a x b post i y :
  is_vector w v s pre (a ++ x :: b) post -> i = Z.of_nat (length a) + 1 -> exists w',
  SetStorage USE_TAGGING Send (Ref v) i y w = Ok (x, w') /\
  is_vector w' v s pre (a ++ y :: b) post /\ changes [v; s] w w'.
Proof.
  intros [HV Hp] ->. destruct (vec_fields_step _ _ _ _ _ _ HV) as (Hf & Hl & Hs & _ & _).
  assert (pre ++ (a ++ x :: b) ++ post = (pre ++ a) ++ x :: (b ++ post)) as E
    by (by rewrite <- !(assoc_L (++))).
  rewrite E in HV.
  destruct (set_element_step _ _ _ _ _ (pre ++ a) x (b ++ post)
    (Z.of_nat (length pre) + 1 + (Z.of_nat (length a) + 1) - 2) y HV) as (w' & Es & HV' & Hc).
  { rewrite length_app. lia. }
  exists w'. unfold SetStorage. erewrite bind_step by exact Hf. erewrite bind_step by exact Hl.
  erewrite bind_step by exact Hs. rewrite length_app. cbn [length].
  rewrite (proj2 (orb_false_iff _ _)); [|split; [apply Z.ltb_ge; lia|rewrite Z.gtb_ltb; apply Z.ltb_ge; lia]].
  erewrite bind_step; [|eapply get_element_step; [exact HV|rewrite length_app; lia]].
  erewrite bind_step by exact Es. split; [done|]. split.
  - split; [|done]. revert HV'. rewrite !length_app. cbn [length]. by rewrite <- !(assoc_L (++)).
  - eapply changes_mono, Hc. set_solver.
Qed.

(** The loop of [remove] starts one place too far: it is the element behind the one at
    the index that is overwritten, so that is the one that goes unless there is none. *)
Definition removed (x : oop) (b : list oop) : list oop :=
  match b with [] => [] | _ :: b => x :: b end.

Lemma remove_loop w v s first last pre a x b post i :
  vector_object w v s first last (pre ++ (a ++ x :: b) ++ post) -> post <> [] ->
  first = Z.of_nat (length pre) + 1 -> i = Z.of_nat (length a) + 1 ->
  last = Z.of_nat (length pre + length (a ++ x :: b)) + 1 -> exists w' post',
  shift_left (Z.to_nat (last - first - i)) i first (Ref s) w = Ok (tt, w') /\
  vector_object w' v s first last (pre ++ (a ++ removed x b) ++ post') /\
  length post' = S (length post) /\ changes [s] w w'.
Proof.
  intros HV Hp -> -> ->. destruct (vo_storage _ _ _ _ _ _ HV) as [c Ha].
  rewrite length_app. cbn [length]. destruct b as [|y b].
  { exists w, (x :: post). replace (Z.to_nat _) with 0%nat by (cbn [length]; lia). split; [done|]. split.
    - revert HV. cbn. by rewrite length_app, <- !(assoc_L (++)).
    - split; [done|apply changes_refl]. }
  destruct post as [|q post]; [done|].
  destruct (shift_left_step (b ++ [q]) w s KArray c (pre ++ a ++ [x]) y post
    (Z.of_nat (length a) + 1) (Z.of_nat (length pre) + 1)) as [z Hz].
  { apply HV. } { rewrite Ha. cbn. by rewrite <- !(assoc_L (++)). }
  { rewrite !length_app. cbn [length]. lia. }
  eexists _, (q :: z :: post).
  replace (Z.to_nat _) with (length (b ++ [q])) by (rewrite length_app; cbn [length]; lia).
  split; [exact Hz|]. cbn [removed].
  replace ((pre ++ a ++ [x]) ++ (b ++ [q]) ++ z :: post) with (pre ++ (a ++ x :: b) ++ q :: z :: post)
    by (by rewrite <- !(assoc_L (++))).
  assert (length (pre ++ (a ++ x :: b) ++ q :: z :: post) = length (pre ++ (a ++ x :: y :: b) ++ q :: post)) as El
    by (rewrite !length_app; cbn [length]; lia).
  rewrite length_app in HV. cbn [length] in HV.
  destruct (vector_object_array _ _ _ _ _ _ c _ HV El Ha) as [HV' Hc]. done.
Qed.

Lemma remove_step w v s pre a x b post i :
  is_vector w v s pre (a ++ x :: b) post -> i = Z.of_nat (length a) + 1 ->
  fits 0 pre (a ++ x :: b) post -> exists w' post',
  remove USE_TAGGING Send (Ref v) i w = Ok (x, w') /\
  is_vector w' v s pre (a ++ removed x b) post' /\ length post' = S (length post) /\
  changes [v; s] w w'.
Proof.
  intros HV Hi Hfit. pose proof (GetStorage_step _ _ _ _ _ _ _ _ _ HV Hi) as Hget.
  destruct HV as [HV Hp]. destruct (vec_fields_step _ _ _ _ _ _ HV) as (Hf & Hl & Hs & _ & _).
  destruct (remove_loop _ _ _ _ _ _ _ _ _ _ _ HV Hp eq_refl Hi eq_refl)
    as (w1 & post' & Hz & HV1 & Hp' & Hc1).
  assert (length (a ++ x :: b) = S (length (a ++ removed x b))) as El
    by (destruct b; rewrite !length_app; cbn [length removed]; lia).
  destruct (set_last_step _ _ _ _ _ _ (Z.of_nat (length pre + length (a ++ removed x b)) + 1) HV1)
    as (w' & E' & HV' & Hc').
  { destruct Hfit as [Hfit _]. lia. }
  exists w', post'. unfold remove. erewrite bind_step by exact Hf. erewrite bind_step by exact Hl.
  erewrite bind_step by exact Hs. erewrite bind_step by exact Hget. erewrite bind_step by exact Hz.
  replace (_ + 1 - 1) with (Z.of_nat (length pre + length (a ++ removed x b)) + 1) by lia.
  erewrite bind_step by exact E'. split; [done|]. split; [split; [done|by destruct post']|].
  split; [done|].
  eapply changes_trans; [eapply changes_mono, Hc1|eapply changes_mono, Hc']; set_solver.
Qed.

Lemma vector_below w v s first last es :
  vector_object w v s first last es -> (v < next w /\ s < next w)%nat.
Proof. intros [HO _ (k & c & x & y & Hv & _) [c' Hs]]. split; by eapply heap_below. Qed.

(** A new array, next to the vector. *)
Lemma NewArray_vector w v s first last es n :
  vector_object w v s first last es -> 0 <= n < 2 ^ 64 ->
  let w' := put_obj (next w) (OObject KArray (arrayClass (known w))
              (replicate (Z.to_nat n) (nilObject (known w)))) (set_next (S (next w)) w) in
  NewArray n w = Ok (Ref (next w), w') /\ vector_object w' v s first last es /\
  changes [] w w' /\ v <> next w /\ s <> next w.
Proof.
  intros HV Hn. cbn zeta. split; [apply NewArray_step|].
  destruct (vector_below _ _ _ _ _ _ HV) as [Hv Hs].
  split; [|split; [apply changes_new|lia]].
  eapply vector_object_changes; [done|apply (changes_new [])| |by apply not_elem_of_nil..|].
  - apply heap_ok_new; [apply HV|]. cbn [small_object]. rewrite length_replicate. lia.
  - by intros ? ? ?%not_elem_of_nil.
Qed.

(** The part of [Append] that makes a larger array: all of [CopyIndexableFieldsTo] has
    been done by [NewExpandedArrayFromArray] already. *)
Lemma expand_step w v s first last es :
  vector_object w v s first last es -> 2 * Z.of_nat (length es) < 2 ^ 62 -> exists w',
  NewExpandedArrayFromArray (Z.of_nat (length es) * 2) (Ref s) w = Ok (Ref (next w), w') /\
  CopyIndexableFieldsTo (Ref s) (Ref (next w)) w' = Ok (tt, w') /\
  vector_object w' v s first last es /\ v <> next w /\ changes [] w w' /\
  exists c, heap w' !! next w =
    Some (OObject KArray c (es ++ replicate (length es) (nilObject (known w)))).
Proof.
  intros HV Hfit. destruct (vec_fields_step _ _ _ _ _ _ HV) as (_ & _ & _ & Hn & Hn').
  destruct (NewArray_vector _ _ _ _ _ _ (Z.of_nat (length es) * 2) HV) as (E1 & HV1 & Hc1 & Nv & Ns); [lia|].
  cbn zeta in *. set (w1 := put_obj _ _ _) in *.
  set (w2 := put_obj (next w) (OObject KArray (arrayClass (known w))
    (es ++ replicate (length es) (nilObject (known w)))) w1).
  assert (changes [] w w2) as Hc2.
  { unfold w2, w1. rewrite put_obj_twice. apply changes_new. }
  assert (vector_object w2 v s first last es) as HV2.
  { eapply vector_object_changes; [exact HV|exact Hc2| |by apply not_elem_of_nil..|].
    - unfold w2, w1. rewrite put_obj_twice. apply heap_ok_new; [apply HV|]. cbn [small_object].
      rewrite length_app, length_replicate. lia.
    - by intros ? ? ?%not_elem_of_nil. }
  exists w2. destruct (vo_storage _ _ _ _ _ _ HV1) as [c Hs1].
  destruct (vo_storage _ _ _ _ _ _ HV2) as [c2 Hs2]. split; [|split].
  - unfold NewExpandedArrayFromArray. erewrite bind_step by exact Hn. erewrite bind_step by exact E1.
    rewrite Nat2Z.id. erewrite bind_step; [done|].
    erewrite (copy_elements_step es w1 []); [|apply HV1|done|done|exact Hs1|apply put_obj_eq|].
    + cbn [app]. rewrite drop_replicate. do 6 f_equal. lia.
    + rewrite length_replicate. lia.
  - unfold CopyIndexableFieldsTo.
    erewrite bind_step by (by eapply GetNumberOfIndexableFields_step). rewrite Nat2Z.id.
    erewrite (copy_elements_step es w2 [] s (next w) _ _ _ _ (es ++ _)); [|apply HV2|done|done|exact Hs2|apply put_obj_eq|].
    + cbn [app]. rewrite drop_app_length. unfold w2. by rewrite put_obj_twice.
    + rewrite length_app. lia.
  - split; [done|]. split; [done|]. split; [done|]. eexists. apply put_obj_eq.
Qed.

Lemma Append_grows w v s first last pre xs q i x :
  vector_object w v s first last (pre ++ xs ++ [q]) ->
  2 * Z.of_nat (length (pre ++ xs ++ [q])) < 2 ^ 62 -> i = Z.of_nat (length (pre ++ xs)) ->
  exists w' s' y,
  (newStorage ← NewExpandedArrayFromArray (Z.of_nat (length (pre ++ xs ++ [q])) * 2) (Ref s);
   CopyIndexableFieldsTo (Ref s) newStorage;;
   SetIndexableField newStorage i x;; SetField (Ref v) 2 newStorage) w = Ok (tt, w') /\
  vector_object w' v s' first last (pre ++ (xs ++ [x]) ++ replicate (length (pre ++ xs ++ [q])) y) /\
  changes [v] w w' /\ (next w <= s')%nat.
Proof.
  intros HV Hfit Hi. destruct (expand_step _ _ _ _ _ _ HV Hfit) as (w1 & E1 & E2 & HV1 & Nv & Hc1 & c & Ha).
  erewrite bind_step by exact E1. erewrite bind_step by exact E2. set (es := replicate _ _) in Ha.
  assert (heap w1 !! next w = Some (OObject KArray c ((pre ++ xs) ++ q :: es))) as Ha'
    by (rewrite Ha; by rewrite <- !(assoc_L (++))).
  erewrite bind_step; [|eapply SetIndexableField_at; [apply HV1|exact Ha'|exact Hi]].
  set (w2 := put_obj _ _ w1).
  destruct (vector_below _ _ _ _ _ _ HV) as [_ Ns].
  assert (vector_object w2 v s first last (pre ++ xs ++ [q])) as HV2.
  { eapply (vector_object_changes _ _ _ _ _ _ _ [next w]); [exact HV1| | | | |].
    - by apply changes_put, list_elem_of_singleton.
    - apply heap_ok_put; [apply HV1|by eapply heap_below; [apply HV1|]|].
      cbn [small_object]. pose proof (arrays_small _ (vo_heap _ _ _ _ _ _ HV1) _ _ _ _ Ha') as Hb.
      revert Hb. rewrite !length_app. cbn [length]. lia.
    - by intros ?%list_elem_of_singleton.
    - intros ?%list_elem_of_singleton. lia.
    - intros l z ->%list_elem_of_singleton. by rewrite Ha. }
  destruct (set_storage_step _ _ _ _ _ _ (next w) c ((pre ++ xs) ++ x :: es) HV2 Nv) as (w' & E' & HV' & Hc').
  { apply put_obj_eq. }
  exists w', (next w), (nilObject (known w)). split; [exact E'|]. split.
  - revert HV'. fold es. by rewrite <- !(assoc_L (++)).
  - split; [|done]. eapply changes_trans; [|done]. apply changes_put_new; [|done].
    eapply changes_mono, Hc1. set_solver.
Qed.

Lemma append_at_step w v s first last pre xs post x m :
  vector_object w v s first last (pre ++ xs ++ post) -> post <> [] ->
  last = Z.of_nat (length pre + length xs) + 1 -> fits (S m) pre xs post -> exists w' s' post',
  append_at (Ref v) (Ref s) (Z.of_nat (length (pre ++ xs ++ post))) last x w = Ok (tt, w') /\
  vector_object w' v s' first last (pre ++ (xs ++ [x]) ++ post') /\ post' <> [] /\
  fits m pre (xs ++ [x]) post' /\ changes [v; s] w w' /\ (s' = s \/ (next w <= s')%nat).
Proof.
  intros HV Hp -> [Hfit1 Hfit2]. destruct post as [|q post]; [done|]. unfold append_at.
  assert (length (xs ++ [x]) = S (length xs)) as El by (rewrite length_app; cbn [length]; lia).
  assert (length (pre ++ xs ++ q :: post) = length pre + length xs + S (length post))%nat as Ee
    by (rewrite !length_app; cbn [length]; lia).
  assert (Z.of_nat (length pre + length xs) + 1 - 1 = Z.of_nat (length (pre ++ xs))) as Ei
    by (rewrite length_app; lia).
  rewrite uwrap_small by lia. rewrite Z.geb_leb. cbn [length] in Hfit1. destruct (_ <=? _) eqn:G.
  - apply Z.leb_le in G. assert (post = []) as -> by (destruct post; [done|cbn [length] in *; lia]).
    assert (2 * Z.of_nat (length (pre ++ xs ++ [q])) < 2 ^ 62) as Hb by (rewrite Ee; cbn [length] in *; lia).
    destruct (Append_grows _ _ _ _ _ _ _ _ _ x HV Hb Ei) as (w1 & s' & y & E1 & HV1 & Hc1 & Hs1).
    eexists w1, s', _. split; [exact E1|]. split; [exact HV1|]. split; [by rewrite Ee, Nat.add_comm|].
    split; [|split; [|by right]].
    + unfold fits. rewrite El, length_replicate, Ee. cbn [length]. lia.
    + eapply changes_mono, Hc1. set_solver.
  - apply Z.leb_gt in G. rewrite (assoc_L (++)) in HV.
    destruct (set_element_step _ _ _ _ _ _ _ _ _ x HV Ei) as (w1 & E1 & HV1 & Hc1).
    exists w1, s, post. split; [exact E1|]. split; [revert HV1; by rewrite <- !(assoc_L (++))|].
    split; [destruct post; [cbn [length] in *; lia|done]|]. split; [|split; [|by left]].
    + unfold fits. rewrite El. lia.
    + eapply changes_mono, Hc1. set_solver.
Qed.

Lemma Append_step w v s pre xs post x m :
  is_vector w v s pre xs post -> fits (S m) pre xs post -> exists w' s' post',
  Append USE_TAGGING (Ref v) x w = Ok (tt, w') /\ is_vector w' v s' pre (xs ++ [x]) post' /\
  fits m pre (xs ++ [x]) post' /\ changes [v; s] w w' /\ (s' = s \/ (next w <= s')%nat).
Proof.
  intros [HV Hp] Hfit. destruct (vec_fields_step _ _ _ _ _ _ HV) as (_ & Hl & Hs & Hn & _).
  unfold Append. erewrite bind_step by exact Hl. erewrite bind_step by exact Hs.
  erewrite bind_step by exact Hn.
  destruct (append_at_step _ _ _ _ _ _ _ _ x _ HV Hp eq_refl Hfit) as (w1 & s' & post' & E1 & HV1 & Hp1 & Hf1 & Hc1 & Hs1).
  erewrite bind_step by exact E1.
  destruct (set_last_step _ _ _ _ _ _ (Z.of_nat (length pre + length xs) + 1 + 1) HV1) as (w' & E' & HV' & Hc').
  { destruct Hfit as [_ Hfit]. lia. }
  exists w', s', post'. split; [exact E'|]. split; [|split; [done|split; [|done]]].
  - split; [|done]. revert HV'. rewrite (length_app xs). cbn [length].
    by replace (Z.of_nat (length pre + (length xs + 1)) + 1)
      with (Z.of_nat (length pre + length xs) + 1 + 1) by lia.
  - eapply changes_trans; [exact Hc1|]. eapply changes_mono, Hc'. set_solver.
Qed.

Lemma RemoveFirst_step w v s pre x xs post m :
  is_vector w v s pre (x :: xs) post -> fits m pre (x :: xs) post -> exists w',
  RemoveFirst USE_TAGGING Send (Ref v) w = Ok (x, w') /\ is_vector w' v s (pre ++ [x]) xs post /\
  changes [v] w w'.
Proof.
  intros HV [Hfit _]. pose proof (GetStorage_step _ _ _ _ [] _ _ _ 1 HV eq_refl) as Hget.
  destruct HV as [HV Hp]. destruct (vec_fields_step _ _ _ _ _ _ HV) as (Hf & Hl & _).
  unfold RemoveFirst. erewrite bind_step by exact Hf. erewrite bind_step by exact Hl. cbn [length] in *.
  rewrite Z.geb_leb, (proj2 (Z.leb_gt _ _)) by lia. erewrite bind_step by exact Hget.
  destruct (set_first_step _ _ _ _ _ _ (Z.of_nat (length pre) + 1 + 1) HV) as (w' & E' & HV' & Hc'); [destruct post; [done|]; cbn [length] in *; lia|].
  erewrite bind_step by exact E'. exists w'. split; [done|]. split; [|done]. split; [|done].
  revert HV'. rewrite length_app, <- (assoc_L (++)). cbn [length].
  replace (Z.of_nat (length pre + 1) + 1) with (Z.of_nat (length pre) + 1 + 1) by lia.
  by replace (length pre + 1 + length xs)%nat with (length pre + S (length xs))%nat by lia.
Qed.

Lemma RemoveLast_step w v s pre xs x post m :
  is_vector w v s pre (xs ++ [x]) post -> fits m pre (xs ++ [x]) post -> exists w' post',
  RemoveLast USE_TAGGING Send (Ref v) w = Ok (x, w') /\ is_vector w' v s pre xs post' /\
  length post' = S (length post) /\ changes [v; s] w w'.
Proof.
  intros HV Hfit. destruct (vec_fields_step _ _ _ _ _ _ (proj1 HV)) as (Hf & Hl & _).
  assert (length (xs ++ [x]) = S (length xs)) as El by (rewrite length_app; cbn [length]; lia).
  destruct (remove_step _ _ _ _ xs x [] post (Z.of_nat (length pre + length (xs ++ [x])) + 1
    - (Z.of_nat (length pre) + 1)) HV) as (w' & post' & E & HV' & Hp & Hc); [lia|destruct Hfit; split; lia|].
  exists w', post'. unfold RemoveLast. erewrite bind_step by exact Hl. erewrite bind_step by exact Hf.
  rewrite (proj2 (Z.eqb_neq _ _)) by lia. split; [exact E|]. cbn [removed] in HV'.
  by rewrite (right_id_L [] (++)) in HV'.
Qed.

Lemma RemoveAll_step w v s pre xs post m :
  is_vector w v s pre xs post -> fits m pre xs post -> exists w' s' post',
  RemoveAll USE_TAGGING (Ref v) w = Ok (tt, w') /\ is_vector w' v s' [] [] post' /\
  length post' = (length pre + length xs + length post)%nat /\ changes [v] w w' /\ (next w <= s')%nat.
Proof.
  intros [HV Hp] [Hfit _].
  destruct (set_first_step _ _ _ _ _ _ 1 HV) as (w1 & E1 & HV1 & Hc1); [lia|].
  destruct (set_last_step _ _ _ _ _ _ 1 HV1) as (w2 & E2 & HV2 & Hc2); [lia|].
  destruct (vec_fields_step _ _ _ _ _ _ HV2) as (_ & _ & Hs & Hn & Hn').
  destruct (NewArray_vector _ _ _ _ _ _ (Z.of_nat (length (pre ++ xs ++ post))) HV2)
    as (E3 & HV3 & Hc3 & Nv & Ns); [lia|]. cbn zeta in *. rewrite Nat2Z.id in *.
  destruct (set_storage_step _ _ _ _ _ _ (next w2) _ _ HV3 Nv (put_obj_eq _ _ _)) as (w' & E4 & HV4 & Hc4).
  unfold RemoveAll. erewrite bind_step by exact E1. erewrite bind_step by exact E2.
  erewrite bind_step by exact Hs. erewrite bind_step by exact Hn. erewrite bind_step by exact E3.
  exists w', (next w2), (replicate (length (pre ++ xs ++ post)) (nilObject (known w2))).
  split; [exact E4|]. split; [|split; [|split]].
  - split; [done|]. destruct post; [done|]. by rewrite !length_app, (Nat.add_comm (length pre)), <- Nat.add_assoc, Nat.add_comm.
  - rewrite length_replicate, !length_app. lia.
  - do 2 (eapply changes_trans; [eassumption|]). eapply changes_trans; [|done].
    eapply changes_mono, Hc3. set_solver.
  - apply changes_next in Hc1, Hc2. lia.
Qed.

Lemma Size_step w v s pre xs post m :
  is_vector w v s pre xs post -> fits m pre xs post -> exists r w',
  Size USE_TAGGING (Ref v) w = Ok (r, w') /\ int_at w' r (Z.of_nat (length xs)) /\
  is_vector w' v s pre xs post /\ changes [v] w w'.
Proof.
  intros [HV Hp] [Hfit _]. destruct (vec_fields_step _ _ _ _ _ _ HV) as (Hf & Hl & _).
  unfold Size. erewrite bind_step by exact Hf. erewrite bind_step by exact Hl.
  replace (_ - _) with (Z.of_nat (length xs)) by lia.
  destruct (vector_NEW_INT _ _ _ _ _ _ (Z.of_nat (length xs)) HV) as (r & w' & E & Hr & HV' & Hc); [lia|].
  exists r, w'. done.
Qed.

Lemma copyStorageArray_step w v s pre xs post m :
  is_vector w v s pre xs post -> fits m pre xs post -> exists w' c,
  copyStorageArray USE_TAGGING (Ref v) w = Ok (Ref (next w), w') /\
  heap w' !! next w = Some (OObject KArray c xs) /\
  is_vector w' v s pre xs post /\ changes [] w w'.
Proof.
  intros [HV Hp] [Hfit _]. destruct (vec_fields_step _ _ _ _ _ _ HV) as (Hf & Hl & Hs & _).
  destruct (NewArray_vector _ _ _ _ _ _ (Z.of_nat (length xs)) HV) as (E1 & HV1 & Hc1 & Nv & Ns); [lia|].
  cbn zeta in *. rewrite Nat2Z.id in *. set (w1 := put_obj _ _ _) in *.
  destruct (vo_storage _ _ _ _ _ _ HV1) as [c Hs1].
  unfold copyStorageArray. erewrite bind_step by exact Hf. erewrite bind_step by exact Hl.
  erewrite bind_step by exact Hs. replace (_ - (Z.of_nat (length pre) + 1)) with (Z.of_nat (length xs)) by lia.
  erewrite bind_step by exact E1. rewrite Nat2Z.id.
  erewrite bind_step.
  2:{ eapply (copy_storage_step xs w1 pre [] post s (next w)); [apply HV1|done| |exact Hs1|apply put_obj_eq|].
      - cbn [length]. lia. - by rewrite length_replicate. }
  eexists _, _. split; [done|]. split; [apply put_obj_eq|]. unfold w1. rewrite put_obj_twice.
  split; [|apply changes_new]. split; [|done].
  eapply vector_object_changes; [exact HV|apply (changes_new [])| |by apply not_elem_of_nil..|].
  - apply heap_ok_new; [apply HV|]. cbn [small_object app]. lia.
  - by intros ? ? ?%not_elem_of_nil.
Qed.

(** The search of [remove:] behind the elements [a], which are others. *)
Lemma remove_search_step w v s pre post x b : forall a,
  is_vector w v s pre (a ++ b) post ->
  remove_search USE_TAGGING Send (length b) (Z.of_nat (length pre + length a))
    (Z.of_nat (length pre) + 1) (Ref s) (Ref v) x w =
  match list_find (x =.) b with
  | Some (i, _) =>
      (remove USE_TAGGING Send (Ref v) (Z.of_nat (length a + i) + 1);;
       k ← gets known; mret (trueObject k)) w
  | None => Ok (falseObject (known w), w)
  end.
Proof.
  induction b as [|y b IH]; intros a HV; [done|]. cbn [length remove_search].
  erewrite bind_step.
  2:{ eapply (get_element_step _ _ _ _ _ (pre ++ a) y (b ++ post)); [|rewrite length_app; lia].
      destruct HV as [HV _]. revert HV. by rewrite <- !(assoc_L (++)). }
  cbn [list_find]. destruct (decide (y = x)) as [->|N].
  - rewrite decide_True by done. rewrite Nat.add_0_r.
    by replace (Z.of_nat (length pre + length a) - (Z.of_nat (length pre) + 1) + 2)
      with (Z.of_nat (length a) + 1) by lia.
  - rewrite decide_False by congruence.
    replace (Z.of_nat (length pre + length a) + 1) with (Z.of_nat (length pre + length (a ++ [y])))
      by (rewrite length_app; cbn [length]; lia).
    rewrite IH by (by rewrite <- (assoc_L (++))).
    destruct (list_find (x =.) b) as [[i z]|] eqn:Ef; cbn; [|done].
    rewrite length_app. cbn [length]. by replace (length a + 1 + i)%nat with (length a + S i)%nat by lia.
Qed.

Lemma RemoveObj_step w v s pre xs post x :
  is_vector w v s pre xs post ->
  RemoveObj USE_TAGGING Send (Ref v) x w =
  match list_find (x =.) xs with
  | Some (i, _) =>
      (remove USE_TAGGING Send (Ref v) (Z.of_nat i + 1);; k ← gets known; mret (trueObject k)) w
  | None => Ok (falseObject (known w), w)
  end.
Proof.
  intros HV. destruct (vec_fields_step _ _ _ _ _ _ (proj1 HV)) as (Hf & Hl & Hs & _).
  unfold RemoveObj. erewrite bind_step by exact Hf. erewrite bind_step by exact Hl.
  erewrite bind_step by exact Hs.
  pose proof (remove_search_step w v s pre post x xs [] HV) as H. cbn [length Nat.add] in H.
  rewrite <- H, Nat.add_0_r. replace (Z.to_nat _) with (length xs) by lia. by rewrite Z.add_simpl_r.
Qed.

(** [GetLast] asks for the index of the last element in the storage, which is its index in
    the vector when nothing has been taken at the front. *)
Lemma GetLast_step w v s pre xs x post :
  is_vector w v s pre (xs ++ [x]) post -> length pre = 0%nat ->
  vecLast USE_TAGGING Send (Ref v) w = Ok (x, w).
Proof.
  intros HV Hpre. destruct (vec_fields_step _ _ _ _ _ _ (proj1 HV)) as (_ & Hl & _).
  unfold vecLast, GetLast. erewrite bind_step by exact Hl.
  eapply (GetStorage_step _ _ _ _ _ _ []); [exact HV|]. rewrite Hpre, length_app. cbn [length]. lia.
Qed.

(** *** The list *)

Inductive vector_op : Type :=
  | OpAppend (x : oop)
  | OpAt (i : Z)
  | OpAtPut (i : Z) (x : oop)
  | OpFirst
  | OpLast
  | OpRemoveFirst
  | OpRemoveLast
  | OpRemove (x : oop)
  | OpRemoveAll
  | OpSize
  | OpAsArray.

Inductive answer : Type :=
  | AnObject (x : oop) | AnInteger (z : Z) | AnArray (xs : list oop) | TheVector | ABoolean (b : bool).

(** What a list does from which [removed] elements have been taken at the front since it
    was cleared; nothing is said about an index that it does not have, the removal of an
    object that is not at its end, and the last element when elements have been taken at
    the front. *)
Definition list_op (op : vector_op) (removed : nat) (xs : list oop) : option (answer * list oop) :=
  match op with
  | OpAppend x => Some (TheVector, xs ++ [x])
  | OpAt i => if decide (1 <= i) then x ← xs !! Z.to_nat (i - 1); Some (AnObject x, xs) else None
  | OpAtPut i y =>
      if decide (1 <= i)
      then x ← xs !! Z.to_nat (i - 1); Some (AnObject x, <[Z.to_nat (i - 1) := y]> xs) else None
  | OpFirst => x ← head xs; Some (AnObject x, xs)
  | OpLast => if decide (removed = 0%nat) then x ← last xs; Some (AnObject x, xs) else None
  | OpRemoveFirst => x ← head xs; Some (AnObject x, tail xs)
  | OpRemoveLast => x ← last xs; Some (AnObject x, take (length xs - 1) xs)
  | OpRemove x =>
      match list_find (x =.) xs with
      | None => Some (ABoolean false, xs)
      | Some (i, _) => if decide (S i = length xs) then Some (ABoolean true, take i xs) else None
      end
  | OpRemoveAll => Some (TheVector, [])
  | OpSize => Some (AnInteger (Z.of_nat (length xs)), xs)
  | OpAsArray => Some (AnArray xs, xs)
  end.

Definition removed_after (op : vector_op) (removed : nat) : nat :=
  match op with OpRemoveFirst => S removed | OpRemoveAll => 0%nat | _ => removed end.

(** The primitives, with an integer object for an index. *)
Definition run_op (v : oop) (op : vector_op) : V oop :=
  match op with
  | OpAppend x => vecAppend USE_TAGGING v x
  | OpAt i => a ← NEW_INT USE_TAGGING i; vecAt USE_TAGGING Send v a
  | OpAtPut i x => a ← NEW_INT USE_TAGGING i; vecAtPut USE_TAGGING Send v a x
  | OpFirst => vecFirst USE_TAGGING Send v
  | OpLast => vecLast USE_TAGGING Send v
  | OpRemoveFirst => removeFirst USE_TAGGING Send v
  | OpRemoveLast => removeLast USE_TAGGING Send v
  | OpRemove x => removeObject USE_TAGGING Send v x
  | OpRemoveAll => removeAll USE_TAGGING v
  | OpSize => vecSize USE_TAGGING v
  | OpAsArray => asArray USE_TAGGING v
  end.

Definition answers (w : World) (v s : loc) (r : oop) (a : answer) : Prop :=
  match a with
  | AnObject x => r = x
  | AnInteger z => int_at w r z
  | AnArray xs =>
      exists l c, r = Ref l /\ heap w !! l = Some (OObject KArray c xs) /\ l <> v /\ l <> s
  | TheVector => r = Ref v
  | ABoolean b => r = if b then trueObject (known w) else falseObject (known w)
  end.

(** *** The simulation *)

Definition simulates (w : World) (v s : loc) (removed m : nat) (op : vector_op) (a : answer) (xs' : list oop)
    : Prop :=
  exists r w' s' pre' post',
    run_op (Ref v) op w = Ok (r, w') /\ answers w' v s' r a /\
    is_vector w' v s' pre' xs' post' /\ length pre' = removed_after op removed /\ fits m pre' xs' post' /\
    changes [v; s] w w' /\ (s' = s \/ (next w <= s')%nat).

Lemma fits_less m n pre xs post pre' xs' post' :
  fits m pre xs post -> (length pre' + length xs' + n <= length pre + length xs + m)%nat ->
  (length pre' + length xs' + length post' <= length pre + length xs + length post)%nat ->
  fits n pre' xs' post'.
Proof. unfold fits. lia. Qed.

(** The index of an operation is made an object first. *)
Lemma index_step w v s pre xs post m i :
  is_vector w v s pre xs post -> fits m pre xs post -> 1 <= i <= Z.of_nat (length xs) ->
  exists a w1, NEW_INT USE_TAGGING i w = Ok (a, w1) /\ SMALL_INT_VAL USE_TAGGING a w1 = Ok (i, w1) /\
    is_vector w1 v s pre xs post /\ changes [v; s] w w1.
Proof.
  intros [HV Hp] [Hfit _] Hi.
  destruct (vector_NEW_INT _ _ _ _ _ _ i HV) as (a & w1 & E & Ha & HV1 & Hc); [lia|].
  exists a, w1. split; [done|]. split; [by apply SMALL_INT_VAL_step|]. split; [done|].
  eapply changes_mono, Hc. set_solver.
Qed.

(** Splits the list at an index that it has. *)
Lemma index_split (xs : list oop) i x :
  1 <= i -> xs !! Z.to_nat (i - 1) = Some x -> exists a b,
  xs = a ++ x :: b /\ i = Z.of_nat (length a) + 1 /\ Z.to_nat (i - 1) = length a /\
  i <= Z.of_nat (length xs).
Proof.
  intros Hi Hx. exists (take (Z.to_nat (i - 1)) xs), (drop (S (Z.to_nat (i - 1))) xs).
  pose proof (lookup_lt_Some _ _ _ Hx). rewrite length_take.
  split; [symmetry; by apply take_drop_middle|]. lia.
Qed.

Lemma simulates_append w v s pre xs post m x :
  is_vector w v s pre xs post -> fits (S m) pre xs post ->
  simulates w v s (length pre) m (OpAppend x) TheVector (xs ++ [x]).
Proof.
  intros HV Hfit. destruct (Append_step _ _ _ _ _ _ x m HV Hfit) as (w' & s' & post' & E & HV' & ? & ? & ?).
  exists (Ref v), w', s', pre, post'. split; [|done]. cbn [run_op]. unfold vecAppend.
  by erewrite bind_step by exact E.
Qed.

Lemma simulates_at w v s pre a x b post m i :
  is_vector w v s pre (a ++ x :: b) post -> fits (S m) pre (a ++ x :: b) post ->
  i = Z.of_nat (length a) + 1 -> simulates w v s (length pre) m (OpAt i) (AnObject x) (a ++ x :: b).
Proof.
  intros HV Hfit Hi. destruct (index_step _ _ _ _ _ _ _ i HV Hfit) as (y & w1 & E & Ey & HV1 & Hc).
  { rewrite length_app. cbn [length]. lia. }
  exists x, w1, s, pre, post. cbn [run_op]. erewrite bind_step by exact E. unfold vecAt.
  erewrite bind_step by exact Ey. split; [by eapply GetStorage_step|]. do 3 (split; [done|]).
  split; [by eapply fits_less; [exact Hfit|lia..]|]. auto.
Qed.

Lemma simulates_at_put w v s pre a x b post m i y :
  is_vector w v s pre (a ++ x :: b) post -> fits (S m) pre (a ++ x :: b) post ->
  i = Z.of_nat (length a) + 1 -> simulates w v s (length pre) m (OpAtPut i y) (AnObject x) (a ++ y :: b).
Proof.
  intros HV Hfit Hi. destruct (index_step _ _ _ _ _ _ _ i HV Hfit) as (z & w1 & E & Ez & HV1 & Hc).
  { rewrite length_app. cbn [length]. lia. }
  destruct (SetStorage_step _ _ _ _ _ _ _ _ i y HV1 Hi) as (w' & E' & HV' & Hc').
  exists x, w', s, pre, post. cbn [run_op]. erewrite bind_step by exact E. unfold vecAtPut.
  erewrite bind_step by exact Ez. split; [exact E'|]. do 3 (split; [done|]).
  split; [eapply fits_less; [exact Hfit|rewrite !length_app; cbn [length]; lia..]|].
  split; [by eapply changes_trans|auto].
Qed.

Lemma simulates_remove_last w v s pre xs x post m :
  is_vector w v s pre (xs ++ [x]) post -> fits (S m) pre (xs ++ [x]) post ->
  simulates w v s (length pre) m OpRemoveLast (AnObject x) xs.
Proof.
  intros HV Hfit. destruct (RemoveLast_step _ _ _ _ _ _ _ _ HV Hfit) as (w' & post' & E & HV' & Hp & Hc).
  exists x, w', s, pre, post'. split; [exact E|]. do 3 (split; [done|]).
  split; [eapply fits_less; [exact Hfit|rewrite !length_app; cbn [length]; lia..]|]. auto.
Qed.

Lemma simulates_remove w v s pre xs x post m :
  is_vector w v s pre (xs ++ [x]) post -> fits (S m) pre (xs ++ [x]) post ->
  list_find (x =.) (xs ++ [x]) = Some (length xs, x) ->
  simulates w v s (length pre) m (OpRemove x) (ABoolean true) xs.
Proof.
  intros HV Hfit Hx. destruct (remove_step _ _ _ _ xs x [] _ (Z.of_nat (length xs) + 1) HV eq_refl)
    as (w' & post' & E & HV' & Hp & Hc); [by eapply fits_less; [exact Hfit|lia..]|].
  cbn [removed] in HV'. rewrite (right_id_L [] (++)) in HV'.
  exists (trueObject (known w')), w', s, pre, post'. cbn [run_op]. unfold removeObject.
  erewrite RemoveObj_step by exact HV. rewrite Hx. erewrite bind_step by exact E.
  do 4 (split; [done|]).
  split; [eapply fits_less; [exact Hfit|rewrite !length_app; cbn [length]; lia..]|]. auto.
Qed.

Lemma simulates_op w v s pre xs post m op a xs' :
  is_vector w v s pre xs post -> fits (S m) pre xs post -> list_op op (length pre) xs = Some (a, xs') ->
  simulates w v s (length pre) m op a xs'.
Proof.
  intros HV Hfit Hop.
  assert (fits m pre xs post) as Hfit0 by (by eapply fits_less; [exact Hfit|lia..]).
  destruct op; cbn [list_op] in Hop.
  - injection Hop as <- <-. by eapply simulates_append.
  - case_decide; [|done]. destruct (xs !! _) as [x|] eqn:Hx; [|done]. injection Hop as <- <-.
    apply index_split in Hx as (b & c & -> & Hi & _); [|done]. by eapply simulates_at.
  - case_decide; [|done]. destruct (xs !! _) as [y|] eqn:Hx; [|done]. injection Hop as <- <-.
    apply index_split in Hx as (b & c & -> & Hi & -> & _); [|done].
    rewrite insert_app_r_alt, Nat.sub_diag by lia. by eapply simulates_at_put.
  - destruct xs as [|x xs]; [done|]. injection Hop as <- <-. exists x, w, s, pre, post.
    split; [by eapply (GetStorage_step _ _ _ _ [])|]. split; [done|]. auto 6 using changes_refl.
  - case_decide as Hpre; [|done]. destruct xs as [|x xs _] using rev_ind; [done|].
    rewrite last_snoc in Hop. injection Hop as <- <-. exists x, w, s, pre, post.
    split; [by eapply GetLast_step|]. split; [done|]. auto 6 using changes_refl.
  - destruct xs as [|x xs]; [done|]. injection Hop as <- <-.
    destruct (RemoveFirst_step _ _ _ _ _ _ _ _ HV Hfit) as (w' & E & HV' & Hc).
    exists x, w', s, (pre ++ [x]), post. split; [exact E|]. split; [done|]. split; [done|].
    split; [rewrite length_app; cbn; lia|].
    split; [eapply fits_less; [exact Hfit|rewrite length_app; cbn [length]; lia..]|].
    split; [eapply changes_mono, Hc; set_solver|auto].
  - destruct xs as [|x xs _] using rev_ind; [done|]. rewrite last_snoc in Hop. injection Hop as <- <-.
    rewrite length_app. cbn [length]. rewrite Nat.add_sub, take_app_length.
    by eapply simulates_remove_last.
  - destruct (list_find _ xs) as [[i y]|] eqn:Hx.
    + case_decide as Hi; [|done]. injection Hop as <- <-.
      pose proof Hx as (Hy & <- & _)%list_find_Some.
      destruct xs as [|z xs _] using rev_ind; [done|]. rewrite length_app in Hi. cbn [length] in Hi.
      assert (i = length xs) as -> by lia. rewrite list_lookup_middle in Hy by done.
      injection Hy as ->. rewrite take_app_length. by eapply simulates_remove.
    + injection Hop as <- <-. exists (falseObject (known w)), w, s, pre, post.
      cbn [run_op]. unfold removeObject. erewrite RemoveObj_step by exact HV. rewrite Hx.
      split; [done|]. split; [done|]. auto 6 using changes_refl.
  - injection Hop as <- <-.
    destruct (RemoveAll_step _ _ _ _ _ _ _ HV Hfit) as (w' & s' & post' & E & HV' & Hp & Hc & Hs).
    exists (Ref v), w', s', [], post'. cbn [run_op]. unfold removeAll. erewrite bind_step by exact E.
    do 4 (split; [done|]).
    split; [eapply fits_less; [exact Hfit|cbn [length]; lia..]|].
    split; [eapply changes_mono, Hc; set_solver|auto].
  - injection Hop as <- <-. destruct (Size_step _ _ _ _ _ _ _ HV Hfit) as (r & w' & E & Hr & HV' & Hc).
    exists r, w', s, pre, post. split; [exact E|]. do 4 (split; [done|]).
    split; [eapply changes_mono, Hc; set_solver|auto].
  - injection Hop as <- <-.
    destruct (copyStorageArray_step _ _ _ _ _ _ _ HV Hfit) as (w' & c & E & Hr & HV' & Hc).
    assert (v < next w /\ s < next w)%nat as [Lv Ls] by (by eapply vector_below, HV).
    exists (Ref (next w)), w', s, pre, post. split; [exact E|].
    split; [exists (next w), c; split_and!; [done|done|lia..]|].
    do 3 (split; [done|]). split; [eapply changes_mono, Hc; set_solver|auto].
Qed.

(** *** Sequences of operations *)

Fixpoint run_ops (v : oop) (ops : list vector_op) : V (list oop) :=
  match ops with
  | [] => mret []
  | op :: ops => r ← run_op v op; rs ← run_ops v ops; mret (r :: rs)
  end.

Fixpoint list_ops (ops : list vector_op) (removed : nat) (xs : list oop)
    : option (list answer * list oop) :=
  match ops with
  | [] => Some ([], xs)
  | op :: ops =>
      '(a, xs1) ← list_op op removed xs;
      '(al, xs2) ← list_ops ops (removed_after op removed) xs1;
      Some (a :: al, xs2)
  end.

(** An answer stays what it is: the operations change nothing but the vector. *)
Lemma answers_stay w w' v s s' first last es r a :
  vector_object w v s first last es -> answers w v s r a -> changes [v; s] w w' ->
  s' = s \/ (next w <= s')%nat -> answers w' v s' r a.
Proof.
  intros HV Ha Hc Hs. destruct a; cbn [answers] in *; [done| | |done|].
  - eapply int_at_changes; [done|apply HV|done|]. intros l Hl.
    destruct HV as [_ _ (k & c & x & y & Hv & _) [c' Hs']].
    apply elem_of_cons in Hl as [->|Hl]; [by rewrite Hv|].
    apply list_elem_of_singleton in Hl as ->. by rewrite Hs'.
  - destruct Ha as (l & c & -> & Hl & Nv & Ns). exists l, c.
    assert (l < next w)%nat by (by eapply heap_below; [apply HV|]).
    split; [done|]. split; [|split; [done|lia]].
    rewrite (changes_lookup _ _ _ _ Hc); [done|done|]. set_solver.
  - by rewrite (changes_known _ _ _ Hc).
Qed.

Lemma changes_storage w w1 w2 v s s' :
  changes [v; s] w w1 -> changes [v; s'] w1 w2 -> s' = s \/ (next w <= s')%nat -> changes [v; s] w w2.
Proof.
  intros (h & n & -> & Hn & H) (h' & n' & -> & Hn' & H') Hs. cbn in *.
  exists h', n'. split; [done|]. split; [lia|]. intros l Hl Hls.
  rewrite H'; [by apply H|lia|]. rewrite !not_elem_of_cons in Hls |- *. split; [apply Hls|].
  split; [|apply not_elem_of_nil]. destruct Hls as (? & ? & _). lia.
Qed.

Lemma simulates_ops ops : forall w v s pre xs post al xs',
  is_vector w v s pre xs post -> fits (length ops) pre xs post -> list_ops ops (length pre) xs = Some (al, xs') ->
  exists rs w' s' pre' post',
    run_ops (Ref v) ops w = Ok (rs, w') /\ Forall2 (answers w' v s') rs al /\
    is_vector w' v s' pre' xs' post' /\ changes [v; s] w w' /\ (s' = s \/ (next w <= s')%nat).
Proof.
  induction ops as [|op ops IH]; intros w v s pre xs post al xs' HV Hfit Hops; cbn in Hops.
  { injection Hops as <- <-. exists [], w, s, pre, post. split; [done|]. auto using changes_refl. }
  destruct (list_op op (length pre) xs) as [[a xs1]|] eqn:E1; [|done]. cbn in Hops.
  destruct (list_ops ops _ xs1) as [[al' xs2]|] eqn:E2; [|done]. injection Hops as <- <-.
  destruct (simulates_op _ _ _ _ _ _ _ _ _ _ HV Hfit E1) as (r & w1 & s1 & pre1 & post1 & R1 & A1 & HV1 & L1 & F1 & C1 & S1).
  rewrite <- L1 in E2.
  destruct (IH _ _ _ _ _ _ _ _ HV1 F1 E2) as (rs & w2 & s2 & pre2 & post2 & R2 & A2 & HV2 & C2 & S2).
  exists (r :: rs), w2, s2, pre2, post2. cbn [run_ops].
  erewrite bind_step by exact R1. erewrite bind_step by exact R2. split; [done|].
  split; [constructor; [by eapply answers_stay; [apply HV1|..]|done]|]. split; [done|].
  split; [by eapply changes_storage|]. apply changes_next in C1. destruct S1, S2; subst; lia.
Qed.

End Model.


(** ** Examples

    The world with one vector and its storage. *)
Definition vector_world (first last : Z) (es : list oop) : World :=
  mkWorld (<[0%nat := OObject KObject Null [Tagged first; Tagged last; Ref 1%nat]]>
          (<[1%nat := OObject KArray Null es]> ∅)) 2%nat ∅ 0%nat ∅ ∅ ∅
    (no_known Null) None 0%nat 0.

Lemma vector_world_is pre xs post :
  Z.of_nat (length (pre ++ xs ++ post)) < 2 ^ 64 -> post <> [] ->
  is_vector true (vector_world (Z.of_nat (length pre) + 1) (Z.of_nat (length pre + length xs) + 1)
    (pre ++ xs ++ post)) 0%nat 1%nat pre xs post.
Proof.
  intros Hl Hp. split; [|done]. split; [|done| |].
  - split; cbn [heap vector_world next].
    + intros l o [[<- _]|[_ [[<- _]|[_ H]]%lookup_insert_Some]]%lookup_insert_Some; [lia..|done].
    + intros l k c es [[_ H]|[_ [[_ H]|[_ H]]%lookup_insert_Some]]%lookup_insert_Some;
        [by injection H as <- <- <-..|done].
  - by eexists _, _, _, _.
  - by eexists.
Qed.


Notation no_error := (fun _ _ _ => fail (ErrorExit "error:")).

(** The object to remove stays, the one behind it goes. *)
Example remove_takes_the_next :
  (removeObject true no_error (Ref 0%nat) (Tagged 7);; asArray true (Ref 0%nat) ≫= array_elements)
    (vector_world 1 4 [Tagged 7; Tagged 8; Tagged 9; Null])
  ≫= (fun r => Ok r.1) = Ok [Tagged 7; Tagged 9].
Proof. vm_compute. reflexivity. Qed.

(** After [removeFirst] there is no [last]. *)
Example last_after_remove_first :
  (removeFirst true no_error (Ref 0%nat);; vecLast true no_error (Ref 0%nat))
    (set_registers (Some 5%nat) 0%nat 0 (vector_world 1 3 [Tagged 7; Tagged 8; Null]))
  = Err (ErrorExit "error:").
Proof. vm_compute. reflexivity. Qed.

(** [at:put:] takes an index behind the end, which leaves the size as it was. *)
Example at_put_behind_the_end :
  (vecAtPut true no_error (Ref 0%nat) (Tagged 3) (Tagged 5);; vecSize true (Ref 0%nat))
    (vector_world 1 2 [Tagged 7; Null; Null; Null]) ≫= (fun r => Ok r.1) = Ok (Tagged 1).
Proof. vm_compute. reflexivity. Qed.

(** A vector without room has no room after doubling it: the store is outside of the new
    array. *)
Example append_without_room :
  vecAppend true (Ref 0%nat) (Tagged 7) (vector_world 1 1 []) = Err Undef.
Proof. vm_compute. reflexivity. Qed.

(** The variant of [at:put:] counts every store, also one to an element that is there. *)
Example at_put_counts_stores :
  (vecAtPutAWFY true (Ref 0%nat) (Tagged 1) (Tagged 5);; vecSize true (Ref 0%nat))
    (vector_world 1 2 [Tagged 7; Null; Null; Null]) ≫= (fun r => Ok r.1) = Ok (Tagged 2).
Proof. vm_compute. reflexivity. Qed.
