(* ===== verification/Strings.v ===== *)
(** * Strings

    The primitives of strings and symbols: what they answer for strings of any contents,
    and where the answer depends on the representation. *)
From Stdlib Require Import String Ascii.
From S2P Require Import Prelude InfIntText IntegerPrims Objects Lookup Universe Frame Interpreter Activation Stores Vector Natives.
Local Open Scope Z_scope.

(** [l] is a string or a symbol with these characters. *)
Definition text_at (w : World) (l : loc) (s : string) : Prop :=
  heap w !! l = Some (OString s) \/ exists sy, heap w !! l = Some (OSymbol sy) /\ sym_chars sy = s.

Lemma GetStdString_step w l s : text_at w l s -> GetStdString (Ref l) w = Ok (s, w).
Proof.
  intros [H|(sy & H & <-)]; unfold GetStdString; by erewrite bind_step by (by apply load_step).
Qed.

(** The world with a new string. *)
Definition with_string (s : string) (w : World) : World :=
  put_obj (next w) (OString s) (set_next (S (next w)) w).

Lemma NewString_step s w : NewString s w = Ok (Ref (next w), with_string s w).
Proof. unfold NewString. by erewrite bind_step by apply alloc_step. Qed.

Lemma text_new s w : text_at (with_string s w) (next w) s.
Proof. left. apply lookup_insert_eq. Qed.

Lemma text_kept s w l t : l <> next w -> text_at w l t -> text_at (with_string s w) l t.
Proof. intros Hl H. unfold text_at, with_string. by rewrite put_obj_ne by done. Qed.

(** ** Substrings *)

Lemma substring_length_append a b : String.substring 0 (String.length a) (a ++ b) = a.
Proof. induction a as [|c a IH]; [by destruct b|]. exact (f_equal (String c) IH). Qed.

Lemma substring_skip a b n : String.substring (String.length a) n (a ++ b) = String.substring 0 n b.
Proof. by induction a as [|c a IH]. Qed.

Lemma substring_whole b : String.substring 0 (String.length b) b = b.
Proof. induction b as [|c b IH]; [done|]. exact (f_equal (String c) IH). Qed.

Lemma length_append a b : String.length (a ++ b) = (String.length a + String.length b)%nat.
Proof. induction a as [|c a IH]; [done|]. exact (f_equal S IH). Qed.

Lemma substr_inside str s len :
  0 <= s -> 0 <= len -> s + len <= Z.of_nat (String.length str) -> Z.of_nat (String.length str) < 2 ^ 64 ->
  substr str s len = Ok (String.substring (Z.to_nat s) (Z.to_nat len) str).
Proof.
  intros Hs Hl Hb H64. unfold substr. rewrite !uwrap_small by lia.
  destruct (Z.gtb_spec s (Z.of_nat (String.length str))); [lia|]. f_equal. f_equal. lia.
Qed.

(** ** Equality *)

Definition no_zero_byte (s : string) : Prop := Forall (fun c => chr c <> 0) (list_ascii_of_string s).

Lemma strncmp_equal_spec a b :
  no_zero_byte a -> String.length a = String.length b ->
  strncmp_equal (String.length a) a b = bool_decide (a = b).
Proof.
  unfold no_zero_byte. revert b. induction a as [|c a IH]; intros [|d b] HZ HL; try done.
  cbn in HZ, HL. apply Forall_cons in HZ as [Hc HZ]. injection HL as HL.
  cbn [strncmp_equal String.length]. destruct (Ascii.eqb_spec c d) as [->|Hne].
  - rewrite (proj2 (Z.eqb_neq _ _) Hc), IH by done.
    apply bool_decide_ext. split; [by intros ->|congruence].
  - rewrite bool_decide_eq_false_2; [done|congruence].
Qed.

Section Strings.

Context (USE_TAGGING : bool).

(** A substring, with its bounds counted from one; an empty one may begin behind the end. *)
Lemma substring_step w l str x y i j :
  text_at w l str -> int_at USE_TAGGING w x i -> int_at USE_TAGGING w y j ->
  1 <= i -> i <= j + 1 -> j <= Z.of_nat (String.length str) -> Z.of_nat (String.length str) < 2 ^ 64 ->
  strPrimSubstringFromTo USE_TAGGING (Ref l) x y w =
  Ok (Ref (next w), with_string (String.substring (Z.to_nat (i - 1)) (Z.to_nat (j - i + 1)) str) w).
Proof.
  intros Hl Hx Hy ????. unfold strPrimSubstringFromTo.
  erewrite bind_step by (by apply GetStdString_step).
  erewrite bind_step by (by apply SMALL_INT_VAL_step). erewrite bind_step by (by apply SMALL_INT_VAL_step).
  rewrite substr_inside by lia. replace (j - 1 - (i - 1) + 1) with (j - i + 1) by lia.
  apply NewString_step.
Qed.

Lemma boolean_step b w :
  boolean b w = Ok (if b then trueObject (known w) else falseObject (known w), w).
Proof. by destruct b. Qed.

Lemma strEqual_step w la lb a b :
  text_at w la a -> text_at w lb b -> la <> lb -> no_zero_byte a ->
  strEqual USE_TAGGING (Ref la) (Ref lb) w = boolean (bool_decide (a = b)) w.
Proof.
  intros Ha Hb Hne HZ. unfold strEqual. cbn [IS_TAGGED]. rewrite decide_False by congruence.
  assert (exists c, CLASS_OF (Ref lb) w = Ok (c, w) /\
            (c = stringClass (known w) \/ c = symbolClass (known w))) as (c & Hc & HC).
  { destruct Hb as [H|(sy & H & _)]; unfold CLASS_OF; cbn [deref];
      (erewrite bind_step by (by apply load_step)); eexists; (split; [reflexivity|tauto]). }
  erewrite bind_step by exact Hc. erewrite bind_step by apply gets_step.
  rewrite decide_False by tauto.
  do 2 erewrite bind_step by (by apply GetStdString_step).
  destruct (Nat.eqb_spec (String.length a) (String.length b)) as [E|E]; cbn [negb].
  - by rewrite strncmp_equal_spec.
  - rewrite bool_decide_eq_false_2; [done|congruence].
Qed.

Lemma SymbolFor_below w w' str l :
  (forall l o, heap w !! l = Some o -> (l < next w)%nat) -> SymbolFor str w = Ok (l, w') ->
  forall l o, heap w' !! l = Some o -> (l < next w')%nat.
Proof.
  intros HB. unfold SymbolFor. erewrite bind_step by apply gets_step.
  destruct (symbolsMap w !! str) as [l'|]; [by injection 1 as <- <-|].
  unfold NewSymbol. erewrite bind_step by apply alloc_step.
  injection 1 as <- <-. cbn. intros l' o [[<- _]|[_ ?%HB]]%lookup_insert_Some; lia.
Qed.

Lemma text_grows w w' l s :
  (forall l o, heap w !! l = Some o -> heap w' !! l = Some o) -> text_at w l s -> text_at w' l s.
Proof. intros HK [H|(sy & H & E)]; [left|right]; eauto. Qed.

Lemma chars_text w l s : chars w l = Some s -> text_at w l s.
Proof. unfold chars. intros H. destruct (heap w !! l) as [[]|] eqn:E; try done. right. naive_solver. Qed.

Lemma strAsSymbol_step w l s :
  (forall l o, heap w !! l = Some o -> (l < next w)%nat) -> symbols_ok w -> text_at w l s ->
  exists sy w', strAsSymbol (Ref l) w = Ok (Ref sy, w') /\ symbols_ok w' /\ chars w' sy = Some s /\
    (forall l o, heap w !! l = Some o -> heap w' !! l = Some o) /\
    (forall l o, heap w' !! l = Some o -> (l < next w')%nat).
Proof.
  intros HB HS Hl. destruct (SymbolFor_ok w s HB HS) as (sy & w' & E & HS' & HC & HK).
  exists sy, w'. split.
  { unfold strAsSymbol. erewrite bind_step by (by apply GetStdString_step). by erewrite bind_step by exact E. }
  split_and!; [done..|]. by eapply SymbolFor_below.
Qed.

(** C37: Taking strings apart undoes putting them together. The concatenation of two
    strings or symbols is a new string, the two are left as they are, its length is the
    sum of theirs, and cutting it at the length of the first one, with positions counted
    from one, gives new strings with the characters of the first and of the second. *)
Theorem string_parts_roundtrip w la lb a b :
  heap_ok w -> text_at w la a -> text_at w lb b ->
  Z.of_nat (String.length a) + Z.of_nat (String.length b) < 2 ^ 62 ->
  exists c w', strConcatenate_ (Ref la) (Ref lb) w = Ok (Ref c, w') /\
    text_at w' c (a ++ b) /\ text_at w' la a /\ text_at w' lb b /\
    (exists n w'', strLength USE_TAGGING (Ref c) w' = Ok (n, w'') /\
       int_at USE_TAGGING w'' n (Z.of_nat (String.length a) + Z.of_nat (String.length b))) /\
    (forall x y, int_at USE_TAGGING w' x 1 -> int_at USE_TAGGING w' y (Z.of_nat (String.length a)) ->
       exists p w'', strPrimSubstringFromTo USE_TAGGING (Ref c) x y w' = Ok (Ref p, w'') /\ text_at w'' p a) /\
    (forall x y, int_at USE_TAGGING w' x (Z.of_nat (String.length a) + 1) ->
       int_at USE_TAGGING w' y (Z.of_nat (String.length a) + Z.of_nat (String.length b)) ->
       exists p w'', strPrimSubstringFromTo USE_TAGGING (Ref c) x y w' = Ok (Ref p, w'') /\ text_at w'' p b).
Proof.
  intros HO Ha Hb Hlen.
  assert (forall l s, text_at w l s -> l <> next w) as Hold.
  { intros l s H ->. assert (next w < next w)%nat; [|lia].
    destruct H as [H|(sy & H & _)]; by eapply heap_below. }
  exists (next w), (with_string (a ++ b) w). split.
  { unfold strConcatenate_. do 2 erewrite bind_step by (by apply GetStdString_step). apply NewString_step. }
  pose proof (text_new (a ++ b) w) as Hc. pose proof (length_append a b) as HL.
  split_and!; [done|by eapply text_kept, Ha; eauto|by eapply text_kept, Hb; eauto|..].
  - unfold strLength. erewrite bind_step by (by apply GetStdString_step). rewrite HL.
    destruct (NEW_INT_step USE_TAGGING (with_string (a ++ b) w)
      (Z.of_nat (String.length a + String.length b))) as (n & w'' & E & Hn & _); [lia|].
    exists n, w''. split; [done|]. by rewrite <- Nat2Z.inj_add.
  - intros x y Hx Hy. do 2 eexists. split; [eapply substring_step; try done; lia|].
    replace (Z.to_nat (Z.of_nat (String.length a) - 1 + 1)) with (String.length a) by lia.
    rewrite substring_length_append. apply text_new.
  - intros x y Hx Hy. do 2 eexists. split; [eapply substring_step; try done; lia|].
    rewrite Z.add_simpl_r, Nat2Z.id, substring_skip.
    replace (Z.to_nat _) with (String.length b) by lia. rewrite substring_whole. apply text_new.
Qed.

(** Two strings that are different objects are equal for the primitive [=] exactly if
    they have the same characters, provided the receiver has no zero byte. The symbols of
    two strings are one object exactly if the strings have the same characters, whatever
    these are, and the string of the symbol of a string has its characters. *)
Theorem string_equality w la lb a b :
  heap_ok w -> symbols_ok w -> text_at w la a -> text_at w lb b -> la <> lb ->
  (no_zero_byte a ->
     strEqual USE_TAGGING (Ref la) (Ref lb) w =
     Ok (if bool_decide (a = b) then trueObject (known w) else falseObject (known w), w)) /\
  exists s w' t w'', strAsSymbol (Ref la) w = Ok (Ref s, w') /\ strAsSymbol (Ref lb) w' = Ok (Ref t, w'') /\
    (s = t <-> a = b) /\
    exists r w3, symAsString (Ref s) w'' = Ok (Ref r, w3) /\ text_at w3 r a.
Proof.
  intros HO HS Ha Hb Hne. split.
  { intros HZ. erewrite strEqual_step by done. apply boolean_step. }
  destruct (strAsSymbol_step w la a (heap_below w HO) HS Ha) as (s & w' & Es & HS' & Cs & HK & HB').
  destruct (strAsSymbol_step w' lb b HB' HS') as (t & w'' & Et & HS'' & Ct & HK' & _).
  { by eapply text_grows. }
  assert (text_at w'' s a) as Hs by (eapply text_grows, chars_text, Cs; done).
  exists s, w', t, w''. split_and!; [done..| |].
  - assert (chars w'' s = Some a) as Cs'.
    { unfold chars in *. destruct (heap w' !! s) as [o|] eqn:E; [|done]. by rewrite (HK' _ _ E). }
    split; [congruence|]. intros ->. apply HS'' in Cs', Ct. congruence.
  - do 2 eexists. split; [|apply text_new]. unfold symAsString.
    erewrite bind_step by (by apply GetStdString_step). apply NewString_step.
Qed.

End Strings.

(** ** Concrete strings *)

(** The objects 10 and 11 are true and false. *)
Definition two_strings (a b : string) : World :=
  let n := Null in
  mkWorld (list_to_map [(0%nat, OString a); (1%nat, OString b)]) 2%nat ∅ 0%nat ∅ ∅ ∅
    (mkKnown n (Ref 10%nat) (Ref 11%nat) n n n n n n n n n n n n n n n n n n n n n n n n) None 0%nat 0.

Lemma two_strings_ok a b : heap_ok (two_strings a b) /\ symbols_ok (two_strings a b).
Proof.
  split; [split|].
  - intros l o H. cbn in H. apply lookup_insert_Some in H as [[<- _]|[_ H]]; [cbn; lia|].
    apply lookup_insert_Some in H as [[<- _]|[_ H]]; [cbn; lia|done].
  - intros l k c es H. cbn in H. apply lookup_insert_Some in H as [[_ ?]|[_ H]]; [done|].
    by apply lookup_insert_Some in H as [[_ ?]|[_ H]].
  - intros str l. cbn. split; [done|]. unfold chars. cbn. intros H.
    destruct (<[_ := _]> _ !! l) eqn:E; [|done].
    apply lookup_insert_Some in E as [[_ <-]|[_ E]]; [done|].
    by apply lookup_insert_Some in E as [[_ <-]|[_ E]].
Qed.

Lemma string_parts_roundtrip_witness :
  exists p w1, strPrimSubstringFromTo true (Ref 2%nat) (Tagged 1) (Tagged 3)
    (with_string "abcde" (two_strings "abc" "de")) = Ok (Ref p, w1) /\ text_at w1 p "abc".
Proof.
  destruct (string_parts_roundtrip true (two_strings "abc" "de") 0%nat 1%nat "abc" "de")
    as (c & w' & E & _ & _ & _ & _ & H & _).
  - apply two_strings_ok.
  - by left.
  - by left.
  - reflexivity.
  - injection E as <- <-. apply H; reflexivity.
Defined.

Lemma string_equality_witness :
  strEqual true (Ref 0%nat) (Ref 1%nat) (two_strings "abc" "abd") = Ok (Ref 11%nat, two_strings "abc" "abd").
Proof.
  destruct (string_equality true (two_strings "abc" "abd") 0%nat 1%nat "abc" "abd") as [H _].
  - apply two_strings_ok.
  - apply two_strings_ok.
  - by left.
  - by left.
  - done.
  - apply H. repeat constructor; done.
Defined.

(** Characters behind a zero byte are not compared. *)
Example equal_behind_a_zero_byte :
  let a := String (of_chr 0) "a" in let b := String (of_chr 0) "b" in
  strEqual true (Ref 0%nat) (Ref 1%nat) (two_strings a b) = Ok (Ref 10%nat, two_strings a b).
Proof. reflexivity. Qed.

(** An end more than one before the start makes the length a huge unsigned number: the
    answer is the rest of the string. A start of zero throws. *)
Example substring_of_negative_length :
  strPrimSubstringFromTo true (Ref 0%nat) (Tagged 4) (Tagged 1) (two_strings "abcdef" "x") =
    Ok (Ref 2%nat, with_string "def" (two_strings "abcdef" "x")) /\
  strPrimSubstringFromTo true (Ref 0%nat) (Tagged 0) (Tagged 1) (two_strings "abcdef" "x") =
    Err (ErrorExit "std::out_of_range").
Proof. split; reflexivity. Qed.
