(* ===== verification/Instructions.v ===== *)
(** * Instructions

    The bytes of a method as instructions with their operands, what an instruction
    does, and that a step of the interpreter on the bytes of an instruction is that
    instruction. *)
From Stdlib Require Import String.
From S2P Require Import Prelude Bytecodes Objects Universe Frame Interpreter Lookup Activation.
Local Open Scope Z_scope.

(** ** Encoding *)

Record instr : Type := mkInstr { i_op : bytecode; i_args : list Z }.

Definition encode (i : instr) : list Z := code (i_op i) :: i_args i.
Definition encode_all (cs : list instr) : list Z := flat_map encode cs.

Definition is_byte (z : Z) : Prop := 0 <= z < 256.

(** As many operands as the table of lengths says, all of them bytes. *)
Record wf_instr (i : instr) : Prop := mkWfInstr {
  wf_length : Z.of_nat (length (encode i)) = GetBytecodeLength (code (i_op i));
  wf_bytes : Forall is_byte (i_args i) }.

Lemma encode_all_app a b : encode_all (a ++ b) = encode_all a ++ encode_all b.
Proof. apply flat_map_app. Qed.

Lemma encode_all_snoc a i : encode_all (a ++ [i]) = encode_all a ++ encode i.
Proof. rewrite encode_all_app. cbn. by rewrite app_nil_r. Qed.

(** Reading the instructions back: from the opcode the number of operands. *)
Fixpoint decode_all (fuel : nat) (bs : list Z) : option (list instr) :=
  match fuel, bs with
  | _, [] => Some []
  | O, _ => None
  | S fuel, b :: rest =>
      bc ← Bytecodes.decode b;
      let n := Z.to_nat (GetBytecodeLength b - 1) in
      if (length rest <? n)%nat then None
      else cs ← decode_all fuel (drop n rest); Some (mkInstr bc (take n rest) :: cs)
  end.

Lemma decode_encode_all cs fuel :
  Forall wf_instr cs -> (length (encode_all cs) <= fuel)%nat ->
  decode_all fuel (encode_all cs) = Some cs.
Proof.
  revert fuel. induction cs as [|i cs IH]; intros fuel Hwf Hn; [by destruct fuel|].
  apply Forall_cons_iff in Hwf as [[Hl _] Hwf]. destruct i as [op args]. cbn in *.
  destruct fuel as [|fuel]; [lia|]. cbn [decode_all]. rewrite decode_code.
  unfold mbind, option_bind. cbn beta iota zeta.
  assert (Z.to_nat (GetBytecodeLength op - 1) = length args) as -> by lia.
  rewrite length_app in *. rewrite (proj2 (Nat.ltb_ge _ _)) by lia.
  rewrite drop_app_length, take_app_length. by rewrite IH by (done || unfold encode_all; lia).
Qed.

(** ** What an instruction does *)

Section Instructions.

Context (USE_TAGGING : bool) (LoadClassBasic : loc -> V oop) (routines : Routines).

(** The literal with that index; the reads outside of them give null. *)
Definition literal_at (idx : Z) : V oop :=
  m ← gets method; meth ← load_method m; mret (default Null (m_constants meth !! Z.to_nat idx)).

Definition exec (fuel : nat) (i : instr) : V () :=
  match i_op i, i_args i with
  | BC_DUP, [] => doDup
  | BC_DUP_SECOND, [] => doDupSecond
  | BC_PUSH_LOCAL, [a; c] => push_local a c
  | BC_PUSH_LOCAL_0, [] => doPushLocalWithIndex 0
  | BC_PUSH_LOCAL_1, [] => doPushLocalWithIndex 1
  | BC_PUSH_LOCAL_2, [] => doPushLocalWithIndex 2
  | BC_PUSH_ARGUMENT, [a; c] => push_argument a c
  | BC_PUSH_SELF, [] => push_argument_here 0
  | BC_PUSH_ARG_1, [] => push_argument_here 1
  | BC_PUSH_ARG_2, [] => push_argument_here 2
  | BC_PUSH_FIELD, [a] => doPushFieldWithIndex USE_TAGGING a
  | BC_PUSH_FIELD_0, [] => doPushFieldWithIndex USE_TAGGING 0
  | BC_PUSH_FIELD_1, [] => doPushFieldWithIndex USE_TAGGING 1
  | BC_PUSH_BLOCK, [a] => b ← literal_at a; push_block LoadClassBasic b
  | BC_PUSH_CONSTANT, [a] => c ← literal_at a; push c
  | BC_PUSH_CONSTANT_0, [] => c ← constant 0; push c
  | BC_PUSH_CONSTANT_1, [] => c ← constant 1; push c
  | BC_PUSH_CONSTANT_2, [] => c ← constant 2; push c
  | BC_PUSH_0, [] => x ← NEW_INT USE_TAGGING 0; push x
  | BC_PUSH_1, [] => x ← NEW_INT USE_TAGGING 1; push x
  | BC_PUSH_NIL, [] => k ← gets known; push (nilObject k)
  | BC_PUSH_GLOBAL, [a] => g ← literal_at a; push_global USE_TAGGING routines fuel g
  | BC_POP, [] => doPop
  | BC_POP_LOCAL, [a; c] => pop_local a c
  | BC_POP_LOCAL_0, [] => doPopLocalWithIndex 0
  | BC_POP_LOCAL_1, [] => doPopLocalWithIndex 1
  | BC_POP_LOCAL_2, [] => doPopLocalWithIndex 2
  | BC_POP_ARGUMENT, [a; c] => pop_argument a c
  | BC_POP_FIELD, [a] => doPopFieldWithIndex USE_TAGGING a
  | BC_POP_FIELD_0, [] => doPopFieldWithIndex USE_TAGGING 0
  | BC_POP_FIELD_1, [] => doPopFieldWithIndex USE_TAGGING 1
  | BC_SEND, [a] => s ← literal_at a; send_signature USE_TAGGING routines fuel s
  | BC_SEND_1, [a] => s ← literal_at a; unary_send_signature USE_TAGGING routines fuel s
  | BC_SUPER_SEND, [a] => s ← literal_at a; super_send_signature USE_TAGGING routines fuel s
  | BC_RETURN_LOCAL, [] => doReturnLocal
  | BC_RETURN_NON_LOCAL, [] => doReturnNonLocal USE_TAGGING routines fuel
  | BC_RETURN_SELF, [] => doReturnSelf
  | BC_RETURN_FIELD_0, [] => doReturnFieldWithIndex USE_TAGGING 0
  | BC_RETURN_FIELD_1, [] => doReturnFieldWithIndex USE_TAGGING 1
  | BC_RETURN_FIELD_2, [] => doReturnFieldWithIndex USE_TAGGING 2
  | BC_INC, [] => doInc USE_TAGGING
  | BC_DEC, [] => doDec USE_TAGGING
  | BC_INC_FIELD, [a] => doIncField USE_TAGGING a
  | BC_INC_FIELD_PUSH, [a] => doIncFieldPush USE_TAGGING a
  | _, _ => fail Undef
  end.

Fixpoint exec_all (fuel : nat) (cs : list instr) : V () :=
  match cs with [] => mret tt | i :: r => exec fuel i;; exec_all fuel r end.

(** The instructions that only go on to the next one, if they go on at all. *)
Definition straight (bc : bytecode) : bool :=
  negb (bool_decide (bc = BC_HALT)) && negb (IsJumpBytecode (code bc)).

(** The current method has the bytes of [i] at the current index. *)
Definition at_instr (w : World) (i : instr) : Prop :=
  exists meth pre post,
    heap w !! method w = Some (OMethod meth) /\
    m_bytecodes meth = pre ++ encode i ++ post /\
    bytecodeIndexGlobal w = Z.of_nat (length pre).

Lemma fetch_step w meth pre post b n d :
  heap w !! method w = Some (OMethod meth) -> m_bytecodes meth = pre ++ post ->
  post !! d = Some b -> n = Z.of_nat (length pre + d) ->
  fetch n w = Ok (b, w).
Proof.
  intros Hm Hb Hd ->. unfold fetch. erewrite bind_step by apply gets_step.
  erewrite bind_step by (by apply load_method_step).
  rewrite (proj2 (Z.ltb_ge _ _)) by lia. apply of_option_step.
  rewrite Nat2Z.id, Hb, lookup_app_r by lia. rewrite <- Hd. f_equal. lia.
Qed.

Lemma GetConstant_step w meth pre post a n :
  heap w !! method w = Some (OMethod meth) -> m_bytecodes meth = pre ++ post ->
  post !! 1%nat = Some a -> n = Z.of_nat (length pre) ->
  GetConstant n w = literal_at a w.
Proof.
  intros Hm Hb Hd ->. unfold GetConstant, literal_at.
  erewrite bind_step by (eapply fetch_step; [done|done|done|lia]). done.
Qed.

Lemma from_start_step w (i n : Z) (k : Z -> V ()) :
  bytecodeIndexGlobal w = i + n -> from_start n k w = k i w.
Proof.
  intros H. unfold from_start. erewrite bind_step by apply gets_step. f_equal. lia.
Qed.

(** The handlers of the instructions with operands read them behind the opcode. *)
Lemma dispatch_exec fuel w i meth pre post :
  heap w !! method w = Some (OMethod meth) ->
  m_bytecodes meth = pre ++ encode i ++ post ->
  bytecodeIndexGlobal w = Z.of_nat (length pre) ->
  wf_instr i -> straight (i_op i) = true ->
  dispatch USE_TAGGING LoadClassBasic routines fuel (i_op i) w =
    exec fuel i (set_bytecodeIndex
      (bytecodeIndexGlobal w + GetBytecodeLength (code (i_op i))) w).
Proof.
  intros Hm Hb Hpc [Hl _] Hs. destruct i as [op args]. cbn [i_op i_args encode] in *.
  assert (Z.of_nat (length args) = GetBytecodeLength (code op) - 1) as Ha by (cbn in Hl; lia).
  clear Hl.
  destruct op; try (exfalso; exact (diff_false_true Hs)); 
    (match type of Ha with _ = ?r => let v := eval vm_compute in r in change r with v in Ha end);
    destruct args as [|a [|c [|]]]; cbn [length] in Ha; try (exfalso; lia); clear Ha Hs;
    unfold dispatch, exec, PROLOGUE, jump_by; cbn [i_op i_args];
    erewrite bind_step by apply modify_step; try done;
    first [ rewrite (from_start_step _ (Z.of_nat (length pre))) by (cbn; lia)
          | rewrite (from_start_step _ (Z.of_nat (length pre) + 1)) by (cbn; lia) ];
    unfold doPushLocal, doPushArgument, doPushField, doPushBlock, doPushConstant, doPushGlobal,
      doPopLocal, doPopArgument, doPopField, doSend, doUnarySend, doSuperSend.
  all: cbn in Hb.
  all: try (unfold mbind, stateful_bind; by erewrite GetConstant_step).
  all: repeat first
    [ erewrite bind_step by (eapply (fetch_step _ _ pre _ _ _ 1); [done|done|reflexivity|lia])
    | erewrite bind_step by (eapply (fetch_step _ _ pre _ _ _ 2); [done|done|reflexivity|lia]) ].
  all: try done.
Qed.

Lemma step_exec fuel w i :
  at_instr w i -> wf_instr i -> straight (i_op i) = true ->
  step USE_TAGGING LoadClassBasic routines fuel w =
    (jump_by (GetBytecodeLength (code (i_op i)));; exec fuel i;; mret None) w.
Proof.
  intros (meth & pre & post & Hm & Hb & Hpc) Hwf Hs. unfold step.
  erewrite bind_step by apply gets_step.
  erewrite bind_step by (eapply (fetch_step _ _ pre _ _ _ 0); [done|done|done|lia]).
  rewrite decode_code. unfold jump_by. erewrite bind_step by apply modify_step.
  unfold mbind, stateful_bind.
  pose proof (dispatch_exec fuel w i meth pre post Hm Hb Hpc Hwf Hs) as D.
  revert D Hs. destruct (i_op i); intros D Hs; try (exfalso; exact (diff_false_true Hs));
    by rewrite D.
Qed.

End Instructions.

(** C22: a step of the interpreter executes one instruction.  If the current method has
    at the current index the bytes of an instruction that is no jump and no halt, with
    as many operand bytes as the table of lengths says, then a step advances the index
    to the next instruction and does what the instruction does with these operands: no
    handler reads its operands elsewhere or loses the place. *)
Theorem step_executes USE_TAGGING LoadClassBasic routines fuel w i :
  at_instr w i -> wf_instr i -> straight (i_op i) = true ->
  step USE_TAGGING LoadClassBasic routines fuel w =
    (jump_by (GetBytecodeLength (code (i_op i)));;
     exec USE_TAGGING LoadClassBasic routines fuel i;; mret None) w.
Proof. apply step_exec. Qed.

(** The example world with a method that pushes its second slot. *)
Definition code_world : World :=
  set_heap (<[0%nat := OMethod (mkMethod 9%nat Null 0 4 [35; 7; 1; 0; 35] 1 [] 0%nat [])]>
              example_heap) (example_world 1%nat 1).

Lemma step_executes_witness :
  step true (fun _ => fail Undef) (mkRoutines (fun _ _ => fail Undef) (fun _ _ => fail Undef)
      (fun _ _ _ => fail Undef) (fun _ _ _ _ => fail Undef)) 0 code_world =
    (jump_by 3;;
     exec true (fun _ => fail Undef) (mkRoutines (fun _ _ => fail Undef) (fun _ _ => fail Undef)
      (fun _ _ _ => fail Undef) (fun _ _ _ _ => fail Undef)) 0
      (mkInstr BC_PUSH_ARGUMENT [1; 0]);; mret None) code_world.
Proof.
  apply (step_executes true (fun _ => fail Undef) (mkRoutines (fun _ _ => fail Undef)
      (fun _ _ => fail Undef) (fun _ _ _ => fail Undef) (fun _ _ _ _ => fail Undef)) 0
      code_world (mkInstr BC_PUSH_ARGUMENT [1; 0])).
  - exists (mkMethod 9%nat Null 0 4 [35; 7; 1; 0; 35] 1 [] 0%nat []), [35], [35].
    split; [reflexivity|split; reflexivity].
  - split; [reflexivity|]. repeat constructor; unfold is_byte; lia.
  - reflexivity.
Defined.
