(* ===== verification/Sequences.v ===== *)
(** * Equivalent instruction sequences

    The sequences that the peephole optimisations of the compiler exchange do the same
    when they are executed: a duplicate that is popped somewhere before the element
    itself is popped, the increment of a field, the return of a field, and the same
    before a return of the receiver, where the frame that is left differs by one
    element. *)
From Stdlib Require Import String.
From S2P Require Import Prelude Bytecodes IntegerPrims Objects Universe Frame Interpreter Lookup.
From S2P Require Import Activation Instructions.
Local Open Scope Z_scope.

(** ** Reading in two states *)

(** [m] only reads, and reads the same in [w] and [w']. *)
Definition reads {A} (m : V A) (w w' : World) : Prop :=
  match m w with
  | Ok (a, w1) => w1 = w /\ m w' = Ok (a, w')
  | Err e => m w' = Err e
  end.

Lemma reads_bind {A B} (m : V A) (k : A -> V B) w w' :
  reads m w w' -> (forall a, m w = Ok (a, w) -> reads (k a) w w') -> reads (m ≫= k) w w'.
Proof.
  unfold reads. unfold mbind at 1, stateful_bind at 1. intros Hm Hk.
  destruct (m w) as [[a w1]|e] eqn:E.
  - destruct Hm as [-> Hm]. specialize (Hk a eq_refl).
    by rewrite !(bind_step m k _ _ _ Hm).
  - unfold mbind, stateful_bind. by rewrite Hm.
Qed.

Lemma reads_ret {A} (a : A) w w' : reads (mret a) w w'.
Proof. done. Qed.

Lemma reads_fail {A} e w w' : reads (A := A) (fail e) w w'.
Proof. done. Qed.

Lemma reads_lift {A} (r : result A) w w' : reads (lift r) w w'.
Proof. unfold reads, lift. by destruct r. Qed.

Lemma reads_load w w' l : heap w !! l = heap w' !! l -> reads (load l) w w'.
Proof. unfold reads, load. intros ->. by destruct (heap w' !! l). Qed.

Section Slots.

(** The state with other slots in the frame [cur]. *)
Context (w : World) (cur : loc) (f : Frame) (s : list oop).
Hypothesis Hf : heap w !! cur = Some (OFrame f).
Notation w' := (put_frame cur (with_slots s f) w).

(** Code that does not look at the slots of [cur] reads the same. *)
Lemma reads_frame {A} l (k : Frame -> V A) :
  (l = cur -> k (with_slots s f) = k f) -> (forall g, reads (k g) w w') ->
  reads (load_frame l ≫= k) w w'.
Proof using Hf.
  intros Hk Hg. unfold reads, load_frame, load, mbind, stateful_bind. cbn [heap put_obj set_heap].
  destruct (decide (l = cur)) as [->|].
  - rewrite lookup_insert_eq, Hf. cbn. rewrite Hk by done. apply Hg.
  - rewrite lookup_insert_ne by done. destruct (heap w !! l) as [[]|]; cbn; try done. apply Hg.
Qed.

Lemma reads_GetContextLevel n l : reads (GetContextLevel n l) w w'.
Proof using Hf.
  revert l. induction n as [|n IH]; intros l; [done|]. cbn [GetContextLevel].
  apply reads_frame; [done|]. intros g. apply reads_bind; [apply reads_lift|]. intros. apply IH.
Qed.

Lemma reads_outer_context n l : reads (outer_context n l) w w'.
Proof using Hf.
  revert l. induction n as [|n IH]; intros l; [done|]. cbn [outer_context].
  apply reads_frame; [done|]. intros g. destruct (f_context g); [apply IH|done].
Qed.

Lemma reads_GetOuterContext l : reads (GetOuterContext l) w w'.
Proof using Hf. apply (reads_outer_context (S (next w))). Qed.

Lemma reads_slot l i : (l = cur -> s !! i = f_slots f !! i) -> reads (read_slot l i) w w'.
Proof using Hf.
  intros H. apply reads_frame; [|intros; apply reads_lift].
  intros ->. cbn. by rewrite H.
Qed.

Lemma reads_GetFrame : reads GetFrame w w'.
Proof using Type.
  apply reads_bind; [done|]. intros. apply reads_lift.
Qed.

(** The receiver of the home method is the first slot of its frame. *)
Lemma reads_GetSelf : s !! 0%nat = f_slots f !! 0%nat -> reads GetSelf w w'.
Proof using Hf.
  intros H. apply reads_bind; [apply reads_GetFrame|]. intros l _.
  apply reads_bind; [apply reads_GetOuterContext|]. intros c _. by apply reads_slot.
Qed.

(** Objects that are no frames read the same. *)
Lemma reads_object {A} l (k : obj -> V A) :
  (forall g g', k (OFrame g) = k (OFrame g')) -> (forall o, reads (k o) w w') ->
  reads (load l ≫= k) w w'.
Proof using Hf.
  intros Hk Hg. unfold reads, load, mbind, stateful_bind. cbn [heap put_obj set_heap].
  destruct (decide (l = cur)) as [->|].
  - rewrite lookup_insert_eq, Hf. rewrite (Hk (with_slots s f) f). apply Hg.
  - rewrite lookup_insert_ne by done. destruct (heap w !! l) as [o|]; [apply Hg|done].
Qed.

Lemma reads_GetField self i : reads (GetField self i) w w'.
Proof using Hf.
  unfold GetField, deref. destruct self; [done|done|].
  apply reads_object; [done|]. intros []; try done. case_match; [done|]. apply reads_lift.
Qed.

Lemma reads_get_field_of USE_TAGGING self i : reads (get_field_of USE_TAGGING self i) w w'.
Proof using Hf. unfold get_field_of. case_match; [done|]. apply reads_GetField. Qed.

End Slots.

Lemma with_slots_id f : with_slots (f_slots f) f = f.
Proof. by destruct f. Qed.

Lemma with_slots_twice s t f : with_slots s (with_slots t f) = with_slots s f.
Proof. done. Qed.

(** ** One more element on the stack *)

Section Pushed.

Context (cur : loc) (x : oop).

(** [w'] is [w] with [x] on top of the stack of [cur]. *)
Definition pushed (w w' : World) : Prop :=
  exists f, heap w !! cur = Some (OFrame f) /\
    w' = put_frame cur (with_slots (f_slots f ++ [x]) f) w.

(** [m] does the same in both states and leaves [x] where it is. *)
Definition lifts {A} (m : V A) (w w' : World) : Prop :=
  match m w with
  | Ok (a, w1) => exists w1', m w' = Ok (a, w1') /\ pushed w1 w1'
  | Err e => m w' = Err e
  end.

Lemma lifts_reads {A} (m : V A) w w' : pushed w w' -> reads m w w' -> lifts m w w'.
Proof.
  unfold reads, lifts. intros HP. destruct (m w) as [[a w1]|e]; [|done].
  intros [-> H]. eauto.
Qed.

Lemma lifts_bind {A B} (m : V A) (k : A -> V B) w w' :
  lifts m w w' ->
  (forall a w1 w1', m w = Ok (a, w1) -> pushed w1 w1' -> lifts (k a) w1 w1') ->
  lifts (m ≫= k) w w'.
Proof.
  unfold lifts. unfold mbind at 1, stateful_bind at 1. intros Hm Hk.
  destruct (m w) as [[a w1]|e] eqn:E.
  - destruct Hm as (w1' & Hm & HP). specialize (Hk a w1 w1' eq_refl HP).
    by rewrite !(bind_step m k _ _ _ Hm).
  - unfold mbind, stateful_bind. by rewrite Hm.
Qed.

(** After something that only reads. *)
Lemma lifts_read_bind {A B} (m : V A) (k : A -> V B) w w' :
  pushed w w' -> reads m w w' ->
  (forall a, m w = Ok (a, w) -> lifts (k a) w w') -> lifts (m ≫= k) w w'.
Proof.
  intros HP Hm Hk. unfold reads, lifts in *. unfold mbind at 1, stateful_bind at 1.
  destruct (m w) as [[a w1]|e] eqn:E.
  - destruct Hm as [-> Hm]. specialize (Hk a eq_refl). by rewrite !(bind_step m k _ _ _ Hm).
  - unfold mbind, stateful_bind. by rewrite Hm.
Qed.

Lemma lifts_fail {A} e w w' : lifts (A := A) (fail e) w w'.
Proof. done. Qed.

Lemma lifts_ret {A} (a : A) w w' : pushed w w' -> lifts (mret a) w w'.
Proof. intros HP. unfold lifts. cbn. eauto. Qed.

(** Overwriting another object. *)
Lemma lifts_store l o w w' :
  pushed w w' -> l <> cur -> lifts (store l o) w w'.
Proof.
  intros (f & Hf & ->) Hne. unfold lifts, store. rewrite put_obj_ne by done.
  destruct (heap w !! l); [|done].
  eexists. split; [done|]. exists f. split.
  - cbn. by rewrite lookup_insert_ne.
  - apply put_obj_comm. done.
Qed.

Lemma lifts_alloc o w w' : pushed w w' -> cur <> next w -> lifts (alloc o) w w'.
Proof.
  intros (f & Hf & ->) Hne. unfold lifts, alloc. eexists. split; [done|]. exists f. split.
  - cbn. by rewrite lookup_insert_ne.
  - change (set_next (S (next w)) (put_obj (next w) o (put_frame cur (with_slots (f_slots f ++ [x]) f) w)) =
            set_next (S (next w)) (put_frame cur (with_slots (f_slots f ++ [x]) f) (put_obj (next w) o w))).
    by rewrite put_obj_comm.
Qed.

(** Writing a slot below the top. *)
Lemma lifts_write_slot l i v w w' :
  pushed w w' ->
  (forall f, l = cur -> heap w !! cur = Some (OFrame f) -> (i < length (f_slots f))%nat) ->
  lifts (write_slot l i v) w w'.
Proof.
  intros HP Hi. destruct (decide (l = cur)) as [->|Hne].
  - destruct HP as (f & Hf & ->). specialize (Hi f eq_refl Hf).
    unfold lifts. erewrite write_slot_step by done.
    eexists. split.
    + eapply write_slot_step; [apply put_obj_eq|]. cbn. rewrite length_app. lia.
    + eexists. split; [apply put_obj_eq|]. rewrite !put_obj_twice. cbn [f_slots with_slots].
      rewrite insert_app_l by done. done.
  - unfold write_slot. apply lifts_read_bind; [done| |].
    + destruct HP as (f & Hf & ->). unfold load_frame.
      apply reads_bind; [|intros []; done]. apply reads_load. by rewrite put_obj_ne.
    + intros g _. case_match; [|done]. by apply lifts_store.
Qed.

Lemma lifts_SetField self i v w w' : pushed w w' -> lifts (SetField self i v) w w'.
Proof.
  intros HP. unfold SetField. destruct self; [done|done|]. cbn [loc_of].
  change (lifts (o ← load l;
    match o with
    | OObject k c fields =>
        if (0 <=? i) && (i <? Z.of_nat (length fields))
        then store l (OObject k c (<[Z.to_nat i := v]> fields)) else fail Undef
    | _ => fail Undef end) w w').
  destruct (decide (l = cur)) as [->|Hne].
  - destruct HP as (f & Hf & ->). unfold lifts, load, mbind, stateful_bind.
    by rewrite put_obj_eq, Hf.
  - apply lifts_read_bind; [done| |].
    + destruct HP as (f & Hf & ->). apply reads_load. by rewrite put_obj_ne.
    + intros [] _; try done. case_match; [|done]. by apply lifts_store.
Qed.

End Pushed.

(** ** Instructions that take the top of the stack somewhere *)

Section Sequences.

Context (USE_TAGGING : bool) (LoadClassBasic : loc -> V oop) (routines : Routines).

Notation exec := (exec USE_TAGGING LoadClassBasic routines).
Notation exec_all := (exec_all USE_TAGGING LoadClassBasic routines).

Definition store_field (index : Z) (v : oop) : V () :=
  self ← GetSelf;
  if IS_TAGGED USE_TAGGING self
  then fail (ErrorExit "Integers do not have fields that can be set")
  else SetField self index v.

(** What is left of such an instruction once [v] is popped. *)
Definition sink (i : instr) (v : oop) : V () :=
  match i_op i, i_args i with
  | BC_POP_LOCAL, [a; c] => cur ← GetFrame; SetLocal cur (Z.to_nat a) (Z.to_nat c) v
  | BC_POP_LOCAL_0, [] => cur ← GetFrame; SetLocalInCurrentContext cur 0 v
  | BC_POP_LOCAL_1, [] => cur ← GetFrame; SetLocalInCurrentContext cur 1 v
  | BC_POP_LOCAL_2, [] => cur ← GetFrame; SetLocalInCurrentContext cur 2 v
  | BC_POP_ARGUMENT, [a; c] => cur ← GetFrame; SetArgument cur (Z.to_nat a) (Z.to_nat c) v
  | BC_POP_FIELD, [a] => store_field a v
  | BC_POP_FIELD_0, [] => store_field 0 v
  | BC_POP_FIELD_1, [] => store_field 1 v
  | _, _ => fail Undef
  end.

(** The slot of the frame of the operand is one of the first [n] if that frame is the
    current one: a variable, not a slot of the operand stack. *)
Definition variable_operand (w : World) (cur : loc) (f : Frame) (n : nat) (i : instr) : Prop :=
  match i_op i, i_args i with
  | BC_POP_LOCAL, [a; c] =>
      GetContextLevel (Z.to_nat c) cur w = Ok (cur, w) -> (f_locals f + Z.to_nat a < n)%nat
  | BC_POP_LOCAL_0, [] => (f_locals f + 0 < n)%nat
  | BC_POP_LOCAL_1, [] => (f_locals f + 1 < n)%nat
  | BC_POP_LOCAL_2, [] => (f_locals f + 2 < n)%nat
  | BC_POP_ARGUMENT, [a; c] =>
      GetContextLevel (Z.to_nat c) cur w = Ok (cur, w) -> (Z.to_nat a < n)%nat
  | _, _ => True
  end.

Definition pops_something (bc : bytecode) : bool :=
  is_one_of [BC_POP_LOCAL; BC_POP_LOCAL_0; BC_POP_LOCAL_1; BC_POP_LOCAL_2;
             BC_POP_ARGUMENT; BC_POP_FIELD; BC_POP_FIELD_0; BC_POP_FIELD_1] (code bc).

Lemma exec_field_sink w cur f s v n :
  frame w = Some cur -> heap w !! cur = Some (OFrame f) -> f_slots f = s ++ [v] ->
  (0 < length s)%nat ->
  doPopFieldWithIndex USE_TAGGING n w = store_field n v (put_frame cur (with_slots s f) w).
Proof.
  intros Hc Hf Hs Hn. unfold doPopFieldWithIndex, store_field, pop.
  pose proof (reads_GetSelf w cur f s Hf) as R. rewrite Hs, lookup_app_l in R by lia.
  specialize (R eq_refl). unfold reads in R.
  unfold mbind at 1 4, stateful_bind at 1 4.
  destruct (GetSelf w) as [[self w1]|e]; [|by rewrite R].
  destruct R as [-> ->]. rewrite bind_assoc.
  erewrite bind_step by (by apply GetFrame_step). by erewrite bind_step by (by eapply Pop_step).
Qed.

Lemma exec_sink fuel i w cur f s v :
  pops_something (i_op i) = true ->
  frame w = Some cur -> heap w !! cur = Some (OFrame f) -> f_slots f = s ++ [v] ->
  (0 < length s)%nat ->
  exec fuel i w = sink i v (put_frame cur (with_slots s f) w).
Proof.
  intros Hp Hc Hf Hs Hn. destruct i as [op args]. cbn [i_op] in Hp.
  destruct op; try discriminate Hp; unfold Instructions.exec, sink; cbn [i_op i_args];
    destruct args as [|a [|c [|]]]; try reflexivity; try (by eapply exec_field_sink);
    unfold pop_local, doPopLocalWithIndex, pop_argument, pop; rewrite bind_assoc;
    erewrite bind_step by (by apply GetFrame_step);
    by erewrite bind_step by (by eapply Pop_step).
Qed.

Lemma pushed_reads_GetSelf cur x w w' f :
  pushed cur x w w' -> heap w !! cur = Some (OFrame f) -> (0 < length (f_slots f))%nat ->
  reads GetSelf w w'.
Proof.
  intros (g & Hg & ->) Hf Hn. assert (g = f) as -> by congruence.
  apply (reads_GetSelf _ _ _ _ Hf). by rewrite lookup_app_l.
Qed.

Lemma lifts_GetFrame cur x w w' : pushed cur x w w' -> reads GetFrame w w'.
Proof. intros (f & _ & ->). apply reads_GetFrame. Qed.

Lemma lifts_store_field cur x w w' f n v :
  pushed cur x w w' -> heap w !! cur = Some (OFrame f) -> (0 < length (f_slots f))%nat ->
  lifts cur x (store_field n v) w w'.
Proof.
  intros HP Hf Hn. apply lifts_read_bind; [done|by eapply pushed_reads_GetSelf|].
  intros self _. case_match; [done|]. by apply lifts_SetField.
Qed.

Lemma lifts_local_here cur x w w' f c i v :
  pushed cur x w w' -> heap w !! cur = Some (OFrame f) ->
  (c = cur -> (f_locals f + i < length (f_slots f))%nat) ->
  lifts cur x (SetLocalInCurrentContext c i v) w w'.
Proof.
  intros HP Hf Hi. unfold SetLocalInCurrentContext.
  destruct (decide (c = cur)) as [->|Hne].
  - destruct HP as (g & Hg & ->). assert (g = f) as -> by congruence. unfold lifts.
    rewrite !(bind_step _ _ _ _ _ (load_frame_step _ _ _ Hf)).
    rewrite !(bind_step _ _ _ _ _ (load_frame_step _ _ _ (put_obj_eq _ _ _))).
    apply lifts_write_slot; [by exists f|]. intros g _ Hg'. simplify_eq. auto.
  - apply lifts_read_bind; [done| |].
    + destruct HP as (g & Hg & ->). unfold load_frame.
      apply reads_bind; [|intros []; done]. apply reads_load. by rewrite put_obj_ne.
    + intros g _. by apply lifts_write_slot.
Qed.

Lemma lifts_context_bind {A} cur x w w' n l (k : loc -> V A) :
  pushed cur x w w' ->
  (forall c, GetContextLevel n l w = Ok (c, w) -> lifts cur x (k c) w w') ->
  lifts cur x (GetContextLevel n l ≫= k) w w'.
Proof.
  intros HP Hk. apply lifts_read_bind; [done| |done].
  destruct HP as (f & Hf & ->). by apply reads_GetContextLevel.
Qed.

Lemma lifts_sink cur x w w' f i v n :
  pushed cur x w w' -> frame w = Some cur -> heap w !! cur = Some (OFrame f) ->
  (0 < n <= length (f_slots f))%nat -> variable_operand w cur f n i ->
  lifts cur x (sink i v) w w'.
Proof.
  intros HP Hc Hf Hn Hi. unfold sink. unfold variable_operand in Hi.
  repeat case_match; try done;
    try (eapply lifts_store_field; [done|done|lia]);
    (apply lifts_read_bind; [done|by eapply lifts_GetFrame|]);
    intros ? El; rewrite (GetFrame_step _ _ Hc) in El; injection El as <-;
    try (eapply lifts_local_here; [done|done|lia]).
  - apply lifts_context_bind; [done|]. intros c Hcl.
    eapply lifts_local_here; [done|done|]. intros ->. specialize (Hi Hcl). lia.
  - apply lifts_context_bind; [done|]. intros c Hcl.
    apply lifts_write_slot; [done|]. intros g -> Hg. simplify_eq. specialize (Hi Hcl). lia.
Qed.

Lemma variable_operand_slots w cur f n i s :
  heap w !! cur = Some (OFrame f) -> variable_operand w cur f n i ->
  variable_operand (put_frame cur (with_slots s f) w) cur (with_slots s f) n i.
Proof.
  intros Hf. unfold variable_operand. repeat case_match; try done; intros Hv Ec; apply Hv;
    match goal with E : GetContextLevel ?k _ _ = _ |- _ =>
      pose proof (reads_GetContextLevel w cur f s Hf k cur) as R;
      unfold reads in R; rewrite E in R; destruct (GetContextLevel k cur w) as [[c' w1]|];
      [destruct R as [-> R]|]; congruence end.
Qed.

Definition keeps_frame {A} (m : V A) : Prop :=
  forall w a w', m w = Ok (a, w') -> frame w' = frame w.

Lemma keeps_frame_bind {A B} (m : V A) (k : A -> V B) :
  keeps_frame m -> (forall a, keeps_frame (k a)) -> keeps_frame (m ≫= k).
Proof.
  intros Hm Hk w b w' H. apply bind_Ok in H as (a & w1 & H1 & H2).
  rewrite (Hk _ _ _ _ H2). by eapply Hm.
Qed.

Lemma keeps_frame_load l : keeps_frame (load l).
Proof. intros w a w' H. unfold load in H. case_match; by simplify_eq. Qed.

Lemma keeps_frame_store l o : keeps_frame (store l o).
Proof. intros w a w' H. unfold store in H. case_match; by simplify_eq. Qed.

Lemma keeps_frame_lift {A} (r : result A) : keeps_frame (lift r).
Proof. intros w a w' H. unfold lift in H. case_match; by simplify_eq. Qed.

Lemma keeps_frame_alloc o : keeps_frame (alloc o).
Proof. intros w a w' H. unfold alloc in H. by simplify_eq. Qed.

Lemma keeps_frame_gets {A} (g : World -> A) : keeps_frame (gets g).
Proof. intros w a w' H. unfold gets in H. by simplify_eq. Qed.

Lemma keeps_frame_ret {A} (a : A) : keeps_frame (mret a).
Proof. intros w b w' H. unfold mret, stateful_ret in H. by simplify_eq. Qed.

Lemma keeps_frame_fail {A} e : keeps_frame (A := A) (fail e).
Proof. by intros w a w' H. Qed.

Create HintDb keeps discriminated.
Hint Resolve keeps_frame_load keeps_frame_store keeps_frame_lift keeps_frame_alloc
  keeps_frame_gets keeps_frame_ret keeps_frame_fail : keeps.

Ltac keeps := repeat first
  [ solve [eauto with keeps] | apply keeps_frame_bind; [|intros ?] | case_match ].

Lemma keeps_frame_GetContextLevel n l : keeps_frame (GetContextLevel n l).
Proof. revert l. induction n; intros l; cbn [GetContextLevel]; unfold load_frame; keeps. Qed.

Lemma keeps_frame_outer_context n l : keeps_frame (outer_context n l).
Proof. revert l. induction n; intros l; cbn [outer_context]; unfold load_frame; keeps. Qed.

Hint Resolve keeps_frame_GetContextLevel keeps_frame_outer_context : keeps.

Lemma keeps_frame_GetSelf : keeps_frame GetSelf.
Proof.
  unfold GetSelf, GetFrame, GetOuterContext, heap_fuel, GetArgumentInCurrentContext, read_slot,
    load_frame. keeps.
Qed.

Lemma keeps_frame_SetField self i v : keeps_frame (SetField self i v).
Proof. unfold SetField, loc_of. keeps. Qed.

Hint Resolve keeps_frame_GetSelf keeps_frame_SetField : keeps.

Lemma keeps_frame_sink i v : keeps_frame (sink i v).
Proof.
  unfold sink, GetFrame, SetLocal, SetArgument, SetLocalInCurrentContext,
    SetArgumentInCurrentContext, store_field, write_slot, load_frame. keeps.
Qed.

(** ** The exchanged sequences *)

(** An activation in the middle of its method: [n] variables, the receiver among them,
    and room for two more elements on the stack. *)
Record ready (w : World) (cur : loc) (f : Frame) (n : nat) : Prop := mkReady {
  ready_frame : frame w = Some cur;
  ready_cur : heap w !! cur = Some (OFrame f);
  ready_vars : (0 < n <= length (f_slots f))%nat;
  ready_room : (length (f_slots f) + 2 <= f_size f)%nat;
  ready_fresh : forall l o, heap w !! l = Some o -> (l < next w)%nat }.

Lemma push_step w cur f v :
  frame w = Some cur -> heap w !! cur = Some (OFrame f) ->
  (length (f_slots f) < f_size f)%nat ->
  push v w = Ok (tt, put_frame cur (with_slots (f_slots f ++ [v]) f) w).
Proof.
  intros Hc Hf Hn. unfold push. erewrite bind_step by (by apply GetFrame_step).
  by apply Push_step.
Qed.

Lemma doPop_pushed cur x w w' :
  frame w = Some cur -> pushed cur x w w' -> doPop w' = Ok (tt, w).
Proof.
  intros Hc (f & Hf & ->). unfold doPop. erewrite bind_step by (by apply GetFrame_step).
  erewrite PopVoid_step; [|apply put_obj_eq|done].
  rewrite put_obj_twice, with_slots_twice, with_slots_id. by rewrite put_obj_id.
Qed.

Lemma pop_pushed cur x w w' :
  frame w = Some cur -> pushed cur x w w' -> pop w' = Ok (x, w).
Proof.
  intros Hc (f & Hf & ->). unfold pop. erewrite bind_step by (by apply GetFrame_step).
  erewrite Pop_step; [|apply put_obj_eq|done].
  rewrite put_obj_twice, with_slots_twice, with_slots_id. by rewrite put_obj_id.
Qed.

Lemma pushed_top w cur f s x :
  heap w !! cur = Some (OFrame f) -> f_slots f = s ++ [x] ->
  pushed cur x (put_frame cur (with_slots s f) w) w.
Proof.
  intros Hf Hs. exists (with_slots s f). split; [apply put_obj_eq|].
  rewrite put_obj_twice. cbn [f_slots with_slots]. rewrite with_slots_twice, <- Hs, with_slots_id.
  by rewrite put_obj_id.
Qed.

(** A duplicate that is popped somewhere: the element itself stays. *)
Lemma dup_sink fuel i w cur f s x :
  frame w = Some cur -> heap w !! cur = Some (OFrame f) -> f_slots f = s ++ [x] ->
  (length (f_slots f) < f_size f)%nat -> pops_something (i_op i) = true ->
  exec_all fuel [mkInstr BC_DUP []; i] w = sink i x w.
Proof.
  intros Hc Hf Hs Hr Hp. cbn [Instructions.exec_all].
  erewrite bind_step.
  2:{ unfold Instructions.exec, doDup. cbn [i_op i_args].
      erewrite bind_step by (by apply GetFrame_step).
      erewrite bind_step by (by eapply Top_step).
      apply Push_step; [done|lia]. }
  unfold mbind, stateful_bind.
  erewrite (exec_sink _ _ _ cur _ (f_slots f)); [|done|done|apply put_obj_eq|done|].
  2:{ rewrite Hs, length_app. cbn. lia. }
  rewrite put_obj_twice, with_slots_twice, with_slots_id, put_obj_id by done.
  by destruct (sink i x w) as [[[] ?]|].
Qed.

Lemma exec_one fuel i w : exec_all fuel [i] w = exec fuel i w.
Proof.
  cbn [Instructions.exec_all]. unfold mbind, stateful_bind.
  by destruct (exec fuel i w) as [[[] ?]|].
Qed.

Lemma exec_all_app fuel a b w : exec_all fuel (a ++ b) w = (exec_all fuel a;; exec_all fuel b) w.
Proof.
  revert w. induction a as [|i a IH]; intros w; [done|].
  cbn [app Instructions.exec_all]. rewrite bind_assoc.
  destruct (exec fuel i w) as [[u w1]|e] eqn:E.
  - rewrite !(bind_step _ _ _ _ _ E). apply IH.
  - unfold mbind, stateful_bind. by rewrite E.
Qed.

Lemma dup_pop_pop fuel i w cur f n :
  ready w cur f n -> (n < length (f_slots f))%nat ->
  pops_something (i_op i) = true -> variable_operand w cur f n i ->
  exec_all fuel [mkInstr BC_DUP []; i; mkInstr BC_POP []] w = exec_all fuel [i] w.
Proof.
  intros HR Hlt Hp Hv.
  destruct (f_slots f) as [|x s _] eqn:Hs using rev_ind; [cbn in Hlt; lia|].
  change [mkInstr BC_DUP []; i; mkInstr BC_POP []]
    with ([mkInstr BC_DUP []; i] ++ [mkInstr BC_POP []]).
  rewrite exec_all_app, exec_one.
  pose proof HR as [Hc Hf Hn Hr Hfr]. rewrite length_app in Hlt. rewrite Hs, length_app in Hn.
  cbn in Hlt, Hn.
  rewrite (exec_sink _ _ _ cur f s x) by (done || lia).
  set (w0 := put_frame cur (with_slots s f) w).
  assert (pushed cur x w0 w) as HP by by apply pushed_top.
  assert (lifts cur x (sink i x) w0 w) as HL.
  { eapply lifts_sink; [done|done|apply put_obj_eq| |by apply variable_operand_slots].
    cbn. lia. }
  unfold mbind, stateful_bind.
  erewrite dup_sink; [|done|done|done|lia|done].
  unfold lifts in HL. destruct (sink i x w0) as [[[] w1]|e] eqn:Es; [|by rewrite HL].
  destruct HL as (w1' & -> & HP1). rewrite exec_one. eapply doPop_pushed; [|done].
  by rewrite (keeps_frame_sink _ _ _ _ _ Es).
Qed.

(** *** Increments of fields *)

Section Numbers.

Context (w : World) (cur : loc) (f : Frame) (s : list oop).
Hypothesis Hf : heap w !! cur = Some (OFrame f).
Notation w' := (put_frame cur (with_slots s f) w).

Lemma reads_known : reads (gets known) w w'.
Proof using Type. done. Qed.

Lemma reads_small_int v : reads (small_int USE_TAGGING v) w w'.
Proof using Hf.
  destruct v; try done. cbn. case_match; [done|]. by apply reads_object.
Qed.

Lemma reads_as_double v : reads (as_double v) w w'.
Proof using Hf. destruct v; try done. by apply reads_object. Qed.

Lemma reads_CLASS_OF v : reads (CLASS_OF v) w w'.
Proof using Hf.
  destruct v; [done|done|]. apply (reads_object w cur f s Hf); [done|].
  intros o. unfold GetClass. apply reads_bind; [done|]. intros k _. by destruct o.
Qed.

End Numbers.

Lemma lifts_new cur x w w' o :
  pushed cur x w w' -> cur <> next w -> lifts cur x (l ← alloc o; mret (Ref l)) w w'.
Proof.
  intros HP Hne. apply lifts_bind; [by apply lifts_alloc|]. intros. by apply lifts_ret.
Qed.

Lemma lifts_NEW_INT cur x w w' z :
  pushed cur x w w' -> cur <> next w -> lifts cur x (NEW_INT USE_TAGGING z) w w'.
Proof.
  intros HP Hne. unfold NEW_INT. destruct USE_TAGGING; [|by apply lifts_new].
  destruct (within_tagged_range z); [by apply lifts_ret|by apply lifts_new].
Qed.

Lemma lifts_increment cur x w w' delta v :
  pushed cur x w w' -> cur <> next w -> lifts cur x (increment USE_TAGGING delta v) w w'.
Proof.
  intros HP Hne. unfold increment. pose proof HP as (f & Hf & E).
  apply lifts_read_bind; [done|rewrite E; by apply reads_small_int|]. intros [z|] _.
  - case_match; [done|]. by apply lifts_NEW_INT.
  - apply lifts_read_bind; [done|rewrite E; by apply reads_CLASS_OF|]. intros cls _.
    apply lifts_read_bind; [done|by rewrite E|]. intros k _.
    case_match; [|done].
    apply lifts_read_bind; [done|rewrite E; by apply reads_as_double|]. intros [d|] _; [|done].
    by apply lifts_new.
Qed.

(** At most one object is allocated. *)
Definition allocated (w w1 : World) : Prop :=
  w1 = w \/ exists o, w1 = set_next (S (next w)) (put_obj (next w) o w).

Lemma NEW_INT_allocates z w v w1 : NEW_INT USE_TAGGING z w = Ok (v, w1) -> allocated w w1.
Proof.
  unfold NEW_INT. repeat case_match; intros E.
  - left. by injection E.
  - right. injection E as _ <-. eauto.
  - right. injection E as _ <-. eauto.
Qed.

Lemma reads_same {A} (m : V A) w a w1 : reads m w w -> m w = Ok (a, w1) -> w1 = w.
Proof. unfold reads. intros H E. rewrite E in H. by destruct H. Qed.

Lemma reads_refl {A} (m : V A) w cur f :
  heap w !! cur = Some (OFrame f) -> (forall s, reads m w (put_frame cur (with_slots s f) w)) ->
  reads m w w.
Proof.
  intros Hf H. specialize (H (f_slots f)). by rewrite with_slots_id, put_obj_id in H.
Qed.

Lemma increment_allocates w cur f delta v v' w1 :
  heap w !! cur = Some (OFrame f) ->
  increment USE_TAGGING delta v w = Ok (v', w1) -> allocated w w1.
Proof.
  intros Hf H. unfold increment in H. apply bind_Ok in H as (i & w2 & H1 & H).
  apply reads_same in H1; [|eapply reads_refl; [done|]; intros; by apply reads_small_int].
  subst w2. destruct i as [z|].
  - case_match; [done|]. by eapply NEW_INT_allocates.
  - apply bind_Ok in H as (cls & w2 & H1 & H).
    apply reads_same in H1; [|eapply reads_refl; [done|]; intros; by apply reads_CLASS_OF].
    subst w2. apply bind_Ok in H as (k & w2 & H1 & H). injection H1 as _ <-.
    case_match; [|done]. apply bind_Ok in H as (d & w2 & H1 & H).
    apply reads_same in H1; [|eapply reads_refl; [done|]; intros; by apply reads_as_double].
    subst w2. destruct d; [|done]. right. injection H as _ <-. eauto.
Qed.

Lemma allocated_keeps w w1 l o :
  allocated w w1 -> (forall l o, heap w !! l = Some o -> (l < next w)%nat) ->
  heap w !! l = Some o -> heap w1 !! l = Some o.
Proof.
  intros [->|[o' ->]] Hfr Hl; [done|]. cbn. rewrite lookup_insert_ne; [done|].
  specialize (Hfr _ _ Hl). lia.
Qed.

Lemma allocated_fresh w w1 :
  allocated w w1 -> (forall l o, heap w !! l = Some o -> (l < next w)%nat) ->
  forall l o, heap w1 !! l = Some o -> (l < next w1)%nat.
Proof.
  intros [->|[o' ->]] Hfr l o Hl; [by eapply Hfr|]. cbn in *.
  destruct (decide (l = next w)) as [->|]; [lia|].
  rewrite lookup_insert_ne in Hl by done. specialize (Hfr _ _ Hl). lia.
Qed.

Lemma allocated_frame w w1 : allocated w w1 -> frame w1 = frame w /\ (next w <= next w1)%nat.
Proof. intros [->|[o ->]]; cbn; auto with lia. Qed.

Lemma load_frame_Ok w l g w1 :
  load_frame l w = Ok (g, w1) -> heap w !! l = Some (OFrame g) /\ w1 = w.
Proof.
  unfold load_frame, load, mbind, stateful_bind. destruct (heap w !! l) as [[]|]; try done.
  intros E. by injection E as <- <-.
Qed.

Lemma outer_context_same n l w c w1 : outer_context n l w = Ok (c, w1) -> w1 = w.
Proof.
  revert l. induction n as [|n IH]; intros l H; [done|]. cbn [outer_context] in H.
  apply bind_Ok in H as (g & w2 & H1 & H). apply load_frame_Ok in H1 as [_ ->].
  destruct (f_context g); [by eapply IH|]. by injection H.
Qed.

Section Larger.

Context (w w1 : World).
Hypothesis Hkeep : forall l o, heap w !! l = Some o -> heap w1 !! l = Some o.

Lemma outer_context_larger n m l c w2 :
  outer_context n l w = Ok (c, w2) -> (n <= m)%nat -> outer_context m l w1 = Ok (c, w1).
Proof using Hkeep.
  revert m l. induction n as [|n IH]; intros m l H Hm; [done|].
  destruct m as [|m]; [lia|]. cbn [outer_context] in *.
  apply bind_Ok in H as (g & w3 & H1 & H2). apply load_frame_Ok in H1 as [Hg ->].
  erewrite bind_step by (apply load_frame_step, Hkeep, Hg).
  destruct (f_context g).
  - apply IH; [done|lia].
  - by injection H2 as <- _.
Qed.

Lemma GetSelf_larger self w2 :
  frame w1 = frame w -> (next w <= next w1)%nat ->
  GetSelf w = Ok (self, w2) -> GetSelf w1 = Ok (self, w1).
Proof using Hkeep.
  intros Hc Hn H. unfold GetSelf, GetFrame, GetOuterContext, heap_fuel in *.
  apply bind_Ok in H as (l & w3 & H1 & H). apply bind_Ok in H1 as (cl & w4 & E & H1).
  injection E as <- <-. unfold lift in H1. destruct (frame w) as [l'|] eqn:E; [|done].
  injection H1 as -> <-. apply bind_Ok in H as (c & w3 & H1 & H2).
  apply bind_Ok in H1 as (n & w4 & E2 & H1). injection E2 as <- <-.
  unfold GetArgumentInCurrentContext, read_slot in *.
  apply bind_Ok in H2 as (g & w4 & H2 & H3).
  erewrite bind_step.
  2:{ erewrite bind_step by apply gets_step. by rewrite Hc. }
  erewrite bind_step.
  2:{ erewrite bind_step by apply gets_step.
      eapply outer_context_larger; [done|lia]. }
  apply outer_context_same in H1 as ->.
  apply load_frame_Ok in H2 as [Hg ->].
  erewrite bind_step by (apply load_frame_step, Hkeep, Hg).
  unfold lift in *. destruct (of_option _ _); [|done]. by injection H3 as <- _.
Qed.

End Larger.

(** What [BC_INC_FIELD] and [BC_INC_FIELD_PUSH] have in common. *)
Definition bump (n : Z) : V oop :=
  self ← GetSelf;
  val ← get_field_of USE_TAGGING self n;
  val ← increment USE_TAGGING 1 val;
  SetField self n val;;
  mret val.

Lemma doIncField_bump n w : doIncField USE_TAGGING n w = (bump n;; mret tt) w.
Proof.
  unfold doIncField, bump. unfold mbind, stateful_bind.
  destruct (GetSelf w) as [[self w1]|]; [|done].
  destruct (get_field_of _ _ _ _) as [[val w2]|]; [|done].
  destruct (increment _ _ _ _) as [[val' w3]|]; [|done].
  by destruct (SetField _ _ _ _) as [[[] w4]|].
Qed.

Lemma doIncFieldPush_bump n w : doIncFieldPush USE_TAGGING n w = (bump n ≫= push) w.
Proof.
  unfold doIncFieldPush, bump. unfold mbind, stateful_bind.
  destruct (GetSelf w) as [[self w1]|]; [|done].
  destruct (get_field_of _ _ _ _) as [[val w2]|]; [|done].
  destruct (increment _ _ _ _) as [[val' w3]|]; [|done].
  by destruct (SetField _ _ _ _) as [[[] w4]|].
Qed.

Lemma SetField_keeps w cur f self n v w1 :
  heap w !! cur = Some (OFrame f) -> SetField self n v w = Ok (tt, w1) ->
  heap w1 !! cur = Some (OFrame f) /\ next w1 = next w /\
  (forall l, is_Some (heap w1 !! l) -> is_Some (heap w !! l)).
Proof.
  intros Hf H. unfold SetField in H. destruct self as [| |l]; [done|done|].
  apply bind_Ok in H as (l' & w2 & E & H). injection E as <- <-.
  apply bind_Ok in H as (o & w2 & E & H). unfold load in E.
  destruct (heap w !! l) as [o'|] eqn:El; [|done]. injection E as -> <-.
  destruct o as [| | | | |k c fields| | | |]; try done. case_match; [|done].
  unfold store in H. rewrite El in H. injection H as <-. cbn. split_and!; [|done|].
  - rewrite lookup_insert_ne; congruence.
  - intros d Hd. destruct (decide (d = l)) as [->|]; [rewrite El; eauto|].
    by rewrite lookup_insert_ne in Hd.
Qed.

Lemma GetSelf_same w self w1 : GetSelf w = Ok (self, w1) -> w1 = w.
Proof.
  intros H. unfold GetSelf, GetFrame, GetOuterContext, heap_fuel in H.
  apply bind_Ok in H as (l & w3 & H1 & H). apply bind_Ok in H1 as (cl & w4 & E & H1).
  injection E as <- <-. unfold lift in H1. destruct (frame w) as [l'|] eqn:E; [|done].
  injection H1 as -> <-. apply bind_Ok in H as (c & w3 & H1 & H2).
  apply bind_Ok in H1 as (n & w4 & E2 & H1). injection E2 as <- <-.
  apply outer_context_same in H1 as ->.
  apply bind_Ok in H2 as (g & w4 & H2 & H3). apply load_frame_Ok in H2 as [_ ->].
  unfold lift in H3. by destruct (of_option _ _); simplify_eq.
Qed.

Lemma get_field_of_same w self n v w1 :
  get_field_of USE_TAGGING self n w = Ok (v, w1) -> w1 = w.
Proof.
  unfold get_field_of, GetField. case_match; [done|]. intros H'.
  apply bind_Ok in H' as (o & w2 & E & H').
  destruct self; [done|done|]. cbn in E. unfold load in E. destruct (heap w !! l); [|done].
  injection E as -> <-. destruct o; try discriminate H'.
  unfold lift in H'. case_match; [done|]. by destruct (of_option _ _); simplify_eq.
Qed.

(** The steps of [bump] when it succeeds. *)
Lemma bump_Ok w cur f k n v w2 :
  ready w cur f k -> bump n w = Ok (v, w2) ->
  exists self val w1, GetSelf w = Ok (self, w) /\ get_field_of USE_TAGGING self n w = Ok (val, w) /\
    increment USE_TAGGING 1 val w = Ok (v, w1) /\ allocated w w1 /\
    SetField self n v w1 = Ok (tt, w2).
Proof.
  intros [Hc Hf _ _ _] H. unfold bump in H.
  apply bind_Ok in H as (self & w1 & H1 & H). pose proof (GetSelf_same _ _ _ H1) as ->.
  apply bind_Ok in H as (val & w1 & H2 & H). pose proof (get_field_of_same _ _ _ _ _ H2) as ->.
  apply bind_Ok in H as (v' & w1 & H3 & H). apply bind_Ok in H as ([] & w3 & H4 & H).
  injection H as -> ->. exists self, val, w1. split_and!; try done.
  by eapply increment_allocates.
Qed.

Lemma bump_ready w cur f k n v w2 :
  ready w cur f k -> bump n w = Ok (v, w2) -> ready w2 cur f k.
Proof.
  intros HR H. destruct (bump_Ok _ _ _ _ _ _ _ HR H) as (self & val & w1 & _ & _ & _ & Ha & Hs).
  destruct HR as [Hc Hf Hn Hr Hfr].
  pose proof (allocated_keeps _ _ _ _ Ha Hfr Hf) as Hf1.
  destruct (SetField_keeps _ _ _ _ _ _ _ Hf1 Hs) as (Hf2 & Hn2 & Hd).
  split; try done.
  - rewrite (keeps_frame_SetField _ _ _ _ _ _ Hs).
    by destruct (allocated_frame _ _ Ha) as [-> _].
  - intros l o Hl. rewrite Hn2. destruct (Hd l) as [o' Ho]; [by exists o|].
    by eapply allocated_fresh.
Qed.

(** Incrementing a field and dropping the value. *)
Lemma inc_push_pop fuel n w cur f k :
  ready w cur f k ->
  exec_all fuel [mkInstr BC_INC_FIELD_PUSH [n]; mkInstr BC_POP []] w =
  exec_all fuel [mkInstr BC_INC_FIELD [n]] w.
Proof.
  intros HR. change [mkInstr BC_INC_FIELD_PUSH [n]; mkInstr BC_POP []]
    with ([mkInstr BC_INC_FIELD_PUSH [n]] ++ [mkInstr BC_POP []]).
  rewrite exec_all_app, exec_one. unfold mbind, stateful_bind. rewrite exec_one.
  change (exec fuel (mkInstr BC_INC_FIELD_PUSH [n]) w) with (doIncFieldPush USE_TAGGING n w).
  change (exec fuel (mkInstr BC_INC_FIELD [n]) w) with (doIncField USE_TAGGING n w).
  rewrite doIncField_bump, doIncFieldPush_bump.
  destruct (bump n w) as [[v w2]|e] eqn:E; [|unfold mbind, stateful_bind; by rewrite E].
  rewrite !(bind_step _ _ _ _ _ E).
  destruct (bump_ready _ _ _ _ _ _ _ HR E) as [Hc Hf Hn Hr _].
  rewrite (push_step _ cur f) by (done || lia).
  rewrite exec_one. apply (doPop_pushed cur v); [done|]. by exists f.
Qed.

(** The field that an instruction pushes, or pops into. *)
Definition field_push (i : instr) : option Z :=
  match i_op i, i_args i with
  | BC_PUSH_FIELD, [a] => Some a
  | BC_PUSH_FIELD_0, [] => Some 0
  | BC_PUSH_FIELD_1, [] => Some 1
  | _, _ => None
  end.
Definition field_pop (i : instr) : option Z :=
  match i_op i, i_args i with
  | BC_POP_FIELD, [a] => Some a
  | BC_POP_FIELD_0, [] => Some 0
  | BC_POP_FIELD_1, [] => Some 1
  | _, _ => None
  end.

Lemma exec_field_push fuel i n :
  field_push i = Some n -> exec fuel i = doPushFieldWithIndex USE_TAGGING n.
Proof.
  destruct i as [op args]. unfold field_push, Instructions.exec. cbn [i_op i_args].
  destruct op; try discriminate; destruct args as [|a [|]]; try discriminate;
    intros E; by injection E as <-.
Qed.

Lemma sink_field_pop i n v :
  field_pop i = Some n -> pops_something (i_op i) = true /\ sink i v = store_field n v.
Proof.
  destruct i as [op args]. unfold field_pop, sink. cbn [i_op i_args].
  destruct op; try discriminate; destruct args as [|a [|]]; try discriminate;
    intros E; by injection E as <-.
Qed.

(** Incrementing the top of the stack. *)
Lemma doInc_pushed cur x w w' v w1 f :
  frame w = Some cur -> cur <> next w -> pushed cur x w w' ->
  increment USE_TAGGING 1 x w = Ok (v, w1) ->
  heap w1 !! cur = Some (OFrame f) ->
  doInc USE_TAGGING w' = Ok (tt, put_frame cur (with_slots (f_slots f ++ [v]) f) w1).
Proof.
  intros Hc Hne HP Hi Hf. pose proof (lifts_increment _ _ _ _ 1 x HP Hne) as HL.
  unfold lifts in HL. rewrite Hi in HL. destruct HL as (w1' & Hi' & f1 & Hf1 & ->).
  assert (f1 = f) as -> by congruence.
  destruct HP as (g & Hg & ->). unfold doInc.
  erewrite bind_step by (by apply GetFrame_step).
  erewrite bind_step by (eapply Top_step; [apply put_obj_eq|done]).
  erewrite bind_step by exact Hi'.
  erewrite SetTop_step; [|apply put_obj_eq|done]. by rewrite put_obj_twice.
Qed.

Lemma doInc_pushed_Err cur x w w' e :
  frame w = Some cur -> cur <> next w -> pushed cur x w w' ->
  increment USE_TAGGING 1 x w = Err e -> doInc USE_TAGGING w' = Err e.
Proof.
  intros Hc Hne HP Hi. pose proof (lifts_increment _ _ _ _ 1 x HP Hne) as HL.
  unfold lifts in HL. rewrite Hi in HL. destruct HP as (g & Hg & ->). unfold doInc.
  erewrite bind_step by (by apply GetFrame_step).
  erewrite bind_step by (eapply Top_step; [apply put_obj_eq|done]).
  unfold mbind, stateful_bind. by rewrite HL.
Qed.

Lemma get_field_of_untagged self n w r :
  get_field_of USE_TAGGING self n w = Ok r -> IS_TAGGED USE_TAGGING self = false.
Proof. unfold get_field_of. by case_match. Qed.

(** [store_field] once the receiver is known. *)
Lemma store_field_self self n v w :
  GetSelf w = Ok (self, w) -> IS_TAGGED USE_TAGGING self = false ->
  store_field n v w = SetField self n v w.
Proof. intros Hs Ht. unfold store_field. erewrite bind_step by done. by rewrite Ht. Qed.

(** From the incremented value on the stack on: what [BC_INC_FIELD_PUSH] does last. *)
Lemma dup_store_field fuel q n w cur f k w1 self v :
  ready w cur f k -> field_pop q = Some n -> allocated w w1 ->
  GetSelf w = Ok (self, w) -> IS_TAGGED USE_TAGGING self = false ->
  exec_all fuel [mkInstr BC_DUP []; q] (put_frame cur (with_slots (f_slots f ++ [v]) f) w1) =
    (SetField self n v;; push v) w1.
Proof.
  intros HR Hq Ha Hs Ht. pose proof HR as [Hc Hf Hn Hr Hfr].
  destruct (sink_field_pop q n v Hq) as [Hp Esink].
  pose proof (allocated_keeps _ _ _ _ Ha Hfr Hf) as Hf1.
  destruct (allocated_frame _ _ Ha) as [Hc1 Hn1].
  set (w1v := put_frame cur _ w1).
  assert (pushed cur v w1 w1v) as HP by by exists f.
  rewrite (dup_sink fuel q w1v cur (with_slots (f_slots f ++ [v]) f) (f_slots f) v).
  2:{ unfold w1v. cbn. congruence. }
  2:{ apply put_obj_eq. }
  2:{ done. }
  2:{ cbn. rewrite length_app. cbn. lia. }
  2:{ done. }
  rewrite Esink. assert (GetSelf w1 = Ok (self, w1)) as Hs1.
  { eapply GetSelf_larger; [|done|done|done]. intros l o. by apply allocated_keeps. }
  pose proof (lifts_store_field cur v w1 w1v f n v HP Hf1 ltac:(lia)) as HL.
  unfold lifts in HL. rewrite (store_field_self self n v w1 Hs1 Ht) in HL.
  destruct (SetField self n v w1) as [[[] w2]|e] eqn:E.
  - rewrite (bind_step _ _ _ _ _ E). destruct HL as (w2' & -> & f2 & Hf2 & ->).
    destruct (SetField_keeps _ _ _ _ _ _ _ Hf1 E) as (Hf2' & _).
    assert (f2 = f) as -> by congruence.
    rewrite (push_step _ cur f); [done| |done|lia].
    by rewrite (keeps_frame_SetField _ _ _ _ _ _ E), Hc1.
  - unfold mbind, stateful_bind. by rewrite E.
Qed.

(** Pushing a field, incrementing it and storing it back, with the value left on the
    stack. *)
Lemma inc_field_sequence fuel p q n w cur f k :
  ready w cur f k -> field_push p = Some n -> field_pop q = Some n ->
  exec_all fuel [p; mkInstr BC_INC []; mkInstr BC_DUP []; q] w =
  exec_all fuel [mkInstr BC_INC_FIELD_PUSH [n]] w.
Proof.
  intros HR Hp Hq. pose proof HR as [Hc Hf Hn Hr Hfr]. rewrite exec_one.
  change (exec fuel (mkInstr BC_INC_FIELD_PUSH [n]) w) with (doIncFieldPush USE_TAGGING n w).
  change [p; mkInstr BC_INC []; mkInstr BC_DUP []; q]
    with ([p] ++ [mkInstr BC_INC []] ++ [mkInstr BC_DUP []; q]).
  rewrite exec_all_app. unfold mbind, stateful_bind. rewrite exec_one, (exec_field_push _ _ _ Hp).
  unfold doPushFieldWithIndex, doIncFieldPush.
  destruct (GetSelf w) as [[self w1]|e] eqn:Hs; [|unfold mbind, stateful_bind; by rewrite Hs].
  pose proof (GetSelf_same _ _ _ Hs) as ->. rewrite !(bind_step _ _ _ _ _ Hs).
  destruct (get_field_of USE_TAGGING self n w) as [[val w1]|e] eqn:Hv;
    [|unfold mbind, stateful_bind; by rewrite Hv].
  pose proof (get_field_of_same _ _ _ _ _ Hv) as ->. rewrite !(bind_step _ _ _ _ _ Hv).
  rewrite (push_step _ cur f) by (done || lia).
  assert (cur <> next w) as Hne by (specialize (Hfr _ _ Hf); lia).
  set (w' := put_frame cur _ w). assert (pushed cur val w w') as HP by by exists f.
  rewrite exec_all_app. unfold mbind at 1, stateful_bind at 1. rewrite exec_one.
  change (exec fuel (mkInstr BC_INC []) w') with (doInc USE_TAGGING w').
  destruct (increment USE_TAGGING 1 val w) as [[v w1]|e] eqn:Hi.
  - pose proof (increment_allocates _ _ _ _ _ _ _ Hf Hi) as Ha.
    rewrite (doInc_pushed cur val w w' v w1 f); [|done|done|done|done|by eapply allocated_keeps].
    rewrite (bind_step _ _ _ _ _ Hi).
    eapply dup_store_field; [done|done|done|done|by eapply get_field_of_untagged].
  - rewrite (doInc_pushed_Err cur val w w' e) by done.
    unfold mbind, stateful_bind. by rewrite Hi.
Qed.

(** Returning a field. *)
Lemma push_field_return fuel p r n w cur f k :
  ready w cur f k -> field_push p = Some n ->
  exec fuel r = doReturnFieldWithIndex USE_TAGGING n ->
  exec_all fuel [p; mkInstr BC_RETURN_LOCAL []] w = exec_all fuel [r] w.
Proof.
  intros [Hc Hf Hn Hr Hfr] Hp Er. rewrite exec_one, Er.
  change [p; mkInstr BC_RETURN_LOCAL []] with ([p] ++ [mkInstr BC_RETURN_LOCAL []]).
  rewrite exec_all_app. unfold mbind at 1, stateful_bind at 1.
  rewrite exec_one, (exec_field_push _ _ _ Hp).
  unfold doPushFieldWithIndex, doReturnFieldWithIndex.
  destruct (GetSelf w) as [[self w1]|e] eqn:Hs; [|unfold mbind, stateful_bind; by rewrite Hs].
  pose proof (GetSelf_same _ _ _ Hs) as ->. rewrite !(bind_step _ _ _ _ _ Hs).
  destruct (get_field_of USE_TAGGING self n w) as [[val w1]|e] eqn:Hv;
    [|unfold mbind, stateful_bind; by rewrite Hv].
  pose proof (get_field_of_same _ _ _ _ _ Hv) as ->. rewrite !(bind_step _ _ _ _ _ Hv).
  rewrite (push_step _ cur f) by (done || lia). rewrite exec_one.
  change (exec fuel (mkInstr BC_RETURN_LOCAL [])) with doReturnLocal. unfold doReturnLocal.
  erewrite bind_step; [done|]. eapply pop_pushed; [done|]. by exists f.
Qed.

(** *** Returns of the receiver

    Here the exchanged sequences differ in what they leave on the stack of the frame
    that is left. *)

Section Leaving.

Context (cur : loc) (x : oop).

Lemma lifts_cur {A} (k : Frame -> V A) w w' f :
  pushed cur x w w' -> heap w !! cur = Some (OFrame f) ->
  (forall s, k (with_slots s f) = k f) -> lifts cur x (k f) w w' ->
  lifts cur x (load_frame cur ≫= k) w w'.
Proof.
  intros (g & Hg & ->) Hf Hk H. assert (g = f) as -> by congruence. unfold lifts in *.
  rewrite (bind_step _ _ _ _ _ (load_frame_step _ _ _ Hf)).
  rewrite (bind_step _ _ _ _ _ (load_frame_step _ _ _ (put_obj_eq _ _ _))). by rewrite Hk.
Qed.

Lemma lifts_load_other {A} l (k : obj -> V A) w w' :
  pushed cur x w w' -> l <> cur -> (forall o, heap w !! l = Some o -> lifts cur x (k o) w w') ->
  lifts cur x (load l ≫= k) w w'.
Proof.
  intros HP Hne Hk. apply lifts_read_bind; [done| |].
  - destruct HP as (f & Hf & ->). apply reads_load. by rewrite put_obj_ne.
  - intros o Ho. apply Hk. unfold load in Ho. by destruct (heap w !! l); simplify_eq.
Qed.

Lemma lifts_frame_other {A} l (k : Frame -> V A) w w' :
  pushed cur x w w' -> l <> cur ->
  (forall g, heap w !! l = Some (OFrame g) -> lifts cur x (k g) w w') ->
  lifts cur x (load_frame l ≫= k) w w'.
Proof.
  intros HP Hne Hk. unfold lifts. unfold load_frame. rewrite !bind_assoc.
  apply (lifts_load_other l (fun o => (match o with OFrame f => mret f | _ => fail Undef end) ≫= k));
    [done|done|].
  intros [] Ho; try done. by apply Hk.
Qed.

Lemma lifts_modify (g : World -> World) w w' :
  pushed cur x w w' -> (forall h v, g (set_heap h v) = set_heap h (g v)) ->
  lifts cur x (modify g) w w'.
Proof.
  intros (f & Hf & ->) Hg. unfold lifts. cbn. eexists. split; [done|]. exists f.
  assert (forall v, heap (g v) = heap v) as Hh.
  { intros v. assert (v = set_heap (heap v) v) as E by by destruct v.
    rewrite E, Hg. by destruct (g v), v. }
  rewrite Hh. split; [done|]. unfold put_obj. rewrite Hg. by rewrite Hh.
Qed.

Lemma lifts_update_cur (g : Frame -> Frame) w w' :
  pushed cur x w w' -> (forall s f, g (with_slots s f) = with_slots s (g f)) ->
  (forall f, f_slots (g f) = f_slots f) -> lifts cur x (update_frame cur g) w w'.
Proof.
  intros (f & Hf & ->) Hg Hs. unfold lifts.
  erewrite update_frame_step by done. eexists. split; [eapply update_frame_step, put_obj_eq|].
  exists (g f). split; [apply put_obj_eq|]. by rewrite !put_obj_twice, Hg, Hs.
Qed.

(** Pushing to and popping from the stack of another frame. *)
Lemma lifts_Push_other l v w w' : pushed cur x w w' -> l <> cur -> lifts cur x (Push l v) w w'.
Proof.
  intros HP Hne. apply lifts_frame_other; [done|done|]. intros g _.
  case_match; [|done]. by apply lifts_store.
Qed.

Lemma lifts_pop_n_other n l w w' : pushed cur x w w' -> l <> cur -> lifts cur x (pop_n n l) w w'.
Proof.
  revert w w'. induction n as [|n IH]; intros w w' HP Hne; [by apply lifts_ret|].
  cbn [pop_n]. apply lifts_bind; [|intros _ w1 w1' _ HP1; by apply IH].
  apply lifts_bind; [|intros; by apply lifts_ret].
  apply lifts_frame_other; [done|done|]. intros g _. case_match; [|done].
  apply lifts_bind; [by apply lifts_store|]. intros. by apply lifts_ret.
Qed.

Lemma lifts_SetFrame l w w' :
  pushed cur x w w' -> frame w = Some cur -> l <> cur -> lifts cur x (SetFrame l) w w'.
Proof.
  intros HP Hc Hne. unfold SetFrame.
  apply lifts_read_bind; [done|by destruct HP as (f & Hf & ->)|]. intros o Ho.
  injection Ho as <-. rewrite Hc.
  apply lifts_read_bind; [done|by destruct HP as (f & Hf & ->)|]. intros i _.
  apply lifts_bind; [by apply lifts_update_cur|]. intros _ w1 w1' _ HP1.
  apply lifts_frame_other; [done|done|]. intros g _. by apply lifts_modify.
Qed.

Lemma lifts_popFrame w w' f :
  pushed cur x w w' -> frame w = Some cur -> heap w !! cur = Some (OFrame f) ->
  f_previous f <> Some cur -> lifts cur x popFrame w w'.
Proof.
  intros HP Hc Hf Hne. unfold popFrame.
  apply lifts_read_bind; [done|by eapply lifts_GetFrame|]. intros l Hl.
  rewrite (GetFrame_step _ _ Hc) in Hl. injection Hl as <-.
  eapply lifts_cur; [done|done|done|].
  apply lifts_read_bind; [done|apply reads_lift|]. intros prev Hp.
  unfold lift in Hp. destruct (f_previous f) as [prev'|] eqn:E; [|done].
  injection Hp as ->.
  apply lifts_bind; [apply lifts_SetFrame; [done|done|congruence]|]. intros _ w1 w1' _ HP1.
  apply lifts_bind; [by apply lifts_update_cur|]. intros _ w2 w2' _ HP2. by apply lifts_ret.
Qed.

Lemma popFrame_Ok w f a w1 :
  frame w = Some cur -> heap w !! cur = Some (OFrame f) -> f_previous f <> Some cur ->
  popFrame w = Ok (a, w1) ->
  a = cur /\ exists prev, prev <> cur /\ frame w1 = Some prev /\
    heap w1 !! cur = Some (OFrame (left_frame w f)).
Proof.
  intros Hc Hf Hne H.
  assert (exists prev g, f_previous f = Some prev /\ heap w !! prev = Some (OFrame g))
    as (prev & g & Hp & Hg).
  { unfold popFrame in H. erewrite bind_step in H by (by apply GetFrame_step).
    erewrite bind_step in H by (by apply load_frame_step).
    apply bind_Ok in H as (prev & w2 & E & H). unfold lift in E.
    destruct (f_previous f) as [prev'|] eqn:Ep; [|done]. injection E as -> <-.
    apply bind_Ok in H as (u & w3 & H & _). unfold SetFrame in H.
    do 2 erewrite bind_step in H by apply gets_step. rewrite Hc in H.
    erewrite bind_step in H by (by apply update_frame_step).
    apply bind_Ok in H as (g & w2 & H & _). apply load_frame_Ok in H as [H _].
    rewrite put_obj_ne in H by congruence. eauto. }
  rewrite (popFrame_step w cur f prev g) in H by congruence. injection H as <- <-.
  split; [done|]. exists prev. split_and!; [congruence|done|apply put_obj_eq].
Qed.

Lemma lifts_popFrameAndPushResult w w' f r :
  pushed cur x w w' -> frame w = Some cur -> heap w !! cur = Some (OFrame f) ->
  f_previous f <> Some cur -> lifts cur x (popFrameAndPushResult r) w w'.
Proof.
  intros HP Hc Hf Hne. unfold popFrameAndPushResult.
  apply lifts_bind; [by eapply lifts_popFrame|]. intros a w1 w1' E HP1.
  destruct (popFrame_Ok w f a w1 Hc Hf Hne E) as (-> & prev & Hpc & Hc1 & Hf1).
  eapply lifts_cur; [done|done|done|].
  apply lifts_read_bind; [done| |].
  { destruct HP1 as (g & Hg & ->). apply (reads_object _ _ _ _ Hg); [done|]. by intros []. }
  intros m _. apply lifts_read_bind; [done|by eapply lifts_GetFrame|]. intros l Hl.
  rewrite (GetFrame_step _ _ Hc1) in Hl. injection Hl as <-.
  apply lifts_bind; [by apply lifts_pop_n_other|]. intros _ w2 w2' _ HP2.
  by apply lifts_Push_other.
Qed.

Lemma lifts_doReturnSelf w w' f :
  pushed cur x w w' -> frame w = Some cur -> heap w !! cur = Some (OFrame f) ->
  (0 < length (f_slots f))%nat ->
  f_previous f <> Some cur -> lifts cur x doReturnSelf w w'.
Proof.
  intros HP Hc Hf Hn Hne. unfold doReturnSelf.
  apply lifts_read_bind; [done|by eapply lifts_GetFrame|]. intros l Hl.
  rewrite (GetFrame_step _ _ Hc) in Hl. injection Hl as <-.
  apply lifts_read_bind; [done| |].
  { destruct HP as (g & Hg & ->). apply (reads_slot _ _ _ _ Hg). intros _.
    assert (g = f) as -> by congruence. by rewrite lookup_app_l. }
  intros self _. by eapply lifts_popFrameAndPushResult.
Qed.

End Leaving.

(** The caller of a frame and the number of its slots stay the same. *)
Definition frames_stay {A} (m : V A) : Prop := forall w a w' l f,
  m w = Ok (a, w') -> heap w !! l = Some (OFrame f) ->
  exists f', heap w' !! l = Some (OFrame f') /\ f_previous f' = f_previous f /\
    length (f_slots f') = length (f_slots f).

Lemma frames_stay_bind {A B} (m : V A) (k : A -> V B) :
  frames_stay m -> (forall a, frames_stay (k a)) -> frames_stay (m ≫= k).
Proof.
  intros Hm Hk w b w' l f H Hf. apply bind_Ok in H as (a & w1 & H1 & H2).
  destruct (Hm _ _ _ _ _ H1 Hf) as (f1 & Hf1 & E1 & E2).
  destruct (Hk _ _ _ _ _ _ H2 Hf1) as (f2 & Hf2 & E3 & E4).
  exists f2. split_and!; [done|congruence|congruence].
Qed.

Lemma frames_stay_same {A} (m : V A) : (forall w a w', m w = Ok (a, w') -> w' = w) -> frames_stay m.
Proof. intros H w a w' l f E Hf. rewrite (H _ _ _ E). eauto. Qed.

Lemma frames_stay_write_slot c i v : frames_stay (write_slot c i v).
Proof.
  intros w a w' l f H Hf. unfold write_slot in H. apply bind_Ok in H as (g & w1 & H1 & H).
  apply load_frame_Ok in H1 as [Hg ->]. case_match; [|done].
  rewrite (store_frame _ _ _ Hg) in H. injection H as _ <-.
  destruct (decide (l = c)) as [->|].
  - assert (g = f) as -> by congruence. eexists. split; [apply put_obj_eq|]. cbn.
    by rewrite length_insert.
  - exists f. by rewrite put_obj_ne.
Qed.

Lemma frames_stay_SetField self n v : frames_stay (SetField self n v).
Proof.
  intros w [] w' l f H Hf. exists f. split; [|done].
  by destruct (SetField_keeps _ _ _ _ _ _ _ Hf H) as (? & _).
Qed.

Lemma GetFrame_same w l w1 : GetFrame w = Ok (l, w1) -> w1 = w.
Proof.
  unfold GetFrame, mbind, stateful_bind, gets, lift. destruct (frame w); [|done].
  intros E. by injection E.
Qed.

Lemma GetContextLevel_same n l w c w1 : GetContextLevel n l w = Ok (c, w1) -> w1 = w.
Proof.
  revert l. induction n as [|n IH]; intros l H; [by injection H|]. cbn [GetContextLevel] in H.
  apply bind_Ok in H as (g & w2 & H1 & H). apply load_frame_Ok in H1 as [_ ->].
  apply bind_Ok in H as (d & w2 & H1 & H). unfold lift in H1.
  destruct (f_context g); [|done]. injection H1 as _ <-. by eapply IH.
Qed.

Lemma frames_stay_sink i v : frames_stay (sink i v).
Proof.
  assert (forall c j, frames_stay (SetLocalInCurrentContext c j v)) as HL.
  { intros c j. apply frames_stay_bind; [|intros; apply frames_stay_write_slot].
    apply frames_stay_same. intros w g w' H. by apply load_frame_Ok in H as [_ ->]. }
  assert (forall n, frames_stay (store_field n v)) as HF.
  { intros n. apply frames_stay_bind; [apply frames_stay_same; intros ? ? ?; apply GetSelf_same|].
    intros self. case_match; [by intros ? ? ? ? ? ?|]. apply frames_stay_SetField. }
  assert (forall n l, frames_stay (GetContextLevel n l)) as HC.
  { intros. apply frames_stay_same. intros ? ? ?. apply GetContextLevel_same. }
  assert (frames_stay GetFrame) as HG by (apply frames_stay_same; intros ? ? ?; apply GetFrame_same).
  unfold sink, SetLocal, SetArgument, SetArgumentInCurrentContext.
  repeat case_match; try (by intros ? ? ? ? ? ?);
    repeat first [ apply HL | apply HF | apply HC | apply HG | apply frames_stay_write_slot
                 | apply frames_stay_bind; [|intros ?] ].
Qed.

(** The results agree but for an element [x] on the stack of the frame that was left. *)
Definition agree (cur : loc) (r r' : result (() * World)) : Prop :=
  match r with
  | Ok (_, w1) => exists x w1', r' = Ok (tt, w1') /\ pushed cur x w1 w1'
  | Err e => r' = Err e
  end.

Lemma dup_sink_return_self fuel i w cur f n :
  ready w cur f n -> (n < length (f_slots f))%nat -> f_previous f <> Some cur ->
  pops_something (i_op i) = true -> variable_operand w cur f n i ->
  agree cur (exec_all fuel [i; mkInstr BC_RETURN_SELF []] w)
    (exec_all fuel [mkInstr BC_DUP []; i; mkInstr BC_RETURN_SELF []] w).
Proof.
  intros HR Hlt Hprev Hp Hv.
  destruct (f_slots f) as [|x s _] eqn:Hs using rev_ind; [cbn in Hlt; lia|].
  pose proof HR as [Hc Hf Hn Hr Hfr]. rewrite length_app in Hlt. rewrite Hs, length_app in Hn.
  cbn in Hlt, Hn.
  change [mkInstr BC_DUP []; i; mkInstr BC_RETURN_SELF []]
    with ([mkInstr BC_DUP []; i] ++ [mkInstr BC_RETURN_SELF []]).
  change [i; mkInstr BC_RETURN_SELF []] with ([i] ++ [mkInstr BC_RETURN_SELF []]).
  rewrite !exec_all_app.
  set (w0 := put_frame cur (with_slots s f) w).
  assert (pushed cur x w0 w) as HP by by apply pushed_top.
  assert (lifts cur x (sink i x;; doReturnSelf) w0 w) as HL.
  { apply lifts_bind.
    - eapply lifts_sink; [done|done|apply put_obj_eq| |by apply variable_operand_slots]. cbn. lia.
    - intros [] w1 w1' E HP1.
      destruct (frames_stay_sink _ _ _ _ _ _ _ E (put_obj_eq _ _ _)) as (f1 & Hf1 & Ep & El).
      eapply lifts_doReturnSelf; [done| |done| |by rewrite Ep].
      + by rewrite (keeps_frame_sink _ _ _ _ _ E).
      + rewrite El. cbn. lia. }
  assert (forall w1 w2, exec_all fuel [i] w1 = sink i x w2 ->
            (exec_all fuel [i];; exec_all fuel [mkInstr BC_RETURN_SELF []]) w1 =
            (sink i x;; doReturnSelf) w2) as HE.
  { intros w1 w2 E. unfold mbind, stateful_bind. rewrite E.
    destruct (sink i x w2) as [[? w3]|]; [apply exec_one|done]. }
  rewrite (HE w w0); [|rewrite exec_one; eapply exec_sink; [done|done|done|done|lia]].
  assert ((exec_all fuel [mkInstr BC_DUP []; i];; exec_all fuel [mkInstr BC_RETURN_SELF []]) w =
          (sink i x;; doReturnSelf) w) as ->.
  { unfold mbind, stateful_bind. rewrite (dup_sink fuel i w cur f s x) by (done || lia).
    destruct (sink i x w) as [[? w3]|]; [apply exec_one|done]. }
  unfold agree, lifts in *.
  destruct ((sink i x;; doReturnSelf) w0) as [[[] w1]|e]; [|done]. eauto.
Qed.

Lemma inc_push_return_self fuel n w cur f k :
  ready w cur f k -> f_previous f <> Some cur ->
  agree cur (exec_all fuel [mkInstr BC_INC_FIELD [n]; mkInstr BC_RETURN_SELF []] w)
    (exec_all fuel [mkInstr BC_INC_FIELD_PUSH [n]; mkInstr BC_RETURN_SELF []] w).
Proof.
  intros HR Hprev.
  change [mkInstr BC_INC_FIELD_PUSH [n]; mkInstr BC_RETURN_SELF []]
    with ([mkInstr BC_INC_FIELD_PUSH [n]] ++ [mkInstr BC_RETURN_SELF []]).
  change [mkInstr BC_INC_FIELD [n]; mkInstr BC_RETURN_SELF []]
    with ([mkInstr BC_INC_FIELD [n]] ++ [mkInstr BC_RETURN_SELF []]).
  rewrite !exec_all_app. unfold mbind, stateful_bind. rewrite !exec_one.
  change (exec fuel (mkInstr BC_INC_FIELD_PUSH [n]) w) with (doIncFieldPush USE_TAGGING n w).
  change (exec fuel (mkInstr BC_INC_FIELD [n]) w) with (doIncField USE_TAGGING n w).
  rewrite doIncField_bump, doIncFieldPush_bump.
  destruct (bump n w) as [[v w2]|e] eqn:E; [|unfold mbind, stateful_bind; by rewrite E].
  rewrite !(bind_step _ _ _ _ _ E).
  destruct (bump_ready _ _ _ _ _ _ _ HR E) as [Hc Hf Hn Hr _].
  rewrite (push_step _ cur f) by (done || lia). rewrite ret_step, !exec_one.
  set (w2' := put_frame cur _ w2). assert (pushed cur v w2 w2') as HP by by exists f.
  assert (lifts cur v doReturnSelf w2 w2') as HL by (eapply lifts_doReturnSelf; [done|done|done|lia|done]).
  unfold lifts in HL. change (exec fuel (mkInstr BC_RETURN_SELF [])) with doReturnSelf.
  unfold agree. destruct (doReturnSelf w2) as [[[] w3]|e]; [eauto|done].
Qed.

End Sequences.
