(* ===== verification/MethodGen.v ===== *)
(** * Generating methods

    [src/src/compiler/MethodGenerationContext.h] and [.cpp] (but for the inlining of
    blocks, which is in [Inlining]), [BytecodeGenerator.cpp], [Variable.h],
    [LexicalScope.h] and [ClassGenerationContext.cpp]: the code buffer of the method
    that is being compiled, the emitters with their peephole optimisations, jumps and
    their offsets, the literals, and the assembly into a method object.

    The state is the context of the method with those of the methods around it (which
    are only read) and the state of the machine, where literals and methods live. *)
From Stdlib Require Import String.
From S2P Require Import Prelude Bytecodes IntegerPrims Objects Universe.
Local Open Scope Z_scope.

(** ** Variables *)

Definition new_variable (name : string) (index : nat) (isArgument : bool)
    (coord : SourceCoordinate) : VariableT :=
  mkVariable name (u8 (Z.of_nat index)) isArgument coord.

Definition IsNamed (n : string) (v : VariableT) : bool := String.eqb (v_name v) n.
Definition IsSame (v other : VariableT) : bool := bool_decide (v_coord v = v_coord other).
Definition strBlockSelf : string := "$blockSelf".

(** [None] is the invalid copy, which has the index 0xff. *)
Definition CopyForInlining (v : VariableT) (newIndex : nat) : option VariableT :=
  if v_isArgument v && String.eqb (v_name v) strBlockSelf then None
  else
    let index := u8 (Z.of_nat newIndex) in
    if index =? 0xff then None
    else Some (mkVariable (v_name v) index false (v_coord v)).

Fixpoint var_index (i : nat) (vec : list VariableT) (name : string) : option nat :=
  match vec with
  | [] => None
  | v :: r => if IsNamed name v then Some i else var_index (S i) r name
  end.

(** [IndexOf] and [Contains] *)
Definition IndexOf (vec : list VariableT) (name : string) : option nat := var_index 0 vec name.
Definition Contains (vec : list VariableT) (name : string) : bool :=
  existsb (IsNamed name) vec.

(** ** The class that is being compiled *)

Record ClassGen : Type := mkClassGen {
  cg_name : option loc;
  cg_superName : option loc;
  cg_classSide : bool;
  cg_instanceFields : list loc;
  cg_instanceMethods : list loc;
  cg_classFields : list loc;
  cg_classMethods : list loc }.

Fixpoint index_of {A} `{EqDecision A} (i : Z) (vec : list A) (elem : A) : Z :=
  match vec with
  | [] => -1
  | x :: r => if decide (x = elem) then i else index_of (i + 1) r elem
  end.

Definition HasField (cg : ClassGen) (field : loc) : bool :=
  bool_decide (field ∈ (if cg_classSide cg then cg_classFields cg else cg_instanceFields cg)).

Definition GetFieldIndex (cg : ClassGen) (field : loc) : Z :=
  index_of 0 (if cg_classSide cg then cg_classFields cg else cg_instanceFields cg) field.

(** ** The context of a method *)

Record Last4 : Type := mkLast4 { last_0 : Z; last_1 : Z; last_2 : Z; last_3 : Z }.

Definition invalid4 : Last4 := mkLast4 BC_INVALID BC_INVALID BC_INVALID BC_INVALID.

Record Mgenc : Type := mkMgenc {
  holderGenc : ClassGen;
  maxContextLevel : Z;
  blockMethod : bool;
  signature : option loc;
  arguments : list VariableT;
  primitive_method : bool;
  locals : list VariableT;
  literals : list oop;
  finished : bool;
  bytecode : list Z;
  lexicalScope : option scope_id;
  currentStackDepth : Z;
  maxStackDepth : Z;
  last4Bytecodes : Last4;
  inlinedLoops : list BackJump;
  isCurrentlyInliningABlock : bool }.

Definition new_Mgenc (holder : ClassGen) (outer : option Mgenc) : Mgenc :=
  mkMgenc holder
    (match outer with None => 0 | Some o => u8 (maxContextLevel o + 1) end)
    (match outer with None => false | Some _ => true end)
    None [] false [] [] false [] None 0 0 invalid4 [] false.

(** What an emitter changes. *)
Definition set_code (bs : list Z) (cur max : Z) (l4 : Last4) (g : Mgenc) : Mgenc :=
  mkMgenc (holderGenc g) (maxContextLevel g) (blockMethod g) (signature g) (arguments g)
    (primitive_method g) (locals g) (literals g) (finished g) bs (lexicalScope g) cur max l4
    (inlinedLoops g) (isCurrentlyInliningABlock g).
Definition set_bytecode (bs : list Z) (g : Mgenc) : Mgenc :=
  set_code bs (currentStackDepth g) (maxStackDepth g) (last4Bytecodes g) g.
Definition set_last4 (l4 : Last4) (g : Mgenc) : Mgenc :=
  set_code (bytecode g) (currentStackDepth g) (maxStackDepth g) l4 g.
Definition set_signature (s : option loc) (g : Mgenc) : Mgenc :=
  mkMgenc (holderGenc g) (maxContextLevel g) (blockMethod g) s (arguments g)
    (primitive_method g) (locals g) (literals g) (finished g) (bytecode g) (lexicalScope g)
    (currentStackDepth g) (maxStackDepth g) (last4Bytecodes g)
    (inlinedLoops g) (isCurrentlyInliningABlock g).
Definition set_variables (args locs : list VariableT) (g : Mgenc) : Mgenc :=
  mkMgenc (holderGenc g) (maxContextLevel g) (blockMethod g) (signature g) args
    (primitive_method g) locs (literals g) (finished g) (bytecode g) (lexicalScope g)
    (currentStackDepth g) (maxStackDepth g) (last4Bytecodes g)
    (inlinedLoops g) (isCurrentlyInliningABlock g).
Definition set_literals (ls : list oop) (g : Mgenc) : Mgenc :=
  mkMgenc (holderGenc g) (maxContextLevel g) (blockMethod g) (signature g) (arguments g)
    (primitive_method g) (locals g) ls (finished g) (bytecode g) (lexicalScope g)
    (currentStackDepth g) (maxStackDepth g) (last4Bytecodes g)
    (inlinedLoops g) (isCurrentlyInliningABlock g).
Definition set_flags (prim fin : bool) (g : Mgenc) : Mgenc :=
  mkMgenc (holderGenc g) (maxContextLevel g) (blockMethod g) (signature g) (arguments g)
    prim (locals g) (literals g) fin (bytecode g) (lexicalScope g)
    (currentStackDepth g) (maxStackDepth g) (last4Bytecodes g)
    (inlinedLoops g) (isCurrentlyInliningABlock g).
Definition set_scope (s : option scope_id) (g : Mgenc) : Mgenc :=
  mkMgenc (holderGenc g) (maxContextLevel g) (blockMethod g) (signature g) (arguments g)
    (primitive_method g) (locals g) (literals g) (finished g) (bytecode g) s
    (currentStackDepth g) (maxStackDepth g) (last4Bytecodes g)
    (inlinedLoops g) (isCurrentlyInliningABlock g).
Definition set_inlining (loops : list BackJump) (b : bool) (g : Mgenc) : Mgenc :=
  mkMgenc (holderGenc g) (maxContextLevel g) (blockMethod g) (signature g) (arguments g)
    (primitive_method g) (locals g) (literals g) (finished g) (bytecode g) (lexicalScope g)
    (currentStackDepth g) (maxStackDepth g) (last4Bytecodes g) loops b.

Record Gen : Type := mkGen { gen_world : World; gen_mg : Mgenc; gen_outer : list Mgenc }.

Notation G := (stateful Gen).

Definition liftV {A} (m : V A) : G A := fun s =>
  match m (gen_world s) with
  | Ok (a, w) => Ok (a, mkGen w (gen_mg s) (gen_outer s))
  | Err e => Err e
  end.

Definition mg {A} (f : Mgenc -> A) : G A := gets (fun s => f (gen_mg s)).
Definition update_mg (f : Mgenc -> Mgenc) : G () :=
  modify (fun s => mkGen (gen_world s) (f (gen_mg s)) (gen_outer s)).

(** ** Variables and literals of the method *)

Definition AddArgument (arg : string) (coord : SourceCoordinate) : G () :=
  args ← mg arguments;
  locs ← mg locals;
  if Contains args arg then fail ParseError
  else update_mg (set_variables (args ++ [new_variable arg (length args) true coord]) locs).

Definition AddLocal (local : string) (coord : SourceCoordinate) : G () :=
  args ← mg arguments;
  locs ← mg locals;
  update_mg (set_variables args (locs ++ [new_variable local (length locs) false coord])).

Definition AddLocalIfAbsent (local : string) (coord : SourceCoordinate) : G bool :=
  locs ← mg locals;
  if Contains locs local then mret false else AddLocal local coord;; mret true.

(** The index, the number of contexts between and whether it is an argument. *)
Fixpoint FindVar_in (ms : list Mgenc) (context : nat) (var : string) : option (nat * nat * bool) :=
  match ms with
  | [] => None
  | m :: outer =>
      match IndexOf (locals m) var with
      | Some i => Some (i, context, false)
      | None =>
          match IndexOf (arguments m) var with
          | Some i => Some (i, context, true)
          | None => FindVar_in outer (S context) var
          end
      end
  end.

Definition FindVar (var : string) : G (option (nat * nat * bool)) :=
  s ← get; mret (FindVar_in (gen_mg s :: gen_outer s) 0 var).

Definition AddLiteral (lit : oop) : G Z :=
  ls ← mg literals;
  let index := Z.of_nat (length ls) in
  if index >? 127 then fail ParseError
  else update_mg (set_literals (ls ++ [lit]));; mret (u8 index).

Definition AddLiteralIfAbsent (lit : oop) : G Z :=
  ls ← mg literals;
  let idx := index_of 0 ls lit in
  if negb (idx =? -1) then mret (u8 idx) else AddLiteral lit.

Definition UpdateLiteral (index : Z) (newValue : oop) : G () :=
  ls ← mg literals;
  if (Z.to_nat index <? length ls)%nat
  then update_mg (set_literals (<[Z.to_nat index := newValue]> ls)) else fail Undef.

(** ** The code buffer *)

Definition shift4 (bc : Z) (l : Last4) : Last4 := mkLast4 (last_1 l) (last_2 l) (last_3 l) bc.

(** [currentStackDepth] is a [size_t]: the sum wraps. *)
Definition AddBytecode (bc : Z) (stackEffect : Z) : G () :=
  update_mg (fun g =>
    let cur := u64 (currentStackDepth g + stackEffect) in
    set_code (bytecode g ++ [bc]) cur (Z.max (maxStackDepth g) cur)
      (shift4 bc (last4Bytecodes g)) g).

Definition AddBytecodeArgument (arg : Z) : G () :=
  update_mg (fun g => set_bytecode (bytecode g ++ [u8 arg]) g).

Definition OffsetOfNextInstruction : G Z := mg (fun g => Z.of_nat (length (bytecode g))).

Definition AddBytecodeArgumentAndGetIndex (bc : Z) : G Z :=
  index ← OffsetOfNextInstruction; AddBytecodeArgument bc;; mret index.

Definition last_at (indexFromEnd : nat) (l : Last4) : Z :=
  match indexFromEnd with 0 => last_3 l | 1 => last_2 l | 2 => last_1 l | _ => last_0 l end%nat.

Definition lastBytecodeAt (indexFromEnd : nat) : G Z :=
  mg (fun g => last_at indexFromEnd (last4Bytecodes g)).

Definition LastBytecodeIs (indexFromEnd : nat) (bc : Z) : G bool :=
  actual ← lastBytecodeAt indexFromEnd; mret (actual =? bc).

(** [BC_INVALID] if the predicate does not hold. *)
Definition lastBytecodeIsOneOf (indexFromEnd : nat) (predicate : Z -> Z) : G Z :=
  actual ← lastBytecodeAt indexFromEnd; mret (predicate actual).

Definition resetLastBytecodeBuffer : G () := update_mg (set_last4 invalid4).

(** The lengths of the last instructions; [BC_INVALID] has none in the table. *)
Fixpoint bytes_of_last (n : nat) (l : Last4) : Z :=
  match n with
  | O => 0
  | S m => bytes_of_last m l + GetBytecodeLength (last_at m l)
  end.

Definition removeLastBytecodes (numBytecodes : nat) : G () :=
  g ← mg (fun g => g);
  let n := bytes_of_last numBytecodes (last4Bytecodes g) in
  if Z.of_nat (length (bytecode g)) <? n then fail Undef
  else update_mg (set_bytecode (take (length (bytecode g) - Z.to_nat n) (bytecode g))).

Definition some_invalid (n : nat) (l : Last4) : bool :=
  existsb (fun i => last_at i l =? BC_INVALID) (seq 0 n).

Definition getOffsetOfLastBytecode (indexFromEnd : nat) : G Z :=
  g ← mg (fun g => g);
  if some_invalid (S indexFromEnd) (last4Bytecodes g)
  then fail (ErrorExit "The requested bytecode is invalid")
  else mret (Z.of_nat (length (bytecode g)) - bytes_of_last (S indexFromEnd) (last4Bytecodes g)).

Definition removeLastBytecodeAt (indexFromEnd : nat) : G () :=
  bcOffset ← getOffsetOfLastBytecode indexFromEnd;
  bcToBeRemoved ← lastBytecodeAt indexFromEnd;
  bs ← mg bytecode;
  let bcLength := GetBytecodeLength bcToBeRemoved in
  if (bcOffset <? 0) || (Z.of_nat (length bs) <? bcOffset + bcLength) then fail Undef
  else update_mg (set_bytecode
         (take (Z.to_nat bcOffset) bs ++ drop (Z.to_nat (bcOffset + bcLength)) bs)).

(** Reads and writes of a byte of the buffer: [at] throws an exception that nothing
    catches, [operator[]] does not check. *)
Definition out_of_range : error := ErrorExit "std::out_of_range".

Definition read_byte (e : error) (i : Z) : G Z :=
  bs ← mg bytecode;
  if i <? 0 then fail e else lift (of_option e (bs !! Z.to_nat i)).

Definition byte_at : Z -> G Z := read_byte out_of_range.

Definition set_byte (i : Z) (b : Z) : G () :=
  bs ← mg bytecode;
  if (0 <=? i) && (i <? Z.of_nat (length bs))
  then update_mg (set_bytecode (<[Z.to_nat i := u8 b]> bs)) else fail Undef.

Definition code_size : G Z := OffsetOfNextInstruction.

(** ** Emitting instructions *)

Definition Emit1 (bc : Z) (stackEffect : Z) : G () := AddBytecode bc stackEffect.

Definition Emit2 (bc : Z) (idx : Z) (stackEffect : Z) : G () :=
  AddBytecode bc stackEffect;; AddBytecodeArgument idx.

Definition Emit3 (bc : Z) (idx ctx : Z) (stackEffect : Z) : G () :=
  AddBytecode bc stackEffect;; AddBytecodeArgument idx;; AddBytecodeArgument ctx.

Definition EmitHALT : G () := Emit1 BC_HALT 0.
Definition EmitDUP : G () := Emit1 BC_DUP 1.
Definition EmitINC : G () := Emit1 BC_INC 0.
Definition EmitDEC : G () := Emit1 BC_DEC 0.
Definition EmitDupSecond : G () := Emit1 BC_DUP_SECOND 1.
Definition EmitIncFieldPush (fieldIdx : Z) : G () := Emit2 BC_INC_FIELD_PUSH fieldIdx 1.
Definition EmitRETURNNONLOCAL : G () := Emit1 BC_RETURN_NON_LOCAL 0.

Definition EmitPUSHLOCAL (index context : Z) : G () :=
  if (index >? 255) || (context >? 255) then fail ParseError
  else if (context =? 0) && (index =? 0) then Emit1 BC_PUSH_LOCAL_0 1
  else if (context =? 0) && (index =? 1) then Emit1 BC_PUSH_LOCAL_1 1
  else if (context =? 0) && (index =? 2) then Emit1 BC_PUSH_LOCAL_2 1
  else Emit3 BC_PUSH_LOCAL index context 1.

Definition EmitPUSHARGUMENT (index context : Z) : G () :=
  if (index >? 255) || (context >? 255) then fail ParseError
  else if (context =? 0) && (index =? 0) then Emit1 BC_PUSH_SELF 1
  else if (context =? 0) && (index =? 1) then Emit1 BC_PUSH_ARG_1 1
  else if (context =? 0) && (index =? 2) then Emit1 BC_PUSH_ARG_2 1
  else Emit3 BC_PUSH_ARGUMENT index context 1.

Definition EmitPOPLOCAL (index context : Z) : G () :=
  if (index >? 255) || (context >? 255) then fail ParseError
  else if (context =? 0) && (index =? 0) then Emit1 BC_POP_LOCAL_0 (-1)
  else if (context =? 0) && (index =? 1) then Emit1 BC_POP_LOCAL_1 (-1)
  else if (context =? 0) && (index =? 2) then Emit1 BC_POP_LOCAL_2 (-1)
  else Emit3 BC_POP_LOCAL index context (-1).

Definition EmitPOPARGUMENT (idx ctx : Z) : G () :=
  if (idx >? 255) || (ctx >? 255) then fail ParseError
  else Emit3 BC_POP_ARGUMENT idx ctx (-1).

Definition EmitPushFieldWithIndex (fieldIdx : Z) : G () :=
  if fieldIdx =? 0 then Emit1 BC_PUSH_FIELD_0 1
  else if fieldIdx =? 1 then Emit1 BC_PUSH_FIELD_1 1
  else Emit2 BC_PUSH_FIELD fieldIdx 1.

Definition EmitPopFieldWithIndex (fieldIdx : Z) : G () :=
  if fieldIdx =? 0 then Emit1 BC_POP_FIELD_0 (-1)
  else if fieldIdx =? 1 then Emit1 BC_POP_FIELD_1 (-1)
  else Emit2 BC_POP_FIELD fieldIdx (-1).

(** ** Peephole optimisations *)

Definition optimizeIncFieldPush : G bool :=
  size ← code_size;
  set_byte (size - 2) BC_INC_FIELD;;
  update_mg (fun g =>
    let l := last4Bytecodes g in
    set_last4 (mkLast4 (last_0 l) (last_1 l) (last_2 l) BC_INC_FIELD) g);;
  mret true.

Definition OptimizeDupPopPopSequence : G bool :=
  inlining ← mg isCurrentlyInliningABlock;
  if inlining : bool then mret false
  else
    incFieldPush ← LastBytecodeIs 0 BC_INC_FIELD_PUSH;
    if incFieldPush : bool then optimizeIncFieldPush
    else
      popCandidate ← lastBytecodeIsOneOf 0 IsPopSmthBytecode;
      if popCandidate =? BC_INVALID then mret false
      else
        dup ← LastBytecodeIs 1 BC_DUP;
        if negb dup then mret false
        else
          removeLastBytecodeAt 1;;
          update_mg (fun g =>
            let l := last4Bytecodes g in
            set_last4 (mkLast4 BC_INVALID (last_0 l) (last_1 l) (last_3 l)) g);;
          mret true.

(** The operand of the field push that starts [bcOffset] bytes before the end. *)
Definition pushed_field (pushCandidate bcOffset : Z) : G Z :=
  if pushCandidate =? BC_PUSH_FIELD_0 then mret 0
  else if pushCandidate =? BC_PUSH_FIELD_1 then mret 1
  else if pushCandidate =? BC_PUSH_FIELD then
    size ← code_size; byte_at (size - bcOffset + 1)
  else fail (ErrorExit "Unexpected bytecode").

Definition OptimizeIncField (fieldIdx : Z) : G bool :=
  inlining ← mg isCurrentlyInliningABlock;
  if inlining : bool then mret false
  else
    dup ← LastBytecodeIs 0 BC_DUP;
    if negb dup then mret false
    else
      inc ← LastBytecodeIs 1 BC_INC;
      if negb inc then mret false
      else
        pushCandidate ← lastBytecodeIsOneOf 2 IsPushFieldBytecode;
        if pushCandidate =? BC_INVALID then mret false
        else
          candidateFieldIdx ←
            pushed_field pushCandidate (1 + 1 + GetBytecodeLength pushCandidate);
          if candidateFieldIdx =? fieldIdx then
            removeLastBytecodes 3;;
            resetLastBytecodeBuffer;;
            EmitIncFieldPush fieldIdx;;
            mret true
          else mret false.

Definition EmitRETURNFIELD (index : Z) : G () :=
  if index >? 2 then fail ParseError
  else
    Emit1 (if index =? 0 then code BC_RETURN_FIELD_0
           else if index =? 1 then code BC_RETURN_FIELD_1
           else if index =? 2 then code BC_RETURN_FIELD_2
           else 0) 0.

Definition OptimizeReturnField : G bool :=
  inlining ← mg isCurrentlyInliningABlock;
  if inlining : bool then mret false
  else
    bc ← lastBytecodeAt 0;
    if IsPushFieldBytecode bc =? BC_INVALID then mret false
    else
      index ← pushed_field bc (GetBytecodeLength bc);
      if index >? 2 then mret false
      else
        removeLastBytecodes 1;;
        resetLastBytecodeBuffer;;
        EmitRETURNFIELD index;;
        mret true.

Definition EmitPOP : G () :=
  done ← OptimizeDupPopPopSequence; if done : bool then mret tt else Emit1 BC_POP (-1).

Definition EmitRETURNSELF : G () := OptimizeDupPopPopSequence;; Emit1 BC_RETURN_SELF 0.

Definition EmitRETURNLOCAL : G () :=
  done ← OptimizeReturnField; if done : bool then mret tt else Emit1 BC_RETURN_LOCAL 0.

(** The field is looked up in the class; an unknown one, or one that does not fit a
    byte, is an error. *)
Definition field_index (field : loc) : G Z :=
  holder ← mg holderGenc;
  let idx := GetFieldIndex holder field in
  if (idx <? 0) || (idx >? 255) then fail ParseError else mret idx.

Definition EmitPUSHFIELD (field : loc) : G () :=
  idx ← field_index field; EmitPushFieldWithIndex idx.

Definition EmitPOPFIELD (field : loc) : G () :=
  idx ← field_index field;
  done ← OptimizeIncField idx;
  if done : bool then mret tt else EmitPopFieldWithIndex idx.

(** A block ends with the value of its last expression: the pop that its period
    caused is taken back. *)
Definition RemoveLastPopForBlockLocalReturn : G () :=
  isPop ← LastBytecodeIs 0 BC_POP;
  if isPop : bool then
    bs ← mg bytecode;
    (match bs with [] => fail Undef | _ => update_mg (set_bytecode (removelast bs)) end)
  else
    popSmth ← lastBytecodeIsOneOf 0 IsPopSmthBytecode;
    dup ← LastBytecodeIs 1 BC_DUP;
    (if negb (popSmth =? BC_INVALID) && negb dup then
       size ← code_size;
       bc ← lastBytecodeAt 0;
       let index := size - GetBytecodeLength bc in
       if index <? 0 then fail Undef
       else
         update_mg (fun g =>
           let l := last4Bytecodes g in
           set_last4 (mkLast4 (last_1 l) (last_2 l) BC_DUP (last_3 l))
             (set_bytecode (take (Z.to_nat index) (bytecode g) ++ [code BC_DUP]
                            ++ drop (Z.to_nat index) (bytecode g)) g))
     else mret tt);;
    incField ← LastBytecodeIs 0 BC_INC_FIELD;
    if incField : bool then
      size ← code_size;
      set_byte (size - 2) BC_INC_FIELD_PUSH;;
      update_mg (fun g =>
        let l := last4Bytecodes g in
        let cur := u64 (currentStackDepth g + 1) in
        set_code (bytecode g) cur (Z.max (maxStackDepth g) cur)
          (mkLast4 (last_0 l) (last_1 l) (last_2 l) BC_INC_FIELD_PUSH) g)
    else mret tt.

(** ** Literals, sends and jumps *)

Section Literals.

Context (USE_TAGGING : bool).

Definition EmitPUSHBLOCK (block : oop) : G () :=
  idx ← AddLiteralIfAbsent block; Emit2 BC_PUSH_BLOCK idx 1.

(** The literal that the byte codes for 0, 1 and nil stand for.  For a big integer the
    code reads the value of a small one from it; neither the address of an object nor
    the buffer of its digits is 0 or 1. *)
Definition EmitPUSHCONSTANT (cst : oop) : G () :=
  cls ← liftV (CLASS_OF cst);
  k ← liftV (gets known);
  v ← (if decide (cls = integerClass k) then liftV (small_int USE_TAGGING cst) else mret None);
  match v with
  | Some 0 => Emit1 BC_PUSH_0 1
  | Some 1 => Emit1 BC_PUSH_1 1
  | _ =>
      if decide (cst = nilObject k) then Emit1 BC_PUSH_NIL 1
      else
        idx ← AddLiteralIfAbsent cst;
        if idx =? 0 then Emit1 BC_PUSH_CONSTANT_0 1
        else if idx =? 1 then Emit1 BC_PUSH_CONSTANT_1 1
        else if idx =? 2 then Emit1 BC_PUSH_CONSTANT_2 1
        else Emit2 BC_PUSH_CONSTANT idx 1
  end.

Definition EmitPUSHCONSTANT_index (literalIndex : Z) : G () :=
  Emit2 BC_PUSH_CONSTANT literalIndex 1.

Definition EmitPUSHGLOBAL (global : loc) : G () :=
  k ← liftV (gets known);
  nil ← liftV (SymbolFor "nil");
  if decide (global = nil) then EmitPUSHCONSTANT (nilObject k)
  else
    true_ ← liftV (SymbolFor "true");
    if decide (global = true_) then EmitPUSHCONSTANT (trueObject k)
    else
      false_ ← liftV (SymbolFor "false");
      if decide (global = false_) then EmitPUSHCONSTANT (falseObject k)
      else idx ← AddLiteralIfAbsent (Ref global); Emit2 BC_PUSH_GLOBAL idx 1.

End Literals.

Definition EmitSEND (msg : loc) : G () :=
  idx ← AddLiteralIfAbsent (Ref msg);
  numArgs ← liftV (GetNumberOfArguments msg);
  Emit2 (if (numArgs =? 1)%nat then code BC_SEND_1 else code BC_SEND) idx
    (- Z.of_nat numArgs + 1).

Definition EmitSUPERSEND (msg : loc) : G () :=
  idx ← AddLiteralIfAbsent (Ref msg);
  numArgs ← liftV (GetNumberOfArguments msg);
  Emit2 BC_SUPER_SEND idx (- Z.of_nat numArgs + 1).

Inductive JumpCondition : Type := ON_TRUE | ON_FALSE | ON_NIL | ON_NOT_NIL.

Definition jump_bytecode (condition : JumpCondition) (needsPop : bool) : Bytecodes.bytecode :=
  match condition with
  | ON_TRUE => if needsPop then BC_JUMP_ON_TRUE_POP else BC_JUMP_ON_TRUE_TOP_NIL
  | ON_FALSE => if needsPop then BC_JUMP_ON_FALSE_POP else BC_JUMP_ON_FALSE_TOP_NIL
  | ON_NIL => if needsPop then BC_JUMP_ON_NIL_POP else BC_JUMP_ON_NIL_TOP_TOP
  | ON_NOT_NIL => if needsPop then BC_JUMP_ON_NOT_NIL_POP else BC_JUMP_ON_NOT_NIL_TOP_TOP
  end.

Definition Emit3WithDummy (bc : Z) (stackEffect : Z) : G Z :=
  AddBytecode bc stackEffect;;
  index ← AddBytecodeArgumentAndGetIndex 0;
  AddBytecodeArgument 0;;
  mret index.

Definition EmitJumpOnWithDummyOffset (condition : JumpCondition) (needsPop : bool) : G Z :=
  Emit3WithDummy (jump_bytecode condition needsPop) (if needsPop then -1 else 0).

Definition EmitJumpWithDumyOffset : G Z := Emit3WithDummy BC_JUMP 0.

Definition EmitJumpIfGreaterWithDummyOffset : G Z := Emit3WithDummy BC_JUMP_IF_GREATER 0.

Definition EmitJumpBackwardWithOffset (jumpOffset : Z) : G () :=
  Emit3 (if jumpOffset <=? 0xFF then code BC_JUMP_BACKWARD else code BC_JUMP2_BACKWARD)
    (Z.land jumpOffset 0xFF) (Z.shiftr jumpOffset 8) 0.

Definition checkJumpOffset (jumpOffset : Z) : G () :=
  if (jumpOffset <? 0) || (jumpOffset >? 0xFFFF)
  then fail (ErrorExit "The jumpOffset is out of range") else mret tt.

(** The offset is a [size_t]: a loop that begins after the jump would give a huge
    one. *)
Definition EmitBackwardsJumpOffsetToTarget (loopBeginIdx : Z) : G () :=
  addressOfJump ← OffsetOfNextInstruction;
  let jumpOffset := u64 (addressOfJump - loopBeginIdx) in
  checkJumpOffset jumpOffset;;
  EmitJumpBackwardWithOffset jumpOffset;;
  update_mg (fun g =>
    set_inlining (inlinedLoops g ++ [mkBackJump loopBeginIdx addressOfJump])
      (isCurrentlyInliningABlock g) g).

Definition PatchJumpOffsetToPointToNextInstruction (indexOfOffset : Z) : G () :=
  let instructionStart := indexOfOffset - 1 in
  bc ← read_byte Undef instructionStart;
  next ← OffsetOfNextInstruction;
  let jumpOffset := u64 (next - instructionStart) in
  checkJumpOffset jumpOffset;;
  if jumpOffset <=? 0xFF then
    set_byte indexOfOffset jumpOffset;;
    set_byte (indexOfOffset + 1) 0
  else
    (if bc <? FIRST_DOUBLE_BYTE_JUMP_BYTECODE
     then set_byte instructionStart (bc + NUM_SINGLE_BYTE_JUMP_BYTECODES)
     else mret tt);;
    set_byte indexOfOffset (Z.land jumpOffset 0xFF);;
    set_byte (indexOfOffset + 1) (Z.shiftr jumpOffset 8).

(** ** Assembling the method *)

Section Assemble.

Context (USE_TAGGING : bool).

Definition the_signature : G loc := s ← mg signature; lift (of_option Undef s).

Definition make_trivial (t : trivial) : G (option loc) :=
  sig ← the_signature;
  args ← mg arguments;
  n ← liftV (GetNumberOfArguments sig);
  l ← liftV (alloc (OTrivial sig Null n args t));
  mret (Some l).

Definition assembleLiteralReturn (pushCandidate : Z) : G (option loc) :=
  size ← code_size;
  if negb (size =? GetBytecodeLength pushCandidate + GetBytecodeLength BC_RETURN_LOCAL)
  then mret None
  else if pushCandidate =? BC_PUSH_0 then
    x ← liftV (NEW_INT USE_TAGGING 0); make_trivial (VMLiteralReturn x)
  else if pushCandidate =? BC_PUSH_1 then
    x ← liftV (NEW_INT USE_TAGGING 1); make_trivial (VMLiteralReturn x)
  else if pushCandidate =? BC_PUSH_NIL then
    k ← liftV (gets known); make_trivial (VMLiteralReturn (nilObject k))
  else
    ls ← mg literals;
    match ls with
    | [l] => make_trivial (VMLiteralReturn l)
    | _ => fail (ErrorExit "Unexpected situation when trying to create trivial method that returns a literal")
    end.

Definition assembleGlobalReturn : G (option loc) :=
  size ← code_size;
  if negb (size =? GetBytecodeLength BC_PUSH_GLOBAL + GetBytecodeLength BC_RETURN_LOCAL)
  then mret None
  else
    ls ← mg literals;
    match ls with
    | [l] => name ← liftV (loc_of l); make_trivial (VMGlobalReturn name)
    | _ => fail (ErrorExit "Unexpected situation when trying to create trivial method that reads a global. New Bytecode?")
    end.

Definition assembleFieldGetter (pushCandidate : Z) : G (option loc) :=
  size ← code_size;
  if negb (size =? GetBytecodeLength pushCandidate + GetBytecodeLength BC_RETURN_LOCAL)
  then mret None
  else
    fieldIndex ← (if pushCandidate =? BC_PUSH_FIELD_0 then mret 0
                  else if pushCandidate =? BC_PUSH_FIELD_1 then mret 1
                  else byte_at (size - 2));
    make_trivial (VMGetter fieldIndex).

Definition assembleFieldGetterFromReturn (returnCandidate : Z) : G (option loc) :=
  size ← code_size;
  if negb (size =? GetBytecodeLength returnCandidate) then mret None
  else if returnCandidate =? BC_RETURN_FIELD_0 then make_trivial (VMGetter 0)
  else if returnCandidate =? BC_RETURN_FIELD_1 then make_trivial (VMGetter 1)
  else if returnCandidate =? BC_RETURN_FIELD_2 then make_trivial (VMGetter 2)
  else fail (ErrorExit "Unsupported bytecode in assembleFieldGetterFromReturn").

Definition assembleFieldSetter : G (option loc) :=
  popCandidate ← lastBytecodeIsOneOf 1 IsPopFieldBytecode;
  if popCandidate =? BC_INVALID then mret None
  else
    pushCandidate ← lastBytecodeIsOneOf 2 IsPushArgBytecode;
    if pushCandidate =? BC_INVALID then mret None
    else
      size ← code_size;
      let lenReturnSelf := GetBytecodeLength BC_RETURN_SELF in
      let lenInclPop := lenReturnSelf + GetBytecodeLength popCandidate in
      if negb (size =? lenInclPop + GetBytecodeLength pushCandidate) then mret None
      else
        argIndex ← (if pushCandidate =? BC_PUSH_SELF then mret 0
                    else if pushCandidate =? BC_PUSH_ARG_1 then mret 1
                    else if pushCandidate =? BC_PUSH_ARG_2 then mret 2
                    else byte_at (size - (lenInclPop + 2)));
        fieldIndex ← (if popCandidate =? BC_POP_FIELD_0 then mret 0
                      else if popCandidate =? BC_POP_FIELD_1 then mret 1
                      else byte_at (size - (lenReturnSelf + 1)));
        make_trivial (VMSetter fieldIndex argIndex).

Definition assembleTrivialMethod : G (option loc) :=
  returnLocal ← LastBytecodeIs 0 BC_RETURN_LOCAL;
  pushConst ← lastBytecodeIsOneOf 1 IsPushConstBytecode;
  pushGlobal ← LastBytecodeIs 1 BC_PUSH_GLOBAL;
  pushField ← lastBytecodeIsOneOf 1 IsPushFieldBytecode;
  if returnLocal && negb (pushConst =? BC_INVALID) then assembleLiteralReturn pushConst
  else if returnLocal && pushGlobal then assembleGlobalReturn
  else if returnLocal && negb (pushField =? BC_INVALID) then assembleFieldGetter pushField
  else
    returnSelf ← LastBytecodeIs 0 BC_RETURN_SELF;
    if returnSelf : bool then assembleFieldSetter
    else
      returnCandidate ← lastBytecodeIsOneOf 0 IsReturnFieldBytecode;
      if negb (returnCandidate =? BC_INVALID)
      then assembleFieldGetterFromReturn returnCandidate else mret None.

Definition Assemble : G loc :=
  trivialMethod ← assembleTrivialMethod;
  match trivialMethod with
  | Some t => mret t
  | None =>
      sig ← the_signature;
      g ← mg (fun g => g);
      scope ← lift (of_option Undef (lexicalScope g));
      liftV (NewMethod sig (bytecode g) (literals g) (length (locals g))
               (Z.to_nat (maxStackDepth g)) scope (inlinedLoops g))
  end.

(** [VMPrimitive::GetEmptyPrimitive] *)
Definition emptyRoutine : string := "emptyRoutine".

Definition AssemblePrimitive : G loc :=
  sig ← the_signature; liftV (alloc (OPrimitive sig Null (FramePrim emptyRoutine))).

End Assemble.

(** ** Lexical scopes *)

Definition load_scope (s : scope_id) : V LexicalScope := fun w =>
  match scopes w !! s with Some sc => Ok (sc, w) | None => Err Undef end.

Definition store_scope (s : scope_id) (sc : LexicalScope) : V () :=
  modify (fun w => set_scopes (<[s := sc]> (scopes w)) (nextScope w) w).

Definition new_scope (sc : LexicalScope) : V scope_id := fun w =>
  Ok (nextScope w, set_scopes (<[nextScope w := sc]> (scopes w)) (S (nextScope w)) w).

Definition CompleteLexicalScope : G () :=
  s ← get;
  let outer := match gen_outer s with [] => None | o :: _ => lexicalScope o end in
  id ← liftV (new_scope (mkScope outer (arguments (gen_mg s)) (locals (gen_mg s))));
  update_mg (set_scope (Some id)).

Fixpoint scope_up (level : nat) (s : scope_id) : V scope_id :=
  match level with
  | O => mret s
  | S level =>
      sc ← load_scope s;
      o ← lift (of_option Undef (s_outer sc));
      scope_up level o
  end.

(** [LexicalScope::GetArgument] and [GetLocal] *)
Definition scope_argument (s : scope_id) (index contextLevel : nat) : V VariableT :=
  s' ← scope_up contextLevel s;
  sc ← load_scope s';
  lift (of_option out_of_range (s_arguments sc !! index)).

Definition scope_local (s : scope_id) (index ctxLevel : nat) : V VariableT :=
  s' ← scope_up ctxLevel s;
  sc ← load_scope s';
  lift (of_option out_of_range (s_locals sc !! index)).

Definition AddInlinedLocal (s : scope_id) (v : VariableT) : V () :=
  sc ← load_scope s;
  store_scope s (mkScope (s_outer sc) (s_arguments sc) (s_locals sc ++ [v])).

Definition DropInlinedScope (s : scope_id) : V () :=
  sc ← load_scope s;
  o ← lift (of_option Undef (s_outer sc));
  so ← load_scope o;
  store_scope s (mkScope (s_outer so) (s_arguments sc) (s_locals sc)).
