(* ===== verification/Peephole.v ===== *)
(** * The peephole optimisations

    The emitters of [src/src/compiler/BytecodeGenerator.cpp] and
    [MethodGenerationContext.cpp] that replace the last instructions of the code buffer
    by shorter ones, from the opcodes they remember, exchange equivalent sequences. *)
From Stdlib Require Import String.
From S2P Require Import Prelude Bytecodes Objects Universe Frame Interpreter Lookup.
From S2P Require Import Activation Instructions Sequences MethodGen.
Local Open Scope Z_scope.

(** ** The code buffer

    The end of the buffer as instructions, as far as the emitters remember them: the
    last four opcodes, or those since the last reset. *)

Definition opcodes4 (cs : list instr) : Last4 :=
  let at_ k := match rev cs !! k with Some i => code (i_op i) | None => BC_INVALID end in
  mkLast4 (at_ 3%nat) (at_ 2%nat) (at_ 1%nat) (at_ 0%nat).

Record tracks (g : Mgenc) (p : list Z) (cs : list instr) : Prop := mkTracks {
  tracks_code : bytecode g = p ++ encode_all cs;
  tracks_wf : Forall wf_instr cs;
  tracks_last : last4Bytecodes g = opcodes4 cs;
  tracks_short : (length cs <= 4)%nat }.

Lemma LastBytecodeIs_step k b w g o :
  LastBytecodeIs k b (mkGen w g o) = Ok (last_at k (last4Bytecodes g) =? b, mkGen w g o).
Proof. done. Qed.

Lemma lastBytecodeIsOneOf_step k pr w g o :
  lastBytecodeIsOneOf k pr (mkGen w g o) = Ok (pr (last_at k (last4Bytecodes g)), mkGen w g o).
Proof. done. Qed.

Lemma lastBytecodeAt_step k w g o :
  lastBytecodeAt k (mkGen w g o) = Ok (last_at k (last4Bytecodes g), mkGen w g o).
Proof. done. Qed.

Lemma mg_step {A} (h : Mgenc -> A) w g o : mg h (mkGen w g o) = Ok (h g, mkGen w g o).
Proof. done. Qed.

Lemma code_size_step w g o :
  code_size (mkGen w g o) = Ok (Z.of_nat (length (bytecode g)), mkGen w g o).
Proof. done. Qed.

Lemma update_mg_step h w g o : update_mg h (mkGen w g o) = Ok (tt, mkGen w (h g) o).
Proof. done. Qed.

#[export] Hint Resolve LastBytecodeIs_step lastBytecodeIsOneOf_step lastBytecodeAt_step mg_step
  code_size_step update_mg_step : run.

Lemma code_valid b : code b <> BC_INVALID.
Proof. by destruct b. Qed.

(** The opcode remembered at [k] is that of the instruction [k] before the end. *)
Lemma opcodes4_at cs k :
  (length cs <= 4)%nat ->
  last_at k (opcodes4 cs) =
    match rev cs !! k with
    | Some i => code (i_op i)
    | None => if (k <? 4)%nat then BC_INVALID else last_0 (opcodes4 cs)
    end.
Proof.
  intros H. destruct k as [|[|[|[|k]]]]; try done.
  rewrite lookup_ge_None_2; [done|]. rewrite length_rev. lia.
Qed.

Lemma last_instr cs b :
  last_at 0 (opcodes4 cs) = code b -> exists cs0 i, cs = cs0 ++ [i] /\ i_op i = b.
Proof.
  destruct cs as [|i cs0 _] using rev_ind.
  - intros H. symmetry in H. by apply code_valid in H.
  - unfold opcodes4. rewrite rev_app_distr. cbn. intros H. apply code_inj in H. eauto.
Qed.

Lemma last_instr2 cs i b :
  last_at 1 (opcodes4 (cs ++ [i])) = code b -> exists cs0 j, cs = cs0 ++ [j] /\ i_op j = b.
Proof.
  intros H. apply last_instr. rewrite <- H. unfold opcodes4. by rewrite rev_app_distr.
Qed.

Lemma last_instr3 cs i j b :
  last_at 2 (opcodes4 (cs ++ [i; j])) = code b -> exists cs0 k, cs = cs0 ++ [k] /\ i_op k = b.
Proof.
  intros H. apply last_instr. rewrite <- H. unfold opcodes4. by rewrite rev_app_distr.
Qed.

Lemma is_one_of_code bs b : is_one_of bs (code b) = true -> b ∈ bs.
Proof.
  intros H. apply is_one_of_In in H as (c & Hc & E). apply code_inj in E as ->.
  by apply list_elem_of_In.
Qed.

Lemma is_one_of_pred bs z : (if is_one_of bs z then z else BC_INVALID) <> BC_INVALID ->
  exists b, z = code b /\ is_one_of bs (code b) = true.
Proof.
  destruct (is_one_of bs z) eqn:E; [|done]. intros _.
  pose proof E as E'. apply is_one_of_In in E' as (b & _ & ->). eauto.
Qed.

(** *** Instructions of a known opcode *)

Lemma wf_no_operand op args :
  wf_instr (mkInstr op args) -> GetBytecodeLength (code op) = 1 -> args = [].
Proof. intros [H _] E. cbn in H. destruct args; [done|]. cbn in H. lia. Qed.

Lemma wf_one_operand op args :
  wf_instr (mkInstr op args) -> GetBytecodeLength (code op) = 2 ->
  exists n, args = [n] /\ is_byte n.
Proof.
  intros [H HB] E. cbn in H, HB. destruct args as [|n [|]]; cbn in H; try lia.
  apply Forall_cons_iff in HB as [? _]. eauto.
Qed.

(** *** Emitting an instruction *)

Definition emitted (i : instr) (effect : Z) (g : Mgenc) : Mgenc :=
  let cur := u64 (currentStackDepth g + effect) in
  set_code (bytecode g ++ encode i) cur (Z.max (maxStackDepth g) cur)
    (shift4 (code (i_op i)) (last4Bytecodes g)) g.

Lemma Emit1_step bc effect w g o :
  Emit1 (code bc) effect (mkGen w g o) = Ok (tt, mkGen w (emitted (mkInstr bc []) effect g) o).
Proof. done. Qed.

Lemma u8_byte n : is_byte n -> u8 n = n.
Proof. intros H. apply uwrap_small. exact H. Qed.

Lemma Emit2_step bc a effect w g o :
  is_byte a ->
  Emit2 (code bc) a effect (mkGen w g o) = Ok (tt, mkGen w (emitted (mkInstr bc [a]) effect g) o).
Proof.
  intros Ha. unfold Emit2. erewrite bind_step by apply Emit1_step.
  unfold AddBytecodeArgument. rewrite update_mg_step. unfold emitted, set_bytecode. cbn.
  by rewrite u8_byte, <- app_assoc.
Qed.

Lemma shift4_opcodes cs i :
  (length cs <= 4)%nat -> shift4 (code (i_op i)) (opcodes4 cs) = opcodes4 (cs ++ [i]).
Proof. intros H. unfold shift4, opcodes4. rewrite rev_app_distr. done. Qed.

(** Only the last four instructions count. *)
Lemma opcodes4_drop c cs : (4 <= length cs)%nat -> opcodes4 (c :: cs) = opcodes4 cs.
Proof.
  intros H. unfold opcodes4. cbn [rev].
  rewrite !lookup_app_l by (rewrite length_rev; lia). done.
Qed.

Lemma tracks_emitted g p cs i effect :
  tracks g p cs -> wf_instr i ->
  exists p' cs', tracks (emitted i effect g) p' cs' /\
    p' ++ encode_all cs' = p ++ encode_all (cs ++ [i]).
Proof.
  intros [Hc Hw Hl Hn] Hi.
  assert (bytecode (emitted i effect g) = p ++ encode_all (cs ++ [i])) as E.
  { cbn. rewrite Hc, encode_all_snoc. by rewrite app_assoc. }
  assert (last4Bytecodes (emitted i effect g) = opcodes4 (cs ++ [i])) as El.
  { cbn. rewrite Hl. by apply shift4_opcodes. }
  assert (Forall wf_instr (cs ++ [i])) as Hw' by (apply Forall_app; auto).
  destruct (decide (length cs = 4)%nat) as [H4|].
  - destruct cs as [|c cs]; [done|]. exists (p ++ encode c), (cs ++ [i]). split; [split|].
    + rewrite E. cbn. by rewrite <- app_assoc.
    + by apply Forall_cons_iff in Hw' as [_ ?].
    + rewrite El. cbn [app]. rewrite opcodes4_drop; [done|]. rewrite length_app. cbn in *. lia.
    + rewrite length_app. cbn in *. lia.
    + cbn. by rewrite <- app_assoc.
  - exists p, (cs ++ [i]). split; [split|]; try done.
    rewrite length_app. cbn. lia.
Qed.

Lemma encode_length i : wf_instr i -> length (encode i) = Z.to_nat (GetBytecodeLength (code (i_op i))).
Proof. intros [H _]. lia. Qed.

Lemma length_encode_app p cs i :
  length (p ++ encode_all (cs ++ [i])) = (length (p ++ encode_all cs) + length (encode i))%nat.
Proof. rewrite encode_all_snoc, app_assoc. apply length_app. Qed.

(** Overwriting the opcode of the last instruction, which has one operand. *)
Lemma set_last_opcode p cs op op' n w g o :
  bytecode g = p ++ encode_all (cs ++ [mkInstr op [n]]) ->
  set_byte (Z.of_nat (length (bytecode g)) - 2) (code op') (mkGen w g o) =
    Ok (tt, mkGen w (set_bytecode (p ++ encode_all (cs ++ [mkInstr op' [n]])) g) o).
Proof.
  intros E. unfold set_byte. erewrite bind_step by apply mg_step.
  rewrite E, length_encode_app. set (k := length (p ++ encode_all cs)). cbn [length encode i_op i_args].
  replace (Z.of_nat (k + 2) - 2) with (Z.of_nat k) by lia.
  rewrite (proj2 (Z.leb_le _ _)) by lia. rewrite (proj2 (Z.ltb_lt _ _)) by lia. cbn [andb].
  rewrite update_mg_step, Nat2Z.id. do 3 f_equal.
  rewrite !encode_all_snoc, !app_assoc. unfold k. rewrite insert_app_r_alt, Nat.sub_diag by lia.
  cbn. rewrite uwrap_small; [done|]. pose proof (code_range op'). cbn in *. lia.
Qed.

Lemma encode_all_snoc2 cs j i :
  encode_all (cs ++ [j; i]) = encode_all cs ++ encode j ++ encode i.
Proof. rewrite encode_all_app. cbn. by rewrite app_nil_r. Qed.

(** Taking out the last instruction but one. *)
Lemma removeLastBytecodeAt_1 p cs j i w g o :
  tracks g p (cs ++ [j; i]) ->
  removeLastBytecodeAt 1 (mkGen w g o) =
    Ok (tt, mkGen w (set_bytecode (p ++ encode_all (cs ++ [i])) g) o).
Proof.
  intros [Hc Hw Hl Hn].
  assert (last_at 0 (opcodes4 (cs ++ [j; i])) = code (i_op i)) as L0
    by (unfold opcodes4; by rewrite rev_app_distr).
  assert (last_at 1 (opcodes4 (cs ++ [j; i])) = code (i_op j)) as L1
    by (unfold opcodes4; by rewrite rev_app_distr).
  apply Forall_app in Hw as [_ Hw]. apply Forall_cons_iff in Hw as [Hj Hw].
  apply Forall_cons_iff in Hw as [Hi _].
  pose proof (wf_length _ Hi) as Li. pose proof (wf_length _ Hj) as Lj.
  unfold removeLastBytecodeAt, getOffsetOfLastBytecode. rewrite bind_assoc.
  erewrite bind_step by apply mg_step. rewrite Hl.
  assert (some_invalid 2 (opcodes4 (cs ++ [j; i])) = false) as ->.
  { unfold some_invalid. cbn [existsb seq]. rewrite L0, L1.
    rewrite !(proj2 (Z.eqb_neq _ _)) by apply code_valid. done. }
  erewrite bind_step by apply ret_step. erewrite bind_step by apply lastBytecodeAt_step.
  rewrite Hl, L1. erewrite bind_step by apply mg_step.
  assert (bytes_of_last 2 (opcodes4 (cs ++ [j; i])) =
            Z.of_nat (length (encode j)) + Z.of_nat (length (encode i))) as ->.
  { cbn [bytes_of_last]. rewrite L0, L1. lia. }
  rewrite Hc, encode_all_snoc2, !app_assoc, !length_app.
  set (q := p ++ encode_all cs).
  assert (Z.of_nat (length p + length (encode_all cs)) = Z.of_nat (length q)) as Eq
    by (unfold q; by rewrite length_app).
  replace (Z.of_nat (length p + length (encode_all cs) + length (encode j) + length (encode i)) -
           (Z.of_nat (length (encode j)) + Z.of_nat (length (encode i))))
    with (Z.of_nat (length q)) by lia.
  rewrite (proj2 (Z.ltb_ge _ _)) by lia. rewrite (proj2 (Z.ltb_ge _ _)) by lia. cbn [orb].
  rewrite update_mg_step, <- Lj, Nat2Z.id. do 3 f_equal.
  rewrite <- !app_assoc. fold q. rewrite take_app_length.
  replace (Z.to_nat (Z.of_nat (length q) + Z.of_nat (length (encode j))))
    with (length q + length (encode j))%nat by lia.
  rewrite drop_app_add, drop_app_length. unfold q. by rewrite encode_all_snoc, app_assoc.
Qed.

(** What the optimisation of a duplicate that is popped twice does. *)
Lemma OptimizeDupPopPop_spec p cs w g o :
  tracks g p cs ->
  exists b g', OptimizeDupPopPopSequence (mkGen w g o) = Ok (b, mkGen w g' o) /\
    ((b = false /\ g' = g) \/
     (b = true /\ exists cs0 n,
        cs = cs0 ++ [mkInstr BC_INC_FIELD_PUSH [n]] /\
        tracks g' p (cs0 ++ [mkInstr BC_INC_FIELD [n]])) \/
     (b = true /\ exists cs0 i,
        cs = cs0 ++ [mkInstr BC_DUP []; i] /\ pops_something (i_op i) = true /\
        tracks g' p (cs0 ++ [i]))).
Proof.
  intros HT. pose proof HT as [Hc Hw Hl Hn]. unfold OptimizeDupPopPopSequence.
  erewrite bind_step by apply mg_step.
  destruct (isCurrentlyInliningABlock g); [exists false, g; auto|].
  erewrite bind_step by apply LastBytecodeIs_step. rewrite Hl.
  destruct (last_at 0 (opcodes4 cs) =? BC_INC_FIELD_PUSH) eqn:E.
  - apply Z.eqb_eq, last_instr in E as (cs0 & [op args] & -> & Eop). cbn in Eop. subst op.
    apply Forall_app in Hw as [Hw0 Hw1]. apply Forall_cons_iff in Hw1 as [Hi _].
    destruct (wf_one_operand _ _ Hi eq_refl) as (n & -> & Hb).
    unfold optimizeIncFieldPush. erewrite bind_step by apply code_size_step.
    erewrite bind_step by (by eapply set_last_opcode).
    erewrite bind_step by apply update_mg_step. cbn beta.
    eexists true, _. split; [done|]. right; left. split; [done|]. exists cs0, n. split; [done|].
    split; cbn.
    + done.
    + apply Forall_app. split; [done|]. apply Forall_singleton. split; [done|].
      by apply Forall_singleton.
    + rewrite Hl. unfold opcodes4. by rewrite !rev_app_distr.
    + rewrite length_app in *. cbn in *. lia.
  - erewrite bind_step by apply lastBytecodeIsOneOf_step. rewrite Hl.
    destruct (IsPopSmthBytecode _ =? BC_INVALID) eqn:E0; [exists false, g; auto|].
    erewrite bind_step by apply LastBytecodeIs_step. rewrite Hl.
    destruct (last_at 1 (opcodes4 cs) =? BC_DUP) eqn:E1; [|exists false, g; auto].
    cbn [negb]. apply Z.eqb_neq, is_one_of_pred in E0 as (b & E0 & Hb).
    apply last_instr in E0 as (cs1 & i & -> & Eop).
    apply Z.eqb_eq, last_instr2 in E1 as (cs0 & [op args] & -> & Eop1). cbn in Eop1. subst op.
    rewrite <- app_assoc in *. cbn [app] in *.
    apply Forall_app in Hw as [Hw0 Hw1]. apply Forall_cons_iff in Hw1 as [Hd Hw1].
    rewrite (wf_no_operand _ _ Hd eq_refl) in *.
    erewrite bind_step by (by eapply removeLastBytecodeAt_1).
    erewrite bind_step by apply update_mg_step. cbn beta.
    eexists true, _. split; [done|]. right; right. split; [done|]. exists cs0, i.
    split; [done|]. split; [by rewrite Eop|].
    assert (length cs0 <= 2)%nat as H2 by (rewrite length_app in Hn; cbn in Hn; lia).
    split; cbn.
    + done.
    + by apply Forall_app.
    + rewrite Hl. unfold opcodes4. rewrite !rev_app_distr. cbn [rev app last_0 last_1 last_3].
      destruct cs0 as [|? [|? [|]]]; cbn in H2; try lia; done.
    + rewrite length_app in *. cbn in *. lia.
Qed.

(** *** Fields *)

Lemma read_operand p op n rest e w g o i :
  bytecode g = p ++ encode (mkInstr op [n]) ++ rest -> i = Z.of_nat (length p) + 1 ->
  read_byte e i (mkGen w g o) = Ok (n, mkGen w g o).
Proof.
  intros Hc ->. unfold read_byte. erewrite bind_step by apply mg_step. rewrite Hc.
  rewrite (proj2 (Z.ltb_ge _ _)) by lia. apply of_option_step.
  rewrite lookup_app_r by lia.
  by replace (Z.to_nat (Z.of_nat (length p) + 1) - length p)%nat with 1%nat by lia.
Qed.

(** A field push as an instruction: the opcode that was found and its operand. *)
Lemma field_push_instr i b :
  wf_instr i -> i_op i = b ->
  is_one_of [BC_PUSH_FIELD; BC_PUSH_FIELD_0; BC_PUSH_FIELD_1] (code b) = true ->
  exists n, field_push i = Some n /\ is_byte n.
Proof.
  destruct i as [op args]. cbn [i_op]. intros Hw <- Hb. apply is_one_of_code in Hb.
  repeat (apply elem_of_cons in Hb as [->|Hb]); [..|by apply elem_of_nil in Hb].
  - destruct (wf_one_operand _ _ Hw eq_refl) as (n & -> & Hn). by exists n.
  - rewrite (wf_no_operand _ _ Hw eq_refl). exists 0. done.
  - rewrite (wf_no_operand _ _ Hw eq_refl). exists 1. done.
Qed.

Lemma pushed_field_step p i n rest w g o off :
  bytecode g = p ++ encode i ++ rest -> field_push i = Some n ->
  off = Z.of_nat (length (encode i ++ rest)) ->
  pushed_field (code (i_op i)) off (mkGen w g o) = Ok (n, mkGen w g o).
Proof.
  intros Hc Hn ->. destruct i as [op args]. unfold field_push in Hn. cbn [i_op i_args] in *.
  destruct op; try discriminate Hn; destruct args as [|a [|]]; try discriminate Hn;
    injection Hn as <-; try done.
  unfold pushed_field. cbn [Z.eqb code Pos.eqb].
  erewrite bind_step by apply code_size_step.
  eapply read_operand; [done|]. rewrite Hc, length_app. lia.
Qed.

(** Taking away the last instructions. *)
Lemma bytes_of_last_encode cs k l :
  Forall wf_instr k -> (length k <= 4)%nat -> (length (cs ++ k) <= 4)%nat ->
  l = opcodes4 (cs ++ k) ->
  bytes_of_last (length k) l = Z.of_nat (length (encode_all k)).
Proof.
  intros Hw Hk Hn ->. revert cs Hn. induction k as [|i k IH]; intros cs Hn; [done|].
  apply Forall_cons_iff in Hw as [Hi Hw]. cbn [length] in *. cbn [bytes_of_last].
  assert (last_at (length k) (opcodes4 (cs ++ i :: k)) = code (i_op i)) as ->.
  { rewrite opcodes4_at by done. rewrite rev_app_distr. cbn [rev].
    rewrite <- app_assoc, lookup_app_r by (rewrite length_rev; lia).
    by rewrite length_rev, Nat.sub_diag. }
  replace (cs ++ i :: k) with ((cs ++ [i]) ++ k) by by rewrite <- app_assoc.
  rewrite IH; [|done|lia|by rewrite <- app_assoc].
  change (encode_all (i :: k)) with (encode i ++ encode_all k).
  rewrite length_app, <- (wf_length _ Hi). lia.
Qed.

Lemma removeLastBytecodes_step p cs k w g o :
  tracks g p (cs ++ k) ->
  removeLastBytecodes (length k) (mkGen w g o) =
    Ok (tt, mkGen w (set_bytecode (p ++ encode_all cs) g) o).
Proof.
  intros [Hc Hw Hl Hn]. unfold removeLastBytecodes. erewrite bind_step by apply mg_step.
  apply Forall_app in Hw as [_ Hw].
  rewrite (bytes_of_last_encode cs k); [|done|rewrite length_app in Hn; lia|done|done].
  rewrite Hc, encode_all_app, app_assoc, length_app.
  rewrite (proj2 (Z.ltb_ge _ _)) by lia. rewrite update_mg_step, Nat2Z.id.
  replace (length (p ++ encode_all cs) + length (encode_all k) - length (encode_all k))%nat
    with (length (p ++ encode_all cs)) by lia.
  by rewrite take_app_length.
Qed.

Lemma tracks_reset g p : bytecode g = p -> last4Bytecodes g = invalid4 -> tracks g p [].
Proof. intros Hc Hl. split; [by rewrite app_nil_r|done|done|cbn; lia]. Qed.

Lemma encode_all_snoc3 cs i j k :
  encode_all (cs ++ [i; j; k]) = encode_all cs ++ encode i ++ encode j ++ encode k.
Proof. rewrite encode_all_app. cbn. by rewrite app_nil_r. Qed.

(** What the optimisation of the increment of a field does. *)
Lemma OptimizeIncField_spec p cs w g o idx :
  tracks g p cs -> is_byte idx ->
  exists b g', OptimizeIncField idx (mkGen w g o) = Ok (b, mkGen w g' o) /\
    ((b = false /\ g' = g) \/
     (b = true /\ exists cs0 i,
        cs = cs0 ++ [i; mkInstr BC_INC []; mkInstr BC_DUP []] /\ field_push i = Some idx /\
        tracks g' (p ++ encode_all cs0) [mkInstr BC_INC_FIELD_PUSH [idx]])).
Proof.
  intros HT Hidx. pose proof HT as [Hc Hw Hl Hn]. unfold OptimizeIncField.
  erewrite bind_step by apply mg_step.
  destruct (isCurrentlyInliningABlock g); [exists false, g; auto|].
  erewrite bind_step by apply LastBytecodeIs_step. rewrite Hl.
  destruct (last_at 0 (opcodes4 cs) =? BC_DUP) eqn:E0; [|exists false, g; auto].
  cbn [negb]. erewrite bind_step by apply LastBytecodeIs_step. rewrite Hl.
  destruct (last_at 1 (opcodes4 cs) =? BC_INC) eqn:E1; [|exists false, g; auto].
  cbn [negb]. erewrite bind_step by apply lastBytecodeIsOneOf_step. rewrite Hl.
  destruct (IsPushFieldBytecode _ =? BC_INVALID) eqn:E2; [exists false, g; auto|].
  apply Z.eqb_eq, last_instr in E0 as (cs1 & [op args] & -> & Eop). cbn in Eop. subst op.
  apply Z.eqb_eq, last_instr2 in E1 as (cs2 & [op args'] & -> & Eop). cbn in Eop. subst op.
  apply Z.eqb_neq, is_one_of_pred in E2 as (b & E2 & Hb).
  rewrite <- app_assoc in *. cbn [app] in *. rewrite E2. pose proof E2 as E3.
  apply last_instr3 in E3 as (cs0 & i & -> & Eop).
  rewrite <- app_assoc in *. cbn [app] in *.
  apply Forall_app in Hw as [Hw0 Hw1]. apply Forall_cons_iff in Hw1 as [Hi Hw1].
  apply Forall_cons_iff in Hw1 as [Hinc Hw1]. apply Forall_cons_iff in Hw1 as [Hdup _].
  rewrite (wf_no_operand _ _ Hinc eq_refl), (wf_no_operand _ _ Hdup eq_refl) in *.
  destruct (field_push_instr i b Hi Eop Hb) as (n & Hp & Hn').
  unfold IsPushFieldBytecode. rewrite Hb, <- Eop.
  erewrite bind_step.
  2:{ eapply (pushed_field_step (p ++ encode_all cs0) i n
               (encode (mkInstr BC_INC []) ++ encode (mkInstr BC_DUP []))); [|done|].
      - by rewrite Hc, encode_all_snoc3, app_assoc.
      - rewrite <- (wf_length _ Hi), !length_app. cbn [length encode i_op i_args]. lia. }
  destruct (n =? idx) eqn:En; [|exists false, g; auto]. apply Z.eqb_eq in En as ->.
  erewrite bind_step by
    (by apply (removeLastBytecodes_step p cs0 [i; mkInstr BC_INC []; mkInstr BC_DUP []])).
  erewrite bind_step by apply update_mg_step.
  erewrite bind_step by (by apply Emit2_step).
  eexists true, _. split; [done|]. right. split; [done|]. exists cs0, i. split_and!; [done|done|].
  split; cbn.
  - done.
  - apply Forall_singleton. split; [done|]. by apply Forall_singleton.
  - done.
  - lia.
Qed.

(** What the optimisation of the return of a field does. *)
Lemma OptimizeReturnField_spec p cs w g o :
  tracks g p cs ->
  exists b g', OptimizeReturnField (mkGen w g o) = Ok (b, mkGen w g' o) /\
    ((b = false /\ g' = g) \/
     (b = true /\ exists cs0 i n r,
        cs = cs0 ++ [i] /\ field_push i = Some n /\
        (n, i_op r) ∈ [(0, BC_RETURN_FIELD_0); (1, BC_RETURN_FIELD_1); (2, BC_RETURN_FIELD_2)] /\
        i_args r = [] /\
        tracks g' (p ++ encode_all cs0) [r])).
Proof.
  intros HT. pose proof HT as [Hc Hw Hl Hn]. unfold OptimizeReturnField.
  erewrite bind_step by apply mg_step.
  destruct (isCurrentlyInliningABlock g); [exists false, g; auto|].
  erewrite bind_step by apply lastBytecodeAt_step. rewrite Hl.
  destruct (IsPushFieldBytecode _ =? BC_INVALID) eqn:E2; [exists false, g; auto|].
  apply Z.eqb_neq, is_one_of_pred in E2 as (b & E2 & Hb). rewrite E2. pose proof E2 as E3.
  apply last_instr in E3 as (cs0 & i & -> & Eop).
  apply Forall_app in Hw as [Hw0 Hw1]. apply Forall_cons_iff in Hw1 as [Hi _].
  destruct (field_push_instr i b Hi Eop Hb) as (n & Hp & Hn'). rewrite <- Eop.
  erewrite bind_step.
  2:{ eapply (pushed_field_step (p ++ encode_all cs0) i n []); [|done|].
      - by rewrite Hc, encode_all_snoc, app_nil_r, app_assoc.
      - by rewrite <- (wf_length _ Hi), app_nil_r. }
  destruct (n >? 2) eqn:E; [exists false, g; auto|].
  erewrite bind_step by (by apply (removeLastBytecodes_step p cs0 [i])).
  erewrite bind_step by apply update_mg_step.
  assert (n = 0 \/ n = 1 \/ n = 2) as Hcase by (unfold is_byte in Hn'; lia).
  assert (exists bc, (n, bc) ∈ [(0, BC_RETURN_FIELD_0); (1, BC_RETURN_FIELD_1); (2, BC_RETURN_FIELD_2)] /\
     EmitRETURNFIELD n = Emit1 (code bc) 0 /\ GetBytecodeLength (code bc) = 1) as (bc & Hbc & Ee & Elen).
  { destruct Hcase as [->|[->| ->]]; [exists BC_RETURN_FIELD_0|exists BC_RETURN_FIELD_1
      |exists BC_RETURN_FIELD_2]; (split; [set_solver|done]). }
  rewrite Ee. erewrite bind_step by apply Emit1_step.
  eexists true, _. split; [done|]. right. split; [done|].
  exists cs0, i, n, (mkInstr bc []). split_and!; [done|done|done|done|].
  split; cbn.
  - done.
  - apply Forall_singleton. split; [by cbn|done].
  - done.
  - lia.
Qed.

(** ** The emitters *)

(** The sequences do the same in every activation in the middle of a method whose
    operands are variables; one that begins with a duplicate needs an element on the
    operand stack. *)
Definition equivalent USE_TAGGING LoadClassBasic routines (a b : list instr) : Prop :=
  forall fuel w cur f n,
    ready w cur f n -> Forall (variable_operand w cur f n) a ->
    (head a = Some (mkInstr BC_DUP []) -> (n < length (f_slots f))%nat) ->
    exec_all USE_TAGGING LoadClassBasic routines fuel a w =
    exec_all USE_TAGGING LoadClassBasic routines fuel b w.

(** The same for sequences that leave the frame: its own stack may differ. *)
Definition equivalent_leaving USE_TAGGING LoadClassBasic routines (a b : list instr) : Prop :=
  forall fuel w cur f n,
    ready w cur f n -> Forall (variable_operand w cur f n) a ->
    (head a = Some (mkInstr BC_DUP []) -> (n < length (f_slots f))%nat) ->
    f_previous f <> Some cur ->
    exec_all USE_TAGGING LoadClassBasic routines fuel a w =
      exec_all USE_TAGGING LoadClassBasic routines fuel b w \/
    agree cur (exec_all USE_TAGGING LoadClassBasic routines fuel b w)
      (exec_all USE_TAGGING LoadClassBasic routines fuel a w).

(** The buffer has [bs] behind what was there, up to the exchange of a tail of it by an
    equivalent sequence. *)
Definition emits (equiv : list instr -> list instr -> Prop) (bs : list Z) (g g' : Mgenc) : Prop :=
  (exists p cs, tracks g' p cs) /\
  exists pre a b,
    bytecode g ++ bs = pre ++ encode_all a /\ bytecode g' = pre ++ encode_all b /\
    Forall wf_instr a /\ Forall wf_instr b /\ equiv a b.

Lemma wf_plain op : GetBytecodeLength (code op) = 1 -> wf_instr (mkInstr op []).
Proof. intros H. split; [by cbn|done]. Qed.

Lemma wf_operand op n : GetBytecodeLength (code op) = 2 -> is_byte n -> wf_instr (mkInstr op [n]).
Proof. intros H Hn. split; [by cbn|]. by apply Forall_singleton. Qed.

Lemma emits_plain equiv i effect g p cs :
  tracks g p cs -> wf_instr i -> equiv [i] [i] ->
  emits equiv (encode i) g (emitted i effect g).
Proof.
  intros HT Hi He. split.
  - destruct (tracks_emitted g p cs i effect HT Hi) as (p' & cs' & H & _). eauto.
  - exists (bytecode g), [i], [i]. cbn. rewrite app_nil_r.
    split_and!; [done|done|by constructor|by constructor|done].
Qed.

(** The tail [a] of the instructions that are there with [i] is replaced by [b]. *)
Lemma emits_exchange equiv i g g' p p' cs0 cs1 a0 b :
  tracks g p (cs0 ++ a0) -> wf_instr i -> tracks g' p' (cs1 ++ b) ->
  p' ++ encode_all cs1 = p ++ encode_all cs0 -> equiv (a0 ++ [i]) b ->
  emits equiv (encode i) g g'.
Proof.
  intros [Hc Hw _ _] Hi HT' E He. split; [eauto|].
  destruct HT' as [Hc' Hw' _ _]. exists (p ++ encode_all cs0), (a0 ++ [i]), b.
  apply Forall_app in Hw as [_ Hw]. apply Forall_app in Hw' as [_ Hw'].
  split_and!; [| |by apply Forall_app; auto|done|done].
  - rewrite Hc, encode_all_app, encode_all_snoc. by rewrite !app_assoc.
  - by rewrite Hc', encode_all_app, app_assoc, E.
Qed.

(** The same with [i] emitted behind the replacement. *)
Lemma emits_exchange_then equiv i effect g g1 p cs0 a0 b :
  tracks g p (cs0 ++ a0) -> wf_instr i -> tracks g1 p (cs0 ++ b) ->
  equiv (a0 ++ [i]) (b ++ [i]) -> emits equiv (encode i) g (emitted i effect g1).
Proof.
  intros [Hc Hw _ _] Hi HT1 He. split.
  - destruct (tracks_emitted _ _ _ i effect HT1 Hi) as (p' & cs' & H & _). eauto.
  - destruct HT1 as [Hc1 Hw1 _ _]. exists (p ++ encode_all cs0), (a0 ++ [i]), (b ++ [i]).
    apply Forall_app in Hw as [_ Hw]. apply Forall_app in Hw1 as [_ Hw1].
    split_and!; [| |by apply Forall_app; auto|by apply Forall_app; auto|done].
    + rewrite Hc, encode_all_app, encode_all_snoc. by rewrite !app_assoc.
    + cbn. rewrite Hc1, encode_all_app, encode_all_snoc. by rewrite !app_assoc.
Qed.

Section Equivalences.

Context (USE_TAGGING : bool) (LoadClassBasic : loc -> V oop) (routines : Routines).

Notation equivalent := (equivalent USE_TAGGING LoadClassBasic routines).
Notation equivalent_leaving := (equivalent_leaving USE_TAGGING LoadClassBasic routines).

Lemma equivalent_refl a : equivalent a a.
Proof. by intros fuel w cur f n _ _ _. Qed.

Lemma equivalent_dup i :
  pops_something (i_op i) = true -> equivalent [mkInstr BC_DUP []; i; mkInstr BC_POP []] [i].
Proof.
  intros Hp fuel w cur f n HR HV Hd. apply Forall_cons_iff in HV as [_ HV].
  apply Forall_cons_iff in HV as [Hv _]. eapply dup_pop_pop; [done|by apply Hd|done|done].
Qed.

Lemma equivalent_inc n :
  equivalent [mkInstr BC_INC_FIELD_PUSH [n]; mkInstr BC_POP []] [mkInstr BC_INC_FIELD [n]].
Proof. intros fuel w cur f k HR _ _. by eapply inc_push_pop. Qed.

Lemma equivalent_inc_field p q n :
  field_push p = Some n -> field_pop q = Some n ->
  equivalent [p; mkInstr BC_INC []; mkInstr BC_DUP []; q] [mkInstr BC_INC_FIELD_PUSH [n]].
Proof. intros Hp Hq fuel w cur f k HR _ _. by eapply inc_field_sequence. Qed.

Lemma equivalent_return p r n :
  field_push p = Some n ->
  (n, i_op r) ∈ [(0, BC_RETURN_FIELD_0); (1, BC_RETURN_FIELD_1); (2, BC_RETURN_FIELD_2)] ->
  i_args r = [] ->
  equivalent [p; mkInstr BC_RETURN_LOCAL []] [r].
Proof.
  intros Hp Hr Ha fuel w cur f k HR _ _. eapply push_field_return; [done|done|].
  destruct r as [op args]. cbn in *. subst args.
  apply elem_of_cons in Hr as [[= -> ->]|Hr]; [done|].
  apply elem_of_cons in Hr as [[= -> ->]|Hr]; [done|].
  apply list_elem_of_singleton in Hr as [= -> ->]. done.
Qed.

Lemma leaving_refl a : equivalent_leaving a a.
Proof. intros fuel w cur f n _ _ _ _. by left. Qed.

Lemma leaving_dup i :
  pops_something (i_op i) = true ->
  equivalent_leaving [mkInstr BC_DUP []; i; mkInstr BC_RETURN_SELF []]
    [i; mkInstr BC_RETURN_SELF []].
Proof.
  intros Hp fuel w cur f n HR HV Hd Hprev. right. apply Forall_cons_iff in HV as [_ HV].
  apply Forall_cons_iff in HV as [Hv _].
  eapply dup_sink_return_self; [done|by apply Hd|done|done|done].
Qed.

Lemma leaving_inc n :
  equivalent_leaving [mkInstr BC_INC_FIELD_PUSH [n]; mkInstr BC_RETURN_SELF []]
    [mkInstr BC_INC_FIELD [n]; mkInstr BC_RETURN_SELF []].
Proof. intros fuel w cur f k HR _ _ Hprev. right. by eapply inc_push_return_self. Qed.

End Equivalences.

(** ** The claims *)

(** C5: dropping a value.  [EmitPOP] adds a pop to the code, or, when the last
    instructions duplicate a value and pop it into a variable or a field, or increment
    a field and push it, changes these; the changed code does the same as the code with
    the pop, in every state.  The remembered opcodes stay those of the code. *)
Theorem emit_pop_correct USE_TAGGING LoadClassBasic routines w g o p cs :
  tracks g p cs ->
  exists g', EmitPOP (mkGen w g o) = Ok (tt, mkGen w g' o) /\
    emits (equivalent USE_TAGGING LoadClassBasic routines) [code BC_POP] g g'.
Proof.
  intros HT. unfold EmitPOP.
  destruct (OptimizeDupPopPop_spec p cs w g o HT) as (b & g' & E & H).
  erewrite bind_step by exact E.
  destruct H as [(-> & ->)|[(-> & cs0 & n & -> & HT')|(-> & cs0 & i & -> & Hp & HT')]].
  - eexists. split; [apply Emit1_step|].
    apply (emits_plain _ (mkInstr BC_POP []) _ _ p cs);
      [done|by apply wf_plain|apply equivalent_refl].
  - exists g'. split; [done|].
    eapply (emits_exchange _ (mkInstr BC_POP [])); [done|by apply wf_plain|done|done|].
    apply equivalent_inc.
  - exists g'. split; [done|].
    eapply (emits_exchange _ (mkInstr BC_POP [])); [done|by apply wf_plain|done|done|].
    by apply equivalent_dup.
Qed.

(** The instruction that pops into a field. *)
Definition pop_field_instr (idx : Z) : instr :=
  if idx =? 0 then mkInstr BC_POP_FIELD_0 []
  else if idx =? 1 then mkInstr BC_POP_FIELD_1 []
  else mkInstr BC_POP_FIELD [idx].

Lemma pop_field_instr_spec idx :
  is_byte idx -> wf_instr (pop_field_instr idx) /\ field_pop (pop_field_instr idx) = Some idx.
Proof.
  intros H. unfold pop_field_instr.
  destruct (idx =? 0) eqn:E0; [apply Z.eqb_eq in E0 as ->; split; [by apply wf_plain|done]|].
  destruct (idx =? 1) eqn:E1; [apply Z.eqb_eq in E1 as ->; split; [by apply wf_plain|done]|].
  split; [by apply wf_operand|done].
Qed.

Lemma EmitPopFieldWithIndex_step idx w g o :
  is_byte idx ->
  EmitPopFieldWithIndex idx (mkGen w g o) =
    Ok (tt, mkGen w (emitted (pop_field_instr idx) (-1) g) o).
Proof.
  intros H. unfold EmitPopFieldWithIndex, pop_field_instr.
  destruct (idx =? 0); [apply Emit1_step|]. destruct (idx =? 1); [apply Emit1_step|].
  by apply Emit2_step.
Qed.

(** C23: storing into a field.  For a field of the class that is being compiled,
    [EmitPOPFIELD] adds the instruction that pops into it, or, when the last
    instructions push that same field, increment it and duplicate it, replaces them by
    one that increments the field in place; the code does the same.  For an unknown
    field, or one whose index does not fit a byte, it is an error. *)
Theorem emit_pop_field_correct USE_TAGGING LoadClassBasic routines w g o p cs field :
  tracks g p cs ->
  let idx := GetFieldIndex (holderGenc g) field in
  if (0 <=? idx) && (idx <=? 255) then
    exists g', EmitPOPFIELD field (mkGen w g o) = Ok (tt, mkGen w g' o) /\
      emits (equivalent USE_TAGGING LoadClassBasic routines) (encode (pop_field_instr idx)) g g'
  else EmitPOPFIELD field (mkGen w g o) = Err ParseError.
Proof.
  intros HT idx. unfold EmitPOPFIELD, field_index. fold idx.
  destruct ((0 <=? idx) && (idx <=? 255)) eqn:E.
  - apply andb_prop in E as [E1 E2]. apply Z.leb_le in E1, E2.
    assert (is_byte idx) as Hb by (unfold is_byte; lia).
    destruct (pop_field_instr_spec idx Hb) as [Hw Hf].
    rewrite bind_assoc. erewrite bind_step by apply mg_step. fold idx.
    rewrite (proj2 (Z.ltb_ge _ _)) by lia. rewrite Z.gtb_ltb, (proj2 (Z.ltb_ge _ _)) by lia.
    cbn [orb]. erewrite bind_step by apply ret_step.
    destruct (OptimizeIncField_spec p cs w g o idx HT Hb) as (b & g' & Eo & H).
    erewrite bind_step by exact Eo.
    destruct H as [(-> & ->)|(-> & cs0 & i & -> & Hi & HT')].
    + eexists. split; [by apply EmitPopFieldWithIndex_step|].
      apply (emits_plain _ _ _ _ p cs); [done|done|apply equivalent_refl].
    + exists g'. split; [done|].
      eapply (emits_exchange _ _ _ _ p _ cs0 []); [done|done|done|by rewrite app_nil_r|].
      by apply equivalent_inc_field.
  - rewrite bind_assoc. erewrite bind_step by apply mg_step. fold idx.
    assert ((idx <? 0) || (idx >? 255) = true) as ->; [|done].
    apply andb_false_iff in E as [E|E]; apply Z.leb_gt in E.
    + by rewrite (proj2 (Z.ltb_lt _ _)).
    + rewrite Z.gtb_ltb, (proj2 (Z.ltb_lt 255 idx)) by lia. apply orb_true_r.
Qed.

(** C24: returns.  [EmitRETURNLOCAL] adds a return, or turns the push of one of the
    first fields before it into a return of that field; [EmitRETURNSELF] adds a return
    of the receiver and drops the duplicate that nothing uses any more.  The code
    returns the same to the same caller and has the same effects; at most the operand
    stack of the frame that is left differs. *)
Theorem emit_return_correct USE_TAGGING LoadClassBasic routines w g o p cs :
  tracks g p cs ->
  (exists g', EmitRETURNLOCAL (mkGen w g o) = Ok (tt, mkGen w g' o) /\
    emits (equivalent USE_TAGGING LoadClassBasic routines) [code BC_RETURN_LOCAL] g g') /\
  (exists g', EmitRETURNSELF (mkGen w g o) = Ok (tt, mkGen w g' o) /\
    emits (equivalent_leaving USE_TAGGING LoadClassBasic routines) [code BC_RETURN_SELF] g g').
Proof.
  intros HT. split.
  - unfold EmitRETURNLOCAL.
    destruct (OptimizeReturnField_spec p cs w g o HT) as (b & g' & E & H).
    erewrite bind_step by exact E.
    destruct H as [(-> & ->)|(-> & cs0 & i & n & r & -> & Hi & Hr & Ha & HT')].
    + eexists. split; [apply Emit1_step|].
      apply (emits_plain _ (mkInstr BC_RETURN_LOCAL []) _ _ p cs);
        [done|by apply wf_plain|apply equivalent_refl].
    + exists g'. split; [done|].
      eapply (emits_exchange _ (mkInstr BC_RETURN_LOCAL []) _ _ p _ cs0 []);
        [done|by apply wf_plain|done|by rewrite app_nil_r|].
      by eapply equivalent_return.
  - unfold EmitRETURNSELF.
    destruct (OptimizeDupPopPop_spec p cs w g o HT) as (b & g' & E & H).
    erewrite bind_step by exact E. eexists. split; [apply Emit1_step|].
    destruct H as [(-> & ->)|[(-> & cs0 & n & -> & HT')|(-> & cs0 & i & -> & Hp & HT')]].
    + apply (emits_plain _ (mkInstr BC_RETURN_SELF []) _ _ p cs);
        [done|by apply wf_plain|apply leaving_refl].
    + eapply (emits_exchange_then _ (mkInstr BC_RETURN_SELF []) _ _ _ p cs0 _ _ HT);
        [by apply wf_plain|exact HT'|apply leaving_inc].
    + eapply (emits_exchange_then _ (mkInstr BC_RETURN_SELF []) _ _ _ p cs0 _ _ HT);
        [by apply wf_plain|exact HT'|by apply leaving_dup].
Qed.

(** ** Examples *)

Definition no_routines : Routines :=
  mkRoutines (fun _ _ => fail Undef) (fun _ _ => fail Undef) (fun _ _ _ => fail Undef)
    (fun _ _ _ _ => fail Undef).

(** A method in a class with the field 7 whose code so far is [cs]. *)
Definition buffer (cs : list instr) : Mgenc :=
  set_code (encode_all cs) 0 0 (opcodes4 cs)
    (new_Mgenc (mkClassGen None None false [7%nat] [] [] []) None).

Lemma buffer_tracks cs :
  Forall wf_instr cs -> (length cs <= 4)%nat -> tracks (buffer cs) [] cs.
Proof. by split. Qed.

(** The frame 1 of the example is ready to run such code. *)
Lemma example_ready :
  ready (example_world 1%nat 7) 1%nat
    (mkFrame None None 0%nat 7 1 [Tagged 1; Tagged 2; Tagged 3] 5) 2.
Proof.
  split; [done|done|cbn; lia|cbn; lia|]. intros l o H. by eapply (heap_below _ (example_heap_ok 1%nat 7)).
Qed.

Lemma emit_pop_correct_witness :
  let before := [mkInstr BC_DUP []; mkInstr BC_POP_LOCAL_0 []] in
  exists g', EmitPOP (mkGen (example_world 1%nat 7) (buffer before) []) =
      Ok (tt, mkGen (example_world 1%nat 7) g' []) /\
    emits (equivalent true (fun _ => fail Undef) no_routines) [code BC_POP] (buffer before) g' /\
    ready (example_world 1%nat 7) 1%nat
      (mkFrame None None 0%nat 7 1 [Tagged 1; Tagged 2; Tagged 3] 5) 2.
Proof.
  intros before.
  destruct (emit_pop_correct true (fun _ => fail Undef) no_routines (example_world 1%nat 7)
              (buffer before) [] [] before) as (g' & H1 & H2).
  - apply buffer_tracks; [|cbn; lia]. repeat constructor.
  - exists g'. split; [exact H1|]. split; [exact H2|exact example_ready].
Defined.

Lemma emit_pop_field_correct_witness :
  let before := [mkInstr BC_PUSH_FIELD_0 []; mkInstr BC_INC []; mkInstr BC_DUP []] in
  exists g', EmitPOPFIELD 7%nat (mkGen (example_world 1%nat 7) (buffer before) []) =
      Ok (tt, mkGen (example_world 1%nat 7) g' []) /\
    emits (equivalent true (fun _ => fail Undef) no_routines) (encode (pop_field_instr 0))
      (buffer before) g'.
Proof.
  intros before.
  apply (emit_pop_field_correct true (fun _ => fail Undef) no_routines (example_world 1%nat 7)
           (buffer before) [] [] before 7%nat).
  apply buffer_tracks; [|cbn; lia]. repeat constructor.
Defined.

Lemma emit_return_correct_witness :
  let before := [mkInstr BC_PUSH_FIELD_1 []] in
  exists g', EmitRETURNLOCAL (mkGen (example_world 1%nat 7) (buffer before) []) =
      Ok (tt, mkGen (example_world 1%nat 7) g' []) /\
    emits (equivalent true (fun _ => fail Undef) no_routines) [code BC_RETURN_LOCAL]
      (buffer before) g'.
Proof.
  intros before.
  apply (emit_return_correct true (fun _ => fail Undef) no_routines (example_world 1%nat 7)
           (buffer before) [] [] before).
  apply buffer_tracks; [|cbn; lia]. repeat constructor.
Defined.
