(* ===== verification/Jumps.v ===== *)
(** * Jumps

    The offsets that [PatchJumpOffsetToPointToNextInstruction] and
    [EmitBackwardsJumpOffsetToTarget] of [MethodGenerationContext.cpp] write are those
    that the interpreter reads back: a jump leads to the instruction it was made for. *)
From Stdlib Require Import String.
From S2P Require Import Prelude Bytecodes IntegerPrims Objects Universe Frame Interpreter Lookup.
From S2P Require Import Activation Instructions Sequences MethodGen Peephole.
Local Open Scope Z_scope.

(** ** Jumps with the indices they lead to *)

Section Branches.

Context (USE_TAGGING : bool).

Definition goto (target : Z) : V () := modify (set_bytecodeIndex target).

(** Pop the condition, then branch. *)
Definition branch_pop (test : Known -> oop -> bool) (target next : Z) : V () :=
  v ← pop; k ← gets known; goto (if test k v then target else next).

(** Branch with nil in place of the condition, or pop it. *)
Definition branch_nil (test : Known -> oop -> bool) (target next : Z) : V () :=
  v ← pop; k ← gets known;
  if test k v then push (nilObject k);; goto target else goto next.

(** Branch with the condition kept as the value, or pop it. *)
Definition branch_keep (test : Known -> oop -> bool) (target next : Z) : V () :=
  v ← pop; k ← gets known;
  if test k v then push v;; goto target else goto next.

(** What a jump from its single byte opcode does. *)
Definition branch (bc : Bytecodes.bytecode) (target next : Z) : V () :=
  match bc with
  | BC_JUMP | BC_JUMP_BACKWARD => goto target
  | BC_JUMP_ON_FALSE_POP => branch_pop is_false target next
  | BC_JUMP_ON_TRUE_POP => branch_pop is_true target next
  | BC_JUMP_ON_FALSE_TOP_NIL => branch_nil is_false target next
  | BC_JUMP_ON_TRUE_TOP_NIL => branch_nil is_true target next
  | BC_JUMP_ON_NOT_NIL_POP => branch_pop not_nil target next
  | BC_JUMP_ON_NIL_POP => branch_pop is_nil target next
  | BC_JUMP_ON_NOT_NIL_TOP_TOP => branch_keep not_nil target next
  | BC_JUMP_ON_NIL_TOP_TOP => branch_keep is_nil target next
  | BC_JUMP_IF_GREATER =>
      greater ← checkIsGreater USE_TAGGING;
      if greater : bool then doPop;; doPop;; goto target else goto next
  | _ => fail Undef
  end.

(** The opcode for an offset of two bytes. *)
Definition double_byte (bc : Bytecodes.bytecode) : option Bytecodes.bytecode :=
  match bc with
  | BC_JUMP => Some BC_JUMP2
  | BC_JUMP_ON_FALSE_POP => Some BC_JUMP2_ON_FALSE_POP
  | BC_JUMP_ON_TRUE_POP => Some BC_JUMP2_ON_TRUE_POP
  | BC_JUMP_ON_FALSE_TOP_NIL => Some BC_JUMP2_ON_FALSE_TOP_NIL
  | BC_JUMP_ON_TRUE_TOP_NIL => Some BC_JUMP2_ON_TRUE_TOP_NIL
  | BC_JUMP_ON_NOT_NIL_POP => Some BC_JUMP2_ON_NOT_NIL_POP
  | BC_JUMP_ON_NIL_POP => Some BC_JUMP2_ON_NIL_POP
  | BC_JUMP_ON_NOT_NIL_TOP_TOP => Some BC_JUMP2_ON_NOT_NIL_TOP_TOP
  | BC_JUMP_ON_NIL_TOP_TOP => Some BC_JUMP2_ON_NIL_TOP_TOP
  | BC_JUMP_IF_GREATER => Some BC_JUMP2_IF_GREATER
  | BC_JUMP_BACKWARD => Some BC_JUMP2_BACKWARD
  | _ => None
  end.

Lemma double_byte_code bc bc' :
  double_byte bc = Some bc' ->
  code bc' = code bc + NUM_SINGLE_BYTE_JUMP_BYTECODES /\
  code bc < FIRST_DOUBLE_BYTE_JUMP_BYTECODE.
Proof. destruct bc; try discriminate; intros [= <-]; done. Qed.

(** ** The interpreter *)

(** An offset that is read is there whatever is on the stack. *)
Definition offset_is (off : V Z) (d : Z) (meth : Method) (i : Z) : Prop :=
  forall w, heap w !! method w = Some (OMethod meth) -> bytecodeIndexGlobal w = i ->
    off w = Ok (d, w).

Section Run.

Context (w : World) (cur : loc) (f : Frame) (s : list oop) (v : oop) (meth : Method).
Hypothesis Hc : frame w = Some cur.
Hypothesis Hf : heap w !! cur = Some (OFrame f).
Hypothesis Hs : f_slots f = s ++ [v].
Hypothesis Hz : (length (f_slots f) <= f_size f)%nat.
Hypothesis Hm : heap w !! method w = Some (OMethod meth).
Context (off : V Z) (d : Z).
Hypothesis Hoff : offset_is off d meth (bytecodeIndexGlobal w).

Notation target := (bytecodeIndexGlobal w + d).
Notation next := (bytecodeIndexGlobal w + 3).

Lemma jump_by_step n w' : jump_by n w' = Ok (tt, set_bytecodeIndex (bytecodeIndexGlobal w' + n) w').
Proof using Type. done. Qed.

Lemma pop_top_step : pop w = Ok (v, put_frame cur (with_slots s f) w).
Proof using Hc Hf Hs.
  unfold pop. erewrite bind_step by (by apply GetFrame_step). by eapply Pop_step.
Qed.

Lemma jump_pop_branch test : jump_pop off test w = branch_pop test target next w.
Proof using Hc Hf Hs Hm Hoff.
  unfold jump_pop, branch_pop. erewrite bind_step by (by apply GetFrame_step).
  erewrite bind_step by (by eapply Top_step). erewrite bind_step by apply gets_step.
  erewrite (bind_step pop) by apply pop_top_step. erewrite (bind_step (gets known)) by apply gets_step.
  change (known (put_obj _ _ w)) with (known w). destruct (test (known w) v).
  - rewrite bind_assoc. erewrite bind_step by (by apply Hoff).
    erewrite bind_step by apply jump_by_step. by rewrite (PopVoid_step (set_bytecodeIndex _ w) cur f Hf s v Hs).
  - erewrite bind_step by apply jump_by_step. by rewrite (PopVoid_step (set_bytecodeIndex _ w) cur f Hf s v Hs).
Qed.

Lemma push_popped_step x :
  push x (put_frame cur (with_slots s f) w) =
    Ok (tt, put_frame cur (with_slots (s ++ [x]) f) w).
Proof using Hc Hf Hs Hz.
  rewrite (push_step _ cur (with_slots s f)); [|done|apply put_obj_eq|].
  - by rewrite put_obj_twice.
  - rewrite Hs, length_app in Hz. cbn in *. lia.
Qed.

Lemma jump_top_nil_branch test : jump_top_nil off test w = branch_nil test target next w.
Proof using Hc Hf Hs Hz Hm Hoff.
  unfold jump_top_nil, branch_nil. erewrite bind_step by (by apply GetFrame_step).
  erewrite bind_step by (by eapply Top_step). erewrite bind_step by apply gets_step.
  erewrite (bind_step pop) by apply pop_top_step. erewrite (bind_step (gets known)) by apply gets_step.
  change (known (put_obj _ _ w)) with (known w). destruct (test (known w) v).
  - erewrite bind_step by (by apply Hoff). erewrite bind_step by apply jump_by_step.
    erewrite (bind_step (push _)) by apply push_popped_step. by rewrite (SetTop_step (set_bytecodeIndex _ w) cur f Hf s v _ Hs).
  - erewrite bind_step by (by eapply PopVoid_step). done.
Qed.

Lemma jump_top_top_branch test : jump_top_top off test w = branch_keep test target next w.
Proof using Hc Hf Hs Hz Hm Hoff.
  unfold jump_top_top, branch_keep. erewrite bind_step by (by apply GetFrame_step).
  erewrite bind_step by (by eapply Top_step). erewrite bind_step by apply gets_step.
  erewrite (bind_step pop) by apply pop_top_step. erewrite (bind_step (gets known)) by apply gets_step.
  change (known (put_obj _ _ w)) with (known w). destruct (test (known w) v).
  - erewrite bind_step by (by apply Hoff). rewrite jump_by_step.
    erewrite (bind_step (push _)) by apply push_popped_step.
    unfold goto. rewrite modify_step. do 2 f_equal. rewrite <- Hs, with_slots_id.
    by rewrite put_obj_id.
  - erewrite bind_step by (by eapply PopVoid_step). done.
Qed.

End Run.

Lemma doPop_index i w :
  doPop (set_bytecodeIndex i w) =
    match doPop w with Ok (a, w1) => Ok (a, set_bytecodeIndex i w1) | Err e => Err e end.
Proof.
  unfold doPop, GetFrame, PopVoid, Pop, load_frame, load, store, mbind, stateful_bind, gets, lift.
  cbn. destruct (frame w) as [l|]; [|done]. cbn. destruct (heap w !! l) as [[]|] eqn:E; try done.
  cbn. destruct (last (f_slots f)); [|done]. cbn. rewrite E. done.
Qed.

Lemma GetStackElement_same l i w x w1 : GetStackElement l i w = Ok (x, w1) -> w1 = w.
Proof.
  intros H. apply bind_Ok in H as (f & w2 & H1 & H). apply load_frame_Ok in H1 as [_ ->].
  unfold lift in H. by destruct (of_option _ _); simplify_eq.
Qed.

Lemma small_int_same x w r w1 : small_int USE_TAGGING x w = Ok (r, w1) -> w1 = w.
Proof.
  unfold small_int. destruct x; [by intros [= _ <-]|by intros [= _ <-]|].
  destruct USE_TAGGING; [by intros [= _ <-]|]. unfold load, mbind, stateful_bind.
  destruct (heap w !! l); [|done]. by intros [= _ <-].
Qed.

Lemma as_double_same x w r w1 : as_double x w = Ok (r, w1) -> w1 = w.
Proof.
  unfold as_double. destruct x; [by intros [= _ <-]|by intros [= _ <-]|].
  unfold load, mbind, stateful_bind. destruct (heap w !! l); [|done]. by intros [= _ <-].
Qed.

Lemma checkIsGreater_same w b w1 : checkIsGreater USE_TAGGING w = Ok (b, w1) -> w1 = w.
Proof.
  intros H. unfold checkIsGreater in H.
  apply bind_Ok in H as (cur & w2 & H1 & H). apply GetFrame_same in H1 as ->.
  apply bind_Ok in H as (t1 & w2 & H1 & H). apply GetStackElement_same in H1 as ->.
  apply bind_Ok in H as (t2 & w2 & H1 & H). apply GetStackElement_same in H1 as ->.
  apply bind_Ok in H as (i1 & w2 & H1 & H). apply small_int_same in H1 as ->.
  apply bind_Ok in H as (i2 & w2 & H1 & H). apply small_int_same in H1 as ->.
  destruct i1, i2; try by injection H.
  all: apply bind_Ok in H as (d1 & w2 & H1 & H); apply as_double_same in H1 as ->;
    apply bind_Ok in H as (d2 & w2 & H1 & H); apply as_double_same in H1 as ->;
    destruct d1, d2; by injection H.
Qed.

Lemma doPop_frame w w1 : doPop w = Ok (tt, w1) -> frame w1 = frame w.
Proof.
  intros H. unfold doPop, PopVoid, Pop in H.
  apply bind_Ok in H as (l & w2 & H1 & H). apply GetFrame_same in H1 as ->.
  apply bind_Ok in H as (x & w2 & H & E). injection E as <-.
  apply bind_Ok in H as (f & w3 & Ef & H). apply load_frame_Ok in Ef as [Hf ->].
  destruct (last (f_slots f)); [|done]. apply bind_Ok in H as (u & w3 & Es & E).
  injection E as _ <-. rewrite (store_frame _ _ _ Hf) in Es. by injection Es as _ <-.
Qed.

Lemma two_pops w : (cur ← GetFrame; PopVoid cur;; PopVoid cur) w = (doPop;; doPop) w.
Proof.
  destruct (frame w) as [l|] eqn:El.
  2:{ unfold doPop, GetFrame, mbind, stateful_bind, gets, lift. by rewrite El. }
  assert (forall w', frame w' = Some l -> doPop w' = PopVoid l w') as HP.
  { intros w' E. unfold doPop. by erewrite bind_step by (by apply GetFrame_step). }
  erewrite bind_step by (by apply GetFrame_step). unfold mbind, stateful_bind.
  rewrite <- HP by done. destruct (doPop w) as [[[] w1]|e] eqn:E; [|done].
  rewrite HP; [done|]. by rewrite (doPop_frame _ _ E).
Qed.

Lemma jump_if_greater_branch w meth off d :
  heap w !! method w = Some (OMethod meth) -> offset_is off d meth (bytecodeIndexGlobal w) ->
  jump_if_greater USE_TAGGING off w =
    branch BC_JUMP_IF_GREATER (bytecodeIndexGlobal w + d) (bytecodeIndexGlobal w + 3) w.
Proof.
  intros Hm Hoff. unfold jump_if_greater, branch.
  destruct (checkIsGreater USE_TAGGING w) as [[b w1]|e] eqn:E;
    [|unfold mbind, stateful_bind; by rewrite E].
  pose proof (checkIsGreater_same _ _ _ E) as ->. rewrite !(bind_step _ _ _ _ _ E).
  destruct b; [|done]. erewrite bind_step by (by apply Hoff).
  erewrite bind_step by apply jump_by_step.
  set (i := bytecodeIndexGlobal w + d).
  change ((cur ← GetFrame; PopVoid cur;; PopVoid cur) (set_bytecodeIndex i w) =
          (doPop;; doPop;; goto i) w).
  assert (forall w', (cur ← GetFrame; PopVoid cur;; PopVoid cur) w' = (doPop;; doPop) w') as ->.
  { intros w'. apply two_pops. }
  unfold mbind, stateful_bind. rewrite doPop_index.
  destruct (doPop w) as [[[] w1]|e]; [|done]. rewrite doPop_index.
  by destruct (doPop w1) as [[[] w2]|e].
Qed.

End Branches.

(** The current frame has something on its stack. *)
Definition has_top (w : World) : Prop :=
  exists cur f, frame w = Some cur /\ heap w !! cur = Some (OFrame f) /\
    f_slots f <> [] /\ (length (f_slots f) <= f_size f)%nat.

Section Dispatch.

Context (USE_TAGGING : bool) (LoadClassBasic : loc -> V oop) (routines : Routines).

Notation dispatch := (dispatch USE_TAGGING LoadClassBasic routines).
Notation branch := (branch USE_TAGGING).

Context (w : World) (meth : Method) (q rest : list Z) (op b1 b2 : Z).
Hypothesis Hm : heap w !! method w = Some (OMethod meth).
Hypothesis Hb : m_bytecodes meth = q ++ [op; b1; b2] ++ rest.
Hypothesis Hpc : bytecodeIndexGlobal w = Z.of_nat (length q).

Lemma offset1_is : offset_is offset1 b1 meth (bytecodeIndexGlobal w).
Proof using Hb Hpc.
  intros w' Hm' Hi. unfold offset1. erewrite bind_step by apply gets_step.
  eapply (fetch_step _ _ q _ _ _ 1); [done|done|done|lia].
Qed.

Lemma offset2_is : offset_is offset2 (ComputeOffset b1 b2) meth (bytecodeIndexGlobal w).
Proof using Hb Hpc.
  intros w' Hm' Hi. unfold offset2. erewrite bind_step by apply gets_step.
  erewrite bind_step by (eapply (fetch_step _ _ q _ _ _ 1); [done|done|done|lia]).
  erewrite bind_step by (eapply (fetch_step _ _ q _ _ _ 2); [done|done|done|lia]). done.
Qed.

Lemma goto_by off d :
  offset_is off d meth (bytecodeIndexGlobal w) ->
  (o ← off; jump_by o) w = goto (bytecodeIndexGlobal w + d) w /\
  (o ← off; jump_by (- o)) w = goto (bytecodeIndexGlobal w - d) w.
Proof using Hm.
  intros Hoff. split; erewrite bind_step by (by apply Hoff); done.
Qed.

(** The jumps forward, with an offset of one byte and of two. *)
Lemma dispatch_branch bc bc2 fuel :
  double_byte bc = Some bc2 -> bc <> BC_JUMP_BACKWARD -> has_top w ->
  dispatch fuel bc w =
    branch bc (bytecodeIndexGlobal w + b1) (bytecodeIndexGlobal w + 3) w /\
  dispatch fuel bc2 w =
    branch bc (bytecodeIndexGlobal w + ComputeOffset b1 b2) (bytecodeIndexGlobal w + 3) w.
Proof using Hm Hb Hpc.
  intros E Hnb (cur & f & Hc & Hf & Hne & Hz).
  destruct (f_slots f) as [|v s _] eqn:Hs using rev_ind; [done|]. rewrite <- Hs in Hz.
  pose proof offset1_is as O1. pose proof offset2_is as O2.
  destruct bc; try discriminate E; try done; injection E as <-; unfold Interpreter.dispatch, Jumps.branch;
    (split;
     [ first [ by apply goto_by | by eapply jump_pop_branch | by eapply jump_top_nil_branch
             | by eapply jump_top_top_branch | by eapply jump_if_greater_branch ]
     | first [ by apply goto_by | by eapply jump_pop_branch | by eapply jump_top_nil_branch
             | by eapply jump_top_top_branch | by eapply jump_if_greater_branch ] ]).
Qed.

(** The jump back. *)
Lemma dispatch_backward fuel next :
  dispatch fuel BC_JUMP_BACKWARD w =
    branch BC_JUMP_BACKWARD (bytecodeIndexGlobal w - b1) next w /\
  dispatch fuel BC_JUMP2_BACKWARD w =
    branch BC_JUMP_BACKWARD (bytecodeIndexGlobal w - ComputeOffset b1 b2) next w.
Proof using Hm Hb Hpc.
  pose proof offset1_is as O1. pose proof offset2_is as O2.
  split; unfold Interpreter.dispatch, Jumps.branch; by apply goto_by.
Qed.

End Dispatch.

(** ** Patching *)

Lemma set_byte_step a b c i z w g o :
  bytecode g = a ++ b :: c -> i = Z.of_nat (length a) ->
  set_byte i z (mkGen w g o) = Ok (tt, mkGen w (set_bytecode (a ++ u8 z :: c) g) o).
Proof.
  intros Hc ->. unfold set_byte. erewrite bind_step by apply mg_step. rewrite Hc, length_app.
  cbn [length]. rewrite (proj2 (Z.leb_le _ _)) by lia. rewrite (proj2 (Z.ltb_lt _ _)) by lia.
  cbn [andb]. rewrite update_mg_step, Nat2Z.id.
  by rewrite insert_app_r_alt, Nat.sub_diag by lia.
Qed.

Lemma checkJumpOffset_step n w g o :
  0 <= n -> checkJumpOffset n (mkGen w g o) =
    if n <=? 0xFFFF then Ok (tt, mkGen w g o)
    else Err (ErrorExit "The jumpOffset is out of range").
Proof.
  intros Hn. unfold checkJumpOffset. rewrite (proj2 (Z.ltb_ge _ _)) by lia. cbn [orb].
  destruct (n <=? 0xFFFF) eqn:E.
  - apply Z.leb_le in E. by rewrite Z.gtb_ltb, (proj2 (Z.ltb_ge _ _)) by lia.
  - apply Z.leb_gt in E. by rewrite Z.gtb_ltb, (proj2 (Z.ltb_lt _ _)) by lia.
Qed.

(** The opcode and the operands a jump over [n] bytes is written with. *)
Definition jump_bytes (bc bc2 : Bytecodes.bytecode) (n : Z) : list Z :=
  if n <=? 0xFF then [code bc; n; 0] else [code bc2; offset_lo n; offset_hi n].

Lemma land_lo n : 0 <= n -> u8 (Z.land n 0xFF) = offset_lo n.
Proof.
  intros H. unfold offset_lo, uwrap. change 0xFF with (Z.ones 8). rewrite Z.land_ones by lia.
  by rewrite Z.mod_mod.
Qed.

Lemma Patch_step bc bc2 x y q rest w g o :
  double_byte bc = Some bc2 -> bytecode g = q ++ [code bc; x; y] ++ rest ->
  let n := Z.of_nat (3 + length rest) in
  n < 2 ^ 64 ->
  PatchJumpOffsetToPointToNextInstruction (Z.of_nat (length q) + 1) (mkGen w g o) =
    if n <=? 0xFFFF
    then Ok (tt, mkGen w (set_bytecode (q ++ jump_bytes bc bc2 n ++ rest) g) o)
    else Err (ErrorExit "The jumpOffset is out of range").
Proof.
  intros Hbc Hc n Hn. unfold PatchJumpOffsetToPointToNextInstruction.
  replace (Z.of_nat (length q) + 1 - 1) with (Z.of_nat (length q)) by lia.
  erewrite bind_step.
  2:{ unfold read_byte. erewrite bind_step by apply mg_step. rewrite Hc.
      rewrite (proj2 (Z.ltb_ge _ _)) by lia. apply of_option_step.
      rewrite Nat2Z.id. by apply list_lookup_middle. }
  erewrite bind_step by apply code_size_step.
  assert (u64 (Z.of_nat (length (bytecode g)) - Z.of_nat (length q)) = n) as ->.
  { rewrite Hc, length_app. cbn [length app]. rewrite uwrap_small; unfold n in *; lia. }
  unfold mbind at 1, stateful_bind at 1. rewrite checkJumpOffset_step by lia.
  destruct (n <=? 0xFFFF) eqn:E; [|done]. apply Z.leb_le in E.
  unfold jump_bytes. destruct (n <=? 0xFF) eqn:E1.
  - apply Z.leb_le in E1.
    erewrite bind_step.
    2:{ eapply (set_byte_step (q ++ [code bc]) x); [rewrite Hc; by rewrite <- app_assoc|].
        rewrite length_app. cbn. lia. }
    erewrite (set_byte_step (q ++ [code bc; u8 n]) y).
    + rewrite u8_byte by (unfold is_byte, n in *; lia).
      do 3 f_equal. cbn. by rewrite <- app_assoc.
    + cbn. by rewrite <- !app_assoc.
    + rewrite length_app. cbn. lia.
  - destruct (double_byte_code _ _ Hbc) as [Ecode Hlt].
    rewrite (proj2 (Z.ltb_lt _ _)) by done. rewrite <- Ecode.
    erewrite bind_step by (by eapply (set_byte_step q (code bc))).
    erewrite bind_step.
    2:{ eapply (set_byte_step (q ++ [u8 (code bc2)]) x); [by rewrite <- app_assoc|].
        rewrite length_app. cbn. lia. }
    erewrite (set_byte_step (q ++ [u8 (code bc2); u8 (Z.land n 0xFF)]) y).
    + rewrite land_lo by lia.
      rewrite u8_byte by (pose proof (code_range bc2); unfold is_byte; cbn in *; lia).
      do 3 f_equal. cbn. by rewrite <- app_assoc.
    + cbn. by rewrite <- !app_assoc.
    + rewrite length_app. cbn. lia.
Qed.

Lemma jump_bytes_length bc bc2 n : length (jump_bytes bc bc2 n) = 3%nat.
Proof. unfold jump_bytes. by case_match. Qed.

Section Step.

Context (USE_TAGGING : bool) (LoadClassBasic : loc -> V oop) (routines : Routines).

Notation step := (step USE_TAGGING LoadClassBasic routines).

Lemma step_dispatch fuel v meth q rest bc :
  heap v !! method v = Some (OMethod meth) -> m_bytecodes meth = q ++ code bc :: rest ->
  bytecodeIndexGlobal v = Z.of_nat (length q) -> bc <> BC_HALT ->
  step fuel v = (dispatch USE_TAGGING LoadClassBasic routines fuel bc;; mret None) v.
Proof.
  intros Hm Hb Hpc Hh. unfold Interpreter.step. erewrite bind_step by apply gets_step.
  erewrite bind_step by (eapply (fetch_step _ _ q _ _ _ 0); [done|done|done|lia]).
  rewrite decode_code. by destruct bc.
Qed.

Lemma step_branch fuel v meth q rest bc bc2 n :
  double_byte bc = Some bc2 -> bc <> BC_JUMP_BACKWARD -> 0 <= n <= 0xFFFF ->
  heap v !! method v = Some (OMethod meth) ->
  m_bytecodes meth = q ++ jump_bytes bc bc2 n ++ rest ->
  bytecodeIndexGlobal v = Z.of_nat (length q) -> has_top v ->
  step fuel v =
    (branch USE_TAGGING bc (Z.of_nat (length q) + n) (Z.of_nat (length q) + 3);; mret None) v.
Proof.
  intros Hbc Hnb Hn Hm Hb Hpc Ht. rewrite <- Hpc. unfold jump_bytes in Hb.
  destruct (n <=? 0xFF) eqn:E.
  - erewrite step_dispatch; [|done|done|done|by destruct bc].
    destruct (dispatch_branch USE_TAGGING LoadClassBasic routines v meth q rest _ _ _
                Hm Hb Hpc bc bc2 fuel Hbc Hnb Ht) as [D _].
    unfold mbind, stateful_bind. by rewrite D.
  - erewrite step_dispatch; [|done|done|done|by destruct bc; try discriminate Hbc; injection Hbc as <-].
    destruct (dispatch_branch USE_TAGGING LoadClassBasic routines v meth q rest _ _ _
                Hm Hb Hpc bc bc2 fuel Hbc Hnb Ht) as [_ D].
    unfold mbind, stateful_bind. by rewrite D, ComputeOffset_roundtrip by lia.
Qed.

Lemma step_backward fuel v meth q rest n :
  0 <= n <= 0xFFFF ->
  heap v !! method v = Some (OMethod meth) ->
  m_bytecodes meth = q ++ jump_bytes BC_JUMP_BACKWARD BC_JUMP2_BACKWARD n ++ rest ->
  bytecodeIndexGlobal v = Z.of_nat (length q) ->
  step fuel v = (goto (Z.of_nat (length q) - n);; mret None) v.
Proof.
  intros Hn Hm Hb Hpc. rewrite <- Hpc. unfold jump_bytes in Hb.
  destruct (n <=? 0xFF) eqn:E.
  - erewrite step_dispatch; [|done|done|done|done].
    destruct (dispatch_backward USE_TAGGING LoadClassBasic routines v meth q rest _ _ _
                Hm Hb Hpc fuel 0) as [D _].
    unfold mbind, stateful_bind. by rewrite D.
  - erewrite step_dispatch; [|done|done|done|done].
    destruct (dispatch_backward USE_TAGGING LoadClassBasic routines v meth q rest _ _ _
                Hm Hb Hpc fuel 0) as [_ D].
    unfold mbind, stateful_bind. by rewrite D, ComputeOffset_roundtrip by lia.
Qed.

End Step.

(** The jump back as it is emitted. *)
Lemma EmitJumpBackward_step n w g o :
  0 <= n <= 0xFFFF ->
  exists g', EmitJumpBackwardWithOffset n (mkGen w g o) = Ok (tt, mkGen w g' o) /\
    bytecode g' = bytecode g ++ jump_bytes BC_JUMP_BACKWARD BC_JUMP2_BACKWARD n /\
    inlinedLoops g' = inlinedLoops g.
Proof.
  intros Hn. unfold EmitJumpBackwardWithOffset, Emit3, jump_bytes.
  assert (u8 (Z.shiftr n 8) = offset_hi n) as Hh by done.
  destruct (n <=? 0xFF) eqn:E; erewrite bind_step by apply Emit1_step;
    (erewrite bind_step by apply update_mg_step); unfold AddBytecodeArgument;
    rewrite update_mg_step; eexists; (split; [done|]); split; try done; cbn;
    rewrite <- !app_assoc; cbn; rewrite land_lo by lia; do 3 f_equal.
  - apply Z.leb_le in E. unfold offset_lo. apply uwrap_small. cbn. lia.
  - apply Z.leb_le in E. rewrite Z.shiftr_div_pow2 by lia. rewrite Z.div_small by (cbn; lia). done.
Qed.

(** C20: forward jumps lead to their target.  A jump that was emitted with a dummy offset
    and is patched later leads, when its condition holds, to exactly the instruction that
    was the next one when it was patched, and otherwise to the instruction behind it: the
    interpreter reads back the offset that was written, also when the distance needs the
    second byte and the opcode was changed for it.  Nothing but the three bytes of the
    jump changes; a distance of more than 0xFFFF is an error. *)
Theorem patched_jump_lands USE_TAGGING LoadClassBasic routines bc bc2 x y q rest w g o :
  double_byte bc = Some bc2 -> bc <> BC_JUMP_BACKWARD ->
  bytecode g = q ++ [code bc; x; y] ++ rest -> Z.of_nat (length (bytecode g)) < 2 ^ 64 ->
  if Z.of_nat (3 + length rest) <=? 0xFFFF then
    exists op b1 b2,
      PatchJumpOffsetToPointToNextInstruction (Z.of_nat (length q) + 1) (mkGen w g o) =
        Ok (tt, mkGen w (set_bytecode (q ++ [op; b1; b2] ++ rest) g) o) /\
      forall fuel v meth more,
        heap v !! method v = Some (OMethod meth) ->
        m_bytecodes meth = (q ++ [op; b1; b2] ++ rest) ++ more ->
        bytecodeIndexGlobal v = Z.of_nat (length q) -> has_top v ->
        step USE_TAGGING LoadClassBasic routines fuel v =
          (branch USE_TAGGING bc (Z.of_nat (length (bytecode g))) (Z.of_nat (length q) + 3);;
           mret None) v
  else
    PatchJumpOffsetToPointToNextInstruction (Z.of_nat (length q) + 1) (mkGen w g o) =
      Err (ErrorExit "The jumpOffset is out of range").
Proof.
  intros Hbc Hnb Hc Hn. rewrite Hc, length_app in Hn. cbn [length app] in Hn.
  pose proof (Patch_step bc bc2 x y q rest w g o Hbc Hc ltac:(lia)) as HP.
  set (n := Z.of_nat (3 + length rest)) in *. destruct (n <=? 0xFFFF) eqn:E; [|done].
  apply Z.leb_le in E.
  assert (exists op b1 b2, jump_bytes bc bc2 n = [op; b1; b2]) as (op & b1 & b2 & EJ).
  { unfold jump_bytes. case_match; eauto. }
  exists op, b1, b2. rewrite <- EJ. split; [done|].
  intros fuel v meth more Hm Hb Hpc Ht.
  replace (Z.of_nat (length (bytecode g))) with (Z.of_nat (length q) + n)
    by (rewrite Hc, length_app; cbn [length app]; lia).
  eapply step_branch; [done|done|lia|done| |done|done].
  rewrite Hb, <- !app_assoc. done.
Qed.

(** C25: loops close.  The jump back that [EmitBackwardsJumpOffsetToTarget] emits for a
    loop leads to the beginning of the loop, for every distance up to 0xFFFF; a larger
    one is an error.  The loop is recorded with its beginning and the index of the jump. *)
Theorem backward_jump_lands USE_TAGGING LoadClassBasic routines begin w g o :
  let here := Z.of_nat (length (bytecode g)) in
  0 <= begin <= here -> here < 2 ^ 64 ->
  if here - begin <=? 0xFFFF then
    exists g', EmitBackwardsJumpOffsetToTarget begin (mkGen w g o) = Ok (tt, mkGen w g' o) /\
      inlinedLoops g' = inlinedLoops g ++ [mkBackJump begin here] /\
      (exists bs, bytecode g' = bytecode g ++ bs /\ length bs = 3%nat) /\
      forall fuel v meth more,
        heap v !! method v = Some (OMethod meth) -> m_bytecodes meth = bytecode g' ++ more ->
        bytecodeIndexGlobal v = here ->
        step USE_TAGGING LoadClassBasic routines fuel v = (goto begin;; mret None) v
  else EmitBackwardsJumpOffsetToTarget begin (mkGen w g o) =
         Err (ErrorExit "The jumpOffset is out of range").
Proof.
  intros here Hb Hh. unfold EmitBackwardsJumpOffsetToTarget.
  erewrite bind_step by apply code_size_step. fold here.
  assert (u64 (here - begin) = here - begin) as -> by (apply uwrap_small; lia).
  pose proof (checkJumpOffset_step (here - begin) w g o ltac:(lia)) as HJ.
  destruct (here - begin <=? 0xFFFF) eqn:E; [|unfold mbind, stateful_bind; by rewrite HJ].
  apply Z.leb_le in E. erewrite bind_step by exact HJ.
  destruct (EmitJumpBackward_step (here - begin) w g o ltac:(lia)) as (g1 & E1 & Hc1 & Hl1).
  erewrite bind_step by exact E1. eexists. split; [apply update_mg_step|]. split_and!.
  - cbn. by rewrite Hl1.
  - eexists. split; [exact Hc1|]. apply jump_bytes_length.
  - intros fuel v meth more Hm Hcode Hpc. cbn in Hcode.
    rewrite (step_backward _ _ _ _ _ meth (bytecode g) more (here - begin)); [|lia|done| |done].
    + replace (Z.of_nat (length (bytecode g)) - (here - begin)) with begin by lia. done.
    + rewrite Hcode, Hc1. by rewrite <- app_assoc.
Qed.

(** ** Examples *)

(** Code with a jump that is not patched yet, and what was emitted behind it. *)
Definition jump_buffer (rest : list Z) : Mgenc :=
  set_bytecode ([code BC_PUSH_NIL] ++ [code BC_JUMP_ON_NIL_POP; 0; 0] ++ rest) (buffer []).

Lemma patched_jump_lands_witness :
  exists op b1 b2,
    PatchJumpOffsetToPointToNextInstruction 2
      (mkGen (example_world 1%nat 0) (jump_buffer (repeat (code BC_DUP) 300)) []) =
    Ok (tt, mkGen (example_world 1%nat 0)
              (set_bytecode ([code BC_PUSH_NIL] ++ [op; b1; b2] ++ repeat (code BC_DUP) 300)
                 (jump_buffer (repeat (code BC_DUP) 300))) []).
Proof.
  destruct (patched_jump_lands true (fun _ => fail Undef) no_routines BC_JUMP_ON_NIL_POP
              BC_JUMP2_ON_NIL_POP 0 0 [code BC_PUSH_NIL] (repeat (code BC_DUP) 300)
              (example_world 1%nat 0) (jump_buffer (repeat (code BC_DUP) 300)) [])
    as (op & b1 & b2 & H & _).
  - reflexivity.
  - discriminate.
  - reflexivity.
  - reflexivity.
  - exists op, b1, b2. exact H.
Defined.

Lemma backward_jump_lands_witness :
  exists g', EmitBackwardsJumpOffsetToTarget 1
      (mkGen (example_world 1%nat 0) (jump_buffer []) []) =
    Ok (tt, mkGen (example_world 1%nat 0) g' []).
Proof.
  destruct (backward_jump_lands true (fun _ => fail Undef) no_routines 1 (example_world 1%nat 0)
              (jump_buffer []) []) as (g' & H & _); [cbn; lia|cbn; lia|].
  exists g'. exact H.
Defined.
