(* ===== verification/Trivial.v ===== *)
(** * Trivial methods

    The compiler replaces methods that only return a literal, a global or a field, or
    set a field, by objects without code ([MethodGenerationContext::Assemble],
    [VMTrivialMethod.cpp]).  Invoking such an object does what calling the method with
    the code would have done. *)
From Stdlib Require Import String.
From S2P Require Import Prelude Bytecodes IntegerPrims Objects Universe Frame Interpreter Lookup.
From S2P Require Import Activation Instructions Sequences MethodGen Peephole.
Local Open Scope Z_scope.

(** ** Running the code that was replaced *)

(** The state [wb] after a call that returned, compared with the state [wt] of an
    invocation without a frame: there is the dead frame of the callee, and the caller
    had its index saved (it is the index it runs at). *)
Record returned (w : World) (cur : loc) (f : Frame) (wt wb : World) : Prop := mkReturned {
  returned_registers :
    (frame wb, method wb, bytecodeIndexGlobal wb) = (frame wt, method wt, bytecodeIndexGlobal wt);
  returned_rest :
    (scopes wb, nextScope wb, symbolsMap wb, globals wb, blockClassesByNoOfArgs wb, known wb) =
    (scopes wt, nextScope wt, symbolsMap wt, globals wt, blockClassesByNoOfArgs wt, known wt);
  returned_next : next wt = next w /\ next wb = S (next w);
  returned_heap : forall l, l <> next w -> l <> cur -> heap wb !! l = heap wt !! l;
  returned_caller : exists s, heap wt !! cur = Some (OFrame (with_slots s f)) /\
    heap wb !! cur = Some (OFrame (with_slots s (with_bytecodeIndex (bytecodeIndexGlobal w) f))) }.

(** The same failure; the error that an integer has no fields has two wordings. *)
Definition same_failure (et eb : error) : Prop :=
  et = eb \/ et = no_fields /\ eb = ErrorExit "Integers do not have fields that can be set".

(** Both fail in the same way, or both end in such states. *)
Definition same_outcome {A B} (w : World) (cur : loc) (f : Frame)
    (rt : result (A * World)) (rb : result (B * World)) : Prop :=
  match rt, rb with
  | Ok (_, wt), Ok (_, wb) => returned w cur f wt wb
  | Err et, Err eb => same_failure et eb
  | _, _ => False
  end.

(** A caller about to invoke a method of [n] arguments. *)
Record calling (w : World) (cur : loc) (f : Frame) (base args : list oop) (n : nat) : Prop :=
  mkCalling {
    calling_frame : frame w = Some cur;
    calling_cur : heap w !! cur = Some (OFrame f);
    calling_method : method w = f_method f;
    calling_slots : f_slots f = base ++ args;
    calling_arguments : length args = n;
    calling_some : (1 <= n)%nat;
    calling_room : (length (f_slots f) <= f_size f)%nat;
    calling_fresh : heap w !! next w = None }.

Section Trivial.

Context (USE_TAGGING : bool) (LoadClassBasic : loc -> V oop) (routines : Routines).

Notation exec := (exec USE_TAGGING LoadClassBasic routines).
Notation exec_all := (exec_all USE_TAGGING LoadClassBasic routines).
Notation Invoke := (Invoke USE_TAGGING routines).

Section Call.

Context (w : World) (cur : loc) (f : Frame) (base args : list oop) (b : loc) (m : Method).
Hypothesis HC : calling w cur f base args (m_numberOfArguments m).
Hypothesis Hb : heap w !! b = Some (OMethod m).
Hypothesis Hstack : (1 <= m_maxStack m)%nat.

Notation new := (next w).
Notation callee := (callee_frame (nilObject (known w)) cur b m args).
Notation inside := (entered w cur f b m args).

Lemma call_fresh : new <> cur /\ new <> b /\ cur <> b.
Proof using HC Hb. destruct HC. split_and!; congruence. Qed.

Lemma inside_new : heap inside !! new = Some (OFrame callee).
Proof using Type. apply put_obj_eq. Qed.

Lemma inside_method : heap inside !! b = Some (OMethod m).
Proof using HC Hb.
  destruct call_fresh as (? & ? & ?). cbn. by rewrite !lookup_insert_ne.
Qed.

Lemma inside_other l : l <> new -> l <> cur -> heap inside !! l = heap w !! l.
Proof using Type. intros ? ?. cbn. by rewrite !lookup_insert_ne. Qed.

Lemma call_step {A} (k : V A) : (VMMethod_Invoke b cur;; k) w = k inside.
Proof using HC Hb. destruct HC. by erewrite bind_step by (by eapply VMMethod_Invoke_step). Qed.

(** Returning [r] from a state of the callee that changed other objects to [h]. *)
Lemma return_step e g r :
  frame e = Some new -> heap e !! new = Some (OFrame g) ->
  f_previous g = Some cur -> f_method g = b -> heap e !! b = Some (OMethod m) ->
  heap e !! cur = Some (OFrame (with_bytecodeIndex (bytecodeIndexGlobal w) f)) ->
  popFrameAndPushResult r e =
    Ok (tt, set_registers (Some cur) (method w) (bytecodeIndexGlobal w)
      (put_frame cur (with_slots (base ++ [r]) (with_bytecodeIndex (bytecodeIndexGlobal w) f))
        (put_frame new (left_frame e g) e))).
Proof using HC Hb Hstack.
  intros H1 H2 H3 H4 H5 H6. destruct HC. destruct call_fresh as (? & ? & ?).
  erewrite popFrameAndPushResult_step; [|done|done|done|done|done|done| |].
  - unfold resumed. cbn. by rewrite calling_method0.
  - exists m. rewrite H4. split; [done|]. by rewrite calling_arguments0.
  - cbn. rewrite calling_slots0, length_app in calling_room0. lia.
Qed.

(** The two ends agree when the state [v] of the invocation without a frame and the
    state [e] of the callee agree on the other objects. *)
Lemma returned_intro v e g r :
  (frame v, method v, bytecodeIndexGlobal v) = (Some cur, method w, bytecodeIndexGlobal w) ->
  (scopes e, nextScope e, symbolsMap e, globals e, blockClassesByNoOfArgs e, known e) =
    (scopes v, nextScope v, symbolsMap v, globals v, blockClassesByNoOfArgs v, known v) ->
  next v = next w -> next e = S (next w) ->
  (forall l, l <> new -> l <> cur -> heap e !! l = heap v !! l) ->
  returned w cur f (put_frame cur (with_slots (base ++ [r]) f) v)
    (set_registers (Some cur) (method w) (bytecodeIndexGlobal w)
      (put_frame cur (with_slots (base ++ [r]) (with_bytecodeIndex (bytecodeIndexGlobal w) f))
        (put_frame new (left_frame e g) e))).
Proof using HC Hb.
  intros H1 H2 H3 H4 H5. injection H1 as H1 H1' H1''. split.
  - cbn. congruence.
  - done.
  - done.
  - intros l ? ?. cbn. rewrite !lookup_insert_ne by done. auto.
  - exists (base ++ [r]). split; apply put_obj_eq.
Qed.

Lemma callee_pushed x :
  push x inside = Ok (tt, put_frame new (with_slots (f_slots callee ++ [x]) callee) inside).
Proof using HC Hb Hstack.
  apply push_step; [done|apply inside_new|]. destruct HC. cbn.
  rewrite length_app, length_replicate. lia.
Qed.

(** Pushing a value and returning it. *)
Lemma push_return fuel x :
  exists wb, (push x;; exec_all fuel [mkInstr BC_RETURN_LOCAL []]) inside = Ok (tt, wb) /\
    returned w cur f (put_frame cur (with_slots (base ++ [x]) f) w) wb.
Proof using HC Hb Hstack.
  erewrite bind_step by apply callee_pushed. rewrite exec_one.
  change (exec fuel (mkInstr BC_RETURN_LOCAL [])) with doReturnLocal. unfold doReturnLocal.
  erewrite bind_step.
  2:{ eapply (pop_pushed new x inside); [done|]. exists callee. split; [apply inside_new|done]. }
  eexists. split.
  - eapply return_step; [done|apply inside_new|done|done|apply inside_method|].
    destruct call_fresh as (? & ? & ?). cbn. rewrite lookup_insert_ne by done.
    apply lookup_insert_eq.
  - destruct HC. apply returned_intro; try done.
    + by rewrite calling_frame0.
    + apply inside_other.
Qed.

(** The arguments popped from the stack of the caller. *)
Lemma pop_arguments_step :
  pop_n (m_numberOfArguments m) cur w = Ok (tt, put_frame cur (with_slots base f) w).
Proof using HC. destruct HC. by eapply pop_n_step. Qed.

Lemma push_result_step v x :
  heap v !! cur = Some (OFrame (with_slots base f)) ->
  Push cur x v = Ok (tt, put_frame cur (with_slots (base ++ [x]) f) v).
Proof using HC Hstack.
  intros Hv. destruct HC. rewrite (Push_step v cur (with_slots base f) Hv); [done|]. cbn.
  rewrite calling_slots0, length_app in calling_room0. lia.
Qed.

End Call.

(** ** Objects that both states have *)

Definition same_objects (w1 w2 : World) : Prop :=
  forall l k c es, heap w1 !! l = Some (OObject k c es) <-> heap w2 !! l = Some (OObject k c es).

Lemma GetField_Ok w1 self n v w1' :
  GetField self n w1 = Ok (v, w1') <->
  w1' = w1 /\ exists l k c es, self = Ref l /\ heap w1 !! l = Some (OObject k c es) /\
    0 <= n /\ es !! Z.to_nat n = Some v.
Proof.
  split.
  - intros H. unfold GetField in H. apply bind_Ok in H as (o & w2 & E & H).
    destruct self as [| |l]; [done|done|]. cbn in E. unfold load in E.
    destruct (heap w1 !! l) as [o'|] eqn:El; [|done]. injection E as -> <-.
    destruct o as [| | | | |k c es| | | |]; try done.
    destruct (n <? 0) eqn:En; [done|]. apply Z.ltb_ge in En. unfold lift in H.
    destruct (es !! Z.to_nat n) eqn:Ee; [|done]. injection H as -> <-.
    split; [done|]. by exists l, k, c, es.
  - intros (-> & l & k & c & es & -> & Hl & Hn & He). unfold GetField.
    erewrite bind_step by (by apply deref_step). rewrite (proj2 (Z.ltb_ge _ _)) by lia.
    by apply of_option_step.
Qed.

Lemma get_field_of_Ok w1 w2 self n v w1' :
  same_objects w1 w2 -> get_field_of USE_TAGGING self n w1 = Ok (v, w1') ->
  w1' = w1 /\ get_field_of USE_TAGGING self n w2 = Ok (v, w2).
Proof.
  intros HS H. unfold get_field_of in *. case_match; [done|].
  apply GetField_Ok in H as (-> & l & k & c & es & -> & Hl & Hn & He). split; [done|].
  apply GetField_Ok. split; [done|]. exists l, k, c, es. split_and!; try done. by apply HS.
Qed.

Lemma SetField_Ok w1 w2 self n v u w1' :
  same_objects w1 w2 -> SetField self n v w1 = Ok (u, w1') ->
  exists l k c es o, self = Ref l /\ heap w1 !! l = Some (OObject k c es) /\
    w1' = put_obj l o w1 /\ SetField self n v w2 = Ok (tt, put_obj l o w2).
Proof.
  intros HS H. unfold SetField in *. destruct self as [| |l]; [done|done|].
  apply bind_Ok in H as (l' & w3 & E & H). injection E as <- <-.
  apply bind_Ok in H as (o & w3 & E & H). unfold load in E.
  destruct (heap w1 !! l) as [o'|] eqn:El; [|done]. injection E as -> <-.
  destruct o as [| | | | |k c es| | | |]; try done. pose proof (proj1 (HS _ _ _ _) El) as El2.
  destruct ((0 <=? n) && (n <? Z.of_nat (length es))) eqn:En; [|done].
  unfold store in H. rewrite El in H. injection H as _ <-.
  exists l, k, c, es, (OObject k c (<[Z.to_nat n:=v]> es)). split_and!; try done.
  erewrite bind_step by apply ret_step. erewrite bind_step by (by apply load_step).
  cbn iota beta. rewrite En. by eapply store_put.
Qed.

(** Failing stores and loads of fields are all undefined behaviour. *)
Lemma SetField_Err w1 self n v e : SetField self n v w1 = Err e -> e = Undef.
Proof.
  unfold SetField, mbind, stateful_bind. destruct self as [| |l]; cbn; [by intros [= <-]..|].
  unfold load. destruct (heap w1 !! l) as [[]|] eqn:E; cbn; try by intros [= <-].
  case_match; [|by intros [= <-]]. unfold store. by rewrite E.
Qed.

Lemma GetField_Err w1 self n e : GetField self n w1 = Err e -> e = Undef.
Proof.
  unfold GetField, mbind, stateful_bind. destruct self as [| |l]; cbn; [by intros [= <-]..|].
  unfold load. destruct (heap w1 !! l) as [[]|]; cbn; try by intros [= <-].
  case_match; [by intros [= <-]|]. unfold lift. by destruct (_ !! _); intros [= <-].
Qed.

Lemma get_field_of_Err w1 w2 self n e1 e2 :
  get_field_of USE_TAGGING self n w1 = Err e1 -> get_field_of USE_TAGGING self n w2 = Err e2 -> e2 = e1.
Proof.
  unfold get_field_of. case_match; [by intros [= <-] [= <-]|].
  by intros ->%GetField_Err ->%GetField_Err.
Qed.

Lemma same_objects_sym w1 w2 : same_objects w1 w2 -> same_objects w2 w1.
Proof. intros H l k c es. symmetry. apply H. Qed.

(** Popping the arguments one by one: the last value is the receiver. *)
Lemma pop_last_step n w l f s x t y :
  heap w !! l = Some (OFrame f) -> f_slots f = s ++ x :: t -> length (x :: t) = n ->
  pop_last n l y w = Ok (x, put_frame l (with_slots s f) w).
Proof.
  revert w f t y. induction n as [|n IH]; intros w f t y Hf Hs Ht; [done|].
  cbn [pop_last]. destruct t as [|z t _] using rev_ind.
  - erewrite bind_step by (by eapply Pop_step). cbn in Ht. injection Ht as <-. done.
  - erewrite bind_step.
    2:{ eapply (Pop_step _ _ _ Hf (s ++ x :: t)). rewrite Hs. by rewrite <- app_assoc. }
    rewrite (IH _ (with_slots (s ++ x :: t) f) t); [|apply put_obj_eq|done|].
    + by rewrite put_obj_twice.
    + cbn in Ht. rewrite length_app in Ht. cbn in *. lia.
Qed.

(** The arguments of a setter, from the last one to the first after the receiver. *)
Lemma setter_pops_step k w l f s t argIndex y :
  heap w !! l = Some (OFrame f) -> f_slots f = s ++ t -> length t = k ->
  setter_pops k argIndex l y w =
    Ok (if (1 <=? argIndex) && (argIndex <=? Z.of_nat k)
        then default y (t !! Z.to_nat (argIndex - 1)) else y,
        put_frame l (with_slots s f) w).
Proof.
  revert w f t y. induction k as [|k IH]; intros w f t y Hf Hs Ht.
  - destruct t; [|done]. rewrite app_nil_r in Hs. cbn [setter_pops]. rewrite <- Hs, with_slots_id.
    rewrite put_obj_id by done. destruct (_ && _); done.
  - destruct t as [|x t _] using rev_ind; [done|]. rewrite length_app in Ht. cbn in Ht.
    cbn [setter_pops]. rewrite app_assoc in Hs. erewrite bind_step by (by eapply Pop_step).
    rewrite (IH _ (with_slots (s ++ t) f) t); [|apply put_obj_eq|done|lia].
    rewrite put_obj_twice, with_slots_twice. do 2 f_equal.
    destruct (Z.of_nat (S k) =? argIndex) eqn:E.
    + apply Z.eqb_eq in E as <-. rewrite (proj2 (Z.leb_le _ _)) by lia.
      rewrite (proj2 (Z.leb_gt _ _)) by lia. rewrite Z.leb_refl. cbn [andb].
      rewrite list_lookup_middle by lia. done.
    + apply Z.eqb_neq in E. destruct (1 <=? argIndex) eqn:E1; [|done]. apply Z.leb_le in E1.
      destruct (argIndex <=? Z.of_nat k) eqn:E2.
      * apply Z.leb_le in E2. rewrite (proj2 (Z.leb_le _ _)) by lia. cbn [andb].
        by rewrite lookup_app_l by lia.
      * apply Z.leb_gt in E2. by rewrite (proj2 (Z.leb_gt _ _)) by lia.
Qed.

Section Kinds.

Context (w : World) (cur : loc) (f : Frame) (base args : list oop) (b : loc) (m : Method).
Hypothesis HC : calling w cur f base args (m_numberOfArguments m).
Hypothesis Hb : heap w !! b = Some (OMethod m).
Hypothesis Hstack : (1 <= m_maxStack m)%nat.
Context (t : loc) (sig : loc) (holder : oop) (targs : list VariableT).

Notation new := (next w).
Notation callee := (callee_frame (nilObject (known w)) cur b m args).
Notation inside := (entered w cur f b m args).
Notation trivial_at tr :=
  (heap w !! t = Some (OTrivial sig holder (m_numberOfArguments m) targs tr)).
Notation run fuel code := ((VMMethod_Invoke b cur;; exec_all fuel code) w).

Lemma exec_two fuel i j v : exec_all fuel [i; j] v = (exec fuel i;; exec_all fuel [j]) v.
Proof using Type. done. Qed.

(** A value that is pushed and returned. *)
Lemma run_push_return fuel i x :
  exec fuel i inside = push x inside ->
  exists wb, run fuel [i; mkInstr BC_RETURN_LOCAL []] = Ok (tt, wb) /\
    returned w cur f (put_frame cur (with_slots (base ++ [x]) f) w) wb.
Proof using HC Hb Hstack.
  intros E. erewrite call_step; [|exact HC|done]. rewrite exec_two. unfold mbind, stateful_bind.
  rewrite E. exact (push_return w cur f base args b m HC Hb Hstack fuel x).
Qed.

Lemma literal_outcome fuel fuel' i lit :
  trivial_at (VMLiteralReturn lit) -> exec fuel i inside = push lit inside ->
  same_outcome w cur f (Invoke (S fuel') t cur w) (run fuel [i; mkInstr BC_RETURN_LOCAL []]).
Proof using HC Hb Hstack.
  intros Ht E. destruct (run_push_return fuel i lit E) as (wb & -> & HR).
  cbn [Interpreter.Invoke]. erewrite bind_step by (by apply load_step). cbn beta iota.
  erewrite bind_step by (by eapply pop_arguments_step).
  erewrite bind_step; [|eapply push_result_step; [done|done|apply put_obj_eq]].
  cbn. by rewrite put_obj_twice.
Qed.

Lemma global_outcome fuel fuel' i name x :
  trivial_at (VMGlobalReturn name) -> globals w !! name = Some x -> x <> Null ->
  exec fuel i inside = push x inside ->
  same_outcome w cur f (Invoke (S fuel') t cur w) (run fuel [i; mkInstr BC_RETURN_LOCAL []]).
Proof using HC Hb Hstack.
  intros Ht Hg Hx E. destruct (run_push_return fuel i x E) as (wb & -> & HR).
  cbn [Interpreter.Invoke]. erewrite bind_step by (by apply load_step). cbn beta iota.
  erewrite bind_step by (by eapply pop_arguments_step).
  unfold GetGlobal. rewrite bind_assoc. erewrite bind_step by apply gets_step. cbn [globals put_obj set_heap].
  rewrite Hg. erewrite bind_step by apply ret_step. cbn [default]. case_decide; [done|].
  erewrite bind_step; [|eapply push_result_step; [done|done|apply put_obj_eq]].
  cbn. by rewrite put_obj_twice.
Qed.

Lemma receiver_inside self rest : args = self :: rest -> GetSelf inside = Ok (self, inside).
Proof using HC Hstack.
  intros ->. unfold GetSelf. erewrite bind_step by (by apply GetFrame_step).
  erewrite bind_step.
  2:{ unfold GetOuterContext, heap_fuel. erewrite bind_step by apply gets_step.
      eapply (outer_context_step _ _ _ [] new); [constructor|cbn; lia|apply inside_new|done]. }
  by eapply read_slot_step; [apply inside_new|].
Qed.

(** Frames are no objects with fields. *)
Lemma same_objects_inside s : same_objects (put_frame cur (with_slots s f) w) inside.
Proof using HC Hb.
  destruct HC. intros l k c es.
  destruct (call_fresh w cur f base args b m HC Hb) as (Hnc & _ & _).
  destruct (decide (l = cur)) as [->|]; [|destruct (decide (l = new)) as [->|]].
  - rewrite put_obj_eq. cbn. rewrite lookup_insert_ne, lookup_insert_eq by done. split; congruence.
  - rewrite put_obj_ne by done. rewrite calling_fresh0, inside_new. split; congruence.
  - rewrite put_obj_ne, inside_other by done. done.
Qed.

Lemma some_receiver : exists self rest, args = self :: rest.
Proof using HC Hstack. destruct HC. destruct args; [cbn in *; lia|eauto]. Qed.

(** What the callee reads from its receiver is what the invocation without a frame
    reads. *)
Lemma field_inside self n :
  match get_field_of USE_TAGGING self n (put_frame cur (with_slots base f) w) with
  | Ok (x, v) => v = put_frame cur (with_slots base f) w /\
      get_field_of USE_TAGGING self n inside = Ok (x, inside)
  | Err e => get_field_of USE_TAGGING self n inside = Err e
  end.
Proof using HC Hb.
  pose proof (same_objects_inside base) as HS.
  destruct (get_field_of USE_TAGGING self n (put_frame cur _ w)) as [[x v]|e] eqn:E.
  - by apply (get_field_of_Ok _ _ _ _ _ _ HS).
  - destruct (get_field_of USE_TAGGING self n inside) as [[x v]|e'] eqn:E'; [|by rewrite (get_field_of_Err _ _ _ _ _ _ E E')].
    destruct (get_field_of_Ok _ _ _ _ _ _ (same_objects_sym _ _ HS) E') as [_ F]. congruence.
Qed.

Lemma getter_outcome fuel fuel' i n :
  trivial_at (VMGetter n) -> exec fuel i = doPushFieldWithIndex USE_TAGGING n ->
  same_outcome w cur f (Invoke (S fuel') t cur w) (run fuel [i; mkInstr BC_RETURN_LOCAL []]).
Proof using HC Hb Hstack.
  intros Ht Ei. destruct some_receiver as (self & rest & Ea).
  cbn [Interpreter.Invoke]. erewrite bind_step by (by apply load_step). cbn beta iota.
  erewrite bind_step.
  2:{ destruct HC. eapply (pop_last_step _ _ _ _ base self rest); [done| |]; by rewrite <- Ea. }
  assert (exec fuel i inside = (o ← get_field_of USE_TAGGING self n; push o) inside) as E.
  { rewrite Ei. unfold doPushFieldWithIndex. by erewrite bind_step by (by eapply receiver_inside). }
  pose proof (field_inside self n) as HF.
  destruct (get_field_of USE_TAGGING self n (put_frame cur _ w)) as [[x v]|e] eqn:Eg.
  - destruct HF as [-> HF]. rewrite (bind_step _ _ _ _ _ HF) in E.
    destruct (run_push_return fuel i x E) as (wb & -> & HR).
    erewrite bind_step by exact Eg.
    erewrite bind_step; [|eapply push_result_step; [done|done|apply put_obj_eq]].
    cbn. by rewrite put_obj_twice.
  - erewrite call_step; [|exact HC|done]. rewrite exec_two.
    unfold mbind, stateful_bind in *. rewrite Eg, E, HF. by left.
Qed.

(** The code of a setter up to the return. *)
Lemma setter_store fuel p q k n self rest x :
  args = self :: rest -> args !! k = Some x ->
  exec fuel p = push_argument_here k \/ exec fuel p = push_argument (Z.of_nat k) 0 ->
  field_pop q = Some n ->
  exec_all fuel [p; q] inside =
    (if IS_TAGGED USE_TAGGING self
     then fail (ErrorExit "Integers do not have fields that can be set")
     else SetField self n x) inside.
Proof using HC Hb Hstack.
  intros Ea Hx Hp Hq. rewrite exec_two.
  assert (read_slot new k inside = Ok (x, inside)) as Hread.
  { apply (read_slot_step _ _ _ (inside_new w cur f args b m)).
    cbn. apply lookup_app_l_Some. done. }
  assert (exec fuel p inside = push x inside) as Ep.
  { destruct Hp as [-> | ->].
    - unfold push_argument_here, push. erewrite !bind_step by (by apply GetFrame_step).
      by erewrite bind_step by exact Hread.
    - unfold push_argument, push. erewrite !bind_step by (by apply GetFrame_step).
      unfold GetArgument. cbn [GetContextLevel Z.to_nat]. rewrite bind_assoc.
      erewrite bind_step by apply ret_step. rewrite Nat2Z.id. by erewrite bind_step by exact Hread. }
  erewrite bind_step by (rewrite Ep; by eapply callee_pushed).
  rewrite exec_one. destruct (sink_field_pop USE_TAGGING q n x Hq) as [Hpop Hsink].
  erewrite (exec_sink _ _ _ _ _ _ new _ (f_slots callee) x);
    [|done|done|apply put_obj_eq|done|].
  2:{ cbn. rewrite Ea. cbn. lia. }
  rewrite put_obj_twice, with_slots_twice, with_slots_id, put_obj_id by apply inside_new.
  rewrite Hsink. unfold store_field.
  erewrite bind_step by (by eapply receiver_inside). done.
Qed.

Lemma setter_outcome fuel fuel' p q k n :
  trivial_at (VMSetter n (Z.of_nat k)) -> (1 <= k < m_numberOfArguments m)%nat ->
  exec fuel p = push_argument_here k \/ exec fuel p = push_argument (Z.of_nat k) 0 ->
  field_pop q = Some n ->
  same_outcome w cur f (Invoke (S fuel') t cur w) (run fuel [p; q; mkInstr BC_RETURN_SELF []]).
Proof using HC Hb Hstack.
  intros Ht Hk Hp Hq. destruct some_receiver as (self & rest & Ea).
  pose proof HC as [Hc Hf Hm Hs Ha Hn Hr Hfr]. rewrite Ea in Ha. cbn in Ha.
  destruct (lookup_lt_is_Some_2 args k) as [x Hx]; [rewrite Ea; cbn; lia|].
  set (wt := put_frame cur (with_slots (base ++ [self]) f) w).
  (* the invocation without a frame *)
  assert (Invoke (S fuel') t cur w =
    ((if IS_TAGGED USE_TAGGING self then fail no_fields else SetField self n x);; mret None) wt) as ->.
  { cbn [Interpreter.Invoke]. erewrite bind_step by (by apply load_step). cbn beta iota.
    unfold VMSetter_Invoke. rewrite bind_assoc.
    erewrite bind_step.
    2:{ eapply (setter_pops_step _ _ _ _ (base ++ [self]) rest); [done| |lia].
        rewrite Hs, Ea. by rewrite <- app_assoc. }
    rewrite bind_assoc. erewrite bind_step by (eapply Top_step; [apply put_obj_eq|done]).
    rewrite (proj2 (Z.leb_le 1 _)) by lia. rewrite (proj2 (Z.leb_le _ _)) by lia. cbn [andb].
    rewrite Ea in Hx. destruct k as [|k]; [lia|]. change (rest !! k = Some x) in Hx.
    replace (Z.to_nat (Z.of_nat (S k) - 1)) with k by lia. rewrite Hx. done. }
  (* the call *)
  erewrite call_step; [|exact HC|done].
  change [p; q; mkInstr BC_RETURN_SELF []] with ([p; q] ++ [mkInstr BC_RETURN_SELF []]).
  rewrite exec_all_app. unfold mbind, stateful_bind.
  rewrite (setter_store fuel p q k n self rest x) by done.
  destruct (IS_TAGGED USE_TAGGING self); [by right|].
  pose proof (same_objects_inside (base ++ [self])) as HS. fold wt in HS.
  destruct (SetField self n x wt) as [[u w1]|e] eqn:Es.
  2:{ destruct (SetField self n x inside) as [[u w1]|e'] eqn:Es';
        [|left; by rewrite (SetField_Err _ _ _ _ _ Es), (SetField_Err _ _ _ _ _ Es')].
      destruct (SetField_Ok _ _ _ _ _ _ _ (same_objects_sym _ _ HS) Es')
        as (l & k' & c & es & o & _ & _ & _ & F). congruence. }
  destruct (SetField_Ok _ _ _ _ _ _ _ HS Es) as (l & k' & c & es & o & -> & Hl & -> & ->).
  assert (l <> cur /\ l <> new /\ l <> b) as (Hlc & Hln & Hlb).
  { assert (l <> cur) as Hlc by (intros ->; unfold wt in Hl; rewrite put_obj_eq in Hl; congruence).
    unfold wt in Hl. rewrite put_obj_ne in Hl by done. split_and!; congruence. }
  destruct (call_fresh w cur f base args b m HC Hb) as (Hnc & Hnb & Hcb).
  set (e := put_obj l o inside).
  assert (heap e !! new = Some (OFrame callee)) as Hnew
    by (unfold e; rewrite put_obj_ne by done; apply inside_new).
  rewrite exec_one. change (exec fuel (mkInstr BC_RETURN_SELF [])) with doReturnSelf.
  unfold doReturnSelf. unfold e. rewrite (bind_step _ _ _ _ _ (GetFrame_step (put_obj l o inside) new eq_refl)).
  fold e. erewrite bind_step; [|eapply read_slot_step; [done|]; by rewrite Ea].
  erewrite return_step; [|exact HC|done|done|done|done|done|done| |].
  - unfold same_outcome, mret, stateful_ret. unfold wt. rewrite put_obj_comm by done.
    apply (returned_intro w cur f base args b m HC Hb); try done.
    + cbn. by rewrite Hc.
    + intros d ? ?. unfold e. destruct (decide (d = l)) as [->|]; [by rewrite !put_obj_eq|].
      rewrite !put_obj_ne by done. by apply inside_other.
  - unfold e. rewrite put_obj_ne by done. by eapply inside_method.
  - unfold e. rewrite put_obj_ne by done. cbn. rewrite lookup_insert_ne by done.
    apply lookup_insert_eq.
Qed.

(** The return of a field in one instruction. *)
Lemma getter_return_outcome fuel fuel' r n :
  trivial_at (VMGetter n) -> exec fuel r = doReturnFieldWithIndex USE_TAGGING n ->
  same_outcome w cur f (Invoke (S fuel') t cur w) (run fuel [r]).
Proof using HC Hb Hstack.
  intros Ht Er. destruct some_receiver as (self & rest & Ea).
  cbn [Interpreter.Invoke]. erewrite bind_step by (by apply load_step). cbn beta iota.
  erewrite bind_step.
  2:{ destruct HC. eapply (pop_last_step _ _ _ _ base self rest); [done| |]; by rewrite <- Ea. }
  erewrite call_step; [|exact HC|done]. rewrite exec_one, Er. unfold doReturnFieldWithIndex.
  erewrite (bind_step GetSelf) by (by eapply receiver_inside).
  pose proof (field_inside self n) as HF.
  destruct (get_field_of USE_TAGGING self n (put_frame cur _ w)) as [[x v]|e] eqn:Eg.
  - destruct HF as [-> HF]. rewrite (bind_step _ _ _ _ _ HF), (bind_step _ _ _ _ _ Eg).
    erewrite bind_step; [|eapply push_result_step; [done|done|apply put_obj_eq]].
    destruct (call_fresh w cur f base args b m HC Hb) as (Hnc & Hnb & Hcb).
    erewrite return_step; [|exact HC|done|done|done|apply inside_new|done|done|by eapply inside_method|].
    + unfold same_outcome, mret, stateful_ret. rewrite put_obj_twice.
      apply (returned_intro w cur f base args b m HC Hb); try done.
      * cbn. by destruct HC as [-> _].
      * apply inside_other.
    + cbn. rewrite lookup_insert_ne by done. apply lookup_insert_eq.
  - unfold mbind, stateful_bind. rewrite Eg, HF. by left.
Qed.

End Kinds.

(** ** What is assembled *)

(** The instructions only refer to literals that are there, and to arguments of the
    method itself. *)
Definition operand_in_range (lits : list oop) (i : instr) : Prop :=
  match i_op i, i_args i with
  | BC_PUSH_CONSTANT_0, _ => (0 < length lits)%nat
  | BC_PUSH_CONSTANT_1, _ => (1 < length lits)%nat
  | BC_PUSH_CONSTANT_2, _ => (2 < length lits)%nat
  | (BC_PUSH_CONSTANT | BC_PUSH_GLOBAL), [a] => (Z.to_nat a < length lits)%nat
  | BC_PUSH_ARGUMENT, [_; c] => c = 0
  | _, _ => True
  end.

(** The code [cs] with the literals [lits] that the trivial method stands for. *)
Inductive stands_for (k : Known) (lits : list oop) : trivial -> list instr -> Prop :=
  | stands_0 : USE_TAGGING = true ->
      stands_for k lits (VMLiteralReturn (Tagged 0))
        [mkInstr BC_PUSH_0 []; mkInstr BC_RETURN_LOCAL []]
  | stands_1 : USE_TAGGING = true ->
      stands_for k lits (VMLiteralReturn (Tagged 1))
        [mkInstr BC_PUSH_1 []; mkInstr BC_RETURN_LOCAL []]
  | stands_nil :
      stands_for k lits (VMLiteralReturn (nilObject k))
        [mkInstr BC_PUSH_NIL []; mkInstr BC_RETURN_LOCAL []]
  | stands_constant_0 l : lits = [l] ->
      stands_for k lits (VMLiteralReturn l)
        [mkInstr BC_PUSH_CONSTANT_0 []; mkInstr BC_RETURN_LOCAL []]
  | stands_constant l : lits = [l] ->
      stands_for k lits (VMLiteralReturn l)
        [mkInstr BC_PUSH_CONSTANT [0]; mkInstr BC_RETURN_LOCAL []]
  | stands_global name : lits = [Ref name] ->
      stands_for k lits (VMGlobalReturn name)
        [mkInstr BC_PUSH_GLOBAL [0]; mkInstr BC_RETURN_LOCAL []]
  | stands_getter i n : field_push i = Some n ->
      stands_for k lits (VMGetter n) [i; mkInstr BC_RETURN_LOCAL []]
  | stands_getter_return n op :
      (n, op) ∈ [(0, BC_RETURN_FIELD_0); (1, BC_RETURN_FIELD_1); (2, BC_RETURN_FIELD_2)] ->
      stands_for k lits (VMGetter n) [mkInstr op []]
  | stands_setter i j a n :
      (i, a) ∈ [(mkInstr BC_PUSH_SELF [], 0%nat); (mkInstr BC_PUSH_ARG_1 [], 1%nat);
                (mkInstr BC_PUSH_ARG_2 [], 2%nat);
                (mkInstr BC_PUSH_ARGUMENT [Z.of_nat a; 0], a)] ->
      field_pop j = Some n ->
      stands_for k lits (VMSetter n (Z.of_nat a)) [i; j; mkInstr BC_RETURN_SELF []].

(** What makes the invocation without a frame differ from the code: a global that is
    not defined, or a setter for the receiver itself. *)
Definition regular (w : World) (n : nat) (t : trivial) : Prop :=
  match t with
  | VMGlobalReturn name => exists x, globals w !! name = Some x /\ x <> Null
  | VMSetter _ a => 1 <= a < Z.of_nat n
  | _ => True
  end.

Lemma stands_for_outcome k lits tr cs fuel fuel' w cur f base args b m t sig holder targs :
  stands_for k lits tr cs -> known w = k -> m_constants m = lits ->
  regular w (m_numberOfArguments m) tr ->
  calling w cur f base args (m_numberOfArguments m) ->
  heap w !! b = Some (OMethod m) -> (1 <= m_maxStack m)%nat ->
  heap w !! t = Some (OTrivial sig holder (m_numberOfArguments m) targs tr) ->
  same_outcome w cur f (Invoke (S fuel') t cur w)
    ((VMMethod_Invoke b cur;; exec_all fuel cs) w).
Proof.
  intros HS Hk Hl Hreg HC Hb Hs Ht.
  pose proof (inside_method w cur f base args b m HC Hb) as Hm.
  assert (forall i, literal_at i (entered w cur f b m args) =
            Ok (default Null (lits !! Z.to_nat i), entered w cur f b m args)) as Hlit.
  { intros i. unfold literal_at. erewrite bind_step by apply gets_step.
    erewrite bind_step by (by apply load_method_step). by rewrite Hl. }
  destruct HS as [Htag|Htag| |l El|l El|name El|i n Hi|n op Hop|i j a n Hi Hj].
  - eapply literal_outcome; [done|done|done|done|].
    unfold Instructions.exec, NEW_INT. cbn [i_op i_args]. by rewrite Htag.
  - eapply literal_outcome; [done|done|done|done|].
    unfold Instructions.exec, NEW_INT. cbn [i_op i_args]. by rewrite Htag.
  - eapply literal_outcome; [done|done|done|done|]. subst k. done.
  - eapply literal_outcome; [done|done|done|done|].
    unfold Instructions.exec, constant. cbn [i_op i_args]. rewrite bind_assoc.
    erewrite bind_step by apply gets_step. rewrite bind_assoc.
    erewrite bind_step by (by apply load_method_step).
    by erewrite bind_step by (apply of_option_step; by rewrite Hl, El).
  - eapply literal_outcome; [done|done|done|done|].
    change ((c ← literal_at 0; push c) (entered w cur f b m args) =
            push l (entered w cur f b m args)).
    erewrite bind_step by apply Hlit. by rewrite El.
  - destruct Hreg as (x & Hx & Hnull). eapply (global_outcome _ _ _ _ _ _ _ HC Hb Hs); [done|done|done|].
    change ((c ← literal_at 0; push_global USE_TAGGING routines fuel c) (entered w cur f b m args) =
            push x (entered w cur f b m args)).
    erewrite bind_step by apply Hlit. rewrite El. unfold push_global, GetGlobal.
    erewrite bind_step by done. rewrite bind_assoc. erewrite bind_step by apply gets_step.
    change (globals (entered w cur f b m args)) with (globals w). rewrite Hx.
    erewrite bind_step by apply ret_step. cbn. by case_decide.
  - eapply getter_outcome; [done|done|done|done|]. by apply exec_field_push.
  - eapply getter_return_outcome; [done|done|done|done|].
    apply elem_of_cons in Hop as [[= -> ->]|Hop]; [done|].
    apply elem_of_cons in Hop as [[= -> ->]|Hop]; [done|].
    by apply list_elem_of_singleton in Hop as [= -> ->].
  - cbn in Hreg. eapply setter_outcome; [done|done|done|done|lia| |done].
    apply elem_of_cons in Hi as [[= -> ->]|Hi]; [lia|].
    apply elem_of_cons in Hi as [[= -> ->]|Hi]; [by left|].
    apply elem_of_cons in Hi as [[= -> ->]|Hi]; [by left|].
    apply list_elem_of_singleton in Hi as [= ->]. by right.
Qed.

(** Reading what was assembled. *)
Lemma make_trivial_Ok tr w g o t s' :
  make_trivial tr (mkGen w g o) = Ok (Some t, s') ->
  exists sig n w', s' = mkGen w' g o /\ signature g = Some sig /\ known w' = known w /\
    heap w' !! t = Some (OTrivial sig Null n (arguments g) tr).
Proof.
  unfold make_trivial, the_signature. intros H. rewrite bind_assoc in H.
  apply bind_Ok in H as (sg & s1 & E & H). injection E as <- <-.
  apply bind_Ok in H as (sig & s1 & E & H). unfold lift in E.
  destruct (signature g) as [sig'|] eqn:Esig; [|done]. injection E as -> <-.
  apply bind_Ok in H as (args & s1 & E & H). injection E as <- <-.
  apply bind_Ok in H as (n & s1 & E & H). unfold liftV in E. cbn in E.
  destruct (GetNumberOfArguments sig w) as [[n' w1]|] eqn:En; [|done]. injection E as -> <-.
  assert (w1 = w) as ->.
  { unfold GetNumberOfArguments, load_symbol, load, mbind, stateful_bind in En.
    destruct (heap w !! sig) as [[]|]; try done. by injection En. }
  apply bind_Ok in H as (l & s1 & E & H). cbn in E. injection E as <- <-.
  injection H as -> <-. exists sig, n. eexists. split_and!; [done|done|done|]. cbn.
  apply lookup_insert_eq.
Qed.

(** The code is exactly as long as its last instructions. *)
Lemma tracks_whole g p cs0 k :
  tracks g p (cs0 ++ k) -> length (bytecode g) = length (encode_all k) -> p = [] /\ cs0 = [].
Proof.
  intros [Hc _ _ _] E. rewrite Hc, encode_all_app, !length_app in E.
  assert (length p = 0%nat /\ length (encode_all cs0) = 0%nat) as [Ep E0] by lia.
  apply length_zero_iff_nil in Ep as ->. split; [done|]. by destruct cs0.
Qed.

Lemma length_encode_2 i j :
  wf_instr i -> wf_instr j ->
  Z.of_nat (length (encode_all [i; j])) =
    GetBytecodeLength (code (i_op i)) + GetBytecodeLength (code (i_op j)).
Proof.
  intros Hi Hj. cbn [encode_all flat_map]. rewrite app_nil_r, length_app.
  rewrite <- (wf_length _ Hi), <- (wf_length _ Hj). lia.
Qed.

Context (w : World) (g : Mgenc) (o : list Mgenc) (p : list Z) (cs : list instr).
Hypothesis HT : tracks g p cs.
Hypothesis HR : Forall (operand_in_range (literals g)) cs.
Hypothesis Htag : USE_TAGGING = false ->
  Forall (fun i => i_op i <> BC_PUSH_0 /\ i_op i <> BC_PUSH_1) cs.

(** What is to be shown of the result. *)
Definition assembled (t : loc) (s' : Gen) : Prop :=
  p = [] /\ exists sig n w' tr, s' = mkGen w' g o /\ signature g = Some sig /\
    known w' = known w /\ heap w' !! t = Some (OTrivial sig Null n (arguments g) tr) /\
    stands_for (known w) (literals g) tr cs.

Lemma make_assembled tr w1 t s' :
  make_trivial tr (mkGen w1 g o) = Ok (Some t, s') -> p = [] -> known w1 = known w ->
  stands_for (known w) (literals g) tr cs -> assembled t s'.
Proof using Type.
  intros H Hp Hk HS. split; [done|].
  destruct (make_trivial_Ok _ _ _ _ _ _ H) as (sig & n & w' & E1 & E2 & E3 & E4).
  exists sig, n, w', tr. split_and!; congruence.
Qed.

(** The last two instructions, when the code is just these. *)
Lemma whole_two cs0 i :
  cs = cs0 ++ [i; mkInstr BC_RETURN_LOCAL []] ->
  Z.of_nat (length (bytecode g)) =
    GetBytecodeLength (code (i_op i)) + GetBytecodeLength BC_RETURN_LOCAL ->
  p = [] /\ cs = [i; mkInstr BC_RETURN_LOCAL []].
Proof using HT HR Htag.
  intros E Hn. pose proof HT as [_ Hw _ _]. rewrite E in HT, Hw. apply Forall_app in Hw as [_ Hw].
  apply Forall_cons_iff in Hw as [Hi Hw]. apply Forall_cons_iff in Hw as [Hj _].
  destruct (tracks_whole g p cs0 _ HT) as [-> ->]; [|by rewrite E].
  pose proof (length_encode_2 _ _ Hi Hj). cbn [i_op] in *. lia.
Qed.

(** The code ends in a return and an instruction before it. *)
Lemma last_two b :
  last_at 0 (last4Bytecodes g) = code BC_RETURN_LOCAL -> last_at 1 (last4Bytecodes g) = code b ->
  exists cs0 i, cs = cs0 ++ [i; mkInstr BC_RETURN_LOCAL []] /\ i_op i = b /\ wf_instr i.
Proof using HT HR Htag.
  destruct HT as [_ Hw Hl _]. rewrite Hl. intros E0 E1.
  apply last_instr in E0 as (cs1 & [op args] & -> & Eop). cbn in Eop. subst op.
  apply last_instr2 in E1 as (cs0 & i & -> & Ei). rewrite <- app_assoc in *. cbn [app] in *.
  apply Forall_app in Hw as [_ Hw]. apply Forall_cons_iff in Hw as [Hi Hw].
  apply Forall_cons_iff in Hw as [Hj _]. rewrite (wf_no_operand _ _ Hj eq_refl). eauto.
Qed.

Lemma size_test (z : Z) :
  negb (Z.of_nat (length (bytecode g)) =? z) = false -> Z.of_nat (length (bytecode g)) = z.
Proof using Type. intros H. apply negb_false_iff in H. by apply Z.eqb_eq. Qed.

Lemma literal_assembled b t s' :
  last_at 0 (last4Bytecodes g) = code BC_RETURN_LOCAL ->
  last_at 1 (last4Bytecodes g) = code b ->
  is_one_of [BC_PUSH_CONSTANT; BC_PUSH_CONSTANT_0; BC_PUSH_CONSTANT_1;
             BC_PUSH_CONSTANT_2; BC_PUSH_0; BC_PUSH_1; BC_PUSH_NIL] (code b) = true ->
  assembleLiteralReturn USE_TAGGING (code b) (mkGen w g o) = Ok (Some t, s') -> assembled t s'.
Proof using HT HR Htag.
  intros E0 E1 Hb H. destruct (last_two b E0 E1) as (cs0 & [op args] & Ecs & Eop & Hi).
  cbn in Eop. subst op. unfold assembleLiteralReturn in H.
  erewrite bind_step in H by apply code_size_step.
  destruct (negb _) eqn:En in H; [done|]. apply size_test in En.
  destruct (whole_two cs0 (mkInstr b args) Ecs En) as [Hp Ew]. clear Ecs cs0 En.
  rewrite Ew in HR, Htag. apply Forall_cons_iff in HR as [Hr _].
  apply is_one_of_code in Hb.
  assert (forall l, literals g = [l] ->
     (b = BC_PUSH_CONSTANT \/ b = BC_PUSH_CONSTANT_0 \/ b = BC_PUSH_CONSTANT_1 \/ b = BC_PUSH_CONSTANT_2) ->
     stands_for (known w) (literals g) (VMLiteralReturn l) cs) as Hconst.
  { intros l El Hcase. rewrite Ew. unfold operand_in_range in Hr. cbn in Hr. rewrite El in *. cbn in Hr.
    destruct Hcase as [->|[->|[->| ->]]]; [| |lia|lia].
    - destruct (wf_one_operand _ _ Hi eq_refl) as (n & -> & Hn). unfold is_byte in Hn.
      replace n with 0 by lia. by constructor.
    - rewrite (wf_no_operand _ _ Hi eq_refl). by constructor. }
  assert (forall (H : (ls ← mg literals;
      match ls with
      | [l] => make_trivial (VMLiteralReturn l)
      | _ => fail (ErrorExit "Unexpected situation when trying to create trivial method that returns a literal")
      end) (mkGen w g o) = Ok (Some t, s')),
     (b = BC_PUSH_CONSTANT \/ b = BC_PUSH_CONSTANT_0 \/ b = BC_PUSH_CONSTANT_1 \/ b = BC_PUSH_CONSTANT_2) ->
     assembled t s') as Hcase.
  { intros H' Hcase. erewrite bind_step in H' by apply mg_step.
    destruct (literals g) as [|l [|]] eqn:El; try done.
    eapply make_assembled; [done|done|done|]. rewrite El. by apply Hconst. }
  assert (forall z, z = 0 \/ z = 1 -> code b = code (if z =? 0 then BC_PUSH_0 else BC_PUSH_1) ->
     (x ← liftV (NEW_INT USE_TAGGING z); make_trivial (VMLiteralReturn x)) (mkGen w g o) = Ok (Some t, s') ->
     assembled t s') as Hint.
  { intros z Hz Eb H'. apply code_inj in Eb. unfold NEW_INT in H'.
    destruct USE_TAGGING eqn:Eut.
    - destruct Hz as [-> | ->]; cbn in Eb; subst b; cbn in H'.
      all: erewrite bind_step in H' by done; eapply make_assembled; [done|done|done|];
        rewrite Ew, (wf_no_operand _ _ Hi eq_refl); by constructor.
    - specialize (Htag eq_refl). apply Forall_cons_iff in Htag as [[N0 N1] _]. cbn in N0, N1.
      by destruct Hz as [-> | ->]. }
  repeat (apply elem_of_cons in Hb as [->|Hb]); [..|by apply elem_of_nil in Hb].
  - apply Hcase; [exact H|auto].
  - apply Hcase; [exact H|auto].
  - apply Hcase; [exact H|auto].
  - apply Hcase; [exact H|auto].
  - apply (Hint 0); [auto|done|exact H].
  - apply (Hint 1); [auto|done|exact H].
  - cbn in H. apply bind_Ok in H as (k & s1 & E & H). injection E as <- <-.
    eapply make_assembled; [exact H|done|done|].
    rewrite Ew, (wf_no_operand _ _ Hi eq_refl). constructor.
Qed.

Lemma global_assembled t s' :
  last_at 0 (last4Bytecodes g) = code BC_RETURN_LOCAL ->
  last_at 1 (last4Bytecodes g) = code BC_PUSH_GLOBAL ->
  assembleGlobalReturn (mkGen w g o) = Ok (Some t, s') -> assembled t s'.
Proof using HT HR Htag.
  intros E0 E1 H. destruct (last_two _ E0 E1) as (cs0 & [op args] & Ecs & Eop & Hi).
  cbn in Eop. subst op. unfold assembleGlobalReturn in H.
  erewrite bind_step in H by apply code_size_step.
  destruct (negb _) eqn:En in H; [done|]. apply size_test in En.
  destruct (whole_two cs0 (mkInstr BC_PUSH_GLOBAL args) Ecs En) as [Hp Ew]. clear Ecs cs0 En.
  rewrite Ew in HR. apply Forall_cons_iff in HR as [Hr _].
  destruct (wf_one_operand _ _ Hi eq_refl) as (n & -> & Hn). cbn in Hr.
  erewrite bind_step in H by apply mg_step.
  destruct (literals g) as [|l [|]] eqn:El; try done.
  apply bind_Ok in H as (name & s1 & E & H). destruct l as [| |l]; [done|done|].
  injection E as <- <-. eapply make_assembled; [exact H|done|done|].
  rewrite El, Ew. cbn in Hr. unfold is_byte in Hn. replace n with 0 by lia. by constructor.
Qed.

Lemma getter_assembled b t s' :
  last_at 0 (last4Bytecodes g) = code BC_RETURN_LOCAL ->
  last_at 1 (last4Bytecodes g) = code b ->
  is_one_of [BC_PUSH_FIELD; BC_PUSH_FIELD_0; BC_PUSH_FIELD_1] (code b) = true ->
  assembleFieldGetter (code b) (mkGen w g o) = Ok (Some t, s') -> assembled t s'.
Proof using HT HR Htag.
  intros E0 E1 Hb H. destruct (last_two b E0 E1) as (cs0 & i & Ecs & Eop & Hi).
  unfold assembleFieldGetter in H. erewrite bind_step in H by apply code_size_step.
  destruct (negb _) eqn:En in H; [done|]. apply size_test in En. rewrite <- Eop in En.
  destruct (whole_two cs0 i Ecs En) as [Hp Ew].
  destruct (field_push_instr i b Hi Eop Hb) as (n & Hn & _).
  assert (bytecode g = encode i ++ [code BC_RETURN_LOCAL]) as Ec.
  { destruct HT as [Hc _ _ _]. by rewrite Hc, Hp, Ew. }
  assert ((if code b =? BC_PUSH_FIELD_0 then mret 0
           else if code b =? BC_PUSH_FIELD_1 then mret 1
           else byte_at (Z.of_nat (length (bytecode g)) - 2)) (mkGen w g o) =
          Ok (n, mkGen w g o)) as En2.
  { destruct i as [op args]. cbn in Eop. subst op. unfold field_push in Hn. cbn [i_op i_args] in Hn.
    destruct b; try discriminate Hn; destruct args as [|a [|]]; try discriminate Hn;
      injection Hn as <-; try done.
    cbn [Z.eqb code Pos.eqb]. eapply (read_operand [] BC_PUSH_FIELD a [code BC_RETURN_LOCAL]); [done|].
    by rewrite Ec. }
  erewrite bind_step in H by exact En2. eapply make_assembled; [exact H|done|done|].
  rewrite Ew. by constructor.
Qed.

Lemma getter_return_assembled b t s' :
  last_at 0 (last4Bytecodes g) = code b ->
  is_one_of [BC_RETURN_FIELD_0; BC_RETURN_FIELD_1; BC_RETURN_FIELD_2] (code b) = true ->
  assembleFieldGetterFromReturn (code b) (mkGen w g o) = Ok (Some t, s') -> assembled t s'.
Proof using HT HR Htag.
  intros E0 Hb H. destruct HT as [Hc Hw Hl Hn]. rewrite Hl in E0.
  apply last_instr in E0 as (cs0 & [op args] & Ecs & Eop). cbn in Eop. subst op.
  rewrite Ecs in Hw. apply Forall_app in Hw as [_ Hw]. apply Forall_cons_iff in Hw as [Hi _].
  unfold assembleFieldGetterFromReturn in H. erewrite bind_step in H by apply code_size_step.
  destruct (negb _) eqn:En in H; [done|]. apply size_test in En.
  assert (p = [] /\ cs0 = []) as [Hp ->].
  { apply (tracks_whole g p cs0 [mkInstr b args]); [by rewrite <- Ecs|].
    pose proof (wf_length _ Hi). cbn [i_op] in *. cbn [encode_all flat_map]. rewrite app_nil_r. lia. }
  apply is_one_of_code in Hb.
  assert (GetBytecodeLength (code b) = 1) as Hlen
    by (repeat (apply elem_of_cons in Hb as [->|Hb]; [done|]); by apply elem_of_nil in Hb).
  rewrite (wf_no_operand _ _ Hi Hlen) in Ecs.
  repeat (apply elem_of_cons in Hb as [->|Hb]); [..|by apply elem_of_nil in Hb];
    cbn in H; (eapply make_assembled; [exact H|done|done|]); rewrite Ecs; constructor;
    apply list_elem_of_In; cbn; auto.
Qed.

(** The argument that a setter stores, and the field it stores into. *)
Lemma setter_argument i j :
  wf_instr i -> wf_instr j -> bytecode g = encode i ++ encode j ++ [code BC_RETURN_SELF] ->
  is_one_of [BC_PUSH_SELF; BC_PUSH_ARG_1; BC_PUSH_ARG_2; BC_PUSH_ARGUMENT] (code (i_op i)) = true ->
  operand_in_range (literals g) i ->
  exists a : nat,
    (if code (i_op i) =? BC_PUSH_SELF then mret 0
     else if code (i_op i) =? BC_PUSH_ARG_1 then mret 1
     else if code (i_op i) =? BC_PUSH_ARG_2 then mret 2
     else byte_at (Z.of_nat (length (bytecode g)) -
            (GetBytecodeLength BC_RETURN_SELF + GetBytecodeLength (code (i_op j)) + 2)))
      (mkGen w g o) = Ok (Z.of_nat a, mkGen w g o) /\
    (i, a) ∈ [(mkInstr BC_PUSH_SELF [], 0%nat); (mkInstr BC_PUSH_ARG_1 [], 1%nat);
              (mkInstr BC_PUSH_ARG_2 [], 2%nat);
              (mkInstr BC_PUSH_ARGUMENT [Z.of_nat a; 0], a)].
Proof using Type.
  intros Hi Hj Ec Hb Hr. destruct i as [op args]. cbn [i_op] in *. apply is_one_of_code in Hb.
  repeat (apply elem_of_cons in Hb as [->|Hb]); [..|by apply elem_of_nil in Hb].
  - exists 0%nat. rewrite (wf_no_operand _ _ Hi eq_refl). split; [done|]. apply list_elem_of_here.
  - exists 1%nat. rewrite (wf_no_operand _ _ Hi eq_refl). split; [done|].
    apply list_elem_of_further, list_elem_of_here.
  - exists 2%nat. rewrite (wf_no_operand _ _ Hi eq_refl). split; [done|].
    do 2 apply list_elem_of_further. apply list_elem_of_here.
  - destruct Hi as [Hlen Hbytes]. cbn in Hbytes, Hr. cbn [length encode i_op i_args] in Hlen.
    change (GetBytecodeLength BC_PUSH_ARGUMENT) with 3 in Hlen.
    destruct args as [|a [|c [|]]]; cbn [length] in Hlen; try lia. subst c.
    apply Forall_cons_iff in Hbytes as [Ha _]. unfold is_byte in Ha.
    exists (Z.to_nat a). rewrite Z2Nat.id by lia. split.
    + change (GetBytecodeLength BC_RETURN_SELF) with 1.
      cbn [Z.eqb code Pos.eqb].
      eapply (read_operand [] BC_PUSH_ARGUMENT a (0 :: encode j ++ [code BC_RETURN_SELF])); [done|].
      rewrite Ec, !length_app, <- (wf_length _ Hj). cbn [length encode i_op i_args]. lia.
    + do 3 apply list_elem_of_further. apply list_elem_of_here.
Qed.

Lemma setter_field i j :
  wf_instr j -> bytecode g = encode i ++ encode j ++ [code BC_RETURN_SELF] ->
  is_one_of [BC_POP_FIELD; BC_POP_FIELD_0; BC_POP_FIELD_1] (code (i_op j)) = true ->
  exists n,
    (if code (i_op j) =? BC_POP_FIELD_0 then mret 0
     else if code (i_op j) =? BC_POP_FIELD_1 then mret 1
     else byte_at (Z.of_nat (length (bytecode g)) - (GetBytecodeLength BC_RETURN_SELF + 1)))
      (mkGen w g o) = Ok (n, mkGen w g o) /\ field_pop j = Some n.
Proof using Type.
  intros Hj Ec Hb. destruct j as [op args]. cbn [i_op] in *. apply is_one_of_code in Hb.
  repeat (apply elem_of_cons in Hb as [->|Hb]); [..|by apply elem_of_nil in Hb].
  - destruct (wf_one_operand _ _ Hj eq_refl) as (n & -> & _). exists n. split; [|done].
    change (GetBytecodeLength BC_RETURN_SELF) with 1.
      cbn [Z.eqb code Pos.eqb].
    eapply (read_operand (encode i) BC_POP_FIELD n [code BC_RETURN_SELF]); [done|].
    rewrite Ec, !length_app. cbn [length encode i_op i_args]. lia.
  - exists 0. by rewrite (wf_no_operand _ _ Hj eq_refl).
  - exists 1. by rewrite (wf_no_operand _ _ Hj eq_refl).
Qed.

Lemma setter_assembled t s' :
  last_at 0 (last4Bytecodes g) = code BC_RETURN_SELF ->
  assembleFieldSetter (mkGen w g o) = Ok (Some t, s') -> assembled t s'.
Proof using HT HR Htag.
  intros E0 H. destruct HT as [Hc Hw Hl Hn]. unfold assembleFieldSetter in H.
  erewrite bind_step in H by apply lastBytecodeIsOneOf_step.
  destruct (IsPopFieldBytecode _ =? BC_INVALID) eqn:E1 in H; [done|].
  erewrite bind_step in H by apply lastBytecodeIsOneOf_step.
  destruct (IsPushArgBytecode _ =? BC_INVALID) eqn:E2 in H; [done|].
  apply Z.eqb_neq, is_one_of_pred in E1 as (bq & E1 & Hbq).
  apply Z.eqb_neq, is_one_of_pred in E2 as (bp & E2 & Hbp).
  rewrite Hl in *.
  pose proof E0 as E0'. apply last_instr in E0' as (cs2 & [op args] & Ecs & Eop).
  cbn in Eop. subst op. rewrite Ecs in E1, E2.
  pose proof E1 as E1'. apply last_instr2 in E1' as (cs1 & j & -> & Ej).
  rewrite <- app_assoc in *. cbn [app] in *.
  pose proof E2 as E2'. apply last_instr3 in E2' as (cs0 & i & -> & Ei).
  rewrite <- app_assoc in *. cbn [app] in *.
  rewrite Ecs in Hw. apply Forall_app in Hw as [_ Hw]. apply Forall_cons_iff in Hw as [Hi Hw].
  apply Forall_cons_iff in Hw as [Hj Hw]. apply Forall_cons_iff in Hw as [Hret _].
  rewrite (wf_no_operand _ _ Hret eq_refl) in *.
  rewrite Ecs, E1, E2 in H. unfold IsPopFieldBytecode, IsPushArgBytecode in H.
  rewrite Hbq, Hbp in H. erewrite bind_step in H by apply code_size_step.
  destruct (negb _) eqn:En in H; [done|]. apply size_test in En.
  rewrite <- Ej, <- Ei in En, H.
  assert (p = [] /\ cs0 = []) as [Hp ->].
  { apply (tracks_whole g p cs0 [i; j; mkInstr BC_RETURN_SELF []]); [by rewrite <- Ecs|].
    pose proof (wf_length _ Hi). pose proof (wf_length _ Hj).
    change (GetBytecodeLength BC_RETURN_SELF) with 1 in En.
    cbn [encode_all flat_map]. rewrite app_nil_r, !length_app.
    change (length (encode (mkInstr BC_RETURN_SELF []))) with 1%nat. lia. }
  cbn [app] in Ecs.
  assert (bytecode g = encode i ++ encode j ++ [code BC_RETURN_SELF]) as Ec by by rewrite Hc, Hp, Ecs.
  rewrite Ecs in HR. apply Forall_cons_iff in HR as [Hr _].
  destruct (setter_argument i j Hi Hj Ec) as (a & Ha & Hain); [by rewrite Ei|done|].
  erewrite bind_step in H by exact Ha.
  destruct (setter_field i j Hj Ec) as (n & Hf & Hpop); [by rewrite Ej|].
  erewrite bind_step in H by exact Hf.
  eapply make_assembled; [exact H|done|done|]. rewrite Ecs. by econstructor.
Qed.

Lemma trivial_assembled t s' :
  assembleTrivialMethod USE_TAGGING (mkGen w g o) = Ok (Some t, s') -> assembled t s'.
Proof using HT HR Htag.
  intros H. unfold assembleTrivialMethod in H.
  erewrite bind_step in H by apply LastBytecodeIs_step.
  do 1 erewrite bind_step in H by apply lastBytecodeIsOneOf_step.
  erewrite bind_step in H by apply LastBytecodeIs_step.
  erewrite bind_step in H by apply lastBytecodeIsOneOf_step.
  destruct (last_at 0 (last4Bytecodes g) =? BC_RETURN_LOCAL) eqn:E0.
  - apply Z.eqb_eq in E0. cbn [andb] in H.
    destruct (IsPushConstBytecode _ =? BC_INVALID) eqn:E1 in H; cbn [negb] in H.
    + destruct (last_at 1 (last4Bytecodes g) =? BC_PUSH_GLOBAL) eqn:E2.
      * apply Z.eqb_eq in E2. by apply global_assembled.
      * destruct (IsPushFieldBytecode _ =? BC_INVALID) eqn:E3 in H; cbn [negb] in H.
        -- erewrite bind_step in H by apply LastBytecodeIs_step. rewrite E0 in H. cbn in H.
           by erewrite bind_step in H by apply lastBytecodeIsOneOf_step; rewrite E0 in H.
        -- apply Z.eqb_neq, is_one_of_pred in E3 as (b & E3 & Hb). rewrite E3 in H.
           unfold IsPushFieldBytecode in H. rewrite Hb in H. by eapply getter_assembled.
    + apply Z.eqb_neq, is_one_of_pred in E1 as (b & E1 & Hb). rewrite E1 in H.
      unfold IsPushConstBytecode in H. rewrite Hb in H. by eapply literal_assembled.
  - cbn [andb] in H. erewrite bind_step in H by apply LastBytecodeIs_step.
    destruct (last_at 0 (last4Bytecodes g) =? BC_RETURN_SELF) eqn:E1.
    + apply Z.eqb_eq in E1. by apply setter_assembled.
    + erewrite bind_step in H by apply lastBytecodeIsOneOf_step.
      destruct (IsReturnFieldBytecode _ =? BC_INVALID) eqn:E2 in H; [done|]. cbn [negb] in H.
      apply Z.eqb_neq, is_one_of_pred in E2 as (b & E2 & Hb). rewrite E2 in H.
      unfold IsReturnFieldBytecode in H. rewrite Hb in H. by eapply getter_return_assembled.
Qed.

End Trivial.

(** C10: trivial methods do what their code would have done.  When the compiler assembles
    the code [cs] of a method into an object without code, that is all the code there is,
    and invoking the object leaves the caller in the same state as calling a method with
    that code and running it to its return: the same result in place of the arguments, the
    same effect on the fields, or the same failure, up to the wording of one message.  Only
    the dead frame of the call is missing.  This is about methods whose code refers to
    their own arguments, not about blocks, and about invocations that are [regular]: of a
    global that is defined, and of a setter for an argument other than the receiver
    ([setter_of_receiver]).  Without tagging it leaves out code that pushes 0 or 1, which
    makes a new integer in every call. *)
Theorem trivial_methods_equivalent USE_TAGGING LoadClassBasic routines w g o p cs t s' :
  tracks g p cs -> Forall (operand_in_range (literals g)) cs ->
  (USE_TAGGING = false -> Forall (fun i => i_op i <> BC_PUSH_0 /\ i_op i <> BC_PUSH_1) cs) ->
  assembleTrivialMethod USE_TAGGING (mkGen w g o) = Ok (Some t, s') ->
  bytecode g = encode_all cs /\
  exists sig n tr, heap (gen_world s') !! t = Some (OTrivial sig Null n (arguments g) tr) /\
    forall fuel fuel' v cur f base args b m holder targs,
      known v = known w -> regular v n tr ->
      heap v !! t = Some (OTrivial sig holder n targs tr) ->
      heap v !! b = Some (OMethod m) -> m_constants m = literals g ->
      m_numberOfArguments m = n -> (1 <= m_maxStack m)%nat ->
      calling v cur f base args n ->
      same_outcome v cur f (Invoke USE_TAGGING routines (S fuel') t cur v)
        ((VMMethod_Invoke b cur;; exec_all USE_TAGGING LoadClassBasic routines fuel cs) v).
Proof.
  intros HT HR Htag H.
  destruct (trivial_assembled USE_TAGGING w g o p cs HT HR Htag t s' H)
    as (-> & sig & n & w' & tr & -> & _ & Hk & Ht & HS).
  split; [by destruct HT|]. exists sig, n, tr. split; [done|].
  intros fuel fuel' v cur f base args b m holder targs Hkv Hreg Ht' Hb Hl Hn Hst HC.
  subst n. by eapply stands_for_outcome.
Qed.

(** ** Example: a setter *)

Definition setter_code : list instr :=
  [mkInstr BC_PUSH_ARG_1 []; mkInstr BC_POP_FIELD_0 []; mkInstr BC_RETURN_SELF []].

Definition setter_world : World :=
  set_next 7%nat (put_obj 6%nat (OSymbol (mkSymbol "x:" [] 0)) (example_world 1%nat 7)).

Definition setter_object : obj := OTrivial 6%nat Null 2 [] (VMSetter 0 1).

Definition setter_assembly : Gen :=
  mkGen (set_next 8%nat (put_obj 7%nat setter_object setter_world))
    (set_signature (Some 6%nat) (buffer setter_code)) [].

(** A frame that is about to send the setter to the object 9 with the argument 3. *)
Definition setter_method : Method := mkMethod 6%nat Null 0 1 [] 2 [] 0%nat [].
Definition setter_frame : Frame := mkFrame None None 0%nat 7 1 [Tagged 1; Ref 9%nat; Tagged 3] 5.

Definition setter_called : World :=
  set_next 10%nat (put_obj 9%nat (OObject KObject Null [Tagged 5])
    (put_obj 8%nat (OMethod setter_method)
      (put_obj 1%nat (OFrame setter_frame) (put_obj 7%nat setter_object setter_world)))).

Lemma trivial_methods_equivalent_witness :
  assembleTrivialMethod true
    (mkGen setter_world (set_signature (Some 6%nat) (buffer setter_code)) []) = Ok (Some 7%nat, setter_assembly)
  /\ same_outcome setter_called 1%nat setter_frame
       (Invoke true no_routines 1 7%nat 1%nat setter_called)
       ((VMMethod_Invoke 8%nat 1%nat;;
         exec_all true (fun _ => fail Undef) no_routines 1 setter_code) setter_called)
  /\ match Invoke true no_routines 1 7%nat 1%nat setter_called with
     | Ok (_, w) => heap w !! 9%nat = Some (OObject KObject Null [Tagged 3])
     | Err _ => False
     end.
Proof.
  assert (assembleTrivialMethod true
    (mkGen setter_world (set_signature (Some 6%nat) (buffer setter_code)) [])
    = Ok (Some 7%nat, setter_assembly)) as E by (vm_compute; reflexivity).
  split; [exact E|]. split; [|vm_compute; reflexivity].
  destruct (trivial_methods_equivalent true (fun _ => fail Undef) no_routines setter_world
              (set_signature (Some 6%nat) (buffer setter_code)) [] [] setter_code 7%nat setter_assembly)
    as (_ & sig & n & tr & H & HO).
  - split; [reflexivity|repeat constructor|reflexivity|cbn; lia].
  - repeat constructor.
  - discriminate.
  - exact E.
  - vm_compute in H. injection H as <- <- <-.
    apply (HO 1%nat 0%nat setter_called 1%nat setter_frame [Tagged 1] [Ref 9%nat; Tagged 3] 8%nat
             setter_method Null []); try (vm_compute; reflexivity).
    + cbn. lia.
    + split; try (vm_compute; reflexivity); cbn; lia.
Defined.

(** A setter of the receiver itself: the code stores it, the object without code stops. *)
Example setter_of_receiver :
  let w := put_obj 0%nat (OTrivial 6%nat Null 1 [] (VMSetter 0 0)) (example_world 1%nat 7) in
  Invoke1 true no_routines 1 0%nat 1%nat w =
    Err (ErrorExit "VMSetter::Invoke1 should not be reachable").
Proof. reflexivity. Qed.
