(* ===== verification/Inlining.v ===== *)
(** * Inlining blocks

    The inlining of literal blocks into the method around them: [inlineInto],
    [AdaptAfterOuterInlined] and the jump queues of
    [src/src/vmobjects/VMMethod.cpp], [InlineInto] of the other invokables, and the
    control structures of [compiler/MethodGenerationContext.cpp] that use it. *)
From Stdlib Require Import String.
From S2P Require Import Prelude Bytecodes Objects Universe MethodGen.
Local Open Scope Z_scope.

(** ** Inlined variables *)

(** [while (index > 0)] from the number of locals, a [uint8_t]. *)
Fixpoint last_same (index : nat) (locs : list VariableT) (var : VariableT) : option nat :=
  match index with
  | O => None
  | S index =>
      match locs !! index with
      | Some v => if IsSame v var then Some index else last_same index locs var
      | None => last_same index locs var
      end
  end.

Definition GetInlinedLocalIdx (var : VariableT) : G Z :=
  locs ← mg locals;
  match last_same (Z.to_nat (u8 (Z.of_nat (length locs)))) locs var with
  | Some i => mret (Z.of_nat i)
  | None => fail (ErrorExit "Unexpected issue trying to find an inlined variable.")
  end.

Fixpoint find_same (vs : list VariableT) (oldVar : VariableT) : option VariableT :=
  match vs with
  | [] => None
  | v :: r => if IsSame v oldVar then Some v else find_same r oldVar
  end.

Fixpoint inlined_variable (ms : list Mgenc) (oldVar : VariableT) : option VariableT :=
  match ms with
  | [] => None
  | m :: outer =>
      match find_same (locals m) oldVar with
      | Some v => Some v
      | None =>
          match find_same (arguments m) oldVar with
          | Some v => Some v
          | None => inlined_variable outer oldVar
          end
      end
  end.

Definition GetInlinedVariable (oldVar : VariableT) : G VariableT :=
  s ← get;
  lift (of_option (ErrorExit "Failed to find inlined variable")
          (inlined_variable (gen_mg s :: gen_outer s) oldVar)).

Fixpoint InlineAsLocals (vars : list VariableT) : G () :=
  match vars with
  | [] => mret tt
  | var :: rest =>
      locs ← mg locals;
      match CopyForInlining var (length locs) with
      | None => mret tt
      | Some freshCopy =>
          sc ← mg lexicalScope;
          sid ← lift (of_option Undef sc);
          liftV (AddInlinedLocal sid freshCopy);;
          args ← mg arguments;
          update_mg (set_variables args (locs ++ [freshCopy]))
      end;;
      InlineAsLocals rest
  end.

Definition MergeIntoScope (scopeToBeInlined : scope_id) : G () :=
  sc ← liftV (load_scope scopeToBeInlined);
  (if Z.of_nat (length (s_arguments sc)) mod 256 >? 1
   then InlineAsLocals (s_arguments sc) else mret tt);;
  sc ← liftV (load_scope scopeToBeInlined);
  match s_locals sc with [] => mret tt | locs => InlineAsLocals locs end.

(** ** Jump queues

    The priority queues, smallest first; which of two equal entries comes first does
    not matter. *)

Record Jump : Type := mkJump { originalJumpTargetIdx : Z; jumpOffsetIdx : Z }.
Record BackJumpPatch : Type := mkPatch { backwardsJumpIdx : Z; patchedLoopBegin : Z }.

Fixpoint insert_by {A} (key : A -> Z) (x : A) (q : list A) : list A :=
  match q with
  | [] => [x]
  | y :: r => if key x <? key y then x :: q else y :: insert_by key x r
  end.

(** The loops up to the terminating entry, which is not represented. *)
Definition createBackJumpHeap (m : Method) : list BackJump :=
  foldr (insert_by loopBeginIdx) [] (m_inlinedLoops m).

Fixpoint prepareBackJumpToCurrentAddress (backJumps : list BackJump)
    (backJumpsToPatch : list BackJumpPatch) (i : Z) : G (list BackJump * list BackJumpPatch) :=
  match backJumps with
  | jump :: rest =>
      if loopBeginIdx jump <=? i then
        next ← OffsetOfNextInstruction;
        prepareBackJumpToCurrentAddress rest
          (insert_by backwardsJumpIdx (mkPatch (backwardJumpIdx jump) next) backJumpsToPatch) i
      else mret (backJumps, backJumpsToPatch)
  | [] => mret (backJumps, backJumpsToPatch)
  end.

Fixpoint patchJumpToCurrentAddress (i : Z) (jumps : list Jump) : G (list Jump) :=
  match jumps with
  | jump :: rest =>
      if originalJumpTargetIdx jump <=? i then
        PatchJumpOffsetToPointToNextInstruction (jumpOffsetIdx jump);;
        patchJumpToCurrentAddress i rest
      else mret jumps
  | [] => mret []
  end.

(** ** Adapting the blocks inside of an inlined block

    They lose one level of context: what they reach in the inlined block is now a
    local of the method it was inlined into.  The method of a nested block is cast
    to a bytecode method without a check. *)

Definition method_byte (m : Method) (i : Z) : G Z :=
  if i <? 0 then fail Undef else lift (of_option Undef (m_bytecodes m !! Z.to_nat i)).

Definition with_bytecodes (bs : list Z) (m : Method) : Method :=
  mkMethod (m_signature m) (m_holder m) (m_numberOfLocals m) (m_maxStack m) bs
    (m_numberOfArguments m) (m_constants m) (m_scope m) (m_inlinedLoops m).

Definition set_method_byte (l : loc) (i : Z) (b : Z) : V () :=
  m ← load_method l;
  if (0 <=? i) && (i <? Z.of_nat (length (m_bytecodes m)))
  then store l (OMethod (with_bytecodes (<[Z.to_nat i := u8 b]> (m_bytecodes m)) m))
  else fail Undef.

(** [VMMethod::GetConstant] *)
Definition method_constant (m : Method) (i : Z) : G oop :=
  bc ← method_byte m (i + 1); mret (default Null (m_constants m !! Z.to_nat bc)).

(** What the switch does for an instruction; a byte that is none has no length in the
    table. *)
Inductive adaptation : Type :=
  | keep | adapt_argument | adapt_block | adapt_local | unexpected | unsupported | no_bytecode.

Definition adaptation_of (bc : option Bytecodes.bytecode) : adaptation :=
  match bc with
  | Some (BC_PUSH_ARGUMENT | BC_POP_ARGUMENT) => adapt_argument
  | Some BC_PUSH_BLOCK => adapt_block
  | Some (BC_PUSH_LOCAL | BC_POP_LOCAL) => adapt_local
  | Some (BC_HALT | BC_RETURN_SELF | BC_RETURN_FIELD_0 | BC_RETURN_FIELD_1
         | BC_RETURN_FIELD_2) => unexpected
  | Some (BC_JUMP_IF_GREATER | BC_JUMP2_IF_GREATER) => unsupported
  | Some _ => keep
  | None => no_bytecode
  end.

(** The case of the instruction at [i]; [adapt_nested] is the recursive call. *)
Definition adapt_instruction (adapt_nested : loc -> Z -> G ()) (l : loc) (m : Method)
    (removedCtxLevel : Z) (i bc : Z) : G () :=
  match adaptation_of (Bytecodes.decode bc) with
  | keep => mret tt
  | adapt_argument =>
      idx ← method_byte m (i + 1);
      ctxLevel ← method_byte m (i + 2);
      oldArg ← liftV (scope_argument (m_scope m) (Z.to_nat idx) (Z.to_nat ctxLevel));
      newVar ← GetInlinedVariable oldArg;
      (if v_isArgument newVar then mret tt
       else
         liftV (set_method_byte l i
           (if bc =? BC_PUSH_ARGUMENT then code BC_PUSH_LOCAL else code BC_POP_LOCAL));;
         liftV (set_method_byte l (i + 1) (v_index newVar)));;
      if ctxLevel >? removedCtxLevel
      then liftV (set_method_byte l (i + 2) (ctxLevel - 1)) else mret tt
  | adapt_block =>
      c ← method_constant m i;
      b ← liftV (loc_of c);
      adapt_nested b (u8 (removedCtxLevel + 1))
  | adapt_local =>
      ctxLevel ← method_byte m (i + 2);
      if ctxLevel =? removedCtxLevel then
        idx ← method_byte m (i + 1);
        oldVar ← liftV (scope_local (m_scope m) (Z.to_nat idx) (Z.to_nat ctxLevel));
        newIdx ← GetInlinedLocalIdx oldVar;
        liftV (set_method_byte l (i + 1) newIdx)
      else if ctxLevel >? removedCtxLevel
      then liftV (set_method_byte l (i + 2) (ctxLevel - 1)) else mret tt
  | unexpected =>
      fail (ErrorExit "AdaptAfterOuterInlined: Found bytecode, but it's not expected in a block method")
  | unsupported =>
      fail (ErrorExit "Found bytecode, but AdaptAfterOuterInlined does not yet support it.")
  | no_bytecode => fail Undef
  end.

(** [while (i < numBytecodes)]; every instruction is at least a byte long. *)
Fixpoint adapt_loop (fuel : nat) (adapt_nested : loc -> Z -> G ()) (l : loc)
    (removedCtxLevel : Z) (i : Z) : G () :=
  m ← liftV (load_method l);
  if i <? Z.of_nat (length (m_bytecodes m)) then
    match fuel with
    | O => fail OutOfFuel
    | S fuel =>
        bc ← method_byte m i;
        adapt_instruction adapt_nested l m removedCtxLevel i bc;;
        adapt_loop fuel adapt_nested l removedCtxLevel (i + GetBytecodeLength bc)
    end
  else mret tt.

(** The first argument bounds the nesting of the blocks: with more levels than objects
    a block is nested in itself and the recursion overflows the stack. *)
Fixpoint AdaptAfterOuterInlined (depth : nat) (l : loc) (removedCtxLevel : Z) : G () :=
  match depth with
  | O => fail Undef
  | S depth =>
      m ← liftV (load_method l);
      adapt_loop (length (m_bytecodes m)) (AdaptAfterOuterInlined depth) l removedCtxLevel 0;;
      if removedCtxLevel =? 1 then liftV (DropInlinedScope (m_scope m)) else mret tt
  end.

(** ** Inlining the code of a method *)

Section Inlining.

Context (USE_TAGGING : bool).

(** The virtual call on the method of a nested block: only a bytecode method does
    something. *)
Definition adapt_invokable (fuel : nat) (l : loc) : G () :=
  o ← liftV (load l);
  match o with
  | OMethod _ => AdaptAfterOuterInlined fuel l 1
  | OTrivial _ _ _ _ _ | OPrimitive _ _ _ => mret tt
  | _ => fail Undef
  end.

(** The case of a local of the inlined block: its variable has been added to the
    locals of the method it is inlined into. *)
Definition inlined_local (m : Method) (idx : Z) : G Z :=
  var ← liftV (scope_local (m_scope m) (Z.to_nat idx) 0); GetInlinedLocalIdx var.

Definition inlined_argument (m : Method) (idx : Z) : G Z :=
  var ← liftV (scope_argument (m_scope m) (Z.to_nat idx) 0); GetInlinedLocalIdx var.

(** The instructions that are translated one at a time, without jumps. *)
Definition inline_simple (fuel : nat) (m : Method) (i : Z) (bc : Bytecodes.bytecode) : G () :=
  match bc with
  | BC_DUP | BC_DUP_SECOND => Emit1 bc 1
  | BC_PUSH_FIELD => idx ← method_byte m (i + 1); EmitPushFieldWithIndex idx
  | BC_PUSH_FIELD_0 => EmitPushFieldWithIndex 0
  | BC_PUSH_FIELD_1 => EmitPushFieldWithIndex 1
  | BC_POP_FIELD => idx ← method_byte m (i + 1); EmitPopFieldWithIndex idx
  | BC_POP_FIELD_0 => EmitPopFieldWithIndex 0
  | BC_POP_FIELD_1 => EmitPopFieldWithIndex 1
  | BC_POP_ARGUMENT =>
      idx ← method_byte m (i + 1); ctxLevel ← method_byte m (i + 2);
      EmitPOPARGUMENT idx (u64 (ctxLevel - 1))
  | BC_PUSH_ARGUMENT =>
      idx ← method_byte m (i + 1); ctxLevel ← method_byte m (i + 2);
      EmitPUSHARGUMENT idx (u64 (ctxLevel - 1))
  | BC_INC_FIELD => idx ← method_byte m (i + 1); Emit2 bc idx 0
  | BC_INC_FIELD_PUSH => idx ← method_byte m (i + 1); Emit2 bc idx 1
  | BC_PUSH_LOCAL =>
      idx ← method_byte m (i + 1); ctxLevel ← method_byte m (i + 2);
      if ctxLevel =? 0 then idx' ← inlined_local m idx; EmitPUSHLOCAL idx' 0
      else EmitPUSHLOCAL idx (ctxLevel - 1)
  | BC_POP_LOCAL =>
      idx ← method_byte m (i + 1); ctxLevel ← method_byte m (i + 2);
      if ctxLevel =? 0 then idx' ← inlined_local m idx; EmitPOPLOCAL idx' 0
      else EmitPOPLOCAL idx (ctxLevel - 1)
  | BC_PUSH_LOCAL_0 => idx ← inlined_local m 0; EmitPUSHLOCAL idx 0
  | BC_PUSH_LOCAL_1 => idx ← inlined_local m 1; EmitPUSHLOCAL idx 0
  | BC_PUSH_LOCAL_2 => idx ← inlined_local m 2; EmitPUSHLOCAL idx 0
  | BC_POP_LOCAL_0 => idx ← inlined_local m 0; EmitPOPLOCAL idx 0
  | BC_POP_LOCAL_1 => idx ← inlined_local m 1; EmitPOPLOCAL idx 0
  | BC_POP_LOCAL_2 => idx ← inlined_local m 2; EmitPOPLOCAL idx 0
  | BC_PUSH_ARG_1 => idx ← inlined_argument m 1; EmitPUSHLOCAL idx 0
  | BC_PUSH_ARG_2 => idx ← inlined_argument m 2; EmitPUSHLOCAL idx 0
  | BC_PUSH_BLOCK =>
      c ← method_constant m i;
      b ← liftV (loc_of c);
      adapt_invokable fuel b;;
      EmitPUSHBLOCK c
  | BC_PUSH_CONSTANT => c ← method_constant m i; EmitPUSHCONSTANT USE_TAGGING c
  | BC_PUSH_CONSTANT_0 => c ← lift (of_option Undef (m_constants m !! 0%nat)); EmitPUSHCONSTANT USE_TAGGING c
  | BC_PUSH_CONSTANT_1 => c ← lift (of_option Undef (m_constants m !! 1%nat)); EmitPUSHCONSTANT USE_TAGGING c
  | BC_PUSH_CONSTANT_2 => c ← lift (of_option Undef (m_constants m !! 2%nat)); EmitPUSHCONSTANT USE_TAGGING c
  | BC_PUSH_0 | BC_PUSH_1 | BC_PUSH_NIL => Emit1 bc 1
  | BC_POP => EmitPOP
  | BC_INC | BC_DEC => Emit1 bc 0
  | BC_PUSH_GLOBAL =>
      c ← method_constant m i; sym ← liftV (loc_of c); EmitPUSHGLOBAL USE_TAGGING sym
  | BC_SEND | BC_SEND_1 => c ← method_constant m i; sym ← liftV (loc_of c); EmitSEND sym
  | BC_SUPER_SEND => c ← method_constant m i; sym ← liftV (loc_of c); EmitSUPERSEND sym
  | BC_RETURN_LOCAL => mret tt
  | BC_RETURN_NON_LOCAL =>
      block ← mg blockMethod;
      if block : bool then EmitRETURNNONLOCAL else EmitRETURNLOCAL
  | BC_RETURN_FIELD_0 => EmitPushFieldWithIndex 0
  | BC_RETURN_FIELD_1 => EmitPushFieldWithIndex 1
  | BC_RETURN_FIELD_2 => EmitPushFieldWithIndex 2
  | BC_HALT | BC_PUSH_SELF | BC_RETURN_SELF =>
      fail (ErrorExit "inlineInto: Found bytecode, but it's not expected in a block method")
  | _ => fail (ErrorExit "inlineInto: Found bytecode, but inlining of it is not yet supported.")
  end.

(** The stack effect of a forward jump, for the instructions that are one. *)
Definition forward_jump (bc : Bytecodes.bytecode) : option Z :=
  match bc with
  | BC_JUMP | BC_JUMP_ON_TRUE_TOP_NIL | BC_JUMP_ON_FALSE_TOP_NIL
  | BC_JUMP_ON_NOT_NIL_TOP_TOP | BC_JUMP_ON_NIL_TOP_TOP
  | BC_JUMP2 | BC_JUMP2_ON_TRUE_TOP_NIL | BC_JUMP2_ON_FALSE_TOP_NIL
  | BC_JUMP2_ON_NOT_NIL_TOP_TOP | BC_JUMP2_ON_NIL_TOP_TOP
  | BC_JUMP_IF_GREATER | BC_JUMP2_IF_GREATER => Some 0
  | BC_JUMP_ON_TRUE_POP | BC_JUMP_ON_FALSE_POP | BC_JUMP2_ON_TRUE_POP
  | BC_JUMP2_ON_FALSE_POP | BC_JUMP_ON_NOT_NIL_POP | BC_JUMP_ON_NIL_POP
  | BC_JUMP2_ON_NOT_NIL_POP | BC_JUMP2_ON_NIL_POP => Some (-1)
  | _ => None
  end.

Definition is_backward_jump (bc : Bytecodes.bytecode) : bool :=
  match bc with BC_JUMP_BACKWARD | BC_JUMP2_BACKWARD => true | _ => false end.

Record Queues : Type := mkQueues {
  q_jumps : list Jump; q_backJumps : list BackJump; q_patches : list BackJumpPatch }.

(** The body of the loop, from the instruction at [i]. *)
Definition inline_instruction (fuel : nat) (m : Method) (i : Z) (bc : Bytecodes.bytecode)
    (q : Queues) : G Queues :=
  match forward_jump bc with
  | Some effect =>
      idx ← Emit3WithDummy bc effect;
      b1 ← method_byte m (i + 1);
      b2 ← method_byte m (i + 2);
      mret (mkQueues
              (insert_by originalJumpTargetIdx (mkJump (i + ComputeOffset b1 b2) idx) (q_jumps q))
              (q_backJumps q) (q_patches q))
  | None =>
      if is_backward_jump bc then
        match q_patches q with
        | [] => fail Undef
        | p :: rest =>
            EmitBackwardsJumpOffsetToTarget (patchedLoopBegin p);;
            mret (mkQueues (q_jumps q) (q_backJumps q) rest)
        end
      else inline_simple fuel m i bc;; mret q
  end.

Fixpoint inlineInto_loop (fuel : nat) (m : Method) (i : Z) (q : Queues) : G () :=
  if i <? Z.of_nat (length (m_bytecodes m)) then
    match fuel with
    | O => fail OutOfFuel
    | S fuel =>
        bq ← prepareBackJumpToCurrentAddress (q_backJumps q) (q_patches q) i;
        js ← patchJumpToCurrentAddress i (q_jumps q);
        b ← method_byte m i;
        match Bytecodes.decode b with
        | None => fail Undef
        | Some bc =>
            adaptFuel ← liftV heap_fuel;
            q' ← inline_instruction adaptFuel m i bc (mkQueues js bq.1 bq.2);
            inlineInto_loop fuel m (i + GetBytecodeLength bc) q'
        end
    end
  else mret tt.

Definition inlineInto (m : Method) : G () :=
  inlineInto_loop (length (m_bytecodes m)) m 0 (mkQueues [] (createBackJumpHeap m) []).

(** [VMInvokable::InlineInto] of each kind of invokable *)
Definition InlineInto (inv : loc) (mergeScope : bool) : G () :=
  o ← liftV (load inv);
  match o with
  | OMethod m => (if mergeScope then MergeIntoScope (m_scope m) else mret tt);; inlineInto m
  | OTrivial _ _ _ _ (VMLiteralReturn literal) => EmitPUSHCONSTANT USE_TAGGING literal
  | OTrivial _ _ _ _ (VMGlobalReturn globalName) => EmitPUSHGLOBAL USE_TAGGING globalName
  | OTrivial _ _ _ _ (VMGetter fieldIndex) => EmitPushFieldWithIndex (u8 fieldIndex)
  | OTrivial _ _ _ _ (VMSetter _ _) =>
      fail (ErrorExit "We don't currently support blocks for trivial setters")
  | OPrimitive _ _ _ => fail (ErrorExit "VMPrimitive::InlineInto is not supported, and should not be reached")
  | _ => fail Undef
  end.

Definition MergeScopeInto (inv : loc) : G () :=
  o ← liftV (load inv);
  match o with
  | OMethod m => MergeIntoScope (m_scope m)
  | OTrivial _ _ _ args _ => InlineAsLocals args
  | OPrimitive _ _ _ => mret tt
  | _ => fail Undef
  end.

(** [GetArgument(1, 0)] of an invokable *)
Definition invokable_argument (inv : loc) (index : nat) : G VariableT :=
  o ← liftV (load inv);
  match o with
  | OMethod m => liftV (scope_argument (m_scope m) index 0)
  | OTrivial _ _ _ args _ => lift (of_option out_of_range (args !! index))
  | OPrimitive _ _ _ => fail (ErrorExit "VMInvokable::GetArgument not supported on anything VMMethod")
  | _ => fail Undef
  end.

(** ** Control structures

    Each of them answers whether it was inlined. *)

Definition hasOneLiteralBlockArgument : G bool := LastBytecodeIs 0 BC_PUSH_BLOCK.

Definition hasTwoLiteralBlockArguments : G bool :=
  one ← LastBytecodeIs 0 BC_PUSH_BLOCK;
  if negb one then mret false else LastBytecodeIs 1 BC_PUSH_BLOCK.

(** The operand of the instruction only serves an assertion. *)
Definition getLastBlockMethodAndFreeLiteral : G loc :=
  ls ← mg literals;
  match last ls with
  | None => fail Undef
  | Some block => update_mg (set_literals (removelast ls));; liftV (loc_of block)
  end.

Definition extractBlockMethodAndRemoveBytecode : G loc :=
  size ← code_size;
  byte_at (size - 1);;
  toBeInlined ← getLastBlockMethodAndFreeLiteral;
  removeLastBytecodes 1;;
  mret toBeInlined.

Definition extractBlockMethodsAndRemoveBytecodes : G (loc * loc) :=
  size ← code_size;
  byte_at (size - 3);;
  byte_at (size - 1);;
  toBeInlined2 ← getLastBlockMethodAndFreeLiteral;
  toBeInlined1 ← getLastBlockMethodAndFreeLiteral;
  removeLastBytecodes 2;;
  mret (toBeInlined1, toBeInlined2).

Definition set_isInlining (b : bool) : G () :=
  update_mg (fun g => set_inlining (inlinedLoops g) b g).

Definition InlineThenBranch (condition : JumpCondition) : G bool :=
  one ← hasOneLiteralBlockArgument;
  if negb one then mret false
  else
    toBeInlined ← extractBlockMethodAndRemoveBytecode;
    jumpOffsetIdxToSkipBody ← EmitJumpOnWithDummyOffset condition false;
    set_isInlining true;;
    InlineInto toBeInlined true;;
    PatchJumpOffsetToPointToNextInstruction jumpOffsetIdxToSkipBody;;
    resetLastBytecodeBuffer;;
    mret true.

Definition InlineThenElseBranches (condition : JumpCondition) : G bool :=
  two ← hasTwoLiteralBlockArguments;
  if negb two then mret false
  else
    methods ← extractBlockMethodsAndRemoveBytecodes;
    jumpOffsetIdxToSkipTrueBranch ← EmitJumpOnWithDummyOffset condition true;
    set_isInlining true;;
    InlineInto methods.1 true;;
    jumpOffsetIdxToSkipFalseBranch ← EmitJumpWithDumyOffset;
    PatchJumpOffsetToPointToNextInstruction jumpOffsetIdxToSkipTrueBranch;;
    resetLastBytecodeBuffer;;
    InlineInto methods.2 true;;
    set_isInlining false;;
    PatchJumpOffsetToPointToNextInstruction jumpOffsetIdxToSkipFalseBranch;;
    resetLastBytecodeBuffer;;
    mret true.

Definition completeJumpsAndEmitReturningNil (loopBeginIdx jumpOffsetIdxToSkipLoopBody : Z)
    : G () :=
  resetLastBytecodeBuffer;;
  EmitPOP;;
  EmitBackwardsJumpOffsetToTarget loopBeginIdx;;
  PatchJumpOffsetToPointToNextInstruction jumpOffsetIdxToSkipLoopBody;;
  k ← liftV (gets known);
  EmitPUSHCONSTANT USE_TAGGING (nilObject k);;
  resetLastBytecodeBuffer.

Definition InlineWhile (isWhileTrue : bool) : G bool :=
  two ← hasTwoLiteralBlockArguments;
  if negb two then mret false
  else
    methods ← extractBlockMethodsAndRemoveBytecodes;
    loopBeginIdx ← OffsetOfNextInstruction;
    set_isInlining true;;
    InlineInto methods.1 true;;
    jumpOffsetIdxToSkipLoopBody ←
      EmitJumpOnWithDummyOffset (if isWhileTrue then ON_FALSE else ON_TRUE) true;
    InlineInto methods.2 true;;
    completeJumpsAndEmitReturningNil loopBeginIdx jumpOffsetIdxToSkipLoopBody;;
    set_isInlining false;;
    mret true.

Definition InlineAndOr (isOr : bool) : G bool :=
  one ← hasOneLiteralBlockArgument;
  if negb one then mret false
  else
    toBeInlined ← extractBlockMethodAndRemoveBytecode;
    jumpOffsetIdxToSkipBranch ←
      EmitJumpOnWithDummyOffset (if isOr then ON_TRUE else ON_FALSE) true;
    set_isInlining true;;
    InlineInto toBeInlined true;;
    set_isInlining false;;
    jumpOffsetIdxToSkipPushTrue ← EmitJumpWithDumyOffset;
    PatchJumpOffsetToPointToNextInstruction jumpOffsetIdxToSkipBranch;;
    k ← liftV (gets known);
    EmitPUSHCONSTANT USE_TAGGING (if isOr then trueObject k else falseObject k);;
    PatchJumpOffsetToPointToNextInstruction jumpOffsetIdxToSkipPushTrue;;
    resetLastBytecodeBuffer;;
    mret true.

Definition InlineToDo : G bool :=
  one ← hasOneLiteralBlockArgument;
  if negb one then mret false
  else
    toBeInlined ← extractBlockMethodAndRemoveBytecode;
    MergeScopeInto toBeInlined;;
    blockArg ← invokable_argument toBeInlined 1;
    iVarIdx ← GetInlinedLocalIdx blockArg;
    set_isInlining true;;
    EmitDupSecond;;
    loopBeginIdx ← OffsetOfNextInstruction;
    jumpOffsetIdxToEnd ← EmitJumpIfGreaterWithDummyOffset;
    EmitDUP;;
    EmitPOPLOCAL iVarIdx 0;;
    InlineInto toBeInlined false;;
    EmitPOP;;
    EmitINC;;
    EmitBackwardsJumpOffsetToTarget loopBeginIdx;;
    PatchJumpOffsetToPointToNextInstruction jumpOffsetIdxToEnd;;
    set_isInlining false;;
    mret true.

End Inlining.
