(* ===== verification/Parser.v ===== *)
(** * The parser

    [src/src/compiler/Parser.h] and [Parser.cpp]: a recursive descent over the tokens
    of [Lexer] that emits code as it goes ([MethodGen], [Inlining]).  A function of the
    code is a definition of the same name here.  The functions that call each other
    take the fuel of their caller, one less per call.

    [T] is the state of the parser alone, [P] that state with the method that is being
    compiled. *)
From Stdlib Require Import Ascii String SpecFloat.
From S2P Require Import Prelude Bytecodes InfIntText IntegerPrims Lexer Objects Universe.
From S2P Require Import MethodGen Inlining.
Import Lexer.Lexer.
Local Open Scope Z_scope.

(** ** Tokens *)

Record Parser : Type := mkParser {
  p_lexer : Lexer;
  p_sym : Symbol;
  p_text : string;
  p_nextSym : Symbol;
  p_nextText : string }.

Notation T := (stateful Parser).

Definition on_lexer {A} (m : M A) : T A := fun p =>
  match m (p_lexer p) with
  | Ok (a, l) => Ok (a, mkParser l (p_sym p) (p_text p) (p_nextSym p) (p_nextText p))
  | Err e => Err e
  end.

Definition the_text (f : Lexer -> list ascii) : T string :=
  gets (fun p => string_of_list_ascii (f (p_lexer p))).

Definition GetSym : T () :=
  y ← on_lexer Lexer.GetSym;
  t ← the_text GetText;
  modify (fun p => mkParser (p_lexer p) y t (p_nextSym p) (p_nextText p)).

Definition Peek : T () :=
  y ← on_lexer Lexer.Peek;
  t ← the_text GetNextText;
  modify (fun p => mkParser (p_lexer p) (p_sym p) (p_text p) y t).

Definition PeekForNextSymbolFromLexerIfNecessary : T () :=
  l ← gets p_lexer;
  if peekDone l then mret tt
  else
    y ← on_lexer Lexer.Peek;
    modify (fun p => mkParser (p_lexer p) (p_sym p) (p_text p) y (p_nextText p)).

Definition new_Parser (input : list ascii) : result Parser :=
  r ← GetSym (mkParser (new_Lexer input) NONE "" NONE ""); Ok r.2.

Definition symIn (ss : list Symbol) (y : Symbol) : bool := bool_decide (y ∈ ss).

Definition accept (s : Symbol) : T bool :=
  y ← gets p_sym; if decide (y = s) then GetSym;; mret true else mret false.

Definition acceptOneOf (ss : list Symbol) : T bool :=
  y ← gets p_sym; if symIn ss y then GetSym;; mret true else mret false.

Definition symIsIdentifier (y : Symbol) : bool := symIn [Identifier; Primitive] y.

Definition expect (s : Symbol) : T () :=
  b ← accept s; if b : bool then mret tt else fail ParseError.

Definition expectOneOf (ss : list Symbol) : T () :=
  b ← acceptOneOf ss; if b : bool then mret tt else fail ParseError.

Definition GetCurrentSource : T SourceCoordinate :=
  gets (fun p => mkCoord (GetCurrentLineNumber (p_lexer p)) (GetCurrentColumn (p_lexer p))).

Definition singleOpSyms : list Symbol :=
  [Not; And; Or; Star; Div; Mod; Plus; Equal; More; Less; Comma; At; Per; Minus].

Definition binaryOpSyms : list Symbol :=
  [Or; Comma; Minus; Equal; Not; And; Or; Star; Div; Mod; Plus; Equal; More; Less; Comma;
   At; Per].

Definition keywordSelectorSyms : list Symbol := [Keyword; KeywordSequence].

(** [sym == OperatorSequence || symIn(binaryOpSyms)] and the condition for a message *)
Definition symIsBinary (y : Symbol) : bool := symIn (OperatorSequence :: binaryOpSyms) y.
Definition symIsMessage (y : Symbol) : bool :=
  symIsIdentifier y || symIn [Keyword; OperatorSequence] y || symIn binaryOpSyms y.

Definition identifier : T string :=
  s ← gets p_text;
  b ← accept Primitive;
  (if b : bool then mret tt else expect Identifier);;
  mret s.

Definition variable : T string := identifier.
Definition argument : T string := variable.

Definition keyword : T string := s ← gets p_text; expect Keyword;; mret s.

Definition _string : T string := s ← gets p_text; expect STString;; mret s.

Definition binary_text : T string :=
  s ← gets p_text;
  b ← acceptOneOf singleOpSyms;
  (if b : bool then mret tt
   else c ← accept OperatorSequence; if c : bool then mret tt else expect NONE);;
  mret s.

Definition assignment : T string := v ← variable; expect Assign;; mret v.

Definition primitiveBlock : T () := expect Primitive.

(** ** The method that is being compiled *)

Record PGen : Type := mkPGen { pg_parser : Parser; pg_gen : Gen }.

Notation P := (stateful PGen).

Definition tok {A} (m : T A) : P A := fun s =>
  match m (pg_parser s) with
  | Ok (a, p) => Ok (a, mkPGen p (pg_gen s))
  | Err e => Err e
  end.

Definition emit {A} (m : G A) : P A := fun s =>
  match m (pg_gen s) with
  | Ok (a, g) => Ok (a, mkPGen (pg_parser s) g)
  | Err e => Err e
  end.

Definition SymbolForP (s : string) : P loc := emit (liftV (SymbolFor s)).
Definition the_sym : P Symbol := tok (gets p_sym).

Definition unarySelector : P loc := s ← tok identifier; SymbolForP s.
Definition binarySelector : P loc := s ← tok binary_text; SymbolForP s.
Definition keywordSelector : P loc :=
  s ← tok (gets p_text); tok (expectOneOf keywordSelectorSyms);; SymbolForP s.

Definition selector : P loc :=
  y ← the_sym;
  if symIn (OperatorSequence :: singleOpSyms) y then binarySelector
  else if symIn keywordSelectorSyms y then keywordSelector
  else unarySelector.

Definition MarkFinished : G () := update_mg (fun g => set_flags (primitive_method g) true g).
Definition SetPrimitive (b : bool) : G () := update_mg (fun g => set_flags b (finished g) g).
Definition SetSignature (sig : loc) : G () := update_mg (set_signature (Some sig)).
Definition HasBytecodes : G bool :=
  mg (fun g => match bytecode g with [] => false | _ => true end).

(** The argument that is the next token, with its source position. *)
Definition add_argument : P () :=
  source ← tok GetCurrentSource;
  a ← tok argument;
  emit (AddArgument a source).

Section Parser.

Context (USE_TAGGING : bool).

Definition genPushVariable (var : string) : G () :=
  v ← FindVar var;
  match v with
  | Some (index, context, true) => EmitPUSHARGUMENT (Z.of_nat index) (Z.of_nat context)
  | Some (index, context, false) => EmitPUSHLOCAL (Z.of_nat index) (Z.of_nat context)
  | None =>
      varSymbol ← liftV (SymbolFor var);
      holder ← mg holderGenc;
      if HasField holder varSymbol then EmitPUSHFIELD varSymbol
      else EmitPUSHGLOBAL USE_TAGGING varSymbol
  end.

Definition genPopVariable (var : string) : G () :=
  v ← FindVar var;
  match v with
  | Some (index, context, true) => EmitPOPARGUMENT (Z.of_nat index) (Z.of_nat context)
  | Some (index, context, false) => EmitPOPLOCAL (Z.of_nat index) (Z.of_nat context)
  | None => varSymbol ← liftV (SymbolFor var); EmitPOPFIELD varSymbol
  end.

(** ** Literals *)

(** The object of a number. *)
Definition new_number (v : vm_value) : V oop :=
  match v with
  | VMInteger z => if USE_TAGGING then mret (Tagged z) else l ← alloc (OInteger z); mret (Ref l)
  | VMBigInteger i => l ← alloc (OBigInteger i); mret (Ref l)
  | _ => fail Undef
  end.

Definition literalInteger (negateValue : bool) : P oop :=
  t ← tok (gets p_text);
  v ← lift (ParseInteger USE_TAGGING (list_ascii_of_string t) negateValue);
  i ← emit (liftV (new_number v));
  tok (expect Integer);;
  mret i.

(** [std::strtod] of digits with a decimal mark between them, correctly rounded. *)
Fixpoint split_dot (s : list ascii) : list ascii * list ascii :=
  match s with
  | [] => ([], [])
  | c :: r => if is_char 46 c then ([], leading_digits r)
              else if isdigit c then let (a, b) := split_dot r in (c :: a, b)
              else ([], [])
  end.

Definition strtod (s : list ascii) : spec_float :=
  let (whole, fraction) := split_dot s in
  match dval (whole ++ fraction) with
  | Zpos m =>
      let '(q, e, l) := SFdiv_core_binary 53 1024 (Zpos m) 0 (10 ^ Z.of_nat (length fraction)) 0 in
      binary_round_aux 53 1024 false q e l
  | _ => S754_zero false
  end.

Definition literalDouble (negateValue : bool) : P oop :=
  t ← tok (gets p_text);
  let d := strtod (list_ascii_of_string t) in
  tok (expect Double);;
  emit (liftV (NewDouble (if negateValue then f64_sub (S754_zero false) d else d))).

Definition literalDecimal (negateValue : bool) : P oop :=
  y ← the_sym;
  if decide (y = Integer) then literalInteger negateValue else literalDouble negateValue.

Definition negativeDecimal : P oop := tok (expect Minus);; literalDecimal true.

Definition literalNumberOop : P oop :=
  y ← the_sym; if decide (y = Minus) then negativeDecimal else literalDecimal false.

Definition literalNumber : P () :=
  lit ← literalNumberOop; emit (EmitPUSHCONSTANT USE_TAGGING lit).

Definition literalSymbol : P () :=
  tok (expect Pound);;
  y ← the_sym;
  symb ← (if decide (y = STString) then s ← tok _string; SymbolForP s else selector);
  emit (EmitPUSHCONSTANT USE_TAGGING (Ref symb)).

Definition literalString : P () :=
  s ← tok _string;
  str ← emit (liftV (NewString s));
  emit (EmitPUSHCONSTANT USE_TAGGING str).

Fixpoint literal (fuel : nat) : P () :=
  match fuel with
  | O => fail OutOfFuel
  | S fuel =>
      y ← the_sym;
      match y with
      | Pound =>
          tok PeekForNextSymbolFromLexerIfNecessary;;
          n ← tok (gets p_nextSym);
          if decide (n = NewTerm) then literalArray fuel else literalSymbol
      | STString => literalString
      | _ => literalNumber
      end
  end

with literalArray (fuel : nat) : P () :=
  match fuel with
  | O => fail OutOfFuel
  | S fuel =>
      tok (expect Pound);;
      tok (expect NewTerm);;
      arrayClassName ← SymbolForP "Array";
      arraySizePlaceholder ← SymbolForP "ArraySizeLiteralPlaceholder";
      newMessage ← SymbolForP "new:";
      atPutMessage ← SymbolForP "at:put:";
      arraySizeLiteralIndex ← emit (AddLiteral (Ref arraySizePlaceholder));
      emit (EmitPUSHGLOBAL USE_TAGGING arrayClassName);;
      emit (EmitPUSHCONSTANT_index arraySizeLiteralIndex);;
      emit (EmitSEND newMessage);;
      i ← literal_elements fuel atPutMessage 1;
      size ← emit (liftV (NEW_INT USE_TAGGING (i - 1)));
      emit (UpdateLiteral arraySizeLiteralIndex size);;
      tok (expect EndTerm)
  end

with literal_elements (fuel : nat) (atPutMessage : loc) (i : Z) : P Z :=
  match fuel with
  | O => fail OutOfFuel
  | S fuel =>
      y ← the_sym;
      if decide (y = EndTerm) then mret i
      else
        pushIndex ← emit (liftV (NEW_INT USE_TAGGING i));
        emit (EmitPUSHCONSTANT USE_TAGGING pushIndex);;
        literal fuel;;
        emit (EmitSEND atPutMessage);;
        literal_elements fuel atPutMessage (i + 1)
  end.

(** ** Messages *)

Definition send_message (super : bool) (msg : loc) : G () :=
  if super then EmitSUPERSEND msg else EmitSEND msg.

Definition unaryMessage (super : bool) : P () :=
  msg ← unarySelector; emit (send_message super msg).

(** [+ 1] and [- 1] *)
Definition tryIncOrDecBytecodes (msg : loc) (isSuperSend : bool) : P bool :=
  if isSuperSend then mret false
  else
    k ← emit (liftV (gets known));
    let isPlus := bool_decide (Ref msg = symbolPlus k) in
    let isMinus := bool_decide (Ref msg = symbolMinus k) in
    y ← the_sym;
    t ← tok (gets p_text);
    if negb (isPlus || isMinus) then mret false
    else if negb (bool_decide (y = Integer) && String.eqb t "1") then mret false
    else
      tok (expect Integer);;
      emit (if isPlus then EmitINC else EmitDEC);;
      mret true.

(** The control structures that [binaryMessage] and [keywordMessage] inline. *)
Definition inline_binary (super : bool) (msgSelector : string) : G bool :=
  if super then mret false
  else if String.eqb msgSelector "||" then InlineAndOr USE_TAGGING true
  else if String.eqb msgSelector "&&" then InlineAndOr USE_TAGGING false
  else mret false.

Definition inline_keyword (super : bool) (kw : string) (numParts : nat) : G bool :=
  if super then mret false
  else if (numParts =? 1)%nat then
    if String.eqb kw "ifTrue:" then InlineThenBranch USE_TAGGING ON_FALSE
    else if String.eqb kw "ifFalse:" then InlineThenBranch USE_TAGGING ON_TRUE
    else if String.eqb kw "ifNil:" then InlineThenBranch USE_TAGGING ON_NOT_NIL
    else if String.eqb kw "ifNotNil:" then InlineThenBranch USE_TAGGING ON_NIL
    else if String.eqb kw "whileTrue:" then InlineWhile USE_TAGGING true
    else if String.eqb kw "whileFalse:" then InlineWhile USE_TAGGING false
    else if String.eqb kw "or:" then InlineAndOr USE_TAGGING true
    else if String.eqb kw "and:" then InlineAndOr USE_TAGGING false
    else mret false
  else if (numParts =? 2)%nat then
    if String.eqb kw "ifTrue:ifFalse:" then InlineThenElseBranches USE_TAGGING ON_FALSE
    else if String.eqb kw "ifFalse:ifTrue:" then InlineThenElseBranches USE_TAGGING ON_TRUE
    else if String.eqb kw "ifNil:ifNotNil:" then InlineThenElseBranches USE_TAGGING ON_NOT_NIL
    else if String.eqb kw "ifNotNil:ifNil:" then InlineThenElseBranches USE_TAGGING ON_NIL
    else if String.eqb kw "to:do:" then InlineToDo USE_TAGGING
    else mret false
  else mret false.

(** [do unaryMessage while (symIsIdentifier())], entered when there is one. *)
Fixpoint unary_messages (fuel : nat) (super : bool) : P bool :=
  match fuel with
  | O => fail OutOfFuel
  | S fuel =>
      y ← the_sym;
      if symIsIdentifier y then unaryMessage super;; unary_messages fuel false
      else mret super
  end.

(** The names that are assigned to, in order. *)
Fixpoint assignments (fuel : nat) (l : list string) : T (list string) :=
  match fuel with
  | O => fail OutOfFuel
  | S fuel =>
      y ← gets p_sym;
      if symIsIdentifier y then
        v ← assignment;
        Peek;;
        n ← gets p_nextSym;
        if decide (n = Assign) then assignments fuel (l ++ [v]) else mret (l ++ [v])
      else mret l
  end.

Fixpoint each {A} (f : A -> G ()) (l : list A) : G () :=
  match l with [] => mret tt | x :: r => f x;; each f r end.

Fixpoint parse_locals (fuel : nat) : P () :=
  match fuel with
  | O => fail OutOfFuel
  | S fuel =>
      y ← the_sym;
      if symIsIdentifier y then
        source ← tok GetCurrentSource;
        v ← tok variable;
        emit (AddLocalIfAbsent v source);;
        parse_locals fuel
      else mret tt
  end.

Fixpoint blockArguments (fuel : nat) : P () :=
  match fuel with
  | O => fail OutOfFuel
  | S fuel =>
      tok (expect Colon);;
      add_argument;;
      y ← the_sym;
      if decide (y = Colon) then blockArguments fuel else mret tt
  end.

Definition blockPattern (fuel : nat) : P () := blockArguments fuel;; tok (expect Or).

(** The signature of a block tells its line and its number of arguments. *)
Definition block_signature (line : nat) (arg_size : Z) : string :=
  "$blockMethod@" ++ string_of_list_ascii (print_int64 (Z.of_nat line))
  ++ String.concat "" (repeat ":"%string (Z.to_nat (arg_size - 1))).

Definition set_block_signature : P () :=
  l ← tok (gets p_lexer);
  args ← emit (mg arguments);
  sig ← SymbolForP (block_signature (GetCurrentLineNumber l) (u8 (Z.of_nat (length args))));
  emit (SetSignature sig).

(** The end of a block without a return: an empty one returns nil. *)
Definition finish_block : G () :=
  b ← HasBytecodes;
  (if b : bool then mret tt
   else k ← liftV (gets known); EmitPUSHCONSTANT USE_TAGGING (nilObject k));;
  EmitRETURNLOCAL;;
  MarkFinished.

(** The context of a block, inside of that of the method it is in. *)
Definition in_block {A} (m : P A) : P A := fun s =>
  let g := pg_gen s in
  let bgenc := new_Mgenc (holderGenc (gen_mg g)) (Some (gen_mg g)) in
  match m (mkPGen (pg_parser s) (mkGen (gen_world g) bgenc (gen_mg g :: gen_outer g))) with
  | Ok (a, s') =>
      Ok (a, mkPGen (pg_parser s') (mkGen (gen_world (pg_gen s')) (gen_mg g) (gen_outer g)))
  | Err e => Err e
  end.

(** ** Expressions and blocks *)

Fixpoint blockContents (fuel : nat) (is_inlined : bool) : P () :=
  match fuel with
  | O => fail OutOfFuel
  | S fuel =>
      b ← tok (accept Or);
      (if b : bool then parse_locals fuel;; tok (expect Or) else mret tt);;
      emit CompleteLexicalScope;;
      blockBody fuel false is_inlined
  end

with blockBody (fuel : nat) (seen_period is_inlined : bool) : P () :=
  match fuel with
  | O => fail OutOfFuel
  | S fuel =>
      exit ← tok (accept Exit);
      y ← the_sym;
      if exit : bool then parse_result fuel
      else if decide (y = EndBlock) then
        (if seen_period then emit RemoveLastPopForBlockLocalReturn else mret tt);;
        if is_inlined then mret tt
        else
          block ← emit (mg blockMethod);
          if block : bool then emit finish_block else emit (EmitRETURNLOCAL;; MarkFinished)
      else if decide (y = EndTerm) then emit (EmitRETURNSELF;; MarkFinished)
      else
        expression fuel;;
        period ← tok (accept Period);
        if period : bool then emit EmitPOP;; blockBody fuel true is_inlined else mret tt
  end

with parse_result (fuel : nat) : P () :=
  match fuel with
  | O => fail OutOfFuel
  | S fuel =>
      block ← emit (mg blockMethod);
      y ← the_sym;
      t ← tok (gets p_text);
      self ← (if negb block && bool_decide (y = Identifier) && String.eqb t "self" then
                tok PeekForNextSymbolFromLexerIfNecessary;;
                n ← tok (gets p_nextSym);
                mret (symIn [Period; EndTerm] n)
              else mret false);
      (if self : bool then tok (expect Identifier);; emit EmitRETURNSELF
       else
         expression fuel;;
         emit (if block : bool then EmitRETURNNONLOCAL else EmitRETURNLOCAL));;
      emit MarkFinished;;
      tok (accept Period);;
      mret tt
  end

with expression (fuel : nat) : P () :=
  match fuel with
  | O => fail OutOfFuel
  | S fuel =>
      tok PeekForNextSymbolFromLexerIfNecessary;;
      n ← tok (gets p_nextSym);
      if decide (n = Assign) then assignation fuel else evaluation fuel
  end

with assignation (fuel : nat) : P () :=
  match fuel with
  | O => fail OutOfFuel
  | S fuel =>
      l ← tok (assignments fuel []);
      evaluation fuel;;
      emit (each (fun _ => EmitDUP) l);;
      emit (each genPopVariable l)
  end

with evaluation (fuel : nat) : P () :=
  match fuel with
  | O => fail OutOfFuel
  | S fuel =>
      super ← primary fuel;
      y ← the_sym;
      if symIsMessage y then messages fuel super else mret tt
  end

with primary (fuel : nat) : P bool :=
  match fuel with
  | O => fail OutOfFuel
  | S fuel =>
      y ← the_sym;
      match y with
      | Primitive | Identifier =>
          v ← tok variable;
          if String.eqb v "super" then emit (genPushVariable "self");; mret true
          else emit (genPushVariable v);; mret false
      | NewTerm => nestedTerm fuel;; mret false
      | NewBlock =>
          blockMethod ← in_block (nestedBlock fuel;; emit (Assemble USE_TAGGING));
          emit (EmitPUSHBLOCK (Ref blockMethod));;
          mret false
      | _ => literal fuel;; mret false
      end
  end

with messages (fuel : nat) (super : bool) : P () :=
  match fuel with
  | O => fail OutOfFuel
  | S fuel =>
      y ← the_sym;
      if symIsIdentifier y || symIsBinary y then
        super' ← unary_messages fuel super;
        binaryMessages fuel super';;
        y' ← the_sym;
        if decide (y' = Keyword) then keywordMessage fuel false else mret tt
      else keywordMessage fuel super
  end

with binaryMessages (fuel : nat) (super : bool) : P () :=
  match fuel with
  | O => fail OutOfFuel
  | S fuel =>
      y ← the_sym;
      if symIsBinary y then binaryMessage fuel super;; binaryMessages fuel false else mret tt
  end

with binaryMessage (fuel : nat) (super : bool) : P () :=
  match fuel with
  | O => fail OutOfFuel
  | S fuel =>
      msgSelector ← tok (gets p_text);
      msg ← binarySelector;
      incOrDec ← tryIncOrDecBytecodes msg super;
      if incOrDec : bool then mret tt
      else
        binaryOperand fuel;;
        inlined ← emit (inline_binary super msgSelector);
        if inlined : bool then mret tt else emit (send_message super msg)
  end

with binaryOperand (fuel : nat) : P bool :=
  match fuel with
  | O => fail OutOfFuel
  | S fuel => super ← primary fuel; unary_messages fuel super
  end

with keywordMessage (fuel : nat) (super : bool) : P () :=
  match fuel with
  | O => fail OutOfFuel
  | S fuel =>
      kw ← tok keyword;
      formula fuel;;
      parts ← keyword_parts fuel kw 1;
      inlined ← emit (inline_keyword super parts.1 parts.2);
      if inlined : bool then mret tt
      else msg ← SymbolForP parts.1; emit (send_message super msg)
  end

with keyword_parts (fuel : nat) (kw : string) (numParts : nat) : P (string * nat) :=
  match fuel with
  | O => fail OutOfFuel
  | S fuel =>
      y ← the_sym;
      if decide (y = Keyword) then
        k ← tok keyword;
        formula fuel;;
        keyword_parts fuel (kw ++ k) (S numParts)
      else mret (kw, numParts)
  end

with formula (fuel : nat) : P () :=
  match fuel with
  | O => fail OutOfFuel
  | S fuel => super ← binaryOperand fuel; binaryMessages fuel super
  end

with nestedTerm (fuel : nat) : P () :=
  match fuel with
  | O => fail OutOfFuel
  | S fuel => tok (expect NewTerm);; expression fuel;; tok (expect EndTerm)
  end

with nestedBlock (fuel : nat) : P () :=
  match fuel with
  | O => fail OutOfFuel
  | S fuel =>
      source ← tok GetCurrentSource;
      emit (AddArgument strBlockSelf source);;
      tok (expect NewBlock);;
      y ← the_sym;
      (if decide (y = Colon) then blockPattern fuel else mret tt);;
      set_block_signature;;
      blockContents fuel false;;
      fin ← emit (mg finished);
      (if fin : bool then mret tt else emit finish_block);;
      tok (expect EndBlock)
  end.

(** ** Methods *)

Definition unaryPattern : P () := sig ← unarySelector; emit (SetSignature sig).

Definition binaryPattern : P () :=
  sig ← binarySelector; emit (SetSignature sig);; add_argument.

(** The [do ... while] loop, with the keyword that has been read so far. *)
Fixpoint keyword_pattern (fuel : nat) (kw : string) : P string :=
  match fuel with
  | O => fail OutOfFuel
  | S fuel =>
      k ← tok keyword;
      add_argument;;
      y ← the_sym;
      if decide (y = Keyword) then keyword_pattern fuel (kw ++ k) else mret (kw ++ k)%string
  end.

Definition keywordPattern (fuel : nat) : P () :=
  kw ← keyword_pattern fuel ""; sig ← SymbolForP kw; emit (SetSignature sig).

Definition pattern (fuel : nat) : P () :=
  y ← the_sym;
  match y with
  | Identifier | Primitive => unaryPattern
  | Keyword => keywordPattern fuel
  | _ => binaryPattern
  end.

Definition methodBlock (fuel : nat) : P () :=
  tok (expect NewTerm);;
  blockContents fuel false;;
  fin ← emit (mg finished);
  (if fin : bool then mret tt else emit (EmitRETURNSELF;; MarkFinished));;
  tok (expect EndTerm).

Definition parse_method (fuel : nat) : P () :=
  pattern fuel;;
  tok (expect Equal);;
  y ← the_sym;
  if decide (y = Primitive) then emit (SetPrimitive true);; tok primitiveBlock
  else methodBlock fuel.

(** ** Classes *)

(** The parser, the machine and the class that is being compiled. *)
Record CState : Type := mkCState { cs_parser : Parser; cs_world : World; cs_class : ClassGen }.

Notation C := (stateful CState).

Definition tokC {A} (m : T A) : C A := fun s =>
  match m (cs_parser s) with
  | Ok (a, p) => Ok (a, mkCState p (cs_world s) (cs_class s))
  | Err e => Err e
  end.

Definition liftC {A} (m : V A) : C A := fun s =>
  match m (cs_world s) with
  | Ok (a, w) => Ok (a, mkCState (cs_parser s) w (cs_class s))
  | Err e => Err e
  end.

Definition update_class (f : ClassGen -> ClassGen) : C () :=
  modify (fun s => mkCState (cs_parser s) (cs_world s) (f (cs_class s))).

Definition SetClassName (n : loc) (c : ClassGen) : ClassGen :=
  mkClassGen (Some n) (cg_superName c) (cg_classSide c) (cg_instanceFields c)
    (cg_instanceMethods c) (cg_classFields c) (cg_classMethods c).
Definition SetSuperName (n : loc) (c : ClassGen) : ClassGen :=
  mkClassGen (cg_name c) (Some n) (cg_classSide c) (cg_instanceFields c)
    (cg_instanceMethods c) (cg_classFields c) (cg_classMethods c).
Definition SetClassSide (b : bool) (c : ClassGen) : ClassGen :=
  mkClassGen (cg_name c) (cg_superName c) b (cg_instanceFields c)
    (cg_instanceMethods c) (cg_classFields c) (cg_classMethods c).
Definition AddInstanceFields (fs : list loc) (c : ClassGen) : ClassGen :=
  mkClassGen (cg_name c) (cg_superName c) (cg_classSide c) (cg_instanceFields c ++ fs)
    (cg_instanceMethods c) (cg_classFields c) (cg_classMethods c).
Definition AddClassFields (fs : list loc) (c : ClassGen) : ClassGen :=
  mkClassGen (cg_name c) (cg_superName c) (cg_classSide c) (cg_instanceFields c)
    (cg_instanceMethods c) (cg_classFields c ++ fs) (cg_classMethods c).
Definition AddInstanceMethod (m : loc) (c : ClassGen) : ClassGen :=
  mkClassGen (cg_name c) (cg_superName c) (cg_classSide c) (cg_instanceFields c)
    (cg_instanceMethods c ++ [m]) (cg_classFields c) (cg_classMethods c).
Definition AddClassMethod (m : loc) (c : ClassGen) : ClassGen :=
  mkClassGen (cg_name c) (cg_superName c) (cg_classSide c) (cg_instanceFields c)
    (cg_instanceMethods c) (cg_classFields c) (cg_classMethods c ++ [m]).

Definition new_ClassGen : ClassGen := mkClassGen None None false [] [] [] [].

(** Runs the parser of a method in a fresh context. *)
Definition in_method {A} (m : P A) : C A := fun s =>
  match m (mkPGen (cs_parser s) (mkGen (cs_world s) (new_Mgenc (cs_class s) None) [])) with
  | Ok (a, s') => Ok (a, mkCState (pg_parser s') (gen_world (pg_gen s')) (cs_class s))
  | Err e => Err e
  end.

(** The body of the loops over methods. *)
Definition class_method (fuel : nat) : P loc :=
  source ← tok GetCurrentSource;
  emit (AddArgument "self" source);;
  parse_method fuel;;
  prim ← emit (mg primitive_method);
  if prim : bool then emit AssemblePrimitive else emit (Assemble USE_TAGGING).

Fixpoint class_methods (fuel : nat) (add : loc -> ClassGen -> ClassGen) : C () :=
  match fuel with
  | O => fail OutOfFuel
  | S fuel =>
      y ← tokC (gets p_sym);
      if symIsMessage y then
        m ← in_method (class_method fuel);
        update_class (add m);;
        class_methods fuel add
      else mret tt
  end.

Fixpoint class_fields (fuel : nat) (add : list loc -> ClassGen -> ClassGen) : C () :=
  match fuel with
  | O => fail OutOfFuel
  | S fuel =>
      y ← tokC (gets p_sym);
      if symIsIdentifier y then
        v ← tokC variable;
        f ← liftC (SymbolFor v);
        update_class (add [f]);;
        class_fields fuel add
      else mret tt
  end.

(** [instanceFields] and [classFields] *)
Definition parse_fields (fuel : nat) (add : list loc -> ClassGen -> ClassGen) : C () :=
  b ← tokC (accept Or);
  if b : bool then class_fields fuel add;; tokC (expect Or) else mret tt.

Section Class.

Context (LoadClass : loc -> V oop).

Fixpoint symbols_of (es : list oop) : V (list loc) :=
  match es with
  | [] => mret []
  | e :: r => l ← loc_of e; ls ← symbols_of r; mret (l :: ls)
  end.

Definition field_names (fields : oop) : V (list loc) := es ← array_elements fields; symbols_of es.

Definition superclass : C () :=
  y ← tokC (gets p_sym);
  t ← tokC (gets p_text);
  superName ← (if decide (y = Identifier)
               then n ← liftC (SymbolFor t); tokC (accept Identifier);; mret n
               else liftC (SymbolFor "Object"));
  update_class (SetSuperName superName);;
  nil ← liftC (SymbolFor "nil");
  if decide (superName = nil) then
    fieldNames ← liftC (NewArrayOfSymbolsFromStrings
      ["class"; "name"; "instanceFields"; "instanceInvokables"; "superClass"]%string);
    fs ← liftC (field_names fieldNames);
    update_class (AddClassFields fs)
  else
    superClass ← liftC (LoadClass superName);
    fs ← liftC (a ← GetInstanceFields superClass; field_names a);
    update_class (AddInstanceFields fs);;
    cfs ← liftC (c ← CLASS_OF superClass; a ← GetInstanceFields c; field_names a);
    update_class (AddClassFields cfs).

Definition Classdef (fuel : nat) : C () :=
  t ← tokC (gets p_text);
  name ← liftC (SymbolFor t);
  update_class (SetClassName name);;
  tokC (expect Identifier);;
  tokC (expect Equal);;
  superclass;;
  tokC (expect NewTerm);;
  parse_fields fuel AddInstanceFields;;
  class_methods fuel AddInstanceMethod;;
  b ← tokC (accept Separator);
  (if b : bool then
     update_class (SetClassSide true);;
     parse_fields fuel AddClassFields;;
     class_methods fuel AddClassMethod
   else mret tt);;
  tokC (expect EndTerm).

(** ** Class objects *)

Definition AssembleClass (c : ClassGen) : V oop :=
  name ← lift (of_option Undef (cg_name c));
  superName ← lift (of_option Undef (cg_superName c));
  s ← load_symbol name;
  superClass ← LoadClass superName;
  k ← gets known;
  resultClass ← NewClass (metaClassClass k);
  cf ← NewArrayList (Ref <$> cg_classFields c);
  SetInstanceFields resultClass cf;;
  cm ← NewArrayList (Ref <$> cg_classMethods c);
  SetInstanceInvokables resultClass cm;;
  ccname ← SymbolFor (sym_chars s ++ " class");
  SetName resultClass (Ref ccname);;
  superMClass ← CLASS_OF superClass;
  SetSuperClass resultClass superMClass;;
  result ← NewClass resultClass;
  f ← NewArrayList (Ref <$> cg_instanceFields c);
  SetInstanceFields result f;;
  m ← NewArrayList (Ref <$> cg_instanceMethods c);
  SetInstanceInvokables result m;;
  SetName result (Ref name);;
  SetSuperClass result superClass;;
  mret result.

Definition AssembleSystemClass (c : ClassGen) (systemClass : oop) : V () :=
  m ← NewArrayList (Ref <$> cg_instanceMethods c);
  SetInstanceInvokables systemClass m;;
  f ← NewArrayList (Ref <$> cg_instanceFields c);
  SetInstanceFields systemClass f;;
  superMClass ← CLASS_OF systemClass;
  cm ← NewArrayList (Ref <$> cg_classMethods c);
  SetInstanceInvokables superMClass cm;;
  cf ← NewArrayList (Ref <$> cg_classFields c);
  SetInstanceFields superMClass cf.

(** [SourcecodeCompiler::compile], with the parser that reads the text. *)
Definition compile (fuel : nat) (input : list ascii) (systemClass : oop) : V oop := fun w =>
  match new_Parser input with
  | Err e => Err e
  | Ok p =>
      match Classdef fuel (mkCState p w new_ClassGen) with
      | Err e => Err e
      | Ok (_, s) =>
          match systemClass with
          | Null => AssembleClass (cs_class s) (cs_world s)
          | _ => (AssembleSystemClass (cs_class s) systemClass;; mret systemClass) (cs_world s)
          end
      end
  end.

End Class.

End Parser.
