(* ===== verification/Machine.v ===== *)
(** * The machine as a whole

    The tables of the primitives ([src/src/primitives], the constructors), their
    installation ([primitivesCore/PrimitiveLoader.cpp], [VMClass::LoadPrimitives]),
    the routines tied together with the interpreter that calls them and that they call,
    and the loading of classes and the start-up of [src/src/vm/Universe.cpp].

    The recursion between the interpreter and the routines, and that of a class which
    loads its superclass, is bounded by a number of nested calls. *)
From Stdlib Require Import String Ascii SpecFloat.
From S2P Require Import Prelude Bytecodes InfIntText IntegerPrims Objects Universe HeapWalk Frame Interpreter Activation Lookup Vector Doubles Natives MethodGen Parser.
Local Open Scope Z_scope.

(** ** The tables of routines *)

Fixpoint assoc {A} (name : string) (table : list (string * A)) : option A :=
  match table with
  | [] => None
  | (n, x) :: rest => if String.eqb n name then Some x else assoc name rest
  end.

Section Routines.

Context (USE_TAGGING : bool) (env : Environment) (LoadClass : loc -> V oop).
Context (Invoke : loc -> loc -> V (option loc)) (Send : oop -> string -> list oop -> V ()).

Definition unary_natives : list (string * (oop -> V oop)) :=
  [("arrLength", arrLength USE_TAGGING); ("arrCopy", arrCopy);
   ("vecFirst", vecFirst USE_TAGGING Send); ("vecLast", vecLast USE_TAGGING Send);
   ("removeLast", removeLast USE_TAGGING Send); ("vecSize", vecSize USE_TAGGING);
   ("capacity", capacity USE_TAGGING); ("asArray", asArray USE_TAGGING);
   ("removeFirst", removeFirst USE_TAGGING Send); ("removeAll", removeAll USE_TAGGING);
   ("clsNew", clsNew); ("clsName", clsName); ("clsSuperclass", clsSuperclass);
   ("clsFields", clsFields); ("clsMethods", clsMethods);
   ("dblCos", dblCos (env_cos env)); ("dblSin", dblSin (env_sin env)); ("dblAsString", dblAsString);
   ("dblSqrt", dblSqrt); ("dblRound", dblRound USE_TAGGING); ("dblAsInteger", dblAsInteger USE_TAGGING);
   ("dblPositiveInfinity", dblPositiveInfinity);
   ("intAsString", int_unary USE_TAGGING intAsString);
   ("intAsDouble", int_unary USE_TAGGING intAsDouble);
   ("intAs32BitSigned", int_unary USE_TAGGING (intAs32BitSigned USE_TAGGING));
   ("intAs32BitUnsigned", int_unary USE_TAGGING (intAs32BitUnsigned USE_TAGGING));
   ("intSqrt", int_unary USE_TAGGING (intSqrt USE_TAGGING));
   ("intAtRandom", intAtRandom USE_TAGGING env); ("intAbs", int_abs USE_TAGGING);
   ("mSignature", mSignature); ("mHolder", mHolder);
   ("objObjectSize", objObjectSize USE_TAGGING env); ("objHashcode", objHashcode USE_TAGGING env);
   ("objInspect", objInspect); ("objHalt", objHalt); ("objClass", objClass);
   ("pSignature", pSignature); ("pHolder", pHolder);
   ("strAsSymbol", strAsSymbol); ("strHashcode", strHashcode USE_TAGGING);
   ("strLength", strLength USE_TAGGING); ("strIsWhiteSpace", strIsWhiteSpace);
   ("strIsLetters", strIsLetters); ("strIsDigits", strIsDigits);
   ("symAsString", symAsString);
   ("sysPrintNewline", sysPrintNewline env); ("sysTime", sysTime USE_TAGGING env);
   ("sysTicks", sysTicks USE_TAGGING env); ("sysFullGC", sysFullGC env)]%string.

Definition binary_natives : list (string * (oop -> oop -> V oop)) :=
  [("arrNew", arrNew USE_TAGGING); ("arrAt", arrAt USE_TAGGING);
   ("vecAt", vecAt USE_TAGGING Send); ("vecAtAWFY", vecAtAWFY USE_TAGGING);
   ("vecAppend", vecAppend USE_TAGGING); ("removeObject", removeObject USE_TAGGING Send);
   ("dblPlus", dblPlus USE_TAGGING); ("dblMinus", dblMinus USE_TAGGING); ("dblStar", dblStar USE_TAGGING);
   ("dblSlashslash", dblSlashslash USE_TAGGING); ("dblPercent", dblPercent USE_TAGGING);
   ("dblEqual", dblEqual USE_TAGGING); ("dblLowerthan", dblLowerthan USE_TAGGING);
   ("dblFromString", dblFromString); ("dblLowerThanEqual", dblLowerThanEqual USE_TAGGING);
   ("dblGreaterThan", dblGreaterThan USE_TAGGING);
   ("dblGreaterThanEqual", dblGreaterThanEqual USE_TAGGING); ("dblUnequal", dblUnequal USE_TAGGING);
   ("dblMin", dblMin USE_TAGGING); ("dblMax", dblMax USE_TAGGING);
   ("intPlus", int_binary USE_TAGGING (intPlus USE_TAGGING));
   ("intMinus", int_binary USE_TAGGING (intMinus USE_TAGGING));
   ("intStar", int_binary USE_TAGGING (intStar USE_TAGGING));
   ("intRem", int_binary USE_TAGGING (intRem USE_TAGGING));
   ("intBitwiseXor", int_binary USE_TAGGING (intBitwiseXor USE_TAGGING));
   ("intLeftShift", int_binary USE_TAGGING (intLeftShift USE_TAGGING (env_clz_of_zero env)));
   ("intUnsignedRightShift", int_binary USE_TAGGING (intUnsignedRightShift USE_TAGGING));
   ("intSlash", int_binary USE_TAGGING (intSlash USE_TAGGING));
   ("intSlashslash", int_binary USE_TAGGING intSlashslash);
   ("intPercent", int_binary USE_TAGGING (intPercent USE_TAGGING));
   ("intAnd", int_binary USE_TAGGING (intAnd USE_TAGGING));
   ("intEqual", int_binary USE_TAGGING intEqual); ("intEqualEqual", int_binary USE_TAGGING intEqualEqual);
   ("intLowerthan", int_binary USE_TAGGING intLowerthan);
   ("intFromString", fun _ => int_unary USE_TAGGING (intFromString USE_TAGGING));
   ("intLowerThanEqual", int_binary USE_TAGGING intLowerThanEqual);
   ("intGreaterThan", int_binary USE_TAGGING intGreaterThan);
   ("intGreaterThanEqual", int_binary USE_TAGGING intGreaterThanEqual);
   ("intUnequal", int_binary USE_TAGGING intUnequal);
   ("intMin", int_min USE_TAGGING); ("intMax", int_max USE_TAGGING); ("intRange", int_range USE_TAGGING);
   ("objEqualequal", objEqualequal); ("objInstVarAt", objInstVarAt USE_TAGGING);
   ("objInstVarNamed", objInstVarNamed);
   ("strConcatenate_", strConcatenate_); ("strEqual", strEqual USE_TAGGING);
   ("strCharAt", strCharAt USE_TAGGING);
   ("sysGlobal_", sysGlobal_); ("sysHasGlobal_", sysHasGlobal_); ("sysLoad_", sysLoad_ LoadClass);
   ("sysExit_", sysExit_ USE_TAGGING); ("sysPrintString_", sysPrintString_ env);
   ("sysErrorPrint_", sysErrorPrint_ env); ("sysErrorPrintNewline_", sysErrorPrintNewline_ env);
   ("sysLoadFile_", sysLoadFile_ env)]%string.

Definition ternary_natives : list (string * (oop -> oop -> oop -> V oop)) :=
  [("arrAtPut", arrAtPut USE_TAGGING); ("vecAtPut", vecAtPut USE_TAGGING Send);
   ("vecAtPutAWFY", vecAtPutAWFY USE_TAGGING); ("objInstVarAtPut", objInstVarAtPut USE_TAGGING);
   ("strPrimSubstringFromTo", strPrimSubstringFromTo USE_TAGGING); ("sysGlobalPut", sysGlobalPut)]%string.

Definition frame_natives : list (string * (loc -> V ())) :=
  [("bRestart", bRestart); ("mInvokeOnWith", mInvokeOnWith Invoke);
   ("objPerform", objPerform Invoke); ("objPerformWithArguments", objPerformWithArguments Invoke);
   ("objPerformInSuperclass", objPerformInSuperclass Invoke);
   ("objPerformWithArgumentsInSuperclass", objPerformWithArgumentsInSuperclass Invoke);
   ("pInvokeOnWith", pInvokeOnWith Invoke); ("printStackTrace", printStackTrace env);
   ("emptyRoutine", fun _ => fail (ErrorExit "undefined primitive called"))]%string.

Definition native_routines : Routines :=
  mkRoutines
    (fun r => default (fun _ => fail Undef) (assoc r frame_natives))
    (fun r => default (fun _ => fail Undef) (assoc r unary_natives))
    (fun r => default (fun _ _ => fail Undef) (assoc r binary_natives))
    (fun r => default (fun _ _ _ => fail Undef) (assoc r ternary_natives)).

End Routines.

(** ** The primitives of the classes *)

(** The maps of a container are ordered by the names. *)
Fixpoint add_sorted (name : string) (p : Prim * option Prim) (t : PrimTable) : PrimTable :=
  match t with
  | [] => [(name, p)]
  | (n, q) :: rest =>
      match String.compare name n with
      | Lt => (name, p) :: t
      | Eq => (name, p) :: rest
      | Gt => (n, q) :: add_sorted name p rest
      end
  end.

(** The overloads of [Add]: the table is that of the type of the routine. *)
Inductive routine_type : Type := OnFrame | Unary | Binary | Ternary.
#[export] Instance routine_type_dec : EqDecision routine_type.
Proof. solve_decision. Defined.

Definition Add (ty : routine_type) (name : string) (p : Prim * option Prim)
    (c : PrimitiveContainer) : PrimitiveContainer :=
  match ty with
  | OnFrame => mkContainer (unaryPrims c) (binaryPrims c) (ternaryPrims c) (add_sorted name p (framePrims c))
  | Unary => mkContainer (add_sorted name p (unaryPrims c)) (binaryPrims c) (ternaryPrims c) (framePrims c)
  | Binary => mkContainer (unaryPrims c) (add_sorted name p (binaryPrims c)) (ternaryPrims c) (framePrims c)
  | Ternary => mkContainer (unaryPrims c) (binaryPrims c) (add_sorted name p (ternaryPrims c)) (framePrims c)
  end.

Definition empty_container : PrimitiveContainer := mkContainer [] [] [] [].

Definition add_prims (l : list (routine_type * string * string * bool)) : PrimitiveContainer :=
  foldl (fun c '(ty, name, r, side) => Add ty name (mkPrim r side 0, None) c) empty_container l.

Definition _Array : PrimitiveContainer := add_prims
  [(Binary, "new:", "arrNew", true); (Binary, "at:", "arrAt", false);
   (Ternary, "at:put:", "arrAtPut", false); (Unary, "length", "arrLength", false);
   (Unary, "copy", "arrCopy", false)]%string.

Definition _Block : PrimitiveContainer := add_prims [(OnFrame, "restart", "bRestart", false)]%string.

Definition _Class : PrimitiveContainer := add_prims
  [(Unary, "new", "clsNew", false); (Unary, "name", "clsName", false);
   (Unary, "superclass", "clsSuperclass", false); (Unary, "fields", "clsFields", false);
   (Unary, "methods", "clsMethods", false)]%string.

Definition _Double : PrimitiveContainer := add_prims
  [(Binary, "+", "dblPlus", false); (Binary, "-", "dblMinus", false); (Binary, "*", "dblStar", false);
   (Unary, "cos", "dblCos", false); (Unary, "sin", "dblSin", false);
   (Binary, "//", "dblSlashslash", false); (Binary, "%", "dblPercent", false);
   (Binary, "=", "dblEqual", false); (Binary, "<", "dblLowerthan", false);
   (Unary, "asString", "dblAsString", false); (Unary, "sqrt", "dblSqrt", false);
   (Unary, "round", "dblRound", false); (Unary, "asInteger", "dblAsInteger", false);
   (Unary, "PositiveInfinity", "dblPositiveInfinity", true);
   (Binary, "fromString:", "dblFromString", true);
   (Binary, "<=", "dblLowerThanEqual", false); (Binary, ">", "dblGreaterThan", false);
   (Binary, ">=", "dblGreaterThanEqual", false); (Binary, "<>", "dblUnequal", false);
   (Binary, "~=", "dblUnequal", false); (Binary, "min:", "dblMin", false);
   (Binary, "max:", "dblMax", false)]%string.

Definition _Integer : PrimitiveContainer := add_prims
  [(Binary, "+", "intPlus", false); (Binary, "-", "intMinus", false); (Binary, "*", "intStar", false);
   (Binary, "rem:", "intRem", false); (Binary, "bitXor:", "intBitwiseXor", false);
   (Binary, "<<", "intLeftShift", false); (Binary, ">>>", "intUnsignedRightShift", false);
   (Binary, "/", "intSlash", false); (Binary, "//", "intSlashslash", false);
   (Binary, "%", "intPercent", false); (Binary, "&", "intAnd", false);
   (Binary, "=", "intEqual", false); (Binary, "==", "intEqualEqual", false);
   (Binary, "<", "intLowerthan", false); (Unary, "asString", "intAsString", false);
   (Unary, "asDouble", "intAsDouble", false);
   (Unary, "as32BitSignedValue", "intAs32BitSigned", false);
   (Unary, "as32BitUnsignedValue", "intAs32BitUnsigned", false);
   (Unary, "sqrt", "intSqrt", false); (Unary, "atRandom", "intAtRandom", false);
   (Binary, "fromString:", "intFromString", true);
   (Binary, "<=", "intLowerThanEqual", false); (Binary, ">", "intGreaterThan", false);
   (Binary, ">=", "intGreaterThanEqual", false); (Binary, "<>", "intUnequal", false);
   (Binary, "~=", "intUnequal", false); (Unary, "abs", "intAbs", false);
   (Binary, "min:", "intMin", false); (Binary, "max:", "intMax", false);
   (Binary, "to:", "intRange", false)]%string.

Definition _Method : PrimitiveContainer := add_prims
  [(Unary, "signature", "mSignature", false); (Unary, "holder", "mHolder", false);
   (OnFrame, "invokeOn:with:", "mInvokeOnWith", false)]%string.

Definition _Object : PrimitiveContainer := add_prims
  [(Binary, "==", "objEqualequal", false); (Unary, "objectSize", "objObjectSize", false);
   (Unary, "hashcode", "objHashcode", false); (Unary, "inspect", "objInspect", false);
   (Unary, "halt", "objHalt", false); (OnFrame, "perform:", "objPerform", false);
   (OnFrame, "perform:withArguments:", "objPerformWithArguments", false);
   (OnFrame, "perform:inSuperclass:", "objPerformInSuperclass", false);
   (OnFrame, "perform:withArguments:inSuperclass:", "objPerformWithArgumentsInSuperclass", false);
   (Binary, "instVarAt:", "objInstVarAt", false);
   (Ternary, "instVarAt:put:", "objInstVarAtPut", false);
   (Binary, "instVarNamed:", "objInstVarNamed", false); (Unary, "class", "objClass", false)]%string.

Definition _Primitive : PrimitiveContainer := add_prims
  [(Unary, "signature", "pSignature", false); (Unary, "holder", "pHolder", false);
   (OnFrame, "invokeOn:with:", "pInvokeOnWith", false)]%string.

Definition _String : PrimitiveContainer := add_prims
  [(Binary, "concatenate:", "strConcatenate_", false); (Unary, "asSymbol", "strAsSymbol", false);
   (Unary, "hashcode", "strHashcode", false); (Unary, "length", "strLength", false);
   (Binary, "=", "strEqual", false);
   (Ternary, "primSubstringFrom:to:", "strPrimSubstringFromTo", false);
   (Unary, "isWhiteSpace", "strIsWhiteSpace", false); (Unary, "isLetters", "strIsLetters", false);
   (Unary, "isDigits", "strIsDigits", false); (Binary, "charAt:", "strCharAt", false)]%string.

Definition _Symbol : PrimitiveContainer := add_prims [(Unary, "asString", "symAsString", false)]%string.

Definition _System : PrimitiveContainer := add_prims
  [(Binary, "global:", "sysGlobal_", false); (Ternary, "global:put:", "sysGlobalPut", false);
   (Binary, "hasGlobal:", "sysHasGlobal_", false); (Binary, "load:", "sysLoad_", false);
   (Binary, "exit:", "sysExit_", false); (Binary, "printString:", "sysPrintString_", false);
   (Unary, "printNewline", "sysPrintNewline", false);
   (Binary, "errorPrint:", "sysErrorPrint_", false);
   (Binary, "errorPrintln:", "sysErrorPrintNewline_", false); (Unary, "time", "sysTime", false);
   (Unary, "ticks", "sysTicks", false); (Unary, "fullGC", "sysFullGC", false);
   (Binary, "loadFile:", "sysLoadFile_", false);
   (OnFrame, "printStackTrace", "printStackTrace", false)]%string.

(** The primitives of Vector replace methods, which are recognised by their hash. *)
Definition _Vector (USE_VECTOR_PRIMITIVES : bool) : PrimitiveContainer :=
  if negb USE_VECTOR_PRIMITIVES then empty_container
  else
    let c := foldl (fun c '(ty, name, r, hash) => Add ty name (mkPrim r false hash, None) c) empty_container
      [(Unary, "first", "vecFirst", 781539645); (Unary, "last", "vecLast", 997610644);
       (Binary, "append:", "vecAppend", 3383122912); (Unary, "remove", "removeLast", 146838394);
       (Binary, "remove:", "removeObject", 3385671007); (Unary, "size", "vecSize", 582059043);
       (Unary, "capacity", "capacity", 1600305580); (Unary, "asArray", "asArray", 2100819204);
       (Unary, "removeFirst", "removeFirst", 2083891304); (Unary, "removeAll", "removeAll", 1510429688)]%string in
    let c := Add Binary "at:" (mkPrim "vecAt" false 315201797, Some (mkPrim "vecAtAWFY" false 3362920797)) c in
    Add Ternary "at:put:" (mkPrim "vecAtPut" false 315201797, Some (mkPrim "vecAtPutAWFY" false 3362920797)) c.

(** ** The loader *)

Definition primitiveObjects (USE_VECTOR_PRIMITIVES : bool) : list (string * PrimitiveContainer) :=
  [("Array", _Array); ("Vector", _Vector USE_VECTOR_PRIMITIVES); ("Block", _Block); ("Class", _Class);
   ("Double", _Double); ("Integer", _Integer); ("Method", _Method); ("Object", _Object);
   ("Primitive", _Primitive); ("String", _String); ("Symbol", _Symbol); ("System", _System)]%string.

Section Machine.

Context (USE_TAGGING USE_VECTOR_PRIMITIVES abortOnCoreLibHashMismatch : bool).
Context (env : Environment) (classPath : list string).

Definition SupportsClass (name : string) : bool :=
  bool_decide (is_Some (assoc name (primitiveObjects USE_VECTOR_PRIMITIVES))).

Definition loader_InstallPrimitives (cname : string) (clazz : oop) (classSide : bool) : V () :=
  match assoc cname (primitiveObjects USE_VECTOR_PRIMITIVES) with
  | None => mret tt
  | Some c => InstallPrimitives abortOnCoreLibHashMismatch c clazz classSide
  end.

(** [VMClass::LoadPrimitives]; the warnings are not modelled. *)
Definition LoadPrimitives (cls : oop) : V () :=
  n ← GetName cls;
  cname ← GetStdString n;
  if SupportsClass cname then
    loader_InstallPrimitives cname cls false;;
    c ← CLASS_OF cls;
    loader_InstallPrimitives cname c true
  else mret tt.

(** ** Loading classes *)

(** Enough for the productions that a text of that length can have. *)
Definition parser_fuel (text : list ascii) : nat := 12 * length text + 12.

Section Loading.

(** [LoadClass] is what the compiler loads superclasses with. *)
Context (LoadClass : loc -> V oop).

(** [SourcecodeCompiler::CompileClass]; the answer is [Null] when there is no such file
    or when it has another class. *)
Definition CompileClass (path file : string) (systemClass : oop) : V oop :=
  text ← env_read env (path ++ "/" ++ file ++ ".som");
  match text with
  | None => mret Null
  | Some text =>
      let input := list_ascii_of_string text in
      result ← compile USE_TAGGING LoadClass (parser_fuel input) input systemClass;
      cname ← GetName result;
      cnameC ← GetStdString cname;
      mret (if String.eqb file cnameC then result else Null)
  end.

Fixpoint compile_on_path (paths : list string) (sName : string) (systemClass : oop) : V oop :=
  match paths with
  | [] => mret Null
  | i :: rest =>
      result ← CompileClass i sName systemClass;
      if decide (result = Null) then compile_on_path rest sName systemClass else mret result
  end.

Definition LoadClassBasic_with (name : loc) (systemClass : oop) : V oop :=
  sName ← GetStdString (Ref name); compile_on_path classPath sName systemClass.

(** The body of [Universe::LoadClass]. *)
Definition LoadClass_with (name : loc) : V oop :=
  result ← GetGlobal name;
  if decide (result = Null) then
    result ← LoadClassBasic_with name Null;
    if decide (result = Null) then k ← gets known; mret (nilObject k)
    else
      p1 ← HasPrimitives result;
      c ← CLASS_OF result;
      p2 ← HasPrimitives c;
      (if p1 || p2 then LoadPrimitives result else mret tt);;
      SetGlobal name result;;
      mret result
  else mret result.

End Loading.

(** A chain of superclasses that have to be loaded is at most [fuel] long. *)
Fixpoint LoadClass (fuel : nat) (name : loc) : V oop :=
  match fuel with
  | O => fail OutOfFuel
  | S fuel => LoadClass_with (LoadClass fuel) name
  end.

Definition LoadClassBasic (fuel : nat) : loc -> oop -> V oop := LoadClassBasic_with (LoadClass fuel).

Definition LoadSystemClass (fuel : nat) (systemClass : oop) : V () :=
  name ← GetName systemClass;
  n ← loc_of name;
  result ← LoadClassBasic fuel n systemClass;
  if decide (result = Null) then fail (ErrorExit "Can't load system class")
  else
    p1 ← HasPrimitives result;
    c ← CLASS_OF result;
    p2 ← HasPrimitives c;
    s ← GetStdString name;
    if p1 || p2 || (String.eqb s "Vector" && USE_VECTOR_PRIMITIVES) then LoadPrimitives result
    else mret tt.

(** ** The machine

    The routines call the interpreter, which calls the routines: [fuel] bounds the
    nesting. *)
Fixpoint routines (fuel : nat) : Routines :=
  match fuel with
  | O => mkRoutines (fun _ _ => fail OutOfFuel) (fun _ _ => fail OutOfFuel)
           (fun _ _ _ => fail OutOfFuel) (fun _ _ _ _ => fail OutOfFuel)
  | S fuel =>
      native_routines USE_TAGGING env (LoadClass fuel)
        (Interpreter.Invoke USE_TAGGING (routines fuel) fuel)
        (Interpreter.Send USE_TAGGING (routines fuel) fuel)
  end.

(** What the interpreter loads the classes of blocks with. *)
Definition block_loader (fuel : nat) (name : loc) : V oop := LoadClassBasic fuel name Null.

(** [Interpreter::Start], [steps] bytecodes at most. *)
Definition run (steps fuel : nat) : V oop :=
  Start USE_TAGGING (block_loader fuel) (routines fuel) steps fuel.

(** ** Start-up *)

Definition NewInstanceWithoutFields : V oop := l ← alloc (OObject KObject Null []); mret (Ref l).

(** A class before its class is known. *)
Definition new_VMClass : V oop :=
  k ← gets known;
  l ← alloc (OObject KClass Null (replicate VMClassNumberOfFields (nilObject k)));
  mret (Ref l).

Definition NewMetaclassClass : V oop :=
  result ← new_VMClass;
  mclass ← new_VMClass;
  SetClass result mclass;;
  SetClass mclass result;;
  mret result.

Definition NewSystemClass : V oop :=
  systemClass ← new_VMClass;
  mclass ← new_VMClass;
  SetClass systemClass mclass;;
  k ← gets known;
  SetClass mclass (metaClassClass k);;
  mret systemClass.

Definition InitializeSystemClass (systemClass superClass : oop) (name : string) : V () :=
  sysClassClass ← CLASS_OF systemClass;
  (if decide (superClass = Null) then
     k ← gets known; SetSuperClass sysClassClass (classClass k)
   else
     SetSuperClass systemClass superClass;;
     superClassClass ← CLASS_OF superClass;
     SetSuperClass sysClassClass superClassClass);;
  a ← NewArray 0; SetInstanceFields systemClass a;;
  b ← NewArray 0; SetInstanceFields sysClassClass b;;
  c ← NewArray 0; SetInstanceInvokables systemClass c;;
  d ← NewArray 0; SetInstanceInvokables sysClassClass d;;
  n ← SymbolFor name; SetName systemClass (Ref n);;
  nn ← SymbolFor (name ++ " class"); SetName sysClassClass (Ref nn);;
  SetGlobal n systemClass.

(** The assignments to the variables of [vm/Globals.cpp]. *)
Definition update_known (f : Known -> Known) : V () := modify (fun w => set_known (f (known w)) w).

Definition with_constants (nil t f meta : oop) (k : Known) : Known :=
  mkKnown nil t f (objectClass k) (classClass k) meta (nilClass k) (integerClass k) (arrayClass k)
    (vectorClass k) (methodClass k) (symbolClass k) (primitiveClass k) (stringClass k) (systemClass k)
    (blockClass k) (doubleClass k) (trueClass k) (falseClass k) (integerBox k) (symbolSelf k)
    (symbolSuper k) (symbolBlockSelf k) (symbolIfTrue k) (symbolIfFalse k) (symbolPlus k) (symbolMinus k).

Definition with_classes (object nil class array vector symbol method integer primitive str double : oop)
    (k : Known) : Known :=
  mkKnown (nilObject k) (trueObject k) (falseObject k) object class (metaClassClass k) nil integer array
    vector method symbol primitive str (systemClass k) (blockClass k) double (trueClass k) (falseClass k)
    (integerBox k) (symbolSelf k) (symbolSuper k) (symbolBlockSelf k) (symbolIfTrue k) (symbolIfFalse k)
    (symbolPlus k) (symbolMinus k).

Definition with_loaded (block t f system box : oop) (k : Known) : Known :=
  mkKnown (nilObject k) (trueObject k) (falseObject k) (objectClass k) (classClass k) (metaClassClass k)
    (nilClass k) (integerClass k) (arrayClass k) (vectorClass k) (methodClass k) (symbolClass k)
    (primitiveClass k) (stringClass k) system block (doubleClass k) t f box (symbolSelf k)
    (symbolSuper k) (symbolBlockSelf k) (symbolIfTrue k) (symbolIfFalse k) (symbolPlus k) (symbolMinus k).

(** The first part of [InitializeGlobals]: the classes without their methods. *)
Definition InitializeClasses : V () :=
  nil ← NewInstanceWithoutFields;
  update_known (with_constants nil Null Null Null);;
  t ← NewInstanceWithoutFields;
  f ← NewInstanceWithoutFields;
  meta ← NewMetaclassClass;
  update_known (with_constants nil t f meta);;
  object ← NewSystemClass; nilC ← NewSystemClass; class ← NewSystemClass; array ← NewSystemClass;
  vector ← NewSystemClass; symbol ← NewSystemClass; method ← NewSystemClass; integer ← NewSystemClass;
  primitive ← NewSystemClass; str ← NewSystemClass; double ← NewSystemClass;
  update_known (with_classes object nilC class array vector symbol method integer primitive str double);;
  SetClass nil nilC;;
  InitializeSystemClass object Null "Object";;
  InitializeSystemClass class object "Class";;
  InitializeSystemClass meta class "Metaclass";;
  InitializeSystemClass nilC object "Nil";;
  InitializeSystemClass array object "Array";;
  InitializeSystemClass vector object "Vector";;
  InitializeSystemClass method array "Method";;
  InitializeSystemClass str object "String";;
  InitializeSystemClass symbol str "Symbol";;
  InitializeSystemClass integer object "Integer";;
  InitializeSystemClass primitive object "Primitive";;
  InitializeSystemClass double object "Double";;
  SetSuperClass object nil;;
  (if USE_TAGGING
   then b ← alloc (OInteger 1); update_known (with_loaded Null Null Null Null (Ref b))
   else mret tt);;
  InitializeSymbols.

Definition load_named (fuel : nat) (name : string) : V oop := n ← SymbolFor name; LoadClass fuel n.

Definition set_global_named (name : string) (val : oop) : V () := n ← SymbolFor name; SetGlobal n val.

(** The second part: the classes are read. *)
Definition LoadClasses (fuel : nat) : V oop :=
  k ← gets known;
  LoadSystemClass fuel (objectClass k);; LoadSystemClass fuel (classClass k);;
  LoadSystemClass fuel (metaClassClass k);; LoadSystemClass fuel (nilClass k);;
  LoadSystemClass fuel (arrayClass k);; LoadSystemClass fuel (vectorClass k);;
  LoadSystemClass fuel (methodClass k);; LoadSystemClass fuel (symbolClass k);;
  LoadSystemClass fuel (integerClass k);; LoadSystemClass fuel (primitiveClass k);;
  LoadSystemClass fuel (stringClass k);; LoadSystemClass fuel (doubleClass k);;
  block ← load_named fuel "Block";
  update_known (with_loaded block Null Null Null (integerBox k));;
  t ← load_named fuel "True";
  update_known (with_loaded block t Null Null (integerBox k));;
  SetClass (trueObject k) t;;
  f ← load_named fuel "False";
  update_known (with_loaded block t f Null (integerBox k));;
  SetClass (falseObject k) f;;
  system ← load_named fuel "System";
  update_known (with_loaded block t f system (integerBox k));;
  systemObject ← NewInstance system;
  set_global_named "nil" (nilObject k);; set_global_named "true" (trueObject k);;
  set_global_named "false" (falseObject k);; set_global_named "system" systemObject;;
  set_global_named "System" system;; set_global_named "Block" block;;
  mret systemObject.

Definition InitializeGlobals (fuel : nat) : V oop := InitializeClasses;; LoadClasses fuel.

(** ** Running a method *)

Definition createBootstrapMethod (holder : oop) (numArgsOfMsgSend : nat) : V loc :=
  sig ← SymbolFor "bootstrap";
  scope ← new_scope (mkScope None [] []);
  m ← NewMethod sig [code BC_HALT] [] 0 numArgsOfMsgSend scope [];
  h ← heap_fuel;
  SetHolder h m holder;;
  mret m.

Fixpoint clear_arguments (n : nat) (frm : loc) : V () :=
  match n with
  | O => mret tt
  | S n => clear_arguments n frm;; k ← gets known; SetArgument frm n 0 (nilObject k)
  end.

Definition interpretMethod (steps fuel : nat) (receiver : oop) (initialize : loc) (argumentsArray : oop) : V oop :=
  k ← gets known;
  bootstrapMethod ← createBootstrapMethod (systemClass k) 2;
  bootstrapFrame ← PushNewFrame bootstrapMethod;
  n ← invokable_arguments bootstrapMethod;
  clear_arguments n bootstrapFrame;;
  Push bootstrapFrame receiver;;
  (if decide (argumentsArray = Null) then mret tt else Push bootstrapFrame argumentsArray);;
  Interpreter.Invoke USE_TAGGING (routines fuel) fuel initialize bootstrapFrame;;
  run steps fuel.

(** The answer is [Null] when there is no such method. *)
Definition interpret (steps fuel : nat) (className methodName : string) : V oop :=
  classNameSym ← SymbolFor className;
  clazz ← LoadClass fuel classNameSym;
  c ← CLASS_OF clazz;
  sel ← SymbolFor methodName;
  found ← LookupInvokable c sel;
  match found with
  | None => mret Null
  | Some initialize => interpretMethod steps fuel clazz initialize Null
  end.

Fixpoint strings_array (a : oop) (j : Z) (strings : list string) : V () :=
  match strings with
  | [] => mret tt
  | s :: rest => x ← NewString s; SetIndexableField a j x;; strings_array a (j + 1) rest
  end.

Definition NewArrayFromStrings (strings : list string) : V oop :=
  result ← NewArray (Z.of_nat (length strings)); strings_array result 0 strings;; mret result.

(** [Universe::initialize] for a program: the arguments are those behind the options. *)
Definition initialize (steps fuel : nat) (argv : list string) : V oop :=
  systemObject ← InitializeGlobals fuel;
  k ← gets known;
  sel ← SymbolFor "initialize:";
  found ← LookupInvokable (systemClass k) sel;
  init ← lift (of_option Undef found);
  argumentsArray ← NewArrayFromStrings argv;
  interpretMethod steps fuel systemObject init argumentsArray.

End Machine.

(** ** The tables are well typed *)

Lemma assoc_elem {A} name (t : list (string * A)) : name ∈ t.*1 -> is_Some (assoc name t).
Proof.
  induction t as [|[n x] t IH]; cbn; [by intros ?%not_elem_of_nil|]. intros [->|Hin]%elem_of_cons.
  - rewrite String.eqb_refl. eauto.
  - destruct (String.eqb n name); eauto.
Qed.

Definition table (ty : routine_type) (c : PrimitiveContainer) : PrimTable :=
  match ty with
  | OnFrame => framePrims c | Unary => unaryPrims c | Binary => binaryPrims c | Ternary => ternaryPrims c
  end.

(** The primitive that is installed for an entry of the table. *)
Definition make_prim (ty : routine_type) (routine : string) : primitive :=
  match ty with
  | OnFrame => FramePrim routine | Unary => SafeUnaryPrim routine
  | Binary => SafeBinaryPrim routine | Ternary => SafeTernaryPrim routine
  end.

Definition both (p : Prim * option Prim) : list Prim := p.1 :: option_list p.2.

Section Typed.

Context (USE_TAGGING : bool) (env : Environment) (LoadClass : loc -> V oop).
Context (Invoke : loc -> loc -> V (option loc)) (Send : oop -> string -> list oop -> V ()).

Notation natives := (native_routines USE_TAGGING env LoadClass Invoke Send).

(** The routine of a name, applied to a list of arguments. *)
Definition native_body (ty : routine_type) (routine : string) : option (list oop -> V oop) :=
  match ty with
  | OnFrame => None
  | Unary =>
      r ← assoc routine (unary_natives USE_TAGGING env Send);
      Some (fun args => match args with [x] => r x | _ => fail Undef end)
  | Binary =>
      r ← assoc routine (binary_natives USE_TAGGING env LoadClass Send);
      Some (fun args => match args with [x; y] => r x y | _ => fail Undef end)
  | Ternary =>
      r ← assoc routine (ternary_natives USE_TAGGING Send);
      Some (fun args => match args with [x; y; z] => r x y z | _ => fail Undef end)
  end.

Definition routine_names (ty : routine_type) : list string :=
  match ty with
  | OnFrame => (frame_natives env Invoke).*1
  | Unary => (unary_natives USE_TAGGING env Send).*1
  | Binary => (binary_natives USE_TAGGING env LoadClass Send).*1
  | Ternary => (ternary_natives USE_TAGGING Send).*1
  end.

Definition arity (ty : routine_type) : nat :=
  match ty with OnFrame => 0 | Unary => 1 | Binary => 2 | Ternary => 3 end.

(** The check of one entry. *)
Definition entry_typed (ty : routine_type) (e : string * (Prim * option Prim)) : bool :=
  match ty with OnFrame => true | _ => Nat.eqb (DetermineNumberOfArguments e.1) (arity ty) end &&
  forallb (fun p => existsb (String.eqb (pr_routine p)) (routine_names ty)) (both e.2).

Lemma tables_typed vp :
  forallb (fun '(_, c) => forallb (fun ty => forallb (entry_typed ty) (table ty c))
    [OnFrame; Unary; Binary; Ternary]) (primitiveObjects vp) = true.
Proof. destruct vp; vm_compute; reflexivity. Qed.

Lemma entry_is_typed vp cname c ty name p q :
  (cname, c) ∈ primitiveObjects vp -> (name, p) ∈ table ty c -> q ∈ both p ->
  (ty = OnFrame \/ DetermineNumberOfArguments name = arity ty) /\ pr_routine q ∈ routine_names ty.
Proof.
  intros Hc Hn Hq. pose proof (tables_typed vp) as H.
  rewrite forallb_forall in H. specialize (H _ (proj1 (list_elem_of_In _ _) Hc)). cbn beta iota in H.
  rewrite forallb_forall in H. specialize (H ty).
  assert (In ty [OnFrame; Unary; Binary; Ternary]) as Hty by (destruct ty; cbn; tauto).
  specialize (H Hty). rewrite forallb_forall in H.
  specialize (H _ (proj1 (list_elem_of_In _ _) Hn)). unfold entry_typed in H. cbn [fst snd] in H.
  apply andb_true_iff in H as [H1 H2]. split.
  - destruct ty; [by left|right; by apply Nat.eqb_eq..].
  - rewrite forallb_forall in H2. specialize (H2 _ (proj1 (list_elem_of_In _ _) Hq)).
    apply existsb_exists in H2 as (r & Hr & E%String.eqb_eq). rewrite E. by apply list_elem_of_In.
Qed.

Lemma native_body_step vp cname c ty name p q w frm f base args prim sig hld fuel :
  (cname, c) ∈ primitiveObjects vp -> (name, p) ∈ table ty c -> q ∈ both p -> ty <> OnFrame ->
  heap w !! prim = Some (OPrimitive sig hld (make_prim ty (pr_routine q))) ->
  heap w !! frm = Some (OFrame f) -> f_slots f = base ++ args ->
  length args = DetermineNumberOfArguments name ->
  exists body, native_body ty (pr_routine q) = Some body /\
    Interpreter.Invoke USE_TAGGING natives (S fuel) prim frm w =
    (x ← body args; Push frm x;; mret None) (put_frame frm (with_slots base f) w).
Proof.
  intros Hc Hn Hq Hty Hp Hf Hs Hargs.
  destruct (entry_is_typed vp cname c ty name p q Hc Hn Hq) as [Har Hr].
  destruct Har as [?|Har]; [done|]. rewrite Har in Hargs.
  destruct ty; [done|..]; cbn [routine_names] in Hr; apply assoc_elem in Hr as [r Hr];
    unfold native_body; rewrite Hr; cbn [mbind option_bind]; (eexists; split; [done|]);
    cbn [Interpreter.Invoke make_prim] in *; (erewrite bind_step by (by apply load_step)); cbn beta iota.
  - destruct args as [|x [|]]; try done. 
    erewrite bind_step by (by eapply Pop_step).
    cbn [unary_routine native_routines]. by rewrite Hr.
  - destruct args as [|x [|y [|]]]; try done. 
    erewrite bind_step by (eapply (Pop_step _ _ _ Hf (base ++ [x])); rewrite <- app_assoc; exact Hs).
    erewrite bind_step by (eapply (Pop_step _ _ _ (put_obj_eq _ _ _) base); done).
    rewrite put_obj_twice. cbn [binary_routine native_routines]. by rewrite Hr.
  - destruct args as [|x [|y [|z [|]]]]; try done.
    erewrite bind_step by (eapply (Pop_step _ _ _ Hf (base ++ [x; y])); rewrite <- app_assoc; exact Hs).
    erewrite bind_step by (eapply (Pop_step _ _ _ (put_obj_eq _ _ _) (base ++ [x])); cbn; by rewrite <- app_assoc).
    erewrite bind_step by (eapply (Pop_step _ _ _ (put_obj_eq _ _ _) base); done).
    rewrite !put_obj_twice. cbn [ternary_routine native_routines]. by rewrite Hr.
Qed.

(** A primitive that works on the frame is given the frame as it is. *)
Lemma frame_native_step vp cname c name p q w frm prim sig hld fuel :
  (cname, c) ∈ primitiveObjects vp -> (name, p) ∈ table OnFrame c -> q ∈ both p ->
  heap w !! prim = Some (OPrimitive sig hld (make_prim OnFrame (pr_routine q))) ->
  exists body, assoc (pr_routine q) (frame_natives env Invoke) = Some body /\
    Interpreter.Invoke USE_TAGGING natives (S fuel) prim frm w = (body frm;; mret None) w.
Proof.
  intros Hc Hn Hq Hp. destruct (entry_is_typed vp cname c OnFrame name p q Hc Hn Hq) as [_ Hr].
  cbn [routine_names] in Hr. apply assoc_elem in Hr as [r Hr]. exists r. split; [done|].
  cbn [Interpreter.Invoke make_prim] in *. erewrite bind_step by (by apply load_step). cbn beta iota.
  cbn [frame_routine native_routines]. by rewrite Hr.
Qed.

End Typed.

(** C15: Every entry of the tables of primitives, of every class and with and without the
    primitives of vectors, names a routine that exists for its kind. The primitives that
    work on the frame themselves ([perform:] and its relatives, [invokeOn:with:], [restart]
    and [printStackTrace]) are given the frame as it is. For all others the number of
    operands is the number of arguments of the signature: when the frame ends in as many
    arguments as the selector has, invoking the primitive takes exactly these from the
    frame, hands them in their order to the routine and pushes its answer. *)
Theorem primitives_take_their_arguments T vp vp' abort env cp fuel n cname c ty name p q w frm f base args prim sig hld :
  (cname, c) ∈ primitiveObjects vp -> (name, p) ∈ table ty c -> q ∈ both p ->
  heap w !! prim = Some (OPrimitive sig hld (make_prim ty (pr_routine q))) ->
  heap w !! frm = Some (OFrame f) -> f_slots f = base ++ args ->
  length args = DetermineNumberOfArguments name ->
  if decide (ty = OnFrame) then
    exists body,
      assoc (pr_routine q)
        (frame_natives env (Interpreter.Invoke T (routines T vp' abort env cp fuel) fuel)) = Some body /\
      Interpreter.Invoke T (routines T vp' abort env cp (S fuel)) (S n) prim frm w = (body frm;; mret None) w
  else
    exists body,
      native_body T env (LoadClass T vp' abort env cp fuel)
        (Interpreter.Send T (routines T vp' abort env cp fuel) fuel) ty (pr_routine q) = Some body /\
      Interpreter.Invoke T (routines T vp' abort env cp (S fuel)) (S n) prim frm w =
      (x ← body args; Push frm x;; mret None) (put_frame frm (with_slots base f) w).
Proof. intros. case_decide; [subst; by eapply frame_native_step|by eapply native_body_step]. Qed.

Definition sample_env : Environment :=
  mkEnvironment (fun _ => 8%nat) (fun l => Z.of_nat l) (fun d => d) (fun d => d) (mret 4) (mret (0, 0)) 64
    (fun _ => mret tt) (fun _ => mret tt) (fun _ => mret None) (mret tt).

Definition plus_world : World :=
  mkWorld (list_to_map
      [(0%nat, OPrimitive 5%nat Null (SafeBinaryPrim "intPlus"));
       (1%nat, OFrame (mkFrame None None 7%nat 0 4%nat [Tagged 9; Tagged 3; Tagged 4] 0%nat))])
    8%nat ∅ 0%nat ∅ ∅ ∅ (no_known Null) None 0%nat 0.

Lemma primitives_take_their_arguments_witness :
  exists body,
    native_body true sample_env (LoadClass true true false sample_env [] 1)
      (Interpreter.Send true (routines true true false sample_env [] 1) 1) Binary "intPlus" = Some body /\
    Interpreter.Invoke true (routines true true false sample_env [] 2) 1 0%nat 1%nat plus_world =
    (x ← body [Tagged 3; Tagged 4]; Push 1%nat x;; mret None)
      (put_frame 1%nat (mkFrame None None 7%nat 0 4%nat [Tagged 9] 0%nat) plus_world).
Proof.
  apply (primitives_take_their_arguments true true true false sample_env [] 1 0 "Integer" _Integer Binary
    "+" (mkPrim "intPlus" false 0, None) (mkPrim "intPlus" false 0) plus_world 1%nat
    (mkFrame None None 7%nat 0 4%nat [Tagged 9; Tagged 3; Tagged 4] 0%nat) [Tagged 9]
    [Tagged 3; Tagged 4] 0%nat 5%nat Null).
  - apply list_elem_of_In. vm_compute. tauto.
  - apply list_elem_of_In. vm_compute. tauto.
  - by left.
  - reflexivity.
  - reflexivity.
  - reflexivity.
  - reflexivity.
Defined.
