(* ===== verification/Startup.v ===== *)
(** * Start-up

    The classes as [Universe::InitializeGlobals] sets them up before their methods are
    read, the loading of classes over the class path, and programs that the machine runs
    from an empty heap: reading a small core library, compiling it, installing its
    primitives and interpreting a method. *)
From Stdlib Require Import String Ascii SpecFloat.
From S2P Require Import Prelude Bytecodes Objects Lookup Universe HeapWalk Frame Interpreter Natives Machine.
Local Open Scope Z_scope.

(** No object, no symbol and no global variable; all variables of [vm/Globals.cpp] are
    null. *)
Definition empty_world : World := mkWorld ∅ 0%nat ∅ 0%nat ∅ ∅ ∅ (no_known Null) None 0%nat 0.

(** ** The hierarchy *)

(** The classes that the machine itself creates, with their superclasses. *)
Definition system_classes : list (string * option string) :=
  [("Object", None); ("Class", Some "Object"); ("Metaclass", Some "Class"); ("Nil", Some "Object");
   ("Array", Some "Object"); ("Vector", Some "Object"); ("Method", Some "Array");
   ("String", Some "Object"); ("Symbol", Some "String"); ("Integer", Some "Object");
   ("Primitive", Some "Object"); ("Double", Some "Object")]%string.

Definition global_named (w : World) (name : string) : option oop :=
  s ← symbolsMap w !! name; globals w !! s.

(** The class [c] named [name] in [w], below [super]. *)
Record class_set_up (w : World) (name : string) (super : option string) (c m : oop) : Prop := {
  set_up_global : global_named w name = Some c;
  set_up_class : CLASS_OF c w = Ok (m, w);
  set_up_metaclass : CLASS_OF m w = Ok (metaClassClass (known w), w);
  set_up_name : exists s, GetName c w = Ok (Ref s, w) /\ symbolsMap w !! name = Some s;
  set_up_meta_name :
    exists s, GetName m w = Ok (Ref s, w) /\ symbolsMap w !! (name ++ " class")%string = Some s;
  set_up_super :
    match super with
    | None =>
        GetSuperClass c w = Ok (nilObject (known w), w) /\
        GetSuperClass m w = Ok (classClass (known w), w)
    | Some super =>
        exists c' m', global_named w super = Some c' /\ CLASS_OF c' w = Ok (m', w) /\
          GetSuperClass c w = Ok (c', w) /\ GetSuperClass m w = Ok (m', w)
    end;
  set_up_methods : exists a b, GetInstanceInvokables c w = Ok (Ref a, w) /\
    GetInstanceInvokables m w = Ok (Ref b, w) /\ a <> b /\
    heap w !! a = Some (OObject KArray (arrayClass (known w)) []) /\
    heap w !! b = Some (OObject KArray (arrayClass (known w)) []) }.

Definition world_of {A} (r : result (A * World)) : World :=
  match r with Ok (_, w) => w | Err _ => empty_world end.

Definition initialised_tagged : World := Eval vm_compute in world_of (InitializeClasses true empty_world).
Definition initialised_boxed : World := Eval vm_compute in world_of (InitializeClasses false empty_world).
Definition initialised (T : bool) : World := if T then initialised_tagged else initialised_boxed.

(** Reading off one class. *)
Ltac read_class :=
  do 2 eexists; constructor;
  [reflexivity
  |reflexivity
  |reflexivity
  |eexists; split; reflexivity
  |eexists; split; reflexivity
  |first [split; reflexivity | do 2 eexists; repeat split; reflexivity]
  |do 2 eexists; split_and!; [reflexivity|reflexivity|done|reflexivity|reflexivity]].

(** C18: The first part of the start-up ties the knot of classes and metaclasses. For each
    of the twelve system classes the class is the global variable of its name, it and its
    metaclass carry their names, the class of its metaclass is Metaclass (the metaclass of
    Metaclass included), its superclass is the one the language defines and the superclass
    of its metaclass is the metaclass of its superclass; Object ends the chain with nil and
    Object class continues it with Class. Both have empty arrays of methods of their own.
    The class of nil is Nil. *)
Theorem class_hierarchy_set_up T :
  exists w, InitializeClasses T empty_world = Ok (tt, w) /\
    Forall (fun '(name, super) => exists c m, class_set_up w name super c m) system_classes /\
    CLASS_OF (nilObject (known w)) w = Ok (nilClass (known w), w) /\
    global_named w "Nil" = Some (nilClass (known w)) /\
    global_named w "Metaclass" = Some (metaClassClass (known w)).
Proof.
 exists (initialised T). split; [destruct T; vm_compute; reflexivity|].
  split; [|destruct T; repeat split; reflexivity].
 destruct T; cbv [initialised]; repeat (apply Forall_cons; split); try apply Forall_nil_2; read_class.
Qed.

(** ** Loading a class *)

Section Loading.

Context (T vp abort : bool) (env : Environment) (classPath : list string).

Notation LoadClass := (LoadClass T vp abort env classPath).

Lemma GetGlobal_step name w : GetGlobal name w = Ok (default Null (globals w !! name), w).
Proof. done. Qed.

Lemma LoadClass_global fuel name c w :
  globals w !! name = Some c -> c <> Null -> LoadClass (S fuel) name w = Ok (c, w).
Proof.
  intros Hc HN. cbn [Machine.LoadClass]. unfold LoadClass_with.
  erewrite bind_step by apply GetGlobal_step. rewrite Hc. cbn [default]. by case_decide.
Qed.

(** What reading the directories of the class path in their order gives: nothing, or
    the first class that has the name. *)
Lemma compile_on_path_missing load str systemClass w :
  Forall (fun dir => env_read env (dir ++ "/" ++ str ++ ".som") w = Ok (None, w)) classPath ->
  compile_on_path T env load classPath str systemClass w = Ok (Null, w).
Proof.
  induction 1 as [|dir rest Hdir _ IH]; [done|]. cbn [compile_on_path].
  unfold CompileClass. rewrite bind_assoc. erewrite bind_step by exact Hdir. exact IH.
Qed.

(** C28: Loading a class. A global variable that is set is the answer, whatever it is, and
    nothing is read. When no directory of the class path has the file, the answer is nil
    and nothing has changed. When the answer is another one, the global variable of the
    name is that class from then on, so that loading the class again gives the same class
    and reads nothing. *)
Theorem class_loaded_once fuel name w :
  (forall c, globals w !! name = Some c -> c <> Null -> LoadClass (S fuel) name w = Ok (c, w)) /\
  (forall s, heap w !! name = Some (OSymbol s) -> globals w !! name = None ->
     Forall (fun dir => env_read env (dir ++ "/" ++ sym_chars s ++ ".som") w = Ok (None, w)) classPath ->
     LoadClass (S fuel) name w = Ok (nilObject (known w), w)) /\
  (forall c w' fuel', LoadClass (S fuel) name w = Ok (c, w') -> c <> nilObject (known w') ->
     c <> Null -> globals w' !! name = Some c /\ LoadClass (S fuel') name w' = Ok (c, w')).
Proof.
  split_and!.
  - intros. by apply LoadClass_global.
  - intros s Hs Hg Hdirs. cbn [Machine.LoadClass]. unfold LoadClass_with.
    erewrite bind_step by apply GetGlobal_step. rewrite Hg. cbn [default]. rewrite decide_True by done.
    unfold LoadClassBasic_with. rewrite bind_assoc.
    erewrite bind_step.
    2:{ unfold GetStdString. erewrite bind_step by (by apply load_step). done. }
    erewrite bind_step by (by apply compile_on_path_missing). rewrite decide_True by done. done.
  - intros c w' fuel' H Hn HN.
    enough (globals w' !! name = Some c) by (split; [done|by apply LoadClass_global]).
    cbn [Machine.LoadClass] in H. unfold LoadClass_with in H.
    erewrite bind_step in H by apply GetGlobal_step. case_decide as Hd.
    + minv H. case_decide as Hx; [minv H|].
      { injection E0 as <- <-. injection H as <- <-. done. }
      do 4 minv H. minv H. injection H as <- <-. injection E4 as <- <-.
      apply lookup_insert_eq.
    + injection H as <- <-. by destruct (globals w !! name) eqn:E.
Qed.

End Loading.

(** The symbol [Object] and the symbol [Object class], which names no global variable. *)
Definition symbol_named (w : World) (name : string) : loc := default 0%nat (symbolsMap w !! name).

Lemma class_loaded_once_witness :
  let w := initialised_tagged in
  LoadClass true true false sample_env ["a"; "b"]%string 1 (symbol_named w "Object") w =
    Ok (objectClass (known w), w) /\
  LoadClass true true false sample_env ["a"; "b"]%string 1 (symbol_named w "Object class") w =
    Ok (nilObject (known w), w).
Proof.
  intros w. split.
  - destruct (class_loaded_once true true false sample_env ["a"; "b"]%string 0 (symbol_named w "Object") w)
      as (H & _ & _). apply H; [reflexivity|done].
  - destruct (class_loaded_once true true false sample_env ["a"; "b"]%string 0
      (symbol_named w "Object class") w) as (_ & H & _).
    eapply H; [reflexivity|reflexivity|]. repeat constructor.
Defined.
