(* ===== verification/Programs.v ===== *)
(** * Programs

    The whole machine at work: from an empty heap it sets up the system classes, reads,
    compiles and links a small core library, and runs programs. *)
From Stdlib Require Import String Ascii SpecFloat.
From S2P Require Import Prelude Bytecodes Objects Universe HeapWalk Frame Interpreter Natives Machine Startup.
Local Open Scope Z_scope.

(** The files of a small core library and of a test class, in the directory [lib]. *)
Definition files : list (string * string) :=
  [("lib/Object.som", "Object = nil ( class = primitive == o = primitive = other = ( ^self == other )
      unknownGlobal: n = ( ^nil ) doesNotUnderstand: s arguments: a = ( ^a length ) )");
   ("lib/Class.som", "Class = ( | name instanceFields instanceInvokables superClass | new = primitive )");
   ("lib/Metaclass.som", "Metaclass = Class ( )");
   ("lib/Nil.som", "Nil = ( isNil = ( ^true ) )");
   ("lib/Array.som", "Array = ( length = primitive at: i = primitive ---- new: n = primitive )");
   ("lib/Vector.som", "Vector = ( | first last storage | )");
   ("lib/Method.som", "Method = Array ( )");
   ("lib/Symbol.som", "Symbol = String ( )");
   ("lib/Integer.som", "Integer = ( + a = primitive - a = primitive * a = primitive < a = primitive
      fact = ( self < 2 ifTrue: [ ^1 ]. ^self * (self - 1) fact ) )");
   ("lib/Primitive.som", "Primitive = ( )");
   ("lib/String.som", "String = ( )");
   ("lib/Double.som", "Double = ( )");
   ("lib/Block.som", "Block = ( value = primitive )");
   ("lib/Block1.som", "Block1 = Block ( value = primitive )");
   ("lib/Block2.som", "Block2 = Block ( value: x = primitive )");
   ("lib/True.som", "True = ( )");
   ("lib/False.som", "False = ( )");
   ("lib/System.som", "System = ( initialize: args = ( ^self run: args ) run: args = ( ^10 fact ) )");
   ("lib/Test.som", "Test = ( ----
      unknown = ( ^self foo: 1 bar: 2 )
      loop = ( | sum | sum := 0. 1 to: 10 do: [ :i | sum := sum + i ]. ^sum )
      find: n = ( self each: [ :x | n < x ifTrue: [ ^x * 2 ] ]. ^0 )
      each: block = ( | i | i := 0. [ i < 9 ] whileTrue: [ i := i + 1. block value: i ]. ^self )
      found = ( ^self find: 5 ) )")]%string.

(** Files are read, and nothing is written. *)
Definition library : Environment :=
  mkEnvironment (fun _ => 8%nat) (fun l => Z.of_nat l) (fun d => d) (fun d => d) (mret 4) (mret (0, 0)) 64
    (fun _ => mret tt) (fun _ => mret tt) (fun n => mret (assoc n files)) (mret tt).

Definition answer {A} (r : result (A * World)) : result A :=
  match r with Ok (a, _) => Ok a | Err e => Err e end.

(** Start the machine and run a method of the class Test, a thousand bytecodes at most;
    the natives of this library call the interpreter at most three levels deep. *)
Definition run_test (T : bool) (selector : string) : result (oop * World) :=
  (InitializeGlobals T true false library ["lib"%string] 3;;
   interpret T true false library ["lib"%string] 1000 3 "Test" selector) empty_world.

(** Recursion, with sends, an inlined branch and a return out of it: [10 fact]. *)
Example factorial_of_ten :
  answer (initialize true true false library ["lib"%string] 1000 3 ["x"%string] empty_world) = Ok (Tagged 3628800).
Proof. vm_compute. reflexivity. Qed.

(** An inlined loop. *)
Example loop_sums : answer (run_test true "loop") = Ok (Tagged 55).
Proof. vm_compute. reflexivity. Qed.

(** The same without tagging: the answer is an integer object. *)
Example loop_sums_boxed :
  match run_test false "loop" with Ok (Ref l, w) => heap w !! l | _ => None end = Some (OInteger 55).
Proof. vm_compute. reflexivity. Qed.

(** The heap is as the collectors expect it. *)
Definition collectable (T : bool) (w : World) : bool :=
  forallb (fun '(_, o) => forallb (leads_to_object (heap w)) (pointers o)) (map_to_list (heap w)) &&
  forallb (leads_to_object (heap w)) (roots T w).

(** A block that is evaluated in the loop of another method and returns from the method
    in which it was written. *)
Example block_returns_home :
  match run_test true "found" with Ok (r, w) => Some (r, collectable true w) | Err _ => None end
  = Some (Tagged 12, true).
Proof. vm_compute. reflexivity. Qed.

(** The arguments of a message that is not understood are handed over as an array. *)
Example unknown_message_answered : answer (run_test true "unknown") = Ok (Tagged 2).
Proof. vm_compute. reflexivity. Qed.
