(* ===== verification/Shell.v ===== *)
(** * The shell

    [src/src/vm/Shell.cpp] with [Universe::LoadShellClass] and
    [SourcecodeCompiler::CompileClassString]: every line of the input is compiled as a
    method of a class of its own and run in a frame that stays from line to line. *)
From Stdlib Require Import String Ascii.
From S2P Require Import Prelude Bytecodes IntegerPrims Objects Lookup Universe HeapWalk Frame Interpreter Natives Parser Machine Startup Programs.
Local Open Scope Z_scope.

Section Shell.

Context (USE_TAGGING USE_VECTOR_PRIMITIVES abortOnCoreLibHashMismatch : bool).
Context (env : Environment) (classPath : list string).

(** The size of the buffer for a line, [BUFSIZ] of the C library. *)
Context (INPUT_MAX_SIZE : nat).

Notation LoadClass := (LoadClass USE_TAGGING USE_VECTOR_PRIMITIVES abortOnCoreLibHashMismatch env classPath).
Notation routines := (routines USE_TAGGING USE_VECTOR_PRIMITIVES abortOnCoreLibHashMismatch env classPath).
Notation run := (run USE_TAGGING USE_VECTOR_PRIMITIVES abortOnCoreLibHashMismatch env classPath).

Definition CompileClassString (fuel : nat) (stream : string) (systemClass : oop) : V oop :=
  let input := list_ascii_of_string stream in
  compile USE_TAGGING (LoadClass fuel) (parser_fuel input) input systemClass.

Definition LoadShellClass (fuel : nat) (stmt : string) : V oop := CompileClassString fuel stmt Null.

Definition SHELL_PREFIX : string := "Shell_Class_".
Definition SHELL_PART_1 : string := " = (run: it = ( | tmp | tmp := (".
Definition SHELL_PART_2 : string := "). 'it = ' print. ^tmp println) )".

Definition statement (counter : nat) (inp : string) : string :=
  SHELL_PREFIX ++ string_of_list_ascii (print_int64 (Z.of_nat counter)) ++ SHELL_PART_1 ++ inp ++ SHELL_PART_2.

(** One line that is not empty; the answer is the new value of [it], or nothing when the
    line is not compiled. *)
Definition evaluate (steps fuel counter : nat) (bytecodeIndex : Z) (it : oop) (inp : string) : V (option oop) :=
  runClass ← LoadShellClass fuel (statement counter inp);
  if decide (runClass = Null) then env_Print env "can't compile statement.";; mret None
  else
    currentFrame ← GetFrame;
    SetBytecodeIndex currentFrame bytecodeIndex;;
    o ← NewInstance runClass;
    Push currentFrame o;;
    Push currentFrame it;;
    sel ← SymbolFor "run:";
    found ← LookupInvokable runClass sel;
    init ← lift (of_option Undef found);
    Interpreter.Invoke USE_TAGGING (routines fuel) fuel init currentFrame;;
    run steps fuel;;
    it' ← Pop currentFrame;
    mret (Some it').

(** A line that does not fit into the buffer makes the stream fail; from then on the loop
    reads nothing, and it does not end. *)
Fixpoint shell_loop (steps fuel : nat) (bytecodeIndex : Z) (counter : nat) (it : oop) (lines : list string)
    : V oop :=
  match lines with
  | [] => mret it
  | inp :: lines =>
      env_Print env "---> ";;
      if (INPUT_MAX_SIZE <=? String.length inp)%nat then fail OutOfFuel
      else if String.eqb inp "" then shell_loop steps fuel bytecodeIndex counter it lines
      else
        r ← evaluate steps fuel counter bytecodeIndex it inp;
        shell_loop steps fuel bytecodeIndex (S counter) (default it r) lines
  end.

(** [Shell::Start] on the lines of the input. *)
Definition Shell_Start (steps fuel : nat) (bootstrapMethod : loc) (lines : list string) : V oop :=
  k ← gets known;
  currentFrame ← PushNewFrame bootstrapMethod;
  f ← load_frame currentFrame;
  shell_loop steps fuel (f_bytecodeIndex f) 0 (nilObject k) lines.

(** [Universe::initialize] without a program. *)
Definition start_shell (steps fuel : nat) (lines : list string) : V oop :=
  InitializeGlobals USE_TAGGING USE_VECTOR_PRIMITIVES abortOnCoreLibHashMismatch env classPath fuel;;
  k ← gets known;
  bootstrapMethod ← createBootstrapMethod (systemClass k) 2;
  Shell_Start steps fuel bootstrapMethod lines.

End Shell.

(** The core library with what the shell needs for the output of a value. *)
Definition shell_files : list (string * string) :=
  ("lib/Object.som", "Object = nil ( class = primitive print = ( ^self ) println = ( ^self ) )"%string) :: files.

Definition shell_library : Environment :=
  mkEnvironment (fun _ => 8%nat) (fun l => Z.of_nat l) (fun d => d) (fun d => d) (mret 4) (mret (0, 0)) 64
    (fun _ => mret tt) (fun _ => mret tt) (fun n => mret (assoc n shell_files)) (mret tt).

Definition shell_on (lines : list string) : result oop :=
  answer (start_shell true true false shell_library ["lib"%string] 4096 300 3 lines empty_world).

(** The first line is evaluated. *)
Example shell_first_line : shell_on ["10 fact"%string] = Ok (Tagged 3628800).
Proof. vm_compute. reflexivity. Qed.

Example shell_empty_line : shell_on [""; "4 + 3"; ""]%string = Ok (Tagged 7).
Proof. vm_compute. reflexivity. Qed.

(** The second is not: the code means to run the halt instruction of the bootstrap frame
    again and sets back the index in the frame, but [Invoke] overwrites it with that of the
    interpreter, which is behind the halt instruction.  After the return from [run:] the
    interpreter reads a bytecode behind the end of the method. *)
Example shell_second_line : shell_on ["4 + 3"; "4 + 3"]%string = Err Undef.
Proof. vm_compute. reflexivity. Qed.
