(* ===== verification/CommandLine.v ===== *)
(** * The command line

    [Universe::handleArguments], [getClassPathExt], [setupClassPath] and [addClassPath] of
    [src/src/vm/Universe.cpp]: the options, the class path, and the program with its
    arguments.  Texts are lists of characters, positions in a text are [size_t]. *)
From Stdlib Require Import Ascii String.
From S2P Require Import Prelude InfIntBase InfIntMul InfIntText IntegerPrims Objects Natives Machine Startup Programs Shell.
Local Open Scope Z_scope.

Notation text := (list ascii).

Definition of_string (s : string) : text := list_ascii_of_string s.

Definition pathSeparator : ascii := ":".
Definition fileSeparator : ascii := "/".

(** The variables that the options set. *)
Record Options : Type := mkOptions {
  classPath : list text;
  dumpBytecodes : Z;
  gcVerbosity : Z;
  heapSize : Z;
  abortOnCoreLibHashMismatch : bool }.

Definition with_classPath (p : list text) (s : Options) : Options :=
  mkOptions p (dumpBytecodes s) (gcVerbosity s) (heapSize s) (abortOnCoreLibHashMismatch s).
Definition with_dumpBytecodes (n : Z) (s : Options) : Options :=
  mkOptions (classPath s) n (gcVerbosity s) (heapSize s) (abortOnCoreLibHashMismatch s).
Definition with_gcVerbosity (n : Z) (s : Options) : Options :=
  mkOptions (classPath s) (dumpBytecodes s) n (heapSize s) (abortOnCoreLibHashMismatch s).
Definition with_heapSize (n : Z) (s : Options) : Options :=
  mkOptions (classPath s) (dumpBytecodes s) (gcVerbosity s) n (abortOnCoreLibHashMismatch s).
Definition with_hashCheck (b : bool) (s : Options) : Options :=
  mkOptions (classPath s) (dumpBytecodes s) (gcVerbosity s) (heapSize s) b.

(** The usage message and the end of the machine. *)
Definition printUsageAndExit {A} : stateful Options A := fail (ErrorExit "Usage").

(** ** The class path *)

(** [getline]: a token, and what follows the separator. *)
Fixpoint getline (s : text) : text * text :=
  match s with
  | [] => ([], [])
  | c :: r => if decide (c = pathSeparator) then ([], r) else let '(t, r') := getline r in (c :: t, r')
  end.

(** It fails when nothing is left. *)
Fixpoint setup_loop (fuel : nat) (ss : text) (paths : list text) : list text :=
  match fuel with
  | O => paths
  | S fuel =>
      match ss with
      | [] => paths
      | _ => let '(token, rest) := getline ss in setup_loop fuel rest (paths ++ [token])
      end
  end.

Definition setupClassPath (cp : text) : stateful Options () :=
  modify (fun s => with_classPath (setup_loop (length cp) cp (classPath s)) s).

Definition addClassPath (cp : text) : stateful Options () :=
  modify (fun s => with_classPath (classPath s ++ [cp]) s).

(** ** The program *)

Definition npos : Z := 2 ^ 64 - 1.

(** [strncmp] with the length of [p] gives 0. *)
Fixpoint starts_with (p s : text) : bool :=
  match p, s with
  | [], _ => true
  | _ :: _, [] => false
  | c :: p, d :: s => bool_decide (c = d) && starts_with p s
  end.

(** [std::string::find] and [find_last_of] *)
Fixpoint find (p s : text) : option nat :=
  if starts_with p s then Some 0%nat
  else match s with [] => None | _ :: r => S <$> find p r end.

Fixpoint find_last_of (c : ascii) (s : text) : option nat :=
  match s with
  | [] => None
  | d :: r =>
      match find_last_of c r with
      | Some i => Some (S i)
      | None => if decide (d = c) then Some 0%nat else None
      end
  end.

Definition position (o : option nat) : Z := match o with Some n => Z.of_nat n | None => npos end.

Definition string_substr (s : text) (pos n : Z) : result text :=
  if pos >? Z.of_nat (length s) then Err (ErrorExit "std::out_of_range")
  else Ok (take (Z.to_nat (Z.min n (Z.of_nat (length s)))) (drop (Z.to_nat pos) s)).

(** The answer and the two tokens, which are empty at first. *)
Definition getClassPathExt (arg : text) : result (bool * text * text) :=
  let fpIndex := position (find_last_of fileSeparator arg) in
  let ssepIndex := position (find (of_string ".som") arg) in
  path ← (if decide (fpIndex = npos) then Ok [] else string_substr arg 0 fpIndex);
  let ssepIndex :=
    if negb (ssepIndex =? npos) && (ssepIndex >? fpIndex) then ssepIndex - 1 else Z.of_nat (length arg) in
  name ← string_substr arg (u64 (fpIndex + 1)) (u64 (ssepIndex - fpIndex));
  Ok (negb (bool_decide (fpIndex = npos)), path, name).

(** ** The options *)

(** [sscanf] with ["-H%ld%2s"] on what follows ["-H"]: the number and the unit, when both
    are there. A number that does not fit is not defined. *)
Definition scan_number (s : text) : option (Z * bool * text) :=
  let s := skip_spaces s in
  let body := match s with c :: r => if is_minus c || is_plus c then r else s | [] => [] end in
  '(v, overflow) ← strtoll s;
  Some (v, overflow, drop (length (leading_digits body)) body).

Fixpoint nonspaces (n : nat) (s : text) : text :=
  match n, s with
  | S n, c :: r => if isspace c then [] else c :: nonspaces n r
  | _, _ => []
  end.

Definition scan_heap (s : text) : result (option (Z * text)) :=
  match scan_number s with
  | None => Ok None
  | Some (_, true, _) => Err Undef
  | Some (v, false, rest) =>
      match nonspaces 2 (skip_spaces rest) with
      | [] => Ok None
      | unit => Ok (Some (u64 v, unit))
      end
  end.

Definition set_heap_size (heap_size : Z) (unit : text) : stateful Options () :=
  if decide (unit = of_string "KB") then modify (with_heapSize (u64 (heap_size * 1024)))
  else if decide (unit = of_string "MB") then modify (with_heapSize (u64 (u64 (heap_size * 1024) * 1024)))
  else mret tt.

(** The loop over the arguments; [vmArgs] are those of the program. *)
Fixpoint arguments_loop (argv : list text) (sawOtherArgs : bool) (vmArgs : list text)
    : stateful Options (list text) :=
  match argv with
  | [] => mret vmArgs
  | arg :: rest =>
      let option_is p := negb sawOtherArgs && starts_with (of_string p) arg in
      if option_is "-cp" then
        match rest with
        | [] => printUsageAndExit
        | cp :: rest =>
            paths ← gets classPath;
            if decide (paths = []) then setupClassPath cp;; arguments_loop rest sawOtherArgs vmArgs
            else printUsageAndExit
        end
      else if option_is "-d" then
        modify (fun s => with_dumpBytecodes (u8 (dumpBytecodes s + 1)) s);;
        arguments_loop rest sawOtherArgs vmArgs
      else if option_is "-cfg" then arguments_loop rest sawOtherArgs vmArgs
      else if option_is "-g" then
        modify (fun s => with_gcVerbosity (u8 (gcVerbosity s + 1)) s);;
        arguments_loop rest sawOtherArgs vmArgs
      else if option_is "-H" then
        scanned ← lift (scan_heap (drop 2 arg));
        match scanned with
        | Some (heap_size, unit) =>
            set_heap_size heap_size unit;; arguments_loop rest sawOtherArgs vmArgs
        | None => printUsageAndExit
        end
      else if option_is "-h" || option_is "--help" then printUsageAndExit
      else if option_is "-prim-hash-check" then
        modify (with_hashCheck true);; arguments_loop rest sawOtherArgs vmArgs
      else arguments_loop rest true (vmArgs ++ [arg])
  end.

(** The first argument is the name of the executable. *)
Definition handleArguments (argv : list text) : stateful Options (list text) :=
  modify (fun s => with_gcVerbosity 0 (with_dumpBytecodes 0 s));;
  vmArgs ← arguments_loop (tail argv) false [];
  vmArgs ← match vmArgs with
           | [] => mret []
           | firstArg :: others =>
               '(b, path, name) ← lift (getClassPathExt firstArg);
               (if b : bool then addClassPath path else mret tt);;
               mret (name :: others)
           end;
  addClassPath (of_string ".");;
  mret vmArgs.

(** Before the options are read. *)
Definition default_options : Options := mkOptions [] 0 0 (1024 * 1024) false.

(** [Universe::initialize] from the command line on; [lines] is the input for the shell. *)
Definition main (T vp : bool) (env : Environment) (INPUT_MAX_SIZE steps fuel : nat) (lines : list string)
    (argv : list text) : V oop :=
  '(args, opts) ← lift (handleArguments argv default_options);
  let paths := string_of_list_ascii <$> classPath opts in
  match args with
  | [] => start_shell T vp (abortOnCoreLibHashMismatch opts) env paths INPUT_MAX_SIZE steps fuel lines
  | _ => initialize T vp (abortOnCoreLibHashMismatch opts) env paths steps fuel (string_of_list_ascii <$> args)
  end.

(** ** The class path is split at the separators *)

Lemma getline_token d r : pathSeparator ∉ d -> getline (d ++ pathSeparator :: r) = (d, r).
Proof.
  induction d as [|c d IH]; cbn; [done|]. intros [Hc Hd]%not_elem_of_cons.
  rewrite decide_False by congruence. by rewrite IH.
Qed.

Lemma getline_last d : pathSeparator ∉ d -> getline d = (d, []).
Proof.
  induction d as [|c d IH]; cbn; [done|]. intros [Hc Hd]%not_elem_of_cons.
  rewrite decide_False by congruence. by rewrite IH.
Qed.

(** Directories with separators between them. *)
Fixpoint join (ds : list text) : text :=
  match ds with [] => [] | [d] => d | d :: ds => d ++ pathSeparator :: join ds end.

(** No directory has a separator in it, and the last one is not empty. *)
Definition separable (ds : list text) : Prop :=
  Forall (fun d => pathSeparator ∉ d) ds /\ last ds <> Some [].

Lemma join_cons d d' ds : join (d :: d' :: ds) = d ++ pathSeparator :: join (d' :: ds).
Proof. done. Qed.

Lemma setup_loop_join ds fuel paths :
  separable ds -> (length (join ds) <= fuel)%nat -> setup_loop fuel (join ds) paths = paths ++ ds.
Proof.
  intros [HF HL]. revert fuel paths. induction HF as [|d ds Hd HF IH]; intros fuel paths Hfuel.
  { rewrite app_nil_r. by destruct fuel. }
  destruct ds as [|d' ds].
  - cbn [join] in *. destruct d as [|c d]; [done|]. destruct fuel as [|fuel]; [by cbn in Hfuel; lia|].
    cbn [setup_loop]. rewrite getline_last by done. by destruct fuel.
  - rewrite join_cons in *. rewrite length_app in Hfuel. cbn [length] in Hfuel.
    destruct fuel as [|fuel]; [lia|]. cbn [setup_loop].
    rewrite getline_token by done.
    replace (paths ++ d :: d' :: ds) with ((paths ++ [d]) ++ d' :: ds) by (by rewrite <- app_assoc).
    rewrite <- (IH HL fuel) by lia. by destruct d.
Qed.

(** ** The directory and the name of the program *)

Lemma find_last_of_None c s : c ∉ s -> find_last_of c s = None.
Proof.
  induction s as [|d s IH]; cbn; [done|]. intros [Hc Hs]%not_elem_of_cons. rewrite IH by done.
  by rewrite decide_False by congruence.
Qed.

Lemma find_last_of_Some c d s : c ∉ s -> find_last_of c (d ++ c :: s) = Some (length d).
Proof.
  intros Hs. induction d as [|e d IH]; cbn.
  - by rewrite find_last_of_None, decide_True.
  - by rewrite IH.
Qed.

Lemma find_bound p s n : find p s = Some n -> (n <= length s)%nat.
Proof.
  revert n. induction s as [|c s IH]; intros n; cbn [find length]; (case_match; [intros [= <-]; lia|]); [done|].
  intros (m & Hm & ->)%fmap_Some. apply IH in Hm. lia.
Qed.

(** A text that fits into the memory. *)
Definition fits (s : text) : Prop := Z.of_nat (length s) < npos.

Lemma u64_small z : 0 <= z < 2 ^ 64 -> u64 z = z.
Proof. intros. by apply Z.mod_small. Qed.

Lemma getClassPathExt_plain arg : fits arg -> fileSeparator ∉ arg -> getClassPathExt arg = Ok (false, [], arg).
Proof.
  intros HF Hs. unfold getClassPathExt, fits in *. rewrite find_last_of_None by done. cbn [position].
  rewrite decide_True by done. cbn [mbind result_bind].
  replace (negb _ && _) with false.
  2:{ symmetry. apply andb_false_iff. right. destruct (find _ arg) as [n|] eqn:E; cbn [position]; [|done].
      apply find_bound in E. rewrite Z.gtb_ltb. apply Z.ltb_ge. lia. }
  replace (u64 (npos + 1)) with 0 by done.
  replace (u64 (Z.of_nat (length arg) - npos)) with (Z.of_nat (length arg) + 1).
  2:{ unfold uwrap, npos in *. apply Z.mod_unique with (q := -1); lia. }
  unfold string_substr. rewrite Z.gtb_ltb. replace (_ <? 0) with false by (symmetry; apply Z.ltb_ge; lia).
  cbn [mbind result_bind]. rewrite bool_decide_true by done. do 2 f_equal.
  rewrite drop_0. apply take_ge. lia.
Qed.

(** The program [dir/name] or [dir/name.som]. *)
Lemma getClassPathExt_path dir name (suffix : bool) :
  let arg := dir ++ fileSeparator :: name ++ (if suffix then of_string ".som" else []) in
  fits arg -> fileSeparator ∉ name ->
  find (of_string ".som") arg = (if suffix then Some (length dir + S (length name))%nat else None) ->
  getClassPathExt arg = Ok (true, dir, name).
Proof.
  intros arg HF Hn Hfind. unfold getClassPathExt, fits in *. rewrite Hfind.
  assert (find_last_of fileSeparator arg = Some (length dir)) as ->.
  { apply find_last_of_Some. intros [?|Hs]%elem_of_app; [done|]. destruct suffix; [|by apply elem_of_nil in Hs].
    cbn in Hs. by repeat (apply elem_of_cons in Hs as [?|Hs]; [done|]); apply elem_of_nil in Hs. }
  cbn [position].
  assert (length arg = length dir + S (length name) + (if suffix then 4 else 0))%nat as HL.
  { unfold arg. rewrite length_app. cbn [length]. rewrite length_app. destruct suffix; [change (length (of_string ".som")) with 4%nat|cbn [length]]; lia. }
  rewrite decide_False by (unfold npos in *; lia).
  assert (string_substr arg 0 (Z.of_nat (length dir)) = Ok dir) as ->.
  { unfold string_substr. rewrite Z.gtb_ltb. destruct (Z.ltb_spec (Z.of_nat (length arg)) 0); [lia|].
    f_equal. rewrite drop_0, Z.min_l, Nat2Z.id by lia. by apply take_app_length. }
  cbn [mbind result_bind].
  assert (u64 (Z.of_nat (length dir) + 1) = Z.of_nat (S (length dir))) as ->.
  { rewrite u64_small; unfold npos in *; lia. }
  assert (forall n, Z.of_nat (length name) <= n ->
    (suffix = true -> n = Z.of_nat (length name)) ->
    string_substr arg (Z.of_nat (S (length dir))) n = Ok name) as HS.
  { intros n Hle Hsuf. unfold string_substr. rewrite Z.gtb_ltb.
    destruct (Z.ltb_spec (Z.of_nat (length arg)) (Z.of_nat (S (length dir)))); [lia|]. f_equal.
    rewrite Nat2Z.id.
    assert (drop (S (length dir)) arg = name ++ (if suffix then of_string ".som" else [])) as ->.
    { unfold arg. rewrite cons_middle, app_assoc. apply drop_app_length'. rewrite length_app. cbn. lia. }
    destruct suffix.
    - rewrite Hsuf by done. rewrite take_app_length'; [done|lia].
    - rewrite app_nil_r. apply take_ge. lia. }
  match goal with |- context [string_substr arg (Z.of_nat (S (length dir))) ?n] => rewrite (HS n) end.
  - cbn [mbind result_bind]. rewrite bool_decide_false by (unfold npos in *; lia). done.
  - destruct suffix; cbn [position].
    + rewrite (proj2 (Z.eqb_neq _ npos)) by (unfold npos in *; lia).
      replace (_ >? _) with true by (symmetry; apply Z.gtb_lt; lia). cbn [negb andb].
      rewrite u64_small; unfold npos in *; lia.
    + rewrite Z.eqb_refl. cbn [negb andb]. rewrite u64_small; unfold npos in *; lia.
  - intros ->. cbn [position]. rewrite (proj2 (Z.eqb_neq _ npos)) by (unfold npos in *; lia).
    replace (_ >? _) with true by (symmetry; apply Z.gtb_lt; lia). cbn [negb andb].
    rewrite u64_small; unfold npos in *; lia.
Qed.

(** ** The size of the heap *)

Lemma leading_digits_app ds c r : digits ds -> isdigit c = false -> leading_digits (ds ++ c :: r) = ds.
Proof.
  induction 1 as [|d ds Hd Hds IH]; intros Hc; cbn [leading_digits app]; [by rewrite Hc|].
  by rewrite Hd, IH.
Qed.

(** A number in front of the unit. *)
Lemma scan_heap_number n c d :
  0 <= n <= INT64_MAX -> isdigit c = false -> isspace c = false -> isspace d = false ->
  scan_heap (decimal 20 n ++ [c; d]) = Ok (Some (n, [c; d])).
Proof.
  intros Hn Hc Hcs Hds. unfold INT64_MAX in Hn.
  destruct (decimal_spec 20 n) as (D & V & L & _); [lia|lia|].
  destruct (decimal 20 n) as [|x ds] eqn:E; [by cbn in L; lia|].
  destruct (isdigit_other x) as (E1 & E2 & E3); [by apply Forall_cons_iff in D as []|].
  assert (leading_digits ((x :: ds) ++ [c; d]) = x :: ds) as HLd by (by apply leading_digits_app).
  unfold scan_heap, scan_number. change ((x :: ds) ++ [c; d]) with (x :: (ds ++ [c; d])) in *.
  assert (skip_spaces (x :: ds ++ [c; d]) = x :: ds ++ [c; d]) as -> by (cbn [skip_spaces]; by rewrite E1).
  rewrite E2, E3. cbn [orb]. rewrite HLd.
  assert (strtoll (x :: ds ++ [c; d]) = Some (n, false)) as ->.
  { unfold strtoll. cbn [skip_spaces]. rewrite E1, E2, E3. cbn [orb]. rewrite HLd. cbn beta iota zeta.
    rewrite V. unfold overflows, INT64_MIN, INT64_MAX. f_equal. f_equal; [lia|]. lia. }
  cbn [mbind option_bind].
  assert (drop (length (x :: ds)) (x :: ds ++ [c; d]) = [c; d]) as -> by apply (drop_app_length (x :: ds)).
  cbn [skip_spaces]. rewrite Hcs. cbn [nonspaces]. rewrite Hcs, Hds. 
  rewrite u64_small by lia. done.
Qed.

(** ** Options as they are written, and what they mean *)

Inductive an_option : Type :=
  | ClassPath (directories : list text)
  | Dump
  | Config
  | Verbose
  | HeapSize (n : Z) (mega : bool)
  | HashCheck.

Definition written (o : an_option) : list text :=
  match o with
  | ClassPath ds => [of_string "-cp"; join ds]
  | Dump => [of_string "-d"]
  | Config => [of_string "-cfg"]
  | Verbose => [of_string "-g"]
  | HeapSize n mega => [of_string "-H" ++ decimal 20 n ++ of_string (if mega : bool then "MB" else "KB")]
  | HashCheck => [of_string "-prim-hash-check"]
  end.

Definition meaning (s : Options) (o : an_option) : Options :=
  match o with
  | ClassPath ds => with_classPath ds s
  | Dump => with_dumpBytecodes (u8 (dumpBytecodes s + 1)) s
  | Config => s
  | Verbose => with_gcVerbosity (u8 (gcVerbosity s + 1)) s
  | HeapSize n mega => with_heapSize (u64 (n * (if mega : bool then 1024 * 1024 else 1024))) s
  | HashCheck => with_hashCheck true s
  end.

(** A class path is given once, with directories that can be told apart; the size of the
    heap is a number of the machine. *)
Fixpoint acceptable (s : Options) (os : list an_option) : Prop :=
  match os with
  | [] => True
  | o :: os =>
      match o with
      | ClassPath ds => classPath s = [] /\ separable ds
      | HeapSize n _ => 0 <= n <= INT64_MAX
      | _ => True
      end /\ acceptable (meaning s o) os
  end.

(** What does not look like an option. *)
Definition is_program (arg : text) : bool :=
  forallb (fun p => negb (starts_with (of_string p) arg))
    ["-cp"; "-d"; "-cfg"; "-g"; "-H"; "-h"; "--help"; "-prim-hash-check"]%string.

Lemma set_heap_size_written n (mega : bool) s :
  set_heap_size n (of_string (if mega then "MB" else "KB")) s = Ok (tt, meaning s (HeapSize n mega)).
Proof.
  assert (u64 (u64 (n * 1024) * 1024) = u64 (n * (1024 * 1024))) as E.
  { unfold uwrap. rewrite Z.mul_mod_idemp_l by done. f_equal. lia. }
  destruct mega; [|done]. cbn [meaning]. by rewrite <- E.
Qed.

Lemma arguments_loop_option s o rest :
  acceptable s [o] -> arguments_loop (written o ++ rest) false [] s = arguments_loop rest false [] (meaning s o).
Proof.
  intros [Ho _]. destruct o as [ds| | | |n mega|]; cbn [written app]; try done.
  - destruct Ho as [Hc Hds].
    change (arguments_loop (of_string "-cp" :: join ds :: rest) false [] s) with
      ((paths ← gets classPath;
        if decide (paths = []) then setupClassPath (join ds);; arguments_loop rest false []
        else printUsageAndExit) s).
    rewrite (bind_step _ _ _ _ _ (gets_step _ _)), decide_True by done.
    unfold setupClassPath. rewrite (bind_step _ _ _ _ _ (modify_step _ _)), Hc.
    by rewrite setup_loop_join.
  - set (unit := of_string (if mega then "MB" else "KB")).
    change (arguments_loop _ false [] s) with
      ((scanned ← lift (scan_heap (decimal 20 n ++ unit));
        match scanned with
        | Some (heap_size, unit) => set_heap_size heap_size unit;; arguments_loop rest false []
        | None => printUsageAndExit
        end) s).
    assert (scan_heap (decimal 20 n ++ unit) = Ok (Some (n, unit))) as ->.
    { unfold unit. destruct mega; by apply scan_heap_number. }
    erewrite bind_step by reflexivity. cbn beta iota.
    by rewrite (bind_step _ _ _ _ _ (set_heap_size_written n mega s)).
Qed.

Lemma arguments_loop_options os : forall s rest,
  acceptable s os ->
  arguments_loop ((os ≫= written) ++ rest) false [] s = arguments_loop rest false [] (foldl meaning s os).
Proof.
  induction os as [|o os IH]; intros s rest H; [done|]. destruct H as [Ho Hos].
  cbn [mbind list_bind foldl]. rewrite <- app_assoc, arguments_loop_option by done. by apply IH.
Qed.

Lemma arguments_loop_others args : forall vmArgs s,
  arguments_loop args true vmArgs s = Ok (vmArgs ++ args, s).
Proof.
  induction args as [|a args IH]; intros vmArgs s; [by rewrite app_nil_r|].
  cbn [arguments_loop negb andb orb]. rewrite IH. by rewrite <- app_assoc.
Qed.

Lemma arguments_loop_program p args s :
  is_program p = true -> arguments_loop (p :: args) false [] s = Ok (p :: args, s).
Proof.
  unfold is_program. cbn [forallb]. rewrite !andb_true_iff, !negb_true_iff.
  intros (H1 & H2 & H3 & H4 & H5 & H6 & H7 & H8 & _). cbn [arguments_loop negb andb].
  rewrite H1, H2, H3, H4, H5, H6, H7, H8. cbn [orb]. apply arguments_loop_others.
Qed.

Definition suffix_text (suffix : bool) : text := if suffix then of_string ".som" else [].

(** The program as it is written. *)
Definition written_program (dir : option text) (name : text) (suffix : bool) : text :=
  match dir with
  | Some dir => dir ++ fileSeparator :: name ++ suffix_text suffix
  | None => name ++ suffix_text suffix
  end.

(** The suffix, if any, is the only one, and it follows a directory: without a directory
    it would stay ([suffix_stays]). *)
Definition one_suffix (dir : option text) (name : text) (suffix : bool) : Prop :=
  match dir with
  | Some dir =>
      find (of_string ".som") (written_program (Some dir) name suffix) =
      (if suffix then Some (length dir + S (length name))%nat else None)
  | None => suffix = false
  end.

Definition add_paths (ps : list text) (s : Options) : Options := with_classPath (classPath s ++ ps) s.

Lemma getClassPathExt_written dir name suffix :
  fits (written_program dir name suffix) -> fileSeparator ∉ name -> one_suffix dir name suffix ->
  getClassPathExt (written_program dir name suffix) =
  Ok (match dir with
      | Some dir => (true, dir, name)
      | None => (false, [], name)
      end).
Proof.
  intros HF Hn HS. destruct dir as [dir|]; [by apply getClassPathExt_path|].
  cbn in HS. subst. cbn [written_program suffix_text] in *. rewrite app_nil_r in *.
  by apply getClassPathExt_plain.
Qed.

Lemma bind_fails {S A B} (m : stateful S A) (f : A -> stateful S B) s e :
  m s = Err e -> (m ≫= f) s = Err e.
Proof. intros H. unfold mbind, stateful_bind. by rewrite H. Qed.


(** A command line with a class path, options, a program with a directory, and an argument
    that looks like an option. *)
Definition sample_command_line : list text :=
  of_string <$> ["som"; "-cp"; "Smalltalk:lib"; "-d"; "-H16MB"; "Examples/Hello.som"; "-d"]%string.


(** The comment in [getClassPathExt] says that the suffix is to be dropped without a
    directory too, but the start of the name, -1, is compared as an unsigned number. *)
Example suffix_stays : getClassPathExt (of_string "Hello.som") = Ok (false, [], of_string "Hello.som").
Proof. vm_compute. reflexivity. Qed.

(** The first suffix counts, also when it is in the name of the directory. *)
Example suffix_of_directory :
  getClassPathExt (of_string "a.somlib/Hello.som") = Ok (true, of_string "a.somlib", of_string "Hello.som").
Proof. vm_compute. reflexivity. Qed.
