(* ===== verification/CompilerTests.v ===== *)
(** * Compiling concrete methods

    The parser run on the sources of [src/src/unitTests/BytecodeGenerationTest.cpp], with
    the set-up of [TestWithParsing.cpp]. *)
From Stdlib Require Import Ascii String.
From S2P Require Import Prelude Bytecodes InfIntText Lexer Objects Universe MethodGen Inlining Parser.
Local Open Scope Z_scope.

(** ** Set-up *)

Definition bare : obj := OObject KObject Null [].

(** Objects for nil, true, false and the classes, without fields. *)
Definition known_objects : Known :=
  let r (n : nat) : oop := Ref n in
  (mkKnown (r 0) (r 1) (r 2) Null Null (r 10) Null (r 3) (r 7) Null (r 8) (r 6) (r 9) (r 5)
     Null Null (r 4) Null Null (r 11) Null Null Null Null Null Null Null)%nat.

Definition empty_world : World :=
  mkWorld (list_to_map (zip (seq 0 12) (replicate 12 bare))) 12%nat ∅ 0%nat ∅ ∅ ∅
    known_objects None 0%nat 0.

Definition test_class (fields : list string) : V ClassGen :=
  InitializeSymbols;;
  name ← SymbolFor "Test";
  fs ← symbols_for fields;
  ls ← symbols_of fs;
  mret (AddInstanceFields ls (SetClassName name new_ClassGen)).

Definition test_fuel (source : string) : nat := 12 * String.length source + 12.

(** [methodToBytecode] and [blockToBytecode] *)
Definition compile_method (fields : list string) (source : string) : result Gen :=
  match test_class fields empty_world, new_Parser (list_ascii_of_string source) with
  | Ok (c, w), Ok p =>
      match (emit (AddArgument "self" (mkCoord 0 0));; parse_method true (test_fuel source))
              (mkPGen p (mkGen w (new_Mgenc c None) [])) with
      | Ok (_, s) => Ok (pg_gen s)
      | Err e => Err e
      end
  | Err e, _ => Err e
  | _, Err e => Err e
  end.

Definition compile_block (fields : list string) (source : string) : result Gen :=
  match test_class fields empty_world, new_Parser (list_ascii_of_string source) with
  | Ok (c, w), Ok p =>
      match (sig ← SymbolForP "test"; emit (SetSignature sig);;
             emit (AddArgument "self" (mkCoord 0 0)))
              (mkPGen p (mkGen w (new_Mgenc c None) [])) with
      | Ok (_, s) =>
          let g := pg_gen s in
          match nestedBlock true (test_fuel source)
                  (mkPGen (pg_parser s)
                     (mkGen (gen_world g) (new_Mgenc c (Some (gen_mg g))) [gen_mg g])) with
          | Ok (_, s') => Ok (pg_gen s')
          | Err e => Err e
          end
      | Err e => Err e
      end
  | Err e, _ => Err e
  | _, Err e => Err e
  end.

Definition code_of (r : result Gen) : result (list Z) :=
  g ← r; Ok (bytecode (gen_mg g)).

(** [check] of the tests. *)
Definition gives (r : result Gen) (bs : list Z) : Prop := code_of r = Ok bs.

(** ** The tests *)

Local Open Scope string_scope.
Local Arguments cons {A}%_type_scope & _ _%_list_scope.
Local Open Scope Z_scope.

Example testEmptyMethodReturnsSelf :
  gives (compile_method [] "test = ( )")
    [BC_RETURN_SELF].
Proof. by vm_compute. Qed.

Example testPushConstant :
  gives (compile_method [] "
    test = (
      0. 1. nil. #a. true. false.
    ) ")
    [BC_PUSH_0; BC_POP; BC_PUSH_1; BC_POP; BC_PUSH_NIL; BC_POP; BC_PUSH_CONSTANT_0;
     BC_POP; BC_PUSH_CONSTANT_1; BC_POP; BC_PUSH_CONSTANT_2; BC_POP; BC_RETURN_SELF].
Proof. by vm_compute. Qed.

Example testIfPushConstantSame :
  gives (compile_method [] "
    test = (
      #a. #b. #c. #d.
      true ifFalse: [ #a. #b. #c. #d. ]
    ) ")
    [BC_PUSH_CONSTANT_0; BC_POP; BC_PUSH_CONSTANT_1; BC_POP; BC_PUSH_CONSTANT_2; BC_POP;
     BC_PUSH_CONSTANT; 3; BC_POP; BC_PUSH_CONSTANT; 4; BC_JUMP_ON_TRUE_TOP_NIL; 11; 0;
     BC_PUSH_CONSTANT_0; BC_POP; BC_PUSH_CONSTANT_1; BC_POP; BC_PUSH_CONSTANT_2; BC_POP;
     BC_PUSH_CONSTANT; 3; BC_RETURN_SELF].
Proof. by vm_compute. Qed.

Example testIfPushConstantDifferent :
  gives (compile_method [] "
    test = (
      #a. #b. #c. #d.
      true ifFalse: [ #e. #f. #g. #h. ]
    ) ")
    [BC_PUSH_CONSTANT_0; BC_POP; BC_PUSH_CONSTANT_1; BC_POP; BC_PUSH_CONSTANT_2; BC_POP;
     BC_PUSH_CONSTANT; 3; BC_POP; BC_PUSH_CONSTANT; 4; BC_JUMP_ON_TRUE_TOP_NIL; 14; 0;
     BC_PUSH_CONSTANT; 5; BC_POP; BC_PUSH_CONSTANT; 6; BC_POP; BC_PUSH_CONSTANT; 7;
     BC_POP; BC_PUSH_CONSTANT; 8; BC_RETURN_SELF].
Proof. by vm_compute. Qed.

Example testExplicitReturnSelf :
  gives (compile_method [] "test = ( ^ self )")
    [BC_RETURN_SELF].
Proof. by vm_compute. Qed.

Example testDupPopArgumentPop :
  gives (compile_method [] "test: arg = ( arg := 1. ^ self )")
    [BC_PUSH_1; BC_POP_ARGUMENT; 1; 0; BC_RETURN_SELF].
Proof. by vm_compute. Qed.

Example testDupPopArgumentPopImplicitReturnSelf :
  gives (compile_method [] "test: arg = ( arg := 1 )")
    [BC_PUSH_1; BC_POP_ARGUMENT; 1; 0; BC_RETURN_SELF].
Proof. by vm_compute. Qed.

Example testDupPopLocalPop :
  gives (compile_method [] "test = ( | local | local := 1. ^ self )")
    [BC_PUSH_1; BC_POP_LOCAL_0; BC_RETURN_SELF].
Proof. by vm_compute. Qed.

Example testDupPopField0Pop :
  gives (compile_method ["field"]%string "test = ( field := 1. ^ self )")
    [BC_PUSH_1; BC_POP_FIELD_0; BC_RETURN_SELF].
Proof. by vm_compute. Qed.

Example testDupPopFieldPop :
  gives (compile_method ["a"; "b"; "c"; "d"; "field"]%string "test = ( field := 1. ^ self )")
    [BC_PUSH_1; BC_POP_FIELD; 4; BC_RETURN_SELF].
Proof. by vm_compute. Qed.

Example testDupPopFieldReturnSelf :
  gives (compile_method ["field"]%string "test: val = ( field := val )")
    [BC_PUSH_ARG_1; BC_POP_FIELD_0; BC_RETURN_SELF].
Proof. by vm_compute. Qed.

Example testDupPopFieldNReturnSelf :
  gives (compile_method ["a"; "b"; "c"; "d"; "e"; "field"]%string "test: val = ( field := val )")
    [BC_PUSH_ARG_1; BC_POP_FIELD; 5; BC_RETURN_SELF].
Proof. by vm_compute. Qed.

Example testSendDupPopFieldReturnLocal :
  gives (compile_method ["field"]%string "test = ( ^ field := self method )")
    [BC_PUSH_SELF; BC_SEND_1; 0; BC_DUP; BC_POP_FIELD_0; BC_RETURN_LOCAL].
Proof. by vm_compute. Qed.

Example testSendDupPopFieldReturnLocalPeriod :
  gives (compile_method ["field"]%string "test = ( ^ field := self method. )")
    [BC_PUSH_SELF; BC_SEND_1; 0; BC_DUP; BC_POP_FIELD_0; BC_RETURN_LOCAL].
Proof. by vm_compute. Qed.

Example testBlockDupPopArgumentPopReturnArg :
  gives (compile_block [] "[:arg | arg := 1. arg ]")
    [BC_PUSH_1; BC_POP_ARGUMENT; 1; 0; BC_PUSH_ARG_1; BC_RETURN_LOCAL].
Proof. by vm_compute. Qed.

Example testBlockDupPopArgumentImplicitReturn :
  gives (compile_block [] "[:arg | arg := 1 ]")
    [BC_PUSH_1; BC_DUP; BC_POP_ARGUMENT; 1; 0; BC_RETURN_LOCAL].
Proof. by vm_compute. Qed.

Example testBlockDupPopArgumentImplicitReturnDot :
  gives (compile_block [] "[:arg | arg := 1. ]")
    [BC_PUSH_1; BC_DUP; BC_POP_ARGUMENT; 1; 0; BC_RETURN_LOCAL].
Proof. by vm_compute. Qed.

Example testBlockDupPopLocalReturnLocal :
  gives (compile_block [] "[| local | local := 1 ]")
    [BC_PUSH_1; BC_DUP; BC_POP_LOCAL_0; BC_RETURN_LOCAL].
Proof. by vm_compute. Qed.

Example testBlockDupPopFieldReturnLocal :
  gives (compile_block ["field"]%string "[ field := 1 ]")
    [BC_PUSH_1; BC_DUP; BC_POP_FIELD_0; BC_RETURN_LOCAL].
Proof. by vm_compute. Qed.

Example testBlockDupPopFieldReturnLocalDot :
  gives (compile_block ["field"]%string "[ field := 1 ]")
    [BC_PUSH_1; BC_DUP; BC_POP_FIELD_0; BC_RETURN_LOCAL].
Proof. by vm_compute. Qed.

Example testPushLocalOpt :
  gives (compile_method [] "
    test = (
      | l1 l2 l3 l4 |
      l1. l2. l3. l4.
    ) ")
    [BC_PUSH_LOCAL_0; BC_POP; BC_PUSH_LOCAL_1; BC_POP; BC_PUSH_LOCAL_2; BC_POP;
     BC_PUSH_LOCAL; 3; 0; BC_POP; BC_RETURN_SELF].
Proof. by vm_compute. Qed.

Example testPushArgOpt :
  gives (compile_method [] "
    test: a1 and: a2 and: a3 and: a4 = (
      self. a1. a2. a3. a4.
    ) ")
    [BC_PUSH_SELF; BC_POP; BC_PUSH_ARG_1; BC_POP; BC_PUSH_ARG_2; BC_POP;
     BC_PUSH_ARGUMENT; 3; 0; BC_POP; BC_PUSH_ARGUMENT; 4; 0; BC_POP; BC_RETURN_SELF].
Proof. by vm_compute. Qed.

Example testPushFieldOpt :
  gives (compile_method ["f1"; "f2"; "f3"; "f4"]%string "test = ( f1. f2. f3. f4 )")
    [BC_PUSH_FIELD_0; BC_POP; BC_PUSH_FIELD_1; BC_POP; BC_PUSH_FIELD; 2; BC_POP;
     BC_PUSH_FIELD; 3; BC_RETURN_SELF].
Proof. by vm_compute. Qed.

Example testBlockPushFieldOpt :
  gives (compile_block ["f1"; "f2"; "f3"; "f4"]%string "[ f1. f2. f3. f4 ]")
    [BC_PUSH_FIELD_0; BC_POP; BC_PUSH_FIELD_1; BC_POP; BC_PUSH_FIELD; 2; BC_POP;
     BC_PUSH_FIELD; 3; BC_RETURN_LOCAL].
Proof. by vm_compute. Qed.

Example testPopLocalOpt :
  gives (compile_method [] "
    test = (
      | l1 l2 l3 l4 l5 |
      l1 := 1.
      l2 := 1.
      l3 := 1.
      l4 := 1.
      l5 := 1.
    ) ")
    [BC_PUSH_1; BC_POP_LOCAL_0; BC_PUSH_1; BC_POP_LOCAL_1; BC_PUSH_1; BC_POP_LOCAL_2;
     BC_PUSH_1; BC_POP_LOCAL; 3; 0; BC_PUSH_1; BC_POP_LOCAL; 4; 0; BC_RETURN_SELF].
Proof. by vm_compute. Qed.

Example testPopFieldOpt :
  gives (compile_method ["f1"; "f2"; "f3"; "f4"]%string "
    test = (
      f1 := 1.
      f2 := 1.
      f3 := 1.
      f4 := 1.
    ) ")
    [BC_PUSH_1; BC_POP_FIELD_0; BC_PUSH_1; BC_POP_FIELD_1; BC_PUSH_1; BC_POP_FIELD; 2;
     BC_PUSH_1; BC_POP_FIELD; 3; BC_RETURN_SELF].
Proof. by vm_compute. Qed.

Example testInliningWhileLoopsWithExpandingBranches :
  gives (compile_method [] "
    test = (
      #const0. #const1. #const2.
      0 ifTrue: [
        [ #const3. #const4. #const5 ]
           whileTrue: [
             #const6. #const7. #const8 ]
      ].
      ^ #end
    )  ")
    [BC_PUSH_CONSTANT_0; BC_POP; BC_PUSH_CONSTANT_1; BC_POP; BC_PUSH_CONSTANT_2; BC_POP;
     BC_PUSH_0; BC_JUMP_ON_FALSE_TOP_NIL; 27; 0; BC_PUSH_CONSTANT; 3; BC_POP;
     BC_PUSH_CONSTANT; 4; BC_POP; BC_PUSH_CONSTANT; 5; BC_JUMP_ON_FALSE_POP; 15; 0;
     BC_PUSH_CONSTANT; 6; BC_POP; BC_PUSH_CONSTANT; 7; BC_POP; BC_PUSH_CONSTANT; 8;
     BC_POP; BC_JUMP_BACKWARD; 20; 0; BC_PUSH_NIL; BC_POP; BC_PUSH_CONSTANT; 9;
     BC_RETURN_LOCAL].
Proof. by vm_compute. Qed.

Example testInliningWhileLoopsWithContractingBranches :
  gives (compile_method [] "
    test = (
    0 ifTrue: [
        [ ^ 1 ]
            whileTrue: [
            ^ 0 ]
    ].
    ^ #end
    ) ")
    [BC_PUSH_0; BC_JUMP_ON_FALSE_TOP_NIL; 15; 0; BC_PUSH_1; BC_RETURN_LOCAL;
     BC_JUMP_ON_FALSE_POP; 9; 0; BC_PUSH_0; BC_RETURN_LOCAL; BC_POP; BC_JUMP_BACKWARD; 8;
     0; BC_PUSH_NIL; BC_POP; BC_PUSH_CONSTANT_0; BC_RETURN_LOCAL].
Proof. by vm_compute. Qed.

Example testIfTrueIfFalseArg :
  gives (compile_method [] " test: arg1 with: arg2 = (
        #start.
        self method ifTrue: [ arg1 ] ifFalse: [ arg2 ].
        #end
    ) ")
    [BC_PUSH_CONSTANT_0; BC_POP; BC_PUSH_SELF; BC_SEND_1; 1; BC_JUMP_ON_FALSE_POP; 7; 0;
     BC_PUSH_ARG_1; BC_JUMP; 4; 0; BC_PUSH_ARG_2; BC_POP; BC_PUSH_CONSTANT_2;
     BC_RETURN_SELF].
Proof. by vm_compute. Qed.

Example testIfTrueIfFalseNlrArg1 :
  gives (compile_method [] " test: arg1 with: arg2 = (
        #start.
        self method ifTrue: [ ^ arg1 ] ifFalse: [ arg2 ].
        #end
    ) ")
    [BC_PUSH_CONSTANT_0; BC_POP; BC_PUSH_SELF; BC_SEND_1; 1; BC_JUMP_ON_FALSE_POP; 8; 0;
     BC_PUSH_ARG_1; BC_RETURN_LOCAL; BC_JUMP; 4; 0; BC_PUSH_ARG_2; BC_POP;
     BC_PUSH_CONSTANT_2; BC_RETURN_SELF].
Proof. by vm_compute. Qed.

Example testIfTrueIfFalseNlrArg2 :
  gives (compile_method [] " test: arg1 with: arg2 = (
        #start.
        self method ifTrue: [ arg1 ] ifFalse: [ ^ arg2 ].
        #end
    ) ")
    [BC_PUSH_CONSTANT_0; BC_POP; BC_PUSH_SELF; BC_SEND_1; 1; BC_JUMP_ON_FALSE_POP; 7; 0;
     BC_PUSH_ARG_1; BC_JUMP; 5; 0; BC_PUSH_ARG_2; BC_RETURN_LOCAL; BC_POP;
     BC_PUSH_CONSTANT_2; BC_RETURN_SELF].
Proof. by vm_compute. Qed.

Example testInliningOfToDo :
  gives (compile_method [] "test = ( 1 to: 2 do: [:i | i ] )")
    [BC_PUSH_1; BC_PUSH_CONSTANT_0; BC_DUP_SECOND; BC_JUMP_IF_GREATER; 11; 0; BC_DUP;
     BC_POP_LOCAL_0; BC_PUSH_LOCAL_0; BC_POP; BC_INC; BC_JUMP_BACKWARD; 8; 0;
     BC_RETURN_SELF].
Proof. by vm_compute. Qed.

Example testToDoBlockBlockInlinedSelf :
  gives (compile_method [] "
    test = (
      | l1 l2 |
      1 to: 2 do: [:a |
          l1 do: [:b |
          b ifTrue: [
              a.
              l2 := l2 + 1 ] ] ]
    ) ")
    [BC_PUSH_1; BC_PUSH_CONSTANT_0; BC_DUP_SECOND; BC_JUMP_IF_GREATER; 15; 0; BC_DUP;
     BC_POP_LOCAL_2; BC_PUSH_LOCAL_0; BC_PUSH_BLOCK; 1; BC_SEND; 2; BC_POP; BC_INC;
     BC_JUMP_BACKWARD; 12; 0; BC_RETURN_SELF].
Proof. by vm_compute. Qed.

Example testToDoWithMoreEmbeddedBlocksAndArgAccess :
  gives (compile_method [] "
    transferEntries: oldStorage = (
      1 to: oldStorage length do: [:i |
        | current |
        current := oldStorage at: i.
        current notInlined: [
          oldStorage at: i put: nil.
          current next
            noInline: [ i. current. #foo ]
            noInline: [
              self splitBucket: oldStorage bucket: i head: current ] ] ]
    ) ")
    [BC_PUSH_1; BC_PUSH_ARG_1; BC_SEND_1; 0; BC_DUP_SECOND; BC_JUMP_IF_GREATER; 20; 0;
     BC_DUP; BC_POP_LOCAL_0; BC_PUSH_ARG_1; BC_PUSH_LOCAL_0; BC_SEND; 1; BC_POP_LOCAL_1;
     BC_PUSH_LOCAL_1; BC_PUSH_BLOCK; 2; BC_SEND; 3; BC_POP; BC_INC; BC_JUMP_BACKWARD; 17;
     0; BC_RETURN_SELF].
Proof. by vm_compute. Qed.

Example testKeywordIfTrueArg :
  gives (compile_method [] "      test: arg = (
        #start.
        (self key: 5) ifTrue: [ arg ].
        #end
    ) ")
    [BC_PUSH_CONSTANT_0; BC_POP; BC_PUSH_SELF; BC_PUSH_CONSTANT_1; BC_SEND; 2;
     BC_JUMP_ON_FALSE_TOP_NIL; 4; 0; BC_PUSH_ARG_1; BC_POP; BC_PUSH_CONSTANT; 3;
     BC_RETURN_SELF].
Proof. by vm_compute. Qed.

Example testNestedIfs :
  gives (compile_method ["field"]%string "      test: arg = (
        true ifTrue: [
            false ifFalse: [
              ^ field - arg
            ]
        ]
    ) ")
    [BC_PUSH_CONSTANT_0; BC_JUMP_ON_FALSE_TOP_NIL; 12; 0; BC_PUSH_CONSTANT_1;
     BC_JUMP_ON_TRUE_TOP_NIL; 8; 0; BC_PUSH_FIELD_0; BC_PUSH_ARG_1; BC_SEND; 2;
     BC_RETURN_LOCAL; BC_RETURN_SELF].
Proof. by vm_compute. Qed.

Example testNestedIfsAndLocals :
  gives (compile_method ["field"]%string "
        test: arg = (
           | a b c d |
           a := b.
           true ifTrue: [
             | e f g |
             e := 2.
             c := 3.
             false ifFalse: [
               | h i j |
               h := 1.
               ^ i - j - f - g - d ] ] )
    ")
    [BC_PUSH_LOCAL_1; BC_POP_LOCAL_0; BC_PUSH_CONSTANT_0; BC_JUMP_ON_FALSE_TOP_NIL; 42;
     0; BC_PUSH_CONSTANT_1; BC_POP_LOCAL; 4; 0; BC_PUSH_CONSTANT_2; BC_POP_LOCAL_2;
     BC_PUSH_CONSTANT; 3; BC_JUMP_ON_TRUE_TOP_NIL; 31; 0; BC_PUSH_1; BC_POP_LOCAL; 7; 0;
     BC_PUSH_LOCAL; 8; 0; BC_PUSH_LOCAL; 9; 0; BC_SEND; 4; BC_PUSH_LOCAL; 5; 0; BC_SEND;
     4; BC_PUSH_LOCAL; 6; 0; BC_SEND; 4; BC_PUSH_LOCAL; 3; 0; BC_SEND; 4;
     BC_RETURN_LOCAL; BC_RETURN_SELF].
Proof. by vm_compute. Qed.

Example testIfTrueAndIncField :
  gives (compile_method ["field"]%string "
    test: arg = (
        #start.
        (self key: 5) ifTrue: [ field := field + 1 ].
        #end
    ) ")
    [BC_PUSH_CONSTANT_0; BC_POP; BC_PUSH_SELF; BC_PUSH_CONSTANT_1; BC_SEND; 2;
     BC_JUMP_ON_FALSE_TOP_NIL; 5; 0; BC_INC_FIELD_PUSH; 0; BC_POP; BC_PUSH_CONSTANT; 3;
     BC_RETURN_SELF].
Proof. by vm_compute. Qed.

Example testIfTrueAndIncArg :
  gives (compile_method [] "
    test: arg = (
        #start.
        (self key: 5) ifTrue: [ arg + 1 ].
        #end
    ) ")
    [BC_PUSH_CONSTANT_0; BC_POP; BC_PUSH_SELF; BC_PUSH_CONSTANT_1; BC_SEND; 2;
     BC_JUMP_ON_FALSE_TOP_NIL; 5; 0; BC_PUSH_ARG_1; BC_INC; BC_POP; BC_PUSH_CONSTANT; 3;
     BC_RETURN_SELF].
Proof. by vm_compute. Qed.

Example testBlockIfTrueArg :
  gives (compile_block [] "
    [:arg | #start.
        self method ifTrue: [ arg ].
        #end
    ] ")
    [BC_PUSH_CONSTANT_0; BC_POP; BC_PUSH_ARGUMENT; 0; 1; BC_SEND_1; 1;
     BC_JUMP_ON_FALSE_TOP_NIL; 4; 0; BC_PUSH_ARG_1; BC_POP; BC_PUSH_CONSTANT_2;
     BC_RETURN_LOCAL].
Proof. by vm_compute. Qed.

Example testFieldReadInlining :
  gives (compile_method ["field"]%string "test = ( true and: [ field ] )")
    [BC_PUSH_CONSTANT_0; BC_JUMP_ON_FALSE_POP; 7; 0; BC_PUSH_FIELD_0; BC_JUMP; 4; 0;
     BC_PUSH_CONSTANT_1; BC_RETURN_SELF].
Proof. by vm_compute. Qed.

(** ** Methods the compiler does not accept, or compiles differently than the same
    code elsewhere *)

(** The loop variable is the last argument of the block; without one, [vector::at]
    fails. *)
Example to_do_without_parameter :
  compile_method [] "test = ( 1 to: 5 do: [ 3 ] )" = Err (ErrorExit "std::out_of_range").
Proof. by vm_compute. Qed.

(** An assignment to the parameter is a [POP_ARGUMENT] of context level 0, which
    becomes 255 in the inlined copy. *)
Example to_do_assigns_parameter :
  compile_method [] "test = ( 1 to: 3 do: [:i | i := 5 ] )" = Err ParseError.
Proof. by vm_compute. Qed.

(** A block whose code ends in [RETURN_FIELD_0], inside a block that is inlined. *)
Example nested_block_returns_field :
  compile_method ["a"] "test = ( true ifTrue: [ #foo bar: [ #f foo. a ] ] )" =
  Err (ErrorExit
    "AdaptAfterOuterInlined: Found bytecode, but it's not expected in a block method").
Proof. by vm_compute. Qed.

(** The jump of [to:do:] is missing in [AdaptAfterOuterInlined]. *)
Example nested_to_do :
  compile_method [] "test = ( true ifTrue: [ #foo bar: [ 1 to: 2 do: [:i | i foo ]. #r ] ] )" =
  Err (ErrorExit "Found bytecode, but AdaptAfterOuterInlined does not yet support it.").
Proof. by vm_compute. Qed.

(** After an inlined [ifTrue:] the pop of an assignment is not optimised any more. *)
Example assignment_after_if :
  gives (compile_method ["f"] "test: x = ( f := x. true ifTrue: [ 1 ]. f := x )")
    [BC_PUSH_ARG_1; BC_POP_FIELD_0; BC_PUSH_CONSTANT_0; BC_JUMP_ON_FALSE_TOP_NIL; 4; 0;
     BC_PUSH_1; BC_POP; BC_PUSH_ARG_1; BC_DUP; BC_POP_FIELD_0; BC_RETURN_SELF].
Proof. by vm_compute. Qed.
