(* ===== verification/SchemeTests.v ===== *)
(** * More of the compiler's tests

    The tests of [src/src/unitTests/BytecodeGenerationTest.cpp] that run a scheme of a
    method with several parameters, and [src/src/unitTests/TrivialMethodTest.cpp]. *)
From Stdlib Require Import Ascii String.
From stdpp Require Import gmap.
From S2P Require Import Prelude Bytecodes Lexer Objects Universe MethodGen Inlining Parser CompilerTests.
Local Open Scope Z_scope.

(** ** Code *)

Definition code_is (r : result Gen) (bs : list Z) : bool :=
  match code_of r with Ok l => bool_decide (l = bs) | Err _ => false end.

(** The method of a scheme has the expected code for each of the parameters. *)
Definition each {A} (scheme : A -> bool) (parameters : list A) : bool := forallb scheme parameters.

Local Open Scope string_scope.
Local Arguments cons {A}%_type_scope & _ _%_list_scope.
Local Arguments app {A}%_type_scope & _ _%_list_scope.
Local Open Scope Z_scope.

Definition ifArg (p : string * Z) : bool :=
  code_is (compile_method [] ("test: arg = ( #start. self method " ++ p.1 ++ " [ arg ]. #end )")%string)
    [BC_PUSH_CONSTANT_0; BC_POP; BC_PUSH_SELF; BC_SEND_1; 1; p.2; 4; 0; BC_PUSH_ARG_1; BC_POP;
     BC_PUSH_CONSTANT_2; BC_RETURN_SELF].

Example testIfArg :
  each ifArg [("ifTrue:", code BC_JUMP_ON_FALSE_TOP_NIL); ("ifFalse:", code BC_JUMP_ON_TRUE_TOP_NIL);
              ("ifNil:", code BC_JUMP_ON_NOT_NIL_TOP_TOP); ("ifNotNil:", code BC_JUMP_ON_NIL_TOP_TOP)] = true.
Proof. by vm_compute. Qed.

Definition ifReturnNonLocal (p : string * Z) : bool :=
  code_is (compile_method [] ("test: arg = ( #start. self method " ++ p.1 ++ " [ ^ arg ]. #end )")%string)
    [BC_PUSH_CONSTANT_0; BC_POP; BC_PUSH_SELF; BC_SEND_1; 1; p.2; 5; 0; BC_PUSH_ARG_1; BC_RETURN_LOCAL;
     BC_POP; BC_PUSH_CONSTANT_2; BC_RETURN_SELF].

Example testIfReturnNonLocal :
  each ifReturnNonLocal [("ifTrue:", code BC_JUMP_ON_FALSE_TOP_NIL);
                         ("ifFalse:", code BC_JUMP_ON_TRUE_TOP_NIL)] = true.
Proof. by vm_compute. Qed.

Definition blockIfReturnNonLocal (p : string * Z) : bool :=
  code_is (compile_block [] ("[:arg | #start. self method " ++ p.1 ++ " [ ^ arg ]. #end ]")%string)
    [BC_PUSH_CONSTANT_0; BC_POP; BC_PUSH_ARGUMENT; 0; 1; BC_SEND_1; 1; p.2; 5; 0; BC_PUSH_ARG_1;
     BC_RETURN_NON_LOCAL; BC_POP; BC_PUSH_CONSTANT_2; BC_RETURN_LOCAL].

Example testBlockIfReturnNonLocal :
  each blockIfReturnNonLocal [("ifTrue:", code BC_JUMP_ON_FALSE_TOP_NIL);
                              ("ifFalse:", code BC_JUMP_ON_TRUE_TOP_NIL)] = true.
Proof. by vm_compute. Qed.

Definition ifTrueIfFalseReturn (p : string * string * Z) : bool :=
  let '(sel1, sel2, bc) := p in
  code_is (compile_method [] ("test: arg1 with: arg2 = ( #start. ^ self method " ++ sel1 ++ " [ ^ arg1 ] "
                              ++ sel2 ++ " [ arg2 ] )")%string)
    [BC_PUSH_CONSTANT_0; BC_POP; BC_PUSH_SELF; BC_SEND_1; 1; bc; 8; 0; BC_PUSH_ARG_1; BC_RETURN_LOCAL;
     BC_JUMP; 4; 0; BC_PUSH_ARG_2; BC_RETURN_LOCAL].

Example testIfTrueIfFalseReturn :
  each ifTrueIfFalseReturn
    [("ifTrue:", "ifFalse:", code BC_JUMP_ON_FALSE_POP); ("ifFalse:", "ifTrue:", code BC_JUMP_ON_TRUE_POP);
     ("ifNil:", "ifNotNil:", code BC_JUMP_ON_NOT_NIL_POP); ("ifNotNil:", "ifNil:", code BC_JUMP_ON_NIL_POP)]
  = true.
Proof. by vm_compute. Qed.

(** The literals of several tests: in a block that is inlined they are the constant [n],
    and globals and blocks take two bytes. *)
Definition literals_at (n : Z) : list (string * list Z) :=
  let c := if n =? 1 then code BC_PUSH_CONSTANT_1 else code BC_PUSH_CONSTANT_2 in
  [("0", [code BC_PUSH_0]); ("1", [code BC_PUSH_1]); ("-10", [c]); ("3333", [c]); ("'str'", [c]); ("#sym", [c]);
   ("1.1", [c]); ("-2342.234", [c]); ("true", [c]); ("false", [c]); ("nil", [code BC_PUSH_NIL]);
   ("SomeGlobal", [code BC_PUSH_GLOBAL; n]); ("[]", [code BC_PUSH_BLOCK; n]); ("[ self ]", [code BC_PUSH_BLOCK; n])].

Definition ifTrueWithLiteralReturn (p : string * list Z) : bool :=
  code_is (compile_method [] ("test = ( self method ifTrue: [ " ++ p.1 ++ " ]. )")%string)
    ([code BC_PUSH_SELF; code BC_SEND_1; 0; code BC_JUMP_ON_FALSE_TOP_NIL; 3 + Z.of_nat (length p.2); 0]
     ++ p.2 ++ [code BC_POP; code BC_RETURN_SELF])%list.

Example testIfTrueWithLiteralReturn : each ifTrueWithLiteralReturn (literals_at 1) = true.
Proof. by vm_compute. Qed.

Definition ifTrueWithSomethingAndLiteralReturn (p : string * list Z) : bool :=
  code_is (compile_method [] ("test = ( self method ifTrue: [ #fooBarNonTrivialBlock. " ++ p.1 ++ " ]. )")%string)
    ([code BC_PUSH_SELF; code BC_SEND_1; 0; code BC_JUMP_ON_FALSE_TOP_NIL; 5 + Z.of_nat (length p.2); 0;
      code BC_PUSH_CONSTANT_1; code BC_POP] ++ p.2 ++ [code BC_POP; code BC_RETURN_SELF])%list.

Example testIfTrueWithSomethingAndLiteralReturn :
  each ifTrueWithSomethingAndLiteralReturn (literals_at 2) = true.
Proof. by vm_compute. Qed.

(** The literal [true] is the receiver too. *)
Definition trivialMethodInlining (p : string * list Z) : bool :=
  code_is (compile_method [] ("test = ( true ifTrue: [ " ++ p.1 ++ " ] )")%string)
    ([code BC_PUSH_CONSTANT_0; code BC_JUMP_ON_FALSE_TOP_NIL; 3 + Z.of_nat (length p.2); 0]
     ++ p.2 ++ [code BC_RETURN_SELF])%list.

Example testTrivialMethodInlining :
  each trivialMethodInlining
    (("true", [code BC_PUSH_CONSTANT_0]) :: ("Nil", [code BC_PUSH_GLOBAL; 1])
     :: ("UnknownGlobal", [code BC_PUSH_GLOBAL; 1])
     :: filter (fun p => p.1 <> "true"%string) (literals_at 1)) = true.
Proof. by vm_compute. Qed.

Definition incDecBytecodes (p : string * Z) : bool :=
  code_is (compile_method [] ("test = ( 1 " ++ p.1 ++ " 1 )")%string) [BC_PUSH_1; p.2; BC_RETURN_SELF].

Example testIncDecBytecodes : each incDecBytecodes [("+", code BC_INC); ("-", code BC_DEC)] = true.
Proof. by vm_compute. Qed.

(** Methods of a class with seven fields. *)
Definition seven : list string := ["field0"; "field1"; "field2"; "field3"; "field4"; "field5"; "field6"].
Definition numbered : list (string * Z) := zip seven [0; 1; 2; 3; 4; 5; 6].

Definition incField (p : string * Z) : bool :=
  code_is (compile_method seven ("test = ( " ++ p.1 ++ " := " ++ p.1 ++ " + 1 )")%string)
    [BC_INC_FIELD; p.2; BC_RETURN_SELF].

Example testIncField : each incField numbered = true.
Proof. by vm_compute. Qed.

Definition incFieldNonTrivial (p : string * Z) : bool :=
  code_is (compile_method seven ("test = ( 1. " ++ p.1 ++ " := " ++ p.1 ++ " + 1. 2 )")%string)
    [BC_PUSH_1; BC_POP; BC_INC_FIELD; p.2; BC_PUSH_CONSTANT_0; BC_RETURN_SELF].

Example testIncFieldNonTrivial : each incFieldNonTrivial numbered = true.
Proof. by vm_compute. Qed.

Definition returnIncField (p : string * Z) : bool :=
  code_is (compile_method seven ("test = ( #foo. ^ " ++ p.1 ++ " := " ++ p.1 ++ " + 1 )")%string)
    [BC_PUSH_CONSTANT_0; BC_POP; BC_INC_FIELD_PUSH; p.2; BC_RETURN_LOCAL].

Example testReturnIncField : each returnIncField numbered = true.
Proof. by vm_compute. Qed.

Definition returnIncFieldFromBlock (p : string * Z) : bool :=
  code_is (compile_block seven ("[ #foo. " ++ p.1 ++ " := " ++ p.1 ++ " + 1 ]")%string)
    [BC_PUSH_CONSTANT_0; BC_POP; BC_INC_FIELD_PUSH; p.2; BC_RETURN_LOCAL].

Example testReturnIncFieldFromBlock : each returnIncFieldFromBlock numbered = true.
Proof. by vm_compute. Qed.

Definition returnField (p : string * Z) : bool :=
  code_is (compile_method seven ("test = ( 1. ^ " ++ p.1 ++ ")")%string)
    ([code BC_PUSH_1; code BC_POP] ++
     match p.2 with
     | 0 => [code BC_RETURN_FIELD_0]
     | 1 => [code BC_RETURN_FIELD_1]
     | 2 => [code BC_RETURN_FIELD_2]
     | n => [code BC_PUSH_FIELD; n; code BC_RETURN_LOCAL]
     end)%list.

Example testReturnField : each returnField numbered = true.
Proof. by vm_compute. Qed.

Definition inliningOfOr (selector : string) : bool :=
  code_is (compile_method [] ("test = ( true " ++ selector ++ " [ #val ] )")%string)
    [BC_PUSH_CONSTANT_0; BC_JUMP_ON_TRUE_POP; 7; 0; BC_PUSH_CONSTANT_1; BC_JUMP; 4; 0; BC_PUSH_CONSTANT_0;
     BC_RETURN_SELF].

Example testInliningOfOr : each inliningOfOr ["or:"; "||"] = true.
Proof. by vm_compute. Qed.

Definition inliningOfAnd (selector : string) : bool :=
  code_is (compile_method [] ("test = ( true " ++ selector ++ " [ #val ] )")%string)
    [BC_PUSH_CONSTANT_0; BC_JUMP_ON_FALSE_POP; 7; 0; BC_PUSH_CONSTANT_1; BC_JUMP; 4; 0; BC_PUSH_CONSTANT_2;
     BC_RETURN_SELF].

Example testInliningOfAnd : each inliningOfAnd ["and:"; "&&"] = true.
Proof. by vm_compute. Qed.

Example testIfInlineAndConstantBcLength :
  (bs ← code_of (compile_method [] "test = ( #a. #b. #c. true ifTrue: [ true ifFalse: [ #e. #f. #g ] ] )");
   Ok (bs !! 13%nat, bs !! 14%nat)) = Ok (Some (code BC_JUMP_ON_TRUE_TOP_NIL), Some 11).
Proof. by vm_compute. Qed.

Example testFieldReadIncWrite :
  gives (compile_method ["counter"] "benchmark = ( | iter |
      counter := 0. iter := 20000.
      [ iter > 0 ] whileTrue: [ iter := iter - 1. counter := counter + 1. counter := counter + 1. ].
      ^ counter )")
    [BC_PUSH_0; BC_POP_FIELD_0; BC_PUSH_CONSTANT_0; BC_POP_LOCAL_0; BC_PUSH_LOCAL_0; BC_PUSH_0; BC_SEND; 1;
     BC_JUMP_ON_FALSE_POP; 14; 0; BC_PUSH_LOCAL_0; BC_DEC; BC_POP_LOCAL_0; BC_INC_FIELD; 0;
     BC_INC_FIELD_PUSH; 0; BC_POP; BC_JUMP_BACKWARD; 15; 0; BC_PUSH_NIL; BC_POP; BC_RETURN_FIELD_0].
Proof. by vm_compute. Qed.

(** The queues are ordered by their first numbers. *)
Example testJumpQueuesOrdering :
  originalJumpTargetIdx <$> foldr (insert_by originalJumpTargetIdx) []
    [mkJump 2 0; mkJump 8 0; mkJump 5 0; mkJump 1 0] = [1; 2; 5; 8] /\
  loopBeginIdx <$> foldr (insert_by loopBeginIdx) [] [mkBackJump 54 54; mkBackJump 3 12; mkBackJump 13 9]
    = [3; 13; 54] /\
  backwardsJumpIdx <$> foldr (insert_by backwardsJumpIdx) [] [mkPatch 12 55; mkPatch 32 44; mkPatch 3 2]
    = [3; 12; 32].
Proof. by vm_compute. Qed.

(** The method around the block has an argument. *)
Definition compile_block_with (argument source : string) : result Gen :=
  match test_class [] empty_world, new_Parser (list_ascii_of_string source) with
  | Ok (c, w), Ok p =>
      match (sig ← SymbolForP "test"; emit (SetSignature sig);;
             emit (AddArgument "self" (mkCoord 0 0));; emit (AddArgument argument (mkCoord 1 1)))
              (mkPGen p (mkGen w (new_Mgenc c None) [])) with
      | Ok (_, s) =>
          let g := pg_gen s in
          match nestedBlock true (test_fuel source)
                  (mkPGen (pg_parser s)
                     (mkGen (gen_world g) (new_Mgenc c (Some (gen_mg g))) [gen_mg g])) with
          | Ok (_, s') => Ok (pg_gen s')
          | Err e => Err e
          end
      | Err e => Err e
      end
  | Err e, _ => Err e
  | _, Err e => Err e
  end.

Example testBlockIfTrueMethodArg :
  gives (compile_block_with "arg" "[ #start. self method ifTrue: [ arg ]. #end ]")
    [BC_PUSH_CONSTANT_0; BC_POP; BC_PUSH_ARGUMENT; 0; 1; BC_SEND_1; 1; BC_JUMP_ON_FALSE_TOP_NIL; 6; 0;
     BC_PUSH_ARGUMENT; 1; 1; BC_POP; BC_PUSH_CONSTANT_2; BC_RETURN_LOCAL].
Proof. by vm_compute. Qed.

(** ** Trivial methods *)

(** The invokable that is assembled of a method. *)
Definition assembled (r : result Gen) : option obj :=
  match r with
  | Ok g =>
      match Assemble true g with Ok (l, g') => heap (gen_world g') !! l | Err _ => None end
  | Err _ => None
  end.

Definition IsLiteralReturn (r : result Gen) : bool :=
  match assembled r with Some (OTrivial _ _ _ _ (VMLiteralReturn _)) => true | _ => false end.
Definition IsGlobalReturn (r : result Gen) : bool :=
  match assembled r with Some (OTrivial _ _ _ _ (VMGlobalReturn _)) => true | _ => false end.
Definition IsGetter (r : result Gen) : bool :=
  match assembled r with Some (OTrivial _ _ _ _ (VMGetter _)) => true | _ => false end.
Definition IsSetter (r : result Gen) : bool :=
  match assembled r with Some (OTrivial _ _ _ _ (VMSetter _ _)) => true | _ => false end.
Definition IsVMMethod (r : result Gen) : bool :=
  match assembled r with Some (OMethod _) => true | _ => false end.

Definition test_literals : list string :=
  ["0"; "1"; "-10"; "3333"; "'str'"; "#sym"; "1.1"; "-2342.234"; "true"; "false"; "nil"].

Example testLiteralReturn :
  each (fun s => IsLiteralReturn (compile_method [] ("test = ( ^ " ++ s ++ " )")%string)) test_literals = true.
Proof. by vm_compute. Qed.

Example testBlockLiteralReturn :
  each (fun s => IsLiteralReturn (compile_block [] ("[ " ++ s ++ " ]")%string)) test_literals = true.
Proof. by vm_compute. Qed.

Example testLiteralNoReturn :
  each (fun s => IsVMMethod (compile_method [] ("test = ( " ++ s ++ " )")%string)) test_literals = true.
Proof. by vm_compute. Qed.

Example testNonTrivialLiteralReturn :
  each (fun s => IsVMMethod (compile_method [] ("test = ( 1. ^ " ++ s ++ " )")%string)) test_literals = true.
Proof. by vm_compute. Qed.

Example testGlobalReturn :
  each (fun s => IsGlobalReturn (compile_method [] ("test = ( ^ " ++ s ++ " )")%string))
    ["Nil"; "system"; "MyClassFooBar"] = true.
Proof. by vm_compute. Qed.

Example testNonTrivialGlobalReturn : IsVMMethod (compile_method [] "test = ( #foo. ^ system )") = true.
Proof. by vm_compute. Qed.

Example testUnknownGlobalInBlock : IsGlobalReturn (compile_block [] "[ UnknownGlobalSSSS ]") = true.
Proof. by vm_compute. Qed.

Definition six : list string := ["a"; "b"; "c"; "d"; "e"; "field"].

(** With the field as the first one, and as the sixth. *)
Example testFieldGetter :
  each (fun fs => IsGetter (compile_method fs "test = ( ^ field )")) [["field"]; six] = true /\
  each (fun fs => IsVMMethod (compile_method fs "test = ( 0. ^ field )")) [["field"]; six] = true.
Proof. by vm_compute. Qed.

(** The setter with its field, its argument and the number of arguments. *)
Definition setter_is (r : result Gen) (field arg : Z) (n : nat) : bool :=
  match assembled r with
  | Some (OTrivial _ _ n' _ (VMSetter f a)) => (f =? field) && (a =? arg) && (n' =? n)%nat
  | _ => false
  end.

Example testFieldSetter0 :
  each (fun s => setter_is (compile_method ["field"] ("test: val = ( " ++ s ++ " )")%string) 0 1 2)
    ["field := val"; "field := val."; "field := val. ^ self"] = true.
Proof. by vm_compute. Qed.

Example testFieldSetterN :
  each (fun s => setter_is (compile_method six ("a: arg1 b: arg2 c: arg3 = ( " ++ s ++ " )")%string) 5 2 4)
    ["field := arg2"; "field := arg2."; "field := arg2. ^ self"] = true.
Proof. by vm_compute. Qed.

Example testNonTrivialFieldSetter :
  each (fun fs => IsVMMethod (compile_method fs "test: val = ( 0. field := val )")) [["field"]; six] = true.
Proof. by vm_compute. Qed.

Example testBlockReturn : IsVMMethod (compile_method [] "test = ( ^ [] )") = true.
Proof. by vm_compute. Qed.
