(* ===== verification/Disassembler.v ===== *)
(** * The disassembler and debug output

    [src/src/compiler/Disassembler.cpp] with the output functions of [misc/debug.h] and
    [misc/debug.cpp], [Dump] of the invokables, and [AsDebugString] of every class of
    objects.  What is printed goes to [env_ErrorPrint], one call for each call of the
    output function; a number that [%d] prints is cut to an [int].  An address is what
    [env_address] says. *)
From Stdlib Require Import Ascii String SpecFloat.
From S2P Require Import Prelude Bytecodes InfIntText IntegerPrims Objects Universe Doubles Frame.
From S2P Require Import Interpreter Natives MethodGen.
Local Open Scope Z_scope.

(** ** Formats *)

Definition codes (cs : list Z) : string := string_of_list_ascii (of_chr <$> cs).
Definition tab : string := codes [9].
Definition quote : string := codes [34].

Definition spaces (c : Z) (n : nat) : string := codes (replicate n c).

(** [%ns], [%-ns] and, for a number that is not negative, [%0nd] *)
Definition pad_left (c : Z) (n : nat) (s : string) : string := spaces c (n - String.length s) ++ s.
Definition pad_right (n : nat) (s : string) : string := s ++ spaces 32 (n - String.length s).

(** [%lld] and [%d] *)
Definition fmt_lld (z : Z) : string := string_of_list_ascii (print_int64 z).
Definition fmt_d (z : Z) : string := fmt_lld (i32 z).

(** [% 10lld]: a space in place of the plus sign *)
Definition fmt_indent (z : Z) : string :=
  pad_left 32 10 (if z <? 0 then fmt_lld z else " " ++ fmt_lld z).

(** [%p] *)
Definition hex_digit (z : Z) : Z := if z <? 10 then 48 + z else 87 + z.

Fixpoint hex (fuel : nat) (z : Z) : list Z :=
  match fuel with
  | O => []
  | S fuel => if z <? 16 then [hex_digit z] else hex fuel (z / 16) ++ [hex_digit (z mod 16)]
  end.

Definition fmt_p (z : Z) : string := if z =? 0 then "(nil)" else "0x" ++ codes (hex 16 z).

(** [%g] *)
Definition fmt_g (d : spec_float) : string := print_double_with 6 d.

(** [std::to_string] of a [double], which is [%f] *)
Definition fmt_f (d : spec_float) : string :=
  let sign (s : bool) := if s then "-"%string else ""%string in
  match d with
  | S754_zero s => sign s ++ "0.000000"
  | S754_infinity s => sign s ++ "inf"
  | S754_nan => "nan"
  | S754_finite s m e =>
      let n := if 0 <=? e then Z.shiftl (Zpos m) e else Zpos m in
      let den := if 0 <=? e then 1 else 2 ^ (- e) in
      let x := scaled n den 6 in
      sign s ++ string_of_list_ascii (decimal 400 (x / 10 ^ 6)) ++ "."
      ++ pad_left 48 6 (string_of_list_ascii (decimal 7 (x mod 10 ^ 6)))
  end.

Section Disassembler.

Context (USE_TAGGING : bool) (env : Environment).

Definition DebugPrint (s : string) : V () := env_ErrorPrint env s.
Definition DebugPrefix (prefix : string) : V () := DebugPrint (pad_right 6 prefix ++ " ").
Definition DebugDump (s : string) : V () := DebugPrefix "DUMP:";; DebugPrint s.
Definition DebugTrace (s : string) : V () := DebugPrefix "TRACE:";; DebugPrint s.

(** ** Names *)

(** [cl->GetName()->GetStdString()] *)
Definition class_name (cl : oop) : V string := n ← GetName cl; GetStdString n.

Definition DebugGetClassName (o : oop) : V string := c ← CLASS_OF o; class_name c.

Definition signature_text (inv : loc) : V string := s ← GetSignature inv; GetStdString (Ref s).

(** The comparison of a holder with nil. *)
Definition holder_text (holder : oop) : V string :=
  k ← gets known; if decide (holder = nilObject k) then mret "nil"%string else class_name holder.

(** ** Debug strings *)

Definition object_debug_string (l : loc) (cls : oop) : V string :=
  k ← gets known;
  if decide (Ref l = nilObject k) then mret "nilObject"%string
  else if decide (Ref l = trueObject k) then mret "trueObject"%string
  else if decide (Ref l = falseObject k) then mret "falseObject"%string
  else n ← class_name cls; mret ("Object(" ++ n ++ ")")%string.

Definition invokable_debug_string (what : string) (inv : loc) : V string :=
  n ← DebugGetClassName (Ref inv);
  sig ← signature_text inv;
  mret (what ++ "(" ++ n ++ ">>#" ++ sig ++ ")")%string.

(** The recursion goes from a block to its method, from a frame to its method and from a
    trivial method to its literal. *)
Fixpoint AsDebugString (fuel : nat) (l : loc) : V string :=
  match fuel with
  | O => fail Undef
  | S fuel =>
      o ← load l;
      match o with
      | OInteger z => mret ("Integer(" ++ fmt_lld z ++ ")")%string
      | OBigInteger i => mret ("Integer(" ++ string_of_list_ascii (toString i) ++ ")")%string
      | ODouble d => mret ("Double(" ++ fmt_f d ++ ")")%string
      | OString s => mret ("String(" ++ s ++ ")")%string
      | OSymbol s => mret ("Symbol(" ++ sym_chars s ++ ")")%string
      | OObject KArray _ fields =>
          mret ("Array(" ++ fmt_lld (Z.of_nat (length fields)) ++ ")")%string
      | OObject KClass _ _ => n ← class_name (Ref l); mret ("Class(" ++ n ++ ")")%string
      | OObject KBlock _ fields =>
          m ← lift (of_option Undef (fields !! 0%nat));
          ml ← loc_of m;
          s ← AsDebugString fuel ml;
          mret ("Block(" ++ s ++ ")")%string
      | OObject (KObject | KVector) cls _ => object_debug_string l cls
      | OFrame f => s ← AsDebugString fuel (f_method f); mret ("VMFrame(" ++ s ++ ")")%string
      | OMethod m =>
          h ← holder_text (m_holder m);
          sig ← GetStdString (Ref (m_signature m));
          mret ("Method(" ++ h ++ ">>#" ++ sig ++ ")")%string
      | OTrivial _ _ _ _ (VMLiteralReturn literal) =>
          x ← AS_OBJ literal;
          xl ← loc_of x;
          s ← AsDebugString fuel xl;
          mret ("VMLiteralReturn(" ++ s ++ ")")%string
      | OTrivial _ _ _ _ (VMGlobalReturn globalName) =>
          s ← AsDebugString fuel globalName; mret ("VMGlobalReturn(" ++ s ++ ")")%string
      | OTrivial _ _ _ _ (VMGetter fieldIndex) =>
          mret ("VMGetter(fieldIndex: " ++ fmt_lld fieldIndex ++ ")")%string
      | OTrivial _ _ _ _ (VMSetter fieldIndex argIndex) =>
          mret ("VMSetter(fieldIndex: " ++ fmt_lld fieldIndex ++ ", argIndex: "
                ++ fmt_lld argIndex ++ ")")%string
      | OPrimitive _ _ (EvaluationPrim n) =>
          mret ("VMEvaluationPrimitive(" ++ fmt_lld (Z.of_nat n) ++ ")")%string
      | OPrimitive _ _ (FramePrim _) => invokable_debug_string "Primitive" l
      | OPrimitive _ _ _ => invokable_debug_string "SafePrim" l
      end
  end.

(** ** Objects in the output *)

Definition GetBytecodeName (b : Z) : V string :=
  if b <? 0 then fail Undef else lift (of_option Undef (bytecodeNames !! Z.to_nat b)).

(** The branch of [dispatch] for an object of another class than Integer. *)
Definition dispatch_by_class (o : oop) : V () :=
  k ← gets known;
  c ← CLASS_OF o;
  if decide (c = stringClass k) then s ← GetStdString o; DebugPrint (quote ++ s ++ quote)
  else if decide (c = doubleClass k) then
    l ← loc_of o; x ← load l;
    match x with ODouble d => DebugPrint (fmt_g d) | _ => fail Undef end
  else if decide (c = symbolClass k) then s ← GetStdString o; DebugPrint ("#" ++ s)
  else if decide (c = methodClass k) then
    l ← loc_of o; s ← signature_text l; DebugPrint ("#" ++ s)
  else if decide (c = primitiveClass k) then
    l ← loc_of o; s ← signature_text l; DebugPrint ("#" ++ s)
  else l ← loc_of o; DebugPrint ("address: " ++ fmt_p (env_address env l)).

Definition dispatch (o : oop) : V () :=
  k ← gets known;
  if decide (o = Null) then mret tt
  else if decide (o = nilObject k) then DebugPrint "{Nil}"
  else if decide (o = trueObject k) then DebugPrint "{True}"
  else if decide (o = falseObject k) then DebugPrint "{False}"
  else if decide (o = systemClass k) then DebugPrint "{System Class object}"
  else if decide (o = blockClass k) then DebugPrint "{Block Class object}"
  else
    name ← SymbolFor "system";
    system ← GetGlobal name;
    if decide (o = system) then DebugPrint "{System}"
    else
      v ← small_int USE_TAGGING o;
      match v with
      | Some z => DebugPrint (fmt_lld z)
      | None =>
          match o with
          | Ref l =>
              x ← load l;
              match x with
              | OBigInteger i => DebugPrint (string_of_list_ascii (toString i))
              | _ => dispatch_by_class o
              end
          | _ => dispatch_by_class o
          end
      end.

(** ** Listing the code of a method *)

(** What the listing knows of the method: nothing for one that is being compiled, else
    its holder and its constants. *)
Definition listed : Type := option Method.

(** [bytecodes[i]] *)
Definition code_at (bytecodes : list Z) (i : Z) : V Z :=
  if i <? 0 then fail Undef else lift (of_option Undef (bytecodes !! Z.to_nat i)).

(** [VMMethod::GetConstant]: an index that is too big gives null and a message. *)
Definition VMMethod_GetConstant (m : Method) (bytecodeIndex : Z) : V oop :=
  bc ← code_at (m_bytecodes m) (bytecodeIndex + 1);
  match m_constants m !! Z.to_nat bc with
  | Some c => mret c
  | None => env_ErrorPrint env ("Error: Constant index out of range" ++ newline);; mret Null
  end.

Definition is_class (o : oop) : V bool :=
  match o with
  | Ref l => x ← load l; mret (match x with OObject KClass _ _ => true | _ => false end)
  | Null => mret false
  | Tagged _ => fail Undef
  end.

Definition PrintFieldAccess (method : listed) (printObjects : bool) (fieldIdx : Z) : V () :=
  match method with
  | Some m =>
      if printObjects then
        holder ← is_class (m_holder m);
        if holder : bool then
          name ← GetInstanceFieldName (m_holder m) fieldIdx;
          if decide (name = Null)
          then DebugPrint ("(index: " ++ fmt_d fieldIdx ++ ") field: !nullptr!: error!" ++ newline)
          else s ← GetStdString name;
               DebugPrint ("(index: " ++ fmt_d fieldIdx ++ ") field: " ++ s ++ newline)
        else DebugPrint ("(index: " ++ fmt_d fieldIdx ++ ") block holder is not a class!!" ++ newline)
      else DebugPrint ("(index: " ++ fmt_d fieldIdx ++ ")" ++ newline)
  | None => DebugPrint ("(index: " ++ fmt_d fieldIdx ++ ")" ++ newline)
  end.

Definition is_backward (b : Bytecodes.bytecode) : bool :=
  match b with BC_JUMP_BACKWARD | BC_JUMP2_BACKWARD => true | _ => false end.

Definition jump_text (b : Bytecodes.bytecode) (bc_idx b1 b2 : Z) : string :=
  let offset := ComputeOffset b1 b2 in
  let target := if is_backward b then i32 bc_idx - offset else i32 bc_idx + offset in
  "(jump offset: " ++ fmt_d offset ++ " -> jump target: " ++ fmt_d target ++ ")".

(** The method and whether its constants are to be shown. *)
Definition shown (method : listed) (printObjects : bool) : option Method :=
  if printObjects then method else None.

Section Listing.

(** [Dump] of the method of a nested block. *)
Context (Dump : loc -> string -> bool -> V ()).
Context (bytecodes : list Z) (indent : string) (method : listed) (printObjects : bool).

Definition list_index (bc_idx : Z) : V () :=
  b1 ← code_at bytecodes (bc_idx + 1); DebugPrint ("(index: " ++ fmt_d b1 ++ ")" ++ newline).

(** The longer indentation that is computed here is not passed on. *)
Definition list_block (bc_idx : Z) : V () :=
  b1 ← code_at bytecodes (bc_idx + 1);
  DebugPrint ("block: (index: " ++ fmt_d b1 ++ ") ");;
  match shown method printObjects with
  | Some m => c ← VMMethod_GetConstant m bc_idx; l ← loc_of c; Dump l indent printObjects
  | None => DebugPrint newline
  end.

Definition list_constant (bc_idx : Z) : V () :=
  b1 ← code_at bytecodes (bc_idx + 1);
  (match shown method printObjects with
   | Some m =>
       constant ← VMMethod_GetConstant m bc_idx;
       cl ← CLASS_OF constant;
       cname ← (if decide (cl = Null) then mret "class==nullptr"%string else class_name cl);
       DebugPrint ("(index: " ++ fmt_d b1 ++ ") value: (" ++ cname ++ ") ");;
       dispatch constant
   | None => DebugPrint ("(index: " ++ fmt_d b1 ++ ")")
   end);;
  DebugPrint newline.

Definition list_global (bc_idx : Z) : V () :=
  match shown method printObjects with
  | Some m =>
      cst ← VMMethod_GetConstant m bc_idx;
      if decide (cst = Null) then list_index bc_idx
      else
        s ← GetStdString cst;
        b1 ← code_at bytecodes (bc_idx + 1);
        DebugPrint ("(index: " ++ fmt_d b1 ++ ") value: " ++ s ++ newline)
  | None => list_index bc_idx
  end.

Definition list_send (bc_idx : Z) : V () :=
  match shown method printObjects with
  | Some m =>
      name ← VMMethod_GetConstant m bc_idx;
      s ← GetStdString name;
      b1 ← code_at bytecodes (bc_idx + 1);
      DebugPrint ("(index: " ++ fmt_d b1 ++ ") signature: " ++ s ++ newline)
  | None => list_index bc_idx
  end.

Definition list_two (what context : string) (bc_idx : Z) : V () :=
  b1 ← code_at bytecodes (bc_idx + 1);
  b2 ← code_at bytecodes (bc_idx + 2);
  DebugPrint (what ++ ": " ++ fmt_d b1 ++ ", " ++ context ++ " " ++ fmt_d b2 ++ newline).

Definition list_field (bc_idx : Z) : V () :=
  fieldIdx ← code_at bytecodes (bc_idx + 1); PrintFieldAccess method printObjects fieldIdx.

Definition list_jump (b : Bytecodes.bytecode) (bc_idx : Z) : V () :=
  b1 ← code_at bytecodes (bc_idx + 1);
  b2 ← code_at bytecodes (bc_idx + 2);
  DebugPrint (jump_text b bc_idx b1 b2 ++ newline).

(** The switch; the instructions of a byte have been left before it. *)
Definition list_operands (b : Bytecodes.bytecode) (bc_idx : Z) : V () :=
  match b with
  | BC_PUSH_LOCAL | BC_POP_LOCAL => list_two "local" "context:" bc_idx
  | BC_PUSH_ARGUMENT => list_two "argument" "context" bc_idx
  | BC_POP_ARGUMENT => list_two "argument" "context:" bc_idx
  | BC_PUSH_BLOCK => list_block bc_idx
  | BC_PUSH_CONSTANT => list_constant bc_idx
  | BC_PUSH_GLOBAL => list_global bc_idx
  | BC_INC_FIELD | BC_INC_FIELD_PUSH | BC_POP_FIELD | BC_PUSH_FIELD => list_field bc_idx
  | BC_SEND | BC_SEND_1 | BC_SUPER_SEND => list_send bc_idx
  | BC_JUMP | BC_JUMP_ON_FALSE_POP | BC_JUMP_ON_TRUE_POP | BC_JUMP_ON_FALSE_TOP_NIL
  | BC_JUMP_ON_TRUE_TOP_NIL | BC_JUMP_ON_NOT_NIL_POP | BC_JUMP_ON_NIL_POP
  | BC_JUMP_ON_NOT_NIL_TOP_TOP | BC_JUMP_ON_NIL_TOP_TOP | BC_JUMP_IF_GREATER
  | BC_JUMP_BACKWARD | BC_JUMP2 | BC_JUMP2_ON_FALSE_POP | BC_JUMP2_ON_TRUE_POP
  | BC_JUMP2_ON_FALSE_TOP_NIL | BC_JUMP2_ON_TRUE_TOP_NIL | BC_JUMP2_ON_NOT_NIL_POP
  | BC_JUMP2_ON_NIL_POP | BC_JUMP2_ON_NOT_NIL_TOP_TOP | BC_JUMP2_ON_NIL_TOP_TOP
  | BC_JUMP2_IF_GREATER | BC_JUMP2_BACKWARD => list_jump b bc_idx
  | BC_PUSH_0 | BC_PUSH_1 | BC_PUSH_NIL | BC_RETURN_SELF => mret tt
  | BC_PUSH_LOCAL_0 | BC_POP_LOCAL_0 => DebugPrint ("local: 0, context: 0" ++ newline)
  | BC_PUSH_LOCAL_1 | BC_POP_LOCAL_1 => DebugPrint ("local: 1, context: 0" ++ newline)
  | BC_PUSH_LOCAL_2 | BC_POP_LOCAL_2 => DebugPrint ("local: 2, context: 0" ++ newline)
  | BC_POP_FIELD_1 | BC_PUSH_FIELD_1 => PrintFieldAccess method printObjects 1
  | _ => DebugPrint ("<incorrect bytecode>" ++ newline)
  end.

(** A line of the listing. *)
Definition list_instruction (bc_idx : Z) (b : Z) : V () :=
  name ← GetBytecodeName b;
  DebugDump (indent ++ pad_left 32 4 (fmt_d bc_idx) ++ ":" ++ name ++ "  ");;
  match Bytecodes.decode b with
  | None => fail Undef
  | Some bc =>
      if GetBytecodeLength b =? 1 then DebugPrint newline else list_operands bc bc_idx
  end.

(** [for (bc_idx = 0; bc_idx < numberOfBytecodes; bc_idx += ...)] *)
Fixpoint list_loop (fuel : nat) (bc_idx : Z) : V () :=
  if bc_idx <? Z.of_nat (length bytecodes) then
    match fuel with
    | O => fail OutOfFuel
    | S fuel =>
        b ← code_at bytecodes bc_idx;
        list_instruction bc_idx b;;
        list_loop fuel (bc_idx + GetBytecodeLength b)
    end
  else mret tt.

(** The stack information *)
Definition list_header : V () :=
  match method with
  | Some m =>
      DebugDump (indent ++ "<" ++ fmt_d (Z.of_nat (m_numberOfLocals m)) ++ " locals, "
        ++ fmt_d (Z.of_nat (m_maxStack m)) ++ " stack, "
        ++ fmt_d (Z.of_nat (length (m_bytecodes m))) ++ " bc_count>" ++ newline)
  | None => mret tt
  end.

Definition dumpMethod : V () :=
  DebugPrint ("(" ++ newline);;
  list_header;;
  list_loop (length bytecodes) 0;;
  DebugDump (indent ++ ")" ++ newline).

End Listing.

(** [Dump] of each kind of invokable; the first argument bounds the nesting of blocks. *)
Fixpoint Dump (depth : nat) (inv : loc) (indent : string) (printObjects : bool) : V () :=
  match depth with
  | O => fail Undef
  | S depth =>
      o ← load inv;
      match o with
      | OMethod m => dumpMethod (Dump depth) (m_bytecodes m) indent (Some m) printObjects
      | OTrivial _ _ _ _ _ => DebugPrint ("<trivial method>" ++ newline)
      | OPrimitive _ _ _ => DebugPrint ("<primitive>" ++ newline)
      | _ => fail Undef
      end
  end.

Definition DumpMethod (method : loc) (indent : string) (printObjects : bool) : V () :=
  depth ← heap_fuel;
  m ← load_method method;
  dumpMethod (Dump depth) (m_bytecodes m) indent (Some m) printObjects.

(** Of a method that is being compiled. *)
Definition DumpMethod_mgenc (mgenc : Mgenc) (indent : string) : V () :=
  dumpMethod (fun _ _ _ => fail Undef) (bytecode mgenc) indent None true.

(** [misc/debug.cpp], and [VMFrame::PrintBytecode] *)
Definition DebugDumpMethodWithObjects (inv : loc) : V () := DumpMethod inv "" true.
Definition DebugDumpMethod (inv : loc) : V () := DumpMethod inv "" false.
Definition PrintBytecode (l : loc) : V () := f ← load_frame l; DumpMethod (f_method f) "  " true.

Fixpoint dump_invokables (n : nat) (i : Z) (cl : oop) : V () :=
  match n with
  | O => mret tt
  | S n =>
      p ← GetInstanceInvokable cl i;
      inv ← loc_of p;
      cname ← class_name cl;
      sig ← signature_text inv;
      DebugDump (cname ++ ">>" ++ sig ++ " = ");;
      depth ← heap_fuel;
      Dump depth inv tab true;;
      dump_invokables n (i + 1) cl
  end.

(** [Disassembler::Dump] of a class *)
Definition Dump_class (cl : oop) : V () :=
  n ← GetNumberOfInstanceInvokables cl; dump_invokables (Z.to_nat n) 0 cl.

(** ** Tracing the instructions that are executed *)

(** The static variables of [DumpBytecode]: the depth of the calls, and what the last
    instruction was: a send, a return or neither. *)
Record Trace : Type := mkTrace { indentc : Z; ikind : ascii }.

Definition no_trace : Trace := mkTrace 0 (of_chr 64).

(** [<(class) object] *)
Definition print_value (before : string) (o : oop) : V () :=
  cname ← DebugGetClassName o;
  DebugPrint (before ++ "<(" ++ cname ++ ") ");;
  dispatch o.

Definition printArgument (idx ctx : Z) (cl : oop) (frame : loc) : V () :=
  o ← GetArgument frame (Z.to_nat idx) (Z.to_nat ctx);
  DebugPrint ("argument: " ++ fmt_d idx ++ ", context: " ++ fmt_d ctx);;
  (if decide (cl = Null) then mret tt
   else print_value "" o;; DebugPrint ">");;
  DebugPrint newline.

Definition printPopLocal (idx ctx : Z) (frame : loc) : V () :=
  o ← GetStackElement frame 0;
  print_value ("popped local: " ++ fmt_d idx ++ ", context: " ++ fmt_d ctx ++ " ") o;;
  DebugPrint (">" ++ newline).

Definition printNth (idx : nat) (frame : loc) (op : string) : V () :=
  o ← GetStackElement frame idx;
  (if decide (o = Null) then DebugPrint ("<to " ++ op ++ ": address: " ++ fmt_p 0)
   else
     cname ← DebugGetClassName o;
     DebugPrint ("<to " ++ op ++ ": (" ++ cname ++ ") ");;
     dispatch o);;
  DebugPrint (">" ++ newline).

Definition printConstantAccess (constant : oop) (index : Z) : V () :=
  cname ← DebugGetClassName constant;
  DebugPrint ("(index: " ++ fmt_d index ++ ") value: (" ++ cname ++ ") ");;
  dispatch constant;;
  DebugPrint newline.

(** The line begins with the method, the depth of the calls and the instruction. *)
Definition trace_prefix (t : Trace) (method : loc) (cl : oop) (bc_idx bc : Z) : V () :=
  sig ← signature_text method;
  name ← GetBytecodeName bc;
  let rest := (fmt_indent (indentc t) ++ " " ++ String (ikind t) (" " ++ pad_left 48 4 (fmt_d bc_idx)
               ++ ": " ++ name ++ tab))%string in
  if decide (cl = Null) then DebugTrace (pad_right 42 sig ++ rest)
  else
    cname ← class_name cl;
    DebugTrace (pad_left 32 20 cname ++ ">>" ++ pad_right 20 sig ++ rest).

(** The two bytes behind the instruction are printed, also for an instruction without
    operands. *)
Definition trace_local (frame : loc) (m : Method) (index context bc_idx : Z) : V () :=
  o ← GetLocal frame (Z.to_nat index) (Z.to_nat context);
  cname ← DebugGetClassName o;
  b1 ← code_at (m_bytecodes m) (bc_idx + 1);
  b2 ← code_at (m_bytecodes m) (bc_idx + 2);
  DebugPrint ("local: " ++ fmt_d b1 ++ ", context: " ++ fmt_d b2 ++ " <(" ++ cname ++ ") ");;
  dispatch o;;
  DebugPrint (">" ++ newline).

Definition trace_global (m : Method) (bc_idx : Z) : V () :=
  c ← VMMethod_GetConstant m bc_idx;
  name ← loc_of c;
  o ← GetGlobal name;
  cname ← (if decide (o = Null) then mret "nullptr"%string else DebugGetClassName o);
  b1 ← code_at (m_bytecodes m) (bc_idx + 1);
  s ← GetStdString c;
  DebugPrint ("(index: " ++ fmt_d b1 ++ ")value: " ++ s ++ " <(" ++ cname ++ ") ");;
  dispatch o;;
  DebugPrint (">" ++ newline).

Definition trace_field (frame : loc) (m : Method) (bc_idx : Z) : V () :=
  ctxt ← GetOuterContext frame;
  arg ← GetArgumentInCurrentContext ctxt 0;
  fieldIndex ← code_at (m_bytecodes m) (bc_idx + 1);
  o ← GetField arg fieldIndex;
  cname ← DebugGetClassName o;
  name ← GetInstanceFieldName (m_holder m) fieldIndex;
  s ← GetStdString name;
  DebugPrint ("(index: " ++ fmt_d fieldIndex ++ ") field: " ++ s ++ " <(" ++ cname ++ ") ");;
  dispatch o;;
  DebugPrint (">" ++ newline).

(** Primitives do not count as calls. *)
Definition trace_send (t : Trace) (frame : loc) (m : Method) (bc_idx : Z) : V Trace :=
  c ← VMMethod_GetConstant m bc_idx;
  sel ← loc_of c;
  b1 ← code_at (m_bytecodes m) (bc_idx + 1);
  s ← GetStdString c;
  DebugPrint ("(index: " ++ fmt_d b1 ++ ") signature: " ++ s ++ " (");;
  n ← GetNumberOfArguments sel;
  elem ← GetStackElement frame (n - 1);
  elemClass ← CLASS_OF elem;
  inv ← LookupInvokable elemClass sel;
  prim ← (match inv with Some i => IsPrimitive i | None => mret false end);
  if prim : bool then DebugPrint ("*)" ++ newline);; mret t
  else DebugPrint newline;; mret (mkTrace (i64 (indentc t + 1)) (of_chr 62)).

Definition trace_jump (m : Method) (b : Bytecodes.bytecode) (bc_idx : Z) : V () :=
  b1 ← code_at (m_bytecodes m) (bc_idx + 1);
  b2 ← code_at (m_bytecodes m) (bc_idx + 2);
  DebugPrint (jump_text b bc_idx b1 b2).

Definition trace_block (m : Method) (bc_idx : Z) : V () :=
  b1 ← code_at (m_bytecodes m) (bc_idx + 1);
  DebugPrint ("block: (index: " ++ fmt_d b1 ++ ") ");;
  c ← VMMethod_GetConstant m bc_idx;
  l ← loc_of c;
  depth ← heap_fuel;
  Dump depth l "$" true.

(** [GetIndexableField] of a method *)
Definition trace_constant (m : Method) (i : nat) : V () :=
  c ← lift (of_option Undef (m_constants m !! i)); printConstantAccess c (Z.of_nat i).

(** The switch.  The instructions that it does not know are not incorrect. *)
Definition trace_instruction (t : Trace) (frame : loc) (m : Method) (bc_idx : Z) (b : Bytecodes.bytecode)
    : V Trace :=
  let byte i := code_at (m_bytecodes m) (bc_idx + i) in
  match b with
  | BC_PUSH_0 | BC_PUSH_1 | BC_PUSH_NIL => DebugPrint newline;; mret t
  | BC_HALT => DebugPrint ("<halting>" ++ newline ++ newline ++ newline);; mret t
  | BC_DUP => printNth 0 frame "dup";; mret t
  | BC_DUP_SECOND => printNth 1 frame "dup-second";; mret t
  | BC_INC => printNth 0 frame "inc";; mret t
  | BC_DEC => printNth 0 frame "dec";; mret t
  | BC_PUSH_LOCAL =>
      b1 ← byte 1; b2 ← byte 2; trace_local frame m b1 b2 bc_idx;; mret t
  | BC_PUSH_LOCAL_0 => trace_local frame m 0 0 bc_idx;; mret t
  | BC_PUSH_LOCAL_1 => trace_local frame m 1 0 bc_idx;; mret t
  | BC_PUSH_LOCAL_2 => trace_local frame m 2 0 bc_idx;; mret t
  | BC_PUSH_SELF => printArgument 0 0 (m_holder m) frame;; mret t
  | BC_PUSH_ARG_1 => printArgument 1 0 (m_holder m) frame;; mret t
  | BC_PUSH_ARG_2 => printArgument 2 0 (m_holder m) frame;; mret t
  | BC_PUSH_ARGUMENT =>
      b1 ← byte 1; b2 ← byte 2; printArgument b1 b2 (m_holder m) frame;; mret t
  | BC_PUSH_BLOCK => trace_block m bc_idx;; mret t
  | BC_PUSH_CONSTANT =>
      c ← VMMethod_GetConstant m bc_idx; b1 ← byte 1; printConstantAccess c b1;; mret t
  | BC_PUSH_CONSTANT_0 => trace_constant m 0;; mret t
  | BC_PUSH_CONSTANT_1 => trace_constant m 1;; mret t
  | BC_PUSH_CONSTANT_2 => trace_constant m 2;; mret t
  | BC_PUSH_GLOBAL => trace_global m bc_idx;; mret t
  | BC_POP =>
      o ← GetStackElement frame 0; print_value "popped " o;; DebugPrint (">" ++ newline);; mret t
  | BC_POP_LOCAL => b1 ← byte 1; b2 ← byte 2; printPopLocal b1 b2 frame;; mret t
  | BC_POP_LOCAL_0 => printPopLocal 0 0 frame;; mret t
  | BC_POP_LOCAL_1 => printPopLocal 1 0 frame;; mret t
  | BC_POP_LOCAL_2 => printPopLocal 2 0 frame;; mret t
  | BC_POP_ARGUMENT =>
      o ← GetStackElement frame 0; b1 ← byte 1; b2 ← byte 2;
      print_value ("argument: " ++ fmt_d b1 ++ ", context: " ++ fmt_d b2 ++ " ") o;;
      DebugPrint (">" ++ newline);; mret t
  | BC_INC_FIELD | BC_INC_FIELD_PUSH | BC_PUSH_FIELD | BC_POP_FIELD =>
      trace_field frame m bc_idx;; mret t
  | BC_SUPER_SEND | BC_SEND | BC_SEND_1 => trace_send t frame m bc_idx
  | BC_RETURN_SELF | BC_RETURN_LOCAL | BC_RETURN_NON_LOCAL =>
      DebugPrint (")" ++ newline);; mret (mkTrace (i64 (indentc t - 1)) (of_chr 60))
  | BC_JUMP | BC_JUMP_ON_FALSE_POP | BC_JUMP_ON_TRUE_POP | BC_JUMP_ON_FALSE_TOP_NIL
  | BC_JUMP_ON_TRUE_TOP_NIL | BC_JUMP_ON_NOT_NIL_POP | BC_JUMP_ON_NIL_POP
  | BC_JUMP_ON_NOT_NIL_TOP_TOP | BC_JUMP_ON_NIL_TOP_TOP | BC_JUMP_IF_GREATER
  | BC_JUMP_BACKWARD | BC_JUMP2 | BC_JUMP2_ON_FALSE_POP | BC_JUMP2_ON_TRUE_POP
  | BC_JUMP2_ON_FALSE_TOP_NIL | BC_JUMP2_ON_TRUE_TOP_NIL | BC_JUMP2_ON_NOT_NIL_POP
  | BC_JUMP2_ON_NIL_POP | BC_JUMP2_ON_NOT_NIL_TOP_TOP | BC_JUMP2_ON_NIL_TOP_TOP
  | BC_JUMP2_IF_GREATER | BC_JUMP2_BACKWARD => trace_jump m b bc_idx;; mret t
  | _ => DebugPrint ("<incorrect bytecode>" ++ newline);; mret t
  end.

Definition DumpBytecode (t : Trace) (frame method : loc) (bc_idx : Z) : V Trace :=
  m ← load_method method;
  bc ← code_at (m_bytecodes m) bc_idx;
  trace_prefix t method (m_holder m) bc_idx bc;;
  let t' := mkTrace (indentc t) (of_chr 64) in
  match Bytecodes.decode bc with
  | Some b => trace_instruction t' frame m bc_idx b
  | None => fail Undef
  end.

(** [Interpreter::disassembleMethod], in the loop of the interpreter that prints. *)
Definition disassembleMethod (t : Trace) : V Trace :=
  f ← gets frame;
  fl ← lift (of_option Undef f);
  fr ← load_frame fl;
  i ← gets bytecodeIndexGlobal;
  DumpBytecode t fl (f_method fr) i.

End Disassembler.
