(* ===== verification/Tracing.v ===== *)
(** * Tracing the interpreter

    The loop of [src/src/interpreter/Interpreter.cpp] with the output of every
    instruction before it is executed, and what the output does to the machine: the
    disassembler looks at objects and looks up methods, so that at most the caches of
    symbols are others afterwards. *)
From Stdlib Require Import Ascii String.
From S2P Require Import Prelude Bytecodes IntegerPrims Objects Lookup Universe Frame Interpreter.
From S2P Require Import Activation Natives Machine MethodGen Disassembler.
Local Open Scope Z_scope.

(** ** The loop that prints *)

Section Printing.

Context (USE_TAGGING : bool) (LoadClassBasic : loc -> V oop) (routines : Routines).
Context (env : Environment).

(** [Interpreter::Start<true>] *)
Fixpoint Start_printing (steps fuel : nat) (t : Trace) : V (oop * Trace) :=
  match steps with
  | O => fail OutOfFuel
  | S steps =>
      t' ← disassembleMethod USE_TAGGING env t;
      r ← step USE_TAGGING LoadClassBasic routines fuel;
      match r with Some x => mret (x, t') | None => Start_printing steps fuel t' end
  end.

End Printing.

(** ** What cannot be told apart *)

Definition same_object (o o' : obj) : Prop :=
  match o, o' with
  | OSymbol s, OSymbol s' => sym_chars s' = sym_chars s
  | _, _ => o' = o
  end.

(** Only the caches of symbols differ. *)
Record same_machine (w w' : World) : Prop := mkSame {
  same_heap : forall l, option_Forall2 same_object (heap w !! l) (heap w' !! l);
  same_rest : w' = set_heap (heap w') w }.

Lemma same_object_refl o : same_object o o.
Proof. by destruct o. Qed.

#[export] Instance same_machine_preorder : PreOrder same_machine.
Proof.
  split.
  - intros w. split; [|by destruct w]. intros l. destruct (heap w !! l); constructor.
    apply same_object_refl.
  - intros w1 w2 w3 [H1 E1] [H2 E2]. split.
    + intros l. specialize (H1 l). specialize (H2 l). inversion H1 as [o1 o2 H12 X Y|X Y].
      * rewrite <- Y in H2. inversion H2 as [? o3 H23 Z1 Z2|]; subst. constructor.
        destruct o1, o2; cbn in H12; simplify_eq; destruct o3; cbn in *; congruence.
      * rewrite <- Y in H2. inversion H2. constructor.
    + rewrite E2, E1. done.
Qed.

(** [observes m]: [m] leaves the machine as it is, provided that the name of the system
    object is a symbol, as it is after the start-up. *)
Definition observes {A} (m : V A) : Prop := forall w a w',
  is_Some (symbolsMap w !! "system"%string) -> m w = Ok (a, w') -> same_machine w w'.

Lemma observes_ret {A} (a : A) : observes (mret a).
Proof. intros w b w' _ [= <- <-]. reflexivity. Qed.

Lemma observes_bind {A B} (m : V A) (f : A -> V B) :
  observes m -> (forall a, observes (f a)) -> observes (m ≫= f).
Proof.
  intros Hm Hf w b w' Hs (a & w1 & E1 & E2)%bind_Ok. pose proof (Hm w a w1 Hs E1) as S1.
  transitivity w1; [done|]. eapply Hf; [|exact E2]. destruct S1 as [_ ->]. done.
Qed.

Lemma observes_fail {A} e : observes (A := A) (fail e).
Proof. done. Qed.

Lemma observes_gets {A} (f : World -> A) : observes (gets f).
Proof. intros w b w' _ [= <- <-]. reflexivity. Qed.

Lemma observes_lift {A} (r : result A) : observes (lift r).
Proof. intros w b w' _. destruct r; [|done]. intros [= <- <-]. reflexivity. Qed.

Lemma observes_load l : observes (load l).
Proof. intros w b w' _. unfold load. destruct (_ !! _); [|done]. intros [= <- <-]. reflexivity. Qed.

Create HintDb observes discriminated.
#[export] Hint Resolve observes_ret observes_fail observes_gets observes_lift observes_load : observes.

Ltac head_symbol t := lazymatch t with ?f _ => head_symbol f | _ => t end.

(** Follows the code; what it calls is in the hint database or is unfolded. *)
Ltac observes_step :=
  match goal with
  | |- forall _, _ => intros
  | |- observes (match ?x with _ => _ end) => destruct x
  | |- observes _ => first [solve [eauto with observes] | apply observes_bind; [|intros]]
  | |- observes _ => progress (cbv beta zeta)
  | |- observes ?m => let h := head_symbol m in unfold h
  end.
Ltac observes := repeat observes_step.

(** ** Lookups and symbols *)

Lemma store_symbol_same w l s s' :
  heap w !! l = Some (OSymbol s) -> sym_chars s' = sym_chars s ->
  same_machine w (set_heap (<[l := OSymbol s']> (heap w)) w).
Proof.
  intros Hl Hc. split; [|done]. intros l'. cbn [heap set_heap]. destruct (decide (l' = l)) as [->|Hn].
  - rewrite lookup_insert_eq, Hl. by constructor.
  - rewrite lookup_insert_ne by done. destruct (heap w !! l'); constructor. apply same_object_refl.
Qed.

Lemma UpdateCachedInvokable_observes name cls i : observes (UpdateCachedInvokable name cls i).
Proof.
  intros w a w' _ (s & w1 & E1 & E2)%bind_Ok. unfold load_symbol in E1.
  apply bind_Ok in E1 as (o & w2 & E & E1). unfold load in E.
  destruct (heap w !! name) as [o'|] eqn:Hn; [|done]. injection E as <- <-.
  destruct o'; try done. injection E1 as <- <-. unfold store in E2. rewrite Hn in E2.
  injection E2 as <- <-. by eapply store_symbol_same.
Qed.

Lemma SymbolFor_system : observes (SymbolFor "system").
Proof.
  intros w a w' [l Hl]. unfold SymbolFor, mbind, stateful_bind, gets. rewrite Hl.
  intros [= <- <-]. reflexivity.
Qed.
#[export] Hint Resolve UpdateCachedInvokable_observes SymbolFor_system : observes.

Lemma find_invokable_observes n i cls name : observes (find_invokable n i cls name).
Proof. revert i. induction n as [|n IH]; intros i; cbn [find_invokable]; observes. Qed.
#[export] Hint Resolve find_invokable_observes : observes.

Lemma LookupInvokable_observes fuel cls name : observes (LookupInvokable_fuel fuel cls name).
Proof. revert cls. induction fuel as [|fuel IH]; intros cls; cbn [LookupInvokable_fuel]; observes. Qed.

Lemma number_of_fields_observes fuel cls : observes (GetNumberOfInstanceFields_fuel fuel cls).
Proof.
  revert cls. induction fuel as [|fuel IH]; intros cls; cbn [GetNumberOfInstanceFields_fuel]; observes.
Qed.
#[export] Hint Resolve LookupInvokable_observes number_of_fields_observes : observes.

Lemma field_name_observes fuel cls i : observes (GetInstanceFieldName_fuel fuel cls i).
Proof. revert cls. induction fuel as [|fuel IH]; intros cls; cbn [GetInstanceFieldName_fuel]; observes. Qed.

Lemma outer_context_observes fuel l : observes (outer_context fuel l).
Proof. revert l. induction fuel as [|fuel IH]; intros l; cbn [outer_context]; observes. Qed.

Lemma GetContextLevel_observes n l : observes (GetContextLevel n l).
Proof. revert l. induction n as [|n IH]; intros l; cbn [GetContextLevel]; observes. Qed.
#[export] Hint Resolve field_name_observes outer_context_observes GetContextLevel_observes : observes.

(** ** The disassembler observes *)

Section Observing.

Context (USE_TAGGING : bool) (env : Environment).
Context (Hprint : forall s, observes (env_ErrorPrint env s)).

Hint Resolve Hprint : observes.

Lemma CLASS_OF_observes o : observes (CLASS_OF o).
Proof using. observes. Qed.

Lemma class_name_observes c : observes (class_name c).
Proof using. observes. Qed.
Hint Resolve CLASS_OF_observes class_name_observes : observes.

Lemma dispatch_observes o : observes (Disassembler.dispatch USE_TAGGING env o).
Proof using Hprint. observes. Qed.

Lemma VMMethod_GetConstant_observes m i : observes (VMMethod_GetConstant env m i).
Proof using Hprint. observes. Qed.

Lemma PrintFieldAccess_observes m b i : observes (PrintFieldAccess env m b i).
Proof using Hprint. observes. Qed.
Hint Resolve dispatch_observes VMMethod_GetConstant_observes PrintFieldAccess_observes : observes.

Lemma dumpMethod_observes nested bs indent m b :
  (forall l i p, observes (nested l i p)) ->
  observes (dumpMethod USE_TAGGING env nested bs indent m b).
Proof using Hprint.
  intros Hn. assert (forall bc i, observes (list_instruction USE_TAGGING env nested bs indent m b i bc)) as H.
  { unfold list_instruction. observes. }
  assert (forall fuel i, observes (list_loop USE_TAGGING env nested bs indent m b fuel i)) as Hl.
  { induction fuel as [|fuel IH]; intros i; cbn [list_loop]; observes. }
  unfold dumpMethod. observes.
Qed.

Lemma Dump_observes depth l indent b : observes (Dump USE_TAGGING env depth l indent b).
Proof using Hprint.
  revert l indent b. induction depth as [|depth IH]; intros l indent b; cbn [Dump]; [observes|].
  apply observes_bind; [observes|]. intros []; try solve [observes]. by apply dumpMethod_observes.
Qed.
Hint Resolve Dump_observes : observes.

Lemma DumpMethod_observes l indent b : observes (DumpMethod USE_TAGGING env l indent b).
Proof using Hprint.
  unfold DumpMethod. do 2 (apply observes_bind; [observes|intros ?]). apply dumpMethod_observes. observes.
Qed.

Lemma dump_invokables_observes n i cl : observes (dump_invokables USE_TAGGING env n i cl).
Proof using Hprint. revert i. induction n as [|n IH]; intros i; cbn [dump_invokables]; observes. Qed.
Hint Resolve DumpMethod_observes dump_invokables_observes : observes.

Lemma Dump_class_observes cl : observes (Dump_class USE_TAGGING env cl).
Proof using Hprint. observes. Qed.

Lemma trace_prefix_observes t m cl i bc : observes (trace_prefix env t m cl i bc).
Proof using Hprint. observes. Qed.

Lemma print_value_observes s o : observes (print_value USE_TAGGING env s o).
Proof using Hprint. observes. Qed.
Hint Resolve trace_prefix_observes print_value_observes : observes.

Lemma trace_instruction_observes t f m i b : observes (trace_instruction USE_TAGGING env t f m i b).
Proof using Hprint. destruct b; observes. Qed.
Hint Resolve trace_instruction_observes : observes.

Lemma disassembleMethod_observes t : observes (disassembleMethod USE_TAGGING env t).
Proof using Hprint. observes. Qed.

End Observing.

(** ** A listing has a line for every instruction *)

(** Instructions with their operands, as bytes. *)
Notation instruction := (Bytecodes.bytecode * list Z)%type.

Definition whole (i : instruction) : Prop := S (length i.2) = Z.to_nat (GetBytecodeLength i.1).

Definition bytes_of (prog : list instruction) : list Z := prog ≫= (fun i => code i.1 :: i.2).

Section Listing.

Context (USE_TAGGING : bool) (env : Environment) (nested : loc -> string -> bool -> V ()).
Context (indent : string) (m : listed) (printObjects : bool).

(** The instructions [prog] at the position [pos] of the code [bs]. *)
Fixpoint list_instructions (bs : list Z) (pos : Z) (prog : list instruction) : V () :=
  match prog with
  | [] => mret tt
  | i :: r =>
      list_instruction USE_TAGGING env nested bs indent m printObjects pos (code i.1);;
      list_instructions bs (pos + GetBytecodeLength i.1) r
  end.

Lemma list_loop_instructions prog : forall before fuel w,
  Forall whole prog -> (length (bytes_of prog) <= fuel)%nat ->
  list_loop USE_TAGGING env nested (before ++ bytes_of prog) indent m printObjects fuel
    (Z.of_nat (length before)) w
  = list_instructions (before ++ bytes_of prog) (Z.of_nat (length before)) prog w.
Proof using.
  induction prog as [|[b args] prog IH]; intros before fuel w Hw Hf.
  - rewrite app_nil_r. unfold list_loop. destruct fuel; by rewrite Z.ltb_irrefl.
  - apply Forall_cons in Hw as [Hb Hw]. unfold whole in Hb. cbn [fst snd] in Hb.
    assert (length (bytes_of ((b, args) :: prog)) = S (length args + length (bytes_of prog))) as Hl
      by (cbn; by rewrite length_app).
    pose proof (length_range b). destruct fuel as [|fuel]; [lia|].
    replace (before ++ bytes_of ((b, args) :: prog)) with ((before ++ code b :: args) ++ bytes_of prog)
      by (cbn; by rewrite <- app_assoc).
    set (bs := (before ++ code b :: args) ++ bytes_of prog).
    assert (bs !! length before = Some (code b)) as Hbs.
    { subst bs. rewrite <- app_assoc, lookup_app_r, Nat.sub_diag by lia. done. }
    assert (Z.of_nat (length before) + GetBytecodeLength b
            = Z.of_nat (length (before ++ code b :: args))) as E by (rewrite length_app; cbn; lia).
    cbn [list_loop list_instructions fst].
    assert ((Z.of_nat (length before) <? Z.of_nat (length bs)) = true) as ->.
    { apply lookup_lt_Some in Hbs. lia. }
    erewrite bind_step.
    2: { unfold code_at. rewrite Nat2Z.id, Hbs. by destruct (Z.ltb_spec (Z.of_nat (length before)) 0); [lia|]. }
    unfold mbind, stateful_bind.
    destruct (list_instruction _ _ _ _ _ _ _ _ _ w) as [[[] w1]|e]; [|done].
    rewrite E. apply IH; [done|lia].
Qed.

(** The loop over the bytes goes over the instructions. *)
Lemma dumpMethod_instructions prog w :
  Forall whole prog ->
  dumpMethod USE_TAGGING env nested (bytes_of prog) indent m printObjects w
  = (DebugPrint env ("(" ++ newline);;
     list_header env indent m;;
     list_instructions (bytes_of prog) 0 prog;;
     DebugDump env (indent ++ ")" ++ newline)) w.
Proof using.
  intros Hw. unfold dumpMethod, mbind, stateful_bind.
  destruct (DebugPrint _ _ w) as [[[] w1]|e]; [|done].
  destruct (list_header _ _ _ w1) as [[[] w2]|e]; [|done].
  pose proof (list_loop_instructions prog [] _ w2 Hw (Nat.le_refl _)) as E.
  change (Z.of_nat (length [])) with 0 in E. change ([] ++ bytes_of prog) with (bytes_of prog) in E.
  by rewrite E.
Qed.

End Listing.

(** ** A listing without objects *)

(** Printing leaves the machine alone. *)
Definition prints (env : Environment) : Prop := forall s w, env_ErrorPrint env s w = Ok (tt, w).

Lemma prints_observes env : prints env -> forall s, observes (env_ErrorPrint env s).
Proof. intros H s w a w' _. rewrite H. intros [= <- <-]. reflexivity. Qed.

Section Plain.

Context (USE_TAGGING : bool) (env : Environment) (Hp : prints env).
Context (nested : loc -> string -> bool -> V ()) (indent : string) (m : listed).

Lemma DebugDump_step s w : DebugDump env s w = Ok (tt, w).
Proof using Hp. unfold DebugDump, DebugPrefix, DebugPrint, mbind, stateful_bind. by rewrite !Hp. Qed.

Lemma code_at_step bs i x w : bs !! i = Some x -> code_at bs (Z.of_nat i) w = Ok (x, w).
Proof using.
  intros H. unfold code_at. rewrite Nat2Z.id, H. by destruct (Z.ltb_spec (Z.of_nat i) 0); [lia|].
Qed.

Lemma list_operands_plain b args before rest w :
  whole (b, args) -> (1 < GetBytecodeLength b) ->
  list_operands USE_TAGGING env nested (before ++ code b :: args ++ rest) indent m false b
    (Z.of_nat (length before)) w = Ok (tt, w).
Proof using Hp.
  unfold whole. cbn [fst snd]. intros Hw Hl.
  set (bs := before ++ code b :: args ++ rest).
  assert (forall k x, args !! k = Some x ->
    forall w0, code_at bs (Z.of_nat (length before) + Z.of_nat (S k)) w0 = Ok (x, w0)) as H.
  { intros k x Hk w0. rewrite <- Nat2Z.inj_add. apply code_at_step. subst bs.
    rewrite lookup_app_r by lia. replace (length before + S k - length before)%nat with (S k) by lia.
    cbn. by apply lookup_app_l_Some. }
  assert (exists x args', args = x :: args') as (x & args' & ->).
  { destruct args; cbn in Hw; [lia|eauto]. }
  pose proof (H 0%nat x eq_refl) as H0. change (Z.of_nat 1) with 1 in H0.
  assert (Z.to_nat (GetBytecodeLength b) = 3%nat ->
    exists y, forall w0, code_at bs (Z.of_nat (length before) + 2) w0 = Ok (y, w0)) as H1.
  { intros E. destruct args' as [|y ?]; cbn in Hw; [lia|]. exists y. by apply (H 1%nat). }
  clearbody bs. clear H Hw.
  destruct b; try (cbn in Hl; lia); cbn [list_operands];
    try (destruct H1 as [y H1]; [reflexivity|]);
    unfold list_two, list_block, list_constant, list_global, list_field, list_send, list_jump, list_index,
      PrintFieldAccess, shown, DebugPrint; unfold mbind, stateful_bind;
    repeat first [rewrite H0 | rewrite H1 | rewrite Hp | progress cbn beta iota]; try done;
    by destruct m; rewrite Hp.
Qed.

Lemma GetBytecodeName_step b w : exists s, GetBytecodeName (code b) w = Ok (s, w).
Proof using. destruct b; eexists; reflexivity. Qed.

Lemma list_instructions_plain prog : forall before w,
  Forall whole prog ->
  list_instructions USE_TAGGING env nested indent m false (before ++ bytes_of prog)
    (Z.of_nat (length before)) prog w = Ok (tt, w).
Proof using Hp.
  induction prog as [|[b args] prog IH]; intros before w Hw; [done|].
  apply Forall_cons in Hw as [Hb Hw]. cbn [list_instructions fst].
  replace (before ++ bytes_of ((b, args) :: prog)) with ((before ++ code b :: args) ++ bytes_of prog)
    by (cbn; by rewrite <- app_assoc).
  assert (Z.of_nat (length before) + GetBytecodeLength b
          = Z.of_nat (length (before ++ code b :: args))) as ->.
  { unfold whole in Hb. cbn [fst snd] in Hb. pose proof (length_range b). rewrite length_app. cbn. lia. }
  erewrite bind_step; [by apply IH|]. unfold list_instruction.
  destruct (GetBytecodeName_step b w) as [name En]. erewrite bind_step by exact En.
  erewrite bind_step by apply DebugDump_step. rewrite decode_code.
  destruct (Z.eqb_spec (GetBytecodeLength b) 1) as [|Hn]; [by apply Hp|].
  rewrite <- app_assoc. apply list_operands_plain; [done|]. pose proof (length_range b). lia.
Qed.

Lemma dumpMethod_plain prog w :
  Forall whole prog -> dumpMethod USE_TAGGING env nested (bytes_of prog) indent m false w = Ok (tt, w).
Proof using Hp.
  intros Hw. rewrite dumpMethod_instructions by done.
  erewrite bind_step by apply Hp. erewrite bind_step.
  2: { unfold list_header. destruct m; [apply DebugDump_step|done]. }
  erewrite bind_step by apply (list_instructions_plain prog [] w Hw). apply DebugDump_step.
Qed.

End Plain.

(** ** Concrete output *)

(** The output as strings in the heap. *)
Definition logging : Environment :=
  mkEnvironment (fun _ => 8%nat) (fun l => Z.of_nat l) (fun d => d) (fun d => d) (mret 4) (mret (0, 0)) 64
    (fun s => alloc (OString s);; mret tt) (fun s => alloc (OString s);; mret tt) (fun _ => mret None)
    (mret tt).

Definition output {A} (from : loc) (r : result (A * World)) : result string :=
  match r with
  | Ok (_, w) =>
      Ok (String.concat "" (omap (fun l => match heap w !! l with Some (OString s) => Some s | _ => None end)
                              (seq from (next w - from))))
  | Err e => Err e
  end.

(** A method of a class A without fields of its own, and a frame for it. *)
Definition traced (bs : list Z) : World :=
  let sym s := OSymbol (mkSymbol s (replicate 3 (Null, Null)) 0) in
  let r (n : nat) := Ref n in
  mkWorld (list_to_map
    [(0, OObject KObject (r 1) []); (1, OObject KClass (r 1) [r 2; r 4; r 4; r 0]); (2, sym "A");
     (3, sym "m"); (4, OObject KArray (r 1) []);
     (5, OMethod (mkMethod 3 (r 1) 1 2 bs 1 [r 3] 0 []));
     (6, OFrame (mkFrame None None 5 0 1 [r 0; r 0] 4)); (7, sym "system")])%nat
    8%nat ∅ 0%nat {[ "system"%string := 7%nat ]} ∅ ∅ (no_known (Ref 0%nat)) (Some 6%nat) 5%nat 0.

Example a_listing :
  output 8 (DumpMethod true logging 5%nat "" true
              (traced [code BC_PUSH_SELF; code BC_SEND_1; 0; code BC_JUMP_BACKWARD; 3; 0; code BC_RETURN_SELF]))
  = Ok ("(" ++ newline
        ++ "DUMP:  <1 locals, 2 stack, 7 bc_count>" ++ newline
        ++ "DUMP:     0:PUSH_SELF         " ++ newline
        ++ "DUMP:     1:SEND_1            (index: 0) signature: m" ++ newline
        ++ "DUMP:     3:JUMP_BACKWARD     (jump offset: 3 -> jump target: 0)" ++ newline
        ++ "DUMP:     6:RETURN_SELF       " ++ newline
        ++ "DUMP:  )" ++ newline)%string.
Proof. vm_compute. reflexivity. Qed.

(** An instruction that reads a field is reported as incorrect. *)
Example trace_of_a_field :
  output 8 (disassembleMethod true logging no_trace (traced [code BC_PUSH_FIELD_0; code BC_RETURN_LOCAL]))
  = Ok ("TRACE:                    A>>m                            0 @ 0000: PUSH_FIELD_0    " ++ tab
        ++ "<incorrect bytecode>" ++ newline)%string.
Proof. vm_compute. reflexivity. Qed.

(** The two bytes behind PUSH_LOCAL_0 are read as its operands; here the second one is
    outside of the code. *)
Example trace_of_a_local :
  output 8 (disassembleMethod true logging no_trace (traced [code BC_PUSH_LOCAL_0; code BC_RETURN_LOCAL]))
  = Err Undef.
Proof. vm_compute. reflexivity. Qed.

(** ** The property *)

(** C14: The output of the disassembler only observes.  Where printing leaves the machine
    alone and the start-up has made the symbol of the system object, the trace of an
    instruction in the interpreter and the listing of a method or of a class change
    nothing but the entries of lookup caches: no object, global, frame or symbol.  The
    listing of a method that consists of whole instructions, without its objects, reads
    no byte outside of the code and ends, and changes nothing at all. *)
Theorem disassembler_observes USE_TAGGING env w :
  prints env -> is_Some (symbolsMap w !! "system"%string) ->
  (forall t t' w', disassembleMethod USE_TAGGING env t w = Ok (t', w') -> same_machine w w')
  /\ (forall l indent b u w', DumpMethod USE_TAGGING env l indent b w = Ok (u, w') -> same_machine w w')
  /\ (forall cl u w', Dump_class USE_TAGGING env cl w = Ok (u, w') -> same_machine w w')
  /\ (forall l m prog indent,
        heap w !! l = Some (OMethod m) -> m_bytecodes m = bytes_of prog -> Forall whole prog ->
        DumpMethod USE_TAGGING env l indent false w = Ok (tt, w)).
Proof.
  intros Hp Hs. pose proof (prints_observes env Hp) as Ho. split_and!.
  - intros t t' w' H. by eapply disassembleMethod_observes.
  - intros l indent b u w' H. by eapply DumpMethod_observes.
  - intros cl u w' H. by eapply Dump_class_observes.
  - intros l m prog indent Hl Hm Hw. unfold DumpMethod, heap_fuel.
    erewrite bind_step by apply gets_step. erewrite bind_step by (by apply load_method_step).
    rewrite Hm. by apply dumpMethod_plain.
Qed.

Lemma disassembler_observes_witness :
  DumpMethod true sample_env 5%nat "" false (traced [code BC_PUSH_SELF; code BC_SEND_1; 0; code BC_RETURN_LOCAL])
  = Ok (tt, traced [code BC_PUSH_SELF; code BC_SEND_1; 0; code BC_RETURN_LOCAL]).
Proof.
  apply (disassembler_observes true sample_env
    (traced [code BC_PUSH_SELF; code BC_SEND_1; 0; code BC_RETURN_LOCAL]))
    with (m := mkMethod 3%nat (Ref 1%nat) 1 2 [code BC_PUSH_SELF; code BC_SEND_1; 0; code BC_RETURN_LOCAL] 1
                 [Ref 3%nat] 0%nat [])
         (prog := [(BC_PUSH_SELF, []); (BC_SEND_1, [0]); (BC_RETURN_LOCAL, [])]).
  - done.
  - by eexists.
  - reflexivity.
  - reflexivity.
  - repeat apply Forall_cons_2; try apply Forall_nil_2; reflexivity.
Defined.
