(* ===== verification/Leaf.v ===== *)
(** * Methods that return

    The code of a method without sends, globals, blocks and backward jumps cannot keep the
    interpreter busy: after at most as many bytecodes as it has bytes the method has
    returned to its caller, or the program has stopped with an error. *)
From Stdlib Require Import String.
From stdpp Require Import gmap.
From S2P Require Import Prelude Bytecodes Objects Universe Frame Interpreter Lookup Activation Instructions CompilerTests.
Local Open Scope Z_scope.

(** ** Which code this is about *)

(** The instructions that can call, and the halt of the bootstrap method. *)
Definition calls (bc : bytecode) : bool :=
  match bc with
  | BC_HALT | BC_PUSH_BLOCK | BC_PUSH_GLOBAL | BC_SEND | BC_SEND_1 | BC_SUPER_SEND | BC_RETURN_NON_LOCAL => true
  | _ => false
  end.

Definition returns (bc : bytecode) : bool :=
  match bc with
  | BC_RETURN_LOCAL | BC_RETURN_SELF | BC_RETURN_FIELD_0 | BC_RETURN_FIELD_1 | BC_RETURN_FIELD_2 => true
  | _ => false
  end.

(** How far a jump goes, with one byte or with two; [None] if this is not a
    forward jump. *)
Definition jump_offset (bs : list Z) (i : nat) (bc : bytecode) : option Z :=
  match bc with
  | BC_JUMP | BC_JUMP_ON_FALSE_POP | BC_JUMP_ON_TRUE_POP | BC_JUMP_ON_FALSE_TOP_NIL
  | BC_JUMP_ON_TRUE_TOP_NIL | BC_JUMP_ON_NOT_NIL_POP | BC_JUMP_ON_NIL_POP
  | BC_JUMP_ON_NOT_NIL_TOP_TOP | BC_JUMP_ON_NIL_TOP_TOP | BC_JUMP_IF_GREATER => bs !! (i + 1)%nat
  | BC_JUMP2 | BC_JUMP2_ON_FALSE_POP | BC_JUMP2_ON_TRUE_POP | BC_JUMP2_ON_FALSE_TOP_NIL
  | BC_JUMP2_ON_TRUE_TOP_NIL | BC_JUMP2_ON_NOT_NIL_POP | BC_JUMP2_ON_NIL_POP
  | BC_JUMP2_ON_NOT_NIL_TOP_TOP | BC_JUMP2_ON_NIL_TOP_TOP | BC_JUMP2_IF_GREATER =>
      b1 ← bs !! (i + 1)%nat; b2 ← bs !! (i + 2)%nat; Some (ComputeOffset b1 b2)
  | _ => None
  end.

Definition unconditional (bc : bytecode) : bool :=
  match bc with BC_JUMP | BC_JUMP2 => true | _ => false end.

(** Where the instruction at [i] can lead to, all of it further on. *)
Definition leaf_instruction (bs : list Z) (starts : list Z) (i : Z) : bool :=
  (0 <=? i) &&
  match bs !! Z.to_nat i with
  | None => false
  | Some b =>
      match Bytecodes.decode b with
      | None => false
      | Some bc =>
          negb (calls bc) &&
          (returns bc ||
           (if IsJumpBytecode b then
              match jump_offset bs (Z.to_nat i) bc with
              | Some o => (0 <? o) && bool_decide (i + o ∈ starts) &&
                          (unconditional bc || bool_decide (i + 3 ∈ starts))
              | None => false
              end
            else bool_decide (i + GetBytecodeLength b ∈ starts)))
      end
  end.

(** Every instruction, from the indices [starts] on, is such an instruction. *)
Definition leaf_code (bs : list Z) (starts : list Z) : bool := forallb (leaf_instruction bs starts) starts.

(** ** What such instructions leave alone *)

(** All of a frame but its slots. *)
Definition links_of (o : obj) : option (option loc * option loc * loc * Z) :=
  match o with
  | OFrame f => Some (f_context f, f_previous f, f_method f, f_bytecodeIndex f)
  | _ => None
  end.
Definition links (w : World) (l : loc) : option (option loc * option loc * loc * Z) :=
  o ← heap w !! l; links_of o.

(** Locations from [next] on are not in use, and the contexts of the current frame end. *)
Record fine (w : World) : Prop := mkFine {
  fine_next : forall l o, heap w !! l = Some o -> (l < next w)%nat;
  fine_contexts : forall l, frame w = Some l -> outer_context (S (next w)) l w <> Err OutOfFuel }.

(** The registers, all of the frames but their slots, and all methods are the same. *)
Record steady (w w' : World) : Prop := mkSteady {
  steady_frame : frame w' = frame w;
  steady_method : method w' = method w;
  steady_index : bytecodeIndexGlobal w' = bytecodeIndexGlobal w;
  steady_next : (next w <= next w')%nat;
  steady_dom : forall l o, heap w' !! l = Some o -> (l < next w')%nat;
  steady_links : forall l, links w' l = links w l;
  steady_methods : forall l m, heap w !! l = Some (OMethod m) -> heap w' !! l = Some (OMethod m) }.

Lemma steady_refl w : fine w -> steady w w.
Proof. intros [H _]. by split. Qed.

Lemma steady_trans w1 w2 w3 : steady w1 w2 -> steady w2 w3 -> steady w1 w3.
Proof.
  intros [F1 M1 I1 N1 D1 L1 C1] [F2 M2 I2 N2 D2 L2 C2].
  split; [congruence..|lia|done|intros l; by rewrite L2|by eauto].
Qed.

Lemma outer_context_links n n' l w w' : (forall l, links w' l = links w l) -> (n <= n')%nat ->
  outer_context n l w <> Err OutOfFuel -> outer_context n' l w' <> Err OutOfFuel.
Proof.
  intros HL. revert n' l. induction n as [|n IH]; intros n' l Hn H; [done|].
  destruct n' as [|n']; [lia|]. specialize (HL l) as Hl. cbn [outer_context] in *.
  unfold load_frame, load, links, mbind, stateful_bind in *.
  destruct (heap w !! l) as [[]|], (heap w' !! l) as [[]|]; cbn in *; try done.
  injection Hl as -> _ _ _. destruct (f_context f); [apply IH; [lia|done]|done].
Qed.

Lemma steady_fine w w' : fine w -> steady w w' -> fine w'.
Proof.
  intros [HN HC] [F M I N D L C]. split; [done|]. rewrite F. intros l Hl.
  eapply outer_context_links; [exact L| |by apply HC]. lia.
Qed.

(** ** Running one operation *)

(** [m] ends in a state with [Q], or in an error; it does not run out of fuel. *)
Definition safely {A} (m : V A) (w : World) (Q : A -> World -> Prop) : Prop :=
  match m w with Ok (a, w') => Q a w' | Err e => e <> OutOfFuel end.

Lemma safely_bind {A B} (m : V A) (k : A -> V B) w Q :
  safely m w (fun a w' => safely (k a) w' Q) -> safely (m ≫= k) w Q.
Proof. unfold safely, mbind, stateful_bind. destruct (m w) as [[a w']|e]; intros H; exact H. Qed.

Lemma safely_eq {A} (m m' : V A) w Q : m w = m' w -> safely m' w Q -> safely m w Q.
Proof. unfold safely. by intros ->. Qed.

Lemma safely_at {A} (m : V A) w a w' (Q : A -> World -> Prop) : m w = Ok (a, w') -> Q a w' -> safely m w Q.
Proof. unfold safely. by intros ->. Qed.

Lemma safely_unbind {A B} (m : V A) (k : A -> V B) w Q :
  safely (m ≫= k) w Q -> safely m w (fun a w' => safely (k a) w' Q).
Proof. unfold safely, mbind, stateful_bind. destruct (m w) as [[a w']|e]; intros H; exact H. Qed.

Lemma safely_mono {A} (m : V A) w (Q Q' : A -> World -> Prop) :
  safely m w Q -> (forall a w', m w = Ok (a, w') -> Q a w' -> Q' a w') -> safely m w Q'.
Proof. unfold safely. intros H HQ. destruct (m w) as [[a w']|e]; [by apply HQ|done]. Qed.

Definition quiet {A} (m : V A) : Prop := forall w, fine w -> safely m w (fun _ => steady w).

Lemma quiet_bind {A B} (m : V A) (k : A -> V B) : quiet m -> (forall a, quiet (k a)) -> quiet (m ≫= k).
Proof.
  intros Hm Hk w Hw. apply safely_bind. eapply safely_mono; [by apply Hm|]. intros a w1 _ S1.
  eapply safely_mono; [apply Hk; by eapply steady_fine|]. intros b w2 _ S2. exact (steady_trans _ _ _ S1 S2).
Qed.

(** What does not change the state. *)
Lemma quiet_pure {A} (m : V A) : (forall w, match m w with Ok (_, w') => w' = w | Err e => e <> OutOfFuel end) -> quiet m.
Proof. intros H w Hw. specialize (H w). unfold safely. destruct (m w) as [[a w']|e]; [subst; by apply steady_refl|done]. Qed.

Lemma quiet_ret {A} (a : A) : quiet (mret a).
Proof. by apply quiet_pure. Qed.
Lemma quiet_gets {A} (f : World -> A) : quiet (gets f).
Proof. by apply quiet_pure. Qed.
Lemma quiet_Undef {A} : quiet (A := A) (fail Undef).
Proof. by apply quiet_pure. Qed.
Lemma quiet_ErrorExit {A} s : quiet (A := A) (fail (ErrorExit s)).
Proof. by apply quiet_pure. Qed.
Lemma quiet_option {A} (o : option A) : quiet (lift (of_option Undef o)).
Proof. apply quiet_pure. intros w. by destruct o. Qed.
Lemma quiet_load l : quiet (load l).
Proof. apply quiet_pure. intros w. unfold load. by destruct (heap w !! l). Qed.

Create HintDb quiet discriminated.
#[export] Hint Resolve quiet_ret quiet_gets quiet_Undef quiet_ErrorExit quiet_option quiet_load : quiet.

Ltac head_constant t := lazymatch t with ?f _ => head_constant f | _ => t end.

(** Follows the code; what it calls is in the hint database or is unfolded. *)
Ltac quiet_step :=
  match goal with
  | |- forall _, _ => intros
  | |- quiet (match ?x with _ => _ end) => destruct x
  | |- quiet _ => first [solve [eauto with quiet] | apply quiet_bind; [|intros]]
  | |- quiet _ => progress (cbv beta zeta)
  | |- quiet ?m => let h := head_constant m in unfold h
  end.
Ltac quiet := repeat quiet_step.

(** ** Changes of the heap *)

Lemma load_object {A} l (k : obj -> V A) :
  (forall w o, fine w -> heap w !! l = Some o -> safely (k o) w (fun _ => steady w)) -> quiet (load l ≫= k).
Proof.
  intros H w Hw. unfold safely, mbind, stateful_bind, load.
  destruct (heap w !! l) as [o|] eqn:E; [exact (H w o Hw E)|done].
Qed.

(** The object at [l] is replaced by one with the same links, and no method is. *)
Lemma steady_store w l o o' :
  fine w -> heap w !! l = Some o -> (forall m, o <> OMethod m) ->
  links_of o = links_of o' ->
  safely (store l o') w (fun _ => steady w).
Proof.
  intros [HN HC] Hl Hm Ho. unfold safely, store. rewrite Hl. split; try done; cbn [heap set_heap next].
  - intros l' x. destruct (decide (l' = l)) as [->|Hne]; [intros _; by eapply HN|].
    rewrite lookup_insert_ne by done. apply HN.
  - intros l'. unfold links. cbn [heap set_heap]. destruct (decide (l' = l)) as [->|Hne].
    + by rewrite lookup_insert_eq, Hl.
    + by rewrite lookup_insert_ne.
  - intros l' m Hl'. rewrite lookup_insert_ne; [done|]. intros ->. rewrite Hl' in Hl. by apply (Hm m); injection Hl.
Qed.

Lemma quiet_alloc o : match o with OFrame _ => False | _ => True end -> quiet (alloc o).
Proof.
  intros Ho w [HN HC]. unfold safely, alloc. split; try done; cbn; [lia|..].
  - intros l x. destruct (decide (l = next w)) as [->|Hne]; [lia|].
    rewrite lookup_insert_ne by done. intros Hl%HN. lia.
  - intros l. unfold links. cbn. destruct (decide (l = next w)) as [->|Hne].
    + rewrite lookup_insert_eq. replace (heap w !! next w) with (@None obj); [by destruct o|].
      symmetry. destruct (heap w !! next w) eqn:E; [|done]. apply HN in E. lia.
    + by rewrite lookup_insert_ne.
  - intros l m Hl. rewrite lookup_insert_ne; [done|]. intros <-. apply HN in Hl. lia.
Qed.
#[export] Hint Extern 1 (quiet (alloc _)) => apply quiet_alloc; exact I : quiet.

Lemma load_frame_object {A} l (k : Frame -> V A) :
  (forall w f, fine w -> heap w !! l = Some (OFrame f) -> safely (k f) w (fun _ => steady w)) ->
  quiet (load_frame l ≫= k).
Proof.
  intros H w Hw. unfold safely, load_frame, load, mbind, stateful_bind.
  destruct (heap w !! l) as [o|] eqn:E; [|done]. cbn. destruct o; try done. exact (H w _ Hw E).
Qed.

Lemma safely_quiet {A} (m : V A) w : quiet m -> fine w -> safely m w (fun _ => steady w).
Proof. intros H. apply H. Qed.

(** The slots of a frame are replaced. *)
Lemma store_slots w l f s : fine w -> heap w !! l = Some (OFrame f) ->
  safely (store l (OFrame (with_slots s f))) w (fun _ => steady w).
Proof. intros Hw Hl. by eapply steady_store. Qed.

Lemma Push_quiet l x : quiet (Push l x).
Proof.
  apply load_frame_object. intros w f Hw Hl. destruct (_ <? _)%nat; [by apply store_slots|done].
Qed.

Lemma Pop_quiet l : quiet (Pop l).
Proof.
  apply load_frame_object. intros w f Hw Hl. destruct (last _); [|done]. apply safely_bind.
  eapply safely_mono; [by apply store_slots|]. intros u w' _ S. exact S.
Qed.

Lemma SetTop_quiet l x : quiet (SetTop l x).
Proof.
  apply load_frame_object. intros w f Hw Hl. destruct (f_slots f); [done|by apply store_slots].
Qed.

Lemma write_slot_quiet l i x : quiet (write_slot l i x).
Proof.
  apply load_frame_object. intros w f Hw Hl. destruct (_ <? _)%nat; [by apply store_slots|done].
Qed.

Lemma SetField_quiet o i x : quiet (SetField o i x).
Proof.
  unfold SetField. apply quiet_bind; [unfold loc_of; quiet|]. intros l. apply load_object.
  intros w b Hw Hl. destruct b as [| | | | |k c fields| | | |]; try done. destruct (_ && _); [|done].
  by apply (steady_store w l (OObject k c fields)).
Qed.

Lemma GetContextLevel_quiet n l : quiet (GetContextLevel n l).
Proof. revert l. induction n as [|n IH]; intros l; cbn [GetContextLevel]; quiet. Qed.

Lemma outer_context_same_state n l w : match outer_context n l w with Ok (_, w') => w' = w | Err _ => True end.
Proof.
  revert l. induction n as [|n IH]; intros l; cbn [outer_context]; [done|].
  unfold load_frame, load, mbind, stateful_bind. destruct (heap w !! l) as [[]|]; cbn; try done.
  destruct (f_context f); [apply IH|done].
Qed.

Lemma GetOuterContext_frame w l : fine w -> frame w = Some l ->
  safely (GetOuterContext l) w (fun _ => steady w).
Proof.
  intros Hw Hl. unfold safely, GetOuterContext, heap_fuel, mbind, stateful_bind, gets.
  pose proof (outer_context_same_state (S (next w)) l w). pose proof (fine_contexts w Hw l Hl).
  destruct (outer_context _ _ _) as [[c w']|e]; [subst; by apply steady_refl|congruence].
Qed.

Lemma GetSelf_quiet : quiet GetSelf.
Proof.
  intros w Hw. unfold GetSelf. apply safely_bind.
  unfold safely at 1, GetFrame, mbind, stateful_bind, gets, lift.
  destruct (frame w) as [l|] eqn:E; [|discriminate]. cbn [of_option].
  apply safely_bind. eapply safely_mono; [by apply GetOuterContext_frame|]. intros c w1 _ S1.
  eapply safely_mono; [apply (safely_quiet (GetArgumentInCurrentContext c 0)); [quiet|by eapply steady_fine]|].
  intros x w2 _ S2. exact (steady_trans _ _ _ S1 S2).
Qed.
#[export] Hint Resolve Push_quiet Pop_quiet SetTop_quiet write_slot_quiet SetField_quiet
  GetContextLevel_quiet GetSelf_quiet : quiet.

(** ** Steps *)

(** The state behind an instruction that goes on at the index [i]. *)
Definition arrives (w : World) (i : Z) (w' : World) : Prop := steady (set_bytecodeIndex i w) w'.

Section Steps.

Context (T : bool) (load_class : loc -> V oop) (routines : Routines) (fuel : nat).

Lemma fine_index w i : fine w -> fine (set_bytecodeIndex i w).
Proof.
  intros [HN HC]. split; [done|]. intros l Hl. eapply outer_context_links; [|reflexivity|by apply HC]. done.
Qed.

Lemma prologue_quiet n (m : V ()) w : quiet m -> fine w ->
  safely (PROLOGUE n;; m) w (fun _ => arrives w (bytecodeIndexGlobal w + n)).
Proof. intros Hm Hw. apply safely_bind. apply Hm. by apply fine_index. Qed.

Lemma plain_step bc w : calls bc = false -> returns bc = false -> IsJumpBytecode (code bc) = false ->
  fine w -> safely (dispatch T load_class routines fuel bc) w
    (fun _ => arrives w (bytecodeIndexGlobal w + GetBytecodeLength (code bc))).
Proof.
  intros Hc Hr Hj Hw. destruct bc; try discriminate; apply prologue_quiet; try done; quiet.
Qed.

(** *** Jumps *)

Lemma steady_set_index w w' i : steady w w' -> steady (set_bytecodeIndex i w) (set_bytecodeIndex i w').
Proof. intros [F M I N D L C]. by split. Qed.

Lemma arrives_before w w1 i w2 : steady w w1 -> arrives w1 i w2 -> arrives w i w2.
Proof. intros S A. exact (steady_trans _ _ _ (steady_set_index _ _ i S) A). Qed.

Lemma safely_quiet_bind {A B} (m : V A) (k : A -> V B) w Q : quiet m -> fine w ->
  (forall a w1, steady w w1 -> safely (k a) w1 Q) -> safely (m ≫= k) w Q.
Proof. intros Hm Hw Hk. apply safely_bind. eapply safely_mono; [by apply Hm|]. intros a w1 _ S. by apply Hk. Qed.

(** Some reading, the jump, and the rest. *)
Lemma jump_bind {A} d (k : () -> V A) w w1 : quiet (k tt) -> fine w -> steady w w1 ->
  safely (jump_by d ≫= k) w1 (fun _ => arrives w (bytecodeIndexGlobal w + d)).
Proof.
  intros Hk Hw S. apply safely_bind. cbn. rewrite (steady_index _ _ S).
  eapply safely_mono; [apply Hk; apply fine_index; by eapply steady_fine|].
  intros a w2 _ S2. by eapply arrives_before.
Qed.

Lemma jump_last d w w1 : fine w -> steady w w1 ->
  safely (jump_by d) w1 (fun _ => arrives w (bytecodeIndexGlobal w + d)).
Proof.
  intros Hw S. unfold safely. cbn. rewrite (steady_index _ _ S). apply (arrives_before _ _ _ _ S).
  apply steady_refl, fine_index. by eapply steady_fine.
Qed.

(** What the byte or the bytes behind a jump say. *)
Definition says (w : World) (offset : V Z) (o : Z) : Prop := forall w1, steady w w1 -> offset w1 = Ok (o, w1).

Definition lands (w : World) (o : Z) (w' : World) : Prop :=
  arrives w (bytecodeIndexGlobal w + o) w' \/ arrives w (bytecodeIndexGlobal w + 3) w'.

End Steps.

Section Jumps.

Context (T : bool) (w : World) (Hw : fine w) (offset : V Z) (o : Z) (Ho : says w offset o).

Lemma offset_bind {A} (k : Z -> V A) w1 Q : steady w w1 -> safely (k o) w1 Q -> safely (offset ≫= k) w1 Q.
Proof using Ho. intros S H. apply safely_bind. unfold safely at 1. by rewrite (Ho w1 S). Qed.

Lemma to_target {A} (m : V A) w1 : safely m w1 (fun _ => arrives w (bytecodeIndexGlobal w + o)) ->
  safely m w1 (fun _ => lands w o).
Proof using. intros H. eapply safely_mono; [exact H|]. intros a w' _ X. by left. Qed.

Lemma to_next {A} (m : V A) w1 : safely m w1 (fun _ => arrives w (bytecodeIndexGlobal w + 3)) ->
  safely m w1 (fun _ => lands w o).
Proof using. intros H. eapply safely_mono; [exact H|]. intros a w' _ X. by right. Qed.

Lemma reading {A B} (m : V A) (k : A -> V B) w1 Q : steady w w1 -> quiet m ->
  (forall a w2, steady w w2 -> safely (k a) w2 Q) -> safely (m ≫= k) w1 Q.
Proof using Hw.
  intros S Hm Hk. apply safely_quiet_bind; [done|by eapply steady_fine|]. intros a w2 S2.
  apply Hk. exact (steady_trans _ _ _ S S2).
Qed.

(** The reads at the start of a jump. *)
Ltac read :=
  repeat match goal with S : steady w ?w1 |- safely (_ ≫= _) ?w1 _ =>
    apply (reading _ _ w1 _ S); [by quiet|clear S; intros ? ? S] end.

Lemma taken_bind {A} (k : () -> V A) w1 : steady w w1 -> quiet (k tt) ->
  safely ((o' ← offset; jump_by o') ≫= k) w1 (fun _ => lands w o).
Proof using Hw Ho.
  intros S Hk. apply safely_bind, (offset_bind _ _ _ S), safely_unbind, to_target. by apply jump_bind.
Qed.

Lemma not_taken_bind {A} (k : () -> V A) w1 : steady w w1 -> quiet (k tt) ->
  safely (jump_by 3 ≫= k) w1 (fun _ => lands w o).
Proof using Hw. intros S Hk. apply to_next. by apply jump_bind. Qed.

Lemma taken w1 : steady w w1 -> safely (o' ← offset; jump_by o') w1 (fun _ => arrives w (bytecodeIndexGlobal w + o)).
Proof using Hw Ho. intros S. apply (offset_bind _ _ _ S). by apply jump_last. Qed.

Lemma not_taken w1 : steady w w1 -> safely (jump_by 3) w1 (fun _ => lands w o).
Proof using Hw. intros S. apply to_next. by apply jump_last. Qed.

Lemma jump_pop_lands test : safely (jump_pop offset test) w (fun _ => lands w o).
Proof using Hw Ho.
  pose proof (steady_refl w Hw) as S. unfold jump_pop. read.
  destruct (test _ _); [apply taken_bind|apply not_taken_bind]; try done; quiet.
Qed.

Lemma jump_top_nil_lands test : safely (jump_top_nil offset test) w (fun _ => lands w o).
Proof using Hw Ho.
  pose proof (steady_refl w Hw) as S. unfold jump_top_nil. read.
  destruct (test _ _).
  - apply (offset_bind _ _ _ S), to_target. apply jump_bind; [quiet|done..].
  - read. by apply not_taken.
Qed.

Lemma jump_top_top_lands test : safely (jump_top_top offset test) w (fun _ => lands w o).
Proof using Hw Ho.
  pose proof (steady_refl w Hw) as S. unfold jump_top_top. read.
  destruct (test _ _); [by apply to_target, taken|]. read. by apply not_taken.
Qed.

Lemma jump_if_greater_lands : safely (jump_if_greater T offset) w (fun _ => lands w o).
Proof using Hw Ho.
  pose proof (steady_refl w Hw) as S. unfold jump_if_greater. read.
  destruct a; [|by apply not_taken]. apply (offset_bind _ _ _ S), to_target. apply jump_bind; [quiet|done..].
Qed.

Lemma jump_lands : safely (o' ← offset; jump_by o') w (fun _ => arrives w (bytecodeIndexGlobal w + o)).
Proof using Hw Ho. by apply taken, steady_refl. Qed.

End Jumps.

(** The current method has the code [bs]. *)
Definition at_code (w : World) (bs : list Z) : Prop :=
  exists m, heap w !! method w = Some (OMethod m) /\ m_bytecodes m = bs.

Lemma at_code_steady w w' bs : steady w w' -> at_code w bs -> at_code w' bs.
Proof. intros S (m & Hm & Hb). exists m. rewrite (steady_method _ _ S). by split; [apply S|]. Qed.

Lemma fetch_at w bs i b : at_code w bs -> bs !! i = Some b -> fetch (Z.of_nat i) w = Ok (b, w).
Proof. intros (m & Hm & <-) Hb. apply (fetch_step w m [] (m_bytecodes m) b _ i); auto. Qed.

Lemma says_offset1 w bs i o : at_code w bs -> bytecodeIndexGlobal w = Z.of_nat i ->
  bs !! (i + 1)%nat = Some o -> says w offset1 o.
Proof.
  intros Hc Hi Ho w1 S. unfold offset1. erewrite bind_step by apply gets_step.
  rewrite (steady_index _ _ S), Hi. replace (Z.of_nat i + 1) with (Z.of_nat (i + 1)) by lia.
  eapply fetch_at; [by eapply at_code_steady|done].
Qed.

Lemma says_offset2 w bs i b1 b2 : at_code w bs -> bytecodeIndexGlobal w = Z.of_nat i ->
  bs !! (i + 1)%nat = Some b1 -> bs !! (i + 2)%nat = Some b2 -> says w offset2 (ComputeOffset b1 b2).
Proof.
  intros Hc Hi H1 H2 w1 S. pose proof (at_code_steady _ _ _ S Hc) as Hc1.
  unfold offset2. erewrite bind_step by apply gets_step. rewrite (steady_index _ _ S), Hi.
  replace (Z.of_nat i + 1) with (Z.of_nat (i + 1)) by lia.
  replace (Z.of_nat i + 2) with (Z.of_nat (i + 2)) by lia.
  erewrite bind_step by (by eapply fetch_at). by erewrite bind_step by (by eapply fetch_at).
Qed.

Lemma jump_step T load_class routines fuel bc w bs i o :
  fine w -> at_code w bs -> bytecodeIndexGlobal w = Z.of_nat i -> jump_offset bs i bc = Some o ->
  safely (dispatch T load_class routines fuel bc) w
    (fun _ w' => arrives w (bytecodeIndexGlobal w + o) w' \/
                 unconditional bc = false /\ arrives w (bytecodeIndexGlobal w + 3) w').
Proof.
  intros Hw Hc Hi Ho.
  destruct bc; try discriminate Ho; cbn in Ho.
  1-10: pose proof (says_offset1 _ _ _ _ Hc Hi Ho) as Hs.
  11-20: destruct (bs !! (i + 1)%nat) eqn:H1; [|discriminate Ho]; cbn in Ho;
    destruct (bs !! (i + 2)%nat) eqn:H2; [|discriminate Ho]; injection Ho as <-;
    pose proof (says_offset2 _ _ _ _ _ Hc Hi H1 H2) as Hs.
  all: cbn [dispatch].
  all: first [ eapply safely_mono; [by apply jump_lands|intros ? ? _ X; by left]
             | eapply safely_mono;
                 [first [ by apply jump_pop_lands | by apply jump_top_nil_lands
                        | by apply jump_top_top_lands | by apply jump_if_greater_lands ]
                 |intros ? ? _ [X|X]; [by left|by right]] ].
Qed.

(** *** Returns *)

(** The registers stay the same, whatever the state. *)
Definition registers (w : World) : option loc * loc * Z := (frame w, method w, bytecodeIndexGlobal w).
Definition calm {A} (m : V A) : Prop := forall w, safely m w (fun _ w' => registers w' = registers w).

Lemma calm_bind {A B} (m : V A) (k : A -> V B) : calm m -> (forall a, calm (k a)) -> calm (m ≫= k).
Proof.
  intros Hm Hk w. apply safely_bind. eapply safely_mono; [apply Hm|]. intros a w1 _ E1.
  eapply safely_mono; [apply Hk|]. intros b w2 _ E2. cbn in *. congruence.
Qed.

Lemma calm_frame {A} l (k : Frame -> V A) : (forall f, calm (k f)) -> calm (load_frame l ≫= k).
Proof.
  intros H. apply calm_bind; [|done]. intros w. unfold safely, load_frame, load, mbind, stateful_bind.
  destruct (heap w !! l) as [[]|]; done.
Qed.

Lemma calm_store l o : calm (store l o).
Proof. intros w. unfold safely, store. by destruct (heap w !! l). Qed.

Lemma calm_update l g : calm (update_frame l g).
Proof. apply calm_frame. intros f. apply calm_store. Qed.

Lemma calm_Push l x : calm (Push l x).
Proof. apply calm_frame. intros f. destruct (_ <? _)%nat; [apply calm_store|done]. Qed.

Lemma calm_pop_n n l : calm (pop_n n l).
Proof.
  induction n as [|n IH]; [done|]. apply calm_bind; [|done]. apply calm_bind; [|done].
  apply calm_frame. intros f. destruct (last _); [|done]. apply calm_bind; [apply calm_store|done].
Qed.

Lemma calm_GetFrame : calm GetFrame.
Proof.
  intros w. unfold safely, GetFrame, mbind, stateful_bind, gets, lift.
  destruct (frame w); cbn; [reflexivity|discriminate].
Qed.

Lemma calm_load_method l : calm (load_method l).
Proof. intros w. unfold safely, load_method, load, mbind, stateful_bind. destruct (heap w !! l) as [[]|]; done. Qed.

(** The state in which the caller goes on: its frame is the current one, and the registers
    have what was saved there. *)
Definition returned (w : World) (w' : World) : Prop :=
  exists cur c prev m i, frame w = Some cur /\ links w cur = Some (c, Some prev, m, i) /\
    frame w' = Some prev /\
    forall c' p' m' i', prev <> cur -> links w prev = Some (c', p', m', i') ->
      method w' = m' /\ bytecodeIndexGlobal w' = i'.

Lemma SetFrame_registers w cur l : frame w = Some cur ->
  safely (SetFrame l) w (fun _ w' => frame w' = Some l /\
    forall c p m i, l <> cur -> links w l = Some (c, p, m, i) -> method w' = m /\ bytecodeIndexGlobal w' = i).
Proof.
  intros Hc. unfold SetFrame. apply safely_bind. cbn. apply safely_bind. cbn. rewrite Hc.
  apply safely_bind. unfold SetBytecodeIndex, update_frame. apply safely_bind.
  unfold safely at 1, load_frame, load, mbind, stateful_bind.
  destruct (heap w !! cur) as [[]|] eqn:Hf; try discriminate. cbn beta iota.
  apply (safely_at _ _ _ _ _ (store_put _ _ _ _ Hf)), safely_bind.
  unfold safely at 1, load_frame, load, mbind, stateful_bind. cbn [heap put_obj set_heap].
  destruct (_ !! l) as [o|] eqn:Hl; [|discriminate]. destruct o as [| | | | | |g| | |]; try discriminate. cbn.
  split; [done|]. intros c p m i Hne HL. rewrite lookup_insert_ne in Hl by done.
  unfold links in HL. rewrite Hl in HL. cbn in HL. by simplify_eq.
Qed.

Lemma popFrame_returns w : safely popFrame w (fun _ => returned w).
Proof.
  unfold popFrame. apply safely_bind.
  unfold safely at 1, GetFrame, mbind, stateful_bind, gets, lift.
  destruct (frame w) as [cur|] eqn:Hc; [|discriminate]. cbn [of_option].
  apply safely_bind. unfold safely at 1, load_frame, load, mbind, stateful_bind.
  destruct (heap w !! cur) as [[]|] eqn:Hf; try discriminate. cbn beta iota.
  apply safely_bind. unfold safely at 1, lift. destruct (f_previous f) as [prev|] eqn:Hp; [|discriminate].
  cbn [of_option]. apply safely_bind. eapply safely_mono; [by apply SetFrame_registers|].
  intros u w1 _ [H1 H2]. apply safely_bind. eapply safely_mono; [apply calm_update|].
  intros u' w2 _ E. injection E as E1 E2 E3. exists cur, (f_context f), prev, (f_method f), (f_bytecodeIndex f).
  unfold links at 1. rewrite Hf. cbn. rewrite Hp, E1, E2, E3. split_and!; try done.
Qed.

Lemma popFrameAndPushResult_returns w x : safely (popFrameAndPushResult x) w (fun _ => returned w).
Proof.
  unfold popFrameAndPushResult. apply safely_bind. eapply safely_mono; [apply popFrame_returns|].
  intros l w1 _ (cur & c & prev & m & i & Hc & Hl & H1 & H2).
  apply (safely_mono _ _ (fun _ w2 => registers w2 = registers w1)).
  2:{ intros u w2 _ E. injection E as E1 E2 E3. exists cur, c, prev, m, i. rewrite E1, E2, E3. done. }
  apply calm_frame. intros g. apply calm_bind; [apply calm_load_method|]. intros meth.
  apply calm_bind; [apply calm_GetFrame|]. intros fr. apply calm_bind; [apply calm_pop_n|]. intros _.
  apply calm_Push.
Qed.

Lemma returned_steady w w1 w' : steady w w1 -> returned w1 w' -> returned w w'.
Proof.
  intros S (cur & c & prev & m & i & Hc & Hl & H1 & H2). exists cur, c, prev, m, i.
  rewrite (steady_links _ _ S) in Hl. rewrite (steady_frame _ _ S) in Hc. split_and!; try done.
  intros c' p' m' i'. rewrite <- (steady_links _ _ S). apply H2.
Qed.

Lemma returned_after {A} (m : V A) (k : A -> V ()) w : quiet m -> fine w ->
  (forall a w1, fine w1 -> safely (k a) w1 (fun _ => returned w1)) -> safely (m ≫= k) w (fun _ => returned w).
Proof.
  intros Hm Hw Hk. apply safely_quiet_bind; [done..|]. intros a w1 S.
  eapply safely_mono; [apply Hk; by eapply steady_fine|]. intros u w2 _ R. exact (returned_steady _ _ _ S R).
Qed.

Lemma leaf_return_step T load_class routines fuel bc w : returns bc = true -> fine w ->
  safely (dispatch T load_class routines fuel bc) w (fun _ => returned w).
Proof.
  intros Hr Hw. pose proof (fine_index w (bytecodeIndexGlobal w + 1) Hw) as Hw1.
  destruct bc; try discriminate Hr; cbn [dispatch]; apply safely_bind; cbn.
  all: unfold doReturnLocal, doReturnSelf, doReturnFieldWithIndex.
  all: apply (returned_after _ _ (set_bytecodeIndex (bytecodeIndexGlobal w + 1) w)); [quiet|done|]; intros.
  all: repeat first [apply popFrameAndPushResult_returns | apply returned_after; [quiet|done|]; intros].
Qed.

(** ** The loop *)

(** One step from the start of an instruction: an error, the return, or the start of an
    instruction further on. *)
Lemma leaf_step T load_class routines fuel w bs starts i :
  fine w -> at_code w bs -> bytecodeIndexGlobal w = i -> leaf_instruction bs starts i = true ->
  safely (step T load_class routines fuel) w (fun r w' =>
    r = None /\ (returned w w' \/ exists j, i < j /\ j ∈ starts /\ arrives w j w')).
Proof.
  intros Hw Hc Hi HL. unfold leaf_instruction in HL. apply andb_true_iff in HL as [H0%Z.leb_le HL].
  destruct (bs !! Z.to_nat i) as [b|] eqn:Hb; [|discriminate].
  destruct (Bytecodes.decode b) as [bc|] eqn:Hd; [|discriminate].
  apply andb_true_iff in HL as [Hca%negb_true_iff HL].
  rewrite <- (code_decode _ _ Hd) in HL.
  assert (step T load_class routines fuel w = (dispatch T load_class routines fuel bc;; mret None) w) as Es.
  { unfold step. erewrite bind_step by apply gets_step. rewrite Hi.
    replace i with (Z.of_nat (Z.to_nat i)) by lia. erewrite bind_step by (by eapply fetch_at).
    rewrite Hd. by destruct bc. }
  apply (safely_eq _ _ _ _ Es).
  apply safely_bind. destruct (returns bc) eqn:Hr.
  { eapply safely_mono; [by apply leaf_return_step|]. intros u w' _ R. split; [done|by left]. }
  cbn [orb] in HL. destruct (IsJumpBytecode (code bc)) eqn:Hj.
  - destruct (jump_offset bs (Z.to_nat i) bc) as [o|] eqn:Ho; [|discriminate].
    apply andb_true_iff in HL as [HL H3]. apply andb_true_iff in HL as [Hpos%Z.ltb_lt Hin%bool_decide_eq_true].
    eapply safely_mono; [eapply jump_step; [done..| |exact Ho]; lia|]. rewrite Hi.
    intros u w' _ [A|[Hu A]]; (split; [done|]); right; eexists; (split; [|split; [|exact A]]); try done; [lia|lia|].
    rewrite Hu in H3. by apply bool_decide_eq_true in H3.
  - apply bool_decide_eq_true in HL. eapply safely_mono; [by apply plain_step|]. rewrite Hi.
    intros u w' _ A. split; [done|]. right. eexists. split; [|split; [exact HL|exact A]].
    assert (0 < GetBytecodeLength (code bc)) by (by destruct bc). lia.
Qed.

Lemma leaf_in_code bs starts i : leaf_instruction bs starts i = true -> 0 <= i /\ (Z.to_nat i < length bs)%nat.
Proof.
  unfold leaf_instruction. intros [H0%Z.leb_le H]%andb_true_iff. split; [done|].
  destruct (bs !! Z.to_nat i) eqn:E; [|discriminate]. by eapply lookup_lt_Some.
Qed.

Lemma Start_step T load_class routines k s fuel w : Start T load_class routines (S k + s) fuel w =
  match step T load_class routines fuel w with
  | Ok (Some x, w') => Ok (x, w')
  | Ok (None, w') => Start T load_class routines (k + s) fuel w'
  | Err e => Err e
  end.
Proof.
  cbn [Nat.add Start]. unfold mbind, stateful_bind. by destruct (step _ _ _ _ w) as [[[x|] w']|e].
Qed.

(** The run from the start of an instruction, by the number of bytes that are left. *)
Lemma leaf_run T load_class routines fuel bs starts n : forall w,
  fine w -> at_code w bs -> leaf_code bs starts = true -> bytecodeIndexGlobal w ∈ starts ->
  (length bs - Z.to_nat (bytecodeIndexGlobal w) <= n)%nat ->
  exists k, (k <= n)%nat /\
   ((exists e, e <> OutOfFuel /\ forall s, Start T load_class routines (k + s) fuel w = Err e) \/
    exists w', returned w w' /\ forall s, Start T load_class routines (k + s) fuel w = Start T load_class routines s fuel w').
Proof.
  induction n as [|n IH]; intros w Hw Hc HL Hin Hn;
    assert (leaf_instruction bs starts (bytecodeIndexGlobal w) = true) as Hi
      by (eapply forallb_forall; [exact HL|by apply list_elem_of_In]).
  { apply leaf_in_code in Hi. lia. }
  pose proof (leaf_step T load_class routines fuel w bs starts _ Hw Hc eq_refl Hi) as Hs. unfold safely in Hs.
  destruct (step T load_class routines fuel w) as [[r w']|e] eqn:Es.
  2:{ exists 1%nat. split; [lia|]. left. exists e. split; [done|]. intros s. by rewrite Start_step, Es. }
  destruct Hs as [-> [R|(j & Hj & Hin' & A)]].
  { exists 1%nat. split; [lia|]. right. exists w'. split; [done|]. intros s. by rewrite Start_step, Es. }
  pose proof (steady_index _ _ A) as Hj'. cbn in Hj'. apply leaf_in_code in Hi.
  destruct (IH w') as (k & Hk & H); rewrite ?Hj'; try done.
  { eapply steady_fine; [|exact A]. by apply fine_index. }
  { by eapply at_code_steady; [exact A|]. }
  { lia. }
  assert (forall s, Start T load_class routines (S k + s) fuel w = Start T load_class routines (k + s) fuel w') as Hstep.
  { intros s. by rewrite Start_step, Es. }
  exists (S k). split; [lia|]. destruct H as [(e & He & H)|(w2 & R & H)]; [left|right].
  - exists e. split; [done|]. intros s. by rewrite Hstep.
  - exists w2. split; [exact (returned_steady _ _ _ A R)|]. intros s. by rewrite Hstep.
Qed.

(** ** Calls of such methods *)

Lemma entered_fine w cur f this m args :
  heap_ok w -> heap w !! cur = Some (OFrame f) -> fine (entered w cur f this m args).
Proof.
  intros HO Hf. split.
  - intros l o. cbn. destruct (decide (l = next w)) as [->|]; [lia|]. rewrite lookup_insert_ne by done.
    destruct (decide (l = cur)) as [->|]; [|rewrite lookup_insert_ne by done]; intros H.
    + apply (heap_below _ HO) in Hf. lia.
    + apply (heap_below _ HO) in H. lia.
  - intros l [= <-]. cbn [outer_context]. unfold load_frame, load, mbind, stateful_bind. cbn.
    by rewrite lookup_insert_eq.
Qed.

Lemma entered_links w cur f this m args :
  next w <> cur -> heap w !! cur = Some (OFrame f) ->
  links (entered w cur f this m args) (next w) = Some (None, Some cur, this, 0) /\
  links (entered w cur f this m args) cur =
    Some (f_context f, f_previous f, f_method f, bytecodeIndexGlobal w).
Proof.
  intros Hne Hf. unfold links. cbn. rewrite lookup_insert_eq. split; [done|].
  rewrite lookup_insert_ne by done. by rewrite lookup_insert_eq.
Qed.

(** C13: A method without calls and loops returns. Take a method whose code has, from every
    start of an instruction on, only instructions that call nothing (no sends, no globals,
    no blocks) and jumps forward to starts of instructions. When it is invoked, then after
    at most as many bytecodes as the code has bytes the interpreter is back in the frame of
    the caller, at the method and index at which the caller made the call, or the program
    has stopped with an error. *)
Theorem leaf_methods_return T load_class routines fuel w cur f this m base args starts :
  heap_ok w -> frame w = Some cur -> heap w !! cur = Some (OFrame f) ->
  heap w !! this = Some (OMethod m) ->
  f_slots f = base ++ args -> length args = m_numberOfArguments m ->
  leaf_code (m_bytecodes m) starts = true -> 0 ∈ starts ->
  exists w1 k, VMMethod_Invoke this cur w = Ok (Some (next w), w1) /\ (k <= length (m_bytecodes m))%nat /\
   ((exists e, e <> OutOfFuel /\ forall s, Start T load_class routines (k + s) fuel w1 = Err e) \/
    (exists w', frame w' = Some cur /\ method w' = f_method f /\
       bytecodeIndexGlobal w' = bytecodeIndexGlobal w /\
       forall s, Start T load_class routines (k + s) fuel w1 = Start T load_class routines s fuel w')).
Proof.
  intros HO Hc Hf Hm Hs Ha HL H0.
  assert (heap w !! next w = None) as Hn.
  { destruct (heap w !! next w) eqn:E; [|done]. apply (heap_below _ HO) in E. lia. }
  assert (next w <> cur /\ next w <> this /\ cur <> this) as (N1 & N2 & N3) by (split_and!; congruence).
  destruct (leaf_run T load_class routines fuel (m_bytecodes m) starts (length (m_bytecodes m))
    (entered w cur f this m args)) as (k & Hk & H); [by apply entered_fine| |done|done|cbn; lia|].
  { exists m. split; [|done]. cbn. by rewrite !lookup_insert_ne. }
  eexists _, k. split; [by eapply VMMethod_Invoke_step|]. split; [done|].
  destruct H as [H|(w' & (cur' & c & prev & mm & i & E1 & E2 & E3 & E4) & H)]; [by left|right].
  injection E1 as <-. destruct (entered_links w cur f this m args N1 Hf) as [L1 L2].
  rewrite L1 in E2. injection E2 as _ <- _ _. destruct (E4 _ _ _ _ (not_eq_sym N1) L2) as [E5 E6].
  by exists w'.
Qed.

(** The code of a method with a branch, as the compiler gives it. *)
Definition choose_code : list Z :=
  [code BC_PUSH_ARG_1; code BC_JUMP_ON_FALSE_TOP_NIL; 5; 0; code BC_PUSH_0; code BC_RETURN_LOCAL;
   code BC_RETURN_SELF].

Example choose_compiled : gives (compile_method [] "choose: x = ( x ifTrue: [ ^ 0 ] )") choose_code.
Proof. by vm_compute. Qed.

Definition choose_world (x : oop) : World :=
  mkWorld (<[0%nat := OMethod (mkMethod 9%nat Null 0 4 [] 1 [] 0%nat [])]>
          (<[1%nat := OFrame (mkFrame None None 0%nat 7 1 [Tagged 1; Tagged 2; x] 5)]>
          (<[2%nat := OMethod (mkMethod 9%nat Null 0 2 choose_code 2 [] 0%nat [])]> ∅)))
    3%nat ∅ 0%nat ∅ ∅ ∅ (no_known Null) (Some 1%nat) 0%nat 12.

Lemma leaf_methods_return_witness :
  exists w1 k, VMMethod_Invoke 2%nat 1%nat (choose_world (Tagged 3)) = Ok (Some 3%nat, w1) /\ (k <= 7)%nat /\
   ((exists e, e <> OutOfFuel /\ forall s,
       Start true (fun _ => fail Undef) (mkRoutines (fun _ _ => fail Undef) (fun _ _ => fail Undef)
         (fun _ _ _ => fail Undef) (fun _ _ _ _ => fail Undef)) (k + s) 1 w1 = Err e) \/
    (exists w', frame w' = Some 1%nat /\ method w' = 0%nat /\ bytecodeIndexGlobal w' = 12 /\ forall s,
       Start true (fun _ => fail Undef) (mkRoutines (fun _ _ => fail Undef) (fun _ _ => fail Undef)
         (fun _ _ _ => fail Undef) (fun _ _ _ _ => fail Undef)) (k + s) 1 w1
       = Start true (fun _ => fail Undef) (mkRoutines (fun _ _ => fail Undef) (fun _ _ => fail Undef)
         (fun _ _ _ => fail Undef) (fun _ _ _ _ => fail Undef)) s 1 w')).
Proof.
  apply (leaf_methods_return true (fun _ => fail Undef) (mkRoutines (fun _ _ => fail Undef) (fun _ _ => fail Undef)
    (fun _ _ _ => fail Undef) (fun _ _ _ _ => fail Undef)) 1 (choose_world (Tagged 3)) 1%nat
    (mkFrame None None 0%nat 7 1 [Tagged 1; Tagged 2; Tagged 3] 5) 2%nat
    (mkMethod 9%nat Null 0 2 choose_code 2 [] 0%nat []) [Tagged 1] [Tagged 2; Tagged 3] [0; 1; 4; 5; 6]).
  - split; cbn; intros l *; intros H.
    + repeat (apply lookup_insert_Some in H as [[<- _]|[_ H]]; [lia|]). done.
    + repeat (apply lookup_insert_Some in H as [[_ H']|[_ H]]; [done|]). done.
  - reflexivity.
  - reflexivity.
  - reflexivity.
  - reflexivity.
  - reflexivity.
  - vm_compute. reflexivity.
  - constructor.
Defined.
