(* ===== verification/Termination.v ===== *)
(** * The compiler ends

    No loop of the compiler runs for ever: the fuel that the parser is given is enough
    for every text.  [ends R m] says that [m] does not run out of fuel and, where it
    succeeds, changes the state as [R] allows; it holds of the operations on the
    objects, of the emitters and of the inlining without regard to the text.  For the
    parser [goes] follows what is left to read: every function either uses up a symbol
    or passes on to one of lower rank. *)
From Stdlib Require Import Ascii String.
From S2P Require Import Prelude Bytecodes InfIntText IntegerPrims Lexer Objects Universe.
From S2P Require Import MethodGen Inlining Parser Natives Machine CompilerTests.
Import Lexer.Lexer.
Local Open Scope Z_scope.

(** ** Ending without regard to the state *)

Definition ends_at {S A} (R : relation S) (m : stateful S A) (s : S) : Prop :=
  match m s with Ok (_, s') => R s s' | Err e => e <> OutOfFuel end.

Definition ends {S A} (R : relation S) (m : stateful S A) : Prop := forall s, ends_at R m s.

(** Any change. *)
Definition anyhow {S} : relation S := fun _ _ => True.

#[export] Instance anyhow_preorder {S} : PreOrder (@anyhow S).
Proof. done. Qed.

Section Ends.

Context {S : Type} (R : relation S) `{!PreOrder R}.

Lemma ends_ret {A} (a : A) : ends R (mret a).
Proof using All. intros s. unfold ends_at. cbn. reflexivity. Qed.

Lemma ends_at_bind {A B} (m : stateful S A) (f : A -> stateful S B) s :
  ends_at R m s -> (forall a s', m s = Ok (a, s') -> R s s' -> ends_at R (f a) s') ->
  ends_at R (m ≫= f) s.
Proof using All.
  intros Hm Hf. unfold ends_at, mbind, stateful_bind in *.
  destruct (m s) as [[a s1]|e]; [|done]. specialize (Hf a s1 eq_refl Hm).
  destruct (f a s1) as [[b s2]|e]; [|done]. by etransitivity.
Qed.

Lemma ends_bind {A B} (m : stateful S A) (f : A -> stateful S B) :
  ends R m -> (forall a, ends R (f a)) -> ends R (m ≫= f).
Proof using All. intros Hm Hf s. apply ends_at_bind; [apply Hm|]. intros a s' _ _. apply Hf. Qed.

Lemma ends_fail {A} e : e <> OutOfFuel -> ends (A := A) R (fail e).
Proof using All. by intros H s. Qed.

Lemma ends_gets {A} (f : S -> A) : ends R (gets f).
Proof using All. intros s. unfold ends_at. cbn. reflexivity. Qed.

Lemma ends_get : ends R get.
Proof using All. intros s. unfold ends_at. cbn. reflexivity. Qed.

Lemma ends_lift {A} (r : result A) : r <> Err OutOfFuel -> ends R (lift r).
Proof using All. intros H s. unfold ends_at. destruct r as [a|e]; cbn; [reflexivity|congruence]. Qed.

Lemma ends_option {A} e (o : option A) : e <> OutOfFuel -> ends R (lift (of_option e o)).
Proof using All. intros H. apply ends_lift. destruct o; cbn; congruence. Qed.

Lemma ends_modify f : (forall s, R s (f s)) -> ends R (modify f).
Proof using All. intros H s. apply H. Qed.

End Ends.

(** Operations of the machine in the compiler. *)
Definition over (R : relation World) : relation Gen := fun s s' => R (gen_world s) (gen_world s').

#[export] Instance over_preorder R `{!PreOrder R} : PreOrder (over R).
Proof. split; [intros s|intros s1 s2 s3 H1 H2]; unfold over in *; [reflexivity|by etransitivity]. Qed.

Lemma liftV_over {A} R (m : V A) : ends R m -> ends (over R) (liftV m).
Proof. intros H s. specialize (H (gen_world s)). unfold ends_at, liftV in *. by destruct (m _) as [[a w]|e]. Qed.

Lemma liftV_ends {A} (m : V A) : ends anyhow m -> ends anyhow (liftV m).
Proof. apply liftV_over. Qed.

Create HintDb ends discriminated.
#[export] Hint Resolve ends_ret ends_fail ends_gets ends_get ends_option : ends.
#[export] Hint Extern 1 (ends anyhow (modify _)) => apply ends_modify; done : ends.
#[export] Hint Extern 1 (PreOrder _) => apply _ : ends.
#[export] Hint Extern 1 (_ <> _) => discriminate : ends.

Ltac head_of t := lazymatch t with ?f _ => head_of f | _ => t end.

(** Follows the code; what it calls is in the hint database or is unfolded. *)
Ltac ends_step :=
  match goal with
  | |- forall _, _ => intros
  | |- ends _ (match ?x with _ => _ end) => destruct x
  | |- ends anyhow (liftV _) => apply liftV_ends
  | |- ends (over _) (liftV _) => apply liftV_over
  | |- ends _ _ => first [solve [eauto with ends] | apply ends_bind; [apply _| |intros]]
  | |- ends _ _ => progress (cbv beta zeta)
  | |- ends _ ?m => let h := head_of m in unfold h
  end.
Ltac ends := repeat ends_step.

(** ** The objects *)

Lemma load_ends (R : relation World) `{!PreOrder R} l : ends R (load l).
Proof. intros w. unfold ends_at, load. destruct (_ !! _); [reflexivity|done]. Qed.

Lemma store_ends l o : ends anyhow (store l o).
Proof. intros w. unfold ends_at, store. by destruct (_ !! _). Qed.

Lemma alloc_ends o : ends anyhow (alloc o).
Proof. by intros w. Qed.
#[export] Hint Resolve load_ends store_ends alloc_ends : ends.

Lemma deref_ends p : ends anyhow (deref p).
Proof. ends. Qed.

Lemma load_symbol_ends l : ends anyhow (load_symbol l).
Proof. ends. Qed.

Lemma CLASS_OF_ends x : ends anyhow (CLASS_OF x).
Proof. ends. Qed.

Lemma GetIndexableField_ends a i : ends anyhow (GetIndexableField a i).
Proof. ends. Qed.

Lemma SetIndexableField_ends a i v : ends anyhow (SetIndexableField a i v).
Proof. ends. Qed.

Lemma SymbolFor_ends t : ends anyhow (SymbolFor t).
Proof. ends. Qed.
#[export] Hint Resolve deref_ends load_symbol_ends CLASS_OF_ends GetIndexableField_ends
  SetIndexableField_ends SymbolFor_ends : ends.

Lemma fill_array_ends a i es : ends anyhow (fill_array a i es).
Proof. revert i. induction es as [|e es IH]; intros i; cbn [fill_array]; ends. Qed.

Lemma symbols_for_ends ts : ends anyhow (symbols_for ts).
Proof. induction ts as [|t ts IH]; cbn [symbols_for]; ends. Qed.

Lemma symbols_of_ends es : ends anyhow (symbols_of es).
Proof. induction es as [|e es IH]; cbn [symbols_of]; ends. Qed.
#[export] Hint Resolve fill_array_ends symbols_for_ends symbols_of_ends : ends.

Lemma SetHolder_ends fuel inv hld : ends anyhow (SetHolder fuel inv hld).
Proof.
  revert inv. induction fuel as [|fuel IH]; intros inv; cbn [SetHolder]; [ends|].
  apply ends_bind; [apply _|ends|]. intros o. apply ends_bind; [apply _|ends|]. intros [].
  destruct o as [| | | | | | |m| |]; try solve [ends].
  induction (m_constants m) as [|c cs IHc]; cbn [foldr]; [ends|]. destruct c; [ends|ends|].
  apply ends_bind; [apply _|ends|]. intros oc. destruct oc; ends.
Qed.
#[export] Hint Resolve SetHolder_ends : ends.

Lemma set_holders_ends n i cls : ends anyhow (set_holders n i cls).
Proof. revert i. induction n as [|n IH]; intros i; cbn [set_holders]; ends. Qed.

Lemma number_of_fields_ends fuel cls : ends anyhow (GetNumberOfInstanceFields_fuel fuel cls).
Proof. revert cls. induction fuel as [|fuel IH]; intros cls; cbn [GetNumberOfInstanceFields_fuel]; ends. Qed.
#[export] Hint Resolve set_holders_ends number_of_fields_ends : ends.

(** ** The emitters *)

Lemma mg_ends {A} R `{!PreOrder R} (f : Mgenc -> A) : ends R (mg f).
Proof. ends. Qed.

Lemma update_mg_ends f : ends anyhow (update_mg f).
Proof. ends. Qed.
#[export] Hint Resolve mg_ends update_mg_ends : ends.

Lemma AddLiteralIfAbsent_ends o : ends anyhow (AddLiteralIfAbsent o).
Proof. ends. Qed.
#[export] Hint Resolve AddLiteralIfAbsent_ends : ends.

Lemma LastBytecodeIs_ends n b : ends anyhow (LastBytecodeIs n b).
Proof. ends. Qed.

Lemma set_byte_ends i b : ends anyhow (set_byte i b).
Proof. ends. Qed.

Lemma byte_at_ends i : ends anyhow (byte_at i).
Proof. ends. Qed.

Lemma Emit1_ends b e : ends anyhow (Emit1 b e).
Proof. ends. Qed.

Lemma Emit2_ends b i e : ends anyhow (Emit2 b i e).
Proof. ends. Qed.

Lemma Emit3_ends b i c e : ends anyhow (Emit3 b i c e).
Proof. ends. Qed.
#[export] Hint Resolve LastBytecodeIs_ends set_byte_ends byte_at_ends Emit1_ends Emit2_ends
  Emit3_ends : ends.

Lemma EmitPUSHLOCAL_ends i c : ends anyhow (EmitPUSHLOCAL i c).
Proof. ends. Qed.

Lemma EmitPOPLOCAL_ends i c : ends anyhow (EmitPOPLOCAL i c).
Proof. ends. Qed.

Lemma EmitPUSHARGUMENT_ends i c : ends anyhow (EmitPUSHARGUMENT i c).
Proof. ends. Qed.

Lemma EmitPOPARGUMENT_ends i c : ends anyhow (EmitPOPARGUMENT i c).
Proof. ends. Qed.

Lemma EmitPushFieldWithIndex_ends i : ends anyhow (EmitPushFieldWithIndex i).
Proof. ends. Qed.

Lemma EmitPopFieldWithIndex_ends i : ends anyhow (EmitPopFieldWithIndex i).
Proof. ends. Qed.
#[export] Hint Resolve EmitPUSHLOCAL_ends EmitPOPLOCAL_ends EmitPUSHARGUMENT_ends
  EmitPOPARGUMENT_ends EmitPushFieldWithIndex_ends EmitPopFieldWithIndex_ends : ends.

Lemma EmitPOP_ends : ends anyhow EmitPOP.
Proof. ends. Qed.

Lemma EmitRETURNSELF_ends : ends anyhow EmitRETURNSELF.
Proof. ends. Qed.

Lemma EmitRETURNLOCAL_ends : ends anyhow EmitRETURNLOCAL.
Proof. ends. Qed.

Lemma EmitPUSHFIELD_ends f : ends anyhow (EmitPUSHFIELD f).
Proof. ends. Qed.

Lemma EmitPOPFIELD_ends f : ends anyhow (EmitPOPFIELD f).
Proof. ends. Qed.

Lemma RemoveLastPop_ends : ends anyhow RemoveLastPopForBlockLocalReturn.
Proof. ends. Qed.

Lemma EmitPUSHBLOCK_ends b : ends anyhow (EmitPUSHBLOCK b).
Proof. ends. Qed.

Lemma EmitPUSHCONSTANT_ends t c : ends anyhow (EmitPUSHCONSTANT t c).
Proof. ends. Qed.
#[export] Hint Resolve EmitPOP_ends EmitRETURNSELF_ends EmitRETURNLOCAL_ends EmitPUSHFIELD_ends
  EmitPOPFIELD_ends RemoveLastPop_ends EmitPUSHBLOCK_ends EmitPUSHCONSTANT_ends : ends.

Lemma EmitPUSHGLOBAL_ends t g : ends anyhow (EmitPUSHGLOBAL t g).
Proof. ends. Qed.

Lemma EmitSEND_ends m : ends anyhow (EmitSEND m).
Proof. ends. Qed.

Lemma EmitSUPERSEND_ends m : ends anyhow (EmitSUPERSEND m).
Proof. ends. Qed.

Lemma Emit3WithDummy_ends b e : ends anyhow (Emit3WithDummy b e).
Proof. ends. Qed.

Lemma EmitBackwards_ends i : ends anyhow (EmitBackwardsJumpOffsetToTarget i).
Proof. ends. Qed.

Lemma PatchJumpOffset_ends i : ends anyhow (PatchJumpOffsetToPointToNextInstruction i).
Proof. ends. Qed.

Lemma Assemble_ends t : ends anyhow (Assemble t).
Proof. ends. Qed.
#[export] Hint Resolve EmitPUSHGLOBAL_ends EmitSEND_ends EmitSUPERSEND_ends Emit3WithDummy_ends
  EmitBackwards_ends PatchJumpOffset_ends Assemble_ends : ends.

(** ** Inlining

    The code of a method is adapted in place and keeps its length. *)

Definition code_length (w : World) (l : loc) : option nat :=
  match heap w !! l with Some (OMethod m) => Some (length (m_bytecodes m)) | _ => None end.

Definition same_code : relation World := fun w w' => forall l, code_length w' l = code_length w l.

#[export] Instance same_code_preorder : PreOrder same_code.
Proof. split; [by intros w l|]. intros w1 w2 w3 H1 H2 l. by rewrite H2. Qed.

Lemma load_method_Ok l m w w' :
  load_method l w = Ok (m, w') -> w' = w /\ heap w !! l = Some (OMethod m).
Proof.
  unfold load_method, load, mbind, stateful_bind. destruct (heap w !! l) as [o|]; [|done].
  by destruct o; intros [= <- <-].
Qed.

Lemma load_method_ends (R : relation World) `{!PreOrder R} l : ends R (load_method l).
Proof. ends. Qed.
#[export] Hint Resolve load_method_ends : ends.

Lemma set_method_byte_ends l i b : ends same_code (set_method_byte l i b).
Proof.
  intros w. apply ends_at_bind; [apply _|by apply load_method_ends; apply _|]. intros m w' [-> Hl]%load_method_Ok _.
  destruct (_ && _); [|done]. unfold ends_at, store. rewrite Hl. intros l'.
  unfold code_length. cbn [heap set_heap]. destruct (decide (l' = l)) as [->|Hn].
  - rewrite lookup_insert_eq, Hl. cbn [m_bytecodes with_bytecodes]. by rewrite length_insert.
  - by rewrite lookup_insert_ne.
Qed.

Section Scopes.

Context (R : relation World) `{!PreOrder R}.

Lemma load_scope_ends s : ends R (load_scope s).
Proof using All. intros w. unfold ends_at, load_scope. destruct (_ !! _); [reflexivity|done]. Qed.

Lemma scope_up_ends n s : ends R (scope_up n s).
Proof using All.
  revert s. induction n as [|n IH]; intros s; cbn [scope_up]; [ends|].
  apply ends_bind; [done|apply load_scope_ends|]. ends.
Qed.

Hint Resolve load_scope_ends scope_up_ends : ends.

Lemma scope_argument_ends s i n : ends R (scope_argument s i n).
Proof using All. ends. Qed.

Lemma scope_local_ends s i n : ends R (scope_local s i n).
Proof using All. ends. Qed.

End Scopes.
#[export] Hint Resolve load_scope_ends scope_argument_ends scope_local_ends set_method_byte_ends : ends.

Lemma store_scope_same s sc : ends same_code (store_scope s sc).
Proof. apply ends_modify; [apply _|]. by intros w l. Qed.
#[export] Hint Resolve store_scope_same : ends.

Lemma DropInlinedScope_ends s : ends same_code (DropInlinedScope s).
Proof. ends. Qed.
#[export] Hint Resolve DropInlinedScope_ends : ends.

Lemma new_scope_ends sc : ends anyhow (new_scope sc).
Proof. by intros w. Qed.
#[export] Hint Resolve new_scope_ends : ends.

Lemma GetInlinedLocalIdx_ends R `{!PreOrder R} v : ends R (GetInlinedLocalIdx v).
Proof. ends. Qed.

Lemma method_byte_ends R `{!PreOrder R} m i : ends R (method_byte m i).
Proof. ends. Qed.

Lemma loc_of_ends R `{!PreOrder R} p : ends R (loc_of p).
Proof. ends. Qed.
#[export] Hint Resolve GetInlinedLocalIdx_ends method_byte_ends loc_of_ends : ends.

Lemma adapt_instruction_ends nested l m lvl i bc :
  (forall b z, ends (over same_code) (nested b z)) ->
  ends (over same_code) (adapt_instruction nested l m lvl i bc).
Proof. intros H. ends. Qed.

Lemma decode_length b bc : Bytecodes.decode b = Some bc -> 1 <= GetBytecodeLength b.
Proof. intros <-%code_decode. apply length_range. Qed.

(** The next instruction is behind the one that was adapted. *)
Lemma adapt_instruction_moves nested l m lvl i bc s a s' :
  adapt_instruction nested l m lvl i bc s = Ok (a, s') -> 1 <= GetBytecodeLength bc.
Proof.
  unfold adapt_instruction. destruct (Bytecodes.decode bc) as [b|] eqn:E; [|done].
  intros _. by eapply decode_length.
Qed.

Lemma adapt_loop_ends nested l lvl :
  (forall b z, ends (over same_code) (nested b z)) ->
  forall fuel i s,
    (forall n, code_length (gen_world s) l = Some n -> Z.of_nat n <= i + Z.of_nat fuel) ->
    ends_at (over same_code) (adapt_loop fuel nested l lvl i) s.
Proof.
  intros Hn. induction fuel as [|fuel IH]; intros i s Hf; cbn [adapt_loop];
    (apply ends_at_bind; [apply _|apply liftV_over, load_method_ends, _|]);
    intros m s1 Hm _; unfold liftV in Hm;
    destruct (load_method l (gen_world s)) as [[m1 w1]|] eqn:E; try done;
    apply load_method_Ok in E as [-> Hl]; injection Hm as <- <-;
    specialize (Hf (length (m_bytecodes m1)));
    unfold code_length in Hf; rewrite Hl in Hf; specialize (Hf eq_refl);
    case_match eqn:Hi; try (apply ends_ret, _); [lia|].
  apply Z.ltb_lt in Hi.
  apply ends_at_bind; [apply _|apply method_byte_ends, _|]. intros bc s2 _ H2.
  apply ends_at_bind; [apply _|by apply adapt_instruction_ends|].
  intros [] s3 Hmv%adapt_instruction_moves H3. apply IH. intros n.
  rewrite (H3 l), (H2 l). unfold code_length. cbn [gen_world]. rewrite Hl. intros [= <-]. lia.
Qed.

Lemma AdaptAfterOuterInlined_ends depth l lvl :
  ends (over same_code) (AdaptAfterOuterInlined depth l lvl).
Proof.
  revert l lvl. induction depth as [|depth IH]; intros l lvl; cbn [AdaptAfterOuterInlined]; [ends|].
  intros s. apply ends_at_bind; [apply _|apply liftV_over, load_method_ends, _|].
  intros m s1 Hm _. apply ends_at_bind; [apply _| |].
  - apply adapt_loop_ends; [done|]. intros n. unfold liftV in Hm.
    destruct (load_method l (gen_world s)) as [[m1 w1]|] eqn:E; [|done].
    apply load_method_Ok in E as [-> Hl]. injection Hm as <- <-. unfold code_length. cbn [gen_world].
    rewrite Hl. intros [= <-]. lia.
  - intros [] s2 _ _. revert s2. change (ends (over same_code)
      (if lvl =? 1 then liftV (DropInlinedScope (m_scope m)) else mret tt)). ends.
Qed.

Lemma ends_weaken {S A} (R R' : relation S) (m : stateful S A) :
  (forall s s', R s s' -> R' s s') -> ends R m -> ends R' m.
Proof. intros HR H s. specialize (H s). unfold ends_at in *. destruct (m s) as [[a s']|e]; auto. Qed.

Lemma adapt_invokable_ends depth l : ends anyhow (adapt_invokable depth l).
Proof.
  apply ends_bind; [apply _|ends|]. intros []; try solve [ends].
  eapply ends_weaken; [|apply AdaptAfterOuterInlined_ends]. done.
Qed.
#[export] Hint Resolve adapt_invokable_ends : ends.

Lemma inline_simple_ends t depth m i bc : ends anyhow (inline_simple t depth m i bc).
Proof. unfold inline_simple, inlined_local, inlined_argument. destruct bc; ends. Qed.
#[export] Hint Resolve inline_simple_ends : ends.

Lemma prepareBackJump_ends js ps i : ends anyhow (prepareBackJumpToCurrentAddress js ps i).
Proof. revert ps. induction js as [|j js IH]; intros ps; cbn [prepareBackJumpToCurrentAddress]; ends. Qed.

Lemma patchJump_ends i js : ends anyhow (patchJumpToCurrentAddress i js).
Proof. induction js as [|j js IH]; cbn [patchJumpToCurrentAddress]; ends. Qed.
#[export] Hint Resolve prepareBackJump_ends patchJump_ends : ends.

Lemma inlineInto_loop_ends t m fuel i q :
  Z.of_nat (length (m_bytecodes m)) <= i + Z.of_nat fuel ->
  ends anyhow (inlineInto_loop t fuel m i q).
Proof.
  revert i q. induction fuel as [|fuel IH]; intros i q Hf; cbn [inlineInto_loop];
    (destruct (Z.ltb_spec i (Z.of_nat (length (m_bytecodes m)))); [|ends]); [lia|].
  do 3 (apply ends_bind; [apply _|ends|intros ?]). destruct (Bytecodes.decode _) as [bc|]; [|ends].
  do 2 (apply ends_bind; [apply _|ends|intros ?]). apply IH.
  pose proof (length_range bc). lia.
Qed.

Lemma inlineInto_ends t m : ends anyhow (inlineInto t m).
Proof. unfold inlineInto. apply inlineInto_loop_ends. lia. Qed.

Lemma InlineAsLocals_ends vars : ends anyhow (InlineAsLocals vars).
Proof. induction vars as [|v vars IH]; cbn [InlineAsLocals]; ends. Qed.
#[export] Hint Resolve inlineInto_ends InlineAsLocals_ends : ends.

Lemma InlineInto_ends t l b : ends anyhow (InlineInto t l b).
Proof. ends. Qed.

Lemma MergeScopeInto_ends l : ends anyhow (MergeScopeInto l).
Proof. ends. Qed.

Lemma extractBlockMethod_ends : ends anyhow extractBlockMethodAndRemoveBytecode.
Proof. ends. Qed.

Lemma extractBlockMethods_ends : ends anyhow extractBlockMethodsAndRemoveBytecodes.
Proof. ends. Qed.
#[export] Hint Resolve InlineInto_ends MergeScopeInto_ends extractBlockMethod_ends
  extractBlockMethods_ends : ends.

Lemma InlineThenBranch_ends t c : ends anyhow (InlineThenBranch t c).
Proof. ends. Qed.

Lemma InlineThenElseBranches_ends t c : ends anyhow (InlineThenElseBranches t c).
Proof. ends. Qed.

Lemma InlineWhile_ends t b : ends anyhow (InlineWhile t b).
Proof. ends. Qed.

Lemma InlineAndOr_ends t b : ends anyhow (InlineAndOr t b).
Proof. ends. Qed.

Lemma InlineToDo_ends t : ends anyhow (InlineToDo t).
Proof. ends. Qed.
#[export] Hint Resolve InlineThenBranch_ends InlineThenElseBranches_ends InlineWhile_ends
  InlineAndOr_ends InlineToDo_ends : ends.

(** ** Reading the text

    What is left for the parser: the input that has not been read, and the symbol in
    its hand. *)

Definition reading (p : Parser) : Prop := readable (p_lexer p).
Definition to_read (p : Parser) : nat := (pending (p_lexer p) + weight (p_sym p))%nat.

Definition later (p p' : Parser) : Prop := reading p' /\ (to_read p' <= to_read p)%nat.
Definition after (p p' : Parser) : Prop := reading p' /\ (to_read p' < to_read p)%nat.

Definition goesT {A} (m : T A) (p : Parser) (Q : A -> Parser -> Prop) : Prop :=
  match m p with Ok (a, p') => Q a p' | Err e => e <> OutOfFuel end.

Lemma goesT_bind {A B} (m : T A) (f : A -> T B) p Q :
  goesT m p (fun a p' => goesT (f a) p' Q) -> goesT (m ≫= f) p Q.
Proof. unfold goesT, mbind, stateful_bind. by destruct (m p) as [[a p']|e]. Qed.

Lemma goesT_mono {A} (m : T A) p (Q R : A -> Parser -> Prop) :
  goesT m p Q -> (forall a p', Q a p' -> R a p') -> goesT m p R.
Proof. unfold goesT. destruct (m p) as [[a p']|e]; auto. Qed.

Lemma weight_some y : y <> NONE -> weight y = 1%nat.
Proof. unfold weight. by case_decide. Qed.

Lemma GetSym_goes p (Q : () -> Parser -> Prop) :
  reading p -> (forall p', reading p' -> (to_read p' <= pending (p_lexer p))%nat -> Q tt p') ->
  goesT Parser.GetSym p Q.
Proof.
  intros Hr HQ. unfold goesT, Parser.GetSym, on_lexer, mbind, stateful_bind.
  pose proof (GetSym_ok _ Hr) as H. unfold ok in H.
  destruct (Lexer.Lexer.GetSym (p_lexer p)) as [[y l]|e]; cbn; [|by destruct e].
  apply HQ; apply H.
Qed.

Lemma lexer_peek_goes p (f : Symbol -> Parser -> Parser) (Q : () -> Parser -> Prop) :
  (forall y q, p_lexer (f y q) = p_lexer q) -> (forall y q, p_sym (f y q) = p_sym q) ->
  reading p -> (forall p', later p p' -> p_sym p' = p_sym p -> Q tt p') ->
  goesT (y ← on_lexer Lexer.Lexer.Peek; modify (f y)) p Q.
Proof.
  intros Hl Hs Hr HQ. unfold goesT, on_lexer, mbind, stateful_bind.
  destruct (peekDone (p_lexer p)) eqn:K.
  { unfold Lexer.Lexer.Peek, mbind, stateful_bind, get. by rewrite K. }
  pose proof (Peek_ok _ Hr K) as H. unfold ok in H.
  destruct (Lexer.Lexer.Peek (p_lexer p)) as [[y l]|e]; cbn; [|by destruct e].
  destruct H as [[H1 _] H2]. apply HQ; [|by rewrite Hs].
  unfold later, reading, to_read. rewrite Hl, Hs. cbn. split; [done|lia].
Qed.

Lemma Peek_goes p (Q : () -> Parser -> Prop) :
  reading p -> (forall p', later p p' -> p_sym p' = p_sym p -> Q tt p') ->
  goesT Parser.Peek p Q.
Proof.
  intros Hr HQ. unfold Parser.Peek, the_text.
  pose proof (lexer_peek_goes p (fun y q => mkParser (p_lexer q) (p_sym q) (p_text q) y
    (string_of_list_ascii (GetNextText (p_lexer q)))) Q) as H.
  unfold goesT, mbind, stateful_bind, gets, modify in *.
  destruct (on_lexer _ p) as [[y q]|e]; apply H; done.
Qed.

Lemma PeekIfNecessary_goes p (Q : () -> Parser -> Prop) :
  reading p -> (forall p', later p p' -> p_sym p' = p_sym p -> Q tt p') ->
  goesT PeekForNextSymbolFromLexerIfNecessary p Q.
Proof.
  intros Hr HQ. apply goesT_bind. unfold goesT at 1, gets.
  destruct (peekDone _); [by apply HQ; [split|]|]. by apply lexer_peek_goes.
Qed.

Lemma accept_goes s p (Q : bool -> Parser -> Prop) :
  s <> NONE -> reading p -> (forall p', after p p' -> Q true p') -> Q false p ->
  goesT (accept s) p Q.
Proof.
  intros Hs Hr Ht Hf. apply goesT_bind. unfold goesT at 1, gets. case_decide as E; [|done].
  apply goesT_bind, GetSym_goes; [done|]. intros p' Hr' Hl. apply Ht. split; [done|].
  unfold to_read in *. rewrite E, (weight_some s Hs). lia.
Qed.

Lemma acceptOneOf_goes ss p (Q : bool -> Parser -> Prop) :
  NONE ∉ ss -> reading p -> (forall p', after p p' -> Q true p') -> Q false p ->
  goesT (acceptOneOf ss) p Q.
Proof.
  intros Hs Hr Ht Hf. apply goesT_bind. unfold goesT at 1, gets, symIn.
  case_bool_decide as E; [|done].
  apply goesT_bind, GetSym_goes; [done|]. intros p' Hr' Hl. apply Ht. split; [done|].
  unfold to_read in *. rewrite (weight_some (p_sym p)); [lia|]. intros H. by rewrite H in E.
Qed.

Lemma goesT_ret {A} (a : A) p (Q : A -> Parser -> Prop) : Q a p -> goesT (mret a) p Q.
Proof. done. Qed.

Lemma goesT_gets {A} (f : Parser -> A) p (Q : A -> Parser -> Prop) : Q (f p) p -> goesT (gets f) p Q.
Proof. done. Qed.

Lemma after_later p p' : after p p' -> later p p'.
Proof. intros [H1 H2]. split; [done|lia]. Qed.

Lemma expect_goes s p (Q : () -> Parser -> Prop) :
  s <> NONE -> reading p -> (forall p', after p p' -> Q tt p') -> goesT (expect s) p Q.
Proof. intros Hs Hr HQ. apply goesT_bind, accept_goes; try done. Qed.

Lemma identifier_goes p (Q : string -> Parser -> Prop) :
  reading p -> (forall t p', after p p' -> Q t p') -> goesT identifier p Q.
Proof.
  intros Hr HQ. apply goesT_bind, goesT_gets, goesT_bind, accept_goes; [done|done| |].
  - intros p' Hp. apply goesT_bind, goesT_ret, goesT_ret. by apply HQ.
  - apply goesT_bind, expect_goes; [done|done|]. intros p' Hp. apply goesT_ret. by apply HQ.
Qed.

Lemma keyword_goes p (Q : string -> Parser -> Prop) :
  reading p -> (forall t p', after p p' -> Q t p') -> goesT keyword p Q.
Proof.
  intros Hr HQ. apply goesT_bind, goesT_gets, goesT_bind, expect_goes; [done|done|].
  intros p' Hp. apply goesT_ret. by apply HQ.
Qed.

Lemma _string_goes p (Q : string -> Parser -> Prop) :
  reading p -> (forall t p', after p p' -> Q t p') -> goesT _string p Q.
Proof.
  intros Hr HQ. apply goesT_bind, goesT_gets, goesT_bind, expect_goes; [done|done|].
  intros p' Hp. apply goesT_ret. by apply HQ.
Qed.

(** At the end of the text [binary_text] accepts the symbol [NONE]. *)
Lemma binary_text_goes p (Q : string -> Parser -> Prop) :
  reading p -> (forall t p', later p p' -> (p_sym p <> NONE -> after p p') -> Q t p') ->
  goesT binary_text p Q.
Proof.
  intros Hr HQ. apply goesT_bind, goesT_gets, goesT_bind, acceptOneOf_goes; [set_solver|done| |].
  { intros p' Hp. apply goesT_bind, goesT_ret, goesT_ret. apply HQ; [by apply after_later|done]. }
  apply goesT_bind, goesT_bind, accept_goes; [done|done| |].
  { intros p' Hp. apply goesT_ret, goesT_ret. apply HQ; [by apply after_later|done]. }
  apply goesT_bind, goesT_bind, goesT_gets. case_decide as E; [|by apply goesT_ret].
  apply goesT_bind, GetSym_goes; [done|]. intros p' Hr' Hl. apply goesT_ret, goesT_ret, goesT_ret.
  apply HQ; [|by intros []]. split; [done|]. unfold to_read in *. lia.
Qed.

Lemma assignment_goes p (Q : string -> Parser -> Prop) :
  reading p -> (forall t p', after p p' -> Q t p') -> goesT assignment p Q.
Proof.
  intros Hr HQ. apply goesT_bind, identifier_goes; [done|]. intros t p1 [R1 L1].
  apply goesT_bind, expect_goes; [done|done|]. intros p2 [R2 L2]. apply goesT_ret, HQ.
  split; [done|lia].
Qed.

(** Every assignment uses up two symbols. *)
Lemma assignments_goes fuel ts p (Q : list string -> Parser -> Prop) :
  reading p -> (to_read p < fuel)%nat -> (forall ts' p', later p p' -> Q ts' p') ->
  goesT (assignments fuel ts) p Q.
Proof.
  revert ts p. induction fuel as [|fuel IH]; intros ts p Hr Hf HQ; [lia|].
  cbn [assignments]. apply goesT_bind, goesT_gets. destruct (symIsIdentifier _).
  2: { apply goesT_ret, HQ. split; [done|lia]. }
  apply goesT_bind, assignment_goes; [done|]. intros t p1 [R1 L1].
  apply goesT_bind, Peek_goes; [done|]. intros p2 [R2 L2] _. apply goesT_bind, goesT_gets.
  case_decide.
  - apply IH; [done|lia|]. intros ts' p3 [R3 L3]. apply HQ. split; [done|lia].
  - apply goesT_ret, HQ. split; [done|lia].
Qed.

(** ** Compiling what is read *)

Definition goes {A} (m : P A) (p : Parser) (Q : A -> Parser -> Prop) : Prop := forall g,
  match m (mkPGen p g) with Ok (a, s) => Q a (pg_parser s) | Err e => e <> OutOfFuel end.

Lemma goes_bind {A B} (m : P A) (f : A -> P B) p Q :
  goes m p (fun a p' => goes (f a) p' Q) -> goes (m ≫= f) p Q.
Proof.
  intros H g. specialize (H g). unfold mbind, stateful_bind.
  destruct (m (mkPGen p g)) as [[a [p' g']]|e]; [|done]. apply H.
Qed.

Lemma goes_ret {A} (a : A) p (Q : A -> Parser -> Prop) : Q a p -> goes (mret a) p Q.
Proof. by intros H g. Qed.

Lemma goes_lift {A} (r : result A) p (Q : A -> Parser -> Prop) :
  r <> Err OutOfFuel -> (forall a, Q a p) -> goes (lift r) p Q.
Proof. intros H HQ g. destruct r as [a|e]; cbn; [done|congruence]. Qed.

Lemma goes_tok {A} (m : T A) p (Q : A -> Parser -> Prop) : goesT m p Q -> goes (tok m) p Q.
Proof. intros H g. unfold goesT, tok in *. cbn. by destruct (m p) as [[a p']|e]. Qed.

Lemma goes_emit {A} (m : G A) p (Q : A -> Parser -> Prop) :
  ends anyhow m -> (forall a, Q a p) -> goes (emit m) p Q.
Proof.
  intros H HQ g. specialize (H g). unfold ends_at, emit in *. cbn.
  by destruct (m g) as [[a g']|e]; [apply HQ|].
Qed.

Lemma goes_in_block {A} (m : P A) p Q : goes m p Q -> goes (Parser.in_block m) p Q.
Proof.
  intros H g. unfold Parser.in_block. cbn.
  match goal with |- context [m (mkPGen p ?h)] => specialize (H h) end.
  by destruct (m _) as [[a s]|e].
Qed.

Lemma SymbolForP_goes t p (Q : loc -> Parser -> Prop) : (forall l, Q l p) -> goes (SymbolForP t) p Q.
Proof. intros HQ. apply goes_emit; [ends|done]. Qed.

Lemma symIn_NONE ss y : NONE ∉ ss -> symIn ss y = true -> y <> NONE.
Proof. unfold symIn. case_bool_decide as E; [|done]. by intros H _ ->. Qed.

Lemma symIsBinary_some y : symIsBinary y = true -> y <> NONE.
Proof. apply symIn_NONE. set_solver. Qed.

Lemma symIsMessage_some y : symIsMessage y = true -> y <> NONE.
Proof.
  unfold symIsMessage. intros [[H|H]%orb_prop|H]%orb_prop;
    (eapply symIn_NONE; [|exact H]); set_solver.
Qed.

(** The relations between the states that have been passed through. *)
Ltac track :=
  match goal with
  | |- reading _ => unfold later, after in *; tauto
  | |- later _ _ => unfold later, after in *; split; [tauto|lia]
  | |- after _ _ => unfold later, after in *; split; [tauto|lia]
  | |- (_ <= _)%nat => unfold later, after in *; lia
  | |- (_ < _)%nat => unfold later, after in *; lia
  end.

Ltac walk_step :=
  match goal with
  | |- goes (_ ≫= _) _ _ => apply goes_bind
  | |- goes (mret _) _ _ => apply goes_ret
  | |- goes (match ?x with _ => _ end) _ _ => destruct x eqn:?
  | |- goes (emit _) _ _ => apply goes_emit; [solve [ends]|intros ?]
  | |- goes (SymbolForP _) _ _ => apply SymbolForP_goes; intros ?
  | |- goes the_sym _ _ => unfold the_sym
  | |- goes (tok (gets _)) _ _ => apply goes_tok, goesT_gets
  | |- goes (tok GetCurrentSource) _ _ => apply goes_tok, goesT_gets
  | |- goes (tok (expect _)) _ _ => apply goes_tok, expect_goes; [done|track|intros ? ?]
  | |- goes (tok (accept _)) _ _ => apply goes_tok, accept_goes; [done|track|intros ? ?|]
  | |- goes (tok identifier) _ _ => apply goes_tok, identifier_goes; [track|intros ? ? ?]
  | |- goes (tok variable) _ _ => apply goes_tok, identifier_goes; [track|intros ? ? ?]
  | |- goes (tok argument) _ _ => apply goes_tok, identifier_goes; [track|intros ? ? ?]
  | |- goes (tok keyword) _ _ => apply goes_tok, keyword_goes; [track|intros ? ? ?]
  | |- goes (tok _string) _ _ => apply goes_tok, _string_goes; [track|intros ? ? ?]
  | |- goes (tok PeekForNextSymbolFromLexerIfNecessary) _ _ =>
      apply goes_tok, PeekIfNecessary_goes; [track|intros ? ? ?]
  | |- goes (let _ := _ in _) _ _ => cbv zeta
  | H : forall _ _, after _ _ -> ?Q _ _ |- ?Q _ _ => apply H; track
  | H : forall _ _, later _ _ -> ?Q _ _ |- ?Q _ _ => apply H; track
  end.
Ltac walk := repeat walk_step.

Section Literals.

Context (t : bool).

Lemma ParseInteger_ends str n : ParseInteger t str n <> Err OutOfFuel.
Proof using.
  unfold ParseInteger, NewBigIntegerFromStr, of_option. repeat (case_match; try done).
Qed.

Lemma binarySelector_goes p (Q : loc -> Parser -> Prop) :
  reading p -> (forall l p', later p p' -> (p_sym p <> NONE -> after p p') -> Q l p') ->
  goes binarySelector p Q.
Proof using.
  intros Hr HQ. apply goes_bind, goes_tok, binary_text_goes; [done|]. intros s p1 H1 H2. walk.
  by apply HQ.
Qed.

Lemma unarySelector_goes p (Q : loc -> Parser -> Prop) :
  reading p -> (forall l p', after p p' -> Q l p') -> goes unarySelector p Q.
Proof using. intros Hr HQ. unfold unarySelector. walk. Qed.

Lemma selector_goes p (Q : loc -> Parser -> Prop) :
  reading p -> (forall l p', later p p' -> Q l p') -> goes selector p Q.
Proof using.
  intros Hr HQ. unfold selector. walk.
  - apply binarySelector_goes; [done|]. auto.
  - unfold keywordSelector. walk. apply goes_tok, goesT_bind, acceptOneOf_goes; [set_solver|done| |done].
    intros p' Hp. apply goesT_ret. walk.
  - apply unarySelector_goes; [done|]. intros l p' Hp. walk.
Qed.

Lemma literalNumber_goes p (Q : () -> Parser -> Prop) :
  reading p -> (forall x p', after p p' -> Q x p') -> goes (literalNumber t) p Q.
Proof using.
  intros Hr HQ. unfold literalNumber, literalNumberOop, negativeDecimal, literalDecimal, literalInteger,
    literalDouble, NewDouble.
  walk; (apply goes_lift; [apply ParseInteger_ends|]); intros v; walk.
Qed.

Lemma literalSymbol_goes p (Q : () -> Parser -> Prop) :
  reading p -> (forall x p', after p p' -> Q x p') -> goes (literalSymbol t) p Q.
Proof using.
  intros Hr HQ. unfold literalSymbol. walk. apply selector_goes; [track|]. intros l p2 H2. walk.
Qed.

Lemma literalString_goes p (Q : () -> Parser -> Prop) :
  reading p -> (forall x p', after p p' -> Q x p') -> goes (literalString t) p Q.
Proof using. intros Hr HQ. unfold literalString. walk. Qed.

(** The ranks of the functions on literals are 1 to 3: a call that uses nothing up goes
    to a lower one, and a symbol is worth twelve. *)
Record literals_go (fuel : nat) : Prop := {
  go_literal p (Q : () -> Parser -> Prop) :
    reading p -> (12 * to_read p + 2 <= fuel)%nat -> (forall x p', after p p' -> Q x p') ->
    goes (literal t fuel) p Q;
  go_literalArray p (Q : () -> Parser -> Prop) :
    reading p -> (12 * to_read p + 1 <= fuel)%nat -> (forall x p', after p p' -> Q x p') ->
    goes (literalArray t fuel) p Q;
  go_elements m i p (Q : Z -> Parser -> Prop) :
    reading p -> (12 * to_read p + 3 <= fuel)%nat -> (forall x p', later p p' -> Q x p') ->
    goes (literal_elements t fuel m i) p Q }.

Lemma literals_go_all fuel : literals_go fuel.
Proof using.
  induction fuel as [|fuel IH]; split; intros;
    [lia..|cbn [literal]|cbn [literalArray]|cbn [literal_elements]].
  - apply goes_bind. walk_step. walk_step.
    destruct (p_sym p) eqn:E; try (apply literalNumber_goes; done); walk.
    + apply (go_literalArray _ IH); [track|track|]. intros ? ? ?. walk.
    + apply literalSymbol_goes; [track|]. intros ? ? ?. walk.
    + by apply literalString_goes.
  - walk. apply (go_elements _ IH); [track|track|]. intros ? ? ?. walk.
  - walk. apply (go_literal _ IH); [track|track|]. intros ? ? ?. walk.
    apply (go_elements _ IH); [track|track|]. intros ? ? ?. walk.
Qed.

End Literals.

(** ** Expressions and blocks *)

Section Blocks.

Context (t : bool).

Lemma add_argument_goes p (Q : () -> Parser -> Prop) :
  reading p -> (forall x p', after p p' -> Q x p') -> goes add_argument p Q.
Proof using. intros Hr HQ. unfold add_argument. walk. Qed.

Lemma unary_messages_goes fuel super p (Q : bool -> Parser -> Prop) :
  reading p -> (to_read p < fuel)%nat -> (forall b p', later p p' -> Q b p') ->
  goes (unary_messages fuel super) p Q.
Proof using.
  revert super p. induction fuel as [|fuel IH]; intros super p Hr Hf HQ; [lia|].
  cbn [unary_messages]. unfold unaryMessage. walk.
  apply unarySelector_goes; [done|]. intros. walk. apply IH; [track|track|]. intros. walk.
Qed.

Lemma parse_locals_goes fuel p (Q : () -> Parser -> Prop) :
  reading p -> (to_read p < fuel)%nat -> (forall x p', later p p' -> Q x p') ->
  goes (parse_locals fuel) p Q.
Proof using.
  revert p. induction fuel as [|fuel IH]; intros p Hr Hf HQ; [lia|].
  cbn [parse_locals]. walk. apply IH; [track|track|]. intros. walk.
Qed.

Lemma blockArguments_goes fuel p (Q : () -> Parser -> Prop) :
  reading p -> (to_read p < fuel)%nat -> (forall x p', later p p' -> Q x p') ->
  goes (blockArguments fuel) p Q.
Proof using.
  revert p. induction fuel as [|fuel IH]; intros p Hr Hf HQ; [lia|].
  cbn [blockArguments]. walk. apply add_argument_goes; [track|]. intros. walk.
  apply IH; [track|track|]. intros. walk.
Qed.

Lemma tryIncOrDec_goes msg super p (Q : bool -> Parser -> Prop) :
  reading p -> (forall b p', later p p' -> Q b p') -> goes (tryIncOrDecBytecodes msg super) p Q.
Proof using. intros Hr HQ. unfold tryIncOrDecBytecodes. walk. Qed.

Lemma set_block_signature_goes p (Q : () -> Parser -> Prop) :
  (forall x, Q x p) -> goes set_block_signature p Q.
Proof using. intros HQ. unfold set_block_signature. walk. apply HQ. Qed.

Lemma send_message_ends super msg : ends anyhow (send_message super msg).
Proof using. ends. Qed.

Lemma genPushVariable_ends v : ends anyhow (genPushVariable t v).
Proof using. ends. Qed.

Lemma genPopVariable_ends v : ends anyhow (genPopVariable v).
Proof using. ends. Qed.

Lemma each_ends {A} (f : A -> G ()) l : (forall x, ends anyhow (f x)) -> ends anyhow (each f l).
Proof using. intros Hf. induction l as [|x l IH]; cbn [each]; ends. Qed.

Lemma inline_binary_ends super s : ends anyhow (inline_binary t super s).
Proof using. ends. Qed.

Lemma inline_keyword_ends super s n : ends anyhow (inline_keyword t super s n).
Proof using. ends. Qed.

Hint Resolve send_message_ends genPushVariable_ends genPopVariable_ends each_ends inline_binary_ends
  inline_keyword_ends : ends.

(** [rank r fuel m]: the fuel is enough for [m], a function of rank [r]. *)
Definition rank {A} (r fuel : nat) (m : P A) : Prop := forall p (Q : A -> Parser -> Prop),
  reading p -> (12 * to_read p + r <= fuel)%nat -> (forall x p', later p p' -> Q x p') -> goes m p Q.

Record blocks_go (fuel : nat) : Prop := {
  go_blockContents b : rank 8 fuel (blockContents t fuel b);
  go_blockBody b c : rank 7 fuel (blockBody t fuel b c);
  go_result : rank 7 fuel (parse_result t fuel);
  go_expression : rank 6 fuel (expression t fuel);
  go_assignation : rank 5 fuel (assignation t fuel);
  go_evaluation : rank 4 fuel (evaluation t fuel);
  go_primary : rank 3 fuel (primary t fuel);
  go_messages b : rank 3 fuel (messages t fuel b);
  go_binaryMessages b : rank 2 fuel (binaryMessages t fuel b);
  go_binaryMessage b p (Q : () -> Parser -> Prop) :
    reading p -> (12 * to_read p + 1 <= fuel)%nat -> p_sym p <> NONE ->
    (forall x p', after p p' -> Q x p') -> goes (binaryMessage t fuel b) p Q;
  go_binaryOperand : rank 4 fuel (binaryOperand t fuel);
  go_keywordMessage b : rank 1 fuel (keywordMessage t fuel b);
  go_keyword_parts k n : rank 1 fuel (keyword_parts t fuel k n);
  go_formula : rank 5 fuel (formula t fuel);
  go_nestedTerm : rank 1 fuel (nestedTerm t fuel);
  go_nestedBlock : rank 1 fuel (nestedBlock t fuel) }.

Lemma rank_goes {A} r fuel (m : P A) p Q :
  rank r fuel m -> reading p -> (12 * to_read p + r <= fuel)%nat ->
  (forall x p', later p p' -> Q x p') -> goes m p Q.
Proof using. intros H. apply H. Qed.

(** A call: of a function with a rank, or of one of the loops. *)
Ltac call L := first
  [ eapply rank_goes; [apply L|track|track|intros; walk] | apply L; [track|track|intros; walk] ].
Ltac start := intros p Q Hr Hf HQ.

Section Step.

Context (fuel : nat) (IH : blocks_go fuel).

Lemma step_blockContents b : rank 8 (S fuel) (blockContents t (S fuel) b).
Proof using IH.
  start. cbn [blockContents]. walk.
  - call parse_locals_goes. call (go_blockBody _ IH).
  - call (go_blockBody _ IH).
Qed.

Lemma step_blockBody b c : rank 7 (S fuel) (blockBody t (S fuel) b c).
Proof using IH.
  start. cbn [blockBody]. unfold finish_block. walk.
  - call (go_result _ IH).
  - call (go_expression _ IH). call (go_blockBody _ IH).
Qed.

Lemma step_result : rank 7 (S fuel) (parse_result t (S fuel)).
Proof using IH. start. cbn [parse_result]. walk; call (go_expression _ IH). Qed.

Lemma step_expression : rank 6 (S fuel) (expression t (S fuel)).
Proof using IH.
  start. cbn [expression]. walk; [call (go_assignation _ IH)|call (go_evaluation _ IH)].
Qed.

Lemma step_assignation : rank 5 (S fuel) (assignation t (S fuel)).
Proof using IH.
  start. cbn [assignation]. apply goes_bind, goes_tok, assignments_goes; [done|lia|]. intros.
  walk. call (go_evaluation _ IH).
Qed.

Lemma step_evaluation : rank 4 (S fuel) (evaluation t (S fuel)).
Proof using IH.
  start. cbn [evaluation]. walk. call (go_primary _ IH). call (go_messages _ IH).
Qed.

Lemma step_primary : rank 3 (S fuel) (primary t (S fuel)).
Proof using IH.
  start. cbn [primary]. apply goes_bind. walk_step. walk_step.
  destruct (p_sym p); try (apply goes_bind, (go_literal _ _ (literals_go_all t fuel)); [done|lia|intros; walk]);
    walk.
  - apply goes_in_block. walk. call (go_nestedBlock _ IH).
  - call (go_nestedTerm _ IH).
Qed.

Lemma step_messages b : rank 3 (S fuel) (messages t (S fuel) b).
Proof using IH.
  start. cbn [messages]. walk; [|call (go_keywordMessage _ IH)].
  call unary_messages_goes. call (go_binaryMessages _ IH). call (go_keywordMessage _ IH).
Qed.

Lemma step_binaryMessages b : rank 2 (S fuel) (binaryMessages t (S fuel) b).
Proof using IH.
  start. cbn [binaryMessages]. walk.
  apply (go_binaryMessage _ IH); [done|lia|by apply symIsBinary_some|]. intros.
  call (go_binaryMessages _ IH).
Qed.

Lemma step_binaryMessage b p (Q : () -> Parser -> Prop) :
  reading p -> (12 * to_read p + 1 <= S fuel)%nat -> p_sym p <> NONE ->
  (forall x p', after p p' -> Q x p') -> goes (binaryMessage t (S fuel) b) p Q.
Proof using IH.
  intros Hr Hf Hs HQ. cbn [binaryMessage]. walk. apply binarySelector_goes; [done|].
  intros l p1 _ H1. specialize (H1 Hs). walk. apply tryIncOrDec_goes; [track|]. intros. walk.
  call (go_binaryOperand _ IH).
Qed.

Lemma step_binaryOperand : rank 4 (S fuel) (binaryOperand t (S fuel)).
Proof using IH. start. cbn [binaryOperand]. walk. call (go_primary _ IH). call unary_messages_goes. Qed.

Lemma step_keywordMessage b : rank 1 (S fuel) (keywordMessage t (S fuel) b).
Proof using IH.
  start. cbn [keywordMessage]. walk. call (go_formula _ IH). call (go_keyword_parts _ IH).
Qed.

Lemma step_keyword_parts k n : rank 1 (S fuel) (keyword_parts t (S fuel) k n).
Proof using IH.
  start. cbn [keyword_parts]. walk. call (go_formula _ IH). call (go_keyword_parts _ IH).
Qed.

Lemma step_formula : rank 5 (S fuel) (formula t (S fuel)).
Proof using IH.
  start. cbn [formula]. walk. call (go_binaryOperand _ IH). call (go_binaryMessages _ IH).
Qed.

Lemma step_nestedTerm : rank 1 (S fuel) (nestedTerm t (S fuel)).
Proof using IH. start. cbn [nestedTerm]. walk. call (go_expression _ IH). Qed.

Lemma step_nestedBlock : rank 1 (S fuel) (nestedBlock t (S fuel)).
Proof using IH.
  start. cbn [nestedBlock]. unfold blockPattern, finish_block. walk.
  - call blockArguments_goes. apply set_block_signature_goes. intros. walk. call (go_blockContents _ IH).
  - apply set_block_signature_goes. intros. walk. call (go_blockContents _ IH).
Qed.

End Step.

Lemma blocks_go_all fuel : blocks_go fuel.
Proof using.
  induction fuel as [|fuel IH].
  - split; intros; try (intros p Q ? ? ?); lia.
  - split; intros; [by apply step_blockContents|by apply step_blockBody|by apply step_result
      |by apply step_expression|by apply step_assignation|by apply step_evaluation
      |by apply step_primary|by apply step_messages|by apply step_binaryMessages
      |by apply step_binaryMessage|by apply step_binaryOperand|by apply step_keywordMessage
      |by apply step_keyword_parts|by apply step_formula|by apply step_nestedTerm
      |by apply step_nestedBlock].
Qed.

End Blocks.

(** ** Methods and classes *)

Section Classes.

Context (t : bool).

Lemma keyword_pattern_goes fuel k p (Q : string -> Parser -> Prop) :
  reading p -> (to_read p < fuel)%nat -> (forall x p', after p p' -> Q x p') ->
  goes (keyword_pattern fuel k) p Q.
Proof using.
  revert k p. induction fuel as [|fuel IH]; intros k p Hr Hf HQ; [lia|].
  cbn [keyword_pattern]. walk. apply add_argument_goes; [track|]. intros. walk.
  apply IH; [track|track|]. intros. walk.
Qed.

Lemma pattern_goes fuel p (Q : () -> Parser -> Prop) :
  reading p -> (to_read p < fuel)%nat -> p_sym p <> NONE -> (forall x p', after p p' -> Q x p') ->
  goes (pattern fuel) p Q.
Proof using.
  intros Hr Hf Hs HQ. unfold pattern. apply goes_bind. walk_step. walk_step.
  assert (goes binaryPattern p Q) as Hb.
  { unfold binaryPattern. walk. apply binarySelector_goes; [done|]. intros l p1 _ H1.
    specialize (H1 Hs). walk. apply add_argument_goes; [track|]. intros. walk. }
  assert (goes unaryPattern p Q) as Hu.
  { unfold unaryPattern. walk. apply unarySelector_goes; [done|]. intros. walk. }
  destruct (p_sym p); try done. unfold keywordPattern. walk.
  apply keyword_pattern_goes; [done|done|]. intros. walk.
Qed.

Lemma class_method_goes fuel p (Q : loc -> Parser -> Prop) :
  reading p -> (12 * to_read p + 1 <= fuel)%nat -> p_sym p <> NONE ->
  (forall x p', after p p' -> Q x p') -> goes (class_method t fuel) p Q.
Proof using.
  intros Hr Hf Hs HQ. unfold class_method, parse_method, primitiveBlock, methodBlock. walk.
  apply pattern_goes; [done|lia|done|]. intros. walk.
  eapply (rank_goes 8 fuel); [apply go_blockContents, blocks_go_all|track|track|]. intros. walk.
Qed.

Definition goesC {A} (m : stateful CState A) (p : Parser) (Q : A -> Parser -> Prop) : Prop := forall w c,
  match m (mkCState p w c) with Ok (a, s) => Q a (cs_parser s) | Err e => e <> OutOfFuel end.

Lemma goesC_bind {A B} (m : stateful CState A) (f : A -> stateful CState B) p Q :
  goesC m p (fun a p' => goesC (f a) p' Q) -> goesC (m ≫= f) p Q.
Proof using.
  intros H w c. specialize (H w c). unfold mbind, stateful_bind.
  destruct (m (mkCState p w c)) as [[a [p' w' c']]|e]; [|done]. apply H.
Qed.

Lemma goesC_ret {A} (a : A) p (Q : A -> Parser -> Prop) : Q a p -> goesC (mret a) p Q.
Proof using. by intros H w c. Qed.

Lemma goesC_tok {A} (m : T A) p (Q : A -> Parser -> Prop) : goesT m p Q -> goesC (tokC m) p Q.
Proof using. intros H w c. unfold goesT, tokC in *. cbn. by destruct (m p) as [[a p']|e]. Qed.

Lemma goesC_lift {A} (m : V A) p (Q : A -> Parser -> Prop) :
  ends anyhow m -> (forall a, Q a p) -> goesC (liftC m) p Q.
Proof using.
  intros H HQ w c. specialize (H w). unfold ends_at, liftC in *. cbn.
  by destruct (m w) as [[a w']|e]; [apply HQ|].
Qed.

Lemma goesC_update f p (Q : () -> Parser -> Prop) : (forall x, Q x p) -> goesC (update_class f) p Q.
Proof using. intros H w c. apply H. Qed.

Lemma goesC_method {A} (m : P A) p (Q : A -> Parser -> Prop) : goes m p Q -> goesC (in_method m) p Q.
Proof using.
  intros H w c. unfold in_method. cbn. match goal with |- context [m (mkPGen p ?h)] => specialize (H h) end.
  by destruct (m _) as [[a s]|e].
Qed.

Ltac walkC_step :=
  match goal with
  | |- goesC (_ ≫= _) _ _ => apply goesC_bind
  | |- goesC (mret _) _ _ => apply goesC_ret
  | |- goesC (match ?x with _ => _ end) _ _ => destruct x eqn:?
  | |- goesC (liftC _) _ _ => apply goesC_lift; [solve [ends]|intros ?]
  | |- goesC (update_class _) _ _ => apply goesC_update; intros ?
  | |- goesC (tokC (gets _)) _ _ => apply goesC_tok, goesT_gets
  | |- goesC (tokC (expect _)) _ _ => apply goesC_tok, expect_goes; [done|track|intros ? ?]
  | |- goesC (tokC (accept _)) _ _ => apply goesC_tok, accept_goes; [done|track|intros ? ?|]
  | |- goesC (tokC variable) _ _ => apply goesC_tok, identifier_goes; [track|intros ? ? ?]
  | H : forall _ _, later _ _ -> ?Q _ _ |- ?Q _ _ => apply H; track
  end.
Ltac walkC := repeat walkC_step.

Lemma class_methods_goes fuel add p (Q : () -> Parser -> Prop) :
  reading p -> (12 * to_read p + 2 <= fuel)%nat -> (forall x p', later p p' -> Q x p') ->
  goesC (class_methods t fuel add) p Q.
Proof using.
  revert p. induction fuel as [|fuel IH]; intros p Hr Hf HQ; [lia|].
  cbn [class_methods]. walkC. apply goesC_method, class_method_goes;
    [done|lia|by apply symIsMessage_some|]. intros. walkC. apply IH; [track|track|]. intros. walkC.
Qed.

Lemma class_fields_goes fuel add p (Q : () -> Parser -> Prop) :
  reading p -> (to_read p < fuel)%nat -> (forall x p', later p p' -> Q x p') ->
  goesC (class_fields fuel add) p Q.
Proof using.
  revert p. induction fuel as [|fuel IH]; intros p Hr Hf HQ; [lia|].
  cbn [class_fields]. walkC. apply IH; [track|track|]. intros. walkC.
Qed.

Lemma parse_fields_goes fuel add p (Q : () -> Parser -> Prop) :
  reading p -> (to_read p < fuel)%nat -> (forall x p', later p p' -> Q x p') ->
  goesC (parse_fields fuel add) p Q.
Proof using.
  intros Hr Hf HQ. unfold parse_fields. walkC. apply class_fields_goes; [track|track|]. intros. walkC.
Qed.

Context (LoadClass : loc -> V oop) (HLoad : forall n, ends anyhow (LoadClass n)).

Hint Resolve HLoad : ends.

Lemma superclass_goes p (Q : () -> Parser -> Prop) :
  reading p -> (forall x p', later p p' -> Q x p') -> goesC (superclass LoadClass) p Q.
Proof using HLoad. intros Hr HQ. unfold superclass. walkC. Qed.

Lemma Classdef_goes fuel p :
  reading p -> (12 * to_read p <= fuel)%nat -> goesC (Classdef t LoadClass fuel) p (fun _ _ => True).
Proof using HLoad.
  intros Hr Hf. unfold Classdef. walkC. apply superclass_goes; [track|]. intros. walkC.
  apply parse_fields_goes; [track|track|]. intros. walkC.
  apply class_methods_goes; [track|track|]. intros. walkC; try done.
  apply parse_fields_goes; [track|track|]. intros. walkC.
  apply class_methods_goes; [track|track|]. intros. walkC. done.
Qed.

Lemma AssembleClass_ends c : ends anyhow (AssembleClass LoadClass c).
Proof using HLoad. ends. Qed.

Lemma AssembleSystemClass_ends c k : ends anyhow (AssembleSystemClass c k).
Proof using. ends. Qed.

Lemma new_Parser_reads input :
  match new_Parser input with
  | Ok p => reading p /\ (to_read p <= S (length input))%nat
  | Err e => e <> OutOfFuel
  end.
Proof using.
  unfold new_Parser. pose proof (GetSym_goes (mkParser (new_Lexer input) NONE "" NONE "")
    (fun _ p => reading p /\ (to_read p <= S (length input))%nat)) as H. unfold goesT in H.
  destruct (Parser.GetSym _) as [[[] p]|e]; cbn; apply H; try by intros ?.
  all: intros p' Hr Hl; cbn in Hl; split; [done|lia].
Qed.

End Classes.

(** ** A class that is its own superclass

    A class is entered into the globals when it has been compiled.  The compiler loads
    the superclass before that, so a class that names itself makes the loader call itself
    for ever. *)

Section Own.

Context (USE_TAGGING vectors abort : bool) (env : Environment).
Context (Hread : forall w, env_read env "lib/A.som" w = Ok (Some "A = A ( )"%string, w)).

Notation Load := (LoadClass USE_TAGGING vectors abort env ["lib"%string]).

(** The class is not loaded, and its name is a symbol. *)
Record ready (name : loc) (w : World) : Prop := {
  ready_symbol : exists s, heap w !! name = Some (OSymbol s) /\ sym_chars s = "A"%string;
  ready_old : (name < next w)%nat;
  ready_found : symbolsMap w !! "A"%string = Some name;
  ready_nil : symbolsMap w !! "nil"%string <> Some name;
  ready_global : globals w !! name = None }.

Lemma SymbolFor_nil name w :
  ready name w -> exists n w', SymbolFor "nil" w = Ok (n, w') /\ ready name w' /\ n <> name.
Proof using.
  intros [(s & Hs & Hc) Ho Hf Hn Hg]. unfold SymbolFor, mbind, stateful_bind, gets.
  destruct (symbolsMap w !! "nil"%string) as [n|] eqn:E.
  - exists n, w. split; [done|]. split; [|congruence]. split; eauto. congruence.
  - eexists _, _. split; [done|]. split; [|lia]. split; cbn.
    + exists s. rewrite lookup_insert_ne by lia. done.
    + lia.
    + by rewrite lookup_insert_ne.
    + rewrite lookup_insert_eq. intros [= H]. lia.
    + done.
Qed.

Definition own : list ascii := list_ascii_of_string "A = A ( )".

(** The tokens up to the superclass. *)
Lemma own_tokens : exists p p1 p2,
  new_Parser own = Ok p /\ p_text p = "A"%string
  /\ (forall w c, tokC (expect Identifier) (mkCState p w c) = Ok (tt, mkCState p1 w c))
  /\ (forall w c, tokC (expect Equal) (mkCState p1 w c) = Ok (tt, mkCState p2 w c))
  /\ p_sym p2 = Identifier /\ p_text p2 = "A"%string
  /\ exists p3, forall w c, tokC (accept Identifier) (mkCState p2 w c) = Ok (true, mkCState p3 w c).
Proof using.
  eexists _, _, _. split; [vm_compute; reflexivity|]. split; [reflexivity|].
  split; [intros; vm_compute; reflexivity|]. split; [intros; vm_compute; reflexivity|].
  split; [reflexivity|]. split; [reflexivity|]. eexists. intros. vm_compute. reflexivity.
Qed.

Lemma SymbolFor_A name w : ready name w -> SymbolFor "A" w = Ok (name, w).
Proof using. intros H. unfold SymbolFor, mbind, stateful_bind, gets. by rewrite (ready_found _ _ H). Qed.

Lemma own_classdef Load fuel name w :
  ready name w -> (forall w', ready name w' -> Load name w' = Err OutOfFuel) ->
  compile USE_TAGGING Load fuel own Null w = Err OutOfFuel.
Proof using.
  intros Hw HL. destruct own_tokens as (p & p1 & p2 & Ep & Et & E1 & E2 & Ey & Et2 & p3 & E3).
  destruct (SymbolFor_nil name w Hw) as (n & w' & E & Hw' & Hn).
  unfold compile. rewrite Ep.
  assert (forall q w0 c0 t a w1, SymbolFor t w0 = Ok (a, w1) ->
    liftC (SymbolFor t) (mkCState q w0 c0) = Ok (a, mkCState q w1 c0)) as HS.
  { intros q w0 c0 t a w1 H. unfold liftC. cbn. by rewrite H. }
  assert (forall c, superclass Load (mkCState p2 w c) = Err OutOfFuel) as Hsuper.
  { intros c. unfold superclass. erewrite bind_step by done. erewrite bind_step by done.
    cbn [cs_parser]. rewrite Ey, Et2. destruct (decide (Identifier = Identifier)) as [_|]; [|done].
    erewrite bind_step.
    2: { erewrite bind_step by (by apply HS, SymbolFor_A). erewrite bind_step by apply E3. done. }
    erewrite bind_step by done. cbn [cs_parser cs_world cs_class].
    erewrite bind_step by (by apply HS). rewrite decide_False by done. apply bind_err.
    unfold liftC. cbn. by rewrite HL. }
  assert (Classdef USE_TAGGING Load fuel (mkCState p w new_ClassGen) = Err OutOfFuel) as ->; [|done].
  unfold Classdef. erewrite bind_step by done. cbn [cs_parser]. rewrite Et.
  erewrite bind_step by (by apply HS, SymbolFor_A). erewrite bind_step by done.
  erewrite bind_step by apply E1. erewrite bind_step by apply E2. by apply bind_err.
Qed.

(** However deep the calls of the loader may nest, they are not deep enough. *)
Lemma own_superclass_never_loads fuel name w : ready name w -> Load fuel name w = Err OutOfFuel.
Proof using Hread.
  revert w. induction fuel as [|fuel IH]; intros w Hw; [done|].
  pose proof Hw as [(s & Hs & Hc) Ho Hf Hnil Hg].
  cbn [LoadClass]. unfold LoadClass_with.
  assert (GetGlobal name w = Ok (Null, w)) as EG.
  { unfold GetGlobal, mbind, stateful_bind, gets. by rewrite Hg. }
  erewrite bind_step by exact EG. rewrite decide_True by done. apply bind_err.
  unfold LoadClassBasic_with. erewrite bind_step.
  2: { unfold GetStdString, mbind, stateful_bind, deref, load. rewrite Hs. by rewrite Hc. }
  cbn [compile_on_path]. apply bind_err. unfold CompileClass.
  erewrite bind_step by apply Hread. cbv zeta. apply bind_err. by eapply own_classdef.
Qed.
End Own.

(** ** The properties *)

(** C12: The compiler ends on every text and in every state of the machine, provided that
    loading a superclass does: neither the lexer, nor the recursive descent, nor the
    inlining of blocks and the patching of their jumps, nor the assembly of the class runs
    for ever.  Twelve steps of recursion per character, and twelve more, are enough. *)
Theorem compiler_terminates USE_TAGGING LoadClass fuel input systemClass w :
  (forall n w0, LoadClass n w0 <> Err OutOfFuel) -> (parser_fuel input <= fuel)%nat ->
  compile USE_TAGGING LoadClass fuel input systemClass w <> Err OutOfFuel.
Proof.
  intros HL Hf. assert (forall n, ends anyhow (LoadClass n)) as HE.
  { intros n w0. specialize (HL n w0). unfold ends_at. destruct (LoadClass n w0) as [[a w1]|e]; [done|congruence]. }
  unfold compile. pose proof (new_Parser_reads input) as HP.
  destruct (new_Parser input) as [p|e]; [|congruence]. destruct HP as [Hr Hl].
  assert (12 * to_read p <= fuel)%nat as Hp by (unfold parser_fuel in Hf; lia).
  pose proof (Classdef_goes USE_TAGGING LoadClass HE fuel p Hr Hp w new_ClassGen) as HC.
  destruct (Classdef _ _ _ _) as [[[] s]|e]; [|congruence].
  pose proof (AssembleClass_ends LoadClass HE (cs_class s) (cs_world s)) as H1.
  assert (ends anyhow (AssembleSystemClass (cs_class s) systemClass;; mret systemClass)) as H2.
  { apply ends_bind; [apply _|apply AssembleSystemClass_ends|ends]. }
  specialize (H2 (cs_world s)). unfold ends_at in *.
  intros E. destruct systemClass; [rewrite E in H1|rewrite E in H2..]; done.
Qed.

Lemma compiler_terminates_witness :
  compile true (fun _ => mret Null) (parser_fuel (list_ascii_of_string "A = nil ( a: b = ( [ ^b ] value ) "))
    (list_ascii_of_string "A = nil ( a: b = ( [ ^b ] value ) ") Null empty_world <> Err OutOfFuel.
Proof. apply compiler_terminates; [by intros n w|lia]. Defined.
