(* ===== verification/Agree.v ===== *)
(** * What an operation depends on

    A calculus for statements of the form: an operation of the machine reads and writes
    only objects that can be reached from its arguments and the global state. Two states
    [agree] on a set of locations when the set is closed under references, contains all
    the roots, and the two heaps have the same objects there; outside of it they may be
    anything. An operation is [stable] when, from any two such states, it ends in the
    same way, with the same answer, in two such states again. There is a rule for each
    construct of the monad, and a tactic that applies the rules and the lemmas of the
    database [stable]. *)
From Stdlib Require Import String.
From stdpp Require Import gmap.
From S2P Require Import Prelude Objects.
Local Open Scope Z_scope.

(** ** References into a set of locations *)

Definition loc_in (D : gset loc) (l : loc) : Prop := l ∈ D.

Definition oop_in (D : gset loc) (p : oop) : Prop :=
  match p with Ref l => loc_in D l | _ => True end.

Definition any {A} (D : gset loc) (a : A) : Prop := True.

Definition opt {A} (P : gset loc -> A -> Prop) (D : gset loc) (o : option A) : Prop :=
  match o with Some a => P D a | None => True end.

Definition all {A} (P : gset loc -> A -> Prop) (D : gset loc) (l : list A) : Prop := Forall (P D) l.

Definition both_in (D : gset loc) (p : oop * oop) : Prop := oop_in D p.1 /\ oop_in D p.2.

Definition symbol_in (D : gset loc) (s : SymbolData) : Prop := all both_in D (sym_cache s).

Definition frame_in (D : gset loc) (f : Frame) : Prop :=
  opt loc_in D (f_previous f) /\ opt loc_in D (f_context f) /\ loc_in D (f_method f) /\
  all oop_in D (f_slots f).

Definition method_in (D : gset loc) (m : Method) : Prop :=
  loc_in D (m_signature m) /\ oop_in D (m_holder m) /\ all oop_in D (m_constants m).

Definition trivial_in (D : gset loc) (t : trivial) : Prop :=
  match t with VMLiteralReturn p => oop_in D p | VMGlobalReturn l => loc_in D l | _ => True end.

Definition obj_in (D : gset loc) (o : obj) : Prop :=
  match o with
  | OInteger _ | OBigInteger _ | ODouble _ | OString _ => True
  | OSymbol s => symbol_in D s
  | OObject _ c fields => oop_in D c /\ all oop_in D fields
  | OFrame f => frame_in D f
  | OMethod m => method_in D m
  | OTrivial s hld _ _ t => loc_in D s /\ oop_in D hld /\ trivial_in D t
  | OPrimitive s hld _ => loc_in D s /\ oop_in D hld
  end.

Record known_in (D : gset loc) (k : Known) : Prop := mkKnownIn {
  in_nil : oop_in D (nilObject k); in_true : oop_in D (trueObject k);
  in_false : oop_in D (falseObject k); in_object : oop_in D (objectClass k);
  in_class : oop_in D (classClass k); in_metaclass : oop_in D (metaClassClass k);
  in_nilClass : oop_in D (nilClass k); in_integer : oop_in D (integerClass k);
  in_array : oop_in D (arrayClass k); in_vector : oop_in D (vectorClass k);
  in_method : oop_in D (methodClass k); in_symbol : oop_in D (symbolClass k);
  in_primitive : oop_in D (primitiveClass k); in_string : oop_in D (stringClass k);
  in_system : oop_in D (systemClass k); in_block : oop_in D (blockClass k);
  in_double : oop_in D (doubleClass k); in_trueClass : oop_in D (trueClass k);
  in_falseClass : oop_in D (falseClass k); in_box : oop_in D (integerBox k);
  in_self : oop_in D (symbolSelf k); in_super : oop_in D (symbolSuper k);
  in_blockSelf : oop_in D (symbolBlockSelf k); in_ifTrue : oop_in D (symbolIfTrue k);
  in_ifFalse : oop_in D (symbolIfFalse k); in_plus : oop_in D (symbolPlus k);
  in_minus : oop_in D (symbolMinus k) }.

Definition globals_in (D : gset loc) (g : gmap loc oop) : Prop :=
  map_Forall (fun l p => loc_in D l /\ oop_in D p) g.
Definition symbols_in (D : gset loc) (s : gmap string loc) : Prop := map_Forall (fun _ l => loc_in D l) s.
Definition blocks_in (D : gset loc) (b : gmap nat oop) : Prop := map_Forall (fun _ p => oop_in D p) b.

(** ** More locations *)

Class Mono {A} (P : gset loc -> A -> Prop) : Prop :=
  mono : forall D D' a, D ⊆ D' -> P D a -> P D' a.

#[export] Instance mono_loc : Mono loc_in.
Proof. intros D D' l H. unfold loc_in. set_solver. Qed.
#[export] Instance mono_oop : Mono oop_in.
Proof. intros D D' [| |l] H; cbn; [done..|]. by apply mono. Qed.
#[export] Instance mono_any A : Mono (@any A).
Proof. done. Qed.
#[export] Instance mono_opt A (P : gset loc -> A -> Prop) : Mono P -> Mono (opt P).
Proof. intros HP D D' [a|] H; cbn; [|done]. by apply HP. Qed.
#[export] Instance mono_all A (P : gset loc -> A -> Prop) : Mono P -> Mono (all P).
Proof. intros HP D D' l H HF. eapply Forall_impl; [exact HF|]. intros a. by apply HP. Qed.
#[export] Instance mono_both : Mono both_in.
Proof. intros D D' p H [H1 H2]. split; by eapply mono. Qed.
#[export] Instance mono_symbol : Mono symbol_in.
Proof. intros D D' s H. apply (mono (P := all both_in)). done. Qed.
#[export] Instance mono_frame : Mono frame_in.
Proof. intros D D' f H (? & ? & ? & ?). split_and!; by eapply mono. Qed.
#[export] Instance mono_method : Mono method_in.
Proof. intros D D' m H (? & ? & ?). split_and!; by eapply mono. Qed.
#[export] Instance mono_trivial : Mono trivial_in.
Proof. intros D D' [] H; cbn; try done; by apply mono. Qed.
#[export] Instance mono_obj : Mono obj_in.
Proof. intros D D' [] H; cbn; intros; destruct_and?; split_and?; try done; by eapply mono. Qed.
#[export] Instance mono_known : Mono known_in.
Proof. intros D D' k H []. split; by eapply mono. Qed.
#[export] Instance mono_globals : Mono globals_in.
Proof. intros D D' g H HF l p Hl. destruct (HF l p Hl). split; by eapply mono. Qed.
#[export] Instance mono_symbols : Mono symbols_in.
Proof. intros D D' g H HF s l Hl. eapply (mono (P := loc_in)); [done|]. by apply HF in Hl. Qed.
#[export] Instance mono_blocks : Mono blocks_in.
Proof. intros D D' g H HF n p Hp. eapply (mono (P := oop_in)); [done|]. by apply HF in Hp. Qed.

(** ** Agreement of two states *)

(** The flag says that the machine is running: there is a current method. *)
Class Agree (S : Type) : Type := agree : bool -> gset loc -> S -> S -> Prop.

(** The roots, other than the current method, lead into the set. *)
Record roots_in (D : gset loc) (w : World) : Prop := mkRootsIn {
  roots_known : known_in D (known w);
  roots_globals : globals_in D (globals w);
  roots_symbols : symbols_in D (symbolsMap w);
  roots_blocks : blocks_in D (blockClassesByNoOfArgs w);
  roots_frame : opt loc_in D (frame w) }.

Record agree_world (running : bool) (D : gset loc) (w1 w2 : World) : Prop := mkAgree {
  agree_rest : w2 = set_heap (heap w2) w1;
  agree_heap : forall l, loc_in D l -> exists o,
    heap w1 !! l = Some o /\ heap w2 !! l = Some o /\ obj_in D o;
  agree_roots : roots_in D w1;
  agree_method : running = true -> loc_in D (method w1) }.

#[export] Instance Agree_World : Agree World := agree_world.

(** ** Stable operations *)

Definition outcome {S A} `{Agree S} (r : bool) (P : gset loc -> A -> Prop) (D : gset loc)
    (r1 r2 : result (A * S)) : Prop :=
  match r1, r2 with
  | Ok (a1, s1), Ok (a2, s2) => a1 = a2 /\ exists D', D ⊆ D' /\ agree r D' s1 s2 /\ P D' a1
  | Err e1, Err e2 => e1 = e2
  | _, _ => False
  end.

Definition stable {S A} `{Agree S} (r : bool) (P : gset loc -> A -> Prop) (D : gset loc)
    (m : stateful S A) : Prop :=
  forall D0 s1 s2, D ⊆ D0 -> agree r D0 s1 s2 -> outcome r P D0 (m s1) (m s2).

Section Rules.

Context {S : Type} `{Agree S} (r : bool).

Lemma stable_ret {A} (P : gset loc -> A -> Prop) `{!Mono P} D a :
  P D a -> stable r P D (mret a : stateful S A).
Proof. intros Ha D0 s1 s2 HD Hs. cbn. split; [done|]. exists D0. split_and!; [done..|]. by eapply mono. Qed.

Lemma stable_fail {A} (P : gset loc -> A -> Prop) D e : stable r P D (fail e : stateful S A).
Proof. done. Qed.

Lemma stable_bind {A B} (P : gset loc -> A -> Prop) (Q : gset loc -> B -> Prop) D
    (m : stateful S A) (k : A -> stateful S B) :
  stable r P D m -> (forall D' a, D ⊆ D' -> P D' a -> stable r Q D' (k a)) -> stable r Q D (m ≫= k).
Proof.
  intros Hm Hk D0 s1 s2 HD Hs. specialize (Hm D0 s1 s2 HD Hs). unfold mbind, stateful_bind.
  destruct (m s1) as [[a s1']|e], (m s2) as [[b s2']|e']; cbn in Hm; [|done..|by subst].
  destruct Hm as (<- & D' & HD' & Hs' & Ha).
  specialize (Hk D' a ltac:(set_solver) Ha D' s1' s2' ltac:(done) Hs').
  destruct (k a s1') as [[c s1'']|], (k a s2') as [[d s2'']|]; cbn in *; try done.
  destruct Hk as (<- & D'' & ? & ? & ?). split; [done|]. exists D''. split_and!; [set_solver|done..].
Qed.

Lemma stable_weaken {A} (P Q : gset loc -> A -> Prop) D (m : stateful S A) :
  stable r P D m -> (forall D' a, P D' a -> Q D' a) -> stable r Q D m.
Proof.
  intros Hm HPQ D0 s1 s2 HD Hs. specialize (Hm D0 s1 s2 HD Hs).
  destruct (m s1) as [[a s1']|], (m s2) as [[b s2']|]; cbn in *; try done.
  destruct Hm as (<- & D' & ? & ? & ?). split; [done|]. exists D'. by eauto.
Qed.

Lemma stable_any {A} (P : gset loc -> A -> Prop) D (m : stateful S A) :
  stable r P D m -> stable r any D m.
Proof. intros Hm. by eapply stable_weaken. Qed.

Lemma stable_mono {A} (P : gset loc -> A -> Prop) D D' (m : stateful S A) :
  D ⊆ D' -> stable r P D m -> stable r P D' m.
Proof. intros HD Hm D0 s1 s2 ? ?. apply Hm; [set_solver|done]. Qed.

Lemma stable_lift {A} (P : gset loc -> A -> Prop) `{!Mono P} D (x : result A) :
  (forall a, x = Ok a -> P D a) -> stable r P D (lift x : stateful S A).
Proof.
  intros Hx. destruct x as [a|e]; [|done]. change (lift (Ok a)) with (mret a : stateful S A).
  apply stable_ret; [done|]. by apply Hx.
Qed.

Lemma stable_of_option {A} (P : gset loc -> A -> Prop) `{!Mono P} D e (o : option A) :
  opt P D o -> stable r P D (lift (of_option e o) : stateful S A).
Proof. intros Ho. apply stable_lift; [done|]. destruct o; cbn; [|done]. by intros ? [= <-]. Qed.

Lemma stable_lift_any {A} D (x : result A) : stable r any D (lift x : stateful S A).
Proof. by apply stable_lift; [apply _|]. Qed.

End Rules.

(** A read, a write and an update of the state. *)
Lemma stable_gets {S A} `{Agree S} r (P : gset loc -> A -> Prop) D (f : S -> A) :
  (forall D s1 s2, agree r D s1 s2 -> f s1 = f s2 /\ P D (f s1)) -> stable r P D (gets f).
Proof. intros Hf D0 s1 s2 HD Hs. cbn. destruct (Hf D0 s1 s2 Hs). split; [done|]. by exists D0. Qed.

Lemma stable_modify {S} `{Agree S} r D (f : S -> S) :
  (forall D0 s1 s2, D ⊆ D0 -> agree r D0 s1 s2 -> agree r D0 (f s1) (f s2)) -> stable r any D (modify f).
Proof. intros Hf D0 s1 s2 HD Hs. cbn. split; [done|]. exists D0. split_and!; [done|by apply Hf|done]. Qed.

(** ** Membership *)

Create HintDb within discriminated.
Create HintDb stable discriminated.
#[export] Hint Constants Opaque : stable.
#[export] Hint Constants Opaque : within.

Lemma in_ref D l : loc_in D l -> oop_in D (Ref l). Proof. done. Qed.
Lemma in_ref_inv D l : oop_in D (Ref l) -> loc_in D l. Proof. done. Qed.
Lemma in_null D : oop_in D Null. Proof. done. Qed.
Lemma in_tagged D z : oop_in D (Tagged z). Proof. done. Qed.
Lemma in_any {A} D (a : A) : any D a. Proof. done. Qed.
Lemma in_some {A} (P : gset loc -> A -> Prop) D a : P D a -> opt P D (Some a). Proof. done. Qed.
Lemma in_some_inv {A} (P : gset loc -> A -> Prop) D a : opt P D (Some a) -> P D a. Proof. done. Qed.
Lemma in_none {A} (P : gset loc -> A -> Prop) D : opt P D None. Proof. done. Qed.
Lemma in_nil_list {A} (P : gset loc -> A -> Prop) D : all P D []. Proof. constructor. Qed.
Lemma in_cons {A} (P : gset loc -> A -> Prop) D a l : P D a -> all P D l -> all P D (a :: l).
Proof. by constructor. Qed.
Lemma in_app {A} (P : gset loc -> A -> Prop) D l l' : all P D l -> all P D l' -> all P D (l ++ l').
Proof. intros. by apply Forall_app. Qed.
Lemma in_replicate {A} (P : gset loc -> A -> Prop) D n a : P D a -> all P D (replicate n a).
Proof. intros Ha. by apply Forall_replicate. Qed.
Lemma in_insert {A} (P : gset loc -> A -> Prop) D i a l : P D a -> all P D l -> all P D (<[i := a]> l).
Proof. intros Ha Hl. by apply Forall_insert. Qed.
Lemma in_lookup {A} (P : gset loc -> A -> Prop) D i l : all P D l -> opt P D (l !! i).
Proof. intros Hl. destruct (l !! i) as [a|] eqn:E; [|done]. cbn. by eapply Forall_lookup_1. Qed.
Lemma in_last {A} (P : gset loc -> A -> Prop) D l : all P D l -> opt P D (last l).
Proof. rewrite last_lookup. apply in_lookup. Qed.
Lemma in_removelast {A} (P : gset loc -> A -> Prop) D l : all P D l -> all P D (removelast l).
Proof.
  intros Hl. induction Hl as [|a [|b l] Ha Hl IH]; [constructor..|].
  cbn [removelast] in *. by apply in_cons.
Qed.
Lemma in_take {A} (P : gset loc -> A -> Prop) D n l : all P D l -> all P D (take n l).
Proof. intros Hl. by apply Forall_take. Qed.
Lemma in_drop {A} (P : gset loc -> A -> Prop) D n l : all P D l -> all P D (drop n l).
Proof. intros Hl. by apply Forall_drop. Qed.
Lemma in_rev {A} (P : gset loc -> A -> Prop) D l : all P D l -> all P D (rev l).
Proof. intros Hl. by apply Forall_rev. Qed.
Lemma in_default D p o : oop_in D p -> opt oop_in D o -> oop_in D (default p o).
Proof. by destruct o. Qed.
Lemma in_if D (b : bool) x y : oop_in D x -> oop_in D y -> oop_in D (if b then x else y).
Proof. by destruct b. Qed.
Lemma in_if_decide D (P Q : Prop) (b : {P} + {Q}) x y :
  oop_in D x -> oop_in D y -> oop_in D (if b then x else y).
Proof. by destruct b. Qed.
Lemma in_any_opt {A} D (o : option A) : opt any D o. Proof. by destruct o. Qed.
Lemma in_any_all {A} D (l : list A) : all any D l. Proof. by induction l; constructor. Qed.

#[export] Hint Resolve in_ref in_null in_tagged in_any in_some in_none in_nil_list in_cons
  in_app in_replicate in_insert in_lookup in_last in_removelast in_take in_drop in_rev in_default in_if in_if_decide
  in_any_opt in_any_all : within.
#[export] Hint Resolve in_nil in_true in_false in_object in_class in_metaclass in_nilClass in_integer in_array
  in_vector in_method in_symbol in_primitive in_string in_system in_block in_double in_trueClass
  in_falseClass in_box in_self in_super in_blockSelf in_ifTrue in_ifFalse in_plus in_minus : within.

Lemma in_slots D f : frame_in D f -> all oop_in D (f_slots f). Proof. by intros (? & ? & ? & ?). Qed.
Lemma in_frame_method D f : frame_in D f -> loc_in D (f_method f). Proof. by intros (? & ? & ? & ?). Qed.
Lemma in_context D f : frame_in D f -> opt loc_in D (f_context f). Proof. by intros (? & ? & ? & ?). Qed.
Lemma in_previous D f : frame_in D f -> opt loc_in D (f_previous f). Proof. by intros (? & ? & ? & ?). Qed.
Lemma in_frame D p c m i n s z :
  opt loc_in D p -> opt loc_in D c -> loc_in D m -> all oop_in D s -> frame_in D (mkFrame p c m i n s z).
Proof. unfold frame_in. cbn. tauto. Qed.
Lemma in_signature D m : method_in D m -> loc_in D (m_signature m). Proof. by intros (? & ? & ?). Qed.
Lemma in_holder D m : method_in D m -> oop_in D (m_holder m). Proof. by intros (? & ? & ?). Qed.
Lemma in_constants D m : method_in D m -> all oop_in D (m_constants m). Proof. by intros (? & ? & ?). Qed.
Lemma in_mkMethod D s hld a b c d cs e f :
  loc_in D s -> oop_in D hld -> all oop_in D cs -> method_in D (mkMethod s hld a b c d cs e f).
Proof. unfold method_in. cbn. tauto. Qed.
Lemma in_cache D s : symbol_in D s -> all both_in D (sym_cache s). Proof. done. Qed.
Lemma in_mkSymbol D c cache n : all both_in D cache -> symbol_in D (mkSymbol c cache n). Proof. done. Qed.
Lemma in_pair D p q : oop_in D p -> oop_in D q -> both_in D (p, q). Proof. done. Qed.
Lemma in_OFrame D f : frame_in D f -> obj_in D (OFrame f). Proof. done. Qed.
Lemma in_OMethod D m : method_in D m -> obj_in D (OMethod m). Proof. done. Qed.
Lemma in_OSymbol D s : symbol_in D s -> obj_in D (OSymbol s). Proof. done. Qed.
Lemma in_OObject D k c fs : oop_in D c -> all oop_in D fs -> obj_in D (OObject k c fs). Proof. done. Qed.
Lemma in_OTrivial D s hld n a t :
  loc_in D s -> oop_in D hld -> trivial_in D t -> obj_in D (OTrivial s hld n a t).
Proof. done. Qed.
Lemma in_OPrimitive D s hld p : loc_in D s -> oop_in D hld -> obj_in D (OPrimitive s hld p). Proof. done. Qed.
Lemma in_OInteger D z : obj_in D (OInteger z). Proof. done. Qed.
Lemma in_OBigInteger D z : obj_in D (OBigInteger z). Proof. done. Qed.
Lemma in_ODouble D z : obj_in D (ODouble z). Proof. done. Qed.
Lemma in_OString D z : obj_in D (OString z). Proof. done. Qed.
Lemma in_VMLiteralReturn D p : oop_in D p -> trivial_in D (VMLiteralReturn p). Proof. done. Qed.
Lemma in_VMGlobalReturn D l : loc_in D l -> trivial_in D (VMGlobalReturn l). Proof. done. Qed.
Lemma in_VMGetter D i : trivial_in D (VMGetter i). Proof. done. Qed.
Lemma in_VMSetter D i j : trivial_in D (VMSetter i j). Proof. done. Qed.

#[export] Hint Resolve in_slots in_frame_method in_context in_previous in_frame in_signature in_holder
  in_constants in_mkMethod in_cache in_mkSymbol in_pair in_OFrame in_OMethod in_OSymbol in_OObject
  in_OTrivial in_OPrimitive in_OInteger in_OBigInteger in_ODouble in_OString in_VMLiteralReturn
  in_VMGlobalReturn in_VMGetter in_VMSetter : within.

Lemma in_cons_inv {A} (P : gset loc -> A -> Prop) D a l : all P D (a :: l) -> P D a /\ all P D l.
Proof. apply Forall_cons_1. Qed.

(** Open what is known of an object. *)
Ltac open_in :=
  repeat match goal with
  | H : obj_in _ (_ _) |- _ => cbn [obj_in] in H
  | H : trivial_in _ (_ _) |- _ => cbn [trivial_in] in H
  | H : opt _ _ (Some _) |- _ => cbn [opt] in H
  | H : oop_in _ (Ref _) |- _ => cbn [oop_in] in H
  | H : _ /\ _ |- _ => destruct H
  | H : all _ _ (_ :: _) |- _ => apply in_cons_inv in H
  end.

(** Move what is known of a set of locations to a larger one. *)
Ltac grow HD :=
  repeat match goal with
  | H : ?P ?D ?a |- _ =>
      match type of HD with D ⊆ ?D' => apply (mono (P := P) D D' a HD) in H end
  end.

Ltac within := solve [eauto 10 with within].

(** What is known of a term that is going to be matched. *)
Ltac reveal D x :=
  try (let T := type of x in
       let H := fresh in
       lazymatch T with
       | oop => assert (oop_in D x) as H by within
       | option oop => assert (opt oop_in D x) as H by within
       | option nat => assert (opt loc_in D x) as H by within
       | list oop => assert (all oop_in D x) as H by within
       end;
       revert H).

(** The first computation of a sequence is one of the database, or it is compound and its
    answer is of one of the given kinds. *)
Ltac stable_step :=
  match goal with
  | |- stable _ _ _ (mret _) => apply stable_ret; [apply _|within]
  | |- stable _ _ _ (fail _) => apply stable_fail
  | |- stable _ _ _ (lift (of_option _ _)) => apply stable_of_option; [apply _|within]
  | |- stable _ _ _ (lift _) => apply stable_lift_any
  | |- stable _ _ _ (_ ≫= _) =>
      first
        [eapply stable_bind; [solve [eauto 12 with stable within]|]
        |eapply (stable_bind _ oop_in); [solve [stable]|]
        |eapply (stable_bind _ loc_in); [solve [stable]|]
        |eapply (stable_bind _ any); [solve [stable]|]];
      let D' := fresh "D" in let a := fresh "a" in let HD := fresh "HD" in let Ha := fresh "Ha" in
      intros D' a HD Ha; cbn beta in *; grow HD; clear HD; open_in
  | |- stable _ _ _ (let _ := _ in _) => cbv zeta
  | |- stable _ _ ?D (match ?x with _ => _ end) =>
      first [is_var x; destruct x | reveal D x; destruct x eqn:?; intros]; open_in
  | |- _ => solve [eauto 12 with stable within | eapply stable_any; eauto 12 with stable within]
  end
with stable := open_in; repeat stable_step.
