(* ===== verification/StableHeap.v ===== *)
(** * Stable operations on objects

    Every operation of [Objects], [Universe] and [Frame] is stable. *)
From Stdlib Require Import String SpecFloat.
From stdpp Require Import gmap.
From S2P Require Import Prelude InfIntBase IntegerPrims Objects Universe Frame Agree.
Local Open Scope Z_scope.

(** ** The heap *)

Section Heap.

Context (r : bool).

Lemma stable_load D l : loc_in D l -> stable r obj_in D (load l).
Proof.
  intros Hl D0 w1 w2 HD Hw. apply (mono (P := loc_in) _ _ _ HD) in Hl.
  destruct (agree_heap _ _ _ _ Hw l Hl) as (o & H1 & H2 & Ho). unfold load. rewrite H1, H2. cbn.
  split; [done|]. by exists D0.
Qed.

Lemma agree_set_heap D w1 w2 h1 h2 :
  agree r D w1 w2 ->
  (forall l, loc_in D l -> exists o, h1 !! l = Some o /\ h2 !! l = Some o /\ obj_in D o) ->
  agree r D (set_heap h1 w1) (set_heap h2 w2).
Proof.
  intros [HR HH [] HM] Hh. split; cbn; [|done|split; done|done]. rewrite HR. done.
Qed.

Lemma stable_store D l o : loc_in D l -> obj_in D o -> stable r any D (store l o).
Proof.
  intros Hl Ho D0 w1 w2 HD Hw. apply (mono (P := loc_in) _ _ _ HD) in Hl.
  apply (mono (P := obj_in) _ _ _ HD) in Ho.
  destruct (agree_heap _ _ _ _ Hw l Hl) as (o' & H1 & H2 & _). unfold store. rewrite H1, H2. cbn.
  split; [done|]. exists D0. split_and!; [done| |done]. apply agree_set_heap; [done|].
  intros l' Hl'. destruct (decide (l' = l)) as [->|Hne].
  - exists o. by rewrite !lookup_insert_eq.
  - rewrite !lookup_insert_ne by done. by apply Hw.
Qed.

Lemma roots_grow D D' w w' :
  D ⊆ D' -> known w' = known w -> globals w' = globals w -> symbolsMap w' = symbolsMap w ->
  blockClassesByNoOfArgs w' = blockClassesByNoOfArgs w -> frame w' = frame w ->
  roots_in D w -> roots_in D' w'.
Proof.
  intros HD E1 E2 E3 E4 E5 []. split; rewrite ?E1, ?E2, ?E3, ?E4, ?E5; by eapply mono.
Qed.

Lemma stable_alloc D o : obj_in D o -> stable r loc_in D (alloc o).
Proof.
  intros Ho D0 w1 w2 HD Hw. destruct Hw as [HR HH HO HM].
  assert (next w2 = next w1) as Hn by by rewrite HR.
  unfold alloc. rewrite Hn. cbn. split; [done|]. exists ({[next w1]} ∪ D0). split_and!; [set_solver| |].
  2:{ unfold loc_in. set_solver. }
  split; cbn.
  - rewrite HR. done.
  - intros l Hl. destruct (decide (l = next w1)) as [->|Hne].
    + exists o. rewrite !lookup_insert_eq. split_and!; [done..|]. eapply mono; [|exact Ho]. set_solver.
    + rewrite !lookup_insert_ne by done. destruct (HH l) as (o' & ? & ? & ?).
      { unfold loc_in in *. set_solver. }
      exists o'. split_and!; [done..|]. eapply mono; [|done]. set_solver.
  - eapply roots_grow, HO; [set_solver|done..].
  - intros E. eapply (mono (P := loc_in)), HM; [set_solver|done].
Qed.

Lemma stable_deref D p : oop_in D p -> stable r obj_in D (deref p).
Proof. intros Hp. destruct p; cbn [deref]; [apply stable_fail..|]. by apply stable_load. Qed.

Lemma stable_loc_of D p : oop_in D p -> stable r loc_in D (loc_of p).
Proof. intros Hp. destruct p; cbn [loc_of]; [apply stable_fail..|]. by apply stable_ret; [apply _|]. Qed.

(** Reads of the global state. *)
Lemma agree_same D w1 w2 : agree r D w1 w2 -> exists h, w2 = set_heap h w1.
Proof. intros [HR _ _ _]. by exists (heap w2). Qed.

Lemma stable_known D : stable r known_in D (gets known).
Proof.
  apply stable_gets. intros D0 w1 w2 Hw. destruct (agree_same _ _ _ Hw) as [h ->]. split; [done|].
  apply Hw.
Qed.
Lemma stable_globals D : stable r globals_in D (gets globals).
Proof.
  apply stable_gets. intros D0 w1 w2 Hw. destruct (agree_same _ _ _ Hw) as [h ->]. split; [done|].
  apply Hw.
Qed.
Lemma stable_symbols D : stable r symbols_in D (gets symbolsMap).
Proof.
  apply stable_gets. intros D0 w1 w2 Hw. destruct (agree_same _ _ _ Hw) as [h ->]. split; [done|].
  apply Hw.
Qed.
Lemma stable_blocks D : stable r blocks_in D (gets blockClassesByNoOfArgs).
Proof.
  apply stable_gets. intros D0 w1 w2 Hw. destruct (agree_same _ _ _ Hw) as [h ->]. split; [done|].
  apply Hw.
Qed.
Lemma stable_frame D : stable r (opt loc_in) D (gets frame).
Proof.
  apply stable_gets. intros D0 w1 w2 Hw. destruct (agree_same _ _ _ Hw) as [h ->]. split; [done|].
  apply Hw.
Qed.
Lemma stable_bytecodeIndex D : stable r any D (gets bytecodeIndexGlobal).
Proof. apply stable_gets. intros D0 w1 w2 Hw. by destruct (agree_same _ _ _ Hw) as [h ->]. Qed.
Lemma stable_heap_fuel D : stable r any D heap_fuel.
Proof. apply stable_gets. intros D0 w1 w2 Hw. by destruct (agree_same _ _ _ Hw) as [h ->]. Qed.

(** Writes that leave the heap alone. *)
Lemma stable_update D (f : World -> World) :
  (forall w, heap (f w) = heap w) -> (forall w h, f (set_heap h w) = set_heap h (f w)) ->
  (forall D0 w, D ⊆ D0 -> roots_in D0 w -> roots_in D0 (f w)) ->
  (forall D0 w, D ⊆ D0 -> (r = true -> loc_in D0 (method w)) -> r = true -> loc_in D0 (method (f w))) ->
  stable r any D (modify f).
Proof.
  intros Hh Hf Hr Hm. apply stable_modify. intros D0 w1 w2 HD [HR HH HO HM]. split.
  - rewrite HR, Hf. done.
  - intros l Hl. rewrite !Hh. by apply HH.
  - by apply Hr.
  - by apply Hm.
Qed.

End Heap.

Lemma stable_method D : stable true loc_in D (gets method).
Proof.
  apply stable_gets. intros D0 w1 w2 Hw. destruct (agree_same _ _ _ _ Hw) as [h ->]. split; [done|].
  by apply Hw.
Qed.

#[export] Hint Resolve stable_load stable_store stable_alloc stable_deref stable_loc_of stable_known
  stable_globals stable_symbols stable_blocks stable_frame stable_bytecodeIndex stable_heap_fuel
  stable_method : stable.

(** ** Objects *)

Section Objects.

Context (r : bool).

Lemma stable_load_method D l : loc_in D l -> stable r method_in D (load_method l).
Proof. intros. unfold load_method. stable. Qed.
Lemma stable_load_frame D l : loc_in D l -> stable r frame_in D (load_frame l).
Proof. intros. unfold load_frame. stable. Qed.
Lemma stable_load_symbol D l : loc_in D l -> stable r symbol_in D (load_symbol l).
Proof. intros. unfold load_symbol. stable. Qed.
#[local] Hint Resolve stable_load_method stable_load_frame stable_load_symbol : stable.

Lemma stable_GetNumberOfArguments D l : loc_in D l -> stable r any D (GetNumberOfArguments l).
Proof. intros. unfold GetNumberOfArguments. stable. Qed.
#[local] Hint Resolve stable_GetNumberOfArguments : stable.

Lemma stable_add_symbol D str l :
  loc_in D l -> stable r any D (modify (fun w => set_symbolsMap (<[str := l]> (symbolsMap w)) w)).
Proof.
  intros Hl. apply stable_update; [done..| |tauto]. intros D0 w HD []. split; cbn; [done..| |done|done].
  apply map_Forall_insert_2; [by eapply mono|done].
Qed.
#[local] Hint Resolve stable_add_symbol : stable.

Lemma stable_NewSymbol D str : stable r loc_in D (NewSymbol str).
Proof. unfold NewSymbol. stable. Qed.
#[local] Hint Resolve stable_NewSymbol : stable.

Lemma stable_SymbolFor D str : stable r loc_in D (SymbolFor str).
Proof. unfold SymbolFor. stable. Qed.
#[local] Hint Resolve stable_SymbolFor : stable.

Lemma stable_update_known D (f : Known -> Known) :
  (forall D0 k, D ⊆ D0 -> known_in D0 k -> known_in D0 (f k)) ->
  stable r any D (modify (fun w => set_known (f (known w)) w)).
Proof. intros Hf. apply stable_update; [done..| |tauto]. intros D0 w HD []. split; cbn; [by apply Hf|done..]. Qed.

Lemma stable_InitializeSymbols D : stable r any D InitializeSymbols.
Proof.
  unfold InitializeSymbols. stable. apply (stable_update_known _ (set_symbols _ _ _ _ _ _ _)).
  intros ? k HD []. split; try done; by eapply (mono (P := loc_in)).
Qed.

Lemma in_cache_search D cls cache : all both_in D cache -> oop_in D (cache_search cls cache).
Proof.
  induction 1 as [|[c i] cache [_ Hi] _ IH]; cbn [cache_search]; [done|]. by case_decide.
Qed.

Lemma in_GetCachedInvokable D cls s : symbol_in D s -> oop_in D (GetCachedInvokable cls s).
Proof. apply in_cache_search. Qed.
#[local] Hint Resolve in_GetCachedInvokable : within.

Lemma stable_UpdateCachedInvokable D name cls invo :
  loc_in D name -> oop_in D cls -> oop_in D invo -> stable r any D (UpdateCachedInvokable name cls invo).
Proof. intros. unfold UpdateCachedInvokable. stable. Qed.
#[local] Hint Resolve stable_UpdateCachedInvokable : stable.

Lemma stable_GetField D p i : oop_in D p -> stable r oop_in D (GetField p i).
Proof. intros. unfold GetField. stable. Qed.
Lemma stable_SetField D p i v : oop_in D p -> oop_in D v -> stable r any D (SetField p i v).
Proof. intros. unfold SetField. stable. Qed.
#[local] Hint Resolve stable_GetField stable_SetField : stable.

Lemma stable_array_elements D a : oop_in D a -> stable r (all oop_in) D (array_elements a).
Proof. intros. unfold array_elements. stable. Qed.
#[local] Hint Resolve stable_array_elements : stable.
Lemma stable_GetNumberOfIndexableFields D a : oop_in D a -> stable r any D (GetNumberOfIndexableFields a).
Proof. intros. unfold GetNumberOfIndexableFields. stable. Qed.
#[local] Hint Resolve stable_GetNumberOfIndexableFields : stable.
Lemma stable_GetIndexableField D a i : oop_in D a -> stable r oop_in D (GetIndexableField a i).
Proof. intros. unfold GetIndexableField. stable. Qed.
Lemma stable_SetIndexableField D a i v :
  oop_in D a -> oop_in D v -> stable r any D (SetIndexableField a i v).
Proof. intros. unfold SetIndexableField. stable. Qed.
#[local] Hint Resolve stable_GetIndexableField stable_SetIndexableField : stable.

Lemma stable_GetSignature D l : loc_in D l -> stable r loc_in D (GetSignature l).
Proof. intros. unfold GetSignature. stable. Qed.
Lemma stable_IsPrimitive D l : loc_in D l -> stable r any D (IsPrimitive l).
Proof. intros. unfold IsPrimitive. stable. Qed.
Lemma stable_invokable_arguments D l : loc_in D l -> stable r any D (invokable_arguments l).
Proof. intros. unfold invokable_arguments. stable. Qed.
#[local] Hint Resolve stable_GetSignature stable_IsPrimitive stable_invokable_arguments : stable.

Lemma in_with_holder D hld o : oop_in D hld -> obj_in D o -> obj_in D (with_holder hld o).
Proof. intros Hh Ho. destruct o; cbn [with_holder]; open_in; within. Qed.
#[local] Hint Resolve in_with_holder : within.

(** The loop over the constants, with any continuation for a method. *)
Lemma stable_constants D (f : loc -> V ()) cs :
  (forall D' l, D ⊆ D' -> loc_in D' l -> stable r any D' (f l)) -> all oop_in D cs ->
  stable r any D (foldr (fun c (k : V ()) =>
    match c with
    | Ref l =>
        oc ← load l;
        match oc with
        | OMethod _ | OTrivial _ _ _ _ _ | OPrimitive _ _ _ => f l;; k
        | _ => k
        end
    | _ => k
    end) (mret tt) cs).
Proof.
  intros Hf Hcs. induction Hcs as [|c cs Hc _ IH]; cbn [foldr]; [stable|].
  destruct c as [| |l]; [done..|]. eapply stable_bind; [by apply stable_load|].
  intros D' o HD Ho. assert (stable r any D' (f l)) as Hl by (apply Hf; [done|exact (mono (P := loc_in) _ _ _ HD Hc)]).
  apply (stable_mono r _ D D') in IH; [|done].
  destruct o; try done; (eapply stable_bind; [done|]; intros D2 ? HD2 ?; by apply (stable_mono r _ D' D2)).
Qed.

Lemma stable_SetHolder fuel : forall D l hld,
  loc_in D l -> oop_in D hld -> stable r any D (SetHolder fuel l hld).
Proof.
  induction fuel as [|fuel IH]; intros D l hld Hl Hh; cbn [SetHolder]; [stable|].
  stable. apply (stable_constants D1 (fun l => SetHolder fuel l hld)); [|by apply in_constants].
  intros D' l' HD' Hl'. apply IH; [done|]. by eapply mono.
Qed.
#[local] Hint Resolve stable_SetHolder : stable.

Lemma stable_class_field D i c : oop_in D c -> stable r oop_in D (class_field i c).
Proof. intros. unfold class_field. stable. Qed.
Lemma stable_set_class_field D i c v : oop_in D c -> oop_in D v -> stable r any D (set_class_field i c v).
Proof. intros. unfold set_class_field. stable. Qed.
Lemma stable_SetClass D p c : oop_in D p -> oop_in D c -> stable r any D (SetClass p c).
Proof. intros. unfold SetClass. stable. Qed.
#[local] Hint Resolve stable_class_field stable_set_class_field stable_SetClass : stable.

Lemma stable_GetName D c : oop_in D c -> stable r oop_in D (GetName c).
Proof. apply stable_class_field. Qed.
Lemma stable_GetInstanceFields D c : oop_in D c -> stable r oop_in D (GetInstanceFields c).
Proof. apply stable_class_field. Qed.
Lemma stable_GetInstanceInvokables D c : oop_in D c -> stable r oop_in D (GetInstanceInvokables c).
Proof. apply stable_class_field. Qed.
Lemma stable_GetSuperClass D c : oop_in D c -> stable r oop_in D (GetSuperClass c).
Proof. apply stable_class_field. Qed.
Lemma stable_SetName D c v : oop_in D c -> oop_in D v -> stable r any D (SetName c v).
Proof. apply stable_set_class_field. Qed.
Lemma stable_SetInstanceFields D c v : oop_in D c -> oop_in D v -> stable r any D (SetInstanceFields c v).
Proof. apply stable_set_class_field. Qed.
Lemma stable_SetSuperClass D c v : oop_in D c -> oop_in D v -> stable r any D (SetSuperClass c v).
Proof. apply stable_set_class_field. Qed.
#[local] Hint Resolve stable_GetName stable_GetInstanceFields stable_GetInstanceInvokables stable_GetSuperClass
  stable_SetName stable_SetInstanceFields stable_SetSuperClass : stable.

Lemma stable_HasSuperClass D c : oop_in D c -> stable r any D (HasSuperClass c).
Proof. intros. unfold HasSuperClass. stable. Qed.
Lemma stable_GetNumberOfInstanceInvokables D c :
  oop_in D c -> stable r any D (GetNumberOfInstanceInvokables c).
Proof. intros. unfold GetNumberOfInstanceInvokables. stable. Qed.
Lemma stable_GetInstanceInvokable D c i : oop_in D c -> stable r oop_in D (GetInstanceInvokable c i).
Proof. intros. unfold GetInstanceInvokable. stable. Qed.
#[local] Hint Resolve stable_HasSuperClass stable_GetNumberOfInstanceInvokables stable_GetInstanceInvokable : stable.

Lemma stable_find_invokable n : forall D i cls name,
  oop_in D cls -> loc_in D name -> stable r (opt loc_in) D (find_invokable n i cls name).
Proof. induction n as [|n IH]; intros; cbn [find_invokable]; stable. Qed.
#[local] Hint Resolve stable_find_invokable : stable.

Lemma stable_LookupInvokable_fuel fuel : forall D cls name,
  oop_in D cls -> loc_in D name -> stable r (opt loc_in) D (LookupInvokable_fuel fuel cls name).
Proof. induction fuel as [|fuel IH]; intros; cbn [LookupInvokable_fuel]; stable. Qed.
#[local] Hint Resolve stable_LookupInvokable_fuel : stable.
Lemma stable_LookupInvokable D cls name :
  oop_in D cls -> loc_in D name -> stable r (opt loc_in) D (LookupInvokable cls name).
Proof. intros. unfold LookupInvokable. stable. Qed.

Lemma stable_GetNumberOfInstanceFields_fuel fuel : forall D cls,
  oop_in D cls -> stable r any D (GetNumberOfInstanceFields_fuel fuel cls).
Proof. induction fuel as [|fuel IH]; intros; cbn [GetNumberOfInstanceFields_fuel]; stable. Qed.
#[local] Hint Resolve stable_GetNumberOfInstanceFields_fuel : stable.
Lemma stable_GetNumberOfInstanceFields D cls :
  oop_in D cls -> stable r any D (GetNumberOfInstanceFields cls).
Proof. intros. unfold GetNumberOfInstanceFields. stable. Qed.
#[local] Hint Resolve stable_GetNumberOfInstanceFields : stable.
Lemma stable_numberOfSuperInstanceFields D cls :
  oop_in D cls -> stable r any D (numberOfSuperInstanceFields cls).
Proof. intros. unfold numberOfSuperInstanceFields. stable. Qed.
#[local] Hint Resolve stable_numberOfSuperInstanceFields : stable.

Lemma stable_GetInstanceFieldName_fuel fuel : forall D cls i,
  oop_in D cls -> stable r oop_in D (GetInstanceFieldName_fuel fuel cls i).
Proof. induction fuel as [|fuel IH]; intros; cbn [GetInstanceFieldName_fuel]; stable. Qed.
#[local] Hint Resolve stable_GetInstanceFieldName_fuel : stable.
Lemma stable_GetInstanceFieldName D cls i : oop_in D cls -> stable r oop_in D (GetInstanceFieldName cls i).
Proof. intros. unfold GetInstanceFieldName. stable. Qed.
#[local] Hint Resolve stable_GetInstanceFieldName : stable.

Lemma stable_lookup_field n : forall D i cls name,
  oop_in D cls -> stable r any D (lookup_field n i cls name).
Proof. induction n as [|n IH]; intros; cbn [lookup_field]; stable. Qed.
#[local] Hint Resolve stable_lookup_field : stable.
Lemma stable_LookupFieldIndex D cls name : oop_in D cls -> stable r any D (LookupFieldIndex cls name).
Proof. intros. unfold LookupFieldIndex. stable. Qed.

Lemma stable_has_primitives n : forall D i cls, oop_in D cls -> stable r any D (has_primitives n i cls).
Proof. induction n as [|n IH]; intros; cbn [has_primitives]; stable. Qed.
#[local] Hint Resolve stable_has_primitives : stable.
Lemma stable_HasPrimitives D cls : oop_in D cls -> stable r any D (HasPrimitives cls).
Proof. intros. unfold HasPrimitives. stable. Qed.

End Objects.

#[export] Hint Resolve in_GetCachedInvokable in_with_holder : within.
#[export] Hint Resolve stable_load_method stable_load_frame stable_load_symbol stable_GetNumberOfArguments
  stable_SymbolFor stable_InitializeSymbols stable_GetField stable_SetField stable_array_elements
  stable_GetNumberOfIndexableFields stable_GetIndexableField stable_SetIndexableField stable_GetSignature
  stable_IsPrimitive stable_invokable_arguments stable_SetHolder stable_set_class_field stable_SetClass
  stable_GetName stable_GetInstanceFields stable_GetInstanceInvokables stable_GetSuperClass stable_SetName
  stable_SetInstanceFields stable_SetSuperClass stable_HasSuperClass stable_GetNumberOfInstanceInvokables
  stable_GetInstanceInvokable stable_LookupInvokable stable_GetNumberOfInstanceFields
  stable_numberOfSuperInstanceFields stable_GetInstanceFieldName stable_LookupFieldIndex
  stable_HasPrimitives : stable.

(** ** The universe *)

Section Universe.

Context (r : bool).

Lemma in_global D g name : globals_in D g -> opt oop_in D (g !! name).
Proof. intros Hg. destruct (g !! name) as [p|] eqn:E; [|done]. by apply (Hg name p E). Qed.
#[local] Hint Resolve in_global : within.

Lemma stable_GetGlobal D name : stable r oop_in D (GetGlobal name).
Proof. unfold GetGlobal. stable. Qed.
Lemma stable_HasGlobal D name : stable r any D (HasGlobal name).
Proof. unfold HasGlobal. stable. Qed.
Lemma stable_SetGlobal D name v : loc_in D name -> oop_in D v -> stable r any D (SetGlobal name v).
Proof.
  intros Hn Hv. apply stable_update; [done..| |tauto]. intros D0 w HD []. split; cbn; [done| |done..].
  apply map_Forall_insert_2; [split; by eapply mono|done].
Qed.
#[local] Hint Resolve stable_GetGlobal stable_HasGlobal stable_SetGlobal : stable.

Lemma stable_NewArray D n : stable r oop_in D (NewArray n).
Proof. unfold NewArray. stable. Qed.
#[local] Hint Resolve stable_NewArray : stable.
Lemma stable_copy_elements n : forall D i a b,
  oop_in D a -> oop_in D b -> stable r any D (copy_elements n i a b).
Proof. induction n as [|n IH]; intros; cbn [copy_elements]; stable. Qed.
#[local] Hint Resolve stable_copy_elements : stable.
Lemma stable_CopyIndexableFieldsTo D a b :
  oop_in D a -> oop_in D b -> stable r any D (CopyIndexableFieldsTo a b).
Proof. intros. unfold CopyIndexableFieldsTo. stable. Qed.
#[local] Hint Resolve stable_CopyIndexableFieldsTo : stable.
Lemma stable_NewExpandedArrayFromArray D n a :
  oop_in D a -> stable r oop_in D (NewExpandedArrayFromArray n a).
Proof. intros. unfold NewExpandedArrayFromArray. stable. Qed.
Lemma stable_array_Copy D a : oop_in D a -> stable r oop_in D (array_Copy a).
Proof. intros. unfold array_Copy. stable. Qed.
Lemma stable_CopyAndExtendWith D a x : oop_in D a -> oop_in D x -> stable r oop_in D (CopyAndExtendWith a x).
Proof. intros. unfold CopyAndExtendWith. stable. Qed.
#[local] Hint Resolve stable_NewExpandedArrayFromArray stable_array_Copy stable_CopyAndExtendWith : stable.
Lemma stable_fill_array l : forall D a i,
  oop_in D a -> all oop_in D l -> stable r any D (fill_array a i l).
Proof. induction l as [|x l IH]; intros; cbn [fill_array]; stable. Qed.
#[local] Hint Resolve stable_fill_array : stable.
Lemma stable_NewArrayList D l : all oop_in D l -> stable r oop_in D (NewArrayList l).
Proof. intros. unfold NewArrayList. stable. Qed.
Lemma stable_symbols_for l : forall D, stable r (all oop_in) D (symbols_for l).
Proof. induction l as [|x l IH]; intros; cbn [symbols_for]; stable. Qed.
#[local] Hint Resolve stable_symbols_for : stable.
Lemma stable_NewArrayOfSymbolsFromStrings D l : stable r oop_in D (NewArrayOfSymbolsFromStrings l).
Proof. intros. unfold NewArrayOfSymbolsFromStrings. stable. Qed.
Lemma stable_NewInstance D c : oop_in D c -> stable r oop_in D (NewInstance c).
Proof. intros. unfold NewInstance. stable. Qed.
Lemma stable_NewClass D c : oop_in D c -> stable r oop_in D (NewClass c).
Proof. intros. unfold NewClass. stable. Qed.
Lemma stable_NewString D s : stable r oop_in D (NewString s).
Proof. unfold NewString. stable. Qed.
Lemma stable_NewDouble D s : stable r oop_in D (NewDouble s).
Proof. unfold NewDouble. stable. Qed.
Lemma stable_NewMethod D sig bs cs a b c d :
  loc_in D sig -> all oop_in D cs -> stable r loc_in D (NewMethod sig bs cs a b c d).
Proof. intros. unfold NewMethod. stable. Qed.
Lemma in_new_frame D nil n p m a b :
  oop_in D nil -> opt loc_in D p -> loc_in D m -> frame_in D (new_frame nil n p m a b).
Proof. intros. unfold new_frame. within. Qed.
#[local] Hint Resolve in_new_frame : within.
Lemma stable_NewFrame D p m : opt loc_in D p -> loc_in D m -> stable r loc_in D (NewFrame p m).
Proof. intros. unfold NewFrame. stable. Qed.
Lemma stable_GetClass D o : obj_in D o -> stable r oop_in D (GetClass o).
Proof. intros. unfold GetClass. stable. Qed.
#[local] Hint Resolve stable_GetClass : stable.
Lemma stable_CLASS_OF D x : oop_in D x -> stable r oop_in D (CLASS_OF x).
Proof. intros. unfold CLASS_OF. stable. Qed.

Lemma stable_SetInstanceInvokable D c i v :
  oop_in D c -> oop_in D v -> stable r any D (SetInstanceInvokable c i v).
Proof. intros. unfold SetInstanceInvokable. stable. Qed.
#[local] Hint Resolve stable_SetInstanceInvokable : stable.
(** The holder of an invokable that may be nil. *)
Lemma stable_set_holder D p nil cls :
  oop_in D p -> oop_in D cls ->
  stable r any D (if decide (p = nil) then mret tt
                  else inv ← loc_of p; fuel ← heap_fuel; SetHolder fuel inv cls).
Proof. intros. stable. Qed.
#[local] Hint Resolve stable_set_holder : stable.
Lemma stable_set_holders n : forall D i c, oop_in D c -> stable r any D (set_holders n i c).
Proof. induction n as [|n IH]; intros; cbn [set_holders]; stable. Qed.
#[local] Hint Resolve stable_set_holders : stable.
Lemma stable_SetInstanceInvokables D c v :
  oop_in D c -> oop_in D v -> stable r any D (SetInstanceInvokables c v).
Proof. intros. unfold SetInstanceInvokables. stable. Qed.

Lemma stable_install_search n : forall D i c inv h,
  oop_in D c -> loc_in D inv -> stable r any D (install_search n i c inv h).
Proof. induction n as [|n IH]; intros; cbn [install_search]; stable. Qed.
#[local] Hint Resolve stable_install_search : stable.
Lemma stable_InstallPrimitive D c inv h :
  oop_in D c -> loc_in D inv -> stable r any D (InstallPrimitive c inv h).
Proof. intros. unfold InstallPrimitive. stable. Qed.
#[local] Hint Resolve stable_InstallPrimitive : stable.

Lemma stable_new_primitive D mk sig p : loc_in D sig -> stable r loc_in D (new_primitive mk sig p).
Proof. intros. unfold new_primitive. stable. Qed.
#[local] Hint Resolve stable_new_primitive : stable.
Lemma stable_installPrimitives side mk prims : forall D c b,
  oop_in D c -> stable r any D (installPrimitives side c mk prims b).
Proof. induction prims as [|[name [p1 p2]] prims IH]; intros; cbn [installPrimitives]; stable. Qed.
#[local] Hint Resolve stable_installPrimitives : stable.
Lemma stable_or_install D b m : stable r any D m -> stable r any D (or_install b m).
Proof. intros. unfold or_install. stable. Qed.
#[local] Hint Resolve stable_or_install : stable.
Lemma stable_InstallPrimitives D abort c clazz side :
  oop_in D clazz -> stable r any D (InstallPrimitives abort c clazz side).
Proof. intros. unfold InstallPrimitives. stable. Qed.

Lemma stable_computeSignatureString D n : stable r loc_in D (computeSignatureString n).
Proof. unfold computeSignatureString. stable. Qed.
#[local] Hint Resolve stable_computeSignatureString : stable.

Lemma stable_add_blockClass D n c :
  oop_in D c -> stable r any D (modify (fun w => set_blockClasses (<[n := c]> (blockClassesByNoOfArgs w)) w)).
Proof.
  intros Hc. apply stable_update; [done..| |tauto]. intros D0 w HD []. split; cbn; [done..| |done].
  apply map_Forall_insert_2; [by eapply mono|done].
Qed.
#[local] Hint Resolve stable_add_blockClass : stable.

Lemma stable_GetBlockClassWithArgs D load n :
  (forall D name, loc_in D name -> stable r oop_in D (load name)) ->
  stable r oop_in D (GetBlockClassWithArgs load n).
Proof. intros. unfold GetBlockClassWithArgs. stable. Qed.
#[local] Hint Resolve stable_GetBlockClassWithArgs : stable.

Lemma stable_NewBlock D load m c n :
  (forall D name, loc_in D name -> stable r oop_in D (load name)) -> oop_in D m -> oop_in D c ->
  stable r oop_in D (NewBlock load m c n).
Proof. intros. unfold NewBlock. stable. Qed.

Lemma stable_NEW_INT D T x : stable r oop_in D (NEW_INT T x).
Proof. unfold NEW_INT. stable. Qed.
Lemma stable_small_int D T x : oop_in D x -> stable r any D (small_int T x).
Proof. intros. unfold small_int. stable. Qed.
#[local] Hint Resolve stable_small_int : stable.
Lemma stable_SMALL_INT_VAL D T x : oop_in D x -> stable r any D (SMALL_INT_VAL T x).
Proof. intros. unfold SMALL_INT_VAL. stable. Qed.
Lemma stable_as_double D x : oop_in D x -> stable r any D (as_double x).
Proof. intros. unfold as_double. stable. Qed.
Lemma stable_boolean D b : stable r oop_in D (boolean b).
Proof. unfold boolean. stable. Qed.

End Universe.

#[export] Hint Resolve in_new_frame : within.
#[export] Hint Resolve stable_GetGlobal stable_HasGlobal stable_SetGlobal stable_NewArray stable_copy_elements
  stable_CopyIndexableFieldsTo stable_NewExpandedArrayFromArray stable_array_Copy stable_CopyAndExtendWith
  stable_NewArrayList stable_NewArrayOfSymbolsFromStrings stable_NewInstance stable_NewClass stable_NewString
  stable_NewDouble stable_NewMethod stable_NewFrame stable_GetClass stable_CLASS_OF stable_SetInstanceInvokable
  stable_SetInstanceInvokables stable_InstallPrimitive stable_InstallPrimitives stable_GetBlockClassWithArgs
  stable_NewBlock stable_NEW_INT stable_small_int stable_SMALL_INT_VAL stable_as_double stable_boolean : stable.

(** ** Frames *)

Section Frames.

Context (r : bool).

Lemma in_with_slots D s f : frame_in D f -> all oop_in D s -> frame_in D (with_slots s f).
Proof. intros. unfold with_slots. within. Qed.
Lemma in_with_bytecodeIndex D i f : frame_in D f -> frame_in D (with_bytecodeIndex i f).
Proof. intros. unfold with_bytecodeIndex. within. Qed.
Lemma in_with_context D c f : frame_in D f -> opt loc_in D c -> frame_in D (with_context c f).
Proof. intros. unfold with_context. within. Qed.
Lemma in_with_previous D c f : frame_in D f -> opt loc_in D c -> frame_in D (with_previous c f).
Proof. intros. unfold with_previous. within. Qed.
Lemma in_stack_element D i f : frame_in D f -> opt oop_in D (stack_element i f).
Proof. intros. unfold stack_element. case_match; within. Qed.
#[local] Hint Resolve in_with_slots in_with_bytecodeIndex in_with_context in_with_previous in_stack_element : within.

Lemma stable_Push D l x : loc_in D l -> oop_in D x -> stable r any D (Push l x).
Proof. intros. unfold Push. stable. Qed.
Lemma stable_Pop D l : loc_in D l -> stable r oop_in D (Pop l).
Proof. intros. unfold Pop. stable. Qed.
#[local] Hint Resolve stable_Push stable_Pop : stable.
Lemma stable_PopVoid D l : loc_in D l -> stable r any D (PopVoid l).
Proof. intros. unfold PopVoid. stable. Qed.
#[local] Hint Resolve stable_PopVoid : stable.
Lemma stable_pop_n n : forall D l, loc_in D l -> stable r any D (pop_n n l).
Proof. induction n as [|n IH]; intros; cbn [pop_n]; stable. Qed.
Lemma stable_GetStackElement D l i : loc_in D l -> stable r oop_in D (GetStackElement l i).
Proof. intros. unfold GetStackElement. stable. Qed.
Lemma stable_Top D l : loc_in D l -> stable r oop_in D (Top l).
Proof. apply stable_GetStackElement. Qed.
Lemma stable_Top2 D l : loc_in D l -> stable r oop_in D (Top2 l).
Proof. apply stable_GetStackElement. Qed.
Lemma stable_SetTop D l x : loc_in D l -> oop_in D x -> stable r any D (SetTop l x).
Proof. intros. unfold SetTop. stable. Qed.
#[local] Hint Resolve stable_pop_n stable_GetStackElement stable_Top stable_Top2 stable_SetTop : stable.

Lemma stable_GetContextLevel n : forall D l, loc_in D l -> stable r loc_in D (GetContextLevel n l).
Proof. induction n as [|n IH]; intros; cbn [GetContextLevel]; stable. Qed.
Lemma stable_outer_context n : forall D l, loc_in D l -> stable r loc_in D (outer_context n l).
Proof. induction n as [|n IH]; intros; cbn [outer_context]; stable. Qed.
#[local] Hint Resolve stable_GetContextLevel stable_outer_context : stable.
Lemma stable_GetOuterContext D l : loc_in D l -> stable r loc_in D (GetOuterContext l).
Proof. intros. unfold GetOuterContext. stable. Qed.
Lemma stable_read_slot D l i : loc_in D l -> stable r oop_in D (read_slot l i).
Proof. intros. unfold read_slot. stable. Qed.
Lemma stable_write_slot D l i x : loc_in D l -> oop_in D x -> stable r any D (write_slot l i x).
Proof. intros. unfold write_slot. stable. Qed.
#[local] Hint Resolve stable_GetOuterContext stable_read_slot stable_write_slot : stable.
Lemma stable_GetLocalInCurrentContext D l i : loc_in D l -> stable r oop_in D (GetLocalInCurrentContext l i).
Proof. intros. unfold GetLocalInCurrentContext. stable. Qed.
Lemma stable_SetLocalInCurrentContext D l i x :
  loc_in D l -> oop_in D x -> stable r any D (SetLocalInCurrentContext l i x).
Proof. intros. unfold SetLocalInCurrentContext. stable. Qed.
Lemma stable_GetArgumentInCurrentContext D l i :
  loc_in D l -> stable r oop_in D (GetArgumentInCurrentContext l i).
Proof. apply stable_read_slot. Qed.
Lemma stable_SetArgumentInCurrentContext D l i x :
  loc_in D l -> oop_in D x -> stable r any D (SetArgumentInCurrentContext l i x).
Proof. apply stable_write_slot. Qed.
#[local] Hint Resolve stable_GetLocalInCurrentContext stable_SetLocalInCurrentContext
  stable_GetArgumentInCurrentContext stable_SetArgumentInCurrentContext : stable.
Lemma stable_GetLocal D l i n : loc_in D l -> stable r oop_in D (GetLocal l i n).
Proof. intros. unfold GetLocal. stable. Qed.
Lemma stable_SetLocal D l i n x : loc_in D l -> oop_in D x -> stable r any D (SetLocal l i n x).
Proof. intros. unfold SetLocal. stable. Qed.
Lemma stable_GetArgument D l i n : loc_in D l -> stable r oop_in D (GetArgument l i n).
Proof. intros. unfold GetArgument. stable. Qed.
Lemma stable_SetArgument D l i n x : loc_in D l -> oop_in D x -> stable r any D (SetArgument l i n x).
Proof. intros. unfold SetArgument. stable. Qed.
Lemma stable_copy_arguments n k : forall D this from,
  loc_in D this -> loc_in D from -> stable r any D (copy_arguments n k this from).
Proof. induction n as [|n IH]; intros; cbn [copy_arguments]; stable. Qed.
#[local] Hint Resolve stable_copy_arguments : stable.
Lemma stable_CopyArgumentsFrom D this from :
  loc_in D this -> loc_in D from -> stable r any D (CopyArgumentsFrom this from).
Proof. intros. unfold CopyArgumentsFrom. stable. Qed.
Lemma stable_update_frame D l g :
  loc_in D l -> (forall D' f, D ⊆ D' -> frame_in D' f -> frame_in D' (g f)) -> stable r any D (update_frame l g).
Proof.
  intros Hl Hg. unfold update_frame. eapply stable_bind; [by apply stable_load_frame|].
  intros D' f HD Hf. apply stable_store; [by eapply mono|]. by apply Hg.
Qed.
Lemma stable_SetBytecodeIndex D l i : loc_in D l -> stable r any D (SetBytecodeIndex l i).
Proof. intros. apply stable_update_frame; [done|]. intros. by apply in_with_bytecodeIndex. Qed.
Lemma stable_SetContext D l c : loc_in D l -> opt loc_in D c -> stable r any D (SetContext l c).
Proof. intros. apply stable_update_frame; [done|]. intros. apply in_with_context; [done|]. by eapply mono. Qed.
Lemma stable_ClearPreviousFrame D l : loc_in D l -> stable r any D (ClearPreviousFrame l).
Proof. intros. apply stable_update_frame; [done|]. intros. by apply in_with_previous. Qed.
Lemma stable_EmergencyFrameFrom D l n : loc_in D l -> stable r loc_in D (EmergencyFrameFrom l n).
Proof. intros. unfold EmergencyFrameFrom. stable. Qed.

End Frames.

#[export] Hint Resolve in_with_slots in_with_bytecodeIndex in_with_context in_with_previous in_stack_element : within.
#[export] Hint Resolve stable_Push stable_Pop stable_PopVoid stable_pop_n stable_GetStackElement stable_Top stable_Top2
  stable_SetTop stable_GetContextLevel stable_GetOuterContext stable_read_slot stable_write_slot
  stable_GetLocalInCurrentContext stable_SetLocalInCurrentContext stable_GetArgumentInCurrentContext
  stable_SetArgumentInCurrentContext stable_GetLocal stable_SetLocal stable_GetArgument stable_SetArgument
  stable_CopyArgumentsFrom stable_SetBytecodeIndex stable_SetContext stable_ClearPreviousFrame
  stable_EmergencyFrameFrom : stable.
