(* ===== verification/StableRun.v ===== *)
(** * Stable operations of the interpreter

    Every handler of the interpreter, and the loop, is stable, provided that the routines
    of the primitives and the loading of the classes of blocks are. *)
From Stdlib Require Import String SpecFloat.
From stdpp Require Import gmap.
From S2P Require Import Prelude Bytecodes InfIntBase IntegerPrims Objects Universe Frame Interpreter Agree StableHeap.
Local Open Scope Z_scope.

(** The routines that a primitive stands for. *)
Record stable_routines (rs : Routines) : Prop := mkStableRoutines {
  stable_frame_routine : forall D name frm,
    loc_in D frm -> stable true any D (frame_routine rs name frm);
  stable_unary_routine : forall D name x,
    oop_in D x -> stable true oop_in D (unary_routine rs name x);
  stable_binary_routine : forall D name x y,
    oop_in D x -> oop_in D y -> stable true oop_in D (binary_routine rs name x y);
  stable_ternary_routine : forall D name x y z,
    oop_in D x -> oop_in D y -> oop_in D z -> stable true oop_in D (ternary_routine rs name x y z) }.
#[export] Hint Resolve stable_frame_routine stable_unary_routine stable_binary_routine
  stable_ternary_routine : stable.

(** What loads a class by its name. *)
Definition stable_loader (r : bool) (load : loc -> V oop) : Prop :=
  forall D name, loc_in D name -> stable r oop_in D (load name).

(** ** Registers and frames *)

Section Registers.

Context (r : bool).

Lemma stable_GetFrame D : stable r loc_in D GetFrame.
Proof. unfold GetFrame. stable. Qed.
#[local] Hint Resolve stable_GetFrame : stable.

Lemma stable_set_registers D frm m i :
  loc_in D frm -> loc_in D m -> stable r any D (modify (set_registers (Some frm) m i)).
Proof.
  intros Hf Hm. apply stable_update; [done..| |].
  - intros D0 w HD []. split; cbn; [done..|]. by eapply (mono (P := loc_in)).
  - intros D0 w HD _ _. cbn. by eapply (mono (P := loc_in)).
Qed.
#[local] Hint Resolve stable_set_registers : stable.

Lemma stable_set_bytecodeIndex D f :
  stable r any D (modify (fun w => set_bytecodeIndex (f (bytecodeIndexGlobal w)) w)).
Proof. apply stable_update; [done..| |done]. intros D0 w HD []. by split. Qed.

Lemma stable_SetFrame D frm : loc_in D frm -> stable r any D (SetFrame frm).
Proof. intros. unfold SetFrame. stable. Qed.
#[local] Hint Resolve stable_SetFrame : stable.
Lemma stable_PushNewFrame D m : loc_in D m -> stable r loc_in D (PushNewFrame m).
Proof. intros. unfold PushNewFrame. stable. Qed.
#[local] Hint Resolve stable_PushNewFrame : stable.
Lemma stable_GetSelf D : stable r oop_in D GetSelf.
Proof. unfold GetSelf. stable. Qed.
Lemma stable_popFrame D : stable r loc_in D popFrame.
Proof. unfold popFrame. stable. Qed.
#[local] Hint Resolve stable_GetSelf stable_popFrame : stable.
Lemma stable_popFrameAndPushResult D x : oop_in D x -> stable r any D (popFrameAndPushResult x).
Proof. intros. unfold popFrameAndPushResult. stable. Qed.
Lemma stable_AS_OBJ D x : oop_in D x -> stable r oop_in D (AS_OBJ x).
Proof. intros. unfold AS_OBJ. stable. Qed.
Lemma stable_push_all l : forall D frm, loc_in D frm -> all oop_in D l -> stable r any D (push_all frm l).
Proof. induction l as [|x l IH]; intros; cbn [push_all]; stable. Qed.
Lemma stable_reserve D n : stable r any D (reserve n).
Proof. unfold reserve. stable. Qed.
Lemma stable_VMMethod_Invoke D m frm :
  loc_in D m -> loc_in D frm -> stable r (opt loc_in) D (VMMethod_Invoke m frm).
Proof. intros. unfold VMMethod_Invoke. stable. Qed.
Lemma stable_VMMethod_Invoke1 D m frm :
  loc_in D m -> loc_in D frm -> stable r (opt loc_in) D (VMMethod_Invoke1 m frm).
Proof. intros. unfold VMMethod_Invoke1. stable. Qed.
Lemma stable_pop_last n : forall D frm x,
  loc_in D frm -> oop_in D x -> stable r oop_in D (pop_last n frm x).
Proof. induction n as [|n IH]; intros; cbn [pop_last]; stable. Qed.
Lemma stable_get_field_of D T x i : oop_in D x -> stable r oop_in D (get_field_of T x i).
Proof. intros. unfold get_field_of. stable. Qed.
Lemma stable_setter_pops n : forall D i frm x,
  loc_in D frm -> oop_in D x -> stable r oop_in D (setter_pops n i frm x).
Proof. induction n as [|n IH]; intros; cbn [setter_pops]; stable. Qed.
#[local] Hint Resolve stable_setter_pops : stable.
Lemma stable_VMSetter_Invoke D T frm n i j : loc_in D frm -> stable r any D (VMSetter_Invoke T frm n i j).
Proof. intros. unfold VMSetter_Invoke. stable. Qed.
Lemma stable_pop_arguments n : forall D frm a,
  loc_in D frm -> oop_in D a -> stable r any D (pop_arguments n frm a).
Proof. induction n as [|n IH]; intros; cbn [pop_arguments]; stable. Qed.
Lemma stable_super_pops n : forall D i frm a,
  loc_in D frm -> oop_in D a -> stable r any D (super_pops n i frm a).
Proof. induction n as [|n IH]; intros; cbn [super_pops]; stable. Qed.
Lemma stable_unwind_to n : forall D c, stable r any D (unwind_to n c).
Proof. induction n as [|n IH]; intros; cbn [unwind_to]; stable. Qed.

End Registers.

#[export] Hint Resolve stable_GetFrame stable_set_bytecodeIndex stable_SetFrame stable_PushNewFrame stable_GetSelf
  stable_popFrame stable_popFrameAndPushResult stable_AS_OBJ stable_push_all stable_reserve
  stable_VMMethod_Invoke stable_VMMethod_Invoke1 stable_pop_last stable_get_field_of
  stable_VMSetter_Invoke stable_pop_arguments stable_super_pops stable_unwind_to : stable.

(** ** Sends *)

Section Sends.

Context (T : bool) (rs : Routines) (Hrs : stable_routines rs).

Lemma in_context_of D (p : oop) :
  oop_in D p -> opt loc_in D (match p with Ref c => Some c | _ => None end).
Proof. by destruct p. Qed.
#[local] Hint Resolve in_context_of : within.

Lemma stable_sends fuel :
  (forall D this sel args, oop_in D this -> all oop_in D args ->
     stable true any D (Send T rs fuel this sel args)) /\
  (forall D g, loc_in D g -> stable true any D (SendUnknownGlobal T rs fuel g)) /\
  (forall D this frm, loc_in D this -> loc_in D frm ->
     stable true (opt loc_in) D (Invoke T rs fuel this frm)).
Proof using Hrs.
  induction fuel as [|fuel (IH1 & IH2 & IH3)]; [by split_and!|].
  split_and!; intros; cbn [Send SendUnknownGlobal Invoke].
  - stable.
  - stable.
  - stable.
Qed.

Lemma stable_Send fuel D this sel args :
  oop_in D this -> all oop_in D args -> stable true any D (Send T rs fuel this sel args).
Proof using Hrs. apply stable_sends. Qed.
Lemma stable_SendUnknownGlobal fuel D g : loc_in D g -> stable true any D (SendUnknownGlobal T rs fuel g).
Proof using Hrs. apply stable_sends. Qed.
Lemma stable_Invoke fuel D this frm :
  loc_in D this -> loc_in D frm -> stable true (opt loc_in) D (Invoke T rs fuel this frm).
Proof using Hrs. apply stable_sends. Qed.
#[local] Hint Resolve stable_Send stable_SendUnknownGlobal stable_Invoke : stable.

Lemma stable_Invoke1 fuel : forall D this frm,
  loc_in D this -> loc_in D frm -> stable true (opt loc_in) D (Invoke1 T rs fuel this frm).
Proof using Hrs. induction fuel as [|fuel IH]; intros; cbn [Invoke1]; stable. Qed.
Lemma stable_triggerDoesNotUnderstand fuel D s :
  loc_in D s -> stable true any D (triggerDoesNotUnderstand T rs fuel s).
Proof using Hrs. intros. unfold triggerDoesNotUnderstand. stable. Qed.
#[local] Hint Resolve stable_Invoke1 stable_triggerDoesNotUnderstand : stable.
Lemma stable_send fuel D s c : loc_in D s -> oop_in D c -> stable true any D (send T rs fuel s c).
Proof using Hrs. intros. unfold send. stable. Qed.
#[local] Hint Resolve stable_send : stable.

(** ** The handlers *)

Context (load : loc -> V oop) (Hload : stable_loader true load).

Lemma stable_fetch D i : stable true any D (fetch i).
Proof. unfold fetch. stable. Qed.
Lemma stable_constant D i : stable true oop_in D (constant i).
Proof. unfold constant. stable. Qed.
#[local] Hint Resolve stable_fetch stable_constant : stable.
Lemma stable_GetConstant D i : stable true oop_in D (GetConstant i).
Proof. unfold GetConstant. stable. Qed.
Lemma stable_push D x : oop_in D x -> stable true any D (push x).
Proof. intros. unfold push. stable. Qed.
Lemma stable_pop D : stable true oop_in D pop.
Proof. unfold pop. stable. Qed.
#[local] Hint Resolve stable_GetConstant stable_push stable_pop : stable.
Lemma stable_jump_by D i : stable true any D (jump_by i).
Proof. apply (stable_set_bytecodeIndex true D (fun j => j + i)). Qed.
#[local] Hint Resolve stable_jump_by : stable.
Lemma stable_PROLOGUE D i : stable true any D (PROLOGUE i).
Proof. apply stable_jump_by. Qed.
Lemma stable_from_start D n k : (forall i, stable true any D (k i)) -> stable true any D (from_start n k).
Proof.
  intros Hk. unfold from_start. eapply stable_bind; [apply stable_bytecodeIndex|].
  intros D' i HD _. by eapply stable_mono.
Qed.
#[local] Hint Resolve stable_PROLOGUE stable_from_start : stable.
Lemma stable_offset1 D : stable true any D offset1.
Proof. unfold offset1. stable. Qed.
Lemma stable_offset2 D : stable true any D offset2.
Proof. unfold offset2. stable. Qed.
#[local] Hint Resolve stable_offset1 stable_offset2 : stable.
Lemma stable_increment D i x : oop_in D x -> stable true oop_in D (increment T i x).
Proof. intros. unfold increment. stable. Qed.
#[local] Hint Resolve stable_increment : stable.
Lemma stable_checkIsGreater D : stable true any D (checkIsGreater T).
Proof. unfold checkIsGreater. stable. Qed.
#[local] Hint Resolve stable_checkIsGreater : stable.
Lemma stable_push_block D b : oop_in D b -> stable true any D (push_block load b).
Proof using Hload. intros. unfold push_block. stable. Qed.
Lemma stable_push_global fuel D g : oop_in D g -> stable true any D (push_global T rs fuel g).
Proof using Hrs. intros. unfold push_global. stable. Qed.
Lemma stable_send_signature fuel D s : oop_in D s -> stable true any D (send_signature T rs fuel s).
Proof using Hrs. intros. unfold send_signature. stable. Qed.
Lemma stable_unary_send_signature fuel D s : oop_in D s -> stable true any D (unary_send_signature T rs fuel s).
Proof using Hrs. intros. unfold unary_send_signature. stable. Qed.
Lemma stable_super_send_signature fuel D s : oop_in D s -> stable true any D (super_send_signature T rs fuel s).
Proof using Hrs. intros. unfold super_send_signature. stable. Qed.
Lemma stable_escaped_block fuel D : stable true any D (escaped_block T rs fuel).
Proof using Hrs. unfold escaped_block. stable. Qed.
#[local] Hint Resolve stable_push_block stable_push_global stable_send_signature stable_unary_send_signature
  stable_super_send_signature stable_escaped_block : stable.
Lemma stable_doReturnNonLocal fuel D : stable true any D (doReturnNonLocal T rs fuel).
Proof using Hrs. unfold doReturnNonLocal. stable. Qed.
#[local] Hint Resolve stable_doReturnNonLocal : stable.

(** The jumps take the reading of the offset as an argument. *)
Lemma stable_jump_pop D offset test :
  (forall D, stable true any D offset) -> stable true any D (jump_pop offset test).
Proof. intros. unfold jump_pop. stable. Qed.
Lemma stable_jump_top_nil D offset test :
  (forall D, stable true any D offset) -> stable true any D (jump_top_nil offset test).
Proof. intros. unfold jump_top_nil. stable. Qed.
Lemma stable_jump_top_top D offset test :
  (forall D, stable true any D offset) -> stable true any D (jump_top_top offset test).
Proof. intros. unfold jump_top_top. stable. Qed.
Lemma stable_jump_if_greater D offset :
  (forall D, stable true any D offset) -> stable true any D (jump_if_greater T offset).
Proof. intros. unfold jump_if_greater. stable. Qed.
#[local] Hint Resolve stable_jump_pop stable_jump_top_nil stable_jump_top_top stable_jump_if_greater : stable.

Lemma stable_dispatch fuel D bc : stable true any D (dispatch T load rs fuel bc).
Proof using Hrs Hload.
  destruct bc; cbn [dispatch];
    unfold doDup, doDupSecond, doPushLocalWithIndex, push_argument_here, doPushFieldWithIndex,
      doReturnFieldWithIndex, doPop, doPopLocalWithIndex, doPopFieldWithIndex, doReturnLocal, doReturnSelf,
      doInc, doDec; stable;
    apply stable_from_start; intros i;
    unfold doPushLocal, push_local, doPushArgument, push_argument, doPushField, doPushFieldWithIndex,
      doPushBlock, doPushConstant, doPushGlobal, doPopLocal, pop_local, doPopArgument, pop_argument,
      doPopField, doPopFieldWithIndex, doSend, doUnarySend, doSuperSend, doIncField, doIncFieldPush; stable.
Qed.
#[local] Hint Resolve stable_dispatch : stable.

Lemma stable_step fuel D : stable true (opt oop_in) D (step T load rs fuel).
Proof using Hrs Hload. unfold step. stable. Qed.
#[local] Hint Resolve stable_step : stable.

Lemma stable_Start steps fuel : forall D, stable true oop_in D (Start T load rs steps fuel).
Proof using Hrs Hload. induction steps as [|steps IH]; intros; cbn [Start]; stable. Qed.

End Sends.

#[export] Hint Resolve stable_Send stable_Invoke stable_Start : stable.
