(* ===== verification/StableCompiler.v ===== *)
(** * Stable operations of the compiler

    The generation of methods, the inlining of blocks, the parser and the assembly of
    classes are stable, provided that the loading of superclasses is. *)
From Stdlib Require Import String SpecFloat.
From stdpp Require Import gmap.
From S2P Require Import Prelude Bytecodes InfIntBase IntegerPrims Lexer Objects Universe Frame MethodGen Inlining Parser.
From S2P Require Import Agree StableHeap StableRun.
Local Open Scope Z_scope.

(** ** The states of the compiler *)

Definition class_in (D : gset loc) (c : ClassGen) : Prop :=
  opt loc_in D (cg_name c) /\ opt loc_in D (cg_superName c) /\ all loc_in D (cg_instanceFields c) /\
  all loc_in D (cg_instanceMethods c) /\ all loc_in D (cg_classFields c) /\ all loc_in D (cg_classMethods c).

Definition mgenc_in (D : gset loc) (g : Mgenc) : Prop :=
  class_in D (holderGenc g) /\ opt loc_in D (signature g) /\ all oop_in D (literals g).

#[export] Instance mono_class : Mono class_in.
Proof. intros D D' c H (? & ? & ? & ? & ? & ?). split_and!; by eapply mono. Qed.
#[export] Instance mono_mgenc : Mono mgenc_in.
Proof. intros D D' c H (? & ? & ?). split_and!; by eapply mono. Qed.

(** The worlds agree, the rest is the same. *)
Record agree_gen (r : bool) (D : gset loc) (s1 s2 : Gen) : Prop := mkAgreeGen {
  agree_gen_world : agree r D (gen_world s1) (gen_world s2);
  agree_gen_mg : gen_mg s2 = gen_mg s1;
  agree_gen_outer : gen_outer s2 = gen_outer s1;
  agree_mg_in : mgenc_in D (gen_mg s1);
  agree_outer_in : all mgenc_in D (gen_outer s1) }.
#[export] Instance Agree_Gen : Agree Gen := agree_gen.

Record agree_pgen (r : bool) (D : gset loc) (s1 s2 : PGen) : Prop := mkAgreePGen {
  agree_pgen_gen : agree r D (pg_gen s1) (pg_gen s2);
  agree_pgen_parser : pg_parser s2 = pg_parser s1 }.
#[export] Instance Agree_PGen : Agree PGen := agree_pgen.

Record agree_cstate (r : bool) (D : gset loc) (s1 s2 : CState) : Prop := mkAgreeCState {
  agree_cs_world : agree r D (cs_world s1) (cs_world s2);
  agree_cs_parser : cs_parser s2 = cs_parser s1;
  agree_cs_class : cs_class s2 = cs_class s1;
  agree_class_in : class_in D (cs_class s1) }.
#[export] Instance Agree_CState : Agree CState := agree_cstate.

(** ** Method generation *)

Section MethodGen.

Context (r : bool).

Lemma stable_liftV {A} (P : gset loc -> A -> Prop) D (m : V A) :
  stable r P D m -> stable r P D (liftV m).
Proof.
  intros Hm D0 s1 s2 HD [Hw Hg Ho Hgi Hoi]. unfold liftV. specialize (Hm D0 _ _ HD Hw).
  destruct (m (gen_world s1)) as [[a w1]|], (m (gen_world s2)) as [[b w2]|]; cbn in *; try done.
  destruct Hm as (<- & D' & HD' & Hw' & Ha). split; [done|]. exists D'. split_and!; [done| |done].
  split; cbn; [done..| |]; by eapply mono.
Qed.

Lemma stable_mg {A} (P : gset loc -> A -> Prop) D (f : Mgenc -> A) :
  (forall D g, mgenc_in D g -> P D (f g)) -> stable r P D (mg f).
Proof. intros Hf. apply stable_gets. intros D0 s1 s2 [_ -> _ Hg _]. by eauto. Qed.

Lemma stable_mg_any {A} D (f : Mgenc -> A) : stable r any D (mg f).
Proof. by apply stable_mg. Qed.

Lemma stable_literals D : stable r (all oop_in) D (mg literals).
Proof. apply stable_mg. by intros ? ? (? & ? & ?). Qed.
Lemma stable_signature D : stable r (opt loc_in) D (mg signature).
Proof. apply stable_mg. by intros ? ? (? & ? & ?). Qed.
Lemma stable_holderGenc D : stable r class_in D (mg holderGenc).
Proof. apply stable_mg. by intros ? ? (? & ? & ?). Qed.
Lemma stable_mg_self D : stable r mgenc_in D (mg (fun g => g)).
Proof. by apply stable_mg. Qed.

Lemma stable_update_mg D f :
  (forall D' g, D ⊆ D' -> mgenc_in D' g -> mgenc_in D' (f g)) -> stable r any D (update_mg f).
Proof.
  intros Hf. apply stable_modify. intros D0 s1 s2 HD [Hw Hg Ho Hgi Hoi].
  split; cbn; [done|by rewrite Hg|done|by apply Hf|done].
Qed.

(** Updates that change neither the class, nor the signature, nor the literals. *)
Lemma stable_update_code D f :
  (forall g, holderGenc (f g) = holderGenc g /\ signature (f g) = signature g /\ literals (f g) = literals g) ->
  stable r any D (update_mg f).
Proof.
  intros Hf. apply stable_update_mg. intros D' g HD (H1 & H2 & H3). destruct (Hf g) as (E1 & E2 & E3).
  unfold mgenc_in. by rewrite E1, E2, E3.
Qed.

Lemma stable_set_literals D ls : all oop_in D ls -> stable r any D (update_mg (set_literals ls)).
Proof.
  intros Hl. apply stable_update_mg. intros D' g HD (H1 & H2 & H3). split_and!; [done..|]. by eapply mono.
Qed.
Lemma stable_set_signature D l : loc_in D l -> stable r any D (update_mg (set_signature (Some l))).
Proof.
  intros Hl. apply stable_update_mg. intros D' g HD (H1 & H2 & H3). split_and!; [done| |done].
  by eapply (mono (P := loc_in)).
Qed.

End MethodGen.

#[export] Hint Resolve stable_liftV stable_literals stable_signature stable_holderGenc stable_mg_self
  stable_set_literals stable_set_signature : stable.
#[export] Hint Resolve stable_mg_any | 50 : stable.
#[export] Hint Extern 40 (stable _ _ _ (update_mg _)) => apply stable_update_code; intros; done : stable.

Section Emit.

Context (r : bool).

Lemma stable_AddArgument D a c : stable r any D (AddArgument a c).
Proof. unfold AddArgument. stable. Qed.
Lemma stable_AddLocal D a c : stable r any D (AddLocal a c).
Proof. unfold AddLocal. stable. Qed.
#[local] Hint Resolve stable_AddLocal : stable.
Lemma stable_AddLocalIfAbsent D a c : stable r any D (AddLocalIfAbsent a c).
Proof. unfold AddLocalIfAbsent. stable. Qed.
Lemma stable_FindVar D v : stable r any D (FindVar v).
Proof.
  apply (stable_gets _ _ _ (fun s => FindVar_in (gen_mg s :: gen_outer s) 0 v)).
  by intros D0 s1 s2 [_ -> -> _ _].
Qed.
Lemma stable_AddLiteral D l : oop_in D l -> stable r any D (AddLiteral l).
Proof. intros. unfold AddLiteral. stable. Qed.
#[local] Hint Resolve stable_AddLiteral : stable.
Lemma stable_AddLiteralIfAbsent D l : oop_in D l -> stable r any D (AddLiteralIfAbsent l).
Proof. intros. unfold AddLiteralIfAbsent. stable. Qed.
Lemma stable_UpdateLiteral D i l : oop_in D l -> stable r any D (UpdateLiteral i l).
Proof. intros. unfold UpdateLiteral. stable. Qed.

Lemma stable_AddBytecode D b e : stable r any D (AddBytecode b e).
Proof. unfold AddBytecode. stable. Qed.
Lemma stable_AddBytecodeArgument D b : stable r any D (AddBytecodeArgument b).
Proof. unfold AddBytecodeArgument. stable. Qed.
Lemma stable_OffsetOfNextInstruction D : stable r any D OffsetOfNextInstruction.
Proof. unfold OffsetOfNextInstruction. stable. Qed.
#[local] Hint Resolve stable_AddBytecode stable_AddBytecodeArgument stable_OffsetOfNextInstruction : stable.
Lemma stable_AddBytecodeArgumentAndGetIndex D b : stable r any D (AddBytecodeArgumentAndGetIndex b).
Proof. unfold AddBytecodeArgumentAndGetIndex. stable. Qed.
Lemma stable_lastBytecodeAt D i : stable r any D (lastBytecodeAt i).
Proof. unfold lastBytecodeAt. stable. Qed.
#[local] Hint Resolve stable_AddBytecodeArgumentAndGetIndex stable_lastBytecodeAt : stable.
Lemma stable_LastBytecodeIs D i b : stable r any D (LastBytecodeIs i b).
Proof. unfold LastBytecodeIs. stable. Qed.
Lemma stable_lastBytecodeIsOneOf D i p : stable r any D (lastBytecodeIsOneOf i p).
Proof. unfold lastBytecodeIsOneOf. stable. Qed.
Lemma stable_resetLastBytecodeBuffer D : stable r any D resetLastBytecodeBuffer.
Proof. unfold resetLastBytecodeBuffer. stable. Qed.
Lemma stable_removeLastBytecodes D n : stable r any D (removeLastBytecodes n).
Proof. unfold removeLastBytecodes. stable. Qed.
Lemma stable_getOffsetOfLastBytecode D n : stable r any D (getOffsetOfLastBytecode n).
Proof. unfold getOffsetOfLastBytecode. stable. Qed.
#[local] Hint Resolve stable_getOffsetOfLastBytecode : stable.
Lemma stable_removeLastBytecodeAt D n : stable r any D (removeLastBytecodeAt n).
Proof. unfold removeLastBytecodeAt. stable. Qed.
Lemma stable_read_byte D e i : stable r any D (read_byte e i).
Proof. unfold read_byte. stable. Qed.
Lemma stable_byte_at D i : stable r any D (byte_at i).
Proof. apply stable_read_byte. Qed.
Lemma stable_set_byte D i b : stable r any D (set_byte i b).
Proof. unfold set_byte. stable. Qed.
Lemma stable_code_size D : stable r any D code_size.
Proof. apply stable_OffsetOfNextInstruction. Qed.
Lemma stable_Emit1 D b e : stable r any D (Emit1 b e).
Proof. unfold Emit1. stable. Qed.
Lemma stable_Emit2 D b i e : stable r any D (Emit2 b i e).
Proof. unfold Emit2. stable. Qed.
Lemma stable_Emit3 D b i c e : stable r any D (Emit3 b i c e).
Proof. unfold Emit3. stable. Qed.
#[local] Hint Resolve stable_LastBytecodeIs stable_lastBytecodeIsOneOf stable_resetLastBytecodeBuffer
  stable_removeLastBytecodes stable_removeLastBytecodeAt stable_read_byte stable_byte_at stable_set_byte
  stable_code_size stable_Emit1 stable_Emit2 stable_Emit3 stable_AddLiteralIfAbsent : stable.

Lemma stable_EmitPUSHLOCAL D i c : stable r any D (EmitPUSHLOCAL i c).
Proof. unfold EmitPUSHLOCAL. stable. Qed.
Lemma stable_EmitPUSHARGUMENT D i c : stable r any D (EmitPUSHARGUMENT i c).
Proof. unfold EmitPUSHARGUMENT. stable. Qed.
Lemma stable_EmitPOPLOCAL D i c : stable r any D (EmitPOPLOCAL i c).
Proof. unfold EmitPOPLOCAL. stable. Qed.
Lemma stable_EmitPOPARGUMENT D i c : stable r any D (EmitPOPARGUMENT i c).
Proof. unfold EmitPOPARGUMENT. stable. Qed.
Lemma stable_EmitPushFieldWithIndex D i : stable r any D (EmitPushFieldWithIndex i).
Proof. unfold EmitPushFieldWithIndex. stable. Qed.
Lemma stable_EmitPopFieldWithIndex D i : stable r any D (EmitPopFieldWithIndex i).
Proof. unfold EmitPopFieldWithIndex. stable. Qed.
Lemma stable_OptimizeDupPopPopSequence D : stable r any D OptimizeDupPopPopSequence.
Proof. unfold OptimizeDupPopPopSequence, optimizeIncFieldPush. stable. Qed.
Lemma stable_pushed_field D a b : stable r any D (pushed_field a b).
Proof. unfold pushed_field. stable. Qed.
#[local] Hint Resolve stable_EmitPushFieldWithIndex stable_EmitPopFieldWithIndex
  stable_OptimizeDupPopPopSequence stable_pushed_field : stable.
Lemma stable_OptimizeIncField D i : stable r any D (OptimizeIncField i).
Proof. unfold OptimizeIncField, EmitIncFieldPush. stable. Qed.
Lemma stable_OptimizeReturnField D : stable r any D OptimizeReturnField.
Proof. unfold OptimizeReturnField, EmitRETURNFIELD. stable. Qed.
#[local] Hint Resolve stable_OptimizeIncField stable_OptimizeReturnField : stable.
Lemma stable_EmitPOP D : stable r any D EmitPOP.
Proof. unfold EmitPOP. stable. Qed.
Lemma stable_EmitRETURNSELF D : stable r any D EmitRETURNSELF.
Proof. unfold EmitRETURNSELF. stable. Qed.
Lemma stable_EmitRETURNLOCAL D : stable r any D EmitRETURNLOCAL.
Proof. unfold EmitRETURNLOCAL. stable. Qed.
Lemma stable_field_index D f : stable r any D (field_index f).
Proof. unfold field_index. stable. Qed.
#[local] Hint Resolve stable_field_index : stable.
Lemma stable_EmitPUSHFIELD D f : stable r any D (EmitPUSHFIELD f).
Proof. unfold EmitPUSHFIELD. stable. Qed.
Lemma stable_EmitPOPFIELD D f : stable r any D (EmitPOPFIELD f).
Proof. unfold EmitPOPFIELD. stable. Qed.
Lemma stable_RemoveLastPopForBlockLocalReturn D : stable r any D RemoveLastPopForBlockLocalReturn.
Proof. unfold RemoveLastPopForBlockLocalReturn. stable. Qed.
Lemma stable_EmitPUSHBLOCK D b : oop_in D b -> stable r any D (EmitPUSHBLOCK b).
Proof. intros. unfold EmitPUSHBLOCK. stable. Qed.
Lemma stable_EmitPUSHCONSTANT D T c : oop_in D c -> stable r any D (EmitPUSHCONSTANT T c).
Proof. intros. unfold EmitPUSHCONSTANT. stable. Qed.
Lemma stable_EmitPUSHCONSTANT_index D i : stable r any D (EmitPUSHCONSTANT_index i).
Proof. unfold EmitPUSHCONSTANT_index. stable. Qed.
#[local] Hint Resolve stable_EmitPUSHCONSTANT : stable.
Lemma stable_EmitPUSHGLOBAL D T g : loc_in D g -> stable r any D (EmitPUSHGLOBAL T g).
Proof. intros. unfold EmitPUSHGLOBAL. stable. Qed.
Lemma stable_EmitSEND D m : loc_in D m -> stable r any D (EmitSEND m).
Proof. intros. unfold EmitSEND. stable. Qed.
Lemma stable_EmitSUPERSEND D m : loc_in D m -> stable r any D (EmitSUPERSEND m).
Proof. intros. unfold EmitSUPERSEND. stable. Qed.
Lemma stable_Emit3WithDummy D b e : stable r any D (Emit3WithDummy b e).
Proof. unfold Emit3WithDummy. stable. Qed.
Lemma stable_checkJumpOffset D o : stable r any D (checkJumpOffset o).
Proof. unfold checkJumpOffset. stable. Qed.
#[local] Hint Resolve stable_Emit3WithDummy stable_checkJumpOffset : stable.
Lemma stable_EmitBackwardsJumpOffsetToTarget D i : stable r any D (EmitBackwardsJumpOffsetToTarget i).
Proof. unfold EmitBackwardsJumpOffsetToTarget, EmitJumpBackwardWithOffset. stable. Qed.
Lemma stable_PatchJumpOffsetToPointToNextInstruction D i :
  stable r any D (PatchJumpOffsetToPointToNextInstruction i).
Proof. unfold PatchJumpOffsetToPointToNextInstruction. stable. Qed.

End Emit.

#[export] Hint Resolve stable_AddArgument stable_AddLocalIfAbsent stable_FindVar stable_AddLiteral
  stable_AddLiteralIfAbsent stable_UpdateLiteral stable_OffsetOfNextInstruction stable_lastBytecodeAt
  stable_LastBytecodeIs stable_lastBytecodeIsOneOf stable_resetLastBytecodeBuffer stable_removeLastBytecodes
  stable_byte_at stable_code_size stable_Emit1 stable_Emit2 stable_Emit3 stable_EmitPUSHLOCAL
  stable_EmitPUSHARGUMENT stable_EmitPOPLOCAL stable_EmitPOPARGUMENT stable_EmitPushFieldWithIndex
  stable_EmitPopFieldWithIndex stable_EmitPOP stable_EmitRETURNSELF stable_EmitRETURNLOCAL stable_EmitPUSHFIELD
  stable_EmitPOPFIELD stable_RemoveLastPopForBlockLocalReturn stable_EmitPUSHBLOCK stable_EmitPUSHCONSTANT
  stable_EmitPUSHCONSTANT_index stable_EmitPUSHGLOBAL stable_EmitSEND stable_EmitSUPERSEND
  stable_Emit3WithDummy stable_EmitBackwardsJumpOffsetToTarget
  stable_PatchJumpOffsetToPointToNextInstruction : stable.

(** ** Assembling methods, and scopes *)

Section Assemble.

Context (r : bool) (T : bool).

Lemma stable_the_signature D : stable r loc_in D the_signature.
Proof. unfold the_signature. stable. Qed.
#[local] Hint Resolve stable_the_signature : stable.
Lemma stable_make_trivial D t : trivial_in D t -> stable r (opt loc_in) D (make_trivial t).
Proof. intros. unfold make_trivial. stable. Qed.
#[local] Hint Resolve stable_make_trivial : stable.
Lemma stable_assembleTrivialMethod D : stable r (opt loc_in) D (assembleTrivialMethod T).
Proof.
  unfold assembleTrivialMethod, assembleLiteralReturn, assembleGlobalReturn, assembleFieldGetter,
    assembleFieldSetter, assembleFieldGetterFromReturn. stable.
Qed.
#[local] Hint Resolve stable_assembleTrivialMethod : stable.

Lemma in_literals D g : mgenc_in D g -> all oop_in D (literals g). Proof. by intros (? & ? & ?). Qed.
#[local] Hint Resolve in_literals : within.
Lemma stable_Assemble D : stable r loc_in D (Assemble T).
Proof. unfold Assemble. stable. Qed.
Lemma stable_AssemblePrimitive D : stable r loc_in D AssemblePrimitive.
Proof. unfold AssemblePrimitive. stable. Qed.

Lemma stable_load_scope D s : stable r any D (load_scope s).
Proof.
  intros D0 w1 w2 HD Hw. destruct (agree_same _ _ _ _ Hw) as [h E]. unfold load_scope.
  assert (scopes w2 = scopes w1) as -> by by rewrite E. destruct (scopes w1 !! s); [|done].
  cbn. split; [done|]. by exists D0.
Qed.
Lemma agree_set_scopes D w1 w2 s n : agree r D w1 w2 -> agree r D (set_scopes s n w1) (set_scopes s n w2).
Proof.
  intros [HR HH [] HM]. split; cbn; [|done|split; done|done].
  rewrite HR. done.
Qed.
Lemma stable_store_scope D s sc : stable r any D (store_scope s sc).
Proof.
  apply stable_modify. intros D0 w1 w2 HD Hw. destruct (agree_same _ _ _ _ Hw) as [h E].
  assert (scopes w2 = scopes w1 /\ nextScope w2 = nextScope w1) as [-> ->] by by rewrite E.
  by apply agree_set_scopes.
Qed.
Lemma stable_new_scope D sc : stable r any D (new_scope sc).
Proof.
  intros D0 w1 w2 HD Hw. destruct (agree_same _ _ _ _ Hw) as [h E]. unfold new_scope.
  assert (scopes w2 = scopes w1 /\ nextScope w2 = nextScope w1) as [-> ->] by by rewrite E.
  cbn. split; [done|]. exists D0. split_and!; [done| |done]. by apply agree_set_scopes.
Qed.
#[local] Hint Resolve stable_load_scope stable_store_scope stable_new_scope : stable.

(** The contexts of the methods are the same in both states. *)
Lemma stable_get_contexts {A} (P : gset loc -> A -> Prop) D (k : Mgenc -> list Mgenc -> G A) :
  (forall g o, stable r P D (k g o)) -> stable r P D (s ← get; k (gen_mg s) (gen_outer s)).
Proof.
  intros Hk D0 s1 s2 HD Hs. pose proof Hs as [_ Hg Ho _ _]. cbn. unfold mbind, stateful_bind, get.
  rewrite Hg, Ho. by apply Hk.
Qed.

Lemma stable_CompleteLexicalScope D : stable r any D CompleteLexicalScope.
Proof.
  apply (stable_get_contexts any D (fun g o =>
    id ← liftV (new_scope (mkScope (match o with [] => None | o :: _ => lexicalScope o end)
                             (arguments g) (locals g)));
    update_mg (set_scope (Some id)))).
  intros. stable.
Qed.
Lemma stable_scope_up n : forall D s, stable r any D (scope_up n s).
Proof. induction n as [|n IH]; intros; cbn [scope_up]; stable. Qed.
#[local] Hint Resolve stable_scope_up : stable.
Lemma stable_scope_argument D s i n : stable r any D (scope_argument s i n).
Proof. unfold scope_argument. stable. Qed.
Lemma stable_scope_local D s i n : stable r any D (scope_local s i n).
Proof. unfold scope_local. stable. Qed.
Lemma stable_AddInlinedLocal D s v : stable r any D (AddInlinedLocal s v).
Proof. unfold AddInlinedLocal. stable. Qed.
Lemma stable_DropInlinedScope D s : stable r any D (DropInlinedScope s).
Proof. unfold DropInlinedScope. stable. Qed.

End Assemble.

#[export] Hint Resolve stable_Assemble stable_AssemblePrimitive stable_load_scope stable_new_scope
  stable_CompleteLexicalScope stable_scope_argument stable_scope_local stable_AddInlinedLocal
  stable_DropInlinedScope : stable.

(** ** Inlining *)

Section Inlining.

Context (r : bool) (T : bool).

Lemma stable_GetInlinedLocalIdx D v : stable r any D (GetInlinedLocalIdx v).
Proof. unfold GetInlinedLocalIdx. stable. Qed.
Lemma stable_GetInlinedVariable D v : stable r any D (GetInlinedVariable v).
Proof.
  apply (stable_get_contexts r any D (fun g o =>
    lift (of_option (ErrorExit "Failed to find inlined variable") (inlined_variable (g :: o) v)))).
  intros. stable.
Qed.
#[local] Hint Resolve stable_GetInlinedLocalIdx stable_GetInlinedVariable : stable.
Lemma stable_InlineAsLocals vs : forall D, stable r any D (InlineAsLocals vs).
Proof. induction vs as [|v vs IH]; intros; cbn [InlineAsLocals]; stable. Qed.
#[local] Hint Resolve stable_InlineAsLocals : stable.
Lemma stable_MergeIntoScope D s : stable r any D (MergeIntoScope s).
Proof. unfold MergeIntoScope. stable. Qed.
#[local] Hint Resolve stable_MergeIntoScope : stable.
Lemma stable_prepareBackJumpToCurrentAddress bs : forall D ps i,
  stable r any D (prepareBackJumpToCurrentAddress bs ps i).
Proof. induction bs as [|b bs IH]; intros; cbn [prepareBackJumpToCurrentAddress]; stable. Qed.
Lemma stable_patchJumpToCurrentAddress js : forall D i, stable r any D (patchJumpToCurrentAddress i js).
Proof. induction js as [|j js IH]; intros; cbn [patchJumpToCurrentAddress]; stable. Qed.
#[local] Hint Resolve stable_prepareBackJumpToCurrentAddress stable_patchJumpToCurrentAddress : stable.
Lemma stable_method_byte D m i : stable r any D (method_byte m i).
Proof. unfold method_byte. stable. Qed.
Lemma in_with_bytecodes D bs m : method_in D m -> method_in D (with_bytecodes bs m).
Proof. intros. unfold with_bytecodes. within. Qed.
#[local] Hint Resolve in_with_bytecodes : within.
Lemma stable_set_method_byte D l i b : loc_in D l -> stable r any D (set_method_byte l i b).
Proof. intros. unfold set_method_byte. stable. Qed.
#[local] Hint Resolve stable_method_byte stable_set_method_byte : stable.
Lemma stable_method_constant D m i : method_in D m -> stable r oop_in D (method_constant m i).
Proof. intros. unfold method_constant. stable. Qed.
#[local] Hint Resolve stable_method_constant : stable.

Lemma stable_adapt_instruction D nested l m c i b :
  (forall D l c, loc_in D l -> stable r any D (nested l c)) -> loc_in D l -> method_in D m ->
  stable r any D (adapt_instruction nested l m c i b).
Proof. intros. unfold adapt_instruction. stable. Qed.
#[local] Hint Resolve stable_adapt_instruction : stable.
Lemma stable_adapt_loop fuel : forall D nested l c i,
  (forall D l c, loc_in D l -> stable r any D (nested l c)) -> loc_in D l ->
  stable r any D (adapt_loop fuel nested l c i).
Proof. induction fuel as [|fuel IH]; intros; cbn [adapt_loop]; stable. Qed.
#[local] Hint Resolve stable_adapt_loop : stable.
Lemma stable_AdaptAfterOuterInlined fuel : forall D l c,
  loc_in D l -> stable r any D (AdaptAfterOuterInlined fuel l c).
Proof. induction fuel as [|fuel IH]; intros; cbn [AdaptAfterOuterInlined]; stable. Qed.
#[local] Hint Resolve stable_AdaptAfterOuterInlined : stable.
Lemma stable_adapt_invokable D fuel l : loc_in D l -> stable r any D (adapt_invokable fuel l).
Proof. intros. unfold adapt_invokable. stable. Qed.
#[local] Hint Resolve stable_adapt_invokable : stable.

Lemma stable_inline_simple D fuel m i bc : method_in D m -> stable r any D (inline_simple T fuel m i bc).
Proof.
  intros. destruct bc; cbn [inline_simple];
    unfold inlined_local, inlined_argument, EmitRETURNNONLOCAL; stable.
Qed.
#[local] Hint Resolve stable_inline_simple : stable.
Lemma stable_inline_instruction D fuel m i bc q :
  method_in D m -> stable r any D (inline_instruction T fuel m i bc q).
Proof. intros. unfold inline_instruction. stable. Qed.
#[local] Hint Resolve stable_inline_instruction : stable.
Lemma stable_inlineInto_loop fuel : forall D m i q,
  method_in D m -> stable r any D (inlineInto_loop T fuel m i q).
Proof. induction fuel as [|fuel IH]; intros; cbn [inlineInto_loop]; stable. Qed.
#[local] Hint Resolve stable_inlineInto_loop : stable.
Lemma stable_inlineInto D m : method_in D m -> stable r any D (inlineInto T m).
Proof. intros. unfold inlineInto. stable. Qed.
#[local] Hint Resolve stable_inlineInto : stable.
Lemma stable_InlineInto D l b : loc_in D l -> stable r any D (InlineInto T l b).
Proof. intros. unfold InlineInto. stable. Qed.
Lemma stable_MergeScopeInto D l : loc_in D l -> stable r any D (MergeScopeInto l).
Proof. intros. unfold MergeScopeInto. stable. Qed.
Lemma stable_invokable_argument D l i : loc_in D l -> stable r any D (invokable_argument l i).
Proof. intros. unfold invokable_argument. stable. Qed.
#[local] Hint Resolve stable_InlineInto stable_MergeScopeInto stable_invokable_argument : stable.
Lemma stable_getLastBlockMethodAndFreeLiteral D : stable r loc_in D getLastBlockMethodAndFreeLiteral.
Proof. unfold getLastBlockMethodAndFreeLiteral. stable. Qed.
#[local] Hint Resolve stable_getLastBlockMethodAndFreeLiteral : stable.
Lemma stable_extractBlockMethodAndRemoveBytecode D : stable r loc_in D extractBlockMethodAndRemoveBytecode.
Proof. unfold extractBlockMethodAndRemoveBytecode. stable. Qed.

Definition locs_in (D : gset loc) (p : loc * loc) : Prop := loc_in D p.1 /\ loc_in D p.2.
#[local] Instance mono_locs : Mono locs_in.
Proof. intros D D' p H [? ?]. split; by eapply mono. Qed.
Lemma in_locs D a b : loc_in D a -> loc_in D b -> locs_in D (a, b). Proof. done. Qed.
Lemma in_locs_1 D p : locs_in D p -> loc_in D p.1. Proof. by intros []. Qed.
Lemma in_locs_2 D p : locs_in D p -> loc_in D p.2. Proof. by intros []. Qed.
#[local] Hint Resolve in_locs in_locs_1 in_locs_2 : within.
Lemma stable_extractBlockMethodsAndRemoveBytecodes D : stable r locs_in D extractBlockMethodsAndRemoveBytecodes.
Proof. unfold extractBlockMethodsAndRemoveBytecodes. stable. Qed.
#[local] Hint Resolve stable_extractBlockMethodAndRemoveBytecode stable_extractBlockMethodsAndRemoveBytecodes : stable.

Lemma stable_InlineThenBranch D c : stable r any D (InlineThenBranch T c).
Proof. unfold InlineThenBranch, hasOneLiteralBlockArgument, EmitJumpOnWithDummyOffset, set_isInlining. stable. Qed.
Lemma stable_InlineThenElseBranches D c : stable r any D (InlineThenElseBranches T c).
Proof.
  unfold InlineThenElseBranches, hasTwoLiteralBlockArguments, EmitJumpOnWithDummyOffset,
    EmitJumpWithDumyOffset, set_isInlining. stable.
Qed.
Lemma stable_InlineWhile D b : stable r any D (InlineWhile T b).
Proof.
  unfold InlineWhile, hasTwoLiteralBlockArguments, completeJumpsAndEmitReturningNil,
    EmitJumpOnWithDummyOffset, set_isInlining. stable.
Qed.
Lemma stable_InlineAndOr D b : stable r any D (InlineAndOr T b).
Proof.
  unfold InlineAndOr, hasOneLiteralBlockArgument, EmitJumpOnWithDummyOffset, EmitJumpWithDumyOffset,
    set_isInlining. stable.
Qed.
Lemma stable_InlineToDo D : stable r any D (InlineToDo T).
Proof.
  unfold InlineToDo, hasOneLiteralBlockArgument, EmitDupSecond, EmitJumpIfGreaterWithDummyOffset, EmitDUP,
    EmitINC, set_isInlining. stable.
Qed.

End Inlining.

#[export] Hint Resolve stable_InlineThenBranch stable_InlineThenElseBranches stable_InlineWhile
  stable_InlineAndOr stable_InlineToDo : stable.

(** ** The parser *)

Section Parser.

Context (r : bool) (tag : bool).

Lemma stable_tok {A} D (m : stateful Parser A) : stable r any D (tok m).
Proof.
  intros D0 s1 s2 HD [Hg Hp]. unfold tok. rewrite Hp. destruct (m (pg_parser s1)) as [[a p]|]; [|done].
  cbn. split; [done|]. by exists D0.
Qed.

Lemma stable_emit {A} (Q : gset loc -> A -> Prop) D (m : G A) : stable r Q D m -> stable r Q D (emit m).
Proof.
  intros Hm D0 s1 s2 HD [Hg Hp]. unfold emit. specialize (Hm D0 _ _ HD Hg).
  destruct (m (pg_gen s1)) as [[a g1]|], (m (pg_gen s2)) as [[b g2]|]; cbn in *; try done.
  destruct Hm as (<- & D' & HD' & Hg' & Ha). split; [done|]. by exists D'.
Qed.

Lemma in_new_Mgenc D c o : class_in D c -> mgenc_in D (new_Mgenc c o).
Proof. intros. split_and!; [done..|constructor]. Qed.

Lemma stable_in_block {A} (Q : gset loc -> A -> Prop) D (m : stateful PGen A) :
  stable r Q D m -> stable r Q D (Parser.in_block m).
Proof.
  intros Hm D0 s1 s2 HD [[Hw Hg Ho Hgi Hoi] Hp]. unfold Parser.in_block. rewrite Hp, Hg, Ho.
  match goal with |- outcome _ _ _ (match m ?a with _ => _ end) (match m ?b with _ => _ end) =>
    assert (agree r D0 a b) as Hs end.
  { split; [|done]. split; cbn; [done..| |].
    - apply in_new_Mgenc, Hgi.
    - by constructor. }
  specialize (Hm D0 _ _ HD Hs). revert Hm.
  match goal with |- outcome _ _ _ (m ?a) (m ?b) -> _ =>
    destruct (m a) as [[x t1]|], (m b) as [[y t2]|] end; cbn; try done.
  intros (<- & D' & HD' & [Hg' Hp'] & Ha). split; [done|]. exists D'. split_and!; [done| |done].
  split; [|done]. split; cbn; [apply Hg'|done..| |]; by eapply mono.
Qed.

#[local] Hint Resolve stable_emit stable_in_block : stable.
#[local] Hint Resolve stable_tok | 50 : stable.
#[local] Hint Extern 40 (stable _ _ _ (emit _)) => apply stable_emit; solve [stable] : stable.
#[local] Hint Extern 40 (stable _ _ _ (Parser.in_block _)) => apply stable_in_block; solve [stable] : stable.

Lemma stable_SymbolForP D s : stable r loc_in D (SymbolForP s).
Proof. unfold SymbolForP. stable. Qed.
Lemma stable_the_sym D : stable r any D the_sym.
Proof. apply stable_tok. Qed.
#[local] Hint Resolve stable_SymbolForP stable_the_sym : stable.
Lemma stable_unarySelector D : stable r loc_in D unarySelector.
Proof. unfold unarySelector. stable. Qed.
Lemma stable_binarySelector D : stable r loc_in D binarySelector.
Proof. unfold binarySelector. stable. Qed.
Lemma stable_keywordSelector D : stable r loc_in D keywordSelector.
Proof. unfold keywordSelector. stable. Qed.
#[local] Hint Resolve stable_unarySelector stable_binarySelector stable_keywordSelector : stable.
Lemma stable_selector D : stable r loc_in D selector.
Proof. unfold selector. stable. Qed.
Lemma stable_MarkFinished D : stable r any D MarkFinished.
Proof. unfold MarkFinished. stable. Qed.
Lemma stable_SetPrimitive D b : stable r any D (SetPrimitive b).
Proof. unfold SetPrimitive. stable. Qed.
Lemma stable_SetSignature D l : loc_in D l -> stable r any D (SetSignature l).
Proof. intros. unfold SetSignature. stable. Qed.
Lemma stable_HasBytecodes D : stable r any D HasBytecodes.
Proof. unfold HasBytecodes. stable. Qed.
#[local] Hint Resolve stable_selector stable_MarkFinished stable_SetPrimitive stable_SetSignature
  stable_HasBytecodes : stable.
Lemma stable_add_argument D : stable r any D add_argument.
Proof. unfold add_argument. stable. Qed.
Lemma stable_genPushVariable D v : stable r any D (genPushVariable tag v).
Proof. unfold genPushVariable. stable. Qed.
Lemma stable_genPopVariable D v : stable r any D (genPopVariable v).
Proof. unfold genPopVariable. stable. Qed.
#[local] Hint Resolve stable_add_argument stable_genPushVariable stable_genPopVariable : stable.

Lemma stable_new_number D v : stable r oop_in D (new_number tag v).
Proof. unfold new_number. stable. Qed.
#[local] Hint Resolve stable_new_number : stable.
Lemma stable_literalInteger D b : stable r oop_in D (literalInteger tag b).
Proof. unfold literalInteger. stable. Qed.
Lemma stable_literalDouble D b : stable r oop_in D (literalDouble b).
Proof. unfold literalDouble. stable. Qed.
#[local] Hint Resolve stable_literalInteger stable_literalDouble : stable.
Lemma stable_literalDecimal D b : stable r oop_in D (literalDecimal tag b).
Proof. unfold literalDecimal. stable. Qed.
#[local] Hint Resolve stable_literalDecimal : stable.
Lemma stable_literalNumberOop D : stable r oop_in D (literalNumberOop tag).
Proof. unfold literalNumberOop, negativeDecimal. stable. Qed.
#[local] Hint Resolve stable_literalNumberOop : stable.
Lemma stable_literalNumber D : stable r any D (literalNumber tag).
Proof. unfold literalNumber. stable. Qed.
Lemma stable_literalSymbol D : stable r any D (literalSymbol tag).
Proof. unfold literalSymbol. stable. Qed.
Lemma stable_literalString D : stable r any D (literalString tag).
Proof. unfold literalString. stable. Qed.
#[local] Hint Resolve stable_literalNumber stable_literalSymbol stable_literalString : stable.

Lemma stable_literals_of fuel :
  (forall D, stable r any D (literal tag fuel)) /\
  (forall D, stable r any D (literalArray tag fuel)) /\
  (forall D m i, loc_in D m -> stable r any D (literal_elements tag fuel m i)).
Proof.
  induction fuel as [|fuel (IH1 & IH2 & IH3)]; [by split_and!|].
  split_and!; intros; cbn [literal literalArray literal_elements]; stable.
Qed.
Lemma stable_literal D fuel : stable r any D (literal tag fuel).
Proof. apply stable_literals_of. Qed.
#[local] Hint Resolve stable_literal : stable.

Lemma stable_send_message D b m : loc_in D m -> stable r any D (send_message b m).
Proof. intros. unfold send_message. stable. Qed.
#[local] Hint Resolve stable_send_message : stable.
Lemma stable_unaryMessage D b : stable r any D (unaryMessage b).
Proof. unfold unaryMessage. stable. Qed.
#[local] Hint Resolve stable_unaryMessage : stable.
Lemma stable_EmitDUP D : stable r any D EmitDUP.
Proof. unfold EmitDUP. stable. Qed.
Lemma stable_EmitINC D : stable r any D EmitINC.
Proof. unfold EmitINC. stable. Qed.
Lemma stable_EmitDEC D : stable r any D EmitDEC.
Proof. unfold EmitDEC. stable. Qed.
Lemma stable_EmitRETURNNONLOCAL D : stable r any D EmitRETURNNONLOCAL.
Proof. unfold EmitRETURNNONLOCAL. stable. Qed.
#[local] Hint Resolve stable_EmitDUP stable_EmitINC stable_EmitDEC stable_EmitRETURNNONLOCAL : stable.
Lemma stable_tryIncOrDecBytecodes D m b : stable r any D (tryIncOrDecBytecodes m b).
Proof. unfold tryIncOrDecBytecodes. stable. Qed.
Lemma stable_inline_binary D b m : stable r any D (inline_binary tag b m).
Proof. unfold inline_binary. stable. Qed.
Lemma stable_inline_keyword D b m n : stable r any D (inline_keyword tag b m n).
Proof. unfold inline_keyword. stable. Qed.
Lemma stable_unary_messages fuel : forall D b, stable r any D (unary_messages fuel b).
Proof. induction fuel as [|fuel IH]; intros; cbn [unary_messages]; stable. Qed.
#[local] Hint Resolve stable_tryIncOrDecBytecodes stable_inline_binary stable_inline_keyword
  stable_unary_messages : stable.
Lemma stable_each {A} (f : A -> G ()) l : (forall D a, stable r any D (f a)) ->
  forall D, stable r any D (each f l).
Proof. intros. revert D. induction l as [|a l IH]; intros; cbn [each]; stable. Qed.
#[local] Hint Resolve stable_each : stable.
Lemma stable_parse_locals fuel : forall D, stable r any D (parse_locals fuel).
Proof. induction fuel as [|fuel IH]; intros; cbn [parse_locals]; stable. Qed.
Lemma stable_blockArguments fuel : forall D, stable r any D (blockArguments fuel).
Proof. induction fuel as [|fuel IH]; intros; cbn [blockArguments]; stable. Qed.
#[local] Hint Resolve stable_parse_locals stable_blockArguments : stable.
Lemma stable_blockPattern D fuel : stable r any D (blockPattern fuel).
Proof. unfold blockPattern. stable. Qed.
Lemma stable_set_block_signature D : stable r any D set_block_signature.
Proof. unfold set_block_signature. stable. Qed.
Lemma stable_finish_block D : stable r any D (finish_block tag).
Proof. unfold finish_block. stable. Qed.
#[local] Hint Resolve stable_blockPattern stable_set_block_signature stable_finish_block : stable.

(** The functions that call each other, for every call with the given fuel. *)
Lemma stable_statements fuel :
  (forall D b, stable r any D (blockContents tag fuel b)) /\
  (forall D b c, stable r any D (blockBody tag fuel b c)) /\
  (forall D, stable r any D (parse_result tag fuel)) /\
  (forall D, stable r any D (expression tag fuel)) /\
  (forall D, stable r any D (assignation tag fuel)) /\
  (forall D, stable r any D (evaluation tag fuel)) /\
  (forall D, stable r any D (primary tag fuel)) /\
  (forall D b, stable r any D (messages tag fuel b)) /\
  (forall D b, stable r any D (binaryMessages tag fuel b)) /\
  (forall D b, stable r any D (binaryMessage tag fuel b)) /\
  (forall D, stable r any D (binaryOperand tag fuel)) /\
  (forall D b, stable r any D (keywordMessage tag fuel b)) /\
  (forall D k n, stable r any D (keyword_parts tag fuel k n)) /\
  (forall D, stable r any D (formula tag fuel)) /\
  (forall D, stable r any D (nestedTerm tag fuel)) /\
  (forall D, stable r any D (nestedBlock tag fuel)).
Proof.
  induction fuel as [|fuel (IH1 & IH2 & IH3 & IH4 & IH5 & IH6 & IH7 & IH8 & IH9 & IH10 & IH11 & IH12 &
    IH13 & IH14 & IH15 & IH16)]; [by split_and!|].
  split_and!; intros; cbn [blockContents blockBody parse_result expression assignation evaluation primary
    messages binaryMessages binaryMessage binaryOperand keywordMessage keyword_parts formula nestedTerm
    nestedBlock]; stable.
Qed.

Lemma stable_blockContents D fuel b : stable r any D (blockContents tag fuel b).
Proof. apply stable_statements. Qed.
Lemma stable_keyword_pattern fuel : forall D k, stable r any D (keyword_pattern fuel k).
Proof. induction fuel as [|fuel IH]; intros; cbn [keyword_pattern]; stable. Qed.
#[local] Hint Resolve stable_blockContents stable_keyword_pattern : stable.
Lemma stable_pattern D fuel : stable r any D (pattern fuel).
Proof. unfold pattern, unaryPattern, keywordPattern, binaryPattern. stable. Qed.
Lemma stable_methodBlock D fuel : stable r any D (methodBlock tag fuel).
Proof. unfold methodBlock. stable. Qed.
#[local] Hint Resolve stable_pattern stable_methodBlock : stable.
Lemma stable_parse_method D fuel : stable r any D (parse_method tag fuel).
Proof. unfold parse_method. stable. Qed.
#[local] Hint Resolve stable_parse_method : stable.

(** *** Classes *)

Lemma stable_tokC {A} D (m : stateful Parser A) : stable r any D (tokC m).
Proof.
  intros D0 s1 s2 HD [Hw Hp Hc Hci]. unfold tokC. rewrite Hp.
  destruct (m (cs_parser s1)) as [[a p]|]; [|done]. cbn. split; [done|]. by exists D0.
Qed.

Lemma stable_liftC {A} (Q : gset loc -> A -> Prop) D (m : V A) : stable r Q D m -> stable r Q D (liftC m).
Proof.
  intros Hm D0 s1 s2 HD [Hw Hp Hc Hci]. unfold liftC. specialize (Hm D0 _ _ HD Hw).
  destruct (m (cs_world s1)) as [[a w1]|], (m (cs_world s2)) as [[b w2]|]; cbn in *; try done.
  destruct Hm as (<- & D' & HD' & Hw' & Ha). split; [done|]. exists D'. split_and!; [done| |done].
  split; cbn; [done..|]; by eapply mono.
Qed.

Lemma stable_update_class D f :
  (forall D' c, D ⊆ D' -> class_in D' c -> class_in D' (f c)) -> stable r any D (update_class f).
Proof.
  intros Hf. apply stable_modify. intros D0 s1 s2 HD [Hw Hp Hc Hci].
  split; cbn; [done|done|by rewrite Hc|by apply Hf].
Qed.

Lemma stable_in_method {A} (Q : gset loc -> A -> Prop) D (m : stateful PGen A) :
  stable r Q D m -> stable r Q D (Parser.in_method m).
Proof.
  intros Hm D0 s1 s2 HD [Hw Hp Hc Hci]. unfold Parser.in_method. rewrite Hp, Hc.
  match goal with |- outcome _ _ _ (match m ?a with _ => _ end) (match m ?b with _ => _ end) =>
    assert (agree r D0 a b) as Hs end.
  { split; [|done]. split; cbn; [done..| |].
    - by apply in_new_Mgenc.
    - constructor. }
  specialize (Hm D0 _ _ HD Hs). revert Hm.
  match goal with |- outcome _ _ _ (m ?a) (m ?b) -> _ =>
    destruct (m a) as [[x t1]|], (m b) as [[y t2]|] end; cbn; try done.
  intros (<- & D' & HD' & [Hg' Hp'] & Ha). split; [done|]. exists D'. split_and!; [done| |done].
  split; cbn; [apply Hg'|done..|]; by eapply mono.
Qed.
#[local] Hint Resolve stable_liftC stable_in_method : stable.
#[local] Hint Resolve stable_tokC | 50 : stable.
#[local] Hint Extern 40 (stable _ _ _ (liftC _)) => apply stable_liftC; solve [stable] : stable.

(** Updates of a class that add something that is within the set. *)
Definition adds {A} (Q : gset loc -> A -> Prop) (add : A -> ClassGen -> ClassGen) : Prop :=
  forall D a c, Q D a -> class_in D c -> class_in D (add a c).

Lemma adds_stable {A} (Q : gset loc -> A -> Prop) `{!Mono Q} add D a :
  adds Q add -> Q D a -> stable r any D (update_class (add a)).
Proof. intros Hadd Ha. apply stable_update_class. intros D' c HD Hc. apply Hadd; [by eapply mono|done]. Qed.

Ltac adds := intros D a [? ? ? ? ? ? ?] ? (? & ? & ? & ? & ? & ?); split_and!; cbn in *;
  first [done|by eapply Forall_app; split; [done|repeat constructor]|by apply Forall_app].

Lemma adds_name : adds loc_in SetClassName. Proof. adds. Qed.
Lemma adds_super : adds loc_in SetSuperName. Proof. adds. Qed.
Lemma adds_side : adds any SetClassSide. Proof. adds. Qed.
Lemma adds_fields : adds (all loc_in) AddInstanceFields. Proof. adds. Qed.
Lemma adds_class_fields : adds (all loc_in) AddClassFields. Proof. adds. Qed.
Lemma adds_method : adds loc_in AddInstanceMethod. Proof. adds. Qed.
Lemma adds_class_method : adds loc_in AddClassMethod. Proof. adds. Qed.
#[local] Hint Resolve adds_name adds_super adds_side adds_fields adds_class_fields adds_method
  adds_class_method : stable.
#[local] Hint Extern 30 (stable _ _ _ (update_class (_ _))) =>
  eapply adds_stable; [|solve [eauto with stable]|]; [apply _|within] : stable.

Lemma stable_class_method D fuel : stable r loc_in D (class_method tag fuel).
Proof. unfold class_method. stable. Qed.
#[local] Hint Resolve stable_class_method : stable.
Lemma stable_class_methods fuel : forall D add, adds loc_in add ->
  stable r any D (class_methods tag fuel add).
Proof. induction fuel as [|fuel IH]; intros; cbn [class_methods]; stable. Qed.
Lemma stable_class_fields fuel : forall D add, adds (all loc_in) add ->
  stable r any D (class_fields fuel add).
Proof. induction fuel as [|fuel IH]; intros; cbn [class_fields]; stable. Qed.
#[local] Hint Resolve stable_class_methods stable_class_fields : stable.
Lemma stable_parse_fields D fuel add : adds (all loc_in) add -> stable r any D (parse_fields fuel add).
Proof. intros. unfold parse_fields. stable. Qed.
#[local] Hint Resolve stable_parse_fields : stable.

Context (LoadClass : loc -> V oop) (Hload : stable_loader r LoadClass).

Lemma stable_symbols_of es : forall D, all oop_in D es -> stable r (all loc_in) D (symbols_of es).
Proof. induction es as [|e es IH]; intros; cbn [symbols_of]; stable. Qed.
#[local] Hint Resolve stable_symbols_of : stable.
Lemma stable_field_names D f : oop_in D f -> stable r (all loc_in) D (field_names f).
Proof. intros. unfold field_names. stable. Qed.
#[local] Hint Resolve stable_field_names : stable.
#[local] Hint Extern 1 (stable _ _ _ (LoadClass _)) => apply Hload; within : stable.
Lemma stable_superclass D : stable r any D (superclass LoadClass).
Proof using Hload. unfold superclass. stable. Qed.

#[local] Hint Resolve stable_superclass : stable.
Lemma stable_Classdef D fuel : stable r any D (Classdef tag LoadClass fuel).
Proof using Hload. unfold Classdef. stable. Qed.

Lemma in_cg_name D c : class_in D c -> opt loc_in D (cg_name c).
Proof. by intros (? & ? & ? & ? & ? & ?). Qed.
Lemma in_cg_superName D c : class_in D c -> opt loc_in D (cg_superName c).
Proof. by intros (? & ? & ? & ? & ? & ?). Qed.
Lemma in_refs D ls : all loc_in D ls -> all oop_in D (Ref <$> ls).
Proof. intros H. by apply Forall_fmap. Qed.
Lemma in_cg_instanceFields D c : class_in D c -> all loc_in D (cg_instanceFields c).
Proof. by intros (? & ? & ? & ? & ? & ?). Qed.
Lemma in_cg_instanceMethods D c : class_in D c -> all loc_in D (cg_instanceMethods c).
Proof. by intros (? & ? & ? & ? & ? & ?). Qed.
Lemma in_cg_classFields D c : class_in D c -> all loc_in D (cg_classFields c).
Proof. by intros (? & ? & ? & ? & ? & ?). Qed.
Lemma in_cg_classMethods D c : class_in D c -> all loc_in D (cg_classMethods c).
Proof. by intros (? & ? & ? & ? & ? & ?). Qed.
#[local] Hint Resolve in_cg_name in_cg_superName in_refs in_cg_instanceFields in_cg_instanceMethods
  in_cg_classFields in_cg_classMethods : within.

Lemma stable_AssembleClass D c : class_in D c -> stable r oop_in D (AssembleClass LoadClass c).
Proof using Hload. intros. unfold AssembleClass. stable. Qed.
Lemma stable_AssembleSystemClass D c p : class_in D c -> oop_in D p ->
  stable r any D (AssembleSystemClass c p).
Proof using Type. intros. unfold AssembleSystemClass. stable. Qed.
#[local] Hint Resolve stable_AssembleSystemClass : stable.

Lemma stable_compile D fuel input p : oop_in D p ->
  stable r oop_in D (compile tag LoadClass fuel input p).
Proof using Hload.
  intros Hp0 D0 w1 w2 HD Hw. unfold compile. destruct (new_Parser input) as [q|]; [|done].
  assert (agree r D0 (mkCState q w1 new_ClassGen) (mkCState q w2 new_ClassGen)) as Hs.
  { split; cbn; [done..|]. unfold class_in; cbn. split_and!; [done..|constructor|constructor|constructor|constructor]. }
  pose proof (stable_Classdef D0 fuel D0 _ _ (reflexivity _) Hs) as H. revert H.
  destruct (Classdef _ _ _ _) as [[[] s1]|], (Classdef _ _ _ _) as [[[] s2]|]; cbn; try done.
  intros (_ & D' & HD' & [Hw' _ Hc Hci] & _). rewrite Hc.
  assert (forall m : V oop, stable r oop_in D' m -> outcome r oop_in D0 (m (cs_world s1)) (m (cs_world s2))) as Hm.
  { intros m Hm. specialize (Hm D' _ _ (reflexivity _) Hw').
    destruct (m (cs_world s1)) as [[a u1]|], (m (cs_world s2)) as [[b u2]|]; cbn in *; try done.
    destruct Hm as (<- & D'' & ? & ? & ?). split; [done|]. exists D''. split_and!; [set_solver|done..]. }
  assert (oop_in D' p) by (eapply mono; [|exact Hp0]; set_solver).
  destruct p; apply Hm; [by apply stable_AssembleClass|stable|stable].
Qed.

End Parser.

#[export] Hint Resolve stable_emit stable_in_block : stable.
#[export] Hint Resolve stable_tok | 50 : stable.
