(* ===== verification/StableNatives.v ===== *)
(** * Stable primitives

    Every native routine is stable, provided that what the operating system gives does
    not depend on the heap, and that the loading of classes is stable. *)
From Stdlib Require Import String SpecFloat.
From stdpp Require Import gmap.
From S2P Require Import Prelude Bytecodes InfIntBase IntegerPrims Objects Universe HeapWalk Frame Interpreter Vector Doubles Natives Machine Agree StableHeap StableRun.
Local Open Scope Z_scope.

Record stable_environment (env : Environment) : Prop := mkStableEnvironment {
  stable_rand : forall r D, stable r any D (env_rand env);
  stable_clock : forall r D, stable r any D (env_clock env);
  stable_Print : forall r D s, stable r any D (env_Print env s);
  stable_ErrorPrint : forall r D s, stable r any D (env_ErrorPrint env s);
  stable_read : forall r D s, stable r any D (env_read env s);
  stable_requestGC : forall r D, stable r any D (env_requestGC env) }.
#[export] Hint Resolve stable_rand stable_clock stable_Print stable_ErrorPrint stable_read
  stable_requestGC : stable.

Section Natives.

Context (T : bool) (env : Environment) (Henv : stable_environment env).
Context (load : loc -> V oop) (Hload : stable_loader true load).
Context (invoke : loc -> loc -> V (option loc)).
Context (Hinvoke : forall D l frm, loc_in D l -> loc_in D frm -> stable true (opt loc_in) D (invoke l frm)).
Context (send : oop -> string -> list oop -> V ()).
Context (Hsend : forall D x s l, oop_in D x -> all oop_in D l -> stable true any D (send x s l)).

(** ** Loops *)

Lemma stable_push_elements n : forall r D i a frm,
  oop_in D a -> loc_in D frm -> stable r any D (push_elements n i a frm).
Proof. induction n as [|n IH]; intros; cbn [push_elements]; stable. Qed.
Lemma stable_fill_range n : forall r D i j a, oop_in D a -> stable r any D (fill_range T n i j a).
Proof. induction n as [|n IH]; intros; cbn [fill_range]; stable. Qed.
Lemma stable_shift_left n : forall r D i j a, oop_in D a -> stable r any D (shift_left n i j a).
Proof. induction n as [|n IH]; intros; cbn [shift_left]; stable. Qed.
Lemma stable_copy_storage n : forall r D i j a b,
  oop_in D a -> oop_in D b -> stable r any D (copy_storage n i j a b).
Proof. induction n as [|n IH]; intros; cbn [copy_storage]; stable. Qed.
#[local] Hint Resolve stable_push_elements stable_fill_range stable_shift_left stable_copy_storage : stable.

(** ** Vectors *)

Lemma stable_vec_first r D v : oop_in D v -> stable r any D (vec_first T v).
Proof. intros. unfold vec_first. stable. Qed.
Lemma stable_vec_last r D v : oop_in D v -> stable r any D (vec_last T v).
Proof. intros. unfold vec_last. stable. Qed.
Lemma stable_vec_storage r D v : oop_in D v -> stable r oop_in D (vec_storage v).
Proof. intros. unfold vec_storage. stable. Qed.
Lemma stable_set_first r D v i : oop_in D v -> stable r any D (set_first T v i).
Proof. intros. unfold set_first. stable. Qed.
Lemma stable_set_last r D v i : oop_in D v -> stable r any D (set_last T v i).
Proof. intros. unfold set_last. stable. Qed.
Lemma stable_send_error D v s : oop_in D v -> stable true oop_in D (send_error send v s).
Proof using Hsend. intros. unfold send_error. stable. Qed.
#[local] Hint Resolve stable_vec_first stable_vec_last stable_vec_storage stable_set_first stable_set_last
  stable_send_error : stable.
Lemma stable_vec_IndexOutOfBounds D v i j : oop_in D v -> stable true oop_in D (vec_IndexOutOfBounds send v i j).
Proof using Hsend. apply stable_send_error. Qed.
#[local] Hint Resolve stable_vec_IndexOutOfBounds : stable.
Lemma stable_GetStorage D v i : oop_in D v -> stable true oop_in D (GetStorage T send v i).
Proof using Hsend. intros. unfold GetStorage. stable. Qed.
#[local] Hint Resolve stable_GetStorage : stable.
Lemma stable_append_at r D v s i j x :
  oop_in D v -> oop_in D s -> oop_in D x -> stable r any D (append_at v s i j x).
Proof. intros. unfold append_at. stable. Qed.
Lemma stable_remove D v i : oop_in D v -> stable true oop_in D (remove T send v i).
Proof using Hsend. intros. unfold remove. stable. Qed.
#[local] Hint Resolve stable_append_at stable_remove : stable.
Lemma stable_remove_search n : forall D i j a v x,
  oop_in D a -> oop_in D v -> stable true oop_in D (remove_search T send n i j a v x).
Proof using Hsend. induction n as [|n IH]; intros; cbn [remove_search]; stable. Qed.
#[local] Hint Resolve stable_remove_search : stable.

(** ** Values *)

Lemma stable_GetStdString r D p : oop_in D p -> stable r any D (GetStdString p).
Proof. intros. unfold GetStdString. stable. Qed.
Lemma stable_view r D p : oop_in D p -> stable r any D (view T p).
Proof. intros. unfold view. stable. Qed.
Lemma stable_reify r D v : stable r oop_in D (reify T v).
Proof. unfold reify. stable. Qed.
#[local] Hint Resolve stable_GetStdString stable_view stable_reify : stable.
Lemma stable_int_unary r D f x : oop_in D x -> stable r oop_in D (int_unary T f x).
Proof. intros. unfold int_unary. stable. Qed.
Lemma stable_int_binary r D f x y : oop_in D x -> oop_in D y -> stable r oop_in D (int_binary T f x y).
Proof. intros. unfold int_binary. stable. Qed.
Lemma stable_all_characters r D f x : oop_in D x -> stable r oop_in D (all_characters f x).
Proof. intros. unfold all_characters. stable. Qed.
Lemma stable_coerceDouble r D x : oop_in D x -> stable r any D (coerceDouble T x).
Proof. intros. unfold coerceDouble. stable. Qed.
Lemma stable_GetEmbeddedDouble r D x : oop_in D x -> stable r any D (GetEmbeddedDouble x).
Proof. intros. unfold GetEmbeddedDouble. stable. Qed.
#[local] Hint Resolve stable_int_unary stable_int_binary stable_all_characters stable_coerceDouble
  stable_GetEmbeddedDouble : stable.
Lemma stable_with_operands r D x y (op : spec_float -> spec_float -> V oop) :
  oop_in D x -> oop_in D y -> (forall D' a b, D ⊆ D' -> stable r oop_in D' (op a b)) ->
  stable r oop_in D (with_operands T x y op).
Proof.
  intros Hx Hy Hop. unfold with_operands. eapply stable_bind; [by apply stable_coerceDouble|].
  intros D1 b HD1 _. eapply stable_bind; [apply stable_GetEmbeddedDouble; by eapply mono|].
  intros D2 a HD2 _. apply Hop. set_solver.
Qed.

(** ** Invocation *)

Lemma stable_push_arguments r D a frm : oop_in D a -> loc_in D frm -> stable r any D (push_arguments a frm).
Proof. intros. unfold push_arguments. stable. Qed.
#[local] Hint Resolve stable_push_arguments : stable.
Lemma stable_mInvokeOnWith D frm : loc_in D frm -> stable true any D (mInvokeOnWith invoke frm).
Proof using Hinvoke. intros. unfold mInvokeOnWith. stable. Qed.
Lemma stable_invoke_selector D c s frm :
  oop_in D c -> oop_in D s -> loc_in D frm -> stable true any D (invoke_selector invoke c s frm).
Proof using Hinvoke. intros. unfold invoke_selector. stable. Qed.
Lemma stable_bRestart D frm : loc_in D frm -> stable true any D (bRestart frm).
Proof.
  intros. unfold bRestart, ResetBytecodeIndex, ResetStackPointer.
  assert (forall D, stable true any D (modify (set_bytecodeIndex 0))).
  { intros. apply (stable_set_bytecodeIndex true _ (fun _ => 0)). }
  stable.
Qed.
Lemma stable_PrintStackTrace n : forall r D frm,
  loc_in D frm -> stable r any D (PrintStackTrace env n frm).
Proof using Henv. induction n as [|n IH]; intros; cbn [PrintStackTrace]; stable. Qed.
#[local] Hint Resolve stable_mInvokeOnWith stable_invoke_selector stable_bRestart
  stable_PrintStackTrace : stable.

(** ** The tables *)

Lemma unary_natives_stable :
  Forall (fun nf => forall D x, oop_in D x -> stable true oop_in D (nf.2 x)) (unary_natives T env send).
Proof using Henv Hsend.
  unfold unary_natives. repeat (apply Forall_cons; split; [cbn [snd]; intros|]); [..|constructor].
  all: unfold arrLength, arrCopy, vecFirst, vecLast, removeLast, vecSize, capacity, asArray, removeFirst,
    removeAll, GetFirst, GetLast, RemoveLast, Size, Capacity, copyStorageArray, RemoveFirst, RemoveAll,
    clsNew, clsName, clsSuperclass, clsFields, clsMethods, dblCos, dblSin, dblAsString, dblSqrt, dblRound,
    dblAsInteger, dblPositiveInfinity, intAtRandom, int_abs, mSignature, mHolder, invokable_holder,
    objObjectSize, objHashcode, objInspect, objHalt, objClass, pSignature, pHolder, mSignature, mHolder,
    strAsSymbol, strHashcode, strLength, strIsWhiteSpace, strIsLetters, strIsDigits, symAsString,
    sysPrintNewline, sysTime, sysTicks, sysFullGC, invokable_holder.
  all: stable.
Qed.

Lemma binary_natives_stable :
  Forall (fun nf => forall D x y, oop_in D x -> oop_in D y -> stable true oop_in D (nf.2 x y))
    (binary_natives T env load send).
Proof using All.
  unfold binary_natives. repeat (apply Forall_cons; split; [cbn [snd]; intros|]); [..|constructor].
  all: unfold arrNew, arrAt, vecAt, vecAtAWFY, AWFYGetStorage, vecAppend, Append, removeObject, RemoveObj,
    dblPlus, dblMinus, dblStar, dblSlashslash, dblPercent, dblEqual, dblLowerthan, dblFromString,
    dblLowerThanEqual, dblGreaterThan, dblGreaterThanEqual, dblUnequal, dblMin, dblMax, int_min, int_max,
    int_range, objEqualequal, objInstVarAt, objInstVarNamed, strConcatenate_, strEqual, strCharAt,
    sysGlobal_, sysHasGlobal_, sysLoad_, sysExit_, sysPrintString_, sysErrorPrint_, sysErrorPrintNewline_,
    sysLoadFile_.
  all: try (apply stable_with_operands; [assumption..|]; intros ? ? ? HD; grow HD).
  all: stable.
Qed.

Lemma ternary_natives_stable :
  Forall (fun nf => forall D x y z, oop_in D x -> oop_in D y -> oop_in D z -> stable true oop_in D (nf.2 x y z))
    (ternary_natives T send).
Proof using Hsend.
  unfold ternary_natives. repeat (apply Forall_cons; split; [cbn [snd]; intros|]); [..|constructor].
  all: unfold arrAtPut, vecAtPut, SetStorage, vecAtPutAWFY, SetStorageAWFY, objInstVarAtPut,
    strPrimSubstringFromTo, sysGlobalPut; stable.
Qed.

Lemma frame_natives_stable :
  Forall (fun nf => forall D frm, loc_in D frm -> stable true any D (nf.2 frm)) (frame_natives env invoke).
Proof using Henv Hinvoke.
  unfold frame_natives. repeat (apply Forall_cons; split; [cbn [snd]; intros|]); [..|constructor].
  all: unfold pInvokeOnWith, objPerform, objPerformWithArguments, objPerformInSuperclass,
    objPerformWithArgumentsInSuperclass, printStackTrace; stable.
Qed.

Lemma assoc_Forall {A} (P : A -> Prop) name (t : list (string * A)) d :
  Forall (fun nf => P nf.2) t -> P d -> P (default d (assoc name t)).
Proof.
  intros Ht Hd. induction Ht as [|[n a] t Ha _ IH]; cbn; [done|]. by destruct (String.eqb n name).
Qed.

Lemma stable_native_routines : stable_routines (native_routines T env load invoke send).
Proof using All.
  split; intros D name; cbn [frame_routine unary_routine binary_routine ternary_routine native_routines].
  - apply (assoc_Forall (fun f => forall frm, loc_in D frm -> stable true any D (f frm))); [|done].
    eapply Forall_impl; [apply frame_natives_stable|]. naive_solver.
  - apply (assoc_Forall (fun f => forall x, oop_in D x -> stable true oop_in D (f x))); [|done].
    eapply Forall_impl; [apply unary_natives_stable|]. naive_solver.
  - apply (assoc_Forall (fun f => forall x y, oop_in D x -> oop_in D y -> stable true oop_in D (f x y))); [|done].
    eapply Forall_impl; [apply binary_natives_stable|]. naive_solver.
  - apply (assoc_Forall (fun f => forall x y z, oop_in D x -> oop_in D y -> oop_in D z ->
      stable true oop_in D (f x y z))); [|done].
    eapply Forall_impl; [apply ternary_natives_stable|]. naive_solver.
Qed.

End Natives.
