(* ===== verification/StableMachine.v ===== *)
(** * Stable operations of the machine

    The loading of classes, the routines tied together with the interpreter, the run of a
    program and the start-up are stable. *)
From Stdlib Require Import String SpecFloat.
From stdpp Require Import gmap.
From S2P Require Import Prelude Bytecodes InfIntBase IntegerPrims Objects Universe HeapWalk Frame Interpreter Natives Activation Parser Machine Startup.
From S2P Require Import Agree StableHeap StableRun StableCompiler StableNatives.
Local Open Scope Z_scope.

(** ** Operations that give the machine its current method *)

Definition starts {A} (P : gset loc -> A -> Prop) (D : gset loc) (m : V A) : Prop :=
  forall D0 w1 w2, D ⊆ D0 -> agree false D0 w1 w2 -> outcome true P D0 (m w1) (m w2).

Lemma starts_after {A B} (P : gset loc -> A -> Prop) (Q : gset loc -> B -> Prop) D (m : V A) (k : A -> V B) :
  stable false P D m -> (forall D' a, D ⊆ D' -> P D' a -> starts Q D' (k a)) -> starts Q D (m ≫= k).
Proof.
  intros Hm Hk D0 w1 w2 HD Hw. specialize (Hm D0 w1 w2 HD Hw). unfold mbind, stateful_bind.
  destruct (m w1) as [[a u1]|], (m w2) as [[b u2]|]; cbn in Hm; try done.
  destruct Hm as (<- & D' & HD' & Hu & Ha).
  specialize (Hk D' a ltac:(set_solver) Ha D' u1 u2 (reflexivity _) Hu).
  destruct (k a u1) as [[c v1]|], (k a u2) as [[d v2]|]; cbn in *; try done.
  destruct Hk as (<- & D'' & ? & ? & ?). split; [done|]. exists D''. split_and!; [set_solver|done..].
Qed.

Lemma starts_before {A B} (P : gset loc -> A -> Prop) (Q : gset loc -> B -> Prop) D (m : V A) (k : A -> V B) :
  starts P D m -> (forall D' a, D ⊆ D' -> P D' a -> stable true Q D' (k a)) -> starts Q D (m ≫= k).
Proof.
  intros Hm Hk D0 w1 w2 HD Hw. specialize (Hm D0 w1 w2 HD Hw). unfold mbind, stateful_bind.
  destruct (m w1) as [[a u1]|], (m w2) as [[b u2]|]; cbn in Hm; try done.
  destruct Hm as (<- & D' & HD' & Hu & Ha).
  specialize (Hk D' a ltac:(set_solver) Ha D' u1 u2 (reflexivity _) Hu).
  destruct (k a u1) as [[c v1]|], (k a u2) as [[d v2]|]; cbn in *; try done.
  destruct Hk as (<- & D'' & ? & ? & ?). split; [done|]. exists D''. split_and!; [set_solver|done..].
Qed.

Lemma starts_stable {A} (P : gset loc -> A -> Prop) D (m : V A) : starts P D m -> stable false P D m.
Proof.
  intros Hm D0 w1 w2 HD Hw. specialize (Hm D0 w1 w2 HD Hw).
  destruct (m w1) as [[a u1]|], (m w2) as [[b u2]|]; cbn in *; try done.
  destruct Hm as (<- & D' & ? & [] & ?). split; [done|]. exists D'. by split_and!.
Qed.

Lemma starts_set_registers D frm m i :
  loc_in D frm -> loc_in D m -> starts any D (modify (set_registers (Some frm) m i)).
Proof.
  intros Hf Hm D0 w1 w2 HD [HR HH [] _]. split; [done|]. exists D0. split_and!; [done| |done].
  split; cbn; [by rewrite HR|exact HH| |by intros _; apply (mono (P := loc_in) D D0)].
  split; cbn; [done..|]. by apply (mono (P := loc_in) D D0).
Qed.

Section Machine.

Context (T vp abort : bool) (env : Environment) (classPath : list string).
Context (Henv : stable_environment env).

#[local] Hint Resolve stable_GetStdString : stable.

(** ** Loading classes *)

Lemma stable_loader_InstallPrimitives r D cname c side :
  oop_in D c -> stable r any D (loader_InstallPrimitives vp abort cname c side).
Proof using Type. intros. unfold loader_InstallPrimitives. stable. Qed.
#[local] Hint Resolve stable_loader_InstallPrimitives : stable.
Lemma stable_LoadPrimitives r D c : oop_in D c -> stable r any D (LoadPrimitives vp abort c).
Proof using Type. intros. unfold LoadPrimitives. stable. Qed.
#[local] Hint Resolve stable_LoadPrimitives : stable.

Section Loading.

Context (r : bool) (load : loc -> V oop) (Hload : stable_loader r load).
#[local] Hint Resolve stable_compile : stable.

Lemma stable_CompileClass D path file p :
  oop_in D p -> stable r oop_in D (CompileClass T env load path file p).
Proof using Henv Hload. intros. unfold CompileClass. stable. Qed.
#[local] Hint Resolve stable_CompileClass : stable.
Lemma stable_compile_on_path paths : forall D name p,
  oop_in D p -> stable r oop_in D (compile_on_path T env load paths name p).
Proof using Henv Hload. induction paths as [|i rest IH]; intros; cbn [compile_on_path]; stable. Qed.
#[local] Hint Resolve stable_compile_on_path : stable.
Lemma stable_LoadClassBasic_with D name p :
  loc_in D name -> oop_in D p -> stable r oop_in D (LoadClassBasic_with T env classPath load name p).
Proof using Henv Hload. intros. unfold LoadClassBasic_with. stable. Qed.
#[local] Hint Resolve stable_LoadClassBasic_with : stable.
Lemma stable_LoadClass_with : stable_loader r (LoadClass_with T vp abort env classPath load).
Proof using Henv Hload. intros D name Hn. unfold LoadClass_with. stable. Qed.

End Loading.

Lemma stable_LoadClass r fuel : stable_loader r (LoadClass T vp abort env classPath fuel).
Proof using Henv.
  induction fuel as [|fuel IH]; intros D name Hn; cbn [LoadClass]; [done|]. by apply stable_LoadClass_with.
Qed.

Lemma stable_LoadClassBasic r fuel D name p :
  loc_in D name -> oop_in D p -> stable r oop_in D (LoadClassBasic T vp abort env classPath fuel name p).
Proof using Henv. intros. apply stable_LoadClassBasic_with; [apply stable_LoadClass|done..]. Qed.
#[local] Hint Resolve stable_LoadClassBasic : stable.

Lemma stable_LoadSystemClass r fuel D c :
  oop_in D c -> stable r any D (LoadSystemClass T vp abort env classPath fuel c).
Proof using Henv. intros. unfold LoadSystemClass. stable. Qed.

Lemma stable_block_loader r fuel : stable_loader r (block_loader T vp abort env classPath fuel).
Proof using Henv. intros D name Hn. unfold block_loader. stable. Qed.

(** ** The run *)

Lemma stable_machine_routines fuel : stable_routines (routines T vp abort env classPath fuel).
Proof using Henv.
  induction fuel as [|fuel IH]; cbn [routines]; [by split|].
  apply stable_native_routines; [done|apply stable_LoadClass|..]; intros; stable.
Qed.

Lemma stable_run steps fuel D : stable true oop_in D (run T vp abort env classPath steps fuel).
Proof using Henv.
  unfold run. apply stable_Start; [apply stable_machine_routines|apply stable_block_loader].
Qed.

(** ** Start-up *)

Lemma stable_NewInstanceWithoutFields r D : stable r oop_in D NewInstanceWithoutFields.
Proof using Type. unfold NewInstanceWithoutFields. stable. Qed.
Lemma stable_new_VMClass r D : stable r oop_in D new_VMClass.
Proof using Type. unfold new_VMClass. stable. Qed.
#[local] Hint Resolve stable_NewInstanceWithoutFields stable_new_VMClass : stable.
Lemma stable_NewMetaclassClass r D : stable r oop_in D NewMetaclassClass.
Proof using Type. unfold NewMetaclassClass. stable. Qed.
Lemma stable_NewSystemClass r D : stable r oop_in D NewSystemClass.
Proof using Type. unfold NewSystemClass. stable. Qed.
Lemma stable_InitializeSystemClass r D c p name :
  oop_in D c -> oop_in D p -> stable r any D (InitializeSystemClass c p name).
Proof using Type. intros. unfold InitializeSystemClass. stable. Qed.
#[local] Hint Resolve stable_NewMetaclassClass stable_NewSystemClass stable_InitializeSystemClass : stable.

Lemma stable_with_constants r D a b c d :
  oop_in D a -> oop_in D b -> oop_in D c -> oop_in D d ->
  stable r any D (update_known (with_constants a b c d)).
Proof using Type.
  intros. apply stable_update_known. intros ? k HD []. split; try done; by eapply (mono (P := oop_in)).
Qed.
Lemma stable_with_classes r D a b c d e f g h i j k :
  Forall (oop_in D) [a; b; c; d; e; f; g; h; i; j; k] ->
  stable r any D (update_known (with_classes a b c d e f g h i j k)).
Proof using Type.
  intros HF. apply stable_update_known. intros ? ? HD [].
  repeat (apply Forall_cons in HF as [? HF]). split; try done; by eapply (mono (P := oop_in)).
Qed.
Lemma stable_with_loaded r D a b c d e :
  oop_in D a -> oop_in D b -> oop_in D c -> oop_in D d -> oop_in D e ->
  stable r any D (update_known (with_loaded a b c d e)).
Proof using Type.
  intros. apply stable_update_known. intros ? k HD []. split; try done; by eapply (mono (P := oop_in)).
Qed.
#[local] Hint Resolve stable_with_constants stable_with_loaded : stable.
#[local] Hint Extern 1 (stable _ _ _ (update_known (with_classes _ _ _ _ _ _ _ _ _ _ _))) =>
  apply stable_with_classes; repeat (apply Forall_cons; split; [assumption|]); constructor : stable.

Lemma stable_InitializeClasses r D : stable r any D (InitializeClasses T).
Proof using Type. unfold InitializeClasses. stable. Qed.

#[local] Hint Resolve stable_InitializeClasses stable_LoadSystemClass : stable.
Lemma stable_load_named r fuel D name : stable r oop_in D (load_named T vp abort env classPath fuel name).
Proof using Henv.
  unfold load_named. eapply stable_bind; [apply stable_SymbolFor|]. intros D' n HD Hn.
  by apply stable_LoadClass.
Qed.
Lemma stable_set_global_named r D name p : oop_in D p -> stable r any D (set_global_named name p).
Proof using Type. intros. unfold set_global_named. stable. Qed.
#[local] Hint Resolve stable_load_named stable_set_global_named : stable.
Lemma stable_LoadClasses r fuel D : stable r oop_in D (LoadClasses T vp abort env classPath fuel).
Proof using Henv. unfold LoadClasses. stable. Qed.
#[local] Hint Resolve stable_LoadClasses : stable.
Lemma stable_InitializeGlobals r fuel D : stable r oop_in D (InitializeGlobals T vp abort env classPath fuel).
Proof using Henv. unfold InitializeGlobals. stable. Qed.

(** ** Running a method *)

Lemma starts_SetFrame D frm : loc_in D frm -> starts any D (SetFrame frm).
Proof using Type.
  intros Hf. unfold SetFrame.
  eapply starts_after; [apply stable_frame|]. intros D1 old H1 Ho. grow H1.
  eapply starts_after; [apply stable_bytecodeIndex|]. intros D2 i H2 _. grow H2.
  eapply (starts_after any); [stable|]. intros D3 [] H3 _. grow H3.
  eapply starts_after; [by apply stable_load_frame|]. intros D4 f H4 Hfr. grow H4.
  apply starts_set_registers; [done|within].
Qed.

Lemma starts_PushNewFrame D m : loc_in D m -> starts loc_in D (PushNewFrame m).
Proof using Type.
  intros Hm. unfold PushNewFrame.
  eapply starts_after; [apply stable_frame|]. intros D1 prev H1 Hp. grow H1.
  eapply starts_after; [by apply stable_NewFrame|]. intros D2 frm H2 Hf. grow H2.
  eapply starts_before; [by apply starts_SetFrame|]. intros D3 [] H3 _. grow H3. stable.
Qed.

Lemma stable_createBootstrapMethod r D h n : oop_in D h -> stable r loc_in D (createBootstrapMethod h n).
Proof using Type. intros. unfold createBootstrapMethod. stable. Qed.
Lemma stable_clear_arguments r n : forall D frm, loc_in D frm -> stable r any D (clear_arguments n frm).
Proof using Type. induction n as [|n IH]; intros; cbn [clear_arguments]; stable. Qed.
#[local] Hint Resolve stable_createBootstrapMethod stable_clear_arguments stable_machine_routines
  stable_run : stable.

Lemma starts_interpretMethod steps fuel D p l a :
  oop_in D p -> loc_in D l -> oop_in D a ->
  starts oop_in D (interpretMethod T vp abort env classPath steps fuel p l a).
Proof using Henv.
  intros Hp Hl Ha. unfold interpretMethod.
  eapply starts_after; [apply stable_known|]. intros D1 k H1 Hk. grow H1.
  eapply starts_after; [apply stable_createBootstrapMethod; within|]. intros D2 m H2 Hm. grow H2.
  eapply starts_before; [by apply starts_PushNewFrame|]. intros D3 frm H3 Hf. grow H3. stable.
Qed.

Lemma stable_interpretMethod steps fuel D p l a :
  oop_in D p -> loc_in D l -> oop_in D a ->
  stable false oop_in D (interpretMethod T vp abort env classPath steps fuel p l a).
Proof using Henv. intros. by apply starts_stable, starts_interpretMethod. Qed.
#[local] Hint Resolve stable_interpretMethod : stable.

Lemma stable_interpret steps fuel D c m :
  stable false oop_in D (interpret T vp abort env classPath steps fuel c m).
Proof using Henv.
  unfold interpret. eapply stable_bind; [apply stable_SymbolFor|]. intros D1 n H1 Hn.
  eapply stable_bind; [by apply stable_LoadClass|]. intros D2 cl H2 Hcl. stable.
Qed.

Lemma stable_strings_array r ss : forall D a j, oop_in D a -> stable r any D (strings_array a j ss).
Proof using Type. induction ss as [|x ss IH]; intros; cbn [strings_array]; stable. Qed.
#[local] Hint Resolve stable_strings_array : stable.
Lemma stable_NewArrayFromStrings r D ss : stable r oop_in D (NewArrayFromStrings ss).
Proof using Type. unfold NewArrayFromStrings. stable. Qed.
#[local] Hint Resolve stable_NewArrayFromStrings stable_InitializeGlobals : stable.

Lemma stable_initialize steps fuel D argv :
  stable false oop_in D (initialize T vp abort env classPath steps fuel argv).
Proof using Henv. unfold initialize. stable. Qed.

End Machine.
