(* ===== verification/Transparency.v ===== *)
(** * Collections during a run

    The interpreter asks for collections between bytecodes ([DISPATCH_GC] of
    [src/src/interpreter/Interpreter.h], [Interpreter::startGC]).  The theorems of this
    file compose the machine with the mark and sweep collector: no reference of the
    machine ever dangles, and a run does not depend on when the collector frees objects,
    nor on whether it does. *)
From Stdlib Require Import String.
From stdpp Require Import gmap.
From S2P Require Import Instructions CompilerTests.
From S2P Require Import Prelude Bytecodes Objects Universe HeapWalk Marking MarkSweep Frame Interpreter Natives Machine Startup Programs.
From S2P Require Import Agree StableHeap StableRun StableCompiler StableNatives StableMachine.
Local Open Scope Z_scope.

(** ** The interpreter with collections *)

Section Collections.

Context (USE_TAGGING USE_VECTOR_PRIMITIVES abortOnCoreLibHashMismatch : bool).
Context (env : Environment) (classPath : list string).

(** The bytecodes that end in [DISPATCH_GC]; [INC] does without tagging, since it
    allocates then. *)
Definition dispatches_GC (bc : bytecode) : bool :=
  match bc with
  | BC_PUSH_BLOCK | BC_PUSH_GLOBAL | BC_SEND | BC_SEND_1 | BC_SUPER_SEND => true
  | BC_INC => negb USE_TAGGING
  | _ => false
  end.

(** What [Heap::FullGC] does to the machine. *)
Context (FullGC : V ()).

(** The two halves of [startGC]. *)
Definition save_index : V () :=
  frm ← GetFrame; i ← gets bytecodeIndexGlobal; SetBytecodeIndex frm i.

Definition reload_method : V () :=
  frm ← GetFrame; f ← load_frame frm;
  modify (fun w => set_registers (frame w) (f_method f) (bytecodeIndexGlobal w) w).

Definition startGC : V () := save_index;; FullGC;; reload_method.

Definition next_bytecode : V (option bytecode) :=
  i ← gets bytecodeIndexGlobal; b ← fetch i; mret (Bytecodes.decode b).

Definition at_GC_point (bc : option bytecode) : bool :=
  match bc with Some bc => dispatches_GC bc | None => false end.

(** The bytecode that is run next, and what running it gives. *)
Definition round (fuel : nat) : V (option bytecode * option oop) :=
  bc ← next_bytecode;
  r ← step USE_TAGGING
        (block_loader USE_TAGGING USE_VECTOR_PRIMITIVES abortOnCoreLibHashMismatch env classPath fuel)
        (routines USE_TAGGING USE_VECTOR_PRIMITIVES abortOnCoreLibHashMismatch env classPath fuel) fuel;
  mret (bc, r).

(** [triggered n] tells whether a collection has been requested when [n] bytecodes are
    left to run. *)
Context (triggered : nat -> bool).

Fixpoint Start_GC (steps fuel : nat) : V oop :=
  match steps with
  | O => fail OutOfFuel
  | S steps =>
      r ← round fuel;
      match r.2 with
      | Some x => mret x
      | None =>
          (if at_GC_point r.1 && triggered steps then startGC else mret tt);;
          Start_GC steps fuel
      end
  end.

End Collections.

(** ** The collectors *)

(** The mark and sweep collector on the heap of the machine. *)
Definition memory_of (w : World) : Mem MarkSweepHeap :=
  mkMem (heap w) ∅ (mkMarkSweepHeap (map_to_list (heap w)).*1 0 0 true).

Definition mark_sweep (sizeof : cxx_class -> nat) (T : bool) : V () := fun w =>
  match Collect sizeof T w (memory_of w) with
  | Ok (w', m') => Ok (tt, set_heap (objects m') w')
  | Err e => Err e
  end.

(** A collector that frees nothing. *)
Definition keep_everything : V () := mret tt.

(** ** What a collection relies on *)

(** The state that a collection has to find. No reference that the collector follows is
    null; without tagging there is no box for integers, which it does not follow then. The
    entries of the cache of a symbol behind [nextCachePos] are not followed by
    [VMSymbol::WalkObjects], although lookups read all three: they have to refer to objects
    that something else leads to. Nothing in the code takes care of this. *)
Record collectable (T : bool) (w : World) : Prop := mkCollectable {
  collectable_roots : Null ∉ roots T w;
  collectable_objects l o :
    reachable (heap w) (roots T w) l -> heap w !! l = Some o -> Null ∉ pointers o;
  collectable_box : T = true \/ integerBox (known w) = Null;
  collectable_caches l s c i :
    reachable (heap w) (roots T w) l -> heap w !! l = Some (OSymbol s) -> (c, i) ∈ sym_cache s ->
    forall l', Ref l' ∈ [c; i] -> reachable (heap w) (roots T w) l' }.

(** ** The collector and the calculus *)

Lemma all_nonnulls D ps : all oop_in D (nonnulls ps) <-> all oop_in D ps.
Proof.
  unfold all, nonnulls. induction ps as [|p ps IH]; [done|]. rewrite filter_cons, Forall_cons.
  case_decide as E; [by rewrite Forall_cons, IH|]. rewrite IH. destruct p; naive_solver.
Qed.

Lemma all_of_loc D o : all oop_in D (of_loc o) <-> opt loc_in D o.
Proof. destruct o as [l|]; unfold all; cbn; [by rewrite Forall_singleton|done]. Qed.

Lemma all_cache_pointers D n cache : all both_in D cache -> all oop_in D (cache_pointers n cache).
Proof.
  intros Hc. revert n. induction Hc as [|[c i] r [] Hr IH]; intros [|n]; cbn; [constructor..|].
  apply Forall_cons; split; [done|]. apply Forall_cons; split; [done|apply IH].
Qed.

Ltac each_in := repeat (apply Forall_cons; split; [assumption|]); apply Forall_nil_2.

(** The references that the collector follows, and all of them. *)
Lemma obj_in_pointers D o : obj_in D o -> all oop_in D (pointers o).
Proof.
  destruct o as [| | | |y|k c fs|f|m|sg hld n a t|sg hld p]; cbn [pointers obj_in]; try by intros _; apply Forall_nil_2.
  - apply all_cache_pointers.
  - intros []. by apply Forall_cons.
  - intros (? & ? & ? & ?). apply Forall_app; split; [by apply all_of_loc|].
    apply Forall_app; split; [by apply all_of_loc|]. apply Forall_cons; split; [done|by apply all_nonnulls].
  - intros (? & ? & ?). apply Forall_cons; split; [done|].
    apply Forall_app; split; apply all_nonnulls; [each_in|done].
  - intros (? & ? & ?). apply Forall_cons; split; [done|].
    apply Forall_app; split; [apply all_nonnulls; each_in|]. destruct t; cbn in *; each_in.
  - intros []. apply Forall_cons; split; [done|]. apply all_nonnulls; each_in.
Qed.

Lemma pointers_obj_in D o :
  all oop_in D (pointers o) -> (forall s, o = OSymbol s -> symbol_in D s) -> obj_in D o.
Proof.
  intros HP HS.
  destruct o as [| | | |y|k c fs|f|m|sg hld n a t|sg hld p]; cbn [pointers obj_in] in *; try done.
  - by apply HS.
  - by apply Forall_cons in HP.
  - apply Forall_app in HP as [H1 HP]. apply Forall_app in HP as [H2 HP]. apply Forall_cons in HP as [H3 H4].
    split_and!; [by apply all_of_loc..|done|by apply all_nonnulls].
  - apply Forall_cons in HP as [H1 HP]. apply Forall_app in HP as [H2 H3].
    apply (proj1 (all_nonnulls _ _)) in H2. split_and!; [done| |by apply all_nonnulls]. by apply Forall_cons in H2 as [? _].
  - apply Forall_cons in HP as [H1 HP]. apply Forall_app in HP as [H2 H3].
    apply (proj1 (all_nonnulls _ _)) in H2. split_and!; [done|by apply Forall_cons in H2 as [? _]|].
    destruct t; cbn in *; try done; by apply Forall_cons in H3 as [? _].
  - apply Forall_cons in HP as [H1 HP]. apply (proj1 (all_nonnulls _ _)) in HP. by apply Forall_cons in HP as [? _].
Qed.

(** The same for the roots. *)
Lemma roots_in_roots T D w : roots_in D w -> loc_in D (method w) -> all oop_in D (roots T w).
Proof.
  intros [HK HG HS HB HF] HM. unfold roots, all. rewrite !Forall_app. split_and!.
  - destruct HK. unfold known_pointers. destruct T; cbn [app]; each_in.
  - apply Forall_forall. intros p ([l q] & Hp & Hl%elem_of_map_to_list)%list_elem_of_bind.
    destruct (HG _ _ Hl). cbn in Hp. by repeat (apply elem_of_cons in Hp as [->|Hp]; [done|]); apply elem_of_nil in Hp.
  - apply Forall_forall. intros p ([s l] & -> & Hl%elem_of_map_to_list)%list_elem_of_fmap. by apply HS in Hl.
  - destruct HK. unfold symbol_pointers. each_in.
  - apply Forall_forall. intros p ([n q] & -> & Hl%elem_of_map_to_list)%list_elem_of_fmap. by apply HB in Hl.
  - each_in.
  - by apply all_of_loc.
Qed.

Lemma roots_roots_in T D w :
  all oop_in D (roots T w) -> T = true \/ integerBox (known w) = Null ->
  roots_in D w /\ loc_in D (method w).
Proof.
  unfold roots, all. rewrite !Forall_app. intros (HK & HG & HS & HY & HB & HM & HF) HT.
  rewrite !Forall_forall in HG, HS, HB. split; [|by apply Forall_cons in HM as [? _]]. split.
  - unfold known_pointers in HK. rewrite !Forall_app in HK. destruct HK as (H1 & HT' & H2).
    unfold symbol_pointers in HY. repeat match goal with H : Forall _ (_ :: _) |- _ => apply Forall_cons in H as [? H] end.
    split; try done. destruct HT as [-> | ->]; [by apply Forall_cons in HT' as [? _]|done].
  - intros l p Hl. assert (forall q, q ∈ [Ref l; p] -> q ∈ global_pointers (map_to_list (globals w))) as Hq.
    { intros q Hq. apply list_elem_of_bind. exists (l, p). split; [done|]. by apply elem_of_map_to_list. }
    split; [apply (HG (Ref l))|apply HG]; apply Hq; set_solver.
  - intros s l Hl. apply (HS (Ref l)), list_elem_of_fmap. exists (s, l). split; [done|].
    by apply elem_of_map_to_list.
  - intros n p Hp. apply HB, list_elem_of_fmap. exists (n, p). split; [done|]. by apply elem_of_map_to_list.
  - by apply all_of_loc.
Qed.

(** ** A collection keeps what the machine can see *)

Lemma reachable_within D h rs l :
  (forall l, l ∈ D -> exists o, h !! l = Some o /\ obj_in D o) -> all oop_in D rs -> reachable h rs l -> l ∈ D.
Proof.
  intros HH HT Hl. induction Hl as [l Hl|l o l' _ IH Ho Hl'].
  - unfold all in HT. rewrite Forall_forall in HT. by apply (HT (Ref l)).
  - destruct (HH l IH) as (o' & Ho' & Hin). simplify_eq. apply obj_in_pointers in Hin.
    unfold all in Hin. rewrite Forall_forall in Hin. by apply (Hin (Ref l')).
Qed.

Lemma reachable_in T D w1 w2 l :
  agree true D w1 w2 -> reachable (heap w2) (roots T w2) l -> l ∈ D.
Proof.
  intros [HR HH HO HM]. apply reachable_within.
  - intros l' Hl'. destruct (HH l' Hl') as (o & _ & ? & ?). by exists o.
  - rewrite HR. apply roots_in_roots; [|by apply HM]. by destruct HO.
Qed.

Lemma memory_consistent T D w1 w2 :
  agree true D w1 w2 -> is_Some (frame w2) -> Null ∉ roots T w2 ->
  (forall l o, reachable (heap w2) (roots T w2) l -> heap w2 !! l = Some o -> Null ∉ pointers o) ->
  consistent T w2 (memory_of w2).
Proof.
  intros Hw HF HN HP. split; cbn; [done| | |done|].
  - apply NoDup_fst_map_to_list.
  - intros l. rewrite list_elem_of_fmap. split.
    + intros ([l' o] & -> & Ho%elem_of_map_to_list). by exists o.
    + intros [o Ho]. exists (l, o). split; [done|]. by apply elem_of_map_to_list.
  - split; [done|]. intros l Hl.
    destruct (agree_heap _ _ _ _ Hw l (reachable_in _ _ _ _ _ Hw Hl)) as (o & _ & Ho & _). exists o.
    split; [done|]. by apply (HP l).
Qed.

Lemma collection_agrees sizeof T D w1 w2 :
  agree true D w1 w2 -> is_Some (frame w2) -> collectable T w2 ->
  exists D' w2', mark_sweep sizeof T w2 = Ok (tt, w2') /\ agree true D' w1 w2'.
Proof.
  intros Hw HF [HN HP HT HC].
  destruct (Collect_spec sizeof T w2 _ (memory_consistent _ _ _ _ Hw HF HN HP)) as (m' & E & HO & _).
  unfold mark_sweep. rewrite E. cbn [objects memory_of] in HO.
  exists (dom (objects m')). eexists. split; [done|].
  pose proof Hw as [HR HH _ _]. set (D' := dom (objects m')).
  assert (forall l, reachable (heap w2) (roots T w2) l -> l ∈ D') as HD'.
  { intros l Hl. destruct (HH l (reachable_in _ _ _ _ _ Hw Hl)) as (o & _ & Ho & _).
    apply elem_of_dom. exists o. by apply HO. }
  assert (all oop_in D' (roots T w2)) as Hroots.
  { apply Forall_forall. intros [| |l] Hl; cbn; [done..|]. by apply HD', reachable_root. }
  apply roots_roots_in in Hroots as [HR' HM']; [|done].
  split.
  - cbn. rewrite HR. done.
  - intros l [o [Ho Hl]%HO]%elem_of_dom. cbn.
    destruct (HH l (reachable_in _ _ _ _ _ Hw Hl)) as (o' & Ho1 & Ho2 & _). simplify_eq. exists o.
    split_and!; [done|by apply HO|]. apply pointers_obj_in.
    + apply Forall_forall. intros [| |l'] Hl'; cbn; [done..|]. by eapply HD', reachable_step.
    + intros s ->. apply Forall_forall. intros [c i] He.
      assert (forall p, p ∈ [c; i] -> oop_in D' p) as HE.
      { intros [| |l'] Hp; cbn; [done..|]. by apply HD', (HC l s c i). }
      split; apply HE; set_solver.
  - rewrite HR in HR'. by destruct HR'.
  - intros _. by rewrite HR in HM'.
Qed.

(** ** Runs with collections *)

(** The same error, or the same answer in states that agree on all that the machine and
    the answer lead to. *)
Definition alike {A} (P : gset loc -> A -> Prop) (r1 r2 : result (A * World)) : Prop :=
  match r1, r2 with
  | Ok (a1, w1), Ok (a2, w2) => a1 = a2 /\ exists D, agree true D w1 w2 /\ P D a1
  | Err e1, Err e2 => e1 = e2
  | _, _ => False
  end.

Lemma outcome_alike {A} (P : gset loc -> A -> Prop) D r1 r2 : outcome true P D r1 r2 -> alike P r1 r2.
Proof.
  destruct r1 as [[a w1]|], r2 as [[b w2]|]; cbn; try done. intros (-> & D' & ? & ? & ?).
  split; [done|]. by exists D'.
Qed.

Section Runs.

Context (sizeof : cxx_class -> nat) (T vp abort : bool) (env : Environment) (classPath : list string).
Context (triggered : nat -> bool).

Notation round_of fuel := (round T vp abort env classPath fuel).
Notation step_of fuel := (step T (block_loader T vp abort env classPath fuel)
  (routines T vp abort env classPath fuel) fuel).

(** Every collection of the run, from [w] on, finds a state that has [P]. *)
Fixpoint collections_find (P : World -> Prop) (steps fuel : nat) (w : World) : Prop :=
  match steps with
  | O => True
  | S steps =>
      match round_of fuel w with
      | Ok ((bc, None), w') =>
          if at_GC_point T bc && triggered steps then
            match save_index w' with
            | Ok (_, w1) =>
                P w1 /\
                match (mark_sweep sizeof T;; reload_method) w1 with
                | Ok (_, w2) => collections_find P steps fuel w2
                | Err _ => True
                end
            | Err _ => True
            end
          else collections_find P steps fuel w'
      | _ => True
      end
  end.

Context (Henv : stable_environment env).

#[local] Hint Resolve stable_fetch stable_GetFrame : stable.
Lemma stable_next_bytecode D : stable true any D next_bytecode.
Proof using Type. unfold next_bytecode. stable. Qed.
Lemma stable_save_index D : stable true any D save_index.
Proof using Type. unfold save_index. stable. Qed.
Lemma stable_reload_method D : stable true any D reload_method.
Proof using Type.
  unfold reload_method. stable. apply stable_update; [done..| |].
  - by intros ? w HD [].
  - intros D' w HD _ _. cbn. eapply (mono (P := loc_in)); [exact HD|within].
Qed.
#[local] Hint Resolve stable_next_bytecode : stable.

Lemma stable_machine_step fuel D : stable true (opt oop_in) D (step_of fuel).
Proof using Henv. apply stable_step; [by apply stable_machine_routines|by apply stable_block_loader]. Qed.
#[local] Hint Resolve stable_machine_step : stable.

Lemma stable_round fuel D :
  stable true (fun D r => opt oop_in D r.2) D (round_of fuel).
Proof using Henv.
  unfold round.
  eapply stable_bind; [apply stable_next_bytecode|]. intros D1 bc H1 _.
  eapply stable_bind; [apply stable_machine_step|]. intros D2 r H2 Hr.
  apply stable_ret; [|done]. intros ? ? [? ?] ?. cbn. by apply mono.
Qed.

Lemma save_index_frame w w' : save_index w = Ok (tt, w') -> is_Some (frame w').
Proof using Type.
  intros H. apply bind_Ok in H as (l & w0 & E & H). apply bind_Ok in E as (f & w1 & [= <- <-] & E).
  destruct (frame w) as [l'|] eqn:HF; [|done]. injection E as <- <-.
  apply bind_Ok in H as (i & w1 & [= <- <-] & H). unfold SetBytecodeIndex, update_frame in H.
  apply bind_Ok in H as (f & w1 & E & H). unfold load_frame in E.
  apply bind_Ok in E as (o & w2 & E & E'). unfold load in E. destruct (heap w !! l') as [o'|] eqn:Ho; [|done].
  injection E as <- <-. destruct o'; try done. injection E' as <- <-.
  unfold store in H. rewrite Ho in H. injection H as <-. cbn. by rewrite HF.
Qed.

Lemma startGC_alike D w1 w2 :
  agree true D w1 w2 ->
  (forall w', save_index w2 = Ok (tt, w') -> collectable T w') ->
  alike any (startGC keep_everything w1) (startGC (mark_sweep sizeof T) w2).
Proof using Type.
  intros Hw HS. unfold startGC, keep_everything. unfold mbind, stateful_bind.
  pose proof (stable_save_index D D w1 w2 (reflexivity _) Hw) as H. unfold outcome in H.
  destruct (save_index w1) as [[[] u1]|], (save_index w2) as [[[] u2]|] eqn:E2; try done.
  destruct H as (_ & D1 & _ & Hu & _).
  destruct (collection_agrees sizeof _ _ _ _ Hu (save_index_frame _ _ E2) (HS _ eq_refl)) as (D2 & v2 & -> & Hv).
  cbn [mret stateful_ret]. apply outcome_alike with D2. by eapply stable_reload_method.
Qed.

Lemma Start_GC_alike steps fuel : forall D w1 w2,
  agree true D w1 w2 -> collections_find (collectable T) steps fuel w2 ->
  alike oop_in (Start_GC T vp abort env classPath keep_everything triggered steps fuel w1)
    (Start_GC T vp abort env classPath (mark_sweep sizeof T) triggered steps fuel w2).
Proof using Henv.
  induction steps as [|steps IH]; intros D w1 w2 Hw HS; [done|].
  cbn [Start_GC collections_find] in *. unfold mbind at 1, stateful_bind at 1.
  unfold mbind at 2, stateful_bind at 2.
  pose proof (stable_round fuel D D w1 w2 (reflexivity _) Hw) as H. unfold outcome in H.
  destruct (round_of fuel w1) as [[[bc r] u1]|], (round_of fuel w2) as [[[bc' r'] u2]|]; try done.
  destruct H as ([= <- <-] & D1 & _ & Hu & Hr). cbn [snd fst] in *.
  destruct r as [a|]; [by split; [|exists D1]|]. 
  destruct (at_GC_point T bc && triggered steps); [|by apply (IH D1)].
  assert (alike any (startGC keep_everything u1) (startGC (mark_sweep sizeof T) u2)) as HA.
  { apply (startGC_alike D1); [done|]. intros w' E. rewrite E in HS. by apply HS. }
  unfold alike in HA. unfold mbind, stateful_bind.
  destruct (startGC keep_everything u1) as [[[] v1]|], (startGC (mark_sweep sizeof T) u2) as [[[] v2]|] eqn:E; try done.
  destruct HA as (_ & D2 & Hv & _). apply (IH D2); [done|].
  unfold startGC in E. apply bind_Ok in E as ([] & x & E1 & E2). rewrite E1 in HS.
  destruct HS as [_ HS]. by rewrite E2 in HS.
Qed.

End Runs.

(** ** The states of the machine *)

Section States.

Context (sizeof : cxx_class -> nat) (T vp abort : bool) (env : Environment) (classPath : list string).

Notation routines_of fuel := (routines T vp abort env classPath fuel).

(** [initialize] up to the loop of the interpreter. *)
Definition start_method (fuel : nat) (receiver : oop) (init : loc) (arguments : oop) : V () :=
  k ← gets known;
  bootstrapMethod ← createBootstrapMethod (systemClass k) 2;
  bootstrapFrame ← PushNewFrame bootstrapMethod;
  n ← invokable_arguments bootstrapMethod;
  clear_arguments n bootstrapFrame;;
  Push bootstrapFrame receiver;;
  (if decide (arguments = Null) then mret tt else Push bootstrapFrame arguments);;
  Interpreter.Invoke T (routines_of fuel) fuel init bootstrapFrame;;
  mret tt.

Definition bootstrap (fuel : nat) (argv : list string) : V () :=
  systemObject ← InitializeGlobals T vp abort env classPath fuel;
  k ← gets known;
  sel ← SymbolFor "initialize:";
  found ← LookupInvokable (systemClass k) sel;
  init ← lift (of_option Undef found);
  argumentsArray ← NewArrayFromStrings argv;
  start_method fuel systemObject init argumentsArray.

Lemma bind_alike {S A B} (m : stateful S A) (f g : A -> stateful S B) s :
  (forall a s', f a s' = g a s') -> (m ≫= f) s = (m ≫= g) s.
Proof using Type. intros H. unfold mbind, stateful_bind. destruct (m s) as [[]|]; [apply H|done]. Qed.

Lemma interpretMethod_start steps fuel p l a w :
  interpretMethod T vp abort env classPath steps fuel p l a w =
  (start_method fuel p l a;; run T vp abort env classPath steps fuel) w.
Proof using Type.
  unfold interpretMethod, start_method. repeat (rewrite bind_assoc; apply bind_alike; intros ? ?). done.
Qed.

Lemma initialize_bootstrap steps fuel argv w :
  initialize T vp abort env classPath steps fuel argv w =
  (bootstrap fuel argv;; run T vp abort env classPath steps fuel) w.
Proof using Type.
  unfold initialize, bootstrap. repeat (rewrite bind_assoc; apply bind_alike; intros ? ?).
  apply interpretMethod_start.
Qed.

(** The states of a program between two bytecodes, with collections at any time. *)
Inductive executes (fuel : nat) : World -> Prop :=
  | executes_start argv w : bootstrap fuel argv empty_world = Ok (tt, w) -> executes fuel w
  | executes_step w r w' :
      executes fuel w ->
      step T (block_loader T vp abort env classPath fuel) (routines_of fuel) fuel w = Ok (r, w') ->
      executes fuel w'
  | executes_collect w w1 w' :
      executes fuel w ->
      save_index w = Ok (tt, w1) -> collectable T w1 ->
      (mark_sweep sizeof T;; reload_method) w1 = Ok (tt, w') ->
      executes fuel w'.

Lemma executes_booted fuel argv :
  match bootstrap fuel argv empty_world with Ok _ => true | Err _ => false end = true ->
  executes fuel (world_of (bootstrap fuel argv empty_world)).
Proof using Type.
  intros H. apply (executes_start fuel argv). by destruct (bootstrap fuel argv empty_world) as [[[] w]|].
Qed.

(** There is a set of locations that all variables of the machine lead into, where every
    location has an object that refers into the set. *)
Definition sound (w : World) : Prop :=
  exists D, (forall l, l ∈ D -> exists o, heap w !! l = Some o /\ obj_in D o) /\
    roots_in D w /\ loc_in D (method w).

Lemma sound_agree w : sound w <-> exists D, agree true D w w.
Proof using Type.
  split.
  - intros (D & HH & HR & HM). exists D. split; [by destruct w| |done|done].
    intros l (o & ? & ?)%HH. by exists o.
  - intros [D [_ HH HR HM]]. exists D. split_and!; [|done|by apply HM].
    intros l (o & ? & _ & ?)%HH. by exists o.
Qed.

Lemma agree_right D (w1 w2 : World) : agree true D w1 w2 -> agree true D w2 w2.
Proof using Type.
  intros [HR HH HO HM]. split.
  - by destruct w2.
  - intros l (o & _ & ? & ?)%HH. by exists o.
  - rewrite HR. by destruct HO.
  - rewrite HR. done.
Qed.

Lemma stable_sound {A} (P : gset loc -> A -> Prop) (m : V A) w a w' :
  (forall D, stable true P D m) -> sound w -> m w = Ok (a, w') -> sound w'.
Proof using Type.
  intros Hm [D Hw]%sound_agree E. specialize (Hm D D w w (reflexivity _) Hw). rewrite E in Hm.
  destruct Hm as (_ & D' & _ & Hw' & _). apply sound_agree. by exists D'.
Qed.

Lemma collected_sound w w' :
  sound w -> is_Some (frame w) -> collectable T w ->
  (mark_sweep sizeof T;; reload_method) w = Ok (tt, w') -> sound w'.
Proof using Type.
  intros [D Hw]%sound_agree HF HS E2.
  destruct (collection_agrees sizeof _ _ _ _ Hw HF HS) as (D' & w2 & E & Hw').
  apply bind_Ok in E2 as ([] & x & E' & E2). rewrite E in E'. injection E' as <-.
  eapply stable_sound; [|apply sound_agree|exact E2]; [apply stable_reload_method|].
  exists D'. by eapply agree_right.
Qed.

Context (Henv : stable_environment env).

Lemma empty_world_agrees : agree false ∅ empty_world empty_world.
Proof using Type. by repeat split. Qed.

#[local] Hint Resolve stable_clear_arguments stable_machine_routines : stable.
Lemma starts_start_method fuel D p l a :
  oop_in D p -> loc_in D l -> oop_in D a -> starts any D (start_method fuel p l a).
Proof using Henv.
  intros Hp Hl Ha. unfold start_method.
  eapply starts_after; [apply stable_known|]. intros D1 k H1 Hk. grow H1.
  eapply starts_after; [apply stable_createBootstrapMethod; within|]. intros D2 m H2 Hm. grow H2.
  eapply starts_before; [by apply starts_PushNewFrame|]. intros D3 frm H3 Hf. grow H3. stable.
Qed.

Lemma bootstrap_sound fuel argv w : bootstrap fuel argv empty_world = Ok (tt, w) -> sound w.
Proof using Henv.
  assert (starts any ∅ (bootstrap fuel argv)) as HB.
  { unfold bootstrap.
    eapply starts_after; [by apply stable_InitializeGlobals|]. intros D1 p H1 Hp. clear H1.
    eapply starts_after; [apply stable_known|]. intros D2 k H2 Hk. grow H2.
    eapply starts_after; [apply stable_SymbolFor|]. intros D3 sel H3 Hsel. grow H3.
    eapply starts_after; [apply stable_LookupInvokable; within|]. intros D4 o H4 Ho. grow H4.
    eapply (starts_after loc_in); [stable|]. intros D5 l H5 Hl. grow H5.
    eapply starts_after; [apply stable_NewArrayFromStrings|]. intros D6 a H6 Ha. grow H6.
    by apply starts_start_method. }
  specialize (HB ∅ empty_world empty_world (reflexivity _) empty_world_agrees).
  intros E. rewrite E in HB. destruct HB as (_ & D & _ & Hw & _). apply sound_agree. by exists D.
Qed.

Lemma executes_sound fuel w : executes fuel w -> sound w.
Proof using Henv.
  induction 1 as [argv w E|w r w' _ IH E|w w1 w' _ IH E1 HS E2].
  - by eapply bootstrap_sound.
  - eapply stable_sound; [|exact IH|exact E]. intros D. by apply stable_machine_step.
  - eapply collected_sound; [|by eapply save_index_frame|exact HS|exact E2].
    eapply stable_sound; [|exact IH|exact E1]. apply stable_save_index.
Qed.

End States.

(** ** The theorems *)

(** The same error, or the same answer in states that differ in the heap only, and there
    only in what neither the machine nor the answer leads to. *)
Definition same_end (T : bool) (r1 r2 : result (oop * World)) : Prop :=
  match r1, r2 with
  | Ok (a1, w1), Ok (a2, w2) =>
      a1 = a2 /\ w2 = set_heap (heap w2) w1 /\
      forall l, reachable (heap w1) (a1 :: roots T w1) l ->
        exists o, heap w1 !! l = Some o /\ heap w2 !! l = Some o
  | Err e1, Err e2 => e1 = e2
  | _, _ => False
  end.

Lemma alike_same_end T r1 r2 : alike oop_in r1 r2 -> same_end T r1 r2.
Proof.
  destruct r1 as [[a w1]|], r2 as [[b w2]|]; cbn; try done.
  intros (-> & D & [HR HH HO HM] & Ha). split; [done|]. split; [done|]. intros l Hl.
  apply (reachable_within D) in Hl.
  - destruct (HH l Hl) as (o & ? & ? & _). by exists o.
  - intros l' Hl'. destruct (HH l' Hl') as (o & ? & _ & ?). by exists o.
  - apply Forall_cons; split; [done|]. apply roots_in_roots; [done|by apply HM].
Qed.

(** C3: No reference dangles, as long as collections find what they rely on. Whatever the
    source files are, in every state of a program between two bytecodes (from the end of
    the start-up on, through any bytecodes and any collections of [collectable] states) the
    variables of the machine and, from there, the fields of objects, the frames, the
    literals and holders of methods and the caches of symbols lead to objects only: the
    compiler, the loader, the primitives and the interpreter never make up a reference to
    something that is not an object. A collection could: it is assumed to find no null
    where it follows a reference, and no cache entry that it does not follow and that
    nothing else keeps alive. *)
Theorem no_reference_dangles sizeof T vp abort env classPath fuel w :
  stable_environment env -> executes sizeof T vp abort env classPath fuel w -> sound w.
Proof. intros Henv. by apply executes_sound. Qed.

(** C2: Collections of [collectable] states cannot be observed. A run in which the mark and
    sweep collector works at every point where the interpreter lets it, at an arbitrary
    choice of these, ends as the run with a collector that frees nothing: with the same
    error, or with the same answer, the same variables of the machine, and the same objects
    wherever these lead. It is assumed that each of these collections finds no null where
    it follows a reference, and that every entry of a symbol's cache, also where the
    collector does not follow it, refers to an object that is reachable otherwise. *)
Theorem collections_not_observable sizeof T vp abort env classPath triggered steps fuel w :
  stable_environment env -> sound w ->
  collections_find sizeof T vp abort env classPath triggered (collectable T) steps fuel w ->
  same_end T
    (Start_GC T vp abort env classPath keep_everything triggered steps fuel w)
    (Start_GC T vp abort env classPath (mark_sweep sizeof T) triggered steps fuel w).
Proof.
  intros Henv [D Hw]%sound_agree HS. apply alike_same_end. by apply (Start_GC_alike _ _ _ _ _ _ _ Henv _ _ D).
Qed.

(** ** Checking collections

    [collectable] is decided by a collection: a symbol that is left has no entry that was
    freed. *)

(** No reference that the collector follows is null. *)
Definition no_nulls (T : bool) (w : World) : bool :=
  forallb (fun p => negb (bool_decide (p = Null))) (roots T w) &&
  forallb (fun '(_, o) => forallb (fun p => negb (bool_decide (p = Null))) (pointers o)) (map_to_list (heap w)) &&
  (T || bool_decide (integerBox (known w) = Null)).

Definition refers (h : gmap loc obj) (p : oop) : bool :=
  match p with Ref l => bool_decide (is_Some (h !! l)) | _ => true end.

(** The entries of the caches are objects, those behind the next position included, which
    the collector does not follow. *)
Definition caches_alive (w : World) : bool :=
  forallb (fun '(_, o) =>
    match o with
    | OSymbol s => forallb (fun e => refers (heap w) e.1 && refers (heap w) e.2) (sym_cache s)
    | _ => true
    end) (map_to_list (heap w)).

Definition collection_check (sizeof : cxx_class -> nat) (T : bool) (w : World) : bool :=
  no_nulls T w && match mark_sweep sizeof T w with Ok (_, w') => caches_alive w' | Err _ => true end.

Lemma no_nulls_spec ps : forallb (fun p => negb (bool_decide (p = Null))) ps = true -> Null ∉ ps.
Proof. intros H Hn%list_elem_of_In. rewrite forallb_forall in H. by apply H in Hn. Qed.

Lemma caches_alive_spec w l s :
  caches_alive w = true -> heap w !! l = Some (OSymbol s) -> symbol_in (dom (heap w)) s.
Proof.
  intros HC Hl. unfold caches_alive in HC. rewrite forallb_forall in HC.
  specialize (HC (l, OSymbol s)). cbn beta iota in HC. rewrite forallb_forall in HC.
  apply Forall_forall. intros e He%list_elem_of_In.
  assert (forall p, refers (heap w) p = true -> oop_in (dom (heap w)) p) as HR.
  { intros [| |l'] Hp; cbn; [done..|]. apply elem_of_dom. by apply bool_decide_eq_true in Hp. }
  assert (In (l, OSymbol s) (map_to_list (heap w))) as Hin by (by apply list_elem_of_In, elem_of_map_to_list).
  specialize (HC Hin e He). apply andb_true_iff in HC as [H1 H2]. split; by apply HR.
Qed.

Lemma collection_checked sizeof T D w1 w :
  agree true D w1 w -> is_Some (frame w) -> collection_check sizeof T w = true -> collectable T w.
Proof.
  intros Hw HF [HN HC]%andb_true_iff.
  apply andb_true_iff in HN as [[HN HP]%andb_true_iff HT].
  assert (forall l o, reachable (heap w) (roots T w) l -> heap w !! l = Some o -> Null ∉ pointers o) as HP'.
  { intros l o _ Ho. apply no_nulls_spec. rewrite forallb_forall in HP.
    apply (HP (l, o)), list_elem_of_In. by apply elem_of_map_to_list. }
  apply no_nulls_spec in HN. split; [done|done| |].
  { apply orb_true_iff in HT as [->|HT]; [by left|right]. by apply bool_decide_eq_true in HT. }
  destruct (Collect_spec sizeof T w _ (memory_consistent _ _ _ _ Hw HF HN HP')) as (m' & E & HO & _).
  unfold mark_sweep in HC. rewrite E in HC. cbn [objects memory_of] in HO.
  intros l s c i Hl Hs He l' Hl'.
  assert (symbol_in (dom (objects m')) s) as HS by (apply (caches_alive_spec _ l s HC); by apply HO).
  unfold symbol_in, all in HS. rewrite Forall_forall in HS. destruct (HS _ He) as [Hc Hi].
  assert (l' ∈ dom (objects m')) as [o [_ H]%HO]%elem_of_dom; [|done].
  repeat (apply elem_of_cons in Hl' as [Hl'|Hl']; [simplify_eq/=; done|]). by apply elem_of_nil in Hl'.
Qed.

Section Checks.

Context (sizeof : cxx_class -> nat) (T vp abort : bool) (env : Environment) (classPath : list string).
Context (triggered : nat -> bool) (Henv : stable_environment env).

Notation round_of fuel := (round T vp abort env classPath fuel).

(** Every collection of the run, from [w] on, passes the check. *)
Fixpoint collections_check (steps fuel : nat) (w : World) : bool :=
  match steps with
  | O => true
  | S steps =>
      match round_of fuel w with
      | Ok ((bc, None), w') =>
          if at_GC_point T bc && triggered steps then
            match save_index w' with
            | Ok (_, w1) =>
                collection_check sizeof T w1 &&
                match (mark_sweep sizeof T;; reload_method) w1 with
                | Ok (_, w2) => collections_check steps fuel w2
                | Err _ => true
                end
            | Err _ => true
            end
          else collections_check steps fuel w'
      | _ => true
      end
  end.

Lemma collections_checked steps fuel w :
  sound w -> collections_check steps fuel w = true ->
  collections_find sizeof T vp abort env classPath triggered (collectable T) steps fuel w.
Proof using Henv.
  revert w. induction steps as [|steps IH]; intros w Hw HS; [done|].
  cbn [collections_find collections_check] in *.
  destruct (round_of fuel w) as [[[bc [a|]] w']|] eqn:E; [done| |done].
  assert (sound w') as Hw'.
  { eapply stable_sound; [|exact Hw|exact E]. intros D. by apply stable_round. }
  destruct (at_GC_point T bc && triggered steps); [|by apply IH].
  destruct (save_index w') as [[[] w1]|] eqn:E1; [|done]. apply andb_true_iff in HS as [HC HS].
  assert (sound w1) as [D Hw1]%sound_agree.
  { eapply stable_sound; [|exact Hw'|exact E1]. apply stable_save_index. }
  pose proof (collection_checked _ _ _ _ _ Hw1 (save_index_frame _ _ E1) HC) as HC1. split; [done|].
  destruct ((mark_sweep sizeof T;; reload_method) w1) as [[[] w2]|] eqn:E2; [|done].
  apply IH; [|done]. apply (collected_sound sizeof T w1); [|by apply (save_index_frame w')|done|done].
  apply sound_agree. by exists D.
Qed.

End Checks.

(** ** A program that runs with collections *)

Lemma library_stable : stable_environment library.
Proof. split; intros; apply stable_ret; try apply _; done. Qed.

Definition booted : World :=
  world_of (bootstrap true true false library ["lib"%string] 3 ["x"%string] empty_world).

Lemma booted_executes : executes (fun _ => 8%nat) true true false library ["lib"%string] 3 booted.
Proof.
  unfold booted. apply executes_booted. vm_compute. reflexivity.
Qed.

Lemma world_of_Ok {A} (r : result (A * World)) a :
  match r with Ok (b, _) => Some b | Err _ => None end = Some a -> r = Ok (a, world_of r).
Proof. destruct r as [[b w]|]; intros [= <-]. done. Qed.

Lemma booted_sound : sound booted.
Proof. eapply executes_sound; [exact library_stable|exact booted_executes]. Qed.

(** The machine after the first bytecodes and a collection. *)
Definition stepped : World :=
  world_of (step true (block_loader true true false library ["lib"%string] 3)
    (routines true true false library ["lib"%string] 3) 3 booted).

Definition saved : World := world_of (save_index stepped).

Definition swept_world : World := world_of ((mark_sweep (fun _ => 8%nat) true;; reload_method) saved).

Lemma stepped_executes : executes (fun _ => 8%nat) true true false library ["lib"%string] 3 stepped.
Proof.
  apply (executes_step _ _ _ _ _ _ 3 booted None); [exact booted_executes|].
  unfold stepped. apply world_of_Ok. vm_compute. reflexivity.
Qed.

Lemma saved_collectable : save_index stepped = Ok (tt, saved) /\ collectable true saved.
Proof.
  assert (save_index stepped = Ok (tt, saved)) as E.
  { unfold saved. apply world_of_Ok. vm_compute. reflexivity. }
  split; [exact E|]. assert (sound saved) as [D Hw]%sound_agree.
  { eapply stable_sound; [|eapply executes_sound; [exact library_stable|exact stepped_executes]|exact E].
    apply stable_save_index. }
  apply (collection_checked (fun _ => 8%nat) true D saved saved Hw (save_index_frame stepped saved E)).
  vm_compute. reflexivity.
Qed.

Lemma no_reference_dangles_witness : (size (heap swept_world) < size (heap saved))%nat /\ sound swept_world.
Proof.
  split; [apply Nat.ltb_lt; vm_compute; reflexivity|].
  apply (no_reference_dangles (fun _ => 8%nat) true true false library ["lib"%string] 3).
  - exact library_stable.
  - apply (executes_collect _ _ _ _ _ _ 3 stepped saved).
    + exact stepped_executes.
    + exact (proj1 saved_collectable).
    + exact (proj2 saved_collectable).
    + unfold swept_world. apply world_of_Ok. vm_compute. reflexivity.
Defined.

Definition often (n : nat) : bool := Nat.eqb (n mod 8) 0.

Definition collected (steps : nat) : result (oop * World) :=
  Start_GC true true false library ["lib"%string] (mark_sweep (fun _ => 8%nat) true) often steps 3 booted.

(** The program of the library computes a factorial; the collector frees objects. *)
Example factorial_with_collections :
  match collected 200 with Ok (a, w) => Some (a, size (heap w)) | Err _ => None end =
  Some (Tagged 3628800, 308%nat).
Proof. vm_compute. reflexivity. Qed.

Lemma collections_not_observable_witness :
  same_end true
    (Start_GC true true false library ["lib"%string] keep_everything often 200 3 booted)
    (collected 200).
Proof.
  apply (collections_not_observable (fun _ => 8%nat) true true false library ["lib"%string] often 200 3 booted).
  - exact library_stable.
  - exact booted_sound.
  - apply collections_checked; [exact library_stable|exact booted_sound|]. vm_compute. reflexivity.
Defined.

(** ** A loop without collections *)

(** The loop allocates an integer in every round, without tagging, and a double if the
    field has one, but none of its instructions lets the collector work. *)
Example loop_without_collections :
  match code_of (compile_method ["a"%string] "forever: b = ( [ b ] whileTrue: [ a := a + 1 ] )") with
  | Ok bs => (fun cs => existsb (fun i => dispatches_GC false (i_op i)) cs) <$> decode_all 20 bs
  | Err _ => None
  end = Some false.
Proof. vm_compute. reflexivity. Qed.
